(* ===== verification/_CoqProject ===== *)
-Q . S2P
Prelude.v
Ordered.v
Os.v
AppendOnlyFile.v
Frame.v
Codec.v
KeyValues.v
Names.v
MonoMap.v
MonoMapFrame.v
MonoMapLoad.v
MonoMapRep.v
MonoMapUpdate.v
MonoMapRecover.v
MonoMapTrim.v
MonoMapProps.v
Entry.v
FileLogEntries.v
FleSpec.v
SegmentNames.v
LogConfig.v
LogSegment.v
SegmentSpec.v
LogSegments.v
LogTypes.v
LogEntryCache.v
CacheProps.v
IndexSpec.v
IndexOpen.v
Indexes.v
Loglet.v
Log.v
LogLoader.v
LogletRep.v
LogletFetch.v
LogletAppend.v
LogletRoll.v
LogletTrim.v
LogExample.v
StartSpec.v
LogSpec.v
LogWrite.v
LogRead.v
LogRetain.v
LogRefine.v
StartRecover.v
StartProps.v
Sessions.v
LogletProps.v
Rounding.v
TimeWheel.v
TimerSpec.v
TimerPoll.v
TimerProps.v
DateLut.v
StreamTime.v
WindowHelpers.v
WindowParamsProps.v
WindowSpec.v
Watermark.v
WatermarkSpec.v
TimeBuckets.v
Aggregator.v
WindowAggregating.v
WindowAggSpec.v
WindowAggInv.v
WindowAggProps.v
WindowAggLive.v
WindowExamples.v
CountedValueMap.v
CountedValueProps.v
CountedValueAgg.v
AggregateBatch.v
AggregateBatchProps.v
SessionWindow.v
SessionProps.v
Changelog.v
ChangelogProps.v
ChangelogAgg.v
Dedup.v
