(* ===== verification/Prelude.v ===== *)
(** * A verification of the stream store and of window aggregation of Timeplus Proton

    Proton keeps every stream in a replicated log, and a node keeps its copy in a
    directory of files: the local log (src/src/Cluster/LocalLog).  This library
    models the local log from the system calls up to the operations its clients use,
    and proves that the operations implement an abstract log of numbered entries,
    also when the kernel cuts transfers short or interrupts them, and when the server
    is killed and started again.

    Queries run over streams without end, so they group rows by windows of time and
    emit a window when a watermark says that no more of its rows will come.  The
    library models this path from the raw chunks of several shards to the output
    (src/src/Processors/Transforms/Streaming, src/src/Interpreters/Streaming), with the
    threads of the shards and their locks, and proves that each window is emitted once
    with all its rows.

    The timers of the cluster (src/src/Cluster/Common/TimeWheel) are a third part, on
    its own: hierarchical wheels that hand tasks over when their time has come.

    ** The parts of the program and their files

    - [Os]: the kernel.  A world is a map from paths to bytes and a script with the
      outcome of every system call to come: done, cut short, interrupted, or failed.
      Theorems quantify over the script.  [benign] worlds answer every call, maybe
      after interrupts and in parts.
    - [AppendOnlyFile]: Base/AppendOnlyFile.cpp.  Appends with the rollback of a torn
      tail, vectored appends, positional reads, truncation and renaming.
    - [Codec]: the binary and variable-length integers of src/src/IO/VarInt.h,
      ReadHelpers.h and WriteHelpers.h.
    - [KeyValues], [Names], [MonoMap]: Indexes/PersistentMonoMap.cpp and the entry
      types of the indexes.  The map keeps a log of key/value pairs, the active part in
      one file and older parts in numbered files that are loaded on demand.
      [MonoMapLoad], [MonoMapRep], [MonoMapUpdate], [MonoMapRecover], [MonoMapTrim]
      hold the representation [Rep name rs cur s] and the behaviour of each operation
      under it, [MonoMapFrame] the files each operation touches, [MonoMapProps] the
      properties.  [Indexes] are the three indexes built on it, [IndexSpec] and
      [IndexOpen] what they promise to the log ([index_of], [opened], [available]).
    - [Entry], [FileLogEntries], [FleSpec]: Common/Entry.cpp and
      Common/FileLogEntries.cpp.  Entries on the wire, slices of a segment file, the
      scan over the metadata and the buffered deserialization.
    - [SegmentNames], [LogSegment], [SegmentSpec], [LogSegments]: Log/LogSegment.cpp,
      Log/LogSegments.cpp and the naming functions of Log/Loglet.cpp.
    - [LogConfig], [LogTypes]: settings, fetch hints, positions and results.
    - [LogEntryCache], [CacheProps]: Log/LogEntryCache.cpp.
    - [Loglet]: Log/Loglet.cpp, the segments of a log with their indexes.  [LogletRep]
      relates a loglet to the entries it holds ([log_rep]), [LogletFetch],
      [LogletAppend], [LogletRoll], [LogletTrim] treat the operations, [LogletProps]
      has the properties.
    - [Log]: Log/Log.cpp.  Appends, commits, fetches that wait, trims, retention,
      epochs.  [LogSpec] has its invariant ([log_inv]), [LogWrite], [LogRead] and
      [LogRetain] the operations under it, [LogRefine] the specification and the
      refinement.
    - [LogLoader]: Log/LogLoader.cpp and the constructors.  [StartSpec],
      [StartRecover] and [StartProps] treat opening a directory, [Sessions] whole
      sessions from one crash to the next.
    - [LogExample]: a small log on which the theorems are run.
    - [Rounding], [Ordered]: rounding to multiples, and ordered maps as sorted lists.
    - [TimeWheel]: TimeWheel.cpp, TimerTask.cpp, TimerTaskList.cpp, DelayQueue.h and
      SystemTimer.cpp.  [TimerSpec] has the invariant, [TimerPoll] the poll,
      [TimerProps] the states that a timer reaches and the properties.
    - [DateLut]: the rounding and addition of Common/DateLUTImpl.h, over any table of
      days.  [StreamTime]: TimeTransformHelper.h and the dispatch of WindowCommon.cpp;
      for units of one length ([uniform]) it is rounding to multiples.
    - [WindowHelpers]: the parameters of WindowCommon.cpp, TumbleWindowHelper.cpp and
      HopWindowHelper.cpp.  [WindowParamsProps] treats the validation.  [WindowSpec] has
      the interface [WindowFunction]: what a window function promises to the
      aggregation (which windows the buckets of a shard have, which buckets are no
      longer needed at a watermark), and its instances for hop and tumble windows.
    - [Watermark]: WatermarkStamper.cpp and WatermarkTransform.cpp; [WatermarkSpec]
      what a stamped stream is.
    - [TimeBuckets]: TimeBucketHashTable.h.  [Aggregator]: the execution, merging and
      splicing of MemoryAggregator, with aggregate functions as a class.
    - [WindowAggregating]: AggregatingTransform.cpp and WindowAggregatingTransform.cpp.
      The transforms of all shards are a state with a program counter for each, which
      stops at the locks of the code; an action is one step of one transform.
      [WindowAggSpec] treats the finalization of windows, [WindowAggInv] the invariant
      [Inv] of every action, [WindowAggProps] the pipeline with the watermark
      transforms, [WindowAggLive] progress and termination, [WindowExamples] runs.
    - [CountedValueMap]: CountedValueMap.h and the states of the streaming min and max of
      AggregateFunctionMinMax.h, which keep the first values with their counts so that
      rows can be retracted.  [CountedValueProps] relates a state to all the values it was
      given ([rep]), [CountedValueAgg] makes min and max aggregate functions of the windows.
    - [AggregateBatch]: the loops of IAggregateFunction.h over a batch and the batches of
      AggregateFunctionCount.h, AggregateFunctionSum.h and AggregateFunctionAvg.h under
      src/src/AggregateFunctions/Streaming; [AggregateBatchProps] compares them.
    - [SessionWindow]: SessionWindowHelper.cpp, SessionAggregatingTransform.cpp and
      SessionInfo.cpp.  The sessions are a queue next to the state of the only transform,
      which takes the steps of [WindowAggregating].  [SessionProps] defines sessions by
      gaps from the rows alone ([split]) and treats a chunk and a run.
    - [Changelog]: ChangelogConvertTransform.cpp, which turns a keyed stream into changes,
      with the chunks it keeps and their reference counts (RefCountDataBlockList.h,
      RowRefs.h), and ChangelogTransform.cpp.  [ChangelogProps] has the invariant of the
      references ([Inv]), [ChangelogAgg] the aggregates of a changelog, the splitting into
      chunks and the ports.
    - [Dedup]: DedupTransform.cpp.

    Every operation of the log is a function in the monad [M S A := S -> res A * S] of this file.
    A result is a value, an error code that is returned ([Err]), an exception that is
    thrown ([Exn]) or undefined behaviour ([Undef]); the state is what the operation
    had when it ended, also when it failed.  [wp m Q E s] says that [m] from [s] ends
    with a value and a state in [Q] or with a fault in [E], and never in undefined
    behaviour; [keeps] of [Frame] says what stays whatever happens.

    ** What the theorems show

    - The log implements its specification ([log_refines_spec]): for every client, the
      operations end, and their answers are those of the abstract log of [LogRefine].
      With crashes: [session_correct], [crash_restart_correct], [startup_correct].
    - The loglet: appends, rolls and trims as functions of the entries
      ([loglet_append_correct], [loglet_roll_correct], [loglet_trim_correct]), fetches
      ([fetch_correct], [append_then_fetch]).  When the kernel refuses a call the
      segments hold what they held.
    - The indexes: insertion, the four searches, trims at both ends and removal as
      functions of the contents; insertion is atomic under crashes and errors
      ([maybeIndex_atomic], [reopen_correct]); the frame of every operation
      ([index_frame]).
    - Files: an append writes all or nothing ([append_durable],
      [append_batch_durable]), a read is exact ([read_exact]).
    - Encodings: entries, names, positions, hints are read back as they were written.
    - Segments and the cache: recovery of a torn segment, lookups by sequence number,
      the cache as the last entries of the log.
    - Windows that are emitted on close: for every interleaving the output is the
      results of the windows up to the finalized watermark ([hop_pipeline_correct],
      [tumble_pipeline_correct]); no run is stuck or without end
      ([hop_pipeline_terminates]); with one shard everything up to the last watermark
      is emitted ([hop_shard_complete]).  With several shards it is not: the examples
      at the end of [WindowExamples] are runs that lose a row with periodic emits
      ([periodic_row_lost]), that leave a closed window for later, and that record a
      watermark as sent which is not.
    - Aggregate functions: the states of min and max hold the first values with exact
      counts through additions, retractions and merges and are read back as they were
      written ([counted_values_correct], [counted_values_roundtrip]), and give the right
      results in windows ([hop_extremes_correct]); batches of count, sum and average are
      those of the plain loops ([retract_batches_correct]), where the examples of
      [AggregateBatchProps] do not apply.
    - Sessions by gaps are emitted once each, with all their rows, however the rows are
      cut into chunks ([session_pipeline_correct]).  With start and end conditions the code
      can lose a session that is open; the examples of [SessionProps] are such runs.
    - A changelog retracts only what is there and leaves exactly the current rows
      ([changelog_correct]), so that count and sum of it are those of the current rows
      ([changelog_totals_correct]); the chunks it refers to are never freed too early.
      Deduplication drops a row only when its key has passed, and lets a key pass again
      only after its limits ([dedup_correct]).
    - Window parameters are rejected exactly when they are not usable
      ([hop_create_correct]).
    - Timers: the structures agree in every state ([timer_invariant]), a poll ends and
      hands over exactly the tasks that are due ([timer_poll_correct]), and a task that
      is cancelled is never started ([timer_cancel_final]).

    ** Integers, fuel and bounds

    Integers are [Z]; where the width matters the conversions ([to_u32], [to_u64],
    [succ_i64]) are written out, and positions in the sequence index hold 28 bits of
    segment id and 36 bits of file position, from which the bounds [2 ^ 28] and
    [2 ^ 36] of the invariants come.  [K] in the invariants is above every id given
    out so far, so that a client knows how many are left.  The loops of
    [AppendOnlyFile] run on fuel computed from the script (every turn uses one outcome
    or finishes), those of [FileLogEntries] on fuel computed from the size of the
    slice; the theorems show that the fuel suffices.  Appends go in batches of
    [IOV_MAX] entries.

    Times of windows are at least two windows away from the ends of the range of the
    column ([hop_usable]), where the code wraps; the loops over windows run on fuel
    computed from the parameters and the buckets, which is enough there
    ([hop_last_finalized], [hop_windows]).  The polls of a timer run on fuel given by
    the pending tasks.  A chunk of a session window takes at most nine steps of the
    transform, of the sixteen there are ([steps]); times of rows leave room for the timeout
    and the size of a session ([time_ok]).  Sums are 64 bits wide and compared modulo
    [2 ^ 64], counts of values 32 bits.

    ** Not modelled

    - Zero-copy transfers, [sendTo], preallocation and modification times of files
      (the times are parameters of retention); renaming a log directory.
    - Threads: the mutexes of the log make its operations atomic, so what other
      threads do during a wait is a sequence of operations, and background deletion is
      an operation of its own.
    - Log texts and metrics.
    - Of the windows: substreams, checkpoints of the aggregation other than the states of
      the functions and the queue of sessions, modes that emit updates only, retractions of
      results, global aggregation, and the aggregator over RocksDB.  Of the aggregate
      functions: floating point and decimal columns, strings, sparse columns and the
      compiled variants.
    - Joins, the checkpoints of changelogs and of deduplication, and SipHash, for which
      any function of the rows stands.  The table of days of a time zone is a parameter.
    - The owner of the logs of a node (LogManager), the request front end, the
      metadata store over RocksDB, replication, the Kafka client and the rest of the
      SQL engine: they call the log or libraries that are not part of the sources. *)

From stdpp Require Export prelude gmap strings list sorting.
From Stdlib Require Export ZArith Lia.

#[export] Set Default Goal Selector "!".
#[global] Open Scope Z_scope.

(** * Results of C++ calls

    A call either returns a value, returns a non-zero error code (an [errno] or
    a [DB::ErrorCodes] number), throws an exception carrying such a code, or runs
    into behaviour C++ leaves undefined ([front()] of an empty [std::deque],
    dereferencing an end iterator, ...). *)
Inductive res (A : Type) : Type :=
  | Ok (a : A)
  | Err (code : Z)
  | Exn (code : Z)
  | Undef.
Arguments Ok {A} a.
Arguments Err {A} code.
Arguments Exn {A} code.
Arguments Undef {A}.

#[export] Instance res_eq_dec {A} `{EqDecision A} : EqDecision (res A).
Proof. solve_decision. Defined.

Definition is_Ok {A} (r : res A) : Prop := match r with Ok _ => True | _ => False end.

(** * State monad with error codes

    [M S A] is a C++ member function on an object (and the disk below it) of
    state [S].  An error code is returned early and, as in the C++ code, the
    effects made so far stay in the state. *)
Definition M (S A : Type) : Type := S -> res A * S.

Section Monad.
Context {S : Type}.

Definition ret {A} (a : A) : M S A := fun s => (Ok a, s).
Definition fail {A} (code : Z) : M S A := fun s => (Err code, s).
Definition throw {A} (code : Z) : M S A := fun s => (Exn code, s).
Definition undef {A} : M S A := fun s => (Undef, s).
Definition bind {A B} (m : M S A) (k : A -> M S B) : M S B :=
  fun s => match m s with
           | (Ok a, s') => k a s'
           | (Err e, s') => (Err e, s')
           | (Exn e, s') => (Exn e, s')
           | (Undef, s') => (Undef, s')
           end.
Definition gets {A} (f : S -> A) : M S A := fun s => (Ok (f s), s).
Definition modify (f : S -> S) : M S unit := fun s => (Ok tt, f s).
(** [if (auto err = m(); err != OK) return code;] *)
Definition map_err {A} (code : Z -> Z) (m : M S A) : M S A :=
  fun s => match m s with
           | (Err e, s') => (Err (code e), s')
           | r => r
           end.
(** The error code is inspected by the caller instead of being returned. *)
Definition attempt {A} (m : M S A) : M S (A + Z) :=
  fun s => match m s with
           | (Ok a, s') => (Ok (inl a), s')
           | (Err e, s') => (Ok (inr e), s')
           | (Exn e, s') => (Exn e, s')
           | (Undef, s') => (Undef, s')
           end.
(** [try { m } catch (const DB::Exception & e) { h(e.code()) }] *)
Definition catch {A} (m : M S A) (h : Z -> M S A) : M S A :=
  fun s => match m s with
           | (Exn e, s') => h e s'
           | r => r
           end.
(** Reading a value that C++ only defines when the option is inhabited. *)
Definition defined {A} (o : option A) : M S A :=
  match o with Some a => ret a | None => undef end.
End Monad.

(** Run a member function of a sub-object. *)
Definition zoom {S T A} (get : S -> T) (set : T -> S -> S) (m : M T A) : M S A :=
  fun s => let '(r, t) := m (get s) in (r, set t s).

Declare Scope prog_scope.
Delimit Scope prog_scope with prog.
Notation "x <- m ;; k" := (bind m (fun x => k))
  (at level 100, m at next level, right associativity) : prog_scope.
Notation "m >> k" := (bind m (fun _ => k))
  (at level 100, right associativity) : prog_scope.

Section MonadLaws.
Context {S : Type}.

Lemma bind_Ok {A B} (m : M S A) (k : A -> M S B) s a s' :
  m s = (Ok a, s') -> bind m k s = k a s'.
Proof. intros H. unfold bind. by rewrite H. Qed.

Lemma bind_Err {A B} (m : M S A) (k : A -> M S B) s e s' :
  m s = (Err e, s') -> bind m k s = (Err e, s').
Proof. intros H. unfold bind. by rewrite H. Qed.

Lemma bind_inv {A B} (m : M S A) (k : A -> M S B) s b s' :
  bind m k s = (Ok b, s') -> exists a t, m s = (Ok a, t) /\ k a t = (Ok b, s').
Proof.
  unfold bind. destruct (m s) as [[a|e|e|] t] eqn:E; intros H; simplify_eq.
  eauto.
Qed.
End MonadLaws.

(** * Weakest preconditions

    [wp m Q E s]: run from [s], [m] returns a value with [Q], or ends with a fault
    for which [E] holds; it never runs into undefined behaviour. *)
Inductive fault : Type :=
  | Returned (code : Z)
  | Thrown (code : Z).

(** The call ended with an error code or an exception. *)
Definition faulted {A} (r : res A) : Prop :=
  match r with Err _ | Exn _ => True | _ => False end.

Definition wp {S A} (m : M S A) (Q : A -> S -> Prop) (E : fault -> S -> Prop) (s : S) : Prop :=
  match m s with
  | (Ok a, s') => Q a s'
  | (Err e, s') => E (Returned e) s'
  | (Exn e, s') => E (Thrown e) s'
  | (Undef, _) => False
  end.

Arguments wp : simpl never.

Section Wp.
Context {S : Type}.
Implicit Types (E : fault -> S -> Prop) (s : S).

Lemma wp_ret {A} (a : A) (Q : A -> S -> Prop) E s : Q a s -> wp (ret a) Q E s.
Proof. done. Qed.

Lemma wp_bind {A B} (m : M S A) (k : A -> M S B) (Q : B -> S -> Prop) E s :
  wp m (fun a s' => wp (k a) Q E s') E s -> wp (bind m k) Q E s.
Proof. unfold wp, bind. by destruct (m s) as [[] ?]. Qed.

Lemma wp_mono {A} (m : M S A) (Q Q' : A -> S -> Prop) E E' s :
  wp m Q E s -> (forall a s', Q a s' -> Q' a s') -> (forall e s', E e s' -> E' e s') ->
  wp m Q' E' s.
Proof. unfold wp. destruct (m s) as [[] ?]; eauto. Qed.

Lemma wp_fail {A} code (Q : A -> S -> Prop) E s : E (Returned code) s -> wp (fail code) Q E s.
Proof. done. Qed.

Lemma wp_gets {A} (f : S -> A) (Q : A -> S -> Prop) E s : Q (f s) s -> wp (gets f) Q E s.
Proof. done. Qed.

Lemma wp_modify (f : S -> S) (Q : unit -> S -> Prop) E s : Q tt (f s) -> wp (modify f) Q E s.
Proof. done. Qed.

Lemma wp_defined {A} (o : option A) a (Q : A -> S -> Prop) E s :
  o = Some a -> Q a s -> wp (defined o) Q E s.
Proof. by intros ->. Qed.

Lemma wp_map_err {A} code (m : M S A) (Q : A -> S -> Prop) E s :
  wp m Q (fun e s' => match e with
                      | Returned e => E (Returned (code e)) s'
                      | Thrown e => E (Thrown e) s'
                      end) s ->
  wp (map_err code m) Q E s.
Proof. unfold wp, map_err. by destruct (m s) as [[] ?]. Qed.

Lemma wp_attempt {A} (m : M S A) (Q : A + Z -> S -> Prop) E s :
  wp m (fun a => Q (inl a)) (fun e s' => match e with
                                         | Returned e => Q (inr e) s'
                                         | Thrown e => E (Thrown e) s'
                                         end) s ->
  wp (attempt m) Q E s.
Proof. unfold wp, attempt. by destruct (m s) as [[] ?]. Qed.

Lemma wp_catch {A} (m : M S A) (h : Z -> M S A) (Q : A -> S -> Prop) E s :
  wp m Q (fun e s' => match e with
                      | Returned e => E (Returned e) s'
                      | Thrown e => wp (h e) Q E s'
                      end) s ->
  wp (catch m h) Q E s.
Proof. unfold wp, catch. by destruct (m s) as [[] ?]. Qed.

Lemma wp_zoom {T A} (get : S -> T) (set : T -> S -> S) (m : M T A) (Q : A -> S -> Prop) E s :
  wp m (fun a t => Q a (set t s)) (fun e t => E e (set t s)) (get s) -> wp (zoom get set m) Q E s.
Proof. unfold wp, zoom. by destruct (m (get s)) as [[] ?]. Qed.

(** What a result of [wp] says of a run that returned, or of any run. *)
Lemma wp_Ok {A} (m : M S A) (Q : A -> S -> Prop) E s a s' :
  wp m Q E s -> m s = (Ok a, s') -> Q a s'.
Proof. intros H Hm. unfold wp in H. by rewrite Hm in H. Qed.

Lemma wp_outcome {A} (m : M S A) (Q : A -> S -> Prop) E s :
  wp m Q E s ->
  exists r s', m s = (r, s') /\ ((exists a, r = Ok a /\ Q a s') \/ (faulted r /\ exists x, E x s')).
Proof.
  unfold wp. destruct (m s) as [[a|e|e|] s']; intros H; [|..|done]; do 2 eexists; split; eauto.
  - right. split; [done|eauto].
  - right. split; [done|eauto].
Qed.

(** A call that returns [v] unless it faults for the reason [B], keeping [P]. *)
Lemma wp_reports {A} (m : M S A) (v : A) (P : S -> Prop) (B : Prop) s :
  wp m (fun a s' => a = v /\ P s') (fun _ s' => P s' /\ B) s ->
  exists r s', m s = (r, s') /\ P s' /\ (r = Ok v \/ (faulted r /\ B)).
Proof.
  intros H. apply wp_outcome in H as (r & s' & Hrun & Hcase). exists r, s'. split; [done|].
  destruct Hcase as [(a & -> & -> & ?)|(? & _ & ? & ?)]; auto.
Qed.

Lemma wp_total {A} (m : M S A) (Q : A -> S -> Prop) s :
  wp m Q (fun _ _ => False) s -> exists a s', m s = (Ok a, s') /\ Q a s'.
Proof. unfold wp. destruct (m s) as [[] ?]; [eauto|done..]. Qed.
End Wp.

(** * Lists *)

Section Lists.
Context {A : Type}.
Implicit Types (l : list A).

Lemma filter_none (P : A -> Prop) `{!forall x, Decision (P x)} l :
  Forall (fun x => ~ P x) l -> filter P l = [].
Proof.
  induction 1 as [|x l Hx _ IH]; [done|]. by rewrite filter_cons_False.
Qed.

Lemma filter_all (P : A -> Prop) `{!forall x, Decision (P x)} l :
  Forall P l -> filter P l = l.
Proof.
  induction 1 as [|x l Hx _ IH]; [done|]. by rewrite filter_cons_True, IH.
Qed.

Lemma filter_iff_Forall (P Q : A -> Prop) `{!forall x, Decision (P x), !forall x, Decision (Q x)} l :
  Forall (fun x => P x <-> Q x) l -> filter P l = filter Q l.
Proof.
  induction 1 as [|x l Hx _ IH]; [done|]. rewrite !filter_cons, IH. repeat case_decide; tauto.
Qed.

Lemma filter_nonempty (P : A -> Prop) `{!forall x, Decision (P x)} l :
  filter P l <> [] -> exists x, x ∈ l /\ P x.
Proof.
  destruct (filter P l) as [|x k] eqn:Hf; [done|]. intros _. exists x.
  assert (Hin : x ∈ filter P l) by (rewrite Hf; by left). apply list_elem_of_filter in Hin as [? ?]. done.
Qed.

Lemma Forall_filter (P Q : A -> Prop) `{!forall x, Decision (Q x)} l :
  Forall P l -> Forall P (filter Q l).
Proof.
  induction 1 as [|x l Hx _ IH]; [constructor|]. destruct (decide (Q x)).
  - rewrite filter_cons_True by done. by constructor.
  - by rewrite filter_cons_False.
Qed.

Lemma filter_ext_in (P Q : A -> Prop) `{!forall x, Decision (P x), !forall x, Decision (Q x)} l :
  (forall x, x ∈ l -> P x <-> Q x) -> filter P l = filter Q l.
Proof.
  induction l as [|x l IH]; intros Hpq; [done|].
  assert (IHl : filter P l = filter Q l) by (apply IH; intros y Hy; apply Hpq; by right).
  destruct (decide (P x)) as [Hp|Hp].
  - rewrite filter_cons_True, filter_cons_True, IHl; [done| |done]. apply Hpq; [by left|done].
  - rewrite filter_cons_False, filter_cons_False; [done| |done]. rewrite <- Hpq; [done|by left].
Qed.

Lemma elem_of_concat_iff (ls : list (list A)) x : x ∈ concat ls <-> exists l, l ∈ ls /\ x ∈ l.
Proof. rewrite list_elem_of_In, in_concat. by setoid_rewrite list_elem_of_In. Qed.

Lemma elem_of_concat (ls : list (list A)) i l x : ls !! i = Some l -> x ∈ l -> x ∈ concat ls.
Proof.
  intros Hi Hx. apply elem_of_concat_iff. exists l. split; [by eapply list_elem_of_lookup_2|done].
Qed.

Lemma take_length_take n l : take (length (take n l)) l = take n l.
Proof.
  rewrite length_take. destruct (decide (n <= length l)%nat).
  - f_equal. lia.
  - by rewrite !take_ge by lia.
Qed.
End Lists.

(** The last [n] elements. *)
Definition lastn {A} (n : nat) (l : list A) : list A := drop (length l - n) l.

Lemma length_lastn {A} n (l : list A) : length (lastn n l) = (n `min` length l)%nat.
Proof. unfold lastn. rewrite length_drop. lia. Qed.

Lemma lastn_all {A} n (l : list A) : (length l <= n)%nat -> lastn n l = l.
Proof. intros H. unfold lastn. by replace (length l - n)%nat with O by lia. Qed.

Lemma lastn_app_ge {A} n (l l' : list A) : (n <= length l')%nat -> lastn n (l ++ l') = lastn n l'.
Proof.
  intros H. unfold lastn. rewrite length_app, drop_app_ge by lia. f_equal. lia.
Qed.

Lemma lastn_lastn_app {A} n (l l' : list A) : lastn n (lastn n l ++ l') = lastn n (l ++ l').
Proof.
  destruct (decide (n <= length l')%nat); [by rewrite !lastn_app_ge|]. unfold lastn.
  rewrite !length_app, length_drop, !drop_app_le, drop_drop by (rewrite ?length_drop; lia).
  do 2 f_equal. lia.
Qed.

(** ** Consecutive numbers *)

Definition consecutive (l : list Z) : Prop :=
  forall i x y, l !! i = Some x -> l !! S i = Some y -> y = x + 1.

Lemma consecutive_nil : consecutive [].
Proof. done. Qed.

Lemma consecutive_single x : consecutive [x].
Proof. by intros []. Qed.

Lemma consecutive_lookup l i j x y :
  consecutive l -> l !! i = Some x -> l !! j = Some y -> y - x = Z.of_nat j - Z.of_nat i.
Proof.
  assert (H : consecutive l -> forall n i x y,
    l !! i = Some x -> l !! (i + n)%nat = Some y -> y - x = Z.of_nat n).
  { intros Hc n. induction n as [|n IH]; intros i' x' y' Hx Hy.
    - rewrite Nat.add_0_r in Hy. simplify_eq. lia.
    - destruct (lookup_lt_is_Some_2 l (i' + n)%nat) as [z Hz];
        [apply lookup_lt_Some in Hy; lia|].
      rewrite Nat.add_succ_r in Hy. rewrite (Hc _ _ _ Hz Hy). specialize (IH _ _ _ Hx Hz). lia. }
  intros Hc Hx Hy. destruct (decide (i <= j)%nat).
  - pose proof (H Hc (j - i)%nat i x y Hx) as Hn. replace (i + (j - i))%nat with j in Hn by lia.
    specialize (Hn Hy). lia.
  - pose proof (H Hc (i - j)%nat j y x Hy) as Hn. replace (j + (i - j))%nat with i in Hn by lia.
    specialize (Hn Hx). lia.
Qed.

Lemma consecutive_drop n l : consecutive l -> consecutive (drop n l).
Proof. intros H i x y. rewrite !lookup_drop, Nat.add_succ_r. apply H. Qed.

Lemma consecutive_take n l : consecutive l -> consecutive (take n l).
Proof. intros H i x y [Hx _]%lookup_take_Some [Hy _]%lookup_take_Some. by apply (H i). Qed.

Lemma consecutive_cons x l :
  (forall y, head l = Some y -> y = x + 1) -> consecutive l -> consecutive (x :: l).
Proof.
  intros Hh Hl [|i] a b; cbn; intros Ha Hb; simplify_eq; [|by eapply Hl]. apply Hh.
  by destruct l; cbn in *.
Qed.

Lemma consecutive_seqZ m n : consecutive (seqZ m n).
Proof. intros i x y Hx%lookup_seqZ Hy%lookup_seqZ. lia. Qed.

Lemma last_seqZ m n : 0 < n -> last (seqZ m n) = Some (m + n - 1).
Proof.
  intros Hn. rewrite last_lookup, length_seqZ. apply lookup_seqZ. lia.
Qed.

Lemma last_drop_Some {A} n (l : list A) x : last (drop n l) = Some x -> last l = Some x.
Proof.
  intros H. rewrite <- (take_drop n l), last_app, H. done.
Qed.

Lemma consecutive_app l1 l2 :
  consecutive (l1 ++ l2) <->
  consecutive l1 /\ consecutive l2 /\
  (forall x y, last l1 = Some x -> head l2 = Some y -> y = x + 1).
Proof.
  split.
  - intros H. split_and!.
    + by rewrite <- (take_app_length l1 l2); apply consecutive_take.
    + by rewrite <- (drop_app_length l1 l2); apply consecutive_drop.
    + intros x y Hx Hy. destruct l1 as [|a l1 _] using rev_ind; [done|].
      rewrite last_snoc in Hx. simplify_eq. destruct l2; cbn in Hy; simplify_eq.
      rewrite <- app_assoc in H. apply (H (length l1)).
      * by apply list_lookup_middle.
      * rewrite app_assoc. apply list_lookup_middle. rewrite length_app. cbn. lia.
  - intros (H1 & H2 & H). induction l1 as [|a l1 IH]; [done|]. cbn. apply consecutive_cons.
    + intros y Hy. destruct l1 as [|b l1]; cbn in *.
      * by apply (H a).
      * simplify_eq. by apply (H1 0%nat).
    + apply IH; [by intros i; apply (H1 (S i))|]. intros x y Hx. apply H. by destruct l1.
Qed.
