(* ===== verification/Ordered.v ===== *)
(** * Ordered containers

    The standard-library pieces the log is built on: [std::lower_bound] on a
    [std::deque], and the ordered maps [std::map] / [absl::btree_map] as strictly
    sorted association lists whose iterators are positions. *)

From S2P Require Import Prelude.

(** ** Partition points *)

(** The number of leading elements that satisfy [p]. *)
Fixpoint partition_point {A} (p : A -> bool) (l : list A) : nat :=
  match l with
  | [] => 0
  | x :: l => if p x then S (partition_point p l) else 0
  end%nat.

(** [p] holds on a prefix of [l] and fails on the rest. *)
Definition partitioned {A} (p : A -> bool) (l : list A) : Prop :=
  forall i j x y, (i <= j)%nat -> l !! i = Some x -> l !! j = Some y -> p y = true -> p x = true.

(** [std::lower_bound(first, first + len, ...)]: [p] is the comparison with the
    value searched for. *)
Fixpoint lower_bound_loop {A} (fuel : nat) (p : A -> bool) (l : list A) (first len : nat) : nat :=
  match fuel with
  | O => first
  | S fuel =>
      match len with
      | O => first
      | _ =>
          let half := (len / 2)%nat in
          let mid := (first + half)%nat in
          match l !! mid with
          | Some x =>
              if p x then lower_bound_loop fuel p l (S mid) (len - half - 1)
              else lower_bound_loop fuel p l first half
          | None => first
          end
      end
  end.
Definition std_lower_bound {A} (p : A -> bool) (l : list A) : nat :=
  lower_bound_loop (length l) p l 0 (length l).

Section PartitionPoint.
Context {A : Type} (p : A -> bool).
Implicit Types (l : list A) (x : A).

Lemma partition_point_le l : (partition_point p l <= length l)%nat.
Proof. induction l as [|x l IH]; cbn; [lia|]. destruct (p x); lia. Qed.

Lemma partition_point_before l : Forall (fun x => p x = true) (take (partition_point p l) l).
Proof.
  induction l as [|x l IH]; cbn; [constructor|].
  destruct (p x) eqn:E; cbn; [by constructor|constructor].
Qed.

Lemma partition_point_at l x : l !! partition_point p l = Some x -> p x = false.
Proof.
  induction l as [|y l IH]; cbn; [done|].
  destruct (p y) eqn:E; cbn; [done|congruence].
Qed.

Lemma partitioned_cons x l : partitioned p (x :: l) -> partitioned p l.
Proof. intros H i j a b Hij Ha Hb. apply (H (S i) (S j)); [lia|done..]. Qed.

Lemma partition_point_after l :
  partitioned p l -> Forall (fun x => p x = false) (drop (partition_point p l) l).
Proof.
  induction l as [|x l IH]; cbn; intros H; [constructor|].
  destruct (p x) eqn:E; cbn; [by apply IH, (partitioned_cons x)|].
  apply Forall_lookup. intros j y Hj.
  destruct (p y) eqn:Ey; [|done]. rewrite (H 0%nat j x y) in E; [done|lia|done..].
Qed.

Lemma partition_point_unique l n :
  (n <= length l)%nat ->
  Forall (fun x => p x = true) (take n l) -> Forall (fun x => p x = false) (drop n l) ->
  partition_point p l = n.
Proof.
  revert n. induction l as [|x l IH]; intros [|n] Hn Hb Ha; cbn in *; try lia.
  - apply Forall_cons in Ha as [-> _]. done.
  - apply Forall_cons in Hb as [-> Hb]. f_equal. apply IH; [lia|done..].
Qed.

Lemma partition_point_all l :
  Forall (fun x => p x = true) l -> partition_point p l = length l.
Proof. induction 1 as [|x l Hx _ IH]; cbn; [done|]. by rewrite Hx, IH. Qed.

Lemma partition_point_none l x :
  head l = Some x -> p x = false -> partition_point p l = 0%nat.
Proof. destruct l; cbn; [done|]. by intros [= ->] ->. Qed.

Lemma partition_point_app_l l1 l2 :
  Forall (fun x => p x = true) l1 ->
  partition_point p (l1 ++ l2) = (length l1 + partition_point p l2)%nat.
Proof. induction 1 as [|x l Hx _ IH]; cbn; [done|]. by rewrite Hx, IH. Qed.

(** The binary search finds the partition point. *)
Lemma lower_bound_loop_spec fuel l first len :
  partitioned p l -> (len <= fuel)%nat ->
  (first <= partition_point p l <= first + len)%nat -> (first + len <= length l)%nat ->
  lower_bound_loop fuel p l first len = partition_point p l.
Proof.
  intros Hp. revert first len.
  induction fuel as [|fuel IH]; intros first len Hf Hb Hl; cbn [lower_bound_loop]; [lia|].
  destruct len as [|len']; [lia|]. cbv zeta. set (len := S len') in *.
  pose proof (Nat.div_lt len 2 ltac:(lia) ltac:(lia)) as Hhalf.
  set (half := (len / 2)%nat) in *.
  destruct (lookup_lt_is_Some_2 l (first + half)) as [x Hx]; [lia|]. rewrite Hx.
  destruct (p x) eqn:E.
  - apply IH; [lia| |lia]. split; [|lia].
    destruct (decide (S (first + half) <= partition_point p l)%nat) as [|Hn]; [done|exfalso].
    pose proof (partition_point_after l Hp) as Ha.
    rewrite Forall_lookup in Ha.
    rewrite (Ha (first + half - partition_point p l)%nat x) in E; [done|].
    rewrite lookup_drop, <- Hx. f_equal. lia.
  - apply IH; [lia| |lia]. split; [lia|].
    destruct (decide (partition_point p l <= first + half)%nat) as [|Hn]; [done|exfalso].
    pose proof (partition_point_before l) as Ha. rewrite Forall_lookup in Ha.
    rewrite (Ha (first + half)%nat x) in E; [done|]. rewrite lookup_take_lt by lia. done.
Qed.

Lemma std_lower_bound_spec l :
  partitioned p l -> std_lower_bound p l = partition_point p l.
Proof.
  intros Hp. pose proof (partition_point_le l).
  apply lower_bound_loop_spec; [done|lia|lia|lia].
Qed.
End PartitionPoint.

Lemma sorted_lookup {A} (R : A -> A -> Prop) (l : list A) i j x y :
  StronglySorted R l -> (i < j)%nat -> l !! i = Some x -> l !! j = Some y -> R x y.
Proof.
  intros Hs Hij Hx Hy. apply take_drop_middle in Hx as Hl. rewrite <- Hl in Hs, Hy.
  apply StronglySorted_app in Hs as (_ & _ & Hs). apply StronglySorted_cons in Hs as [Hall _].
  pose proof (lookup_lt_Some _ _ _ Hx).
  rewrite lookup_app_r, length_take, Nat.min_l in Hy by (rewrite ?length_take; lia).
  rewrite lookup_cons_ne_0 in Hy by lia. by eapply Forall_lookup_1 in Hall; [|exact Hy].
Qed.

(** Sorted lists are partitioned by every comparison with a bound. *)
Lemma sorted_filter {A} (R : A -> A -> Prop) (P : A -> Prop) `{!forall x, Decision (P x)} (l : list A) :
  StronglySorted R l -> StronglySorted R (filter P l).
Proof.
  induction 1 as [|x l _ IH Hx]; [constructor|]. rewrite filter_cons. destruct (decide (P x)); [|done].
  constructor; [done|]. rewrite Forall_forall in Hx |- *. intros y Hy. apply Hx.
  by apply list_elem_of_filter in Hy as [_ ?].
Qed.

(** No two places of a sorted list hold the same element. *)
Lemma sorted_lookup_inj {A} (R : A -> A -> Prop) (l : list A) i j x y :
  StronglySorted R l -> l !! i = Some x -> l !! j = Some y -> ~ R x y -> ~ R y x -> i = j.
Proof.
  intros Hs Hi Hj Hxy Hyx. destruct (Nat.lt_trichotomy i j) as [Hlt|[->|Hlt]]; [|done|]; exfalso.
  - by apply Hxy, (sorted_lookup _ _ i j _ _ Hs Hlt).
  - by apply Hyx, (sorted_lookup _ _ j i _ _ Hs Hlt).
Qed.

Lemma sorted_partitioned {A} (R : A -> A -> Prop) (p : A -> bool) (l : list A) :
  StronglySorted R l -> (forall x y, R x y -> p y = true -> p x = true) -> partitioned p l.
Proof.
  intros Hs Hp i j x y Hij Hx Hy Hpy.
  destruct (decide (i = j)) as [->|Hne]; [congruence|].
  apply (Hp x y); [|done]. by apply (sorted_lookup R l i j); [|lia|..].
Qed.

(** A partition point splits a list into what satisfies the comparison and the rest. *)
Lemma filter_take_point {A} (p : A -> bool) (P : A -> Prop) `{!forall x, Decision (P x)} l :
  partitioned p l -> (forall x, P x <-> p x = true) -> filter P l = take (partition_point p l) l.
Proof.
  intros Hp HP. rewrite <- (take_drop (partition_point p l) l) at 1. rewrite filter_app.
  rewrite filter_all, filter_none, app_nil_r; [done|..].
  - eapply Forall_impl; [by apply partition_point_after|]. intros x Hx. rewrite HP, Hx. done.
  - eapply Forall_impl; [apply partition_point_before|]. intros x. apply HP.
Qed.
Lemma filter_drop_point {A} (p : A -> bool) (P : A -> Prop) `{!forall x, Decision (P x)} l :
  partitioned p l -> (forall x, P x <-> p x = false) -> filter P l = drop (partition_point p l) l.
Proof.
  intros Hp HP. rewrite <- (take_drop (partition_point p l) l) at 1. rewrite filter_app.
  rewrite filter_none, filter_all; [done|..].
  - eapply Forall_impl; [by apply partition_point_after|]. intros x. apply HP.
  - eapply Forall_impl; [apply partition_point_before|]. intros x Hx. rewrite HP, Hx. done.
Qed.

Lemma sorted_fmap {A B} (f : A -> B) (R : B -> B -> Prop) (l : list A) :
  StronglySorted R (f <$> l) <-> StronglySorted (fun a b => R (f a) (f b)) l.
Proof.
  induction l as [|a l IH]; cbn; [split; constructor|].
  by rewrite !StronglySorted_cons, IH, Forall_fmap.
Qed.

(** ** Ordered maps *)

Section OrderedMap.
Context {V : Type}.
Implicit Types (m : list (Z * V)) (k : Z) (v : V).

Definition om_sorted m : Prop := StronglySorted (fun a b => a.1 < b.1) m.

Definition om_find k m : option V := (list_find (fun e => e.1 = k) m) ≫= fun x => Some x.2.2.

(** [emplace]: keeps the element already there. *)
Fixpoint om_emplace k v m : list (Z * V) :=
  match m with
  | [] => [(k, v)]
  | (k', v') :: m' =>
      if k <? k' then (k, v) :: m
      else if k =? k' then m
      else (k', v') :: om_emplace k v m'
  end.

(** [m[k] = v] *)
Fixpoint om_insert k v m : list (Z * V) :=
  match m with
  | [] => [(k, v)]
  | (k', v') :: m' =>
      if k <? k' then (k, v) :: m
      else if k =? k' then (k, v) :: m'
      else (k', v') :: om_insert k v m'
  end.

Definition om_erase k m : list (Z * V) := filter (fun e => e.1 <> k) m.

(** Positions of [lower_bound] (first key [>= k]) and [upper_bound] (first key
    [> k]); [length m] is the end iterator. *)
Definition om_lower_bound k m : nat := partition_point (fun e => e.1 <? k) m.
Definition om_upper_bound k m : nat := partition_point (fun e => e.1 <=? k) m.

Lemma om_sorted_fst m : om_sorted m <-> StronglySorted Z.lt m.*1.
Proof. by rewrite sorted_fmap. Qed.

Lemma om_sorted_middle pre k v post :
  om_sorted (pre ++ (k, v) :: post) ->
  Forall (fun e => e.1 < k) pre /\ Forall (fun e => k < e.1) post.
Proof.
  unfold om_sorted. intros H. apply StronglySorted_app in H as (Hlt & _ & H).
  apply StronglySorted_cons in H as [Hgt _]. split; [|done].
  rewrite Forall_forall. intros x Hx. apply (Hlt x (k, v)); [done|]. by left.
Qed.

Lemma om_find_middle pre k v post :
  om_sorted (pre ++ (k, v) :: post) -> om_find k (pre ++ (k, v) :: post) = Some v.
Proof.
  intros [Hpre _]%om_sorted_middle. unfold om_find.
  induction pre as [|[k' v'] pre IH]; cbn in *.
  - by rewrite decide_True.
  - apply Forall_cons in Hpre as [Hlt Hpre]. cbn in Hlt. rewrite decide_False by (cbn; lia).
    specialize (IH Hpre). destruct (list_find _ _) as [[i [k'' v'']]|]; cbn in *; done.
Qed.

Lemma om_find_Some k v m :
  om_find k m = Some v -> exists pre post, m = pre ++ (k, v) :: post.
Proof.
  unfold om_find. destruct (list_find _ m) as [[i [k' v']]|] eqn:E; cbn; intros ?; simplify_eq.
  apply list_find_Some in E as (Hi & Hk & _). cbn in Hk. subst k'.
  exists (take i m), (drop (S i) m). symmetry. by apply take_drop_middle.
Qed.

Lemma om_insert_middle pre k v v' post :
  om_sorted (pre ++ (k, v) :: post) ->
  om_insert k v' (pre ++ (k, v) :: post) = pre ++ (k, v') :: post.
Proof.
  intros [Hpre _]%om_sorted_middle. induction pre as [|[k' w] pre IH]; cbn in *.
  - by rewrite Z.ltb_irrefl, Z.eqb_refl.
  - apply Forall_cons in Hpre as [Hlt Hpre]. cbn in Hlt.
    rewrite (proj2 (Z.ltb_ge _ _)), (proj2 (Z.eqb_neq _ _)) by lia. by rewrite IH.
Qed.

Lemma om_emplace_last k v m :
  Forall (fun e => e.1 < k) m -> om_emplace k v m = m ++ [(k, v)].
Proof.
  induction m as [|[k' v'] m IH]; cbn; [done|]. intros [Hlt Hm]%Forall_cons. cbn in Hlt.
  rewrite (proj2 (Z.ltb_ge _ _)), (proj2 (Z.eqb_neq _ _)) by lia. by rewrite IH.
Qed.

Lemma om_insert_last k v m :
  Forall (fun e => e.1 < k) m -> om_insert k v m = m ++ [(k, v)].
Proof.
  induction m as [|[k' v'] m IH]; cbn; [done|]. intros [Hlt Hm]%Forall_cons. cbn in Hlt.
  rewrite (proj2 (Z.ltb_ge _ _)), (proj2 (Z.eqb_neq _ _)) by lia. by rewrite IH.
Qed.

Lemma om_insert_between pre post k v :
  Forall (fun e => e.1 < k) pre -> Forall (fun e => k < e.1) post ->
  om_insert k v (pre ++ post) = pre ++ (k, v) :: post.
Proof.
  intros Hpre Hpost. induction Hpre as [|[k' v'] pre Hlt _ IH]; cbn in *.
  - destruct Hpost as [|[k' v'] post Hlt _]; cbn in *; [done|]. by rewrite (proj2 (Z.ltb_lt _ _)).
  - rewrite (proj2 (Z.ltb_ge _ _)), (proj2 (Z.eqb_neq _ _)) by lia. by rewrite IH.
Qed.

(** Adding an element of [m] to a selection of its elements. *)
Lemma om_insert_selected (P P' : Z * V -> Prop) `{forall x, Decision (P x)} `{forall x, Decision (P' x)} pre k v post :
  om_sorted (pre ++ (k, v) :: post) -> (forall x, x ∈ pre ++ post -> P' x <-> P x) -> ~ P (k, v) -> P' (k, v) ->
  om_insert k v (filter P (pre ++ (k, v) :: post)) = filter P' (pre ++ (k, v) :: post).
Proof.
  intros [Hpre Hpost]%om_sorted_middle HP Hn Hy. rewrite !filter_app, filter_cons_False, filter_cons_True by done.
  rewrite om_insert_between by (by apply Forall_filter). f_equal; [|f_equal].
  - apply filter_ext_in. intros x Hx. symmetry. apply HP, elem_of_app. by left.
  - apply filter_ext_in. intros x Hx. symmetry. apply HP, elem_of_app. by right.
Qed.

Lemma om_erase_middle pre k v post :
  om_sorted (pre ++ (k, v) :: post) -> om_erase k (pre ++ (k, v) :: post) = pre ++ post.
Proof.
  intros [Hpre Hpost]%om_sorted_middle. unfold om_erase. rewrite filter_app, filter_cons.
  rewrite decide_False by (cbn; tauto). f_equal; apply filter_all.
  - eapply Forall_impl; [exact Hpre|]. cbn. lia.
  - eapply Forall_impl; [exact Hpost|]. cbn. lia.
Qed.

Lemma om_erase_last k v m : om_sorted (m ++ [(k, v)]) -> om_erase k (m ++ [(k, v)]) = m.
Proof. intros Hs. rewrite om_erase_middle by done. apply app_nil_r. Qed.

Lemma om_lower_bound_middle pre k v post :
  om_sorted (pre ++ (k, v) :: post) -> om_lower_bound k (pre ++ (k, v) :: post) = length pre.
Proof.
  intros [Hpre _]%om_sorted_middle. unfold om_lower_bound.
  induction pre as [|[k' w] pre IH]; cbn in *.
  - by rewrite Z.ltb_irrefl.
  - apply Forall_cons in Hpre as [Hlt Hpre]. cbn in Hlt.
    rewrite (proj2 (Z.ltb_lt _ _)) by lia. by rewrite IH.
Qed.

Lemma om_lower_bound_end k m :
  Forall (fun e => e.1 < k) m -> om_lower_bound k m = length m.
Proof.
  unfold om_lower_bound. induction m as [|[k' v'] m IH]; cbn; [done|].
  intros [Hlt Hm]%Forall_cons. cbn in Hlt. rewrite (proj2 (Z.ltb_lt _ _)) by lia. by rewrite IH.
Qed.

(** Positions and keys. *)
Lemma om_partitioned_lt k m : om_sorted m -> partitioned (fun e => e.1 <? k) m.
Proof. intros Hs. eapply sorted_partitioned; [exact Hs|]. intros x y ??; cbn in *; lia. Qed.
Lemma om_partitioned_le k m : om_sorted m -> partitioned (fun e => e.1 <=? k) m.
Proof. intros Hs. eapply sorted_partitioned; [exact Hs|]. intros x y ??; cbn in *; lia. Qed.

Lemma om_below k m : om_sorted m -> filter (fun e => e.1 < k) m = take (om_lower_bound k m) m.
Proof. intros Hs. apply filter_take_point; [by apply om_partitioned_lt|]. intros x. cbn. lia. Qed.
Lemma om_from k m : om_sorted m -> filter (fun e => k <= e.1) m = drop (om_lower_bound k m) m.
Proof. intros Hs. apply filter_drop_point; [by apply om_partitioned_lt|]. intros x. cbn. lia. Qed.
Lemma om_upto k m : om_sorted m -> filter (fun e => e.1 <= k) m = take (om_upper_bound k m) m.
Proof. intros Hs. apply filter_take_point; [by apply om_partitioned_le|]. intros x. cbn. lia. Qed.
Lemma om_above k m : om_sorted m -> filter (fun e => k < e.1) m = drop (om_upper_bound k m) m.
Proof. intros Hs. apply filter_drop_point; [by apply om_partitioned_le|]. intros x. cbn. lia. Qed.

(** The position behind [lower_bound] when the key is there. *)
Lemma om_upper_lower k m :
  om_sorted m ->
  om_upper_bound k m = match m !! om_lower_bound k m with
                       | Some (k', _) => if k' =? k then S (om_lower_bound k m) else om_lower_bound k m
                       | None => om_lower_bound k m
                       end.
Proof.
  unfold om_sorted, om_upper_bound, om_lower_bound. induction m as [|[k' v] m IH]; intros Hs; [done|].
  apply StronglySorted_cons in Hs as [Hall Hs]. cbn [partition_point fst]. specialize (IH Hs).
  destruct (Z.ltb_spec k' k); cbn [lookup list_lookup].
  - rewrite (proj2 (Z.leb_le _ _)), IH by lia. cbn. destruct (m !! _) as [[k'' w]|]; [|done].
    by destruct (k'' =? k).
  - destruct (Z.leb_spec k' k); [|by rewrite (proj2 (Z.eqb_neq _ _)) by lia].
    rewrite (proj2 (Z.eqb_eq _ _)) by lia. f_equal. destruct m as [|[k'' w] m]; [done|].
    apply Forall_cons in Hall as [Hlt _]. cbn in *. by rewrite (proj2 (Z.leb_gt _ _)) by lia.
Qed.

Lemma om_find_insert k k' v m :
  om_sorted m -> om_find k (om_insert k' v m) = if decide (k' = k) then Some v else om_find k m.
Proof.
  unfold om_find, om_sorted. induction m as [|[k2 v2] m IH]; intros Hs; cbn.
  - destruct (decide (k' = k)); done.
  - apply StronglySorted_cons in Hs as [Hall Hs]. specialize (IH Hs).
    destruct (Z.ltb_spec k' k2); [|destruct (Z.eqb_spec k' k2)]; cbn.
    + destruct (decide (k' = k)); cbn; [done|]. destruct (decide (k2 = k)); [done|].
      by destruct (list_find _ m) as [[]|].
    + subst. destruct (decide (k2 = k)); cbn; [done|]. done.
    + destruct (decide (k2 = k)); cbn; [rewrite decide_False by lia; done|].
      destruct (list_find _ (om_insert k' v m)) as [[]|], (list_find _ m) as [[]|]; done.
Qed.

Lemma om_find_erase k k' m :
  om_find k (om_erase k' m) = if decide (k' = k) then None else om_find k m.
Proof.
  unfold om_find, om_erase. induction m as [|[k2 v2] m IH]; [by destruct (decide (k' = k))|].
  rewrite filter_cons. cbn [fst]. destruct (decide (k2 <> k')) as [Hne|Heq]; cbn [list_find fst].
  - destruct (decide (k2 = k)) as [->|]; cbn; [by rewrite decide_False by congruence|].
    destruct (list_find _ (filter _ _)) as [[]|], (list_find _ m) as [[]|],
      (decide (k' = k)); done.
  - apply dec_stable in Heq as ->. rewrite IH. destruct (decide (k' = k)); [done|].
    by destruct (list_find _ m) as [[]|].
Qed.

Lemma om_insert_in k v m e : e ∈ om_insert k v m -> e = (k, v) \/ e ∈ m.
Proof.
  induction m as [|[k' v'] m IH]; cbn; [rewrite list_elem_of_singleton; auto|].
  destruct (k <? k'); [|destruct (k =? k')]; rewrite !elem_of_cons; tauto.
Qed.

Lemma om_insert_sorted k v m : om_sorted m -> om_sorted (om_insert k v m).
Proof.
  unfold om_sorted. induction m as [|[k' v'] m IH]; cbn; intros Hs; [repeat constructor|].
  pose proof Hs as Hs'. apply StronglySorted_cons in Hs as [Hall Hs].
  destruct (Z.ltb_spec k k'); [|destruct (Z.eqb_spec k k') as [->|]].
  - apply StronglySorted_cons. split; [|done]. constructor; [done|].
    eapply Forall_impl; [done|]. cbn. intros; lia.
  - apply StronglySorted_cons. done.
  - apply StronglySorted_cons. split; [|auto]. rewrite Forall_forall in Hall |- *.
    intros e [->|He]%om_insert_in; cbn; [lia|]. by apply Hall.
Qed.

Lemma om_erase_sorted k m : om_sorted m -> om_sorted (om_erase k m).
Proof.
  unfold om_sorted, om_erase. induction m as [|e m IH]; intros Hs; [done|].
  apply StronglySorted_cons in Hs as [Hall Hs]. rewrite filter_cons.
  destruct (decide _); [|auto]. apply StronglySorted_cons. split; [|auto].
  by apply Forall_filter.
Qed.
End OrderedMap.
