(* ===== verification/Os.v ===== *)
(** * The operating system below the log

    Files are byte sequences addressed by path; a byte is a [Z].  Every system
    call asks the kernel for the outcome of that call: the outcomes are a script
    carried by the world, so that a theorem quantified over the world holds for
    every sequence of failures, interruptions and short transfers.  After the
    script is used up every call succeeds in full. *)

From S2P Require Import Prelude.

Local Open Scope prog_scope.

(** What the kernel answers to the next system call: success, failure with an
    [errno], or a transfer of at most [n] bytes ([write], [writev], [pread]). *)
Inductive outcome : Type :=
  | SysOk
  | SysErr (errno : positive)
  | SysShort (n : nat).

Record world : Type := World {
  w_files : gmap string (list Z);
  w_script : list outcome;
}.

Definition ENOENT : Z := 2.
Definition EINTR : Z := 4.
Definition EBADF : Z := 9.
Definition EINVAL : Z := 22.

Definition set_files (fs : gmap string (list Z)) (w : world) : world :=
  World fs (w_script w).

Definition sys_next : M world outcome := fun w =>
  match w_script w with
  | [] => (Ok SysOk, w)
  | o :: os => (Ok o, World (w_files w) os)
  end.

(** A call that transfers no data: it either fails or runs [m]. *)
Definition syscall {A} (m : M world A) : M world A :=
  o <- sys_next;;
  match o with
  | SysErr e => fail (Zpos e)
  | _ => m
  end.

(** How many of [len] bytes the kernel transfers. *)
Definition transfer (o : outcome) (len : nat) : nat + positive :=
  match o with
  | SysOk => inl len
  | SysShort n => inl (n `min` len)%nat
  | SysErr e => inr e
  end.

(** [write(2)] / [writev(2)] on a descriptor opened with [O_APPEND]. *)
Definition sys_append (name : string) (data : list Z) : M world nat :=
  o <- sys_next;;
  fs <- gets w_files;;
  match fs !! name, transfer o (length data) with
  | None, _ => fail EBADF
  | Some _, inr e => fail (Zpos e)
  | Some c, inl n =>
      modify (set_files (<[name := c ++ take n data]> fs)) >> ret n
  end.

(** [pread(2)]: an empty result is the end of the file. *)
Definition sys_pread (name : string) (len off : nat) : M world (list Z) :=
  o <- sys_next;;
  fs <- gets w_files;;
  match fs !! name, transfer o len with
  | None, _ => fail EBADF
  | Some _, inr e => fail (Zpos e)
  | Some c, inl n => ret (take (1 `max` n)%nat (take len (drop off c)))
  end.

Definition sys_fstat_size (name : string) : M world nat :=
  syscall (fs <- gets w_files;;
           match fs !! name with
           | None => fail EBADF
           | Some c => ret (length c)
           end).

(** [ftruncate(2)] cuts the file, or pads it with zero bytes. *)
Definition sys_ftruncate (name : string) (len : nat) : M world unit :=
  syscall (fs <- gets w_files;;
           match fs !! name with
           | None => fail EBADF
           | Some c =>
               modify (set_files (<[name := take len c ++ replicate (len - length c) 0]> fs))
           end).

Definition sys_fsync (name : string) : M world unit := syscall (ret tt).

Definition sys_rename (old new : string) : M world unit :=
  syscall (fs <- gets w_files;;
           match fs !! old with
           | None => fail ENOENT
           | Some c => modify (set_files (<[new := c]> (delete old fs)))
           end).

(** [std::filesystem::remove]: removing a missing file is not an error. *)
Definition sys_remove (name : string) : M world unit :=
  syscall (fs <- gets w_files;; modify (set_files (delete name fs))).

Definition sys_exists (name : string) : M world bool :=
  syscall (fs <- gets w_files;; ret (bool_decide (is_Some (fs !! name)))).

(** The kernel never refuses a call: transfers may still be short. *)
Definition benign_outcome (o : outcome) : Prop :=
  match o with SysErr _ => False | _ => True end.
Definition benign (w : world) : Prop := Forall benign_outcome (w_script w).

#[export] Instance benign_outcome_dec o : Decision (benign_outcome o).
Proof. destruct o; apply _. Defined.
#[export] Instance benign_dec w : Decision (benign w).
Proof. unfold benign. apply _. Defined.

(** ** System calls and failures

    [evolves w0 w]: [w] is reached from [w0], as far as the answers of the kernel
    are concerned.  A call that fails shows that [w0] was not benign. *)
Definition evolves (w0 w : world) : Prop := suffix (w_script w) (w_script w0).

#[export] Instance evolves_preorder : PreOrder evolves.
Proof.
  unfold evolves. split.
  - intros w. reflexivity.
  - intros a b c Hab Hbc. by transitivity (w_script b).
Qed.

Lemma evolves_benign w0 w : evolves w0 w -> benign w0 -> benign w.
Proof. unfold benign. intros [l Hl]. rewrite Hl, Forall_app. tauto. Qed.

Lemma evolves_not_benign w0 w : evolves w0 w -> ~ benign w -> ~ benign w0.
Proof. eauto using evolves_benign. Qed.

Lemma evolves_head w0 w e : evolves w0 w -> head (w_script w) = Some (SysErr e) -> ~ benign w0.
Proof.
  intros Hev Hh Hb. apply (evolves_benign _ _ Hev) in Hb. unfold benign in Hb.
  destruct (w_script w) as [|o os]; cbn in Hh; [done|]. simplify_eq.
  by apply Forall_cons in Hb as [? _].
Qed.

Lemma evolves_tail w0 w fs : evolves w0 w -> evolves w0 (World fs (tail (w_script w))).
Proof.
  unfold evolves; cbn. intros Hs. etransitivity; [|exact Hs].
  destruct (w_script w) as [|o os]; cbn; [done|]. by exists [o].
Qed.

Lemma evolves_set_files w0 w fs : evolves w0 w -> evolves w0 (set_files fs w).
Proof. done. Qed.

Create HintDb evolve.
#[export] Hint Resolve evolves_tail evolves_set_files : evolve.

Lemma wp_sys_next w0 (Q : outcome -> world -> Prop) E w :
  evolves w0 w ->
  (forall o w', evolves w0 w' -> w_files w' = w_files w ->
     (~ benign_outcome o -> ~ benign w0) -> Q o w') ->
  wp sys_next Q E w.
Proof.
  intros Hev HQ. unfold wp, sys_next. destruct (w_script w) as [|o os] eqn:E1.
  - by apply HQ.
  - apply HQ; [|done|].
    + unfold evolves in *; cbn. etransitivity; [|exact Hev]. rewrite E1. by exists [o].
    + intros Hn Hb. apply (evolves_benign _ _ Hev) in Hb. unfold benign in Hb.
      rewrite E1, Forall_cons in Hb. tauto.
Qed.

Lemma wp_syscall {A} w0 (m : M world A) Q E w :
  evolves w0 w ->
  (forall w', evolves w0 w' -> w_files w' = w_files w -> wp m Q E w') ->
  (forall e w', evolves w0 w' -> w_files w' = w_files w -> ~ benign w0 -> E (Returned (Zpos e)) w') ->
  wp (syscall m) Q E w.
Proof.
  intros Hev HQ HE. unfold syscall. apply wp_bind. eapply wp_sys_next; [exact Hev|].
  intros [|e|n] w' Hev' Hfs Hbad.
  - by apply HQ.
  - apply HE; auto.
  - by apply HQ.
Qed.
