(* ===== verification/AppendOnlyFile.v ===== *)
(** * AppendOnlyFile (src/Cluster/LocalLog/Base/AppendOnlyFile.cpp)

    The file class under the log segments and the index files: appends that
    survive short and interrupted writes, the rollback of a torn tail, positional
    reads, truncation and renaming. *)

From S2P Require Import Prelude Os.

Local Open Scope prog_scope.

Definition FILE_DOESNT_EXIST : Z := 107.
Definition CANNOT_OPEN_FILE : Z := 76.

Record AppendOnlyFile : Type := mkAppendOnlyFile {
  filename : string;
  read_only : bool;
  is_open : bool;          (** [fd >= 0] *)
}.

Module File.

(** A system call on the descriptor of [f]. *)
Definition on_fd {A} (f : AppendOnlyFile) (m : M world A) : M world A :=
  if is_open f then m else fail EBADF.

(** [AppendOnlyFile(filename, file_already_exists, read_only, ...)]; the
    preallocation keeps the size and has no effect on the bytes. *)
Definition open_as (name : string) (file_already_exists ro : bool) : M world AppendOnlyFile :=
  o <- sys_next;;
  fs <- gets w_files;;
  match o, fs !! name with
  | SysErr e, _ =>
      throw (if bool_decide (Zpos e = ENOENT) then FILE_DOESNT_EXIST else CANNOT_OPEN_FILE)
  | _, Some _ => ret (mkAppendOnlyFile name ro true)
  | _, None =>
      if ro || file_already_exists then throw FILE_DOESNT_EXIST
      else modify (set_files (<[name := []]> fs)) >> ret (mkAppendOnlyFile name ro true)
  end.

(** [AppendOnlyFile(filename, initial_file_size, preallocate)] *)
Definition open_or_create (name : string) : M world AppendOnlyFile :=
  r <- attempt (sys_exists name);;
  match r with
  | inr e => throw e
  | inl ex => open_as name ex false
  end.

Definition close (f : AppendOnlyFile) : AppendOnlyFile :=
  mkAppendOnlyFile (filename f) (read_only f) false.

Definition size (f : AppendOnlyFile) : M world nat :=
  on_fd f (sys_fstat_size (filename f)).

Definition truncate (f : AppendOnlyFile) (len : nat) : M world unit :=
  on_fd f (if read_only f then fail EINVAL else sys_ftruncate (filename f) len).

Definition sync (f : AppendOnlyFile) : M world unit := on_fd f (sys_fsync (filename f)).
Definition syncTail (f : AppendOnlyFile) (offset : nat) : M world unit :=
  on_fd f (sys_fsync (filename f)).

(** [CallResult<size_t>] of an append: the bytes left durable and an [errno],
    zero for success. *)
Definition rollbackTornTail (f : AppendOnlyFile) (partial_bytes : nat) (error_code : Z)
  : M world (nat * Z) :=
  match partial_bytes with
  | O => ret (O, error_code)
  | _ =>
      cur <- attempt (size f);;
      match cur with
      | inr _ => ret (partial_bytes, error_code)
      | inl cur =>
          t <- attempt (truncate f (cur - partial_bytes)%nat);;
          match t with
          | inr _ => ret (partial_bytes, error_code)
          | inl _ => ret (O, error_code)
          end
      end
  end.

(** One [write] on the descriptor; appending needs a writable descriptor. *)
Definition write (f : AppendOnlyFile) (data : list Z) : M world nat :=
  on_fd f (if read_only f then fail EBADF else sys_append (filename f) data).

(** The loop of [append(const char *, uint64_t)]: [rest] is what is still to be
    written, [written_bytes] what the kernel has taken. *)
Fixpoint append_loop (fuel : nat) (f : AppendOnlyFile) (rest : list Z) (written_bytes : nat)
  : M world (nat * Z) :=
  match rest, fuel with
  | [], _ => ret (written_bytes, 0)
  | _, O => undef
  | _, S fuel =>
      n <- attempt (write f rest);;
      match n with
      | inl n => append_loop fuel f (drop n rest) (written_bytes + n)
      | inr e =>
          if bool_decide (e = EINTR) then append_loop fuel f rest written_bytes
          else rollbackTornTail f written_bytes e
      end
  end.

(** Every turn of the loop uses one outcome of the script, and once the script
    is empty the next turn finishes the write. *)
Definition append (f : AppendOnlyFile) (data : list Z) : M world (nat * Z) :=
  n <- gets (fun w => S (length (w_script w)));;
  append_loop n f data 0.

(** Where a vectored write resumes: the vectors that are left after
    [written_bytes] bytes of the batch; [None] is the [UNREACHABLE()]. *)
Fixpoint handle_partial_write (batch_data : list (list Z)) (accumulated_bytes written_bytes : nat)
  : option (list (list Z)) :=
  match batch_data with
  | [] => None
  | data :: rest =>
      let acc := (accumulated_bytes + length data)%nat in
      if bool_decide (acc = written_bytes) then Some rest
      else if bool_decide (written_bytes < acc)%nat then
        let remaining := (acc - written_bytes)%nat in
        Some (drop (length data - remaining) data :: rest)
      else handle_partial_write rest acc written_bytes
  end.

Fixpoint append_batch_loop (fuel : nat) (f : AppendOnlyFile) (batch_data iovec : list (list Z))
    (total_bytes written_bytes : nat) : M world (nat * Z) :=
  match fuel with
  | O => undef
  | S fuel =>
      n <- attempt (write f (concat iovec));;
      match n with
      | inl n =>
          let written_bytes := (written_bytes + n)%nat in
          if bool_decide (written_bytes = total_bytes) then ret (written_bytes, 0)
          else
            iovec' <- defined (handle_partial_write batch_data 0 written_bytes);;
            append_batch_loop fuel f batch_data iovec' total_bytes written_bytes
      | inr e =>
          if bool_decide (e = EINTR) then
            iovec' <- defined (handle_partial_write batch_data 0 written_bytes);;
            append_batch_loop fuel f batch_data iovec' total_bytes written_bytes
          else rollbackTornTail f written_bytes e
      end
  end.

(** [append(const std::vector<ByteRange> &, size_t)] *)
Definition append_batch (f : AppendOnlyFile) (batch_data : list (list Z)) (total_bytes : nat)
  : M world (nat * Z) :=
  n <- gets (fun w => S (length (w_script w)));;
  append_batch_loop n f batch_data batch_data total_bytes 0.

(** [read(char *, uint64_t, uint64_t)]: keep reading until the buffer is full or
    the end of the file is met. *)
Fixpoint read_loop (fuel : nat) (f : AppendOnlyFile) (bytes_to_read offset : nat) (acc : list Z)
  : M world (list Z) :=
  match bytes_to_read, fuel with
  | O, _ => ret acc
  | _, O => undef
  | _, S fuel =>
      r <- attempt (on_fd f (sys_pread (filename f) bytes_to_read (offset + length acc)));;
      match r with
      | inl [] => ret acc
      | inl data => read_loop fuel f (bytes_to_read - length data) offset (acc ++ data)
      | inr e =>
          if bool_decide (e = EINTR) then read_loop fuel f bytes_to_read offset acc
          else fail e
      end
  end.

(** One turn per outcome left, and two more to fill the buffer and meet the end
    of the file. *)
Definition read (f : AppendOnlyFile) (bytes_to_read offset : nat) : M world (list Z) :=
  n <- gets (fun w => (2 + length (w_script w))%nat);;
  read_loop n f bytes_to_read offset [].

Definition renameTo (f : AppendOnlyFile) (new_file : string) : M world AppendOnlyFile :=
  sys_rename (filename f) new_file >>
  ret (mkAppendOnlyFile new_file (read_only f) (is_open f)).

End File.

(** ** What the file operations guarantee *)

Section FileSpecs.
Implicit Types (f : AppendOnlyFile) (w : world) (c data : list Z).

(** A descriptor open for appending on a file of bytes [c]. *)
Definition writable f w c : Prop :=
  is_open f = true /\ read_only f = false /\ w_files w !! filename f = Some c.
(** A descriptor open for reading on a file of bytes [c]. *)
Definition readable f w c : Prop :=
  is_open f = true /\ w_files w !! filename f = Some c.

Lemma writable_readable f w c : writable f w c -> readable f w c.
Proof. intros (?&?&?); by split. Qed.

Lemma write_spec f w c data :
  writable f w c ->
  (exists n, (n <= length data)%nat /\ (w_script w = [] -> n = length data) /\
     File.write f data w
     = (Ok n, World (<[filename f := c ++ take n data]> (w_files w)) (tail (w_script w)))) \/
  (exists e, head (w_script w) = Some (SysErr e) /\
     File.write f data w = (Err (Zpos e), World (w_files w) (tail (w_script w)))).
Proof.
  intros (Ho & Hr & Hc). unfold File.write, File.on_fd, sys_append.
  rewrite Ho, Hr. unfold bind, sys_next, gets.
  destruct (w_script w) as [|[|e|n] os] eqn:E; cbn; rewrite Hc; cbn.
  - left. exists (length data). rewrite firstn_all. unfold set_files; cbn. rewrite E. auto.
  - left. exists (length data). rewrite firstn_all. unfold set_files; cbn. auto.
  - right. eauto.
  - left. exists (n `min` length data)%nat. split_and!; [lia|done|].
    unfold set_files; cbn. done.
Qed.

Lemma rollback_spec f w c partial e :
  writable f w c -> (partial <= length c)%nat ->
  exists n w', File.rollbackTornTail f partial e w = (Ok (n, e), w') /\ evolves w w' /\
    (n = O /\ w_files w' = <[filename f := take (length c - partial) c]> (w_files w) \/
     n = partial /\ w_files w' = w_files w).
Proof.
  intros (Ho & Hr & Hc) Hle. unfold File.rollbackTornTail.
  destruct w as [fs sc]; cbn in Hc |- *.
  destruct partial as [|p].
  { exists O, (World fs sc). split; [done|]. split; [done|]. left. split; [done|].
    rewrite Nat.sub_0_r, firstn_all, insert_id; done. }
  unfold bind, attempt, File.size, File.truncate, File.on_fd. rewrite Ho, Hr.
  unfold sys_fstat_size, sys_ftruncate, syscall, sys_next, bind, gets.
  destruct sc as [|[|e1|n1] [|[|e2|n2] os]]; cbn; rewrite ?Hc; cbn; rewrite ?Hc; cbn;
    (do 2 eexists; split; [reflexivity|split; [unfold evolves; cbn; solve_suffix|]]);
    try (right; done);
    (left; split; [done|]);
    (replace (_ - _ - _)%nat with O by lia; cbn; by rewrite app_nil_r).
Qed.

(** The rollback after a part of [all] was written. *)
Lemma rollback_part f w c0 all k e :
  writable f w (c0 ++ take k all) -> (k <= length all)%nat ->
  exists n w', File.rollbackTornTail f k e w = (Ok (n, e), w') /\ evolves w w' /\ (n <= length all)%nat /\
    w_files w' = <[filename f := c0 ++ take n all]> (w_files w).
Proof.
  intros Hw Hk. destruct (rollback_spec f w (c0 ++ take k all) k e Hw) as (n & w' & Hrb & Hev & Hcase).
  { rewrite length_app, length_take. lia. }
  exists n, w'. split; [done|]. split; [done|]. destruct Hw as (_ & _ & Hc).
  destruct Hcase as [[-> ->]|[-> ->]]; (split; [lia|]); [|by rewrite insert_id].
  rewrite length_app, length_take. replace (length c0 + k `min` length all - k)%nat with (length c0 + 0)%nat by lia.
  by rewrite take_app_add, take_0.
Qed.

Lemma append_loop_spec fuel f rest w c0 done_ :
  writable f w (c0 ++ done_) -> (length (w_script w) < fuel)%nat ->
  exists n e w', File.append_loop fuel f rest (length done_) w = (Ok (n, e), w') /\
    evolves w w' /\ (e <> 0 -> ~ benign w) /\ (n <= length (done_ ++ rest))%nat /\
    (e = 0 -> n = length (done_ ++ rest)) /\
    w_files w' = <[filename f := c0 ++ take n (done_ ++ rest)]> (w_files w).
Proof.
  revert rest w done_. induction fuel as [|fuel IH]; intros rest w done_ Hw Hf; [lia|].
  destruct rest as [|b rest].
  { exists (length done_), 0, w. rewrite app_nil_r. cbn.
    split_and!; [done..|]. rewrite firstn_all.
    destruct Hw as (_&_&Hc). by rewrite insert_id. }
  cbn [File.append_loop]. unfold bind, attempt.
  destruct (write_spec f w (c0 ++ done_) (b :: rest) Hw)
    as [(n & Hn & Hfull & Hrun)|(e & He & Hrun)]; rewrite Hrun.
  - set (w1 := World _ _).
    assert (Hw1 : writable f w1 (c0 ++ (done_ ++ take n (b :: rest)))).
    { destruct Hw as (?&?&?). split_and!; [done..|].
      unfold w1; cbn. by rewrite lookup_insert_eq, <- app_assoc. }
    destruct (w_script w) as [|o os] eqn:Es.
    + rewrite (Hfull eq_refl), drop_all.
      replace (length done_ + length (b :: rest))%nat with (length (done_ ++ b :: rest))
        by (rewrite length_app; done).
      exists (length (done_ ++ b :: rest)), 0, w1.
      split_and!; [by destruct fuel|by unfold w1, evolves; rewrite Es|done..|].
      unfold w1; cbn [w_files]. by rewrite (Hfull eq_refl), !firstn_all, <- app_assoc.
    + destruct (IH (drop n (b :: rest)) w1 (done_ ++ take n (b :: rest)) Hw1)
        as (n' & e & w' & Hrun' & Hev & Hbad & Hle & He & Hfs).
      { unfold w1; cbn in *. lia. }
      assert (Hev1 : evolves w w1) by (unfold evolves, w1; rewrite Es; by exists [o]).
      exists n', e, w'. rewrite <- app_assoc, take_drop in *. cbn in Hrun'.
      rewrite length_app, length_take in Hrun'.
      replace (n `min` length (b :: rest))%nat with n in Hrun' by (cbn in *; lia).
      split_and!; [done|by transitivity w1|intros; eapply evolves_not_benign; by auto|done|done|].
      rewrite Hfs. unfold w1; cbn. by rewrite insert_insert_eq.
  - destruct (w_script w) as [|o os] eqn:Es; [done|].
    set (w1 := World _ _).
    assert (Hw1 : writable f w1 (c0 ++ done_)).
    { by destruct Hw as (?&?&?). }
    assert (Hev1 : evolves w w1) by (unfold evolves, w1; rewrite Es; by exists [o]).
    assert (Hnb : ~ benign w) by (eapply (evolves_head w w e); rewrite ?Es; done).
    case_bool_decide as Hi.
    + destruct (IH (b :: rest) w1 done_ Hw1) as (n' & e' & w' & Hrun' & Hev & _ & Hrest).
      { unfold w1; cbn in *. lia. }
      exists n', e', w'. split_and!; [done|by transitivity w1|done|apply Hrest..].
    + destruct (rollback_part f w1 c0 (done_ ++ b :: rest) (length done_) (Zpos e)) as (n' & w' & Hrb & Hev & Hn' & Hfs).
      { by rewrite take_app_length. } { rewrite length_app. lia. }
      exists n', (Zpos e), w'. split_and!; [done|by transitivity w1|done..].
Qed.

(** [append]: on return the file is the old file followed by exactly the
    reported number of bytes, all of them when no error is reported. *)
Lemma append_spec f w c data :
  writable f w c ->
  exists n e w', File.append f data w = (Ok (n, e), w') /\
    evolves w w' /\ (e <> 0 -> ~ benign w) /\
    (n <= length data)%nat /\ (e = 0 -> n = length data) /\
    w_files w' = <[filename f := c ++ take n data]> (w_files w).
Proof.
  intros Hw. unfold File.append, bind, gets.
  destruct (append_loop_spec (S (length (w_script w))) f data w c [])
    as (n & e & w' & H); [by rewrite app_nil_r|lia|].
  exists n, e, w'. exact H.
Qed.

Lemma handle_partial_write_spec batch acc written :
  (acc <= written < acc + length (concat batch))%nat ->
  exists iov, File.handle_partial_write batch acc written = Some iov /\
    concat iov = drop (written - acc) (concat batch).
Proof.
  revert acc. induction batch as [|d batch IH]; intros acc H; cbn in *; [lia|].
  rewrite length_app in H. repeat case_bool_decide.
  - exists batch. split; [done|]. rewrite drop_app_ge by lia.
    by replace (written - acc - length d)%nat with O by lia.
  - eexists; split; [done|]. cbn. rewrite drop_app_le by lia.
    do 2 f_equal. lia.
  - destruct (IH (acc + length d)%nat) as (iov & Hiov & Hc); [lia|].
    exists iov; split; [done|]. rewrite Hc, drop_app_ge by lia. f_equal. lia.
Qed.

Lemma append_batch_loop_spec fuel f batch iov w c0 k :
  let all := concat batch in
  writable f w (c0 ++ take k all) -> (k < length all)%nat -> concat iov = drop k all ->
  (length (w_script w) < fuel)%nat ->
  exists n e w', File.append_batch_loop fuel f batch iov (length all) k w = (Ok (n, e), w') /\
    evolves w w' /\ (e <> 0 -> ~ benign w) /\ (n <= length all)%nat /\ (e = 0 -> n = length all) /\
    w_files w' = <[filename f := c0 ++ take n all]> (w_files w).
Proof.
  intros all. revert iov w k.
  induction fuel as [|fuel IH]; intros iov w k Hw Hk Hiov Hf; [lia|].
  cbn [File.append_batch_loop]. rewrite Hiov. unfold bind, attempt, defined.
  destruct (write_spec f w _ (drop k all) Hw)
    as [(n & Hn & Hfull & Hrun)|(e & He & Hrun)]; rewrite Hrun.
  - rewrite length_drop in Hn, Hfull. set (w1 := World _ _).
    assert (Hc1 : (c0 ++ take k all) ++ take n (drop k all) = c0 ++ take (k + n) all).
    { by rewrite <- app_assoc, take_take_drop. }
    assert (Hw1 : writable f w1 (c0 ++ take (k + n) all)).
    { destruct Hw as (?&?&?). split_and!; [done..|].
      unfold w1; cbn [w_files]. by rewrite lookup_insert_eq, Hc1. }
    case_bool_decide as Hd.
    + exists (k + n)%nat, 0, w1. split_and!; [done|by apply evolves_tail|done|lia|done|].
      unfold w1; cbn [w_files]. by rewrite Hc1.
    + destruct (handle_partial_write_spec batch 0 (k + n)) as (iov' & -> & Hiov').
      { fold all. lia. }
      rewrite Nat.sub_0_r in Hiov'.
      destruct (IH iov' w1 (k + n)%nat) as (n' & e & w' & Hr & Hev & Hbad & Hle & He & Hfs);
        [done|lia|done| |].
      { unfold w1; cbn [w_script].
        destruct (w_script w); [specialize (Hfull eq_refl); lia|cbn in *; lia]. }
      assert (Hev1 : evolves w w1) by by apply evolves_tail.
      exists n', e, w'.
      split_and!; [done|by transitivity w1|intros; eapply evolves_not_benign; by auto|done|done|].
      rewrite Hfs. unfold w1; cbn [w_files].
      by rewrite insert_insert_eq.
  - destruct (w_script w) as [|o os] eqn:Es; [done|].
    set (w1 := World _ _).
    assert (Hw1 : writable f w1 (c0 ++ take k all)) by by destruct Hw as (?&?&?).
    assert (Hev1 : evolves w w1) by (unfold evolves, w1; rewrite Es; by exists [o]).
    assert (Hnb : ~ benign w) by (eapply (evolves_head w w e); rewrite ?Es; done).
    case_bool_decide as Hi.
    + destruct (handle_partial_write_spec batch 0 k) as (iov' & -> & Hiov').
      { fold all. lia. }
      rewrite Nat.sub_0_r in Hiov'.
      destruct (IH iov' w1 k) as (n' & e' & w' & Hrun' & Hev & _ & Hrest);
        [done|lia|done| |].
      { unfold w1; cbn in *. lia. }
      exists n', e', w'. split_and!; [done|by transitivity w1|done|apply Hrest..].
    + destruct (rollback_part f w1 c0 all k (Zpos e)) as (n' & w' & Hrb & Hev & Hn' & Hfs); [done|lia|].
      exists n', (Zpos e), w'. split_and!; [done|by transitivity w1|done..].
Qed.

Lemma append_batch_spec f w c batch :
  writable f w c -> concat batch <> [] ->
  exists n e w',
    File.append_batch f batch (length (concat batch)) w = (Ok (n, e), w') /\
    evolves w w' /\ (e <> 0 -> ~ benign w) /\ (n <= length (concat batch))%nat /\ (e = 0 -> n = length (concat batch)) /\
    w_files w' = <[filename f := c ++ take n (concat batch)]> (w_files w).
Proof.
  intros Hw Hne. unfold File.append_batch, bind, gets.
  apply (append_batch_loop_spec _ f batch batch w c 0); [|by destruct (concat batch); cbn; [|lia]|done|lia].
  by rewrite take_0, app_nil_r.
Qed.

(** Reads: a slice of the file, or the kernel's error; the files never change. *)
Lemma pread_spec f w c len off :
  readable f w c ->
  (exists data, File.on_fd f (sys_pread (filename f) len off) w
     = (Ok data, World (w_files w) (tail (w_script w))) /\
     data = take (length data) (take len (drop off c)) /\
     (data = [] -> take len (drop off c) = []) /\
     (w_script w = [] -> data = take len (drop off c))) \/
  (exists e, head (w_script w) = Some (SysErr e) /\
     File.on_fd f (sys_pread (filename f) len off) w
     = (Err (Zpos e), World (w_files w) (tail (w_script w)))).
Proof.
  intros (Ho & Hc). unfold File.on_fd. rewrite Ho.
  unfold sys_pread, bind, sys_next, gets. destruct w as [fs sc]; cbn in *.
  assert (Hshort : forall n, exists data,
    data = take (1 `max` n) (take len (drop off c)) /\
    data = take (length data) (take len (drop off c)) /\
    (data = [] -> take len (drop off c) = [])).
  { intros n. eexists; split_and!; [reflexivity| |].
    - by rewrite take_length_take.
    - intros H. destruct (take len (drop off c)) as [|x l]; [done|].
      apply (f_equal length) in H. rewrite length_take in H. cbn in H. lia. }
  destruct sc as [|[|e|n] os]; cbn; rewrite Hc; cbn.
  - left. destruct (Hshort len) as (d & -> & H1 & H2).
    eexists; split_and!; [reflexivity|done|done|].
    intros _. rewrite (take_ge _ (_ `max` _)); [done|]. rewrite length_take. lia.
  - left. destruct (Hshort len) as (d & -> & H1 & H2).
    eexists; split_and!; [reflexivity|done|done|done].
  - right. eauto.
  - left. destruct (Hshort (n `min` len)%nat) as (d & -> & H1 & H2).
    eexists; split_and!; [reflexivity|done|done|done].
Qed.

(** A read at the end of the file ends the loop. *)
Lemma read_loop_end fuel f len off w c :
  readable f w c -> w_script w = [] -> (length (drop off c) <= len)%nat ->
  exists w', File.read_loop (S fuel) f (len - length (drop off c)) off (drop off c) w = (Ok (drop off c), w') /\
    w_files w' = w_files w /\ w_script w' = [].
Proof.
  intros Hw Hs Hlen. cbn [File.read_loop]. destruct (len - length (drop off c))%nat as [|m] eqn:Em; [by exists w|].
  unfold bind, attempt. destruct (pread_spec f w c (S m) (off + length (drop off c))%nat Hw) as [(data & -> & Hd & _)|(e & He & _)]; [|by rewrite Hs in He].
  rewrite <- drop_drop, drop_ge, take_nil, take_nil in Hd by done. subst data. eexists. split; [done|]. cbn. by rewrite Hs.
Qed.

(** A result that holds from the next world on holds from this one. *)
Lemma read_result_next {A} w os o (r : res A) (x : A) :
  w_script w = o :: os -> r = Ok x \/ (exists e, r = Err (Zpos e) /\ ~ benign (World (w_files w) os)) -> r = Ok x \/ exists e, r = Err (Zpos e) /\ ~ benign w.
Proof.
  intros Es [Hr|(e & He & Hb)]; [by left|right]. exists e. split; [done|]. intros Hb'. apply Hb. unfold benign in *. rewrite Es in Hb'. by inversion Hb'.
Qed.

Lemma read_loop_spec fuel f len off w c k :
  readable f w c -> (k <= len)%nat -> (k <= length (drop off c))%nat ->
  (S (length (w_script w)) < fuel)%nat ->
  exists r w', File.read_loop fuel f (len - k) off (take k (drop off c)) w = (r, w') /\
    w_files w' = w_files w /\ suffix (w_script w') (w_script w) /\
    (r = Ok (take len (drop off c)) \/ exists e, r = Err (Zpos e) /\ ~ benign w).
Proof.
  set (s := drop off c).
  revert w k. induction fuel as [|fuel IH]; intros w k Hw Hk Hks Hf; [lia|].
  cbn [File.read_loop]. destruct (len - k)%nat as [|m] eqn:Em.
  { exists (Ok (take k s)), w. replace len with k by lia. eauto. }
  unfold bind, attempt. rewrite length_take. replace (k `min` length s)%nat with k by lia.
  destruct (pread_spec f w c (S m) (off + k)%nat Hw)
    as [(data & -> & Hd & Hemp & Hfull)|(e & He & ->)].
  - rewrite <- drop_drop in Hd, Hemp, Hfull. fold s in Hd, Hemp, Hfull.
    assert (Hlen : (length data <= S m)%nat /\ (length data <= length s - k)%nat).
    { rewrite Hd, !length_take, length_drop. lia. }
    assert (Happ : take k s ++ data = take (k + length data) s).
    { rewrite Hd at 1. rewrite take_take, Nat.min_l, take_take_drop by lia. done. }
    destruct data as [|b data].
    { eexists _, _; split_and!; [reflexivity|done|by destruct (w_script w); [|apply suffix_cons_r]|].
      left. f_equal. specialize (Hemp eq_refl).
      assert (length s = k).
      { apply (f_equal length) in Hemp. rewrite length_take, length_drop, length_nil in Hemp. lia. }
      rewrite !take_ge by lia. done. }
    remember (b :: data) as data' eqn:Hcons. set (w1 := World _ _).
    rewrite Happ. replace (S m - length data')%nat with (len - (k + length data'))%nat by lia.
    destruct (w_script w) as [|o os] eqn:Es.
    + specialize (Hfull eq_refl).
      assert (Hall : take (k + length data') s = take len s).
      { rewrite <- Happ, Hfull, take_take_drop. f_equal. lia. }
      assert (Hsh : (k + length data')%nat = (len `min` length s)%nat) by (apply (f_equal length) in Hfull; rewrite length_take, length_drop in Hfull; lia).
      rewrite Hall, Hsh. destruct (Nat.le_gt_cases len (length s)) as [Hshort|Hlong].
      { replace (len - len `min` length s)%nat with 0%nat by lia. exists (Ok (take len s)), w1. destruct fuel; eauto. }
      rewrite Nat.min_r, take_ge by lia. destruct fuel as [|fuel]; [cbn in Hf; lia|].
      destruct (read_loop_end fuel f len off w1 c) as (w' & Hr & Hfs & Hsc); [by destruct Hw|done|fold s; lia|].
      exists (Ok s), w'. rewrite Hsc. split_and!; [done|done|done|by left].
    + destruct (IH w1 (k + length data')%nat) as (r & w' & Hr & Hfs & Hsuf & Hres).
      1: by destruct Hw.
      1, 2: lia.
      1: unfold w1; cbn in *; lia.
      * exists r, w'. split_and!; [done|done|by apply suffix_cons_r|]. by apply (read_result_next w os o).
  - destruct (w_script w) as [|o os] eqn:Es; [done|]. cbn in He. simplify_eq.
    case_bool_decide.
    + destruct (IH (World (w_files w) os) k) as (r & w' & Hr & Hfs & Hsuf & Hres);
        [by destruct Hw|done|done|cbn in *; lia|].
      rewrite Em in Hr. exists r, w'. split_and!; [done|done|by apply suffix_cons_r|]. by apply (read_result_next w os (SysErr e)).
    + eexists _, _. split_and!; [reflexivity|done|by apply suffix_cons_r|].
      right. exists e. split; [done|]. unfold benign. rewrite Es. by inversion 1.
Qed.

Lemma read_spec f w c len off :
  readable f w c ->
  exists r w', File.read f len off w = (r, w') /\
    w_files w' = w_files w /\ suffix (w_script w') (w_script w) /\
    (r = Ok (take len (drop off c)) \/ exists e, r = Err (Zpos e) /\ ~ benign w).
Proof.
  intros Hw. unfold File.read, bind, gets.
  pose proof (read_loop_spec (2 + length (w_script w)) f len off w c 0 Hw) as H.
  rewrite take_0, Nat.sub_0_r in H. apply H; lia.
Qed.
End FileSpecs.

(** ** The operations as weakest preconditions

    Each operation either returns what it should, or the kernel refused a call and
    the files are as before. *)

Section FileWp.
Context (w0 : world).

(** [E] holds, with the error code, after a refused call that left the files [fs] alone. *)
Definition refused (fs : gmap string (list Z)) (E : Z -> world -> Prop) : Prop :=
  forall e w', evolves w0 w' -> w_files w' = fs -> ~ benign w0 -> E e w'.
(** [Q] holds of a world with the files [fs]. *)
Definition left_with (fs : gmap string (list Z)) (Q : world -> Prop) : Prop :=
  forall w', evolves w0 w' -> w_files w' = fs -> Q w'.

Context (w : world) (Hev : evolves w0 w) (E : fault -> world -> Prop)
  (HE : refused (w_files w) (fun e => E (Returned e))).
Implicit Types (f : AppendOnlyFile) (c : list Z).

Lemma wp_size f c (Q : nat -> world -> Prop) :
  readable f w c -> left_with (w_files w) (Q (length c)) -> wp (File.size f) Q E w.
Proof.
  intros [Ho Hc] HQ. unfold File.size, File.on_fd. rewrite Ho.
  apply (wp_syscall w0); [done| |intros; by apply HE].
  intros w' Hev' Hfs. apply wp_bind, wp_gets. rewrite Hfs, Hc. by apply HQ.
Qed.

Lemma wp_truncate f c len (Q : unit -> world -> Prop) :
  writable f w c -> (len <= length c)%nat ->
  left_with (<[filename f := take len c]> (w_files w)) (Q tt) -> wp (File.truncate f len) Q E w.
Proof.
  intros (Ho & Hr & Hc) Hle HQ. unfold File.truncate, File.on_fd. rewrite Ho, Hr.
  apply (wp_syscall w0); [done| |intros; by apply HE].
  intros w' Hev' Hfs. apply wp_bind, wp_gets. rewrite Hfs, Hc. apply wp_modify, HQ; [done|].
  unfold set_files; cbn. replace (len - length c)%nat with O by lia. cbn. by rewrite app_nil_r.
Qed.

Lemma wp_sync f (Q : unit -> world -> Prop) :
  is_open f = true -> left_with (w_files w) (Q tt) -> wp (File.sync f) Q E w.
Proof.
  intros Ho HQ. unfold File.sync, File.on_fd. rewrite Ho.
  apply (wp_syscall w0); [done| |intros; by apply HE]. intros. by apply HQ.
Qed.

Lemma wp_syncTail f off (Q : unit -> world -> Prop) :
  is_open f = true -> left_with (w_files w) (Q tt) -> wp (File.syncTail f off) Q E w.
Proof. apply wp_sync. Qed.

Lemma wp_read f c len off (Q : list Z -> world -> Prop) :
  readable f w c -> left_with (w_files w) (Q (take len (drop off c))) ->
  wp (File.read f len off) Q E w.
Proof.
  intros Hr HQ. destruct (read_spec f w c len off Hr) as (r & w' & Hrun & Hfs & Hs & Hcase).
  unfold wp. rewrite Hrun. assert (Hev' : evolves w0 w') by by transitivity w.
  destruct Hcase as [->|(e & -> & Hb)]; [by apply HQ|].
  apply HE; [done|done|exact (evolves_not_benign _ _ Hev Hb)].
Qed.

(** The outcome of an append is in its result: how many bytes were added. *)
Lemma wp_append f c data (Q : nat * Z -> world -> Prop) :
  writable f w c ->
  (forall n e w', evolves w0 w' -> (e <> 0 -> ~ benign w0) -> (n <= length data)%nat ->
     (e = 0 -> n = length data) ->
     w_files w' = <[filename f := c ++ take n data]> (w_files w) -> Q (n, e) w') ->
  wp (File.append f data) Q E w.
Proof.
  intros Hw HQ. destruct (append_spec f w c data Hw) as (n & e & w' & Hrun & Hev' & Hb & ? & ? & ?).
  unfold wp. rewrite Hrun. apply HQ; try done; [by transitivity w|].
  intros He. exact (evolves_not_benign _ _ Hev (Hb He)).
Qed.

Lemma wp_append_batch f c batch (Q : nat * Z -> world -> Prop) :
  writable f w c -> concat batch <> [] ->
  (forall n e w', evolves w0 w' -> (e <> 0 -> ~ benign w0) -> (n <= length (concat batch))%nat ->
     (e = 0 -> n = length (concat batch)) ->
     w_files w' = <[filename f := c ++ take n (concat batch)]> (w_files w) -> Q (n, e) w') ->
  wp (File.append_batch f batch (length (concat batch))) Q E w.
Proof.
  intros Hw Hne HQ.
  destruct (append_batch_spec f w c batch Hw Hne) as (n & e & w' & Hrun & Hev' & Hb & ? & ? & ?).
  unfold wp. rewrite Hrun. apply HQ; try done; [by transitivity w|].
  intros He. exact (evolves_not_benign _ _ Hev (Hb He)).
Qed.

Lemma wp_open_as name ro ex c (Q : AppendOnlyFile -> world -> Prop) :
  refused (w_files w) (fun e => E (Thrown e)) -> w_files w !! name = Some c ->
  left_with (w_files w) (Q (mkAppendOnlyFile name ro true)) ->
  wp (File.open_as name ex ro) Q E w.
Proof.
  intros HT Hc HQ. unfold File.open_as. apply wp_bind. eapply wp_sys_next; [done|].
  intros o w' Hev' Hfs Hb. apply wp_bind, wp_gets. rewrite Hfs, Hc. destruct o as [|e|n].
  - by apply HQ.
  - apply HT; [done..|exact (Hb (fun H => H))].
  - by apply HQ.
Qed.

Lemma wp_exists name (Q : bool -> world -> Prop) :
  left_with (w_files w) (Q (bool_decide (is_Some (w_files w !! name)))) ->
  wp (sys_exists name) Q E w.
Proof.
  intros HQ. apply (wp_syscall w0); [done| |intros; by apply HE].
  intros w' Hev' Hfs. apply wp_bind, wp_gets, wp_ret. rewrite Hfs. by apply HQ.
Qed.

Lemma wp_remove name (Q : unit -> world -> Prop) :
  left_with (delete name (w_files w)) (Q tt) -> wp (sys_remove name) Q E w.
Proof.
  intros HQ. apply (wp_syscall w0); [done| |intros; by apply HE].
  intros w' Hev' Hfs. apply wp_bind, wp_gets, wp_modify. apply HQ; [done|].
  unfold set_files; cbn. by rewrite Hfs.
Qed.

Lemma wp_renameTo f c new_file (Q : AppendOnlyFile -> world -> Prop) :
  w_files w !! filename f = Some c ->
  left_with (<[new_file := c]> (delete (filename f) (w_files w)))
    (Q (mkAppendOnlyFile new_file (read_only f) (is_open f))) ->
  wp (File.renameTo f new_file) Q E w.
Proof.
  intros Hc HQ. unfold File.renameTo. apply wp_bind.
  apply (wp_syscall w0); [done| |intros; by apply HE].
  intros w' Hev' Hfs. apply wp_bind, wp_gets. rewrite Hfs, Hc. apply wp_modify, wp_ret.
  by apply HQ.
Qed.
End FileWp.

(** A missing file is created empty. *)
Lemma wp_open_new w0 w name (Q : AppendOnlyFile -> world -> Prop) E :
  evolves w0 w -> w_files w !! name = None -> refused w0 (w_files w) (fun e => E (Thrown e)) ->
  left_with w0 (<[name := []]> (w_files w)) (Q (mkAppendOnlyFile name false true)) ->
  wp (File.open_as name false false) Q E w.
Proof.
  intros Hev Hc HE HQ. unfold File.open_as. apply wp_bind. apply (wp_sys_next w0); [done|].
  intros o w2 Hev2 Hfs2 Hb. apply wp_bind, wp_gets. rewrite Hfs2, Hc. destruct o as [|e|n].
  - apply wp_bind, wp_modify, wp_ret, HQ; [done|]. done.
  - apply HE; [done|congruence|exact (Hb (fun H => H))].
  - apply wp_bind, wp_modify, wp_ret, HQ; [done|]. done.
Qed.

(** The file is opened as it is, or created empty. *)
Lemma wp_open_or_create w0 w name (Q : AppendOnlyFile -> world -> Prop) E :
  evolves w0 w -> refused w0 (w_files w) (fun e => E (Thrown e)) ->
  left_with w0 (<[name := default [] (w_files w !! name)]> (w_files w))
    (Q (mkAppendOnlyFile name false true)) ->
  wp (File.open_or_create name) Q E w.
Proof.
  intros Hev HE HQ. unfold File.open_or_create. apply wp_bind, wp_attempt.
  apply (wp_exists w0); [done|intros e w' ???; by apply HE|].
  intros w1 Hev1 Hfs1. destruct (w_files w !! name) as [c|] eqn:Hc; cbn in HQ.
  - apply (wp_open_as w0 w1 Hev1) with (c := c).
    + intros e w' ? Hfs ?. apply HE; [done| |done]. by rewrite Hfs.
    + by rewrite Hfs1.
    + intros w' ? Hfs. apply HQ; [done|]. by rewrite Hfs, Hfs1, insert_id.
  - rewrite bool_decide_eq_false_2 by (rewrite ?Hc; by intros [? ?]).
    apply (wp_open_new w0); [done|by rewrite Hfs1| |by rewrite Hfs1].
    intros e w2 Hev2 Hfs2 Hb. apply HE; [done|congruence|done].
Qed.

(** ** Properties *)

(** C25. [append] on an open writable file always returns, whatever sequence of
    failures, interruptions and short writes the kernel answers with; the file is
    then its old contents followed by exactly the reported number of bytes of the
    data, no other file is touched, success means all of the data, and an error is
    only reported when the kernel refused a call. *)
Theorem append_durable f w c data :
  writable f w c ->
  exists n e w', File.append f data w = (Ok (n, e), w') /\
    (n <= length data)%nat /\ (e = 0 -> n = length data) /\ (e <> 0 -> ~ benign w) /\
    w_files w' = <[filename f := c ++ take n data]> (w_files w).
Proof.
  intros Hw. destruct (append_spec f w c data Hw) as (n & e & w' & Hrun & _ & Hb & Hle & He & Hfs).
  exists n, e, w'. auto.
Qed.

(** A torn write is cut off again: a short write, an interruption, then a full
    disk; the rollback leaves the file as it was. *)
Lemma append_durable_witness :
  let f := mkAppendOnlyFile "a" false true in
  let w := World {["a" := [7]]} [SysShort 2; SysErr 4; SysErr 28] in
  exists n e w', File.append f [1; 2; 3] w = (Ok (n, e), w') /\
    (n <= 3)%nat /\ (e = 0 -> n = 3%nat) /\ (e <> 0 -> ~ benign w) /\
    w_files w' = <["a" := [7] ++ take n [1; 2; 3]]> (w_files w).
Proof.
  intros f w. apply (append_durable f w [7] [1; 2; 3]). split_and!; reflexivity.
Defined.

(** C26. The vectored [append] of a non-empty batch behaves like one write of the
    concatenation, resuming inside the right vector after a short write: the file
    grows by exactly the reported number of bytes of the concatenated batch. *)
Theorem append_batch_durable f w c batch :
  writable f w c -> concat batch <> [] ->
  exists n e w', File.append_batch f batch (length (concat batch)) w = (Ok (n, e), w') /\
    (n <= length (concat batch))%nat /\ (e = 0 -> n = length (concat batch)) /\
    (e <> 0 -> ~ benign w) /\
    w_files w' = <[filename f := c ++ take n (concat batch)]> (w_files w).
Proof.
  intros Hw Hne.
  destruct (append_batch_spec f w c batch Hw Hne) as (n & e & w' & Hrun & _ & Hb & Hle & He & Hfs).
  exists n, e, w'. auto.
Qed.

Lemma append_batch_durable_witness :
  let f := mkAppendOnlyFile "a" false true in
  let w := World {["a" := [7]]} [SysShort 3; SysErr 4; SysShort 1] in
  exists n e w', File.append_batch f [[1; 2]; [3; 4]; [5]] 5 w = (Ok (n, e), w') /\
    (n <= 5)%nat /\ (e = 0 -> n = 5%nat) /\ (e <> 0 -> ~ benign w) /\
    w_files w' = <["a" := [7] ++ take n [1; 2; 3; 4; 5]]> (w_files w).
Proof.
  intros f w. apply (append_batch_durable f w [7] [[1; 2]; [3; 4]; [5]]).
  - split_and!; reflexivity.
  - discriminate.
Defined.

(** [read] returns the requested slice of the file, cut at its end, whatever
    short reads and interruptions happen; it fails only with an error of the
    kernel and never changes a file. *)
Theorem read_exact f w c len off :
  readable f w c ->
  exists r w', File.read f len off w = (r, w') /\ w_files w' = w_files w /\
    (r = Ok (take len (drop off c)) \/ exists e, r = Err (Zpos e) /\ ~ benign w).
Proof.
  intros Hr. destruct (read_spec f w c len off Hr) as (r & w' & Hrun & Hfs & _ & Hcase).
  exists r, w'. auto.
Qed.

Lemma read_exact_witness :
  let f := mkAppendOnlyFile "a" true true in
  let w := World {["a" := [7; 8; 9; 10]]} [SysShort 1; SysErr 4; SysShort 1] in
  exists r w', File.read f 10 1 w = (r, w') /\ w_files w' = w_files w /\
    (r = Ok [8; 9; 10] \/ exists e, r = Err (Zpos e) /\ ~ benign w).
Proof.
  intros f w. apply (read_exact f w [7; 8; 9; 10] 10 1). split; reflexivity.
Defined.
