(* ===== verification/Frame.v ===== *)
(** * What a call leaves alone

    [keeps I m Q s]: whatever happens, an error, an exception or undefined behaviour
    included, [m] started in [s] ends in a state with [I], and a value it returns
    satisfies [Q].  With [I] "the files whose names do not belong to this component
    are as before" this gives the frame of the operations of a component, whatever
    the kernel answers and whatever the state of the component is. *)

From S2P Require Import Prelude Os AppendOnlyFile.

Local Open Scope prog_scope.

Definition keeps {S A} (I : S -> Prop) (m : M S A) (Q : A -> Prop) (s : S) : Prop :=
  match m s with
  | (Ok a, s') => I s' /\ Q a
  | (_, s') => I s'
  end.
Arguments keeps : simpl never.

Section Keeps.
Context {S : Type} (I : S -> Prop).

Lemma keeps_end {A} (m : M S A) Q s : keeps I m Q s -> I (m s).2.
Proof. unfold keeps. destruct (m s) as [[] ?]; cbn; tauto. Qed.

Lemma keeps_weaken {A} (m : M S A) (Q Q' : A -> Prop) s :
  (forall a, Q a -> Q' a) -> keeps I m Q s -> keeps I m Q' s.
Proof. unfold keeps. destruct (m s) as [[] ?]; intuition. Qed.

Lemma keeps_ret {A} (a : A) (Q : A -> Prop) s : I s -> Q a -> keeps I (ret a) Q s.
Proof. by split. Qed.

Lemma keeps_fail {A} e (Q : A -> Prop) s : I s -> keeps I (fail e) Q s.
Proof. done. Qed.

Lemma keeps_throw {A} e (Q : A -> Prop) s : I s -> keeps I (throw e) Q s.
Proof. done. Qed.

Lemma keeps_undef {A} (Q : A -> Prop) s : I s -> keeps I undef Q s.
Proof. done. Qed.

Lemma keeps_bind {A B} (m : M S A) (k : A -> M S B) P Q s :
  keeps I m P s -> (forall a s', I s' -> P a -> keeps I (k a) Q s') -> keeps I (bind m k) Q s.
Proof. unfold keeps, bind. destruct (m s) as [[] ?]; intros Hm Hk; [by apply Hk; apply Hm|done..]. Qed.

Lemma keeps_gets {A} (f : S -> A) (Q : A -> Prop) s : I s -> Q (f s) -> keeps I (gets f) Q s.
Proof. by split. Qed.

Lemma keeps_get_any {A} (f : S -> A) s : I s -> keeps I (gets f) (fun _ => True) s.
Proof. by split. Qed.

Lemma keeps_ret_any {A} (a : A) s : I s -> keeps I (ret a) (fun _ => True) s.
Proof. by split. Qed.

Lemma keeps_modify (f : S -> S) s : I (f s) -> keeps I (modify f) (fun _ => True) s.
Proof. by split. Qed.

Lemma keeps_map_err {A} c (m : M S A) Q s : keeps I m Q s -> keeps I (map_err c m) Q s.
Proof. unfold keeps, map_err. by destruct (m s) as [[] ?]. Qed.

Lemma keeps_attempt {A} (m : M S A) (P : A -> Prop) s :
  keeps I m P s -> keeps I (attempt m) (fun r => match r with inl a => P a | inr _ => True end) s.
Proof. unfold keeps, attempt. by destruct (m s) as [[] ?]. Qed.

Lemma keeps_defined {A} (o : option A) s : I s -> keeps I (defined o) (fun a => o = Some a) s.
Proof. by destruct o. Qed.
End Keeps.

Lemma keeps_zoom {S T A} (I : S -> Prop) (J : T -> Prop) get set (m : M T A) Q s :
  keeps J m Q (get s) -> (forall t, J t -> I (set t s)) -> keeps I (zoom get set m) Q s.
Proof.
  unfold keeps, zoom. intros Hm Hset. destruct (m (get s)) as [[] t]; [destruct Hm; auto|auto..].
Qed.

(** What a call keeps comes on top of what is known of its result. *)
Lemma wp_keeps {S A} (I : S -> Prop) (m : M S A) P Q E s :
  wp m Q E s -> keeps I m P s ->
  wp m (fun a s' => Q a s' /\ I s') (fun x s' => E x s' /\ I s') s.
Proof. unfold wp, keeps. destruct (m s) as [[] ?]; tauto. Qed.

Create HintDb frame.
#[export] Hint Resolve keeps_fail keeps_throw keeps_undef keeps_map_err keeps_attempt keeps_defined : frame.
#[export] Hint Resolve keeps_get_any keeps_ret_any | 5 : frame.

(** Walk through a program; a leaf is solved from the database. *)
Ltac frame :=
  lazymatch goal with
  | |- keeps _ (bind _ _) _ _ => eapply keeps_bind; [frame|intros; cbv beta in *; destruct_and?; frame]
  | |- keeps _ (map_err _ _) _ _ => apply keeps_map_err; frame
  | |- keeps _ (match ?x with _ => _ end) _ _ => destruct x; frame
  | _ => try solve [eauto with frame]
  end.

(** ** The files outside *)

Section Files.
(** The names that belong to the component, and the files when it started. *)
Context (own : string -> Prop) (fs0 : gmap string (list Z)).

Definition outside (w : world) : Prop := forall f, ~ own f -> w_files w !! f = fs0 !! f.

Lemma outside_files w w' fs :
  outside w -> (forall f, ~ own f -> fs !! f = w_files w !! f) -> outside (set_files fs w').
Proof. intros Ho Hfs f Hf. cbn. by rewrite Hfs, Ho. Qed.

Lemma outside_insert w w' f c : outside w -> own f -> outside (set_files (<[f := c]> (w_files w)) w').
Proof. intros Ho Hf. apply (outside_files w); [done|]. intros g Hg. apply lookup_insert_ne. by intros ->. Qed.

Lemma outside_delete w w' f : outside w -> own f -> outside (set_files (delete f (w_files w)) w').
Proof. intros Ho Hf. apply (outside_files w); [done|]. intros g Hg. apply lookup_delete_ne. by intros ->. Qed.

Lemma outside_script w os : outside w -> outside (World (w_files w) os).
Proof. done. Qed.

(** Whatever the kernel answers. *)
Ltac by_outcome w :=
  unfold keeps, syscall, bind, sys_next, gets, modify, fail, throw, ret; cbn [fst snd];
  destruct (w_script w) as [|[]]; cbn [w_files transfer];
  repeat match goal with |- context [w_files w !! ?f] => destruct (w_files w !! f) eqn:? end;
  repeat split; auto using outside_script, outside_insert, outside_delete.

Lemma keeps_sys_next w : outside w -> keeps outside sys_next (fun _ => True) w.
Proof. intros Ho. by_outcome w. Qed.

Lemma keeps_sys_remove f w : outside w -> own f -> keeps outside (sys_remove f) (fun _ => True) w.
Proof. intros Ho Hf. unfold sys_remove. by_outcome w. Qed.

Lemma keeps_sys_exists f w : outside w -> keeps outside (sys_exists f) (fun _ => True) w.
Proof. intros Ho. unfold sys_exists. by_outcome w. Qed.

Lemma keeps_sys_rename f g w :
  outside w -> own f -> own g -> keeps outside (sys_rename f g) (fun _ => True) w.
Proof.
  intros Ho Hf Hg. unfold sys_rename. by_outcome w;
    (apply (outside_files w); [done|]; intros h Hh; rewrite lookup_insert_ne, lookup_delete_ne by (by intros ->); done).
Qed.

Lemma keeps_open_as f ex ro w :
  outside w -> own f -> keeps outside (File.open_as f ex ro) (fun x => filename x = f) w.
Proof.
  intros Ho Hf. unfold File.open_as. destruct ro, ex; cbn [orb]; by_outcome w.
Qed.

(** Opening for reading creates nothing. *)
Lemma keeps_open_existing f ro w :
  outside w -> keeps outside (File.open_as f true ro) (fun x => filename x = f /\ read_only x = ro) w.
Proof. intros Ho. unfold File.open_as. destruct ro; cbn [orb]; by_outcome w. Qed.

Lemma keeps_open_or_create f w :
  outside w -> own f -> keeps outside (File.open_or_create f) (fun x => filename x = f) w.
Proof.
  intros Ho Hf. unfold File.open_or_create. eapply keeps_bind; [apply keeps_attempt, keeps_sys_exists, Ho|].
  intros [ex|e] w' Ho' _; [by apply keeps_open_as|by apply keeps_throw].
Qed.

Section File.
Context (f : AppendOnlyFile).

Lemma keeps_on_fd {A} (m : M world A) Q w :
  outside w -> keeps outside m Q w -> keeps outside (File.on_fd f m) Q w.
Proof. intros Ho Hm. unfold File.on_fd. destruct (is_open f); [done|by apply keeps_fail]. Qed.

Lemma keeps_size w : outside w -> keeps outside (File.size f) (fun _ => True) w.
Proof. intros Ho. apply keeps_on_fd; [done|]. unfold sys_fstat_size. by_outcome w. Qed.

Lemma keeps_sync w : outside w -> keeps outside (File.sync f) (fun _ => True) w.
Proof. intros Ho. apply keeps_on_fd; [done|]. unfold sys_fsync. by_outcome w. Qed.

Lemma keeps_syncTail o w : outside w -> keeps outside (File.syncTail f o) (fun _ => True) w.
Proof. intros Ho. apply keeps_on_fd; [done|]. unfold sys_fsync. by_outcome w. Qed.

Lemma keeps_read n o w : outside w -> keeps outside (File.read f n o) (fun _ => True) w.
Proof.
  intros Ho. unfold File.read. eapply keeps_bind; [by apply (keeps_gets _ _ (fun _ => True))|].
  intros fuel w1 H1 _. generalize (@nil Z) as acc.
  revert n w1 H1. induction fuel as [|fuel IH]; intros [|n] w1 H1 acc; cbn [File.read_loop];
    [by apply keeps_ret|by apply keeps_undef|by apply keeps_ret|].
  eapply keeps_bind.
  { apply keeps_attempt, (keeps_on_fd _ (fun _ => True)); [done|]. unfold sys_pread. by_outcome w1. }
  intros [[|x xs]|e] w2 H2 _; [by apply keeps_ret|by apply IH|].
  case_bool_decide; [by apply IH|by apply keeps_fail].
Qed.

Context (Hown : read_only f = true \/ own (filename f)).

Lemma keeps_truncate len w : outside w -> keeps outside (File.truncate f len) (fun _ => True) w.
Proof.
  intros Ho. apply keeps_on_fd; [done|]. destruct (read_only f); [by apply keeps_fail|].
  destruct Hown as [[=]|Hf]. unfold sys_ftruncate. by_outcome w.
Qed.

Lemma keeps_write data w : outside w -> keeps outside (File.write f data) (fun _ => True) w.
Proof.
  intros Ho. apply keeps_on_fd; [done|]. destruct (read_only f); [by apply keeps_fail|].
  destruct Hown as [[=]|Hf]. unfold sys_append. by_outcome w.
Qed.

Lemma keeps_rollback n e w : outside w -> keeps outside (File.rollbackTornTail f n e) (fun _ => True) w.
Proof.
  intros Ho. destruct n as [|n]; [by apply keeps_ret|]. cbn [File.rollbackTornTail].
  eapply keeps_bind; [by apply keeps_attempt, keeps_size|].
  intros [c|x] w1 H1 _; [|by apply keeps_ret].
  eapply keeps_bind; [by apply keeps_attempt, keeps_truncate|].
  intros [t|x] w2 H2 _; by apply keeps_ret.
Qed.

Lemma keeps_append data w : outside w -> keeps outside (File.append f data) (fun _ => True) w.
Proof.
  intros Ho. unfold File.append. eapply keeps_bind; [by apply (keeps_gets _ _ (fun _ => True))|].
  intros fuel w1 H1 _. generalize 0%nat as n. revert data w1 H1.
  induction fuel as [|fuel IH]; intros [|x data] w1 H1 n; cbn [File.append_loop];
    [by apply keeps_ret|by apply keeps_undef|by apply keeps_ret|].
  eapply keeps_bind; [by apply keeps_attempt, keeps_write|].
  intros [k|e] w2 H2 _; [by apply IH|]. case_bool_decide; [by apply IH|by apply keeps_rollback].
Qed.

Lemma keeps_renameTo g w :
  outside w -> own (filename f) -> own g -> keeps outside (File.renameTo f g) (fun x => filename x = g) w.
Proof.
  intros Ho Hf Hg. unfold File.renameTo. eapply keeps_bind; [by apply keeps_sys_rename|].
  intros _ w1 H1 _. by apply keeps_ret.
Qed.
End File.
End Files.

#[export] Hint Resolve keeps_sys_remove keeps_sys_exists keeps_open_as keeps_open_existing keeps_open_or_create
  keeps_size keeps_sync keeps_syncTail keeps_read keeps_truncate keeps_append keeps_renameTo : frame.
