(* ===== verification/Codec.v ===== *)
(** * Binary encodings (src/IO/VarInt.h, src/IO/ReadHelpers.h, src/IO/WriteHelpers.h)

    Fixed-width little-endian integers, variable-length integers and the readers
    for them.  A reader is a computation on the bytes left in the buffer; running
    off the end throws the exception the C++ readers throw. *)

From S2P Require Import Prelude.

Local Open Scope prog_scope.

Definition ATTEMPT_TO_READ_AFTER_EOF : Z := 32.
Definition CANNOT_READ_ALL_DATA : Z := 33.

(** Integer types, as ranges of [Z]. *)
Definition u64 (x : Z) : Prop := 0 <= x < 2 ^ 64.
Definition u32 (x : Z) : Prop := 0 <= x < 2 ^ 32.
Definition u16 (x : Z) : Prop := 0 <= x < 2 ^ 16.
Definition i64 (x : Z) : Prop := - 2 ^ 63 <= x < 2 ^ 63.

#[export] Instance u64_dec x : Decision (u64 x). Proof. unfold u64. apply _. Defined.
#[export] Instance u32_dec x : Decision (u32 x). Proof. unfold u32. apply _. Defined.
#[export] Instance u16_dec x : Decision (u16 x). Proof. unfold u16. apply _. Defined.
#[export] Instance i64_dec x : Decision (i64 x). Proof. unfold i64. apply _. Defined.

(** Conversions between the types. *)
Definition to_u64 (x : Z) : Z := x mod 2 ^ 64.
Definition to_u32 (x : Z) : Z := x mod 2 ^ 32.
Definition to_u16 (x : Z) : Z := x mod 2 ^ 16.
Definition to_i64 (x : Z) : Z := (x + 2 ^ 63) mod 2 ^ 64 - 2 ^ 63.
Definition to_i32 (x : Z) : Z := (x + 2 ^ 31) mod 2 ^ 32 - 2 ^ 31.
Definition to_i16 (x : Z) : Z := (x + 2 ^ 15) mod 2 ^ 16 - 2 ^ 15.

Abbreviation reader := (M (list Z)).

(** ** Fixed width *)

Fixpoint le_encode (n : nat) (x : Z) : list Z :=
  match n with
  | O => []
  | S n => x mod 256 :: le_encode n (x / 256)
  end.
Fixpoint le_decode (l : list Z) : Z :=
  match l with
  | [] => 0
  | b :: l => b + 256 * le_decode l
  end.

(** [ReadBuffer::readStrict] *)
Definition readStrict (n : nat) : reader (list Z) := fun rb =>
  if bool_decide (n <= length rb)%nat then (Ok (take n rb), drop n rb)
  else (Exn CANNOT_READ_ALL_DATA, []).

Definition writeUInt64 (x : Z) : list Z := le_encode 8 x.
Definition writeInt64 (x : Z) : list Z := le_encode 8 x.
Definition writeUInt32 (x : Z) : list Z := le_encode 4 x.
Definition readUInt64 : reader Z := bs <- readStrict 8;; ret (le_decode bs).
Definition readInt64 : reader Z := bs <- readStrict 8;; ret (to_i64 (le_decode bs)).
Definition readUInt32 : reader Z := bs <- readStrict 4;; ret (le_decode bs).
(** One byte. *)
Definition readUInt8 : reader Z := bs <- readStrict 1;; ret (le_decode bs).

(** ** Variable width *)

(** At most ten bytes for 64 bits. *)
Fixpoint writeVarUInt_loop (fuel : nat) (x : Z) : list Z :=
  match fuel with
  | O => []
  | S fuel =>
      if 127 <? x then Z.lor 128 (Z.land x 127) :: writeVarUInt_loop fuel (Z.shiftr x 7)
      else [x]
  end.
Definition writeVarUInt (x : Z) : list Z := writeVarUInt_loop 10 x.
Definition writeVarInt (x : Z) : list Z :=
  writeVarUInt (to_u64 (Z.lxor (Z.shiftl x 1) (Z.shiftr x 63))).

Definition readByte : reader Z := fun rb =>
  match rb with
  | [] => (Exn ATTEMPT_TO_READ_AFTER_EOF, [])
  | b :: rb => (Ok b, rb)
  end.
Fixpoint readVarUInt_loop (turns : nat) (i x : Z) : reader Z :=
  match turns with
  | O => ret x
  | S turns =>
      byte <- readByte;;
      let x := Z.lor x (to_u64 (Z.shiftl (Z.land byte 127) (7 * i))) in
      if Z.land byte 128 =? 0 then ret x else readVarUInt_loop turns (i + 1) x
  end.
Definition readVarUInt : reader Z := readVarUInt_loop 10 0 0.
Definition readVarInt : reader Z :=
  x <- readVarUInt;;
  ret (to_i64 (Z.lxor (Z.shiftr x 1) (- Z.land x 1))).
Definition readVarUInt32 : reader Z := x <- readVarUInt;; ret (to_u32 x).
Definition readVarUInt16 : reader Z := x <- readVarUInt;; ret (to_u16 x).

(** ** Round trips *)

(** [r] reads exactly the bytes [bs], as the value [a], whatever follows. *)
Definition reads {A} (r : reader A) (bs : list Z) (a : A) : Prop :=
  forall rest, r (bs ++ rest) = (Ok a, rest).

Lemma to_u64_small x : 0 <= x < 2 ^ 64 -> to_u64 x = x.
Proof. apply Z.mod_small. Qed.

Lemma reads_ret {A} (a : A) : reads (ret a) [] a.
Proof. done. Qed.

Lemma reads_bind {A B} (r : reader A) (k : A -> reader B) bs bs' a b :
  reads r bs a -> reads (k a) bs' b -> reads (bind r k) (bs ++ bs') b.
Proof. intros Hr Hk rest. rewrite <- app_assoc. unfold bind. by rewrite Hr, Hk. Qed.

Lemma reads_map {A B} (r : reader A) (f : A -> B) bs a b :
  reads r bs a -> f a = b -> reads (x <- r;; ret (f x)) bs b.
Proof. intros Hr <- rest. unfold bind. by rewrite Hr. Qed.

Lemma length_le_encode n x : length (le_encode n x) = n.
Proof. revert x. induction n as [|n IH]; intros x; cbn; [done|]. by rewrite IH. Qed.

Lemma le_decode_encode n x : le_decode (le_encode n x) = x mod 256 ^ Z.of_nat n.
Proof.
  revert x. induction n as [|n IH]; intros x; cbn [le_encode le_decode].
  { by rewrite Z.mod_1_r. }
  rewrite IH, Nat2Z.inj_succ, Z.pow_succ_r by lia.
  rewrite Z.rem_mul_r by lia. lia.
Qed.

Lemma reads_strict bs : reads (readStrict (length bs)) bs bs.
Proof.
  intros rest. unfold readStrict. rewrite bool_decide_true by (rewrite length_app; lia).
  by rewrite take_app_length, drop_app_length.
Qed.

Lemma to_i64_mod x : i64 x -> to_i64 (x mod 2 ^ 64) = x.
Proof.
  intros H. unfold to_i64, i64 in *. rewrite Zplus_mod_idemp_l, Z.mod_small by lia. lia.
Qed.

Lemma to_i64_id x : i64 x -> to_i64 x = x.
Proof. intros H. unfold to_i64, i64 in *. rewrite Z.mod_small by lia. lia. Qed.

Lemma reads_fixed n x y (f : Z -> Z) :
  f (x mod 256 ^ Z.of_nat n) = y ->
  reads (bs <- readStrict n;; ret (f (le_decode bs))) (le_encode n x) y.
Proof.
  intros Hf. apply (reads_map (readStrict n) (fun bs => f (le_decode bs)) _ (le_encode n x)).
  - rewrite <- (length_le_encode n x) at 1. apply reads_strict.
  - by rewrite le_decode_encode.
Qed.

Lemma reads_UInt64 x : u64 x -> reads readUInt64 (writeUInt64 x) x.
Proof. intros H. apply (reads_fixed 8 x x id). unfold u64 in H. cbn. by rewrite Z.mod_small. Qed.
Lemma reads_Int64 x : i64 x -> reads readInt64 (writeInt64 x) x.
Proof. intros H. apply (reads_fixed 8 x x to_i64). by apply to_i64_mod. Qed.
Lemma reads_UInt32 x : u32 x -> reads readUInt32 (writeUInt32 x) x.
Proof. intros H. apply (reads_fixed 4 x x id). unfold u32 in H. cbn. by rewrite Z.mod_small. Qed.
Lemma reads_UInt8 x : 0 <= x < 256 -> reads readUInt8 [x] x.
Proof.
  intros H. pose proof (reads_fixed 1 x x id) as Hr. cbn in Hr.
  rewrite !Z.mod_small in Hr by lia. by apply Hr.
Qed.

Lemma lor_disjoint a b n : 0 <= n -> 0 <= a < 2 ^ n -> Z.lor a (Z.shiftl b n) = a + Z.shiftl b n.
Proof.
  intros Hn Ha. rewrite <- Z.lxor_lor, <- Z.add_nocarry_lxor; [done|..];
    (apply Z.bits_inj'; intros i Hi; rewrite Z.land_spec, Z.bits_0;
     destruct (decide (i < n)); [rewrite Z.shiftl_spec_low by lia; by rewrite andb_false_r|];
     destruct (decide (a = 0)) as [->|]; [by rewrite Z.bits_0|];
     rewrite (Z.bits_above_log2 a); [done|lia|]; apply Z.log2_lt_pow2; [lia|];
     apply Z.lt_le_trans with (2 ^ n); [lia|]; apply Z.pow_le_mono_r; lia).
Qed.

Lemma varint_loop_spec n i acc x rest :
  0 <= i -> 0 <= acc < 2 ^ (7 * i) -> 0 <= x -> x < 128 ^ Z.of_nat n -> (0 < n)%nat ->
  Z.shiftl x (7 * i) < 2 ^ 64 ->
  readVarUInt_loop n i acc (writeVarUInt_loop n x ++ rest)
  = (Ok (acc + Z.shiftl x (7 * i)), rest).
Proof.
  revert i acc x. induction n as [|n IH]; intros i acc x Hi Hacc Hx Hn Hpos Hlt; [lia|].
  cbn [writeVarUInt_loop readVarUInt_loop].
  destruct (Z.ltb_spec 127 x) as [Hgt|Hle].
  - cbn [app]. unfold bind, readByte.
    assert (Hlow : Z.land (Z.lor 128 (Z.land x 127)) 127 = x mod 128).
    { rewrite Z.land_lor_distr_l, <- Z.land_assoc. change (Z.land 128 127) with 0.
      rewrite Z.lor_0_l, Z.land_diag. change 127 with (Z.ones 7). by rewrite Z.land_ones. }
    assert (Hhigh : Z.land (Z.lor 128 (Z.land x 127)) 128 = 128).
    { rewrite Z.land_lor_distr_l, <- Z.land_assoc. change (Z.land 127 128) with 0.
      by rewrite Z.land_0_r. }
    rewrite Hlow, Hhigh. cbn [Z.eqb].
    assert (Hsplit : Z.shiftl x (7 * i) = Z.shiftl (x mod 128) (7 * i) + Z.shiftl (Z.shiftr x 7) (7 * (i + 1))).
    { rewrite !Z.shiftl_mul_pow2, Z.shiftr_div_pow2 by lia.
      replace (7 * (i + 1)) with (7 + 7 * i) by lia. rewrite Z.pow_add_r by lia.
      change (2 ^ 7) with 128. pose proof (Z.div_mod x 128). nia. }
    assert (Hm : 0 <= x mod 128 < 128) by (apply Z.mod_pos_bound; lia).
    assert (Hd : 0 <= Z.shiftr x 7) by (apply Z.shiftr_nonneg; lia).
    assert (Hs1 : 0 <= Z.shiftl (x mod 128) (7 * i)) by (apply Z.shiftl_nonneg; lia).
    assert (Hs2 : 0 <= Z.shiftl (Z.shiftr x 7) (7 * (i + 1))) by (by apply Z.shiftl_nonneg).
    destruct n as [|n]; [cbn in Hn; lia|].
    unfold to_u64. rewrite Z.mod_small by lia. rewrite lor_disjoint by lia.
    rewrite IH; [rewrite Hsplit; f_equal; f_equal; lia|lia| |done| |lia|lia].
    + replace (7 * (i + 1)) with (7 + 7 * i) by lia. rewrite Z.pow_add_r by lia.
      rewrite Z.shiftl_mul_pow2 by lia. change (2 ^ 7) with 128. nia.
    + rewrite Z.shiftr_div_pow2 by lia. apply Z.div_lt_upper_bound; [lia|].
      rewrite Nat2Z.inj_succ, Z.pow_succ_r in Hn by lia. lia.
  - cbn [app]. unfold bind, readByte.
    assert (Z.land x 127 = x) as ->.
    { change 127 with (Z.ones 7). rewrite Z.land_ones by lia. apply Z.mod_small. lia. }
    assert (Z.land x 128 = 0) as ->.
    { apply Z.bits_inj'. intros j Hj. rewrite Z.land_spec, Z.bits_0.
      destruct (decide (j = 7)) as [->|].
      - rewrite (Z.bits_above_log2 x 7); [done|lia|].
        destruct (decide (x = 0)) as [->|]; [done|]. apply Z.log2_lt_pow2; lia.
      - change 128 with (2 ^ 7). rewrite Z.pow2_bits_false by lia. apply andb_false_r. }
    cbn [Z.eqb]. unfold ret, to_u64.
    rewrite Z.mod_small; [by rewrite lor_disjoint by lia|].
    split; [apply Z.shiftl_nonneg; lia|lia].
Qed.

Lemma reads_VarUInt x : u64 x -> reads readVarUInt (writeVarUInt x) x.
Proof.
  intros H rest. unfold u64 in H. unfold readVarUInt, writeVarUInt.
  rewrite varint_loop_spec; rewrite ?Z.shiftl_0_r; cbn; try lia. done.
Qed.

Lemma zigzag_spec x :
  i64 x -> to_u64 (Z.lxor (Z.shiftl x 1) (Z.shiftr x 63)) = if 0 <=? x then 2 * x else - 2 * x - 1.
Proof.
  intros H. unfold i64, to_u64 in *. rewrite Z.shiftl_mul_pow2, Z.shiftr_div_pow2 by lia.
  destruct (Z.leb_spec 0 x).
  - rewrite Z.div_small, Z.lxor_0_r by lia. rewrite Z.mod_small; lia.
  - replace (x / 2 ^ 63) with (-1).
    + rewrite Z.lxor_m1_r. unfold Z.lnot. rewrite Z.mod_small; lia.
    + apply Z.div_unique with (x + 2 ^ 63); lia.
Qed.

Lemma reads_VarInt x : i64 x -> reads readVarInt (writeVarInt x) x.
Proof.
  intros H. unfold readVarInt, writeVarInt. rewrite zigzag_spec by done.
  eapply reads_map.
  - apply reads_VarUInt. unfold u64, i64 in *. destruct (Z.leb_spec 0 x); lia.
  - cbv beta. rewrite Z.shiftr_div_pow2 by lia. change 1 with (Z.ones 1) at 4.
    rewrite Z.land_ones by lia. change (2 ^ 1) with 2.
    destruct (Z.leb_spec 0 x).
    + replace (2 * x) with (x * 2) by lia. rewrite Z.div_mul, Z.mod_mul by lia.
      cbn [Z.opp]. rewrite Z.lxor_0_r. by apply to_i64_id.
    + replace (- 2 * x - 1) with (1 + (- x - 1) * 2) by lia.
      rewrite Z.div_add, Z.mod_add by lia. change (1 / 2) with 0. change (1 mod 2) with 1.
      rewrite Z.lxor_m1_r. unfold Z.lnot. replace (Z.pred (- (0 + (- x - 1)))) with x by lia.
      by apply to_i64_id.
Qed.

Lemma reads_VarUInt32 x : u32 x -> reads readVarUInt32 (writeVarUInt x) x.
Proof.
  intros H. eapply reads_map; [apply reads_VarUInt; unfold u32, u64 in *; lia|].
  unfold to_u32, u32 in *. by rewrite Z.mod_small.
Qed.
Lemma reads_VarUInt16 x : u16 x -> reads readVarUInt16 (writeVarUInt x) x.
Proof.
  intros H. eapply reads_map; [apply reads_VarUInt; unfold u16, u64 in *; lia|].
  unfold to_u16, u16 in *. by rewrite Z.mod_small.
Qed.

Create HintDb codec.
#[export] Hint Resolve reads_UInt64 reads_Int64 reads_UInt32 reads_UInt8 reads_VarUInt
  reads_VarInt reads_VarUInt32 reads_VarUInt16 reads_ret reads_bind reads_map : codec.
