(* ===== verification/KeyValues.v ===== *)
(** * Index entries

    The three entry types of the persistent maps: [EpochSequence]
    (src/Cluster/Common/EpochSequence.h), [SequencePosition] and
    [TimestampSequence] (src/Cluster/LocalLog/Indexes), and the interface the map
    is written against. *)

From S2P Require Import Prelude Codec.

Local Open Scope prog_scope.

(** [x + 1] at [int64_t], where overflow is undefined, and at [uint64_t], where it
    wraps around. *)
Definition succ_i64 (x : Z) : option Z := if x =? 2 ^ 63 - 1 then None else Some (x + 1).
Definition succ_u64 (x : Z) : option Z := Some (to_u64 (x + 1)).

(** What [PersistentMonoMap<KeyValue>] asks of [KeyValue]. *)
Class MonoKeyValue (KV : Type) := {
  key : KV -> Z;
  value : KV -> Z;
  kv_ltb : KV -> KV -> bool;              (** [operator<] *)
  exactSerializedSize : nat;
  kv_serialize : KV -> list Z;
  kv_deserialize : reader KV;
  kv_valid : KV -> Prop;                  (** the values of the C++ type *)
  key_succ : Z -> option Z;               (** [k + 1] at [KeyType] *)
  value_succ : Z -> option Z;             (** [v + 1] at [ValueType] *)
}.

(** The laws the map relies on. *)
Class MonoKeyValueLaws (KV : Type) `{MonoKeyValue KV} : Prop := {
  kv_ltb_lex a b :
    kv_ltb a b = true <-> key a < key b \/ (key a = key b /\ value a < value b);
  kv_size_pos : (0 < exactSerializedSize (KV := KV))%nat;
  kv_serialize_length e : length (kv_serialize e) = exactSerializedSize;
  kv_reads e : kv_valid e -> reads kv_deserialize (kv_serialize e) e;
}.

(** ** EpochSequence: the epoch is always 1 *)

Record EpochSequence : Type := mkEpochSequence { epoch : Z; es_sn : Z }.

Definition EpochSequence_lt (a b : EpochSequence) : bool :=
  (epoch a <? epoch b) || ((epoch a =? epoch b) && (es_sn a <? es_sn b)).
Definition EpochSequence_serialize (e : EpochSequence) : list Z :=
  writeUInt64 1 ++ writeInt64 (es_sn e).
Definition EpochSequence_deserialize : reader EpochSequence :=
  _dummy_epoch <- readUInt64;;
  sn <- readInt64;;
  ret (mkEpochSequence 1 sn).

#[export] Instance EpochSequence_kv : MonoKeyValue EpochSequence := {|
  key := epoch;
  value := es_sn;
  kv_ltb := EpochSequence_lt;
  exactSerializedSize := 16%nat;
  kv_serialize := EpochSequence_serialize;
  kv_deserialize := EpochSequence_deserialize;
  kv_valid e := epoch e = 1 /\ i64 (es_sn e);
  key_succ := succ_u64;
  value_succ := succ_i64;
|}.

(** ** SequencePosition *)

Record SequencePosition : Type := mkSequencePosition { sp_sn : Z; file_position : Z }.

(** [std::tie(sn, file_position) < std::tie(rhs.sn, rhs.file_position)] *)
Definition SequencePosition_lt (a b : SequencePosition) : bool :=
  (sp_sn a <? sp_sn b) || ((sp_sn a =? sp_sn b) && (file_position a <? file_position b)).
Definition SequencePosition_serialize (e : SequencePosition) : list Z :=
  writeInt64 (sp_sn e) ++ writeUInt64 (file_position e).
Definition SequencePosition_deserialize : reader SequencePosition :=
  sn <- readInt64;;
  pos <- readUInt64;;
  ret (mkSequencePosition sn pos).

#[export] Instance SequencePosition_kv : MonoKeyValue SequencePosition := {|
  key := sp_sn;
  value := file_position;
  kv_ltb := SequencePosition_lt;
  exactSerializedSize := 16%nat;
  kv_serialize := SequencePosition_serialize;
  kv_deserialize := SequencePosition_deserialize;
  kv_valid e := i64 (sp_sn e) /\ u64 (file_position e);
  key_succ := succ_i64;
  value_succ := succ_u64;
|}.

(** ** TimestampSequence *)

Record TimestampSequence : Type := mkTimestampSequence { timestamp : Z; ts_sn : Z }.

Definition TimestampSequence_lt (a b : TimestampSequence) : bool :=
  (timestamp a <? timestamp b) || ((timestamp a =? timestamp b) && (ts_sn a <? ts_sn b)).
Definition TimestampSequence_serialize (e : TimestampSequence) : list Z :=
  writeInt64 (timestamp e) ++ writeInt64 (ts_sn e).
Definition TimestampSequence_deserialize : reader TimestampSequence :=
  ts <- readInt64;;
  sn <- readInt64;;
  ret (mkTimestampSequence ts sn).

#[export] Instance TimestampSequence_kv : MonoKeyValue TimestampSequence := {|
  key := timestamp;
  value := ts_sn;
  kv_ltb := TimestampSequence_lt;
  exactSerializedSize := 16%nat;
  kv_serialize := TimestampSequence_serialize;
  kv_deserialize := TimestampSequence_deserialize;
  kv_valid e := i64 (timestamp e) /\ i64 (ts_sn e);
  key_succ := succ_i64;
  value_succ := succ_i64;
|}.

#[export] Instance EpochSequence_eq_dec : EqDecision EpochSequence.
Proof. solve_decision. Defined.
#[export] Instance SequencePosition_eq_dec : EqDecision SequencePosition.
Proof. solve_decision. Defined.
#[export] Instance TimestampSequence_eq_dec : EqDecision TimestampSequence.
Proof. solve_decision. Defined.

(** ** The laws hold for the three of them *)

Lemma lex_ltb (a b c d : Z) :
  ((a <? b) || ((a =? b) && (c <? d))) = true <-> a < b \/ (a = b /\ c < d).
Proof. rewrite orb_true_iff, andb_true_iff, !Z.ltb_lt, Z.eqb_eq. done. Qed.

Lemma reads_two {A B C} (ra : reader A) (rb : reader B) (f : A -> B -> C) bs bs' a b :
  reads ra bs a -> reads rb bs' b ->
  reads (x <- ra;; y <- rb;; ret (f x y)) (bs ++ bs') (f a b).
Proof.
  intros Ha Hb. eapply reads_bind; [exact Ha|]. cbv beta. eapply reads_map; [exact Hb|done].
Qed.

#[export] Instance EpochSequence_laws : MonoKeyValueLaws EpochSequence.
Proof.
  split; cbn -[writeUInt64 writeInt64 EpochSequence_serialize SequencePosition_serialize TimestampSequence_serialize].
  - intros a b. apply lex_ltb.
  - lia.
  - done.
  - intros [ep sn] [Hep Hsn]; cbn in Hep, Hsn. subst ep.
    apply (reads_two readUInt64 readInt64 (fun _ sn => mkEpochSequence 1 sn) _ _ 1 sn).
    + by apply reads_UInt64.
    + by apply reads_Int64.
Qed.

#[export] Instance SequencePosition_laws : MonoKeyValueLaws SequencePosition.
Proof.
  split; cbn -[writeUInt64 writeInt64 EpochSequence_serialize SequencePosition_serialize TimestampSequence_serialize].
  - intros a b. apply lex_ltb.
  - lia.
  - done.
  - intros [sn pos] [Hsn Hpos]; cbn in Hsn, Hpos. apply reads_two; auto with codec.
Qed.

#[export] Instance TimestampSequence_laws : MonoKeyValueLaws TimestampSequence.
Proof.
  split; cbn -[writeUInt64 writeInt64 EpochSequence_serialize SequencePosition_serialize TimestampSequence_serialize].
  - intros a b. apply lex_ltb.
  - lia.
  - done.
  - intros [ts sn] [Hts Hsn]; cbn in Hts, Hsn. apply reads_two; auto with codec.
Qed.
