(* ===== verification/Names.v ===== *)
(** * File names

    Decimal numbers in file names: [fmt::format] on one side, [std::from_chars] on
    the other. *)

From Stdlib Require Import Ascii String.
From S2P Require Import Prelude Codec.

Local Open Scope Z_scope.

Definition digit_char (d : Z) : ascii := ascii_of_N (Z.to_N (d + 48)).
Definition char_digit (c : ascii) : option Z :=
  let n := Z.of_N (N_of_ascii c) in
  if (48 <=? n) && (n <=? 57) then Some (n - 48) else None.

(** The decimal digits of [0 <= x], most significant first; 20 digits are enough
    for 64 bits. *)
Fixpoint digits (fuel : nat) (x : Z) : list Z :=
  match fuel with
  | O => []
  | S fuel => if x <? 10 then [x] else digits fuel (x / 10) ++ [x mod 10]
  end.

(** [fmt::format("{}", x)] for an unsigned 64-bit [x]. *)
Definition show_u64 (x : Z) : list ascii := map digit_char (digits 20 x).

(** [fmt::format("{:0<width>d}", x)]: zero padded, the sign first. *)
Definition pad_zero (width : nat) (ds : list ascii) : list ascii :=
  (replicate (width - length ds) "0"%char ++ ds)%list.
Definition show_padded (width : nat) (x : Z) : list ascii :=
  if x <? 0 then "-"%char :: pad_zero (width - 1) (show_u64 (- x))
  else pad_zero width (show_u64 x).

(** [std::from_chars] that has to consume all of the text: [None] for an empty
    text, a character that is no digit, or a value out of range. *)
Fixpoint parse_digits (acc : Z) (cs : list ascii) : option Z :=
  match cs with
  | [] => Some acc
  | c :: cs =>
      match char_digit c with
      | Some d => parse_digits (10 * acc + d) cs
      | None => None
      end
  end.
Definition from_chars_u64 (cs : list ascii) : option Z :=
  match cs with
  | [] => None
  | _ => match parse_digits 0 cs with
         | Some x => if x <? 2 ^ 64 then Some x else None
         | None => None
         end
  end.
Definition from_chars_i64 (cs : list ascii) : option Z :=
  match cs with
  | [] => None
  | "-"%char :: [] => None
  | "-"%char :: cs =>
      match parse_digits 0 cs with
      | Some x => if x <=? 2 ^ 63 then Some (- x) else None
      | None => None
      end
  | _ => match parse_digits 0 cs with
         | Some x => if x <? 2 ^ 63 then Some x else None
         | None => None
         end
  end.

(** ** Strings as lists *)

Lemma list_ascii_app a b :
  list_ascii_of_string (a +:+ b) = (list_ascii_of_string a ++ list_ascii_of_string b)%list.
Proof. induction a as [|c a IH]; cbn; [done|]. by rewrite <- IH. Qed.

Lemma list_ascii_inj a b : list_ascii_of_string a = list_ascii_of_string b -> a = b.
Proof.
  intros Heq. rewrite <- (string_of_list_ascii_of_string a), Heq.
  apply string_of_list_ascii_of_string.
Qed.

(** ** Reading back what was printed *)

Lemma char_digit_char d : 0 <= d < 10 -> char_digit (digit_char d) = Some d.
Proof.
  intros H. unfold char_digit, digit_char.
  rewrite N_ascii_embedding by lia. rewrite Z2N.id by lia.
  rewrite (proj2 (Z.leb_le _ _)), (proj2 (Z.leb_le _ _)) by lia. cbn. f_equal. lia.
Qed.

Lemma parse_digits_app acc cs cs' :
  parse_digits acc (cs ++ cs') = parse_digits acc cs ≫= fun x => parse_digits x cs'.
Proof.
  revert acc. induction cs as [|c cs IH]; intros acc; cbn; [done|].
  destruct (char_digit c); cbn; [apply IH|done].
Qed.

Lemma parse_digits_show fuel x acc :
  0 <= x < 10 ^ Z.of_nat fuel ->
  parse_digits acc (map digit_char (digits fuel x))
  = Some (acc * 10 ^ Z.of_nat (length (digits fuel x)) + x).
Proof.
  revert x. induction fuel as [|fuel IH]; intros x Hx; cbn [digits].
  { cbn in *. f_equal. lia. }
  destruct (Z.ltb_spec x 10).
  - cbn [map parse_digits]. rewrite char_digit_char by lia. cbn. f_equal. lia.
  - rewrite map_app, parse_digits_app.
    rewrite Nat2Z.inj_succ, Z.pow_succ_r in Hx by lia.
    rewrite IH by (split; [apply Z.div_pos; lia|apply Z.div_lt_upper_bound; lia]).
    cbn [mbind option_bind map parse_digits].
    rewrite char_digit_char by (apply Z.mod_pos_bound; lia).
    rewrite length_app. cbn [length]. rewrite Nat2Z.inj_add, Z.pow_add_r by lia.
    cbn [Z.of_nat Pos.of_succ_nat]. rewrite Z.pow_1_r. f_equal.
    pose proof (Z.div_mod x 10). lia.
Qed.

Lemma digits_nonempty fuel x : (0 < fuel)%nat -> digits fuel x <> [].
Proof.
  destruct fuel; cbn; [lia|]. intros _. destruct (x <? 10); [done|].
  intros H%app_eq_nil. by destruct H.
Qed.

Lemma show_u64_nonempty x : show_u64 x <> [].
Proof. unfold show_u64. intros H%map_eq_nil. by apply (digits_nonempty 20 x) in H; [|lia]. Qed.

Lemma parse_show_u64 x acc :
  u64 x -> parse_digits acc (show_u64 x)
           = Some (acc * 10 ^ Z.of_nat (length (digits 20 x)) + x).
Proof. intros H. apply parse_digits_show. unfold u64 in H. cbn. lia. Qed.

Lemma from_chars_show x : u64 x -> from_chars_u64 (show_u64 x) = Some x.
Proof.
  intros H. unfold from_chars_u64. pose proof (show_u64_nonempty x).
  rewrite (parse_show_u64 x 0 H), Z.mul_0_l, Z.add_0_l.
  unfold u64 in H. rewrite (proj2 (Z.ltb_lt _ _)) by lia. by destruct (show_u64 x).
Qed.

Lemma show_u64_inj x y : u64 x -> u64 y -> show_u64 x = show_u64 y -> x = y.
Proof.
  intros Hx Hy Heq. apply from_chars_show in Hx, Hy. rewrite Heq, Hy in Hx. by simplify_eq.
Qed.

Lemma parse_digits_zeros n acc cs :
  parse_digits acc (replicate n "0"%char ++ cs) = parse_digits (acc * 10 ^ Z.of_nat n) cs.
Proof.
  revert acc. induction n as [|n IH]; intros acc.
  { cbn. by rewrite Z.mul_1_r. }
  cbn [replicate app parse_digits]. change (char_digit "0"%char) with (Some 0). cbv iota beta.
  rewrite IH, Nat2Z.inj_succ, Z.pow_succ_r by lia. f_equal. lia.
Qed.

Lemma parse_pad_zero width x :
  u64 x -> parse_digits 0 (pad_zero width (show_u64 x)) = Some x.
Proof.
  intros H. unfold pad_zero. rewrite parse_digits_zeros, Z.mul_0_l, (parse_show_u64 x 0 H).
  by rewrite Z.mul_0_l.
Qed.

Lemma pad_zero_nonempty width x : pad_zero width (show_u64 x) <> [].
Proof. unfold pad_zero. intros H%app_eq_nil. destruct H as [_ H]. by apply show_u64_nonempty in H. Qed.
