(* ===== verification/MonoMap.v ===== *)
(** * PersistentMonoMap (src/Cluster/LocalLog/Indexes/PersistentMonoMap.cpp)

    The log based map behind the epoch, sequence and timestamp indexes: its state,
    and one definition per member function.  The functions that exist once by key
    and once by value are instances of one definition with the projection they
    search by. *)

From Stdlib Require Import Ascii String.
From S2P Require Import Prelude Ordered Os AppendOnlyFile Codec KeyValues Names.

Local Open Scope prog_scope.
Local Open Scope Z_scope.

Module ErrorCodes.
Definition LOGICAL_ERROR : Z := 49.
Definition CANNOT_WRITE_TO_FILE_DESCRIPTOR : Z := 75.
Definition INCORRECT_FILE_NAME : Z := 79.
Definition DIRECTORY_DOESNT_EXIST : Z := 83.
Definition CANNOT_TRUNCATE_FILE : Z := 88.
Definition FILE_DOESNT_EXIST : Z := 107.
Definition ATOMIC_RENAME_FAIL : Z := 521.
Definition CANNOT_FSTAT : Z := 531.
Definition FILE_CORRUPTION : Z := 2503.
Definition CANNOT_READ_FILE : Z := 2508.
Definition CANNOT_FLUSH_FILE : Z := 2511.
Definition CANNOT_DELETE_FILE : Z := 2617.
End ErrorCodes.

(** [segmentLogPath]: the path of a rolled segment, [<log file>.<id>]. *)
Definition segmentLogPath (segment_path : string) (segment_id : Z) : string :=
  segment_path +:+ String "." (string_of_list_ascii (show_u64 segment_id)).

Record KeyValueWithLogOffset (KV : Type) : Type := KVO { entry : KV; offset : nat }.
Arguments KVO {KV} entry offset.
Arguments entry {KV} k.
Arguments offset {KV} k.

(** Which deque an [EntryContainer *] points to. *)
Inductive container : Type :=
  | current_cache
  | rolled_cache (segment_id : Z).

#[export] Instance container_eq_dec : EqDecision container.
Proof. solve_decision. Defined.

Record FoundKeyValue (KV : Type) : Type := Found {
  entry_offset : KeyValueWithLogOffset KV;
  segment_id : Z;
  cache_to_truncate : container;
  truncation_point : nat;
}.
Arguments Found {KV}.
Arguments entry_offset {KV}.
Arguments segment_id {KV}.
Arguments cache_to_truncate {KV}.
Arguments truncation_point {KV}.

Record PersistentMonoMap (KV : Type) : Type := MonoMap {
  max_size : nat;
  seg_id_to_entry_offset_map : list (Z * list (KeyValueWithLogOffset KV));
  log_file : AppendOnlyFile;
  log_size : nat;
  current_log_seg_loaded : bool;
  cache : list (KeyValueWithLogOffset KV);
}.
Arguments MonoMap {KV}.
Arguments max_size {KV}.
Arguments seg_id_to_entry_offset_map {KV}.
Arguments log_file {KV}.
Arguments log_size {KV}.
Arguments current_log_seg_loaded {KV}.
Arguments cache {KV}.

(** The map and the disk below it. *)
Record mono_state (KV : Type) : Type := MonoState {
  ms_world : world;
  ms_map : PersistentMonoMap KV;
}.
Arguments MonoState {KV}.
Arguments ms_world {KV}.
Arguments ms_map {KV}.

(** At most this many entries are read at a time. *)
Definition max_read_entries : nat := N.to_nat 65536.
Arguments max_read_entries : simpl never.

Module Mono.
Section Map.
Context {KV : Type} `{MonoKeyValue KV}.

(** The directory of the log file: whether it exists and is a directory, and the
    regular files a directory iterator lists in it, in its order. *)
Context (dir_exists is_directory : bool) (listing : gmap string (list Z) -> list string).

Implicit Types (m : PersistentMonoMap KV) (c : list (KeyValueWithLogOffset KV)).

Definition disk {A} (k : M world A) : M (mono_state KV) A :=
  zoom ms_world (fun w s => MonoState w (ms_map s)) k.
Definition get {A} (f : PersistentMonoMap KV -> A) : M (mono_state KV) A :=
  gets (fun s => f (ms_map s)).
Definition put (f : PersistentMonoMap KV -> PersistentMonoMap KV) : M (mono_state KV) unit :=
  modify (fun s => MonoState (ms_world s) (f (ms_map s))).

Definition set_segments x m :=
  MonoMap (max_size m) x (log_file m) (log_size m) (current_log_seg_loaded m) (cache m).
Definition set_log_file x m :=
  MonoMap (max_size m) (seg_id_to_entry_offset_map m) x (log_size m) (current_log_seg_loaded m) (cache m).
Definition set_log_size x m :=
  MonoMap (max_size m) (seg_id_to_entry_offset_map m) (log_file m) x (current_log_seg_loaded m) (cache m).
Definition set_loaded x m :=
  MonoMap (max_size m) (seg_id_to_entry_offset_map m) (log_file m) (log_size m) x (cache m).
Definition set_cache x m :=
  MonoMap (max_size m) (seg_id_to_entry_offset_map m) (log_file m) (log_size m) (current_log_seg_loaded m) x.

(** The constructor; the log file is created when it is missing. *)
Definition create (filename : string) (file_max_size : nat) : M world (PersistentMonoMap KV) :=
  f <- File.open_or_create filename;;
  ret (MonoMap file_max_size [] f 0 false []).

Definition nextSegmentID m : Z :=
  match last (seg_id_to_entry_offset_map m) with
  | None => 1
  | Some (id, _) => to_u64 (id + 1)
  end.

(** ** Loading *)

(** The entries of one read buffer: parsed and appended to the container until
    one is below the last of the container; the file is cut there and the flag
    [early_exit] returned with the next file offset. *)
Fixpoint parse_entries (num_entries_read : nat) (log_segment : AppendOnlyFile) (rb : list Z)
    (file_offset : nat) : M (world * list (KeyValueWithLogOffset KV)) (nat * bool) :=
  match num_entries_read with
  | O => ret (file_offset, false)
  | S n =>
      match kv_deserialize rb with
      | (Ok e, rb') =>
          entry_cache <- gets snd;;
          match last entry_cache with
          | Some back =>
              if kv_ltb e (entry back) then
                attempt (zoom fst (fun w s => (w, s.2)) (File.truncate log_segment file_offset)) >>
                ret (file_offset, true)
              else
                modify (fun s => (s.1, s.2 ++ [KVO e file_offset])) >>
                parse_entries n log_segment rb' (file_offset + exactSerializedSize (KV := KV))
          | None =>
              modify (fun s => (s.1, s.2 ++ [KVO e file_offset])) >>
              parse_entries n log_segment rb' (file_offset + exactSerializedSize (KV := KV))
          end
      | (Err code, _) => fail code
      | (Exn code, _) => throw code
      | (Undef, _) => undef
      end
  end.

Fixpoint load_loop (fuel : nat) (log_segment : AppendOnlyFile) (bytes buf_size : nat)
    (read_offset file_offset : nat) (early_exit : bool)
  : M (world * list (KeyValueWithLogOffset KV)) unit :=
  if (bytes <=? read_offset)%nat || early_exit then ret tt
  else
    match fuel with
    | O => undef
    | S fuel =>
        r <- map_err (fun _ => ErrorCodes.CANNOT_READ_FILE)
               (zoom fst (fun w s => (w, s.2)) (File.read log_segment buf_size read_offset));;
        fe <- parse_entries (length r / exactSerializedSize (KV := KV)) log_segment r file_offset;;
        load_loop fuel log_segment bytes buf_size (read_offset + length r) fe.1 fe.2
    end.

(** [loadLogSegment]: fills the container passed by reference, returns the bytes of
    the whole entries.  A turn of the loop reads at least one entry. *)
Definition loadLogSegment (log_segment : AppendOnlyFile)
  : M (world * list (KeyValueWithLogOffset KV)) nat :=
  let on_world {A} (k : M world A) := zoom fst (fun w s => (w, s.2)) k in
  let entry_size := exactSerializedSize (KV := KV) in
  bytes <- map_err (fun _ => ErrorCodes.CANNOT_FSTAT) (on_world (File.size log_segment));;
  let num_entries := (bytes / entry_size)%nat in
  (if decide ((bytes mod entry_size)%nat = 0%nat) then ret tt
   else if read_only log_segment then ret tt
   else map_err (fun _ => ErrorCodes.CANNOT_TRUNCATE_FILE)
          (on_world (File.truncate log_segment (num_entries * entry_size)))) >>
  let bytes := (num_entries * entry_size)%nat in
  load_loop (S num_entries) log_segment bytes (entry_size * (num_entries `min` max_read_entries))
    0 0 false >>
  ret bytes.

(** The container of a rolled segment, as [riter->second]. *)
Definition rolled (id : Z) : M (mono_state KV) (list (KeyValueWithLogOffset KV)) :=
  segs <- get seg_id_to_entry_offset_map;;
  defined (om_find id segs).

Definition loadRolledLogSegmentFully (id : Z) : M (mono_state KV) unit :=
  entry_cache <- rolled id;;
  if (1 <? length entry_cache)%nat then ret tt
  else
    f <- get log_file;;
    segment_file <- disk (File.open_as (segmentLogPath (filename f) id) true true);;
    rolled_cache <- zoom (fun s => (ms_world s, [])) (fun sc s => MonoState sc.1 (ms_map s))
                      (loadLogSegment segment_file >> gets snd);;
    put (fun m => set_segments (om_insert id rolled_cache (seg_id_to_entry_offset_map m)) m).

(** [loadRolledLogSegment]: the id from the file name, and the first entry. *)
Definition loadRolledLogSegment (segment_filename : string) : M (mono_state KV) unit :=
  f <- get log_file;;
  let suffix := drop (String.length (filename f) + 1) (list_ascii_of_string segment_filename) in
  match from_chars_u64 suffix with
  | None => fail ErrorCodes.INCORRECT_FILE_NAME
  | Some id =>
      if id =? 0 then fail ErrorCodes.INCORRECT_FILE_NAME
      else
        segment_file <- disk (File.open_as segment_filename true true);;
        sz <- disk (map_err (fun _ => ErrorCodes.CANNOT_FSTAT) (File.size segment_file));;
        if (sz <? exactSerializedSize (KV := KV))%nat then fail ErrorCodes.FILE_CORRUPTION
        else
          r <- disk (map_err (fun _ => ErrorCodes.CANNOT_READ_FILE)
                       (File.read segment_file (exactSerializedSize (KV := KV)) 0));;
          match kv_deserialize (r ++ replicate (exactSerializedSize (KV := KV) - length r) 0) with
          | (Ok e, _) =>
              put (fun m => set_segments
                     (om_emplace id [KVO e 0] (seg_id_to_entry_offset_map m)) m)
          | (Err code, _) => fail code
          | (Exn code, _) => throw code
          | (Undef, _) => undef
          end
  end.

Fixpoint recover_files (files : list string) : M (mono_state KV) unit :=
  match files with
  | [] => ret tt
  | current_file :: files =>
      f <- get log_file;;
      if String.prefix (filename f) current_file then
        (if bool_decide (current_file = filename f) then
           bytes <- zoom (fun s => (ms_world s, cache (ms_map s)))
                      (fun sc s => MonoState sc.1 (set_cache sc.2 (ms_map s))) (loadLogSegment f);;
           put (fun m => set_loaded true (set_log_size bytes m))
         else loadRolledLogSegment current_file) >>
        recover_files files
      else recover_files files
  end.

(** The first entries of the rolled segments are strictly increasing. *)
Fixpoint validate (segs : list (Z * list (KeyValueWithLogOffset KV))) : M (mono_state KV) unit :=
  match segs with
  | (_, c1) :: ((_, c2) :: _) as rest =>
      a <- defined (head c1);;
      b <- defined (head c2);;
      if negb (kv_ltb (entry a) (entry b)) then fail ErrorCodes.LOGICAL_ERROR
      else validate rest
  | _ => ret tt
  end.

Definition recover : M (mono_state KV) unit :=
  if negb dir_exists then fail ErrorCodes.DIRECTORY_DOESNT_EXIST
  else if negb is_directory then fail ErrorCodes.FILE_DOESNT_EXIST
  else
    files <- gets (fun s => listing (w_files (ms_world s)));;
    recover_files files >>
    segs <- get seg_id_to_entry_offset_map;;
    validate segs.

(** [if (!current_log_seg_loaded) if (auto err = recover(); err != OK) return err;] *)
Definition ensure_loaded : M (mono_state KV) unit :=
  loaded <- get current_log_seg_loaded;;
  if (loaded : bool) then ret tt else recover.

(** ** Inserting *)

Definition roll (sync : bool) : M (mono_state KV) unit :=
  f <- get log_file;;
  seg_id <- get nextSegmentID;;
  renamed <- disk (map_err (fun _ => ErrorCodes.ATOMIC_RENAME_FAIL)
                     (File.renameTo f (segmentLogPath (filename f) seg_id)));;
  put (set_log_file renamed) >>
  (if sync then disk (map_err (fun _ => ErrorCodes.CANNOT_FLUSH_FILE) (File.sync renamed))
   else ret tt) >>
  put (fun m => set_log_size 0 (set_cache []
         (set_segments (om_emplace seg_id (cache m) (seg_id_to_entry_offset_map m)) m))) >>
  f' <- disk (File.open_or_create (filename f));;
  put (set_log_file f').

(** The end of [maybeIndex]: append to the log file, sync it, add to the cache. *)
Definition append_entry (e : KV) (sync : bool) : M (mono_state KV) bool :=
  f <- get log_file;;
  let data := kv_serialize e in
  r <- disk (File.append f data);;
  if bool_decide (r.2 = 0) then
    sz <- get log_size;;
    (if sync then disk (map_err (fun _ => ErrorCodes.CANNOT_FLUSH_FILE) (File.syncTail f sz))
     else ret tt) >>
    put (fun m => set_log_size (sz + length data) (set_cache (cache m ++ [KVO e sz]) m)) >>
    ret true
  else fail ErrorCodes.CANNOT_WRITE_TO_FILE_DESCRIPTOR.

Definition maybeIndex (e : KV) (sync : bool) : M (mono_state KV) bool :=
  ensure_loaded >>
  c <- get cache;;
  if match last c with Some b => kv_ltb e (entry b) | None => false end then ret false
  else if negb (match last c with Some b => key (entry b) <? key e | None => true end)
  then ret false
  else
    sz <- get log_size;;
    mx <- get max_size;;
    (if (mx <=? sz)%nat then roll sync else ret tt) >>
    append_entry e sync.

(** ** Searching *)

Section By.
(** [entry.key()] or [entry.value()] *)
Context (sel : KV -> Z).

Definition lower_bound_in (k : Z) c : nat := std_lower_bound (fun x => sel (entry x) <? k) c.

(** The loop over the rolled segments, largest id first; [bigger] is the segment
    visited before.  [None] when the loop ends without a result. *)
Fixpoint find_ge_rolled (k : Z) (rsegs : list (Z * list (KeyValueWithLogOffset KV)))
    (bigger : option (Z * list (KeyValueWithLogOffset KV)))
  : M (mono_state KV) (option (FoundKeyValue KV)) :=
  match rsegs with
  | [] => ret None
  | (id, c) :: rest =>
      first_entry <- defined (head c);;
      if sel (entry first_entry) =? k then ret (Some (Found first_entry id (rolled_cache id) 0))
      else if sel (entry first_entry) <? k then
        loadRolledLogSegmentFully id >>
        entry_cache <- rolled id;;
        let i := lower_bound_in k entry_cache in
        match entry_cache !! i with
        | Some x => ret (Some (Found x id (rolled_cache id) i))
        | None =>
            match bigger with
            | Some (id', c') =>
                x <- defined (head c');;
                ret (Some (Found x id' (rolled_cache id') 0))
            | None =>
                c' <- get cache;;
                x <- defined (head c');;
                ret (Some (Found x 0 current_cache 0))
            end
        end
      else find_ge_rolled k rest (Some (id, c))
  end.

Definition find_ge (k : Z) : M (mono_state KV) (option (FoundKeyValue KV)) :=
  c <- get cache;;
  if match last c with Some b => sel (entry b) <? k | None => false end then ret None
  else if match head c with Some a => sel (entry a) <=? k | None => false end then
    let i := lower_bound_in k c in
    x <- defined (c !! i);;
    ret (Some (Found x 0 current_cache i))
  else
    segs <- get seg_id_to_entry_offset_map;;
    r <- find_ge_rolled k (reverse segs) None;;
    match r with
    | Some x => ret (Some x)
    | None =>
        segs <- get seg_id_to_entry_offset_map;;
        match segs with
        | (id, c1) :: _ =>
            x <- defined (head c1);;
            ret (Some (Found x id (rolled_cache id) 0))
        | [] =>
            match head c with
            | Some x => ret (Some (Found x 0 current_cache 0))
            | None => ret None
            end
        end
    end.

Definition bin_search (entry_cache : list (KeyValueWithLogOffset KV)) (k : Z) (id : Z)
    (where_ : container) : M (mono_state KV) (option (FoundKeyValue KV)) :=
  let i := lower_bound_in k entry_cache in
  match entry_cache !! i with
  | None =>
      x <- defined (last entry_cache);;
      ret (Some (Found x id where_ (length entry_cache)))
  | Some x =>
      if sel (entry x) =? k then ret (Some (Found x id where_ i))
      else
        match i with
        | O => undef
        | S j =>
            x <- defined (entry_cache !! j);;
            ret (Some (Found x id where_ i))
        end
  end.

Fixpoint find_le_rolled (k : Z) (rsegs : list (Z * list (KeyValueWithLogOffset KV)))
  : M (mono_state KV) (option (FoundKeyValue KV)) :=
  match rsegs with
  | [] => ret None
  | (id, c) :: rest =>
      first_entry <- defined (head c);;
      if sel (entry first_entry) =? k then ret (Some (Found first_entry id (rolled_cache id) 0))
      else if sel (entry first_entry) <? k then
        loadRolledLogSegmentFully id >>
        entry_cache <- rolled id;;
        bin_search entry_cache k id (rolled_cache id)
      else find_le_rolled k rest
  end.

Definition find_le (k : Z) : M (mono_state KV) (option (FoundKeyValue KV)) :=
  c <- get cache;;
  if match head c with Some a => sel (entry a) <=? k | None => false end
  then bin_search c k 0 current_cache
  else
    segs <- get seg_id_to_entry_offset_map;;
    find_le_rolled k (reverse segs).
End By.

Definition findFirstEntryByKey_EqualToOrGreaterThan := find_ge key.
Definition findFirstEntryByValue_EqualToOrGreaterThan := find_ge value.
Definition findFirstEntryByKey_LessThanOrEqualTo := find_le key.
Definition findFirstEntryByValue_LessThanOrEqualTo := find_le value.

Definition found_entry (r : option (FoundKeyValue KV)) : option KV :=
  (fun x => entry (entry_offset x)) <$> r.

Definition lowerBound (k : Z) : M (mono_state KV) (option KV) :=
  ensure_loaded >> r <- findFirstEntryByKey_EqualToOrGreaterThan k;; ret (found_entry r).
Definition lowerBoundByValue (v : Z) : M (mono_state KV) (option KV) :=
  ensure_loaded >> r <- findFirstEntryByValue_EqualToOrGreaterThan v;; ret (found_entry r).
Definition leftLowerBound (k : Z) : M (mono_state KV) (option KV) :=
  ensure_loaded >> r <- findFirstEntryByKey_LessThanOrEqualTo k;; ret (found_entry r).
Definition leftLowerBoundByValue (v : Z) : M (mono_state KV) (option KV) :=
  ensure_loaded >> r <- findFirstEntryByValue_LessThanOrEqualTo v;; ret (found_entry r).

Definition last_entry : M (mono_state KV) (option KV) :=
  ensure_loaded >>
  c <- get cache;;
  match last c with
  | Some b => ret (Some (entry b))
  | None =>
      segs <- get seg_id_to_entry_offset_map;;
      match last segs with
      | Some (id, _) =>
          loadRolledLogSegmentFully id >>
          entry_cache <- rolled id;;
          b <- defined (last entry_cache);;
          ret (Some (entry b))
      | None => ret None
      end
  end.

Definition prevLast : M (mono_state KV) (option KV) :=
  ensure_loaded >>
  c <- get cache;;
  if (2 <=? length c)%nat then
    b <- defined (reverse c !! 1%nat);;
    ret (Some (entry b))
  else
    segs <- get seg_id_to_entry_offset_map;;
    match last segs with
    | Some (id, _) =>
        loadRolledLogSegmentFully id >>
        rcache <- rolled id;;
        b <- defined (reverse rcache !! (if (length c =? 1)%nat then 0%nat else 1%nat));;
        ret (Some (entry b))
    | None => ret None
    end.

Definition lastKey : M (mono_state KV) (option Z) :=
  r <- last_entry;; ret (key <$> r).
Definition prevLastKey : M (mono_state KV) (option Z) :=
  r <- prevLast;; ret (key <$> r).

Definition first : M (mono_state KV) (option KV) :=
  ensure_loaded >>
  segs <- get seg_id_to_entry_offset_map;;
  match segs with
  | (_, c) :: _ => a <- defined (head c);; ret (Some (entry a))
  | [] => c <- get cache;; ret (entry <$> head c)
  end.

(** ** Removing *)

(** The files of [segs], until one cannot be removed: how many segments went, and
    the error. *)
Fixpoint remove_files (log_name : string) (segs : list (Z * list (KeyValueWithLogOffset KV)))
    (n : nat) : M world (nat * option Z) :=
  match segs with
  | [] => ret (n, None)
  | (id, _) :: segs =>
      let segfile := segmentLogPath log_name id in
      ex <- attempt (sys_exists segfile);;
      match ex with
      | inr _ => ret (n, Some ErrorCodes.CANNOT_DELETE_FILE)
      | inl false => remove_files log_name segs (S n)
      | inl true =>
          r <- attempt (sys_remove segfile);;
          match r with
          | inr _ => ret (n, Some ErrorCodes.CANNOT_DELETE_FILE)
          | inl _ => remove_files log_name segs (S n)
          end
      end
  end.

(** [removeRange(iter_start, iter_end)], positions for the iterators; what has been
    removed leaves the map also on an error ([SCOPE_EXIT]). *)
Definition removeRange (iter_start iter_end : nat) : M (mono_state KV) unit :=
  segs <- get seg_id_to_entry_offset_map;;
  f <- get log_file;;
  r <- disk (remove_files (filename f) (take (iter_end - iter_start) (drop iter_start segs)) 0);;
  put (set_segments (take iter_start segs ++ drop (iter_start + r.1) segs)) >>
  match r.2 with
  | Some e => fail e
  | None => ret tt
  end.

Definition remove_from (id : option Z) : M (mono_state KV) unit :=
  ensure_loaded >>
  segs <- get seg_id_to_entry_offset_map;;
  removeRange (match id with Some id => om_lower_bound id segs | None => 0%nat end)
    (length segs) >>
  f <- get log_file;;
  put (set_log_file (File.close f)) >>
  disk (map_err (fun _ => ErrorCodes.CANNOT_DELETE_FILE) (sys_remove (filename f))) >>
  segs <- get seg_id_to_entry_offset_map;;
  match last segs with
  | Some (last_id, last_cache) =>
      segment_file <- disk (File.open_as (segmentLogPath (filename f) last_id) true false);;
      segment_file <- disk (map_err (fun _ => ErrorCodes.ATOMIC_RENAME_FAIL)
                              (File.renameTo segment_file (filename f)));;
      put (fun m => set_segments (om_erase last_id segs)
                      (set_cache last_cache (set_log_file segment_file m)))
  | None =>
      put (set_loaded false) >>
      f' <- disk (File.open_or_create (filename f));;
      put (fun m => set_cache [] (set_log_size 0 (set_log_file f' m)))
  end.

Definition remove : M (mono_state KV) unit := remove_from None.

Definition close : M (mono_state KV) unit :=
  put (fun m => set_log_file (File.close (log_file m)) m).

(** ** Trimming *)

Definition trim_log (segment_file : AppendOnlyFile) (segment_file_size : nat)
    (kvo : KeyValueWithLogOffset KV) : M (mono_state KV) unit :=
  if (offset kvo =? segment_file_size)%nat then ret tt
  else disk (map_err (fun _ => ErrorCodes.CANNOT_TRUNCATE_FILE)
               (File.truncate segment_file (offset kvo))).

(** [trim] and [trimByValue] once the first entry to go is found. *)
Definition trim_found (found : FoundKeyValue KV) : M (mono_state KV) unit :=
  let kvo := entry_offset found in
  if segment_id found =? 0 then
    f <- get log_file;;
    sz <- get log_size;;
    trim_log f sz kvo >>
    if bool_decide (cache_to_truncate found <> current_cache) then fail ErrorCodes.LOGICAL_ERROR
    else put (fun m => set_log_size (offset kvo)
                         (set_cache (take (truncation_point found) (cache m)) m))
  else
    c <- rolled (segment_id found);;
    f <- get log_file;;
    segment_file <- disk (File.open_as (segmentLogPath (filename f) (segment_id found)) true false);;
    file_size <- disk (map_err (fun _ => ErrorCodes.CANNOT_FSTAT) (File.size segment_file));;
    trim_log segment_file file_size kvo >>
    if bool_decide (cache_to_truncate found <> rolled_cache (segment_id found))
    then fail ErrorCodes.LOGICAL_ERROR
    else
      put (fun m => set_segments (om_insert (segment_id found) (take (truncation_point found) c)
                                    (seg_id_to_entry_offset_map m)) m) >>
      segs <- get seg_id_to_entry_offset_map;;
      match segs !! S (om_lower_bound (segment_id found) segs) with
      | Some (next_id, _) => remove_from (Some next_id)
      | None => remove_from (Some (to_u64 (segment_id found + 1)))
      end.

Definition trim_at (find : M (mono_state KV) (option (FoundKeyValue KV)))
  : M (mono_state KV) unit :=
  ensure_loaded >>
  res <- find;;
  match res with
  | None => ret tt
  | Some found => trim_found found
  end.

Definition trim (start_key : Z) : M (mono_state KV) unit :=
  trim_at (findFirstEntryByKey_EqualToOrGreaterThan start_key).
Definition trimByValue (start_value : Z) : M (mono_state KV) unit :=
  trim_at (findFirstEntryByValue_EqualToOrGreaterThan start_value).

Section TrimHead.
Context (sel : KV -> Z) (succ : Z -> option Z).

(** Position of the first segment whose first entry is not below the target. *)
Fixpoint first_segment_ge (target : Z) (segs : list (Z * list (KeyValueWithLogOffset KV)))
  : M (mono_state KV) nat :=
  match segs with
  | [] => ret 0%nat
  | (_, c) :: rest =>
      a <- defined (head c);;
      if target <=? sel (entry a) then ret 0%nat
      else n <- first_segment_ge target rest;; ret (S n)
  end.

Definition trim_head_rolled (target : Z) : M (mono_state KV) unit :=
  segs <- get seg_id_to_entry_offset_map;;
  iter <- first_segment_ge target segs;;
  match iter with
  | O => ret tt
  | S prev =>
      check_prev <-
        match segs !! iter with
        | None => ret true
        | Some (_, c) =>
            a <- defined (head c);;
            t1 <- defined (succ target);;
            ret (t1 <? sel (entry a))
        end;;
      if (check_prev : bool) then
        p <- defined (segs !! prev);;
        loadRolledLogSegmentFully p.1 >>
        entry_cache <- rolled p.1;;
        b <- defined (last entry_cache);;
        if target <? sel (entry b) then
          match prev with
          | O => ret tt
          | _ => removeRange 0 prev
          end
        else removeRange 0 iter
      else removeRange 0 iter
  end.

Definition trim_head (target : Z) : M (mono_state KV) unit :=
  ensure_loaded >>
  c <- get cache;;
  all <- match head c with
         | Some a => t1 <- defined (succ target);; ret (sel (entry a) <=? t1)
         | None => ret false
         end;;
  if (all : bool) then
    segs <- get seg_id_to_entry_offset_map;;
    match segs with
    | [] => ret tt
    | _ => removeRange 0 (length segs)
    end
  else trim_head_rolled target.
End TrimHead.

Definition trimHead : Z -> M (mono_state KV) unit := trim_head key (key_succ (KV := KV)).
Definition trimHeadByValue : Z -> M (mono_state KV) unit := trim_head value (value_succ (KV := KV)).
End Map.
End Mono.
