(* ===== verification/MonoMapFrame.v ===== *)
(** * The files an index touches

    Every operation of a [PersistentMonoMap] leaves the files alone whose names do not
    start with the name of its log, and never changes the size at which it rolls,
    whatever the kernel answers and whatever is on the disk. *)

From Stdlib Require Import String.
From S2P Require Import Prelude Ordered Os AppendOnlyFile Frame KeyValues Names MonoMap.

Local Open Scope prog_scope.

(** ** Names *)

Lemma prefix_extend a b c : String.prefix a b = true -> String.prefix a (b +:+ c) = true.
Proof.
  revert b. induction a as [|x a IH]; intros b Hp; [by destruct (b +:+ c)|].
  destruct b as [|y b]; [done|]. change (String y b +:+ c) with (String y (b +:+ c)).
  cbn [String.prefix] in *. destruct (Ascii.ascii_dec x y); [by apply IH|done].
Qed.

Lemma prefix_trans a b c : String.prefix a b = true -> String.prefix b c = true -> String.prefix a c = true.
Proof.
  revert b c. induction a as [|x a IH]; intros b c Hab Hbc; [by destruct c|].
  destruct b as [|y b]; [done|]. destruct c as [|z c]; [done|]. cbn [String.prefix] in *.
  destruct (Ascii.ascii_dec x y) as [->|]; [|done]. destruct (Ascii.ascii_dec y z); [|done]. by eapply IH.
Qed.

Section Frame.
Context {KV : Type} `{HKV : !MonoKeyValue KV}.
Context (name : string) (fs0 : gmap string (list Z)) (mx : nat).

Definition belongs (f : string) : Prop := String.prefix name f = true.

Lemma belongs_segment f id : belongs f -> belongs (segmentLogPath f id).
Proof. apply prefix_extend. Qed.

(** The files outside are as they were, and the map writes to its own. *)
Record kept (s : mono_state KV) : Prop := {
  kept_outside : outside belongs fs0 (ms_world s);
  kept_name : belongs (filename (log_file (ms_map s)));
  kept_max : max_size (ms_map s) = mx;
}.

Lemma keeps_log_file s : kept s -> keeps kept (Mono.get log_file) (fun f => belongs (filename f)) s.
Proof. intros Hk. by apply keeps_gets; [|apply Hk]. Qed.

Lemma keeps_put f s :
  kept s -> belongs (filename (log_file (f (ms_map s)))) -> max_size (f (ms_map s)) = max_size (ms_map s) ->
  keeps kept (Mono.put f) (fun _ => True) s.
Proof. intros [] Hn Hm. apply keeps_modify. split; cbn; [done|done|congruence]. Qed.

Lemma keeps_disk {A} (m : M world A) Q s :
  kept s -> (forall w, outside belongs fs0 w -> keeps (outside belongs fs0) m Q w) ->
  keeps kept (Mono.disk m) Q s.
Proof. intros [] Hm. eapply keeps_zoom; [by apply Hm|]. intros w Hw. by split. Qed.

#[local] Hint Resolve keeps_log_file belongs_segment keeps_put : frame.
#[local] Hint Resolve keeps_disk | 2 : frame.
#[local] Hint Extern 1 (_ = _) => reflexivity : frame.
#[local] Hint Extern 1 (belongs _) => eassumption : frame.

(** *** Loading *)

Section Load.
Context (f : AppendOnlyFile) (Hf : read_only f = true \/ belongs (filename f)).

Abbreviation quiet := (fun s : world * list (KeyValueWithLogOffset KV) => outside belongs fs0 s.1).

Lemma keeps_on_world {A} (m : M world A) Q s :
  quiet s -> (forall w, outside belongs fs0 w -> keeps (outside belongs fs0) m Q w) ->
  keeps quiet (zoom fst (fun w s => (w, s.2)) m) Q s.
Proof. intros Hs Hm. eapply keeps_zoom; [by apply Hm|]. done. Qed.

Lemma keeps_parse_entries n rb o s : quiet s -> keeps quiet (Mono.parse_entries n f rb o) (fun _ => True) s.
Proof.
  revert rb o s. induction n as [|n IH]; intros rb o s Hs; cbn [Mono.parse_entries]; [by apply keeps_ret|].
  destruct (kv_deserialize rb) as [[e|c|c|] rb']; [|by apply keeps_fail|by apply keeps_throw|by apply keeps_undef].
  assert (Hgo : forall s, quiet s -> keeps quiet
    (bind (modify (fun s => (s.1, s.2 ++ [KVO e o]))) (fun _ => Mono.parse_entries n f rb'
       (o + exactSerializedSize (KV := KV)))) (fun _ => True) s).
  { intros s1 H1. eapply keeps_bind; [by apply keeps_modify|]. intros _ s2 H2 _. by apply IH. }
  eapply keeps_bind; [by apply keeps_get_any|]. intros c s1 H1 _. destruct (last c) as [b|]; [|by apply Hgo].
  destruct (kv_ltb e (entry b)); [|by apply Hgo]. eapply keeps_bind.
  { apply keeps_attempt. eapply keeps_on_world; [done|]. intros. by apply keeps_truncate. }
  intros _ s2 H2 _. by apply keeps_ret.
Qed.

Lemma keeps_load_loop fuel bytes buf ro fo ex s :
  quiet s -> keeps quiet (Mono.load_loop fuel f bytes buf ro fo ex) (fun _ => True) s.
Proof.
  revert ro fo ex s. induction fuel as [|fuel IH]; intros ro fo ex s Hs; cbn [Mono.load_loop];
    destruct (_ || _); [by apply keeps_ret|by apply keeps_undef|by apply keeps_ret|].
  eapply keeps_bind.
  { apply keeps_map_err. eapply keeps_on_world; [done|]. intros. by apply keeps_read. }
  intros r s1 H1 _. eapply keeps_bind; [by apply keeps_parse_entries|]. intros fe s2 H2 _. by apply IH.
Qed.

Lemma keeps_loadLogSegment s : quiet s -> keeps quiet (Mono.loadLogSegment f) (fun _ => True) s.
Proof.
  intros Hs. unfold Mono.loadLogSegment. eapply keeps_bind.
  { apply keeps_map_err. eapply keeps_on_world; [done|]. intros. by apply keeps_size. }
  intros bytes s1 H1 _. eapply keeps_bind.
  { destruct (decide _); [by apply keeps_ret_any|]. destruct (read_only f) eqn:Hr; [by apply keeps_ret_any|].
    apply keeps_map_err. eapply keeps_on_world; [done|]. intros. apply keeps_truncate; [|done].
    right. by destruct Hf as [[=]|]. }
  intros _ s2 H2 _. eapply keeps_bind; [by apply keeps_load_loop|]. intros _ s3 H3 _. by apply keeps_ret.
Qed.
End Load.

(** *** The operations of the map *)

Context (dir_exists is_directory : bool) (listing : gmap string (list Z) -> list string).
Implicit Types (s : mono_state KV).

#[local] Hint Extern 1 (kept _) => eassumption : frame.
#[local] Hint Extern 2 (belongs _) =>
  cbn; repeat match goal with H : filename ?f = _ |- context [filename ?f] => rewrite H end;
  first [eassumption|by apply kept_name|by apply belongs_segment] : frame.

Lemma keeps_rolled id s : kept s -> keeps kept (Mono.rolled id) (fun _ => True) s.
Proof.
  intros Hk. unfold Mono.rolled. eapply keeps_bind; [by apply keeps_get_any|]. intros segs s1 H1 _.
  by destruct (om_find id segs).
Qed.
#[local] Hint Resolve keeps_rolled : frame.

Lemma keeps_loadFully id s : kept s -> keeps kept (Mono.loadRolledLogSegmentFully id) (fun _ => True) s.
Proof.
  intros Hk. unfold Mono.loadRolledLogSegmentFully. eapply keeps_bind; [by apply keeps_rolled|].
  intros c s1 H1 _. destruct (_ <? _)%nat; [by apply keeps_ret|].
  eapply keeps_bind; [by apply keeps_log_file|]. intros f s2 H2 Hf.
  eapply keeps_bind; [eapply keeps_disk; [done|]; intros w Hw; by apply keeps_open_existing|].
  intros f' s3 H3 [_ Hro]. eapply (keeps_bind _ _ _ (fun _ => True)); [|frame].
  eapply keeps_zoom with (J := fun s : world * list (KeyValueWithLogOffset KV) => outside belongs fs0 s.1).
  - eapply keeps_bind; [apply keeps_loadLogSegment; [by left|apply H3]|]. intros. by apply keeps_get_any.
  - intros [w c'] Hw. cbn in Hw. by destruct H3.
Qed.

Lemma keeps_loadRolled g s : kept s -> keeps kept (Mono.loadRolledLogSegment g) (fun _ => True) s.
Proof. intros Hk. unfold Mono.loadRolledLogSegment. frame. Qed.
#[local] Hint Resolve keeps_loadFully keeps_loadRolled : frame.

Lemma keeps_recover s : kept s -> keeps kept (Mono.recover dir_exists is_directory listing) (fun _ => True) s.
Proof.
  intros Hk. unfold Mono.recover. destruct dir_exists, is_directory; try by apply keeps_fail. cbn [negb].
  eapply keeps_bind; [by apply keeps_get_any|]. intros files s1 H1 _.
  eapply (keeps_bind _ _ _ (fun _ => True)).
  { revert s1 H1. induction files as [|g files IH]; intros s1 H1; cbn [Mono.recover_files]; [by apply keeps_ret|].
    eapply keeps_bind; [by apply keeps_log_file|]. intros f s2 H2 Hf.
    destruct (String.prefix _ _); [|by apply IH]. eapply (keeps_bind _ _ _ (fun _ => True)); [|intros; by apply IH].
    destruct (bool_decide _); [|by apply keeps_loadRolled]. eapply (keeps_bind _ _ _ (fun _ => True)).
    - eapply keeps_zoom; [apply keeps_loadLogSegment; [by right|apply H2]|].
      intros [w c] Hw. cbn in Hw. by destruct H2.
    - intros b s3 H3 _. apply keeps_put; [done|apply H3|done]. }
  intros _ s2 H2 _. eapply keeps_bind; [by apply keeps_get_any|]. intros segs s3 H3 _.
  clear Hk H1 H2. revert s3 H3. induction segs as [|[i c] segs IH]; intros s3 H3; [by apply keeps_ret|].
  cbn [Mono.validate]. destruct segs as [|[j c'] segs]; [by apply keeps_ret|].
  eapply keeps_bind; [by apply keeps_defined|]. intros a s4 H4 _.
  eapply keeps_bind; [by apply keeps_defined|]. intros b s5 H5 _.
  destruct (negb _); [by apply keeps_fail|by apply IH].
Qed.

Lemma keeps_ensure_loaded s :
  kept s -> keeps kept (Mono.ensure_loaded dir_exists is_directory listing) (fun _ => True) s.
Proof. intros Hk. pose proof keeps_recover. unfold Mono.ensure_loaded, Mono.get. frame. Qed.
#[local] Hint Resolve keeps_ensure_loaded : frame.

Lemma keeps_roll sync s : kept s -> keeps kept (Mono.roll sync) (fun _ => True) s.
Proof. intros Hk. unfold Mono.roll. frame. Qed.

Lemma keeps_append_entry e sync s : kept s -> keeps kept (Mono.append_entry e sync) (fun _ => True) s.
Proof. intros Hk. unfold Mono.append_entry. frame. Qed.
#[local] Hint Resolve keeps_roll keeps_append_entry : frame.

Lemma keeps_maybeIndex e sync s :
  kept s -> keeps kept (Mono.maybeIndex dir_exists is_directory listing e sync) (fun _ => True) s.
Proof. intros Hk. unfold Mono.maybeIndex, Mono.get. frame. Qed.

Section By.
Context (sel : KV -> Z).

Lemma keeps_find_ge k s : kept s -> keeps kept (Mono.find_ge sel k) (fun _ => True) s.
Proof.
  intros Hk. unfold Mono.find_ge, Mono.get.
  assert (Hloop : forall rsegs bigger s, kept s -> keeps kept (Mono.find_ge_rolled sel k rsegs bigger) (fun _ => True) s).
  { intros rsegs. induction rsegs as [|[id c] rsegs IH]; intros bigger s1 H1; cbn [Mono.find_ge_rolled]; frame. }
  frame.
Qed.

Lemma keeps_find_le k s : kept s -> keeps kept (Mono.find_le sel k) (fun _ => True) s.
Proof.
  intros Hk. unfold Mono.find_le, Mono.get.
  assert (Hbin : forall c k id x s, kept s -> keeps kept (Mono.bin_search sel c k id x) (fun _ => True) s).
  { intros c k' id x s1 H1. unfold Mono.bin_search. frame. }
  assert (Hloop : forall rsegs s, kept s -> keeps kept (Mono.find_le_rolled sel k rsegs) (fun _ => True) s).
  { intros rsegs. induction rsegs as [|[id c] rsegs IH]; intros s1 H1; cbn [Mono.find_le_rolled]; frame. }
  frame.
Qed.
End By.
#[local] Hint Resolve keeps_find_ge keeps_find_le : frame.

(** *** Removing *)

Lemma keeps_remove_files f segs n w :
  outside belongs fs0 w -> belongs f ->
  keeps (outside belongs fs0) (Mono.remove_files (KV := KV) f segs n) (fun _ => True) w.
Proof.
  intros Hw Hf. revert n w Hw. induction segs as [|[id c] segs IH]; intros n w Hw; cbn [Mono.remove_files]; frame.
Qed.
#[local] Hint Resolve keeps_remove_files : frame.

Lemma keeps_removeRange i j s : kept s -> keeps kept (Mono.removeRange (KV := KV) i j) (fun _ => True) s.
Proof. intros Hk. unfold Mono.removeRange. frame. Qed.
#[local] Hint Resolve keeps_removeRange : frame.

Lemma keeps_remove_from id s :
  kept s -> keeps kept (Mono.remove_from dir_exists is_directory listing id) (fun _ => True) s.
Proof. intros Hk. unfold Mono.remove_from. frame. Qed.
#[local] Hint Resolve keeps_remove_from : frame.

Lemma keeps_trim_at find s :
  (forall s, kept s -> keeps kept find (fun _ => True) s) ->
  kept s -> keeps kept (Mono.trim_at dir_exists is_directory listing find) (fun _ => True) s.
Proof.
  intros Hfind Hk. unfold Mono.trim_at, Mono.trim_found, Mono.trim_log. frame.
Qed.

Lemma keeps_trim_head sel succ target s :
  kept s -> keeps kept (Mono.trim_head dir_exists is_directory listing sel succ target) (fun _ => True) s.
Proof.
  intros Hk. unfold Mono.trim_head, Mono.trim_head_rolled, Mono.get.
  assert (Hfirst : forall segs s, kept s -> keeps kept (Mono.first_segment_ge sel target segs) (fun _ => True) s).
  { intros segs. induction segs as [|[id c] segs IH]; intros s1 H1; cbn [Mono.first_segment_ge]; frame. }
  frame.
Qed.

Lemma keeps_lookups sel k s :
  kept s ->
  keeps kept (Mono.ensure_loaded dir_exists is_directory listing >>
              r <- Mono.find_ge sel k;; ret (Mono.found_entry r)) (fun _ => True) s /\
  keeps kept (Mono.ensure_loaded dir_exists is_directory listing >>
              r <- Mono.find_le sel k;; ret (Mono.found_entry r)) (fun _ => True) s.
Proof. intros Hk. split; frame. Qed.

Lemma keeps_ends s :
  kept s ->
  keeps kept (Mono.last_entry dir_exists is_directory listing) (fun _ => True) s /\
  keeps kept (Mono.prevLast dir_exists is_directory listing) (fun _ => True) s /\
  keeps kept (Mono.first dir_exists is_directory listing) (fun _ => True) s.
Proof. intros Hk. unfold Mono.last_entry, Mono.prevLast, Mono.first, Mono.get. split_and!; frame. Qed.
End Frame.

(** ** Property *)

(** [m] leaves the files alone whose names do not start with [name], when the log of
    the map is called [name]. *)
Definition touches_only {KV A} (name : string) (m : M (mono_state KV) A) : Prop :=
  forall s f, filename (log_file (ms_map s)) = name -> String.prefix name f = false ->
    w_files (ms_world (m s).2) !! f = w_files (ms_world s) !! f.

Lemma keeps_touches {KV A} name (m : M (mono_state KV) A) :
  (forall fs mx s, kept name fs mx s -> keeps (kept name fs mx) m (fun _ => True) s) -> touches_only name m.
Proof.
  intros Hm s f Hs Hf.
  assert (Hk : kept name (w_files (ms_world s)) (max_size (ms_map s)) s).
  { split; [done| |done]. unfold belongs. rewrite Hs. clear. induction name as [|c n IH]; cbn; [done|].
    by destruct (Ascii.ascii_dec c c). }
  apply Hm, keeps_end in Hk. apply Hk. unfold belongs. by rewrite Hf.
Qed.

(** C27. No operation of an index, in whatever state it is and whatever the kernel
    answers, creates, changes or removes a file whose name does not start with the
    name of the index: the indexes of a log leave each other and the segments alone,
    also when they load or repair what they find on the disk. *)
Theorem index_frame {KV} `{!MonoKeyValue KV} dir_exists is_directory listing name e k sync :
  let on {A} (f : bool -> bool -> (gmap string (list Z) -> list string) -> A) := f dir_exists is_directory listing in
  touches_only name (on Mono.maybeIndex e sync) /\
  touches_only name (on Mono.lowerBound k) /\ touches_only name (on Mono.lowerBoundByValue k) /\
  touches_only name (on Mono.leftLowerBound k) /\ touches_only name (on Mono.leftLowerBoundByValue k) /\
  touches_only name (on Mono.last_entry) /\ touches_only name (on Mono.prevLast) /\
  touches_only name (on Mono.first) /\
  touches_only name (on Mono.trim k) /\ touches_only name (on Mono.trimByValue k) /\
  touches_only name (on Mono.trimHead k) /\ touches_only name (on Mono.trimHeadByValue k) /\
  touches_only name (on Mono.remove).
Proof.
  intros on. split_and!; apply keeps_touches; intros fs mx s Hk.
  - by apply keeps_maybeIndex.
  - by apply (keeps_lookups name fs mx dir_exists is_directory listing key k s).
  - by apply (keeps_lookups name fs mx dir_exists is_directory listing value k s).
  - by apply (keeps_lookups name fs mx dir_exists is_directory listing key k s).
  - by apply (keeps_lookups name fs mx dir_exists is_directory listing value k s).
  - by apply keeps_ends.
  - by apply keeps_ends.
  - by apply keeps_ends.
  - apply keeps_trim_at; [|done]. intros. by apply keeps_find_ge.
  - apply keeps_trim_at; [|done]. intros. by apply keeps_find_ge.
  - by apply keeps_trim_head.
  - by apply keeps_trim_head.
  - by apply keeps_remove_from.
Qed.
