(* ===== verification/MonoMapLoad.v ===== *)
(** * Loading the segments of a PersistentMonoMap

    A segment file holds the fixed size encodings of its entries.  Loading such a
    file, also one with a torn entry at its end, gives back the entries with their
    offsets. *)

From S2P Require Import Prelude Ordered Os AppendOnlyFile Codec KeyValues Names MonoMap.

Local Open Scope Z_scope.

Section Load.
Context {KV : Type} `{HKV : !MonoKeyValue KV} `{!MonoKeyValueLaws KV}.
Implicit Types (e : KV) (es : list KV).

Abbreviation entry_size := (exactSerializedSize (KV := KV)).
Abbreviation state := (world * list (KeyValueWithLogOffset KV))%type.

(** The bytes of a segment file, and its container when fully loaded. *)
Definition encode (es : list KV) : list Z := concat (kv_serialize <$> es).
Fixpoint at_offsets (o : nat) (es : list KV) : list (KeyValueWithLogOffset KV) :=
  match es with
  | [] => []
  | e :: es => KVO e o :: at_offsets (o + entry_size) es
  end.
(** Keys strictly increase. *)
Definition increasing (es : list KV) : Prop := StronglySorted (fun a b => key a < key b) es.

Lemma at_offsets_app o es es' :
  at_offsets o (es ++ es') = at_offsets o es ++ at_offsets (o + length es * entry_size) es'.
Proof.
  revert o. induction es as [|e es IH]; intros o; cbn.
  - f_equal. lia.
  - f_equal. rewrite IH. do 2 f_equal. lia.
Qed.

Lemma at_offsets_app_0 es es' :
  at_offsets 0 (es ++ es') = at_offsets 0 es ++ at_offsets (length es * entry_size) es'.
Proof. by rewrite at_offsets_app. Qed.

Lemma lookup_at_offsets o es i :
  at_offsets o es !! i = (fun e => KVO e (o + i * entry_size)%nat) <$> es !! i.
Proof.
  revert o i. induction es as [|e es IH]; intros o [|i]; try done; cbn.
  - do 2 f_equal. lia.
  - rewrite IH. destruct (es !! i); cbn; [|done]. do 2 f_equal. lia.
Qed.

Lemma length_at_offsets o es : length (at_offsets o es) = length es.
Proof. revert o. induction es as [|e es IH]; intros o; cbn; [done|]. by rewrite IH. Qed.

Lemma entries_at_offsets o es : entry <$> at_offsets o es = es.
Proof. revert o. induction es as [|e es IH]; intros o; cbn; [done|]. by rewrite IH. Qed.

Lemma take_at_offsets n o es : take n (at_offsets o es) = at_offsets o (take n es).
Proof. revert n o. induction es as [|e es IH]; intros [|n] o; cbn; [done..|]. by rewrite IH. Qed.

Lemma head_at_offsets o es : head (at_offsets o es) = (fun e => KVO e o) <$> head es.
Proof. by destruct es. Qed.

Lemma last_at_offsets o es : entry <$> last (at_offsets o es) = last es.
Proof. by rewrite <- fmap_last, entries_at_offsets. Qed.

Lemma encode_app es es' : encode (es ++ es') = encode es ++ encode es'.
Proof. unfold encode. by rewrite fmap_app, concat_app. Qed.

Lemma encode_cons e es : encode (e :: es) = kv_serialize e ++ encode es.
Proof. done. Qed.

Lemma length_encode es : length (encode es) = (length es * entry_size)%nat.
Proof.
  induction es as [|e es IH]; [done|].
  rewrite encode_cons, length_app, IH, kv_serialize_length. cbn. lia.
Qed.

Lemma take_encode n es : take (n * entry_size) (encode es) = encode (take n es).
Proof.
  destruct (decide (n <= length es)%nat) as [Hle|Hgt].
  - rewrite <- (take_drop n es) at 1. rewrite encode_app, take_app_le.
    + rewrite take_ge; [done|]. rewrite length_encode, length_take. nia.
    + rewrite length_encode, length_take. nia.
  - rewrite !take_ge; [done|lia|]. rewrite length_encode. nia.
Qed.

Lemma drop_encode_app n es junk :
  (n <= length es)%nat ->
  drop (n * entry_size) (encode es ++ junk) = encode (drop n es) ++ junk.
Proof.
  intros Hle. rewrite <- (take_drop n es) at 1. rewrite encode_app, <- app_assoc.
  rewrite drop_app_ge by (rewrite length_encode, length_take; nia).
  by replace (n * entry_size - length (encode (take n es)))%nat with O
    by (rewrite length_encode, length_take; nia).
Qed.

(** What one read of [k] entries returns: whole entries, and at the end of the file
    the torn one. *)
Lemma read_buffer k es junk :
  (length junk < entry_size)%nat ->
  exists junk', take (entry_size * k) (encode es ++ junk) = encode (take k es) ++ junk' /\
    (length junk' < entry_size)%nat /\ (junk' = [] \/ (length es <= k)%nat).
Proof.
  intros Hj. rewrite (Nat.mul_comm entry_size k). destruct (decide (k <= length es)%nat).
  - exists []. rewrite take_app_le, take_encode, app_nil_r by (rewrite length_encode; nia).
    split_and!; [done|cbn; lia|by left].
  - exists (take (k * entry_size - length (encode es)) junk).
    rewrite take_app, (take_ge (encode es)) by (rewrite length_encode; nia).
    rewrite (take_ge es) by lia. split_and!; [done| |right; lia].
    rewrite length_take. lia.
Qed.

Lemma length_encode_div es junk :
  (length junk < entry_size)%nat -> (length (encode es ++ junk) / entry_size = length es)%nat.
Proof.
  intros Hj. rewrite length_app, length_encode, Nat.div_add_l by lia.
  rewrite (Nat.div_small (length junk)) by done. lia.
Qed.

Lemma increasing_app es es' : increasing (es ++ es') -> increasing es /\ increasing es'.
Proof. unfold increasing. intros H. by apply StronglySorted_app in H as (?&?&?). Qed.

Lemma kv_ltb_increasing es b e es' :
  last es = Some b -> increasing (es ++ e :: es') -> kv_ltb e b = false.
Proof.
  intros Hb Hs. apply not_true_is_false. rewrite kv_ltb_lex.
  apply last_Some in Hb as [l ->]. rewrite <- app_assoc in Hs.
  apply StronglySorted_app in Hs as (_ & _ & Hs). cbn in Hs.
  apply StronglySorted_cons in Hs as [Hs _]. apply Forall_cons in Hs as [Hs _]. lia.
Qed.

Lemma wp_parse_entries es f junk off w c (Q : nat * bool -> state -> Prop) E :
  Forall kv_valid es -> increasing ((entry <$> c) ++ es) ->
  Q ((off + length es * entry_size)%nat, false) (w, c ++ at_offsets off es) ->
  wp (Mono.parse_entries (length es) f (encode es ++ junk) off) Q E (w, c).
Proof.
  revert off c. induction es as [|e es IH]; intros off c Hv Hs HQ; cbn [length Mono.parse_entries].
  { rewrite Nat.add_0_r, app_nil_r in HQ. exact HQ. }
  apply Forall_cons in Hv as [He Hv].
  rewrite encode_cons, <- app_assoc, (kv_reads e He). apply wp_bind, wp_gets. cbn [snd].
  assert (Hgo : wp (bind (modify (fun s : state => (s.1, s.2 ++ [KVO e off])))
     (fun _ => Mono.parse_entries (length es) f (encode es ++ junk) (off + entry_size)))
     Q E (w, c)).
  { apply wp_bind, wp_modify, IH; [done| |].
    - by rewrite fmap_app, <- app_assoc.
    - cbn in HQ |- *. rewrite <- app_assoc, <- Nat.add_assoc. exact HQ. }
  destruct (last c) as [back|] eqn:Hl; [|exact Hgo].
  rewrite (kv_ltb_increasing (entry <$> c) (entry back) e es); [exact Hgo| |done].
  by rewrite fmap_last, Hl.
Qed.

Lemma wp_load_loop w0 fuel f es junk k d rest w (Q : unit -> state -> Prop)
    (E : fault -> state -> Prop) :
  readable f w (encode es ++ junk) -> (length junk < entry_size)%nat ->
  Forall kv_valid es -> increasing es -> es = d ++ rest -> evolves w0 w ->
  (length rest < fuel)%nat -> (0 < k)%nat ->
  (forall x w' c', evolves w0 w' -> w_files w' = w_files w -> ~ benign w0 -> E x (w', c')) ->
  left_with w0 (w_files w) (fun w' => Q tt (w', at_offsets 0 es)) ->
  wp (Mono.load_loop fuel f (length es * entry_size) (entry_size * k)
        (length d * entry_size) (length d * entry_size) false) Q E (w, at_offsets 0 d).
Proof.
  intros Hr Hj Hv Hs. pose proof kv_size_pos as Hpos. revert d rest w Hr.
  induction fuel as [|fuel IH]; intros d rest w Hr Hes Hev Hf Hk HE HQ; [lia|].
  cbn [Mono.load_loop]. rewrite orb_false_r. destruct (Nat.leb_spec (length es * entry_size) (length d * entry_size)).
  { assert (rest = []) as ->.
    { apply length_zero_iff_nil. rewrite Hes, length_app in H. nia. }
    rewrite app_nil_r in Hes. subst d. apply wp_ret, HQ; done. }
  apply wp_bind, wp_map_err, wp_zoom. cbn [fst snd].
  eapply (wp_read w0); [done|intros e w' ???; by apply HE|done|].
  intros w1 Hev1 Hfs1. rewrite drop_encode_app by (rewrite Hes, length_app; lia).
  assert (Hdr : drop (length d) es = rest) by (rewrite Hes; apply drop_app_length).
  rewrite Hdr.
  destruct (read_buffer k rest junk Hj) as (junk' & -> & Hj' & Hlast).
  apply wp_bind. rewrite length_encode_div by done.
  assert (Hd : increasing (d ++ take k rest)).
  { rewrite Hes, <- (take_drop k rest), app_assoc in Hs. by apply increasing_app in Hs as [? _]. }
  apply wp_parse_entries.
  { apply Forall_take. rewrite Hes in Hv. by apply Forall_app in Hv as [_ ?]. }
  { by rewrite entries_at_offsets. }
  cbn [fst snd]. rewrite <- at_offsets_app_0.
  replace (length d * entry_size + length (take k rest) * entry_size)%nat
    with (length (d ++ take k rest) * entry_size)%nat by (rewrite length_app; lia).
  destruct Hlast as [->|Hle].
  - rewrite app_nil_r, length_encode, <- Nat.mul_add_distr_r, <- length_app.
    apply (IH _ (drop k rest) w1).
    + destruct Hr. split; [done|]. by rewrite Hfs1.
    + by rewrite <- app_assoc, take_drop.
    + done.
    + destruct rest; [rewrite Hes, app_nil_r in H; lia|]. rewrite length_drop. cbn in *. lia.
    + done.
    + rewrite Hfs1. apply HE.
    + by rewrite Hfs1.
  - rewrite (take_ge rest) by lia. rewrite <- Hes.
    destruct fuel; cbn [Mono.load_loop]; rewrite (proj2 (Nat.leb_le _ _));
      try (apply wp_ret, HQ; done); rewrite length_app, length_encode, Hes, length_app; lia.
Qed.
(** Loading a segment file whose last entry may be torn. *)
Lemma wp_loadLogSegment w0 w f es junk (Q : nat -> state -> Prop) (E : fault -> state -> Prop) :
  evolves w0 w -> readable f w (encode es ++ junk) -> (length junk < entry_size)%nat ->
  Forall kv_valid es -> increasing es ->
  let fs' := if read_only f then w_files w else <[filename f := encode es]> (w_files w) in
  (forall x w' c', evolves w0 w' -> w_files w' = w_files w \/ w_files w' = fs' ->
     ~ benign w0 -> E x (w', c')) ->
  left_with w0 fs' (fun w' => Q (length es * entry_size)%nat (w', at_offsets 0 es)) ->
  wp (Mono.loadLogSegment f) Q E (w, []).
Proof.
  intros Hev Hr Hj Hv Hs fs' HE HQ. pose proof kv_size_pos as Hpos.
  unfold Mono.loadLogSegment. apply wp_bind, wp_map_err, wp_zoom. cbn [fst snd].
  eapply (wp_size w0); [done|intros e w' ???; apply HE; auto|done|]. intros w1 Hev1 Hfs1.
  rewrite length_encode_div by done.
  assert (Hloop : forall w2 junk2, evolves w0 w2 -> readable f w2 (encode es ++ junk2) ->
    (length junk2 < entry_size)%nat -> w_files w2 = fs' ->
    wp (bind (Mono.load_loop (S (length es)) f (length es * entry_size)
          (entry_size * (length es `min` max_read_entries)) 0 0 false)
          (fun _ => ret (length es * entry_size)%nat)) Q E (w2, [])).
  { intros w2 junk2 Hev2 Hr2 Hj2 Hfs2. apply wp_bind. destruct es as [|e es].
    - apply wp_ret, HQ; done.
    - apply (wp_load_loop w0 _ f (e :: es) junk2 _ [] (e :: es) w2); try done.
      + lia.
      + unfold max_read_entries. cbn [length]. lia.
      + intros. apply HE; [done|right; congruence|done].
      + rewrite Hfs2. intros w' ??. by apply wp_ret, HQ. }
  apply wp_bind. destruct (decide _) as [H0|H0]; [|destruct (read_only f) eqn:Hro].
  - assert (junk = []) as ->.
    { rewrite length_app, length_encode, Nat.add_comm, Nat.Div0.mod_add in H0.
      rewrite Nat.mod_small in H0 by done. by apply length_zero_iff_nil. }
    apply wp_ret. destruct Hr as [Ho Hc]. rewrite app_nil_r in Hc.
    assert (w_files w1 = fs').
    { unfold fs'. destruct (read_only f); [done|]. by rewrite Hfs1, insert_id. }
    apply (Hloop w1 []); [done|split; [done|by rewrite Hfs1, app_nil_r]|done|done].
  - apply wp_ret. apply (Hloop w1 junk); try done. destruct Hr. split; [done|by rewrite Hfs1].
  - apply wp_map_err, wp_zoom. cbn [fst snd]. eapply (wp_truncate w0); [done| |split_and!| |].
    + intros x w' ???; apply HE; auto; left; congruence.
    + apply Hr.
    + done.
    + destruct Hr as [_ Hc]. by rewrite Hfs1.
    + rewrite length_app, length_encode. lia.
    + intros w2 Hev2 Hfs2. rewrite take_app_le, take_encode in Hfs2
        by (rewrite length_encode; lia). rewrite firstn_all, Hfs1 in Hfs2.
      apply (Hloop w2 []); [done| |done|done]. destruct Hr as [Ho _]. split; [done|].
      by rewrite Hfs2, lookup_insert_eq, app_nil_r.
Qed.
End Load.
