(* ===== verification/MonoMapRep.v ===== *)
(** * What a PersistentMonoMap holds, and its lookups

    [Rep name rs cur s] relates the state [s] of a loaded map to what it stands for:
    the entries [rs] of the rolled segments, by id, and the entries [cur] of the
    active one.  Under it the four searches are functions of the contents alone. *)

From Stdlib Require Import Ascii String.
From S2P Require Import Prelude Ordered Os AppendOnlyFile Codec KeyValues Names MonoMap MonoMapLoad.

Local Open Scope Z_scope.

(** ** Segment paths *)

Lemma segment_path_chars name id :
  list_ascii_of_string (segmentLogPath name id)
  = (list_ascii_of_string name ++ "."%char :: show_u64 id)%list.
Proof.
  unfold segmentLogPath. rewrite list_ascii_app. cbn.
  by rewrite list_ascii_of_string_of_list_ascii.
Qed.

Lemma segmentLogPath_inj name i j :
  u64 i -> u64 j -> segmentLogPath name i = segmentLogPath name j -> i = j.
Proof.
  intros Hi Hj Heq. apply (f_equal list_ascii_of_string) in Heq.
  rewrite !segment_path_chars in Heq. simplify_eq. by apply show_u64_inj.
Qed.

Lemma segmentLogPath_ne name i : segmentLogPath name i <> name.
Proof.
  intros Heq. apply (f_equal (fun x => List.length (list_ascii_of_string x))) in Heq.
  rewrite segment_path_chars, length_app in Heq. cbn in Heq. lia.
Qed.

Section Rep.
Context {KV : Type} `{HKV : !MonoKeyValue KV} `{!MonoKeyValueLaws KV}.
Implicit Types (cur es : list KV) (rs pre post : list (Z * list KV)) (s : mono_state KV).

Abbreviation entry_size := (exactSerializedSize (KV := KV)).

Definition contents rs cur : list KV := concat rs.*2 ++ cur.

(** The container of a rolled segment holds all of its entries, or only the
    first one. *)
Definition seg_rep (sc : Z * list (KeyValueWithLogOffset KV)) (r : Z * list KV) : Prop :=
  sc.1 = r.1 /\ (sc.2 = at_offsets 0 r.2 \/ sc.2 = take 1 (at_offsets 0 r.2)).

Record well_formed rs cur : Prop := {
  wf_ids : om_sorted rs;
  wf_range : Forall (fun r => 0 < r.1 < 2 ^ 64) rs;
  wf_nonempty : Forall (fun r => r.2 <> []) rs;
  wf_valid : Forall kv_valid (contents rs cur);
  wf_increasing : increasing (contents rs cur);
}.

Definition rolled_files (name : string) rs (fs : gmap string (list Z)) : Prop :=
  Forall (fun r => fs !! segmentLogPath name r.1 = Some (encode r.2)) rs.

(** No other file has a name that starts with that of the log. *)
Definition tidy (name : string) rs (fs : gmap string (list Z)) : Prop :=
  forall f, is_Some (fs !! f) -> String.prefix name f = true ->
    f = name \/ exists id, id ∈ rs.*1 /\ f = segmentLogPath name id.

Record Rep (name : string) rs cur s : Prop := {
  rep_wf : well_formed rs cur;
  rep_rolled : rolled_files name rs (w_files (ms_world s));
  rep_tidy : tidy name rs (w_files (ms_world s));
  rep_loaded : current_log_seg_loaded (ms_map s) = true;
  rep_file : writable (log_file (ms_map s)) (ms_world s) (encode cur);
  rep_name : filename (log_file (ms_map s)) = name;
  rep_cache : cache (ms_map s) = at_offsets 0 cur;
  rep_segs : Forall2 seg_rep (seg_id_to_entry_offset_map (ms_map s)) rs;
}.

(** The size of the active log file as the map remembers it is the size of its
    entries. *)
Definition rep_size cur s : Prop := log_size (ms_map s) = (length cur * entry_size)%nat.

(** [s'] is [s], after answers of the kernel and maybe with more rolled segments
    loaded. *)
Record stays (w0 : world) (name : string) rs cur s s' : Prop := {
  stays_rep : Rep name rs cur s';
  stays_evolves : evolves w0 (ms_world s');
  stays_files : w_files (ms_world s') = w_files (ms_world s);
  stays_log_file : log_file (ms_map s') = log_file (ms_map s);
  stays_log_size : log_size (ms_map s') = log_size (ms_map s);
  stays_max_size : max_size (ms_map s') = max_size (ms_map s);
}.

Lemma seg_rep_ids segs rs : Forall2 seg_rep segs rs -> segs.*1 = rs.*1.
Proof. induction 1 as [|? ? ? ? [? _] _ IH]; cbn; [done|]. by f_equal. Qed.

Lemma seg_rep_sorted segs rs : Forall2 seg_rep segs rs -> om_sorted rs -> om_sorted segs.
Proof. intros H%seg_rep_ids. rewrite !om_sorted_fst. by rewrite H. Qed.

Lemma seg_rep_head sc r : seg_rep sc r -> head sc.2 = (fun e => KVO e 0) <$> head r.2.
Proof.
  intros [_ [->| ->]].
  - apply head_at_offsets.
  - by destruct r.2.
Qed.

Lemma stays_refl w0 name rs cur s :
  Rep name rs cur s -> evolves w0 (ms_world s) -> stays w0 name rs cur s s.
Proof. by split. Qed.

Lemma stays_world w0 name rs cur s w :
  Rep name rs cur s -> evolves w0 w -> w_files w = w_files (ms_world s) ->
  stays w0 name rs cur s (MonoState w (ms_map s)).
Proof.
  intros [] Hev Hfs. split; try done. split; try done; cbn; [by rewrite Hfs..|].
  destruct rep_file0 as (?&?&?). split_and!; [done..|]. by rewrite Hfs.
Qed.

Lemma stays_trans w0 name rs cur s1 s2 s3 :
  stays w0 name rs cur s1 s2 -> stays w0 name rs cur s2 s3 -> stays w0 name rs cur s1 s3.
Proof. intros [] []. split; try done; congruence. Qed.

(** Pieces of the contents are sorted and valid too. *)
Lemma contents_app pre post cur : contents (pre ++ post) cur = concat pre.*2 ++ contents post cur.
Proof. unfold contents. by rewrite fmap_app, concat_app, <- app_assoc. Qed.

Lemma contents_cons id es rs cur : contents ((id, es) :: rs) cur = es ++ contents rs cur.
Proof. unfold contents. cbn. by rewrite <- app_assoc. Qed.

Lemma wf_segment pre id es post cur :
  well_formed (pre ++ (id, es) :: post) cur -> Forall kv_valid es /\ increasing es /\ es <> [].
Proof.
  intros [_ _ Hne Hv Hs]. rewrite contents_app in Hv, Hs.
  change (contents ((id, es) :: post) cur) with ((es ++ concat post.*2) ++ cur) in Hv, Hs.
  rewrite <- app_assoc in Hv, Hs. split_and!.
  - by apply Forall_app in Hv as [_ [? _]%Forall_app].
  - by apply increasing_app in Hs as [_ [? _]%increasing_app].
  - by apply Forall_app in Hne as [_ [? _]%Forall_cons].
Qed.

Lemma rep_split name pre id es post cur s :
  Rep name (pre ++ (id, es) :: post) cur s ->
  exists spre c spost, seg_id_to_entry_offset_map (ms_map s) = spre ++ (id, c) :: spost /\
    Forall2 seg_rep spre pre /\ seg_rep (id, c) (id, es) /\ Forall2 seg_rep spost post /\
    om_find id (seg_id_to_entry_offset_map (ms_map s)) = Some c.
Proof.
  intros HR. pose proof (rep_segs _ _ _ _ HR) as H2.
  pose proof (seg_rep_sorted _ _ H2 (wf_ids _ _ (rep_wf _ _ _ _ HR))) as Hs.
  apply Forall2_app_inv_r in H2 as (spre & rest & Hpre & Hrest & Heq).
  apply Forall2_cons_inv_r in Hrest as ([id' c] & spost & Hc & Hpost & ->).
  assert (id' = id) as -> by apply Hc.
  exists spre, c, spost. rewrite Heq in *. split_and!; [done..|]. by apply om_find_middle.
Qed.

Lemma wp_rolled name pre id es post cur s c (Q : _ -> mono_state KV -> Prop) E :
  Rep name (pre ++ (id, es) :: post) cur s ->
  om_find id (seg_id_to_entry_offset_map (ms_map s)) = Some c ->
  Q c s -> wp (Mono.rolled id) Q E s.
Proof. intros _ Hc HQ. apply wp_bind, wp_gets. by rewrite Hc. Qed.

(** Loading a rolled segment fills its container. *)
Lemma wp_loadRolledFully w0 name pre id es post cur s
    (Q : unit -> mono_state KV -> Prop) (E : fault -> mono_state KV -> Prop) :
  let rs := pre ++ (id, es) :: post in
  Rep name rs cur s -> evolves w0 (ms_world s) ->
  (forall s', stays w0 name rs cur s s' ->
     om_find id (seg_id_to_entry_offset_map (ms_map s')) = Some (at_offsets 0 es) -> Q tt s') ->
  (forall x s', stays w0 name rs cur s s' -> ~ benign w0 -> E x s') ->
  wp (Mono.loadRolledLogSegmentFully id) Q E s.
Proof.
  intros rs HR Hev HQ HE.
  destruct (rep_split _ _ _ _ _ _ _ HR) as (spre & c & spost & Hsegs & Hpre & Hc & Hpost & Hfind).
  destruct (wf_segment _ _ _ _ _ (rep_wf _ _ _ _ HR)) as (Hv & Hs & Hne).
  unfold Mono.loadRolledLogSegmentFully. apply wp_bind. eapply wp_rolled; [done..|].
  destruct (Nat.ltb_spec 1 (length c)).
  { apply wp_ret, HQ; [by apply stays_refl|]. destruct Hc as [_ [Hc|Hc]]; cbn in Hc; [congruence|].
    apply (f_equal length) in Hc. rewrite length_take in Hc. lia. }
  apply wp_bind, wp_gets, wp_bind, wp_zoom. rewrite (rep_name _ _ _ _ HR).
  assert (Hfile : w_files (ms_world s) !! segmentLogPath name id = Some (encode es)).
  { pose proof (rep_rolled _ _ _ _ HR) as Hrf. by apply Forall_app in Hrf as [_ [? _]%Forall_cons]. }
  eapply (wp_open_as w0); [done| |done|].
  { intros x w' ???. apply HE; [|done]. by apply stays_world. }
  intros w1 Hev1 Hfs1. apply wp_bind, wp_zoom, wp_bind. cbn [ms_world ms_map].
  apply (wp_loadLogSegment w0 w1 _ es []); [done|split; [done|]| |done|done| |].
  - cbn. by rewrite Hfs1, app_nil_r.
  - apply kv_size_pos.
  - cbn. intros x w' c' ? Hfs' ?. apply HE; [|done]. apply stays_world; [done..|].
    destruct Hfs'; congruence.
  - cbn. intros w2 Hev2 Hfs2. apply wp_gets, wp_modify. cbn. rewrite Hfs1 in Hfs2.
    pose proof (seg_rep_sorted _ _ (rep_segs _ _ _ _ HR) (wf_ids _ _ (rep_wf _ _ _ _ HR))) as Hs1.
    rewrite Hsegs in Hs1. apply HQ.
    + destruct (stays_world w0 name rs cur s w2 HR Hev2 Hfs2) as [[] ? ? ? ?].
      split; try done. split; try done. cbn. rewrite Hsegs, (om_insert_middle _ _ c) by done.
      apply Forall2_app; [done|]. constructor; [|done]. split; [done|]. by left.
    + cbn. rewrite Hsegs, (om_insert_middle _ _ c) by done. apply om_find_middle.
      rewrite om_sorted_fst in Hs1 |- *. by rewrite fmap_app in Hs1 |- *.
Qed.

(** ** Searching *)

(** A found entry, where it is: [before] are the entries in front of it. *)
Definition located s rs cur (x : FoundKeyValue KV) (before : list KV) : Prop :=
  let i := truncation_point x in
  (segment_id x = 0 /\ cache_to_truncate x = current_cache /\
   exists e, cur !! i = Some e /\ entry_offset x = KVO e (i * entry_size)%nat /\
     before = concat rs.*2 ++ take i cur) \/
  (exists pre id es post c e, rs = pre ++ (id, es) :: post /\
     segment_id x = id /\ cache_to_truncate x = rolled_cache id /\
     om_find id (seg_id_to_entry_offset_map (ms_map s)) = Some c /\
     take i c = at_offsets 0 (take i es) /\
     es !! i = Some e /\ entry_offset x = KVO e (i * entry_size)%nat /\
     before = concat pre.*2 ++ take i es).

Lemma located_contents s rs cur x before :
  located s rs cur x before ->
  exists after, contents rs cur = before ++ entry (entry_offset x) :: after.
Proof.
  intros [(_ & _ & e & Hi & -> & ->)|(pre & id & es & post & c & e & -> & _ & _ & _ & _ & Hi & -> & ->)].
  - exists (drop (S (truncation_point x)) cur). unfold contents. rewrite <- app_assoc. cbn.
    by rewrite (take_drop_middle cur).
  - exists (drop (S (truncation_point x)) es ++ contents post cur).
    rewrite contents_app, <- app_assoc. f_equal.
    rewrite app_comm_cons, app_assoc. cbn [entry]. rewrite (take_drop_middle es) by done.
    unfold contents. cbn. by rewrite <- app_assoc.
Qed.

Section By.
Context (sel : KV -> Z).
Definition sorted_by (es : list KV) : Prop := StronglySorted (fun a b => sel a < sel b) es.

Lemma sorted_by_app l1 l2 : sorted_by (l1 ++ l2) -> sorted_by l1 /\ sorted_by l2.
Proof. unfold sorted_by. intros H. by apply StronglySorted_app in H as (?&?&?). Qed.

Lemma sorted_by_before l1 e l2 k :
  sorted_by (l1 ++ e :: l2) -> sel e <= k -> Forall (fun a => sel a < k) l1.
Proof.
  intros H Hle. apply StronglySorted_app in H as (Hlt & _ & _). rewrite Forall_forall.
  intros a Ha. specialize (Hlt a e Ha). assert (sel a < sel e) by (apply Hlt; by left). lia.
Qed.

Lemma sorted_by_after l1 e l2 k :
  sorted_by (l1 ++ e :: l2) -> k <= sel e -> Forall (fun a => k < sel a) l2.
Proof.
  intros H Hle. apply StronglySorted_app in H as (_ & _ & H).
  apply StronglySorted_cons in H as [H _]. eapply Forall_impl; [exact H|]. cbn. lia.
Qed.

Lemma lower_bound_at k es :
  sorted_by es ->
  let i := Mono.lower_bound_in sel k (at_offsets 0 es) in
  (i <= length es)%nat /\ Forall (fun a => sel a < k) (take i es) /\
  forall e, es !! i = Some e -> k <= sel e.
Proof.
  intros Hs. unfold Mono.lower_bound_in. cbn zeta.
  set (p := fun x : KeyValueWithLogOffset KV => sel (entry x) <? k).
  rewrite std_lower_bound_spec.
  2: { apply (sorted_partitioned (fun a b => sel (entry a) < sel (entry b))).
       - apply (sorted_fmap entry (fun a b => sel a < sel b)). by rewrite entries_at_offsets.
       - unfold p. intros x y Hxy. rewrite !Z.ltb_lt. lia. }
  split_and!.
  - rewrite <- (length_at_offsets 0 es). apply partition_point_le.
  - rewrite <- (entries_at_offsets 0 es) at 2. rewrite <- fmap_take, Forall_fmap.
    eapply Forall_impl; [apply partition_point_before|]. unfold p; cbn. intros x. by rewrite Z.ltb_lt.
  - intros e He. assert (p (KVO e (partition_point p (at_offsets 0 es) * entry_size)) = false) as Hp.
    { apply (partition_point_at p (at_offsets 0 es)). by rewrite lookup_at_offsets, He. }
    unfold p in Hp. cbn in Hp. lia.
Qed.

(** What a search for the first entry that is not below [k] returns. *)
Definition found_ge k s rs cur (r : option (FoundKeyValue KV)) : Prop :=
  match r with
  | None => Forall (fun e => sel e < k) (contents rs cur)
  | Some x => exists before, located s rs cur x before /\
                Forall (fun e => sel e < k) before /\ k <= sel (entry (entry_offset x))
  end.

Lemma contents_middle pre id es post cur :
  contents (pre ++ (id, es) :: post) cur = concat pre.*2 ++ es ++ contents post cur.
Proof. rewrite contents_app. unfold contents. cbn. by rewrite <- app_assoc. Qed.

Lemma found_ge_first k s name pre id e es post cur :
  Rep name (pre ++ (id, e :: es) :: post) cur s ->
  Forall (fun a => sel a < k) (concat pre.*2) -> k <= sel e ->
  found_ge k s (pre ++ (id, e :: es) :: post) cur (Some (Found (KVO e 0) id (rolled_cache id) 0)).
Proof.
  intros HR Hlt Hle. destruct (rep_split _ _ _ _ _ _ _ HR) as (_ & c & _ & _ & _ & _ & _ & Hfind).
  exists (concat pre.*2). split; [|done]. right.
  exists pre, id, (e :: es), post, c, e. cbn. by rewrite app_nil_r.
Qed.

Lemma found_ge_rolled k s pre id es post cur i e :
  om_find id (seg_id_to_entry_offset_map (ms_map s)) = Some (at_offsets 0 es) ->
  es !! i = Some e -> Forall (fun a => sel a < k) (concat pre.*2 ++ take i es) -> k <= sel e ->
  found_ge k s (pre ++ (id, es) :: post) cur
    (Some (Found (KVO e (i * entry_size)) id (rolled_cache id) i)).
Proof.
  intros Hfind He Hlt Hle. exists (concat pre.*2 ++ take i es). split; [|done]. right.
  exists pre, id, es, post, (at_offsets 0 es), e. split_and!; try done. apply take_at_offsets.
Qed.

Lemma found_ge_current k s rs cur i e :
  cur !! i = Some e -> Forall (fun a => sel a < k) (concat rs.*2 ++ take i cur) -> k <= sel e ->
  found_ge k s rs cur (Some (Found (KVO e (i * entry_size)) 0 current_cache i)).
Proof.
  intros He Hlt Hle. exists (concat rs.*2 ++ take i cur). split; [|done]. left.
  split_and!; try done. by exists e.
Qed.

(** The next entry after a rolled segment that is all below [k]. *)
Lemma wp_next_segment name pre post spost rs cur s k
    (Q : option (FoundKeyValue KV) -> mono_state KV -> Prop) E :
  Rep name rs cur s -> rs = pre ++ post -> Forall2 seg_rep spost post ->
  Forall (fun e => sel e < k) (concat pre.*2) -> Forall (fun e => k < sel e) (contents post cur) ->
  contents post cur <> [] ->
  (forall x, found_ge k s rs cur (Some x) -> Q (Some x) s) ->
  wp match head spost with
     | Some (id', c') =>
         bind (defined (head c')) (fun x => ret (Some (Found x id' (rolled_cache id') 0)))
     | None =>
         bind (Mono.get cache) (fun c' =>
         bind (defined (head c')) (fun x => ret (Some (Found x 0 current_cache 0))))
     end Q E s.
Proof.
  intros HR Hrs Hspost Hlt Hgt Hne HQ. destruct Hspost as [|[id' c'] [id'' es] spost post Hc Hsp]; cbn.
  - apply wp_bind, wp_gets, wp_bind. rewrite (rep_cache _ _ _ _ HR), head_at_offsets.
    destruct cur as [|e cur]; [done|]. eapply wp_defined; [done|]. apply wp_ret, HQ.
    rewrite app_nil_r in Hrs. subst pre. apply Forall_cons in Hgt as [Hgt _].
    apply (found_ge_current k s rs (e :: cur) 0); [done| |lia]. by rewrite take_0, app_nil_r.
  - assert (id' = id'') as <- by apply Hc. subst rs.
    pose proof (wf_segment _ _ _ _ _ (rep_wf _ _ _ _ HR)) as (_ & _ & Hes).
    destruct es as [|e es]; [done|]. apply wp_bind.
    eapply wp_defined; [apply (seg_rep_head _ _ Hc)|]. apply wp_ret, HQ.
    apply Forall_cons in Hgt as [Hgt _]. eapply found_ge_first; [done..|lia].
Qed.

(** The loop over the rolled segments has passed [post], which starts above [k]. *)
Lemma wp_find_ge_rolled w0 name rs cur s k pre spre post spost
    (Q : option (FoundKeyValue KV) -> mono_state KV -> Prop) (E : fault -> mono_state KV -> Prop) :
  Rep name rs cur s -> evolves w0 (ms_world s) -> sorted_by (contents rs cur) ->
  rs = pre ++ post -> Forall2 seg_rep spre pre -> Forall2 seg_rep spost post ->
  Forall (fun e => k < sel e) (contents post cur) ->
  contents post cur <> [] \/ Exists (fun e => k <= sel e) (contents rs cur) ->
  (forall s' r, stays w0 name rs cur s s' ->
     match r with
     | None => s' = s /\ Forall (fun e => k < sel e) (contents rs cur)
     | Some _ => found_ge k s' rs cur r
     end -> Q r s') ->
  (forall x s', stays w0 name rs cur s s' -> ~ benign w0 -> E x s') ->
  wp (Mono.find_ge_rolled sel k (reverse spre) (head spost)) Q E s.
Proof.
  intros HR Hev Hsort. revert spre post spost.
  induction pre as [|[id es] pre IH] using rev_ind;
    intros spre post spost Hrs Hspre Hspost Hpost Hne HQ HE.
  { apply Forall2_nil_inv_r in Hspre as ->. cbn.
    apply wp_ret, HQ; [by apply stays_refl|]. split; [done|]. by rewrite Hrs. }
  apply Forall2_app_inv_r in Hspre as (spre' & l & Hspre & Hl & ->).
  apply Forall2_cons_inv_r in Hl as ([id' c] & l' & Hc & Hl' & ->).
  apply Forall2_nil_inv_r in Hl' as ->. assert (id' = id) as -> by apply Hc.
  rewrite reverse_app. cbn [reverse rev_append app Mono.find_ge_rolled].
  rewrite <- app_assoc in Hrs. cbn in Hrs. subst rs. rewrite contents_middle in Hsort.
  pose proof (wf_segment _ _ _ _ _ (rep_wf _ _ _ _ HR)) as (_ & _ & Hes).
  destruct es as [|e0 es0]; [done|]. set (es := e0 :: es0) in *.
  apply wp_bind. eapply wp_defined; [apply (seg_rep_head _ _ Hc)|]. cbn [entry].
  destruct (Z.eqb_spec (sel e0) k) as [Heq|Hneq]; [|destruct (Z.ltb_spec (sel e0) k) as [Hlt|Hge]].
  - apply wp_ret, HQ; [by apply stays_refl|]. eapply found_ge_first; [done| |lia].
    apply (sorted_by_before (concat pre.*2) e0 (es0 ++ contents post cur)); [done|lia].
  - assert (Hpre : Forall (fun a => sel a < k) (concat pre.*2)).
    { apply (sorted_by_before _ e0 (es0 ++ contents post cur)); [done|lia]. }
    apply sorted_by_app in Hsort as [_ [Hses _]%sorted_by_app].
    pose proof (lower_bound_at k es Hses) as (Hi & Htake & Hat).
    apply wp_bind. eapply wp_loadRolledFully; [done..| |exact HE]. intros s1 Hst Hfind.
    apply wp_bind. eapply wp_rolled; [apply Hst|done|]. rewrite lookup_at_offsets.
    set (i := Mono.lower_bound_in sel k (at_offsets 0 es)) in *.
    destruct (es !! i) as [e|] eqn:He; cbn [fmap option_fmap option_map].
    + apply wp_ret, HQ; [done|]. apply found_ge_rolled; auto. by apply Forall_app.
    + apply lookup_ge_None in He. rewrite take_ge in Htake by done.
      assert (Hall : Forall (fun a => sel a < k) (concat (pre ++ [(id, es)]).*2)).
      { rewrite fmap_app, concat_app. cbn. rewrite app_nil_r. by apply Forall_app. }
      apply (wp_next_segment name (pre ++ [(id, es)]) post spost (pre ++ (id, es) :: post) cur s1 k);
        auto.
      * apply Hst.
      * by rewrite <- app_assoc.
      * destruct Hne as [|Hex]; [done|]. rewrite contents_middle in Hex. intros Hnil.
        rewrite Hnil, app_nil_r, Exists_app in Hex. rewrite Forall_forall in Hpre, Htake.
        destruct Hex as [(a & Ha & ?)%Exists_exists|(a & Ha & ?)%Exists_exists].
        -- specialize (Hpre a Ha). lia.
        -- specialize (Htake a Ha). lia.
  - assert (Hcont : contents ((id, es) :: post) cur = es ++ contents post cur)
      by apply (contents_middle []).
    apply (IH spre' ((id, es) :: post) ((id, c) :: spost)); [done|done|by constructor| | |done|done].
    + rewrite Hcont. constructor; [lia|].
      apply (sorted_by_after (concat pre.*2) e0 (es0 ++ contents post cur)); [done|lia].
    + left. by rewrite Hcont.
Qed.

(** When the active segment is empty, nothing tells the search where to go on after
    the last rolled segment: it has to find its entry before. *)
Definition can_search k rs cur : Prop :=
  cur <> [] \/ rs = [] \/ Exists (fun e => k <= sel e) (contents rs cur).

(** All of the active segment is above [k]: the rolled segments are searched. *)
Lemma wp_find_ge_slow w0 name rs cur s k
    (Q : option (FoundKeyValue KV) -> mono_state KV -> Prop) (E : fault -> mono_state KV -> Prop) :
  Rep name rs cur s -> evolves w0 (ms_world s) -> sorted_by (contents rs cur) ->
  can_search k rs cur -> Forall (fun e => k < sel e) cur ->
  (forall s' r, stays w0 name rs cur s s' -> found_ge k s' rs cur r -> Q r s') ->
  (forall x s', stays w0 name rs cur s s' -> ~ benign w0 -> E x s') ->
  wp (bind (Mono.get seg_id_to_entry_offset_map) (fun segs =>
      bind (Mono.find_ge_rolled sel k (reverse segs) None) (fun r =>
      match r with
      | Some x => ret (Some x)
      | None =>
          bind (Mono.get seg_id_to_entry_offset_map) (fun segs =>
          match segs with
          | (id, c1) :: _ =>
              bind (defined (head c1)) (fun x => ret (Some (Found x id (rolled_cache id) 0)))
          | [] =>
              match head (at_offsets 0 cur) with
              | Some x => ret (Some (Found x 0 current_cache 0))
              | None => ret None
              end
          end)
      end))) Q E s.
Proof.
  intros HR Hev Hsort Hcan Hcur HQ HE. apply wp_bind, wp_gets, wp_bind.
  destruct rs as [|r0 rs].
  { pose proof (rep_segs _ _ _ _ HR) as Hsegs. apply Forall2_nil_inv_r in Hsegs. rewrite Hsegs.
    apply wp_ret, wp_bind, wp_gets. rewrite Hsegs, head_at_offsets.
    destruct cur as [|a cur]; apply wp_ret, HQ; try (by apply stays_refl); [constructor|].
    apply Forall_cons in Hcur as [Ha _].
    apply (found_ge_current k s [] (a :: cur) 0); [done|constructor|lia]. }
  apply (wp_find_ge_rolled w0 name (r0 :: rs) cur s k (r0 :: rs) _ [] []); try done.
  - by rewrite app_nil_r.
  - apply HR.
  - destruct Hcan as [?|[?|?]]; [by left|done|by right].
  - intros s' [x|] Hst Hr; [by apply wp_ret, HQ|]. destruct Hr as [-> Hall].
    apply wp_bind, wp_gets.
    destruct r0 as [id' es]. pose proof (rep_segs _ _ _ _ HR) as Hsegs.
    apply Forall2_cons_inv_r in Hsegs as ([id c] & segs & Hc & _ & ->).
    assert (id = id') as <- by apply Hc.
    pose proof (wf_segment [] _ _ _ _ (rep_wf _ _ _ _ HR)) as (_ & _ & Hes).
    destruct es as [|e es]; [done|]. apply wp_bind.
    eapply wp_defined; [apply (seg_rep_head _ _ Hc)|]. apply wp_ret, HQ; [done|].
    apply (found_ge_first k s name []); [done|constructor|]. apply Forall_cons in Hall as [? _]. lia.
Qed.

Lemma wp_find_ge w0 name rs cur s k
    (Q : option (FoundKeyValue KV) -> mono_state KV -> Prop) (E : fault -> mono_state KV -> Prop) :
  Rep name rs cur s -> evolves w0 (ms_world s) -> sorted_by (contents rs cur) ->
  can_search k rs cur ->
  (forall s' r, stays w0 name rs cur s s' -> found_ge k s' rs cur r -> Q r s') ->
  (forall x s', stays w0 name rs cur s s' -> ~ benign w0 -> E x s') ->
  wp (Mono.find_ge sel k) Q E s.
Proof.
  intros HR Hev Hsort Hcan HQ HE. unfold Mono.find_ge. apply wp_bind, wp_gets.
  rewrite (rep_cache _ _ _ _ HR).
  destruct (sorted_by_app _ _ Hsort) as [_ Hscur].
  pose proof (last_at_offsets 0 cur) as Hlast.
  destruct (last (at_offsets 0 cur)) as [b|]; cbn in Hlast; symmetry in Hlast.
  2: { apply last_None in Hlast as ->. eapply wp_find_ge_slow; eauto. }
  apply last_Some in Hlast as [cur' Hcur].
  destruct (Z.ltb_spec (sel (entry b)) k) as [Hlt|Hge].
  { apply wp_ret, HQ; [by apply stays_refl|]. cbn. unfold contents in *.
    rewrite Hcur, app_assoc in Hsort |- *. apply Forall_app. split; [|by constructor].
    eapply sorted_by_before; [exact Hsort|lia]. }
  destruct cur as [|a cur]; [by destruct cur'|]. rewrite head_at_offsets at 1. cbn [head fmap option_fmap option_map entry].
  destruct (Z.leb_spec (sel a) k).
  - pose proof (lower_bound_at k (a :: cur) Hscur) as (Hi & Htake & Hat).
    set (i := Mono.lower_bound_in sel k (at_offsets 0 (a :: cur))) in *.
    rewrite lookup_at_offsets. destruct ((a :: cur) !! i) as [e|] eqn:He.
    + apply wp_bind, wp_ret, wp_ret, HQ; [by apply stays_refl|].
      apply found_ge_current; auto. apply Forall_app; split; [|done].
      apply (sorted_by_before _ a cur k); [done|lia].
    + apply lookup_ge_None in He. rewrite take_ge, Hcur in Htake by done.
      apply Forall_app in Htake as [_ [? _]%Forall_cons]. lia.
  - eapply wp_find_ge_slow; eauto. constructor; [lia|].
    apply (sorted_by_after [] a cur); [done|lia].
Qed.

(** What a search for the last entry that is not above [k] returns. *)
Definition found_le k rs cur (r : option (FoundKeyValue KV)) : Prop :=
  match r with
  | None => Forall (fun e => k < sel e) (contents rs cur)
  | Some x => exists before after,
      contents rs cur = before ++ entry (entry_offset x) :: after /\
      sel (entry (entry_offset x)) <= k /\ Forall (fun e => k < sel e) after
  end.

Lemma wp_bin_search s k a es id where_
    (Q : option (FoundKeyValue KV) -> mono_state KV -> Prop) E :
  sorted_by (a :: es) -> sel a <= k ->
  (forall x before after, a :: es = before ++ entry (entry_offset x) :: after ->
     sel (entry (entry_offset x)) <= k -> Forall (fun e => k < sel e) after -> Q (Some x) s) ->
  wp (Mono.bin_search sel (at_offsets 0 (a :: es)) k id where_) Q E s.
Proof.
  intros Hsort Ha HQ. unfold Mono.bin_search.
  pose proof (lower_bound_at k (a :: es) Hsort) as (Hi & Htake & Hat).
  set (i := Mono.lower_bound_in sel k (at_offsets 0 (a :: es))) in *.
  rewrite lookup_at_offsets. destruct ((a :: es) !! i) as [e|] eqn:He; cbn [fmap option_fmap option_map].
  - apply take_drop_middle in He as Heq. specialize (Hat e eq_refl).
    assert (Hafter : Forall (fun b => k < sel b) (drop (S i) (a :: es))).
    { rewrite <- Heq in Hsort. eapply sorted_by_after; eauto. }
    cbn [entry]. destruct (Z.eqb_spec (sel e) k).
    + apply wp_ret. apply (HQ _ (take i (a :: es)) (drop (S i) (a :: es))); [done|cbn; lia|done].
    + destruct i as [|j].
      { cbn in He. simplify_eq. lia. }
      rewrite lookup_at_offsets.
      destruct (lookup_lt_is_Some_2 (a :: es) j) as [e' He']; [lia|]. rewrite He'.
      apply wp_bind, wp_ret, wp_ret. apply take_drop_middle in He' as Heq'.
      apply (HQ _ (take j (a :: es)) (drop (S j) (a :: es))); [done| |].
      * rewrite (take_S_r _ _ _ He') in Htake. apply Forall_app in Htake as [_ [? _]%Forall_cons].
        cbn. lia.
      * rewrite (drop_S _ _ _ He). constructor; [lia|done].
  - apply lookup_ge_None in He. rewrite take_ge in Htake by done.
    pose proof (last_at_offsets 0 (a :: es)) as Hlast.
    destruct (last (at_offsets 0 (a :: es))) as [b|] eqn:Hb; cbn [fmap option_fmap option_map] in Hlast.
    2: { symmetry in Hlast. by apply last_None in Hlast. }
    apply wp_bind, wp_ret, wp_ret. symmetry in Hlast. apply last_Some in Hlast as [l' Hl'].
    rewrite Hl' in Htake. apply Forall_app in Htake as [_ [? _]%Forall_cons].
    apply (HQ _ l' []); [done|cbn; lia|constructor].
Qed.

Lemma wp_find_le_rolled w0 name rs cur s k pre spre post
    (Q : option (FoundKeyValue KV) -> mono_state KV -> Prop) (E : fault -> mono_state KV -> Prop) :
  Rep name rs cur s -> evolves w0 (ms_world s) -> sorted_by (contents rs cur) ->
  rs = pre ++ post -> Forall2 seg_rep spre pre ->
  Forall (fun e => k < sel e) (contents post cur) ->
  (forall s' r, stays w0 name rs cur s s' -> found_le k rs cur r -> Q r s') ->
  (forall x s', stays w0 name rs cur s s' -> ~ benign w0 -> E x s') ->
  wp (Mono.find_le_rolled sel k (reverse spre)) Q E s.
Proof.
  intros HR Hev Hsort. revert spre post.
  induction pre as [|[id es] pre IH] using rev_ind; intros spre post Hrs Hspre Hpost HQ HE.
  { apply Forall2_nil_inv_r in Hspre as ->. cbn.
    apply wp_ret, HQ; [by apply stays_refl|]. cbn. by rewrite Hrs. }
  apply Forall2_app_inv_r in Hspre as (spre' & l & Hspre & Hl & ->).
  apply Forall2_cons_inv_r in Hl as ([id' c] & l' & Hc & Hl' & ->).
  apply Forall2_nil_inv_r in Hl' as ->. assert (id' = id) as -> by apply Hc.
  rewrite reverse_app. cbn [reverse rev_append app Mono.find_le_rolled].
  rewrite <- app_assoc in Hrs. cbn in Hrs. subst rs. pose proof Hsort as Hsort'.
  rewrite contents_middle in Hsort.
  pose proof (wf_segment _ _ _ _ _ (rep_wf _ _ _ _ HR)) as (_ & _ & Hes).
  destruct es as [|e0 es0]; [done|]. set (es := e0 :: es0) in *.
  apply wp_bind. eapply wp_defined; [apply (seg_rep_head _ _ Hc)|]. cbn [entry].
  destruct (Z.eqb_spec (sel e0) k) as [Heq|Hneq]; [|destruct (Z.ltb_spec (sel e0) k) as [Hlt|Hge]].
  - apply wp_ret, HQ; [by apply stays_refl|].
    exists (concat pre.*2), (es0 ++ contents post cur). cbn. rewrite contents_middle.
    split_and!; [done|lia|]. eapply sorted_by_after; [exact Hsort|lia].
  - apply wp_bind. eapply wp_loadRolledFully; [done..| |exact HE]. intros s1 Hst Hfind.
    apply wp_bind. eapply wp_rolled; [apply Hst|done|].
    apply sorted_by_app in Hsort as [_ [Hses _]%sorted_by_app].
    apply wp_bin_search; [done|lia|]. intros x before after Heq Hle Hafter.
    apply HQ; [done|]. exists (concat pre.*2 ++ before), (after ++ contents post cur).
    rewrite contents_middle. unfold es. rewrite Heq, <- !app_assoc.
    split_and!; [done|done|]. by apply Forall_app.
  - assert (Hcont : contents ((id, es) :: post) cur = es ++ contents post cur)
      by apply (contents_middle []).
    apply (IH spre' ((id, es) :: post)); [done|done| |done|done].
    rewrite Hcont. constructor; [lia|].
    apply (sorted_by_after (concat pre.*2) e0 (es0 ++ contents post cur)); [done|lia].
Qed.

Lemma wp_find_le w0 name rs cur s k
    (Q : option (FoundKeyValue KV) -> mono_state KV -> Prop) (E : fault -> mono_state KV -> Prop) :
  Rep name rs cur s -> evolves w0 (ms_world s) -> sorted_by (contents rs cur) ->
  (forall s' r, stays w0 name rs cur s s' -> found_le k rs cur r -> Q r s') ->
  (forall x s', stays w0 name rs cur s s' -> ~ benign w0 -> E x s') ->
  wp (Mono.find_le sel k) Q E s.
Proof.
  intros HR Hev Hsort HQ HE. unfold Mono.find_le. apply wp_bind, wp_gets.
  rewrite (rep_cache _ _ _ _ HR), head_at_offsets.
  assert (Hslow : Forall (fun e => k < sel e) cur ->
    wp (bind (Mono.get seg_id_to_entry_offset_map)
          (fun segs => Mono.find_le_rolled sel k (reverse segs))) Q E s).
  { intros Hcur. apply wp_bind, wp_gets.
    apply (wp_find_le_rolled w0 name rs cur s k rs _ []); try done; [by rewrite app_nil_r|apply HR]. }
  destruct cur as [|a cur]; cbn [head fmap option_fmap option_map entry]; [by apply Hslow|].
  destruct (sorted_by_app _ _ Hsort) as [_ Hscur]. destruct (Z.leb_spec (sel a) k).
  - apply wp_bin_search; [done..|]. intros x before after Heq Hle Hafter.
    apply HQ; [by apply stays_refl|]. exists (concat rs.*2 ++ before), after.
    unfold contents. by rewrite Heq, <- app_assoc.
  - apply Hslow. constructor; [lia|]. apply (sorted_by_after [] a cur); [done|lia].
Qed.

(** The same as functions of the contents. *)
Lemma found_ge_head k s rs cur r :
  found_ge k s rs cur r ->
  Mono.found_entry r = head (filter (fun e => k <= sel e) (contents rs cur)).
Proof.
  destruct r as [x|]; cbn.
  - intros (before & Hloc & Hlt & Hle).
    destruct (located_contents _ _ _ _ _ Hloc) as [after ->]. rewrite filter_app.
    rewrite (filter_none _ before), filter_cons_True; [done..|].
    eapply Forall_impl; [exact Hlt|]. cbn. lia.
  - intros Hlt. rewrite filter_none; [done|]. eapply Forall_impl; [exact Hlt|]. cbn. lia.
Qed.

Lemma found_le_last k rs cur r :
  found_le k rs cur r ->
  Mono.found_entry r = last (filter (fun e => sel e <= k) (contents rs cur)).
Proof.
  destruct r as [x|]; cbn.
  - intros (before & after & -> & Hle & Hgt). rewrite filter_app, filter_cons_True by done.
    rewrite (filter_none _ after), last_app; [done|]. eapply Forall_impl; [exact Hgt|]. cbn. lia.
  - intros Hgt. rewrite filter_none; [done|]. eapply Forall_impl; [exact Hgt|]. cbn. lia.
Qed.
End By.

Context (dir_exists is_directory : bool) (listing : gmap string (list Z) -> list string).
Abbreviation ensure_loaded := (Mono.ensure_loaded dir_exists is_directory listing).

Lemma wp_ensure_loaded name rs cur s (Q : unit -> mono_state KV -> Prop) E :
  Rep name rs cur s -> Q tt s -> wp ensure_loaded Q E s.
Proof. intros HR HQ. apply wp_bind, wp_gets. by rewrite (rep_loaded _ _ _ _ HR). Qed.

(** [last]: the greatest entry, also when the active segment is empty. *)
Lemma wp_last_entry w0 name rs cur s
    (Q : option KV -> mono_state KV -> Prop) (E : fault -> mono_state KV -> Prop) :
  Rep name rs cur s -> evolves w0 (ms_world s) ->
  (forall s', stays w0 name rs cur s s' -> Q (last (contents rs cur)) s') ->
  (forall x s', stays w0 name rs cur s s' -> ~ benign w0 -> E x s') ->
  wp (Mono.last_entry dir_exists is_directory listing) Q E s.
Proof.
  intros HR Hev HQ HE. unfold Mono.last_entry. apply wp_bind.
  eapply wp_ensure_loaded; [done|]. apply wp_bind, wp_gets. rewrite (rep_cache _ _ _ _ HR).
  unfold contents in HQ. rewrite last_app in HQ. rewrite <- (last_at_offsets 0 cur) in HQ.
  destruct (last (at_offsets 0 cur)) as [b|]; cbn in HQ; [by apply wp_ret, HQ, stays_refl|].
  apply wp_bind, wp_gets. destruct rs as [|[id es] rs _] using rev_ind.
  { pose proof (rep_segs _ _ _ _ HR) as Hsegs. apply Forall2_nil_inv_r in Hsegs as ->.
    by apply wp_ret, HQ, stays_refl. }
  destruct (rep_split _ _ _ _ _ _ _ HR) as (spre & c & spost & -> & _ & _ & Hnil & _).
  apply Forall2_nil_inv_r in Hnil as ->. rewrite last_snoc.
  apply wp_bind. eapply wp_loadRolledFully; [done..| |exact HE]. intros s1 Hst Hfind.
  apply wp_bind. eapply wp_rolled; [apply Hst|done|].
  destruct (wf_segment _ _ _ _ _ (rep_wf _ _ _ _ HR)) as (_ & _ & Hes).
  specialize (HQ s1 Hst). rewrite fmap_app, concat_app, last_app in HQ. cbn in HQ.
  rewrite app_nil_r, <- (last_at_offsets 0 es) in HQ.
  destruct (last (at_offsets 0 es)) as [b|] eqn:Hb.
  - by apply wp_bind, wp_ret, wp_ret.
  - apply last_None in Hb. by destruct es.
Qed.

(** [prevLast]: the entry before the last one, when the segment that would hold it
    can be told: the code reads it from the last rolled segment, which has to hold
    two entries if the active one is empty. *)
Definition can_prev_last rs cur : Prop :=
  cur <> [] \/ rs = [] \/ exists pre id es, rs = pre ++ [(id, es)] /\ (2 <= length es)%nat.

Lemma reverse_lookup_app (l1 l2 : list KV) i :
  (i < length l2)%nat -> reverse (l1 ++ l2) !! i = reverse l2 !! i.
Proof. intros H. rewrite reverse_app, lookup_app_l; [done|]. by rewrite length_reverse. Qed.

Lemma reverse_at_offsets es i :
  (fun x => entry x) <$> (reverse (at_offsets 0 es) !! i) = reverse es !! i.
Proof. by rewrite <- list_lookup_fmap, fmap_reverse, entries_at_offsets. Qed.

Lemma wp_prevLast w0 name rs cur s
    (Q : option KV -> mono_state KV -> Prop) (E : fault -> mono_state KV -> Prop) :
  Rep name rs cur s -> evolves w0 (ms_world s) -> can_prev_last rs cur ->
  (forall s', stays w0 name rs cur s s' -> Q (reverse (contents rs cur) !! 1%nat) s') ->
  (forall x s', stays w0 name rs cur s s' -> ~ benign w0 -> E x s') ->
  wp (Mono.prevLast dir_exists is_directory listing) Q E s.
Proof.
  intros HR Hev Hcan HQ HE. unfold Mono.prevLast. apply wp_bind.
  eapply wp_ensure_loaded; [done|]. apply wp_bind, wp_gets. rewrite (rep_cache _ _ _ _ HR).
  rewrite length_at_offsets. destruct (Nat.leb_spec 2 (length cur)) as [H2|H2].
  { unfold contents in HQ. rewrite reverse_lookup_app in HQ by lia.
    rewrite <- reverse_at_offsets in HQ.
    destruct (reverse (at_offsets 0 cur) !! 1%nat) as [b|] eqn:Hb.
    - by apply wp_bind, wp_ret, wp_ret, HQ, stays_refl.
    - apply lookup_ge_None in Hb. rewrite length_reverse, length_at_offsets in Hb. lia. }
  apply wp_bind, wp_gets. destruct rs as [|[id es] rs _] using rev_ind.
  { pose proof (rep_segs _ _ _ _ HR) as Hsegs. apply Forall2_nil_inv_r in Hsegs as ->.
    assert (Hnone : reverse (contents [] cur) !! 1%nat = None).
    { apply lookup_ge_None. rewrite length_reverse. cbn. lia. }
    rewrite Hnone in HQ. by apply wp_ret, HQ, stays_refl. }
  destruct (rep_split _ _ _ _ _ _ _ HR) as (spre & c & spost & -> & _ & _ & Hnil & _).
  apply Forall2_nil_inv_r in Hnil as ->. rewrite last_snoc.
  apply wp_bind. eapply wp_loadRolledFully; [done..| |exact HE]. intros s1 Hst Hfind.
  apply wp_bind. eapply wp_rolled; [apply Hst|done|]. specialize (HQ s1 Hst).
  destruct (wf_segment _ _ _ _ _ (rep_wf _ _ _ _ HR)) as (_ & _ & Hes).
  assert (Hlen : (0 < length es)%nat) by (destruct es; cbn; [done|lia]).
  set (i := if (length cur =? 1)%nat then 0%nat else 1%nat).
  assert (Hi : (i < length es)%nat /\ reverse (contents (rs ++ [(id, es)]) cur) !! 1%nat = reverse es !! i).
  { rewrite contents_middle. unfold contents; cbn [fmap list_fmap concat app].
    destruct cur as [|a [|b cur]]; unfold i; cbn [length Nat.eqb]; [|..|cbn in H2; lia].
    - destruct Hcan as [?|[Hn|(pre & id' & es' & Hrs & Hle)]]; [done|by destruct rs|].
      apply app_inj_tail in Hrs as [_ Hrs]. simplify_eq. rewrite app_nil_r.
      split; [lia|]. by rewrite reverse_lookup_app by lia.
    - split; [lia|]. rewrite app_assoc, reverse_snoc. cbn. by rewrite reverse_lookup_app by lia. }
  destruct Hi as [Hi Heq]. rewrite Heq, <- reverse_at_offsets in HQ.
  destruct (reverse (at_offsets 0 es) !! i) as [b|] eqn:Hb.
  - by apply wp_bind, wp_ret, wp_ret.
  - apply lookup_ge_None in Hb. rewrite length_reverse, length_at_offsets in Hb. lia.
Qed.

(** [first] *)
Lemma wp_first w0 name rs cur s
    (Q : option KV -> mono_state KV -> Prop) (E : fault -> mono_state KV -> Prop) :
  Rep name rs cur s -> evolves w0 (ms_world s) -> Q (head (contents rs cur)) s ->
  wp (Mono.first dir_exists is_directory listing) Q E s.
Proof.
  intros HR Hev HQ. unfold Mono.first. apply wp_bind.
  eapply wp_ensure_loaded; [done|]. apply wp_bind, wp_gets.
  destruct rs as [|[id' es] rs].
  - pose proof (rep_segs _ _ _ _ HR) as Hsegs. apply Forall2_nil_inv_r in Hsegs as ->.
    apply wp_bind, wp_gets, wp_ret. rewrite (rep_cache _ _ _ _ HR), head_at_offsets. by destruct cur.
  - pose proof (rep_segs _ _ _ _ HR) as Hsegs.
    apply Forall2_cons_inv_r in Hsegs as ([id c] & segs & Hc & _ & ->).
    pose proof (wf_segment [] _ _ _ _ (rep_wf _ _ _ _ HR)) as (_ & _ & Hes).
    destruct es as [|e es]; [done|]. apply wp_bind.
    eapply wp_defined; [apply (seg_rep_head _ _ Hc)|]. by apply wp_ret.
Qed.
End Rep.
