(* ===== verification/MonoMapUpdate.v ===== *)
(** * Indexing an entry in a PersistentMonoMap

    [maybeIndex] appends an entry with a greater key and refuses others; when it
    fails, the disk holds the old contents or the old contents and the new entry,
    in the form recovery accepts. *)

From Stdlib Require Import String.
From S2P Require Import Prelude Ordered Os AppendOnlyFile Codec KeyValues Names MonoMap MonoMapLoad.
From S2P Require Import MonoMapRep.

Local Open Scope Z_scope.

Section Files.
Context {KV : Type} `{HKV : !MonoKeyValue KV} `{!MonoKeyValueLaws KV}.
Implicit Types (cur es : list KV) (rs pre post : list (Z * list KV)) (fs : gmap string (list Z)).

Abbreviation entry_size := (exactSerializedSize (KV := KV)).

Lemma rolled_files_name name rs fs c :
  rolled_files name rs fs -> rolled_files name rs (<[name := c]> fs).
Proof.
  intros H. eapply Forall_impl; [exact H|]. intros r Hr.
  rewrite lookup_insert_ne; [done|]. intros Heq. by apply (segmentLogPath_ne name r.1).
Qed.

Lemma rolled_files_delete_name name rs fs :
  rolled_files name rs fs -> rolled_files name rs (delete name fs).
Proof.
  intros H. eapply Forall_impl; [exact H|]. intros r Hr.
  rewrite lookup_delete_ne; [done|]. intros Heq. by apply (segmentLogPath_ne name r.1).
Qed.

Lemma rolled_files_insert name rs fs id c :
  u64 id -> Forall (fun r => 0 < r.1 < 2 ^ 64) rs -> Forall (fun r => r.1 <> id) rs ->
  rolled_files name rs fs -> rolled_files name rs (<[segmentLogPath name id := c]> fs).
Proof.
  intros Hid Hr Hne H. unfold rolled_files in *. rewrite !Forall_forall in *.
  intros r Hin. rewrite lookup_insert_ne; [by apply H|]. intros Heq.
  apply segmentLogPath_inj in Heq; [|done|].
  - by apply (Hne r Hin).
  - specialize (Hr r Hin). unfold u64. lia.
Qed.

Lemma tidy_name name rs fs c : tidy name rs fs -> tidy name rs (<[name := c]> fs).
Proof.
  intros H f Hf Hp. destruct (decide (f = name)) as [->|Hne]; [by left|].
  rewrite lookup_insert_ne in Hf by done. by apply H.
Qed.

Lemma tidy_delete name rs fs f : tidy name rs fs -> tidy name rs (delete f fs).
Proof.
  intros H f' [c Hf] Hp. apply lookup_delete_Some in Hf as [_ Hf]. apply H; [by exists c|done].
Qed.

Lemma tidy_insert name rs fs id c :
  tidy name rs fs -> id ∈ rs.*1 -> tidy name rs (<[segmentLogPath name id := c]> fs).
Proof.
  intros H Hid f Hf Hp. destruct (decide (f = segmentLogPath name id)) as [->|Hne].
  - right. by exists id.
  - rewrite lookup_insert_ne in Hf by done. by apply H.
Qed.

Lemma tidy_more name rs rs' fs : rs.*1 ⊆ rs'.*1 -> tidy name rs fs -> tidy name rs' fs.
Proof.
  intros Hsub H f Hf Hp. destruct (H f Hf Hp) as [?|(id & Hid & ?)]; [by left|]. right.
  exists id. split; [by apply Hsub|done].
Qed.

(** What recovery starts from: the rolled files, and the active log with a torn
    entry at its end, or no active log yet. *)
Record on_disk name rs cur (torn : list Z) fs : Prop := {
  od_wf : well_formed rs cur;
  od_rolled : rolled_files name rs fs;
  od_tidy : tidy name rs fs;
  od_torn : (length torn < entry_size)%nat;
  od_file : fs !! name = Some (encode cur ++ torn) \/ (fs !! name = None /\ cur = [] /\ torn = []);
}.

Lemma rep_on_disk name rs cur s :
  Rep name rs cur s -> on_disk name rs cur [] (w_files (ms_world s)).
Proof.
  intros [? ? ? ? Hf Hn ? ?]. split; try done; [apply kv_size_pos|]. left.
  destruct Hf as (_ & _ & Hf). by rewrite app_nil_r, <- Hn.
Qed.

(** ** Well-formedness *)

Lemma wf_snoc rs cur e :
  well_formed rs cur -> kv_valid e -> Forall (fun a => key a < key e) (contents rs cur) ->
  well_formed rs (cur ++ [e]).
Proof.
  intros [] He Hlt. split; try done.
  - unfold contents. rewrite app_assoc. apply Forall_app; split; [done|]. by constructor.
  - unfold contents in *. rewrite app_assoc. apply StronglySorted_app. split_and!; [|done|].
    + intros a b Ha Hb. apply list_elem_of_singleton in Hb as ->.
      rewrite Forall_forall in Hlt. by apply Hlt.
    + constructor; constructor.
Qed.

Lemma contents_roll rs id cur : contents (rs ++ [(id, cur)]) [] = contents rs cur.
Proof. rewrite contents_app. unfold contents. cbn. by rewrite !app_nil_r. Qed.

Lemma wf_roll rs cur id :
  well_formed rs cur -> cur <> [] -> 0 < id < 2 ^ 64 -> Forall (fun r => r.1 < id) rs ->
  well_formed (rs ++ [(id, cur)]) [].
Proof.
  intros [] Hne Hid Hlt. split.
  - unfold om_sorted. apply StronglySorted_app. split_and!; [|done|constructor; constructor].
    intros a b Ha Hb. apply list_elem_of_singleton in Hb as ->.
    rewrite Forall_forall in Hlt. by apply Hlt.
  - apply Forall_app; split; [done|]. by constructor.
  - apply Forall_app; split; [done|]. by constructor.
  - by rewrite contents_roll.
  - by rewrite contents_roll.
Qed.

(** ** Rolling *)

(** The id of the next rolled segment is greater than all others, as long as there
    is one. *)
Definition ids_left rs : Prop := Forall (fun r => r.1 < 2 ^ 64 - 1) rs.

(** At most one id more was given out. *)
Definition ids_after rs rs' : Prop :=
  forall K, 1 <= K -> Forall (fun r => r.1 < K) rs -> Forall (fun r => r.1 < K + 1) rs'.

Lemma ids_after_refl rs : ids_after rs rs.
Proof. intros K _ Hrs. eapply Forall_impl; [exact Hrs|]. cbn. lia. Qed.

Lemma nextSegmentID_spec name rs cur s :
  Rep name rs cur s -> ids_left rs ->
  let id := Mono.nextSegmentID (ms_map s) in
  0 < id < 2 ^ 64 /\ Forall (fun r => r.1 < id) rs /\ ids_after rs (rs ++ [(id, cur)]).
Proof.
  intros HR Hleft id.
  assert (Hcase : id = 1 /\ rs = [] \/ exists id0 es rs0, rs = rs0 ++ [(id0, es)] /\ id = id0 + 1).
  { subst id. unfold Mono.nextSegmentID. destruct rs as [|[id es] rs _] using rev_ind.
    - pose proof (rep_segs _ _ _ _ HR) as Hsegs. apply Forall2_nil_inv_r in Hsegs as ->. by left.
    - destruct (rep_split _ _ _ _ _ _ _ HR) as (spre & c & spost & -> & _ & _ & Hnil & _).
      apply Forall2_nil_inv_r in Hnil as ->. rewrite last_snoc. right. exists id, es, rs. split; [done|].
      apply Forall_app in Hleft as [_ [Hl _]%Forall_cons]. destruct (rep_wf _ _ _ _ HR) as [_ Hrange _ _ _].
      apply Forall_app in Hrange as [_ [Hr _]%Forall_cons]. cbn in Hl, Hr. unfold to_u64. rewrite Z.mod_small; lia. }
  destruct Hcase as [[-> ->]|(id0 & es & rs0 & -> & ->)].
  { split_and!; [lia|lia|constructor|]. intros K HK _. repeat constructor. cbn. lia. }
  destruct (rep_wf _ _ _ _ HR) as [Hids Hrange _ _ _]. apply om_sorted_middle in Hids as [Hlt _].
  apply Forall_app in Hleft as [_ [Hl _]%Forall_cons]. apply Forall_app in Hrange as [_ [Hr _]%Forall_cons].
  cbn in Hl, Hr. split_and!; [lia|lia| |].
  - apply Forall_app; split; [|constructor; [cbn; lia|constructor]]. eapply Forall_impl; [exact Hlt|]. cbn. lia.
  - intros K _ HK. apply Forall_app. split; [eapply Forall_impl; [exact HK|]; cbn; lia|].
    apply Forall_app in HK as [_ [HK _]%Forall_cons]. cbn in HK. repeat constructor. cbn. lia.
Qed.

Context (w0 : world) (name : string).
Implicit Types (s : mono_state KV).

(** The active log has become a rolled segment and there is no active log. *)
Definition rolled_disk rs cur id fs : gmap string (list Z) :=
  <[segmentLogPath name id := encode cur]> (delete name fs).

Lemma rolled_disk_files rs cur id fs :
  well_formed rs cur -> 0 < id < 2 ^ 64 -> Forall (fun r => r.1 < id) rs ->
  rolled_files name rs fs -> tidy name rs fs ->
  rolled_files name (rs ++ [(id, cur)]) (rolled_disk rs cur id fs) /\
  tidy name (rs ++ [(id, cur)]) (rolled_disk rs cur id fs) /\
  rolled_disk rs cur id fs !! name = None.
Proof.
  intros [] Hid Hlt Hrf Ht. assert (u64 id) by (unfold u64; lia). unfold rolled_disk. split_and!.
  - apply Forall_app; split; [|constructor; [apply lookup_insert_eq|constructor]].
    apply rolled_files_insert; [done|done| |by apply rolled_files_delete_name].
    eapply Forall_impl; [exact Hlt|]. cbn. lia.
  - apply tidy_insert; [apply tidy_delete|].
    + eapply tidy_more; [|exact Ht]. rewrite fmap_app. intros x Hx. apply elem_of_app. by left.
    + rewrite fmap_app. apply elem_of_app. right. by left.
  - rewrite lookup_insert_ne by apply segmentLogPath_ne. apply lookup_delete_eq.
Qed.

(** [roll]: the active segment becomes a rolled one and an empty one is opened.
    When it fails, no entry is lost on disk. *)
Lemma wp_roll rs cur s sync (Q : unit -> mono_state KV -> Prop) (E : fault -> mono_state KV -> Prop) :
  Rep name rs cur s -> evolves w0 (ms_world s) -> ids_left rs -> cur <> [] ->
  (forall id s', Rep name (rs ++ [(id, cur)]) [] s' -> ids_after rs (rs ++ [(id, cur)]) -> evolves w0 (ms_world s') ->
     log_size (ms_map s') = 0%nat -> max_size (ms_map s') = max_size (ms_map s) -> Q tt s') ->
  (forall x s' rs' cur', on_disk name rs' cur' [] (w_files (ms_world s')) ->
     contents rs' cur' = contents rs cur -> evolves w0 (ms_world s') -> ~ benign w0 -> E x s') ->
  wp (Mono.roll sync) Q E s.
Proof.
  intros HR Hev Hleft Hne HQ HE. unfold Mono.roll. apply wp_bind, wp_gets, wp_bind, wp_gets.
  destruct (nextSegmentID_spec _ _ _ _ HR Hleft) as (Hid & Hlt & Hafter).
  set (id := Mono.nextSegmentID (ms_map s)) in *.
  pose proof HR as [Hwf Hrf Ht Hl (Ho & Hro & Hf) Hn Hc Hsegs]. rewrite Hn.
  destruct (rolled_disk_files rs cur id _ Hwf Hid Hlt Hrf Ht) as (Hrf' & Ht' & Hnone).
  pose proof (wf_roll _ _ _ Hwf Hne Hid Hlt) as Hwf'.
  set (fs' := rolled_disk rs cur id (w_files (ms_world s))) in *.
  assert (Hod : forall x s', w_files (ms_world s') = fs' -> evolves w0 (ms_world s') ->
            ~ benign w0 -> E x s').
  { intros x s' Hfs' Hev' Hb. apply (HE x s' (rs ++ [(id, cur)]) []); [|apply contents_roll|done|done].
    rewrite Hfs'. split; try done; [apply kv_size_pos|]. right. done. }
  apply wp_bind, wp_zoom, wp_map_err. eapply (wp_renameTo w0); [done| |exact Hf|].
  { intros x w' Hev' Hfs' Hb; apply (HE _ _ rs cur); try done; cbn; rewrite Hfs';
      by apply rep_on_disk. }
  rewrite Hn. intros w1 Hev1 Hfs1. fold (rolled_disk rs cur id (w_files (ms_world s))) in Hfs1.
  fold fs' in Hfs1. apply wp_bind, wp_modify. cbn [ms_world ms_map]. apply wp_bind.
  assert (Hrest : forall w2, w_files w2 = fs' -> evolves w0 w2 -> forall f,
    wp (bind (Mono.put (fun m => Mono.set_log_size 0 (Mono.set_cache []
         (Mono.set_segments (om_emplace id (cache m) (seg_id_to_entry_offset_map m)) m))))
       (fun _ => bind (Mono.disk (File.open_or_create name))
       (fun f' => Mono.put (Mono.set_log_file f')))) Q E
       (MonoState w2 (Mono.set_log_file f (ms_map s)))).
  { intros w2 Hfs2 Hev2 f. apply wp_bind, wp_modify, wp_bind, wp_zoom.
    apply (wp_open_or_create w0); cbn [ms_world]; [done| |].
    { intros x w' ???. apply Hod; cbn; [congruence|done..]. }
    intros w3 Hev3 Hfs3. apply wp_modify. rewrite Hfs2, Hnone in Hfs3. cbn in Hfs3.
    apply (HQ id); [|done|done|done|done]. split; cbn; try done.
    - rewrite Hfs3. by apply rolled_files_name.
    - rewrite Hfs3. by apply tidy_name.
    - split_and!; [done..|]. cbn. rewrite Hfs3. apply lookup_insert_eq.
    - rewrite om_emplace_last.
      + apply Forall2_app; [done|]. constructor; [|constructor]. split; [done|]. by left.
      + apply Forall_fmap with (f := fst) (P := fun i => i < id).
        rewrite (seg_rep_ids _ _ Hsegs). by apply Forall_fmap. }
  destruct sync.
  - apply wp_zoom, wp_map_err. eapply (wp_sync w0); [done| |done|].
    + intros x w' ? Hfs' ?; cbn in Hfs'; (apply Hod; [cbn; congruence|done..]).
    + intros w2 Hev2 Hfs2. cbn in Hfs2. apply Hrest; [congruence|done].
  - apply wp_ret, Hrest; done.
Qed.

(** ** Appending *)

(** After a failed insertion of [e] the disk holds the old contents or those
    with [e]. *)
Definition crash_state rs cur e fs : Prop :=
  exists rs' cur' torn, on_disk name rs' cur' torn fs /\
    (contents rs' cur' = contents rs cur \/ contents rs' cur' = contents rs cur ++ [e]).

Lemma on_disk_append rs cur e n fs :
  well_formed rs cur -> kv_valid e -> Forall (fun a => key a < key e) (contents rs cur) ->
  rolled_files name rs fs -> tidy name rs fs ->
  crash_state rs cur e (<[name := encode cur ++ take n (kv_serialize e)]> fs).
Proof.
  intros Hwf He Hlt Hrf Ht. destruct (decide (n < entry_size)%nat).
  - exists rs, cur, (take n (kv_serialize e)). split; [|by left]. split; try done.
    + by apply rolled_files_name.
    + by apply tidy_name.
    + rewrite length_take. lia.
    + left. apply lookup_insert_eq.
  - exists rs, (cur ++ [e]), []. split; [|right; apply app_assoc]. split.
    + by apply wf_snoc.
    + by apply rolled_files_name.
    + by apply tidy_name.
    + apply kv_size_pos.
    + left. rewrite lookup_insert_eq, take_ge by (rewrite kv_serialize_length; lia).
      by rewrite encode_app, encode_cons, !app_nil_r.
Qed.

Lemma wp_append_entry rs cur s e sync
    (Q : bool -> mono_state KV -> Prop) (E : fault -> mono_state KV -> Prop) :
  Rep name rs cur s -> rep_size cur s -> evolves w0 (ms_world s) ->
  kv_valid e -> Forall (fun a => key a < key e) (contents rs cur) ->
  (forall s', Rep name rs (cur ++ [e]) s' -> rep_size (cur ++ [e]) s' ->
     evolves w0 (ms_world s') -> Q true s') ->
  (forall x s', crash_state rs cur e (w_files (ms_world s')) -> evolves w0 (ms_world s') ->
     ~ benign w0 -> E x s') ->
  wp (Mono.append_entry e sync) Q E s.
Proof.
  intros HR Hsz Hev He Hlt HQ HE. pose proof HR as [Hwf Hrf Ht Hl (Ho & Hro & Hf) Hn Hc Hsegs].
  unfold Mono.append_entry. apply wp_bind, wp_gets, wp_bind, wp_zoom.
  eapply (wp_append w0); [done|by split_and!|]. intros n err w1 Hev1 Hb Hle Hfull Hfs1.
  rewrite Hn in Hfs1. pose proof (on_disk_append rs cur e n _ Hwf He Hlt Hrf Ht) as Hcrash.
  rewrite <- Hfs1 in Hcrash. cbn [snd]. case_bool_decide as Herr.
  2: { apply wp_fail, HE; [done|done|by apply Hb]. }
  rewrite (Hfull Herr), firstn_all in Hfs1. apply wp_bind, wp_gets, wp_bind. cbn [ms_map].
  assert (Hlast : forall w2, w_files w2 = w_files w1 -> evolves w0 w2 ->
    wp (bind (Mono.put (fun m => Mono.set_log_size (log_size (ms_map s) + length (kv_serialize e))
          (Mono.set_cache (cache m ++ [KVO e (log_size (ms_map s))]) m))) (fun _ => ret true)) Q E
       (MonoState w2 (ms_map s))).
  { intros w2 Hfs2 Hev2. apply wp_bind, wp_modify, wp_ret, HQ; [|..|done].
    - rewrite Hfs1 in Hfs2. split; cbn; try done.
      + by apply wf_snoc.
      + rewrite Hfs2. by apply rolled_files_name.
      + rewrite Hfs2. by apply tidy_name.
      + split_and!; [done..|]. cbn. rewrite Hn, Hfs2, lookup_insert_eq, encode_app.
        by rewrite encode_cons, app_nil_r.
      + by rewrite at_offsets_app_0, Hc, Hsz.
    - unfold rep_size. cbn. rewrite Hsz, kv_serialize_length, length_app. cbn. lia. }
  destruct sync.
  - apply wp_zoom, wp_map_err. eapply (wp_syncTail w0); [done| |done|].
    + intros x w' ? Hfs' ?; cbn in Hfs'; (apply HE; [cbn; by rewrite Hfs'|done..]).
    + intros w2 Hev2 Hfs2. by apply Hlast.
  - by apply wp_ret, Hlast.
Qed.

Context (dir_exists is_directory : bool) (listing : gmap string (list Z) -> list string).

(** Whether [e] can be told from the active segment alone to come last. *)
Definition can_index rs cur e : Prop :=
  cur <> [] \/ Forall (fun a => key a < key e) (contents rs cur).

Lemma last_increasing rs cur b e :
  increasing (contents rs cur) -> last cur = Some b -> key b < key e ->
  Forall (fun a => key a < key e) (contents rs cur).
Proof.
  intros Hs Hb Hlt. apply last_Some in Hb as [l ->]. unfold contents in *.
  rewrite app_assoc in *. apply Forall_app; split; [|by constructor].
  apply (sorted_by_before key _ b []); [done|lia].
Qed.

Lemma wp_maybeIndex rs cur s e sync
    (Q : bool -> mono_state KV -> Prop) (E : fault -> mono_state KV -> Prop) :
  Rep name rs cur s -> rep_size cur s -> evolves w0 (ms_world s) ->
  kv_valid e -> ids_left rs -> (0 < max_size (ms_map s))%nat -> can_index rs cur e ->
  (forall s', Forall (fun a => key a < key e) (contents rs cur) ->
     (exists rs' cur', Rep name rs' cur' s' /\ rep_size cur' s' /\ cur' <> [] /\
        contents rs' cur' = contents rs cur ++ [e] /\ ids_after rs rs') ->
     evolves w0 (ms_world s') -> Q true s') ->
  (Exists (fun a => key e <= key a) (contents rs cur) -> Q false s) ->
  (forall x s', crash_state rs cur e (w_files (ms_world s')) -> evolves w0 (ms_world s') ->
     ~ benign w0 -> E x s') ->
  wp (Mono.maybeIndex dir_exists is_directory listing e sync) Q E s.
Proof.
  intros HR Hsz Hev He Hleft Hmax Hcan HQ HQf HE. unfold Mono.maybeIndex.
  apply wp_bind. eapply wp_ensure_loaded; [done|]. apply wp_bind, wp_gets.
  rewrite (rep_cache _ _ _ _ HR). pose proof (last_at_offsets 0 cur) as Hlast.
  assert (Hgo : Forall (fun a => key a < key e) (contents rs cur) ->
    wp (bind (Mono.get log_size) (fun sz => bind (Mono.get max_size) (fun mx =>
        bind (if (mx <=? sz)%nat then Mono.roll sync else ret tt)
          (fun _ => Mono.append_entry e sync)))) Q E s).
  { intros Hlt. apply wp_bind, wp_gets, wp_bind, wp_gets, wp_bind.
    destruct (Nat.leb_spec (max_size (ms_map s)) (log_size (ms_map s))).
    - assert (cur <> []) by (intros ->; unfold rep_size in Hsz; cbn in Hsz; lia).
      eapply wp_roll; [done..| |].
      + intros id s1 HR1 Haf1 Hev1 Hsz1 Hmax1. rewrite <- (contents_roll rs id cur) in Hlt.
        eapply wp_append_entry; [done|done|done|done|done| |].
        * intros s2 HR2 Hsz2 Hev2. apply HQ; [by rewrite <- (contents_roll rs id cur)| |done].
          exists (rs ++ [(id, cur)]), [e]. split_and!; try done.
          rewrite <- (contents_roll rs id cur). unfold contents. by rewrite app_nil_r.
        * intros x s2 Hcr. apply HE. unfold crash_state in *. by rewrite contents_roll in Hcr.
      + intros x s' rs' cur' Hod Hc ? ?. apply HE; [|done..]. exists rs', cur', []. auto.
    - apply wp_ret. eapply wp_append_entry; [done..| |exact HE].
      intros s2 HR2 Hsz2 Hev2. apply HQ; [done| |done]. exists rs, (cur ++ [e]).
      split_and!; try done; [by destruct cur|apply app_assoc|apply ids_after_refl]. }
  destruct (last (at_offsets 0 cur)) as [b|]; cbn in Hlast |- *; symmetry in Hlast.
  - assert (Hin : entry b ∈ contents rs cur).
    { apply elem_of_app. right. apply last_Some in Hlast as [l ->]. apply elem_of_app. right. by left. }
    destruct (kv_ltb e (entry b)) eqn:Hlt.
    { apply wp_ret, HQf, Exists_exists. exists (entry b). split; [done|].
      apply kv_ltb_lex in Hlt. lia. }
    destruct (Z.ltb_spec (key (entry b)) (key e)); cbn.
    + apply Hgo. eapply last_increasing; [apply HR|done|done].
    + apply wp_ret, HQf, Exists_exists. by exists (entry b).
  - apply last_None in Hlast. apply Hgo. by destruct Hcan.
Qed.
End Files.

Section Cases.
Context {KV : Type} `{HKV : !MonoKeyValue KV} `{!MonoKeyValueLaws KV}.
Implicit Types (cur : list KV) (rs : list (Z * list KV)) (s : mono_state KV).
Context (dir_exists is_directory : bool) (listing : gmap string (list Z) -> list string).

(** The three ways [maybeIndex] can end. *)
Lemma maybeIndex_cases name rs cur s e sync :
  Rep name rs cur s -> rep_size cur s -> kv_valid e -> ids_left rs ->
  (0 < max_size (ms_map s))%nat -> can_index rs cur e ->
  exists r s', Mono.maybeIndex dir_exists is_directory listing e sync s = (r, s') /\
    ((r = Ok true /\ Forall (fun a => key a < key e) (contents rs cur) /\
      exists rs' cur', Rep name rs' cur' s' /\ rep_size cur' s' /\ cur' <> [] /\
        contents rs' cur' = contents rs cur ++ [e]) \/
     (r = Ok false /\ Exists (fun a => key e <= key a) (contents rs cur) /\ s' = s) \/
     (faulted r /\ ~ benign (ms_world s) /\ crash_state name rs cur e (w_files (ms_world s')))).
Proof.
  intros HR Hsz He Hleft Hmax Hcan.
  destruct (wp_outcome (Mono.maybeIndex dir_exists is_directory listing e sync)
    (fun b s' => (b = true /\ Forall (fun a => key a < key e) (contents rs cur) /\
        exists rs' cur', Rep name rs' cur' s' /\ rep_size cur' s' /\ cur' <> [] /\
          contents rs' cur' = contents rs cur ++ [e]) \/
      (b = false /\ Exists (fun a => key e <= key a) (contents rs cur) /\ s' = s))
    (fun _ s' => crash_state name rs cur e (w_files (ms_world s')) /\ ~ benign (ms_world s)) s)
    as (r & s' & Hrun & Hcase).
  - eapply (wp_maybeIndex (ms_world s)); [done|done|reflexivity|done..| | |].
    + intros s' Hlt (rs' & cur' & ? & ? & ? & ? & _) _. left. eauto 10.
    + intros Hex. right. auto.
    + auto.
  - exists r, s'. split; [done|].
    destruct Hcase as [(b & -> & [(-> & H)|(-> & H)])|(Hf & _ & Hc & Hb)]; [left|right; left|right; right];
      auto.
Qed.
End Cases.
