(* ===== verification/MonoMapRecover.v ===== *)
(** * Recovery of a PersistentMonoMap

    From every disk state an interrupted insertion can leave, a fresh map recovers
    the entries that were completely written, whatever the order in which the
    directory is listed. *)

From Stdlib Require Import Ascii String.
From S2P Require Import Prelude Ordered Os AppendOnlyFile Codec KeyValues Names MonoMap MonoMapLoad.
From S2P Require Import MonoMapRep MonoMapUpdate.

Local Open Scope Z_scope.

Lemma prefix_app a b : String.prefix a (a +:+ b) = true.
Proof.
  induction a as [|c a IH]; [by destruct b|].
  change (String c a +:+ b) with (String c (a +:+ b)). cbn [String.prefix].
  by destruct (ascii_dec c c).
Qed.

Lemma string_app_nil a : a +:+ EmptyString = a.
Proof. apply list_ascii_inj. rewrite list_ascii_app. cbn. by rewrite app_nil_r. Qed.

Lemma prefix_refl a : String.prefix a a = true.
Proof. rewrite <- (string_app_nil a) at 2. apply prefix_app. Qed.

Lemma length_list_ascii a : List.length (list_ascii_of_string a) = String.length a.
Proof. induction a as [|c a IH]; cbn; [done|]. by rewrite IH. Qed.

(** The id is read back from the path of a rolled segment. *)
Lemma segment_id_of_path name id :
  u64 id ->
  from_chars_u64 (drop (String.length name + 1) (list_ascii_of_string (segmentLogPath name id)))
  = Some id.
Proof.
  intros Hid. rewrite segment_path_chars, <- length_list_ascii.
  rewrite drop_app_add. cbn. by apply from_chars_show.
Qed.

Lemma om_emplace_middle {V} (pre post : list (Z * V)) k v :
  Forall (fun e => e.1 < k) pre -> Forall (fun e => k < e.1) post ->
  om_emplace k v (pre ++ post) = pre ++ (k, v) :: post.
Proof.
  intros Hpre Hpost. induction Hpre as [|[k' v'] pre Hlt _ IH]; cbn in *.
  - destruct Hpost as [|[k' v'] post Hlt _]; cbn in *; [done|].
    by rewrite (proj2 (Z.ltb_lt _ _)).
  - rewrite (proj2 (Z.ltb_ge _ _)), (proj2 (Z.eqb_neq _ _)) by lia. by rewrite IH.
Qed.

(** What the documentation of a directory iterator promises: every file once, in
    any order. *)
Definition lists_directory (name : string) (listing : gmap string (list Z) -> list string) : Prop :=
  forall fs, NoDup (listing fs) /\
    forall f, String.prefix name f = true -> (f ∈ listing fs <-> is_Some (fs !! f)).

Section Recover.
Context {KV : Type} `{HKV : !MonoKeyValue KV} `{!MonoKeyValueLaws KV}.
Implicit Types (cur es : list KV) (rs pre post : list (Z * list KV)) (s : mono_state KV).

Abbreviation entry_size := (exactSerializedSize (KV := KV)).

Context (w0 : world) (name : string) (rs : list (Z * list KV)) (cur : list KV) (torn : list Z)
  (fs : gmap string (list Z)).
Context (Hod : on_disk name rs cur torn fs) (Hfile : fs !! name = Some (encode cur ++ torn)).

(** The rolled segments seen so far, with their first entries. *)
Definition first_only (r : Z * list KV) : Z * list (KeyValueWithLogOffset KV) :=
  (r.1, take 1 (at_offsets 0 r.2)).
Definition seen (files : list string) rs : list (Z * list (KeyValueWithLogOffset KV)) :=
  first_only <$> filter (fun r => segmentLogPath name r.1 ∈ files) rs.

Record recovering (files : list string) s : Prop := {
  rv_files : w_files (ms_world s) = if decide (name ∈ files) then <[name := encode cur]> fs else fs;
  rv_evolves : evolves w0 (ms_world s);
  rv_log : log_file (ms_map s) = mkAppendOnlyFile name false true;
  rv_segs : seg_id_to_entry_offset_map (ms_map s) = seen files rs;
  rv_cache : cache (ms_map s) = if decide (name ∈ files) then at_offsets 0 cur else [];
  rv_loaded : current_log_seg_loaded (ms_map s) = bool_decide (name ∈ files);
  rv_size : name ∈ files -> log_size (ms_map s) = (length cur * entry_size)%nat;
}.

Lemma seen_app files f rs' :
  (forall r, r ∈ rs' -> segmentLogPath name r.1 <> f) -> seen (files ++ [f]) rs' = seen files rs'.
Proof.
  intros Hne. unfold seen. f_equal. apply filter_ext_in.
  intros r Hr. rewrite elem_of_app, list_elem_of_singleton. specialize (Hne r Hr). tauto.
Qed.

Lemma rolled_path pre id es post :
  rs = pre ++ (id, es) :: post ->
  u64 id /\ (forall r, r ∈ pre ++ post -> segmentLogPath name r.1 <> segmentLogPath name id) /\
  fs !! segmentLogPath name id = Some (encode es).
Proof.
  intros Hrs. destruct Hod as [[Hids Hrange _ _ _] Hrf _ _ _]. rewrite Hrs in Hids, Hrange, Hrf.
  assert (Hu : forall r, r ∈ pre ++ (id, es) :: post -> u64 r.1).
  { rewrite Forall_forall in Hrange. intros r Hr. specialize (Hrange r Hr). unfold u64. lia. }
  split_and!.
  - apply (Hu (id, es)). apply elem_of_app. right. by left.
  - intros r Hr Heq. apply om_sorted_middle in Hids as [Hlt Hgt]. rewrite !Forall_forall in Hlt, Hgt.
    apply segmentLogPath_inj in Heq.
    + apply elem_of_app in Hr as [Hr|Hr]; [specialize (Hlt r Hr)|specialize (Hgt r Hr)]; lia.
    + apply Hu, elem_of_app. apply elem_of_app in Hr as [?|?]; [by left|right; by right].
    + apply (Hu (id, es)), elem_of_app. right. by left.
  - by apply Forall_app in Hrf as [_ [? _]%Forall_cons].
Qed.

Lemma seen_emplace files pre id es post :
  rs = pre ++ (id, es) :: post -> segmentLogPath name id ∉ files ->
  om_emplace id (take 1 (at_offsets 0 es)) (seen files rs)
  = seen (files ++ [segmentLogPath name id]) rs.
Proof.
  intros Hrs Hnot. destruct (rolled_path _ _ _ _ Hrs) as (_ & Hne & _).
  destruct Hod as [[Hids _ _ _ _] _ _ _ _]. rewrite Hrs in Hids |- *.
  apply om_sorted_middle in Hids as [Hlt Hgt].
  assert (Happ : forall l l1 l2, seen l (l1 ++ l2) = seen l l1 ++ seen l l2).
  { intros. unfold seen. by rewrite filter_app, fmap_app. }
  assert (Hcons : forall l r l2, seen l (r :: l2) = seen l [r] ++ seen l l2).
  { intros l r l2. apply (Happ l [r] l2). }
  assert (Hone : seen files [(id, es)] = []).
  { unfold seen. rewrite filter_cons_False by done. done. }
  assert (Hone' : seen (files ++ [segmentLogPath name id]) [(id, es)]
                  = [(id, take 1 (at_offsets 0 es))]).
  { unfold seen. rewrite filter_cons_True; [done|]. apply elem_of_app. right. by left. }
  rewrite !Happ, !(Hcons _ _ post), Hone, Hone'. cbn.
  rewrite om_emplace_middle; [f_equal; [|f_equal]|..].
  - symmetry. apply seen_app. intros r Hr. apply Hne, elem_of_app. by left.
  - symmetry. apply seen_app. intros r Hr. apply Hne, elem_of_app. by right.
  - apply Forall_fmap, Forall_filter. exact Hlt.
  - apply Forall_fmap, Forall_filter. exact Hgt.
Qed.

(** One rolled segment of the directory. *)
Lemma wp_loadRolledLogSegment files s pre id es post
    (Q : unit -> mono_state KV -> Prop) (E : fault -> mono_state KV -> Prop) :
  recovering files s -> rs = pre ++ (id, es) :: post -> segmentLogPath name id ∉ files ->
  (forall s', recovering (files ++ [segmentLogPath name id]) s' ->
     max_size (ms_map s') = max_size (ms_map s) -> Q tt s') ->
  (forall x s', ~ benign w0 -> E x s') ->
  wp (Mono.loadRolledLogSegment (segmentLogPath name id)) Q E s.
Proof.
  intros [Hfs Hev Hlog Hsegs Hcache Hloaded Hsize] Hrs Hnot HQ HE.
  destruct (rolled_path _ _ _ _ Hrs) as (Hid & Hne & Hf).
  destruct (Hod) as [Hwf _ _ _ _]. rewrite Hrs in Hwf.
  destruct (wf_segment _ _ _ _ _ Hwf) as (Hv & _ & Hnil). destruct es as [|e es]; [done|].
  assert (0 < id) by (destruct Hwf as [_ Hr _ _ _]; apply Forall_app in Hr as [_ [? _]%Forall_cons];
                      cbn in *; lia).
  assert (Hf' : w_files (ms_world s) !! segmentLogPath name id = Some (encode (e :: es))).
  { rewrite Hfs. destruct (decide _); [|done]. rewrite lookup_insert_ne; [done|].
    intros Heq. by apply (segmentLogPath_ne name id). }
  unfold Mono.loadRolledLogSegment. apply wp_bind, wp_gets. rewrite Hlog. cbn [filename].
  rewrite (segment_id_of_path name id Hid), (proj2 (Z.eqb_neq _ _)) by lia.
  apply wp_bind, wp_zoom. eapply (wp_open_as w0); [done|intros ????; apply HE|done|].
  intros w1 Hev1 Hfs1. apply wp_bind, wp_zoom, wp_map_err. cbn [ms_world ms_map].
  eapply (wp_size w0); [done|intros x ????; by apply HE|split; [done|cbn; by rewrite Hfs1]|].
  intros w2 Hev2 Hfs2. rewrite length_encode. cbn [length].
  destruct (Nat.ltb_spec (S (length es) * entry_size) entry_size); [lia|].
  apply wp_bind, wp_zoom, wp_map_err. cbn [ms_world ms_map].
  eapply (wp_read w0);
    [done|intros x ????; by apply HE|split; [done|cbn; by rewrite Hfs2, Hfs1]|].
  intros w3 Hev3 Hfs3. rewrite drop_0, encode_cons.
  assert (Htk : take entry_size (kv_serialize e ++ encode es) = kv_serialize e).
  { rewrite take_app_le, take_ge; by rewrite ?kv_serialize_length. }
  rewrite Htk, kv_serialize_length, Nat.sub_diag. apply Forall_cons in Hv as [He _].
  rewrite (kv_reads e He). apply wp_modify, HQ; [|done]. cbn [ms_world ms_map].
  assert (Hin : name ∈ files ++ [segmentLogPath name id] <-> name ∈ files).
  { rewrite elem_of_app, list_elem_of_singleton. pose proof (segmentLogPath_ne name id).
    split; [|by left]. intros [?|?]; [done|congruence]. }
  split; cbn.
  - rewrite Hfs3, Hfs2, Hfs1, Hfs. by destruct (decide _), (decide _); tauto || done.
  - done.
  - done.
  - rewrite Hsegs, <- (seen_emplace files pre id (e :: es) post Hrs Hnot). done.
  - rewrite Hcache. by destruct (decide _), (decide _); tauto || done.
  - rewrite Hloaded. apply bool_decide_ext. by rewrite Hin.
  - rewrite Hin. done.
Qed.

(** The active log. *)
Lemma wp_load_active files s (Q : unit -> mono_state KV -> Prop) (E : fault -> mono_state KV -> Prop) :
  recovering files s -> name ∉ files ->
  (forall s', recovering (files ++ [name]) s' -> max_size (ms_map s') = max_size (ms_map s) -> Q tt s') ->
  (forall x s', ~ benign w0 -> E x s') ->
  wp (bind (zoom (fun s => (ms_world s, cache (ms_map s)))
             (fun sc s => MonoState sc.1 (Mono.set_cache sc.2 (ms_map s)))
             (Mono.loadLogSegment (mkAppendOnlyFile name false true)))
        (fun bytes => Mono.put (fun m => Mono.set_loaded true (Mono.set_log_size bytes m)))) Q E s.
Proof.
  intros [Hfs Hev Hlog Hsegs Hcache Hloaded Hsize] Hnot HQ HE.
  rewrite decide_False in Hfs by done. rewrite decide_False in Hcache by done.
  destruct (Hod) as [[_ _ _ Hv Hs] _ _ Htorn _].
  apply wp_bind, wp_zoom. rewrite Hcache.
  apply (wp_loadLogSegment w0 _ _ cur torn); [done| |done| | | |].
  - split; [done|]. cbn. by rewrite Hfs.
  - by apply Forall_app in Hv as [_ ?].
  - by apply increasing_app in Hs as [_ ?].
  - cbn. intros. by apply HE.
  - cbn. intros w1 Hev1 Hfs1. apply wp_modify, HQ; [|done].
    assert (Hin : name ∈ files ++ [name]) by (apply elem_of_app; right; by left).
    split; cbn.
    + rewrite decide_True by done. congruence.
    + done.
    + done.
    + rewrite Hsegs. symmetry. apply seen_app. intros r _. apply segmentLogPath_ne.
    + by rewrite decide_True by done.
    + symmetry. by apply bool_decide_eq_true_2.
    + done.
Qed.

Context (listing : gmap string (list Z) -> list string) (Hdir : lists_directory name listing).

Lemma listed_file f :
  f ∈ listing fs -> String.prefix name f = true ->
  f = name \/ exists pre id es post, rs = pre ++ (id, es) :: post /\ f = segmentLogPath name id.
Proof.
  intros Hf Hp. apply Hdir in Hf; [|done]. destruct (od_tidy _ _ _ _ _ Hod f Hf Hp) as [?|(id & Hid & ->)].
  - by left.
  - right. apply list_elem_of_fmap in Hid as ([id' es] & -> & Hin).
    apply list_elem_of_split in Hin as (pre & post & Hrs). by exists pre, id', es, post.
Qed.

Lemma wp_recover_files done_ todo s
    (Q : unit -> mono_state KV -> Prop) (E : fault -> mono_state KV -> Prop) :
  recovering done_ s -> done_ ++ todo = listing fs ->
  (forall s', recovering (listing fs) s' -> max_size (ms_map s') = max_size (ms_map s) -> Q tt s') ->
  (forall x s', ~ benign w0 -> E x s') ->
  wp (Mono.recover_files todo) Q E s.
Proof.
  intros Hrv Hall. destruct (Hdir fs) as [Hnd Hiff]. revert done_ s Hrv Hall.
  induction todo as [|f todo IH]; intros done_ s Hrv Hall HQ HE; cbn [Mono.recover_files].
  { rewrite app_nil_r in Hall. subst. by apply wp_ret, HQ. }
  assert (Hin : f ∈ listing fs) by (rewrite <- Hall; apply elem_of_app; right; by left).
  assert (Hnot : f ∉ done_).
  { rewrite <- Hall in Hnd. apply NoDup_app in Hnd as (_ & Hnd & _). intros Hd.
    apply (Hnd f Hd). by left. }
  assert (Hnext : forall s', recovering (done_ ++ [f]) s' ->
    max_size (ms_map s') = max_size (ms_map s) -> wp (Mono.recover_files todo) Q E s').
  { intros s' Hrv' Hmax. apply (IH (done_ ++ [f])); [done|by rewrite <- app_assoc| |done].
    intros s'' ? Hmax'. apply HQ; [done|congruence]. }
  apply wp_bind, wp_gets. rewrite (rv_log _ _ Hrv). cbn [filename].
  destruct (String.prefix name f) eqn:Hp.
  - apply wp_bind. destruct (listed_file f Hin Hp) as [->|(pre & id & es & post & Hrs & ->)].
    + rewrite bool_decide_eq_true_2 by done. by eapply wp_load_active.
    + rewrite bool_decide_eq_false_2 by apply segmentLogPath_ne.
      by eapply wp_loadRolledLogSegment.
  - apply Hnext; [|done]. assert (Hn : name <> f) by (intros <-; by rewrite prefix_refl in Hp).
    assert (Hi : name ∈ done_ ++ [f] <-> name ∈ done_).
    { rewrite elem_of_app, list_elem_of_singleton. tauto. }
    destruct Hrv as [Hfs Hev Hlog Hsegs Hcache Hloaded Hsize]. split; try done.
    + rewrite Hfs. by destruct (decide _), (decide _); tauto || done.
    + rewrite Hsegs. symmetry. apply seen_app. intros r _ Heq. rewrite <- Heq in Hp.
      unfold segmentLogPath in Hp. by rewrite prefix_app in Hp.
    + rewrite Hcache. by destruct (decide _), (decide _); tauto || done.
    + rewrite Hloaded. apply bool_decide_ext. by rewrite Hi.
    + by rewrite Hi.
Qed.

Lemma wp_validate s segs rs' (Q : unit -> mono_state KV -> Prop) E :
  Forall2 seg_rep segs rs' -> well_formed rs' cur -> Q tt s -> wp (Mono.validate segs) Q E s.
Proof.
  intros H2 Hwf HQ. revert Hwf. induction H2 as [|sc1 [id1 es1] segs rs' Hc1 H2 IH]; intros Hwf; [done|].
  destruct sc1 as [id1' c1]. destruct H2 as [|[id2' c2] [id2 es2] segs rs' Hc2 H2]; [done|].
  pose proof (wf_segment [] _ _ _ _ Hwf) as (_ & _ & Hn1).
  pose proof (wf_segment [(id1, es1)] _ _ _ _ Hwf) as (_ & _ & Hn2).
  destruct es1 as [|e1 es1]; [done|]. destruct es2 as [|e2 es2]; [done|].
  cbn [Mono.validate]. apply wp_bind. eapply wp_defined; [apply (seg_rep_head _ _ Hc1)|].
  apply wp_bind. eapply wp_defined; [apply (seg_rep_head _ _ Hc2)|]. cbn [entry].
  assert (Hlt : key e1 < key e2).
  { pose proof (wf_increasing _ _ Hwf) as Hs. unfold increasing, contents in Hs. cbn in Hs.
    apply StronglySorted_cons in Hs as [Hs _]. rewrite Forall_forall in Hs. apply Hs.
    rewrite !elem_of_app. left. right. by left. }
  rewrite (proj2 (kv_ltb_lex e1 e2)) by lia. cbn [negb]. apply IH.
  destruct Hwf as [Hids Hr Hne Hv Hs]. split.
  - by apply StronglySorted_cons in Hids as [_ ?].
  - by apply Forall_cons in Hr as [_ ?].
  - by apply Forall_cons in Hne as [_ ?].
  - apply (Forall_app _ (e1 :: es1)). unfold contents in Hv |- *. cbn in Hv.
    rewrite <- app_assoc in Hv. exact Hv.
  - apply (increasing_app (e1 :: es1)). unfold contents in Hs |- *. cbn in Hs.
    rewrite <- app_assoc in Hs. exact Hs.
Qed.

(** A map just constructed over [fs]. *)
Record fresh s : Prop := {
  fr_files : w_files (ms_world s) = fs;
  fr_log : log_file (ms_map s) = mkAppendOnlyFile name false true;
  fr_segs : seg_id_to_entry_offset_map (ms_map s) = [];
  fr_cache : cache (ms_map s) = [];
  fr_loaded : current_log_seg_loaded (ms_map s) = false;
}.

Lemma wp_recover s (Q : unit -> mono_state KV -> Prop) (E : fault -> mono_state KV -> Prop) :
  fresh s -> evolves w0 (ms_world s) ->
  (forall s', Rep name rs cur s' -> rep_size cur s' -> evolves w0 (ms_world s') ->
     max_size (ms_map s') = max_size (ms_map s) -> Q tt s') ->
  (forall x s', ~ benign w0 -> E x s') ->
  wp (Mono.recover true true listing) Q E s.
Proof.
  intros [Hfs Hlog Hsegs Hcache Hloaded] Hev HQ HE. unfold Mono.recover. cbn [negb].
  apply wp_bind, wp_gets, wp_bind. rewrite Hfs. destruct (Hdir fs) as [_ Hiff].
  apply (wp_recover_files [] _ s); [|done| |done].
  { split; try done.
    - rewrite Hsegs. unfold seen. rewrite filter_none; [done|]. apply Forall_forall.
      intros r _. apply not_elem_of_nil.
    - intros Hin. by apply not_elem_of_nil in Hin. }
  intros s' [Hfs' Hev' Hlog' Hsegs' Hcache' Hloaded' Hsize'] Hmax.
  assert (Hin : name ∈ listing fs) by (apply Hiff; [apply prefix_refl|by exists (encode cur ++ torn)]).
  rewrite decide_True in Hfs' by done. rewrite decide_True in Hcache' by done.
  assert (Hrep : Forall2 seg_rep (seg_id_to_entry_offset_map (ms_map s')) rs).
  { rewrite Hsegs'. unfold seen. rewrite filter_all.
    - clear. induction rs as [|r l IH]; cbn; constructor; [|done]. split; [done|]. by right.
    - pose proof (od_rolled _ _ _ _ _ Hod) as Hrf. eapply Forall_impl; [exact Hrf|].
      cbn. intros r Hr. apply Hiff; [apply prefix_app|by exists (encode r.2)]. }
  apply wp_bind, wp_gets. eapply wp_validate; [done|apply Hod|]. apply HQ; [|by apply Hsize'|done|done].
  destruct (Hod) as [Hwf Hrf Ht _ _]. split; try done.
  - rewrite Hfs'. by apply rolled_files_name.
  - rewrite Hfs'. by apply tidy_name.
  - rewrite Hloaded'. by apply bool_decide_eq_true_2.
  - rewrite Hlog'. split_and!; [done..|]. cbn. rewrite Hfs'. apply lookup_insert_eq.
  - by rewrite Hlog'.
Qed.
End Recover.

Section Reopen.
Context {KV : Type} `{HKV : !MonoKeyValue KV} `{!MonoKeyValueLaws KV}.
Implicit Types (cur : list KV) (rs : list (Z * list KV)) (s : mono_state KV).
Context (name : string) (listing : gmap string (list Z) -> list string)
  (Hdir : lists_directory name listing).

(** Opening the log creates it when it is missing; the rest of the disk stays. *)
Lemma wp_create rs cur torn w (max : nat) (Q : PersistentMonoMap KV -> world -> Prop)
    (E : fault -> world -> Prop) :
  on_disk name rs cur torn (w_files w) ->
  (forall m w', evolves w w' -> max_size m = max ->
     on_disk name rs cur torn (w_files w') ->
     w_files w' !! name = Some (encode cur ++ torn) ->
     fresh name (w_files w') (MonoState w' m) -> Q m w') ->
  (forall x w', ~ benign w -> E x w') ->
  wp (Mono.create name max) Q E w.
Proof.
  intros Hod HQ HE. apply wp_bind. apply (wp_open_or_create w); [done|intros ?????; by apply HE|].
  intros w' Hev Hfs. apply wp_ret. destruct Hod as [Hwf Hrf Ht Htorn Hfile].
  assert (Hname : w_files w' !! name = Some (encode cur ++ torn)).
  { rewrite Hfs, lookup_insert_eq. destruct Hfile as [->|(-> & -> & ->)]; done. }
  apply HQ; [done|done| |done|by split]. split; try done; [..|by left].
  - rewrite Hfs. by apply rolled_files_name.
  - rewrite Hfs. by apply tidy_name.
Qed.

(** Reopening a map: construct it and recover. *)
Definition reopen (max : nat) : M world (mono_state KV) :=
  bind (Mono.create name max) (fun m => fun w =>
    match Mono.recover true true listing (MonoState w m) with
    | (Ok _, s) => (Ok s, ms_world s)
    | (Err e, s) => (Err e, ms_world s)
    | (Exn e, s) => (Exn e, ms_world s)
    | (Undef, s) => (Undef, ms_world s)
    end).

Lemma wp_reopen rs cur torn w max (Q : mono_state KV -> world -> Prop) (E : fault -> world -> Prop) :
  on_disk name rs cur torn (w_files w) ->
  (forall s, Rep name rs cur s -> rep_size cur s -> max_size (ms_map s) = max -> Q s (ms_world s)) ->
  (forall x w', ~ benign w -> E x w') ->
  wp (reopen max) Q E w.
Proof.
  intros Hod HQ HE. apply wp_bind. eapply wp_create; [done| |done].
  intros m w1 Hev1 Hmax Hod1 Hfile Hfresh.
  assert (Hrec : wp (Mono.recover true true listing)
    (fun _ s' => Rep name rs cur s' /\ rep_size cur s' /\ max_size (ms_map s') = max_size m)
    (fun _ _ => ~ benign w) (MonoState w1 m)).
  { eapply (wp_recover w name rs cur torn); [done|done|done|done|done| |]; auto. }
  unfold wp in Hrec |- *. destruct (Mono.recover true true listing (MonoState w1 m)) as [[u|x|x|] s'].
  - destruct Hrec as (? & ? & ?). apply HQ; [done|done|congruence].
  - by apply HE.
  - by apply HE.
  - done.
Qed.

Lemma reopen_total rs cur torn w max :
  on_disk name rs cur torn (w_files w) -> benign w ->
  exists s, reopen max w = (Ok s, ms_world s) /\ Rep name rs cur s /\ rep_size cur s.
Proof.
  intros Hod Hb.
  destruct (wp_total (reopen max)
    (fun s w' => w' = ms_world s /\ Rep name rs cur s /\ rep_size cur s) w) as (s & w' & Hrun & -> & H).
  - eapply wp_reopen; [done| |done]. auto.
  - by exists s.
Qed.
End Reopen.
