(* ===== verification/MonoMapTrim.v ===== *)
(** * Removing entries of a PersistentMonoMap

    [trim] cuts the tail, [trimHead] drops rolled segments at the head, [remove]
    empties the map. *)

From Stdlib Require Import Ascii String.
From S2P Require Import Prelude Ordered Os AppendOnlyFile Codec KeyValues Names MonoMap MonoMapLoad.
From S2P Require Import MonoMapRep MonoMapUpdate.

Local Open Scope Z_scope.

Section Trim.
Context {KV : Type} `{HKV : !MonoKeyValue KV} `{!MonoKeyValueLaws KV}.
Implicit Types (cur es : list KV) (rs pre post : list (Z * list KV)) (s : mono_state KV)
  (fs : gmap string (list Z)) (segs : list (Z * list (KeyValueWithLogOffset KV))).

Abbreviation entry_size := (exactSerializedSize (KV := KV)).

Context (w0 : world) (name : string).

(** The files of the segments [ids] are gone. *)
Definition delete_all (ids : list Z) (fs : gmap string (list Z)) : gmap string (list Z) :=
  foldr (fun id => delete (segmentLogPath name id)) fs ids.

Lemma lookup_delete_all ids fs f :
  Forall (fun id => segmentLogPath name id <> f) ids -> delete_all ids fs !! f = fs !! f.
Proof.
  induction 1 as [|id ids Hne _ IH]; cbn; [done|]. by rewrite lookup_delete_ne.
Qed.

Lemma lookup_delete_all_in ids fs id :
  id ∈ ids -> delete_all ids fs !! segmentLogPath name id = None.
Proof.
  induction ids as [|id' ids IH]; cbn; intros Hin; [by apply not_elem_of_nil in Hin|].
  destruct (decide (segmentLogPath name id' = segmentLogPath name id)) as [->|Hne].
  - apply lookup_delete_eq.
  - rewrite lookup_delete_ne by done. apply IH. apply elem_of_cons in Hin as [->|?]; done.
Qed.

Lemma delete_all_delete ids fs id :
  delete_all ids (delete (segmentLogPath name id) fs) = delete_all (id :: ids) fs.
Proof.
  unfold delete_all. induction ids as [|id' ids IH]; [done|]. cbn in *. rewrite IH. apply delete_delete.
Qed.

Lemma wp_remove_files segs n w (Q : nat * option Z -> world -> Prop) (E : fault -> world -> Prop) :
  evolves w0 w ->
  (forall k err w', evolves w0 w' -> (k <= length segs)%nat ->
     (err = None -> k = length segs) -> (err <> None -> ~ benign w0) ->
     w_files w' = delete_all (take k segs).*1 (w_files w) -> Q ((n + k)%nat, err) w') ->
  wp (Mono.remove_files name segs n) Q E w.
Proof.
  revert n w. induction segs as [|[id c] segs IH]; intros n w Hev HQ; cbn [Mono.remove_files].
  { apply wp_ret. rewrite <- (Nat.add_0_r n). by apply HQ. }
  assert (Hstop : forall w', evolves w0 w' -> w_files w' = w_files w -> ~ benign w0 ->
            Q (n, Some ErrorCodes.CANNOT_DELETE_FILE) w').
  { intros w' Hev' Hfs Hb. rewrite <- (Nat.add_0_r n). apply HQ; try done. lia. }
  assert (Hgo : forall w', evolves w0 w' ->
    w_files w' = delete (segmentLogPath name id) (w_files w) ->
    wp (Mono.remove_files name segs (S n)) Q E w').
  { intros w' Hev' Hfs. apply IH; [done|]. intros k err w'' ? ? Hk ? Hfs''.
    rewrite Nat.add_succ_comm. apply HQ; try done; cbn; [lia|intros He; by rewrite Hk|].
    rewrite Hfs'', Hfs. apply delete_all_delete. }
  apply wp_bind, wp_attempt. eapply (wp_exists w0); [done|intros x w' ???; by apply Hstop|]. intros w1 Hev1 Hfs1.
  case_bool_decide as Hex.
  - apply wp_bind, wp_attempt. eapply (wp_remove w0); [done| |].
    + intros x w' ? Hfs' ?. apply Hstop; [done|congruence|done].
    + intros w2 Hev2 Hfs2. apply Hgo; [done|congruence].
  - apply Hgo; [done|]. rewrite Hfs1, delete_id; [done|]. by apply eq_None_not_Some.
Qed.

(** [removeRange]: a run of segments leaves the map together with its files, all of
    it or, when a file cannot be removed, the first ones. *)
Lemma wp_removeRange segs1 segs2 segs3 s (Q : unit -> mono_state KV -> Prop) (E : fault -> mono_state KV -> Prop) :
  evolves w0 (ms_world s) -> filename (log_file (ms_map s)) = name ->
  seg_id_to_entry_offset_map (ms_map s) = segs1 ++ segs2 ++ segs3 ->
  let after k w' := MonoState w' (Mono.set_segments (segs1 ++ drop k segs2 ++ segs3) (ms_map s)) in
  left_with w0 (delete_all segs2.*1 (w_files (ms_world s)))
    (fun w' => Q tt (after (length segs2) w')) ->
  (forall x k w', evolves w0 w' -> ~ benign w0 ->
     w_files w' = delete_all (take k segs2).*1 (w_files (ms_world s)) -> E x (after k w')) ->
  wp (Mono.removeRange (length segs1) (length segs1 + length segs2)) Q E s.
Proof.
  intros Hev Hn Hsegs after HQ HE. unfold Mono.removeRange.
  apply wp_bind, wp_gets, wp_bind, wp_gets, wp_bind, wp_zoom. rewrite Hsegs, Hn.
  replace (length segs1 + length segs2 - length segs1)%nat with (length segs2) by lia.
  rewrite drop_app_length, take_app_length. apply wp_remove_files; [done|].
  intros k err w' Hev' Hk Hnone Hsome Hfs'. cbn [fst snd]. apply wp_bind, wp_modify.
  cbn [ms_world ms_map]. rewrite take_app_length, drop_app_add.
  assert (Hd : drop k (segs2 ++ segs3) = drop k segs2 ++ segs3) by by rewrite drop_app_le. rewrite Nat.add_0_l, Hd.
  destruct err as [x|].
  - apply wp_fail, HE; [done|by apply Hsome|done].
  - apply wp_ret. rewrite (Hnone eq_refl). apply HQ; [done|]. rewrite Hfs', (Hnone eq_refl).
    by rewrite firstn_all.
Qed.

(** ** Dropping segments at the head *)

Lemma wf_suffix pre post cur : well_formed (pre ++ post) cur -> well_formed post cur.
Proof.
  intros [Hids Hr Hne Hv Hs]. rewrite contents_app in Hv, Hs. split.
  - by apply StronglySorted_app in Hids as (_ & _ & ?).
  - by apply Forall_app in Hr as [_ ?].
  - by apply Forall_app in Hne as [_ ?].
  - by apply Forall_app in Hv as [_ ?].
  - by apply increasing_app in Hs as [_ ?].
Qed.

Lemma deleted_files pre post cur fs :
  well_formed (pre ++ post) cur -> rolled_files name (pre ++ post) fs -> tidy name (pre ++ post) fs ->
  rolled_files name post (delete_all pre.*1 fs) /\ tidy name post (delete_all pre.*1 fs) /\
  delete_all pre.*1 fs !! name = fs !! name.
Proof.
  intros [Hids Hr _ _ _] Hrf Ht. split_and!.
  - apply Forall_app in Hrf as [_ Hrf]. unfold rolled_files in *. rewrite Forall_forall in *.
    intros r Hin. rewrite lookup_delete_all; [by apply Hrf|]. apply Forall_fmap, Forall_forall.
    intros r' Hin' Heq. apply segmentLogPath_inj in Heq.
    + apply StronglySorted_app in Hids as (Hlt & _ & _). specialize (Hlt r' r Hin' Hin). cbn in Heq. lia.
    + assert (0 < r'.1 < 2 ^ 64) by (apply Hr, elem_of_app; by left). unfold u64. lia.
    + assert (0 < r.1 < 2 ^ 64) by (apply Hr, elem_of_app; by right). unfold u64. lia.
  - intros f [c Hf] Hp.
    assert (Hin : forall l, delete_all l fs !! f = Some c -> is_Some (fs !! f)).
    { intros l. induction l as [|id l IH]; cbn; [by exists c|].
      intros [_ Hd]%lookup_delete_Some. by apply IH. }
    destruct (Ht f (Hin _ Hf) Hp) as [?|(id & Hid & ->)]; [by left|]. right. exists id.
    rewrite fmap_app, elem_of_app in Hid. destruct Hid as [Hid|?]; [|done].
    rewrite lookup_delete_all_in in Hf by done. done.
  - apply lookup_delete_all, Forall_forall. intros id _. apply segmentLogPath_ne.
Qed.

Lemma rep_drop_head pre post cur s spre spost w' :
  Rep name (pre ++ post) cur s ->
  seg_id_to_entry_offset_map (ms_map s) = spre ++ spost ->
  Forall2 seg_rep spre pre -> Forall2 seg_rep spost post ->
  w_files w' = delete_all pre.*1 (w_files (ms_world s)) ->
  Rep name post cur (MonoState w' (Mono.set_segments spost (ms_map s))).
Proof.
  intros [Hwf Hrf Ht Hl (Ho & Hro & Hf) Hn Hc _] Hsegs H1 H2 Hfs'.
  destruct (deleted_files _ _ _ _ Hwf Hrf Ht) as (Hrf' & Ht' & Hname).
  split; cbn; try done; [by eapply wf_suffix|by rewrite Hfs'|by rewrite Hfs'|].
  split_and!; [done..|]. cbn. rewrite Hfs', Hn, Hname, <- Hn. done.
Qed.

(** What head trimming may do: drop rolled segments whose entries are all in the
    range to be trimmed. *)
Section TrimHead.
Context (sel : KV -> Z) (target : Z).

Definition trimmed_head rs cur s s' : Prop :=
  exists pre post, rs = pre ++ post /\ Forall (fun e => sel e <= target) (concat pre.*2) /\
    Rep name post cur s' /\ evolves w0 (ms_world s') /\ log_size (ms_map s') = log_size (ms_map s) /\
    max_size (ms_map s') = max_size (ms_map s).

Lemma wp_remove_head pre post cur s s0 (Q : unit -> mono_state KV -> Prop)
    (E : fault -> mono_state KV -> Prop) :
  let rs := pre ++ post in
  stays w0 name rs cur s0 s -> Forall (fun e => sel e <= target) (concat pre.*2) ->
  (forall s', trimmed_head rs cur s0 s' -> Q tt s') ->
  (forall x s', trimmed_head rs cur s0 s' -> ~ benign w0 -> E x s') ->
  wp (Mono.removeRange 0 (length pre)) Q E s.
Proof.
  intros rs [HR Hev _ _ Hls Hms] Hle HQ HE.
  pose proof (rep_segs _ _ _ _ HR) as H2. unfold rs in H2.
  apply Forall2_app_inv_r in H2 as (spre & spost & H1 & H2 & Hsegs).
  rewrite <- (Forall2_length _ _ _ H1). apply (wp_removeRange [] spre spost); cbn;
    [done|apply HR|done| |].
  - intros w' Hev' Hfs'. rewrite drop_all. apply HQ. exists pre, post. split_and!; try done.
    apply (rep_drop_head pre post cur s spre spost); try done. by rewrite Hfs', (seg_rep_ids _ _ H1).
  - intros x k w' Hev' Hb Hfs'. apply HE; [|done]. exists (take k pre), (drop k pre ++ post).
    split_and!; try done.
    + by rewrite app_assoc, take_drop.
    + rewrite <- (take_drop k pre), fmap_app, concat_app in Hle. by apply Forall_app in Hle as [? _].
    + apply (rep_drop_head (take k pre) (drop k pre ++ post) cur s (take k spre) (drop k spre ++ spost)).
      * by rewrite app_assoc, take_drop.
      * by rewrite app_assoc, take_drop.
      * by apply Forall2_take.
      * apply Forall2_app; [by apply Forall2_drop|done].
      * rewrite Hfs', !fmap_take. by rewrite (seg_rep_ids _ _ H1).
Qed.

Lemma wp_first_segment_ge segs rs s (Q : nat -> mono_state KV -> Prop) E :
  Forall2 seg_rep segs rs -> Forall (fun r => r.2 <> []) rs ->
  (forall pre post, rs = pre ++ post ->
     Forall (fun r => exists e, head r.2 = Some e /\ sel e < target) pre -> Q (length pre) s) ->
  wp (Mono.first_segment_ge sel target segs) Q E s.
Proof.
  intros H2. revert Q. induction H2 as [|[id c] [id' es] segs rs Hc _ IH]; intros Q Hne HQ; cbn.
  { apply wp_ret. by apply (HQ [] []). }
  apply Forall_cons in Hne as [Hes Hne]. cbn in Hes. destruct es as [|e es]; [done|].
  apply wp_bind. eapply wp_defined; [apply (seg_rep_head _ _ Hc)|]. cbn [entry].
  destruct (Z.leb_spec target (sel e)).
  - apply wp_ret. by apply (HQ [] ((id', e :: es) :: rs)).
  - apply wp_bind, IH; [done|]. intros pre post -> Hpre. apply wp_ret.
    apply (HQ ((id', e :: es) :: pre) post); [done|]. constructor; [|done]. by exists e.
Qed.

Context (succ : Z -> option Z) (t1 : Z) (Hsucc : succ target = Some t1) (Ht1 : t1 <= target + 1).

(** A state that stays as it was is trimmed by no segment. *)
Lemma trimmed_head_none rs cur s s' : stays w0 name rs cur s s' -> trimmed_head rs cur s s'.
Proof. intros []. exists [], rs. by split_and!. Qed.

(** Removing every segment up to the one before the bound, all of whose entries are at most the target. *)
Lemma wp_trim_head_all pre idp esp post cur s s' (Q : unit -> mono_state KV -> Prop) (E : fault -> mono_state KV -> Prop) :
  let rs := pre ++ (idp, esp) :: post in
  stays w0 name rs cur s s' ->
  Forall (fun e => sel e <= target) (concat pre.*2) -> Forall (fun e => sel e <= target) esp ->
  (forall s', trimmed_head rs cur s s' -> Q tt s') ->
  (forall x s', trimmed_head rs cur s s' -> ~ benign w0 -> E x s') ->
  wp (Mono.removeRange 0 (S (length pre))) Q E s'.
Proof.
  intros rs Hst Hpre Hle HQ HE. unfold rs in *.
  replace (pre ++ (idp, esp) :: post) with ((pre ++ [(idp, esp)]) ++ post) in * by by rewrite <- app_assoc.
  replace (S (length pre)) with (length (pre ++ [(idp, esp)])) by (rewrite length_app; cbn; lia).
  eapply wp_remove_head; [exact Hst| |exact HQ|exact HE].
  rewrite fmap_app, concat_app. apply Forall_app. split; [done|]. cbn. by rewrite app_nil_r.
Qed.

(** Loading the segment before the bound and comparing its last entry with the target. *)
Lemma wp_trim_head_check pre idp ep esp post cur s s' (Q : unit -> mono_state KV -> Prop) (E : fault -> mono_state KV -> Prop) :
  let rs := pre ++ (idp, ep :: esp) :: post in
  stays w0 name rs cur s s' -> sorted_by sel (ep :: esp) ->
  Forall (fun e => sel e <= target) (concat pre.*2) ->
  (forall s', trimmed_head rs cur s s' -> Q tt s') ->
  (forall x s', trimmed_head rs cur s s' -> ~ benign w0 -> E x s') ->
  wp (bind (Mono.loadRolledLogSegmentFully idp) (fun _ => bind (Mono.rolled idp) (fun entry_cache =>
      bind (defined (last entry_cache)) (fun b =>
      if target <? sel (entry b) then
        match length pre with O => ret tt | _ => Mono.removeRange 0 (length pre) end
      else Mono.removeRange 0 (S (length pre)))))) Q E s'.
Proof.
  intros rs Hst Hs Hpre HQ HE. unfold rs in *. apply wp_bind.
  eapply wp_loadRolledFully; [apply Hst|apply Hst| |].
  2: { intros x s2 Hst2 Hb. apply HE; [|done]. apply trimmed_head_none. by eapply stays_trans. }
  intros s2 Hst2 Hfind2. apply wp_bind. eapply wp_rolled; [apply Hst2|done|].
  pose proof (stays_trans _ _ _ _ _ _ _ Hst Hst2) as Hst3.
  pose proof (last_at_offsets 0 (ep :: esp)) as Hlast.
  destruct (last (at_offsets 0 (ep :: esp))) as [b|] eqn:Hb; [|by apply last_None in Hb].
  apply wp_bind, wp_ret. cbn [fmap option_fmap option_map] in Hlast. symmetry in Hlast.
  apply last_Some in Hlast as [l Hl]. destruct (Z.ltb_spec target (sel (entry b))).
  - destruct (length pre) eqn:Hlen; [by apply wp_ret, HQ, trimmed_head_none|]. rewrite <- Hlen.
    by eapply wp_remove_head.
  - eapply wp_trim_head_all; [exact Hst3|done| |done|done].
    rewrite Hl in Hs |- *. apply Forall_app; split; [|by constructor].
    eapply Forall_impl; [eapply (sorted_by_before sel l (entry b) [] target); [exact Hs|lia]|]. cbn. lia.
Qed.

Lemma wp_trim_head_rolled rs cur s (Q : unit -> mono_state KV -> Prop)
    (E : fault -> mono_state KV -> Prop) :
  Rep name rs cur s -> evolves w0 (ms_world s) -> sorted_by sel (contents rs cur) ->
  (forall s', trimmed_head rs cur s s' -> Q tt s') ->
  (forall x s', trimmed_head rs cur s s' -> ~ benign w0 -> E x s') ->
  wp (Mono.trim_head_rolled sel succ target) Q E s.
Proof.
  intros HR Hev Hsort HQ HE. unfold Mono.trim_head_rolled. apply wp_bind, wp_gets, wp_bind.
  eapply wp_first_segment_ge; [apply HR|apply HR|]. intros pre post Hrs Hpre.
  destruct pre as [|[idp esp] pre _] using rev_ind; cbn [length].
  { by apply wp_ret, HQ, trimmed_head_none, stays_refl. }
  rewrite length_app, Nat.add_1_r. cbn [length].
  rewrite <- app_assoc in Hrs. cbn in Hrs. subst rs.
  destruct (rep_split _ _ _ _ _ _ _ HR) as (spre & c & spost & Hsegs & H1 & Hc & H2 & Hfind).
  apply Forall_app in Hpre as [_ [(ep & Hep & Hlt) _]%Forall_cons]. cbn in Hep.
  destruct esp as [|e' esp]; [done|]. cbn in Hep. injection Hep as ->.
  rewrite contents_middle in Hsort.
  assert (Hpre' : Forall (fun e => sel e <= target) (concat pre.*2)).
  { eapply Forall_impl; [eapply (sorted_by_before sel _ ep _ target); [exact Hsort|lia]|]. cbn. lia. }
  apply sorted_by_app in Hsort as [_ Hs]. pose proof Hs as [Hse _]%sorted_by_app.
  rewrite Hsegs.
  assert (Hlen : length spre = length pre) by by eapply Forall2_length.
  assert (Hprev : (spre ++ (idp, c) :: spost) !! length pre = Some (idp, c)).
  { rewrite <- Hlen. by apply list_lookup_middle. }
  assert (Hnext : (spre ++ (idp, c) :: spost) !! S (length pre) = head spost).
  { rewrite lookup_app_r by lia. replace (S (length pre) - length spre)%nat with 1%nat by lia.
    by destruct spost. }
  rewrite Hnext, Hprev.
  destruct H2 as [|[idn cn] [idn' esn] spost' post' Hcn H2]; cbn [head].
  - apply wp_bind, wp_ret, wp_bind, wp_ret. eapply wp_trim_head_check; [by apply stays_refl|done..].
  - assert (Hesn : esn <> []).
    { pose proof (rep_wf _ _ _ _ HR) as [_ _ Hne _ _].
      by apply Forall_app in Hne as [_ [_ [? _]%Forall_cons]%Forall_cons]. }
    destruct esn as [|en esn]; [done|]. apply wp_bind, wp_bind.
    eapply wp_defined; [apply (seg_rep_head _ _ Hcn)|]. apply wp_bind. rewrite Hsucc.
    apply wp_ret, wp_ret. cbn [entry]. destruct (Z.ltb_spec t1 (sel en)).
    + apply wp_bind, wp_ret. eapply wp_trim_head_check; [by apply stays_refl|done..].
    + eapply wp_trim_head_all; [by apply stays_refl|done| |done|done].
      eapply Forall_impl;
        [eapply (sorted_by_before sel _ en (esn ++ contents post' cur) (target + 1)); [|lia]|cbn; lia].
      rewrite contents_cons in Hs. exact Hs.
Qed.

Context (dir_exists is_directory : bool) (listing : gmap string (list Z) -> list string).

Lemma wp_trim_head rs cur s (Q : unit -> mono_state KV -> Prop)
    (E : fault -> mono_state KV -> Prop) :
  Rep name rs cur s -> evolves w0 (ms_world s) -> sorted_by sel (contents rs cur) ->
  (forall s', trimmed_head rs cur s s' -> Q tt s') ->
  (forall x s', trimmed_head rs cur s s' -> ~ benign w0 -> E x s') ->
  wp (Mono.trim_head dir_exists is_directory listing sel succ target) Q E s.
Proof.
  intros HR Hev Hsort HQ HE. unfold Mono.trim_head. apply wp_bind.
  eapply wp_ensure_loaded; [done|]. apply wp_bind, wp_gets. rewrite (rep_cache _ _ _ _ HR).
  rewrite head_at_offsets. apply wp_bind.
  destruct cur as [|a cur]; cbn [head fmap option_fmap option_map entry].
  { apply wp_ret. by eapply wp_trim_head_rolled. }
  apply wp_bind. rewrite Hsucc. apply wp_ret, wp_ret. destruct (Z.leb_spec (sel a) t1).
  2: by eapply wp_trim_head_rolled.
  apply wp_bind, wp_gets. pose proof (Forall2_length _ _ _ (rep_segs _ _ _ _ HR)) as Hlen.
  destruct (seg_id_to_entry_offset_map (ms_map s)) as [|sc segs] eqn:Hsegs.
  { apply wp_ret, HQ. exists [], rs. by split_and!. }
  rewrite Hlen. rewrite <- (app_nil_r rs) in HR, HQ, HE.
  eapply wp_remove_head; [by apply stays_refl| |exact HQ|exact HE].
  eapply Forall_impl; [eapply (sorted_by_before sel _ a cur (target + 1)); [exact Hsort|lia]|].
  cbn. lia.
Qed.
End TrimHead.

(** ** Cutting the tail *)

Context (dir_exists is_directory : bool) (listing : gmap string (list Z) -> list string).

(** The segments after [id] and the active log are removed; [id] becomes the
    active log.  The remembered log size is left as it was. *)
Lemma wp_remove_after s fs spre id c spost nid d
    (Q : unit -> mono_state KV -> Prop) (E : fault -> mono_state KV -> Prop) :
  evolves w0 (ms_world s) -> w_files (ms_world s) = fs ->
  current_log_seg_loaded (ms_map s) = true -> filename (log_file (ms_map s)) = name ->
  seg_id_to_entry_offset_map (ms_map s) = spre ++ (id, c) :: spost ->
  om_sorted (spre ++ (id, c) :: spost) -> Forall (fun r => 0 < r.1 < 2 ^ 64) ((id, c) :: spost) ->
  fs !! segmentLogPath name id = Some d ->
  om_lower_bound nid (spre ++ (id, c) :: spost) = S (length spre) ->
  left_with w0
    (<[name := d]> (delete (segmentLogPath name id) (delete name (delete_all spost.*1 fs))))
    (fun w' => Q tt (MonoState w' (MonoMap (max_size (ms_map s)) spre (mkAppendOnlyFile name false true)
                                   (log_size (ms_map s)) true c))) ->
  (forall x s', ~ benign w0 -> E x s') ->
  wp (Mono.remove_from dir_exists is_directory listing (Some nid)) Q E s.
Proof.
  intros Hev Hfs Hl Hn Hsegs Hsort Hrange Hd Hlb HQ HE. unfold Mono.remove_from.
  apply wp_bind. apply wp_bind, wp_gets. rewrite Hl. apply wp_ret, wp_bind, wp_gets.
  rewrite Hsegs, Hlb. apply wp_bind.
  assert (Hd' : delete_all spost.*1 fs !! segmentLogPath name id = Some d).
  { rewrite lookup_delete_all; [done|]. apply Forall_fmap. rewrite Forall_forall. intros r Hr Heq.
    apply om_sorted_middle in Hsort as [_ Hgt]. rewrite Forall_forall in Hgt, Hrange.
    apply segmentLogPath_inj in Heq.
    - specialize (Hgt r Hr). cbn in Heq. lia.
    - assert (0 < r.1 < 2 ^ 64) by (apply Hrange; by right). unfold u64. lia.
    - assert (0 < (id, c).1 < 2 ^ 64) by (apply Hrange; by left). cbn in *. unfold u64. lia. }
  replace (S (length spre)) with (length (spre ++ [(id, c)])) by (rewrite length_app; cbn; lia).
  replace (length (spre ++ (id, c) :: spost)) with (length (spre ++ [(id, c)]) + length spost)%nat
    by (rewrite !length_app; cbn; lia).
  apply (wp_removeRange (spre ++ [(id, c)]) spost []); [done|done| | |].
  { by rewrite Hsegs, app_nil_r, <- app_assoc. }
  2: { intros. by apply HE. }
  rewrite drop_all, !app_nil_r. intros w1 Hev1 Hfs1. rewrite Hfs in Hfs1.
  apply wp_bind, wp_gets, wp_bind, wp_modify, wp_bind, wp_zoom, wp_map_err.
  cbn [ms_world ms_map Mono.set_segments log_file]. rewrite Hn. eapply (wp_remove w0); [done|intros ?????; by apply HE|]. intros w2 Hev2 Hfs2.
  apply wp_bind, wp_gets. cbn [ms_map Mono.set_segments Mono.set_log_file seg_id_to_entry_offset_map].
  rewrite last_snoc. apply wp_bind, wp_zoom. cbn [ms_world ms_map].
  eapply (wp_open_as w0 w2); [done|intros x w' ???; by apply HE| |].
  { cbn. rewrite Hfs2, Hfs1, lookup_delete_ne; [exact Hd'|]. intros Heq.
    by apply (segmentLogPath_ne name id). }
  intros w3 Hev3 Hfs3. cbn [ms_world] in Hfs3. apply wp_bind, wp_zoom, wp_map_err. cbn [ms_world].
  eapply (wp_renameTo w0); [done|intros ?????; by apply HE| |].
  { cbn. rewrite Hfs3, Hfs2, Hfs1, lookup_delete_ne; [exact Hd'|]. intros Heq.
    by apply (segmentLogPath_ne name id). }
  cbn [filename]. intros w4 Hev4 Hfs4. apply wp_modify. cbn.
  rewrite (om_erase_last id c spre).
  - unfold Mono.set_segments, Mono.set_cache, Mono.set_log_file; cbn. rewrite Hl. apply HQ; [done|]. by rewrite Hfs4, Hfs3, Hfs2, Hfs1.
  - rewrite om_sorted_fst in Hsort |- *. rewrite !fmap_app in *. cbn in *.
    apply StronglySorted_app in Hsort as (Hx & Hy & Hz). apply StronglySorted_app.
    split_and!; [|done|constructor; constructor]. intros a b Ha Hb.
    apply list_elem_of_singleton in Hb as ->. apply Hx; [done|by left].
Qed.

(** The disk after [wp_remove_after], seen from what is left. *)
Lemma tail_cut_files pre id es es' post cur fs :
  well_formed (pre ++ (id, es) :: post) cur -> rolled_files name (pre ++ (id, es) :: post) fs ->
  tidy name (pre ++ (id, es) :: post) fs ->
  let fs' := <[name := encode es']> (delete (segmentLogPath name id) (delete name
               (delete_all post.*1 (<[segmentLogPath name id := encode es']> fs)))) in
  rolled_files name pre fs' /\ tidy name pre fs'.
Proof.
  intros [Hids Hr _ _ _] Hrf Ht fs'. rewrite Forall_forall in Hr.
  assert (Hne : forall r r', r ∈ pre -> r' ∈ (id, es) :: post ->
            segmentLogPath name r'.1 <> segmentLogPath name r.1).
  { intros r r' Hin Hin' Heq. apply segmentLogPath_inj in Heq.
    - apply StronglySorted_app in Hids as (Hlt & _ & _). specialize (Hlt r r' Hin Hin'). cbn in *. lia.
    - assert (0 < r'.1 < 2 ^ 64) by (apply Hr, elem_of_app; by right). unfold u64. lia.
    - assert (0 < r.1 < 2 ^ 64) by (apply Hr, elem_of_app; by left). unfold u64. lia. }
  split.
  - apply rolled_files_name. apply Forall_app in Hrf as [Hrf _]. unfold rolled_files in *.
    rewrite Forall_forall in *. intros r Hin.
    rewrite lookup_delete_ne by (apply (Hne r (id, es)); [done|by left]).
    rewrite lookup_delete_ne by (intros Heq; by apply (segmentLogPath_ne name r.1)).
    rewrite lookup_delete_all.
    + rewrite lookup_insert_ne by (apply (Hne r (id, es)); [done|by left]). by apply Hrf.
    + apply Forall_fmap, Forall_forall. intros r' Hin'. apply (Hne r r'); [done|by right].
  - apply tidy_name. intros f [c Hf] Hp. apply lookup_delete_Some in Hf as [Hne1 Hf].
    apply lookup_delete_Some in Hf as [_ Hf].
    assert (Hin : forall l g, delete_all l g !! f = Some c -> is_Some (g !! f)).
    { intros l g. induction l as [|i l IH]; cbn; [by exists c|].
      intros [_ Hd]%lookup_delete_Some. by apply IH. }
    pose proof (Hin _ _ Hf) as Hfs. rewrite lookup_insert_ne in Hfs by done.
    destruct (Ht f Hfs Hp) as [?|(id' & Hid' & ->)]; [by left|]. right. exists id'.
    rewrite fmap_app, elem_of_app in Hid'. split; [|done]. destruct Hid' as [?|Hid']; [done|].
    cbn in Hid'. apply elem_of_cons in Hid' as [->|Hid']; [done|].
    rewrite lookup_delete_all_in in Hf by done. done.
Qed.

Lemma wf_cut pre id es es' rest post cur :
  well_formed (pre ++ (id, es) :: post) cur -> es = es' ++ rest -> well_formed pre es'.
Proof.
  intros [Hids Hr Hne Hv Hs] ->. rewrite contents_middle, <- app_assoc in Hv, Hs. split.
  - by apply StronglySorted_app in Hids as (_ & ? & _).
  - by apply Forall_app in Hr as [? _].
  - by apply Forall_app in Hne as [? _].
  - rewrite app_assoc in Hv. by apply Forall_app in Hv as [? _].
  - rewrite app_assoc in Hs. by apply increasing_app in Hs as [? _].
Qed.

Lemma wf_cut_current rs cur cur' rest :
  well_formed rs cur -> cur = cur' ++ rest -> well_formed rs cur'.
Proof.
  intros [Hids Hr Hne Hv Hs] ->. unfold contents in Hv, Hs. rewrite app_assoc in Hv, Hs. split; try done.
  - by apply Forall_app in Hv as [? _].
  - by apply increasing_app in Hs as [? _].
Qed.

(** [trim] leaves what is below [k], in order. *)
Definition trimmed_tail before rs s' : Prop :=
  exists rs' cur', Rep name rs' cur' s' /\ contents rs' cur' = before /\
    evolves w0 (ms_world s') /\ rs' `prefix_of` rs /\ (rs' = rs -> rep_size cur' s').

Lemma wp_trim_log f c s len kvo (Q : unit -> mono_state KV -> Prop) (E : fault -> mono_state KV -> Prop) :
  evolves w0 (ms_world s) -> writable f (ms_world s) c -> (offset kvo < length c)%nat ->
  (len = length c) -> left_with w0 (<[filename f := take (offset kvo) c]> (w_files (ms_world s)))
    (fun w' => Q tt (MonoState w' (ms_map s))) ->
  (forall x s', ~ benign w0 -> E x s') ->
  wp (Mono.trim_log (KV := KV) f len kvo) Q E s.
Proof.
  intros Hev Hw Hlt -> HQ HE. unfold Mono.trim_log.
  destruct (Nat.eqb_spec (offset kvo) (length c)); [lia|]. apply wp_zoom, wp_map_err.
  eapply (wp_truncate w0); [done|intros ?????; by apply HE|done|lia|]. exact HQ.
Qed.

Lemma wp_trim_current rs cur s x e (Q : unit -> mono_state KV -> Prop) (E : fault -> mono_state KV -> Prop) :
  Rep name rs cur s -> rep_size cur s -> evolves w0 (ms_world s) ->
  let i := truncation_point x in
  segment_id x = 0 -> cache_to_truncate x = current_cache -> cur !! i = Some e ->
  entry_offset x = KVO e (i * entry_size)%nat ->
  (forall s', trimmed_tail (concat rs.*2 ++ take i cur) rs s' -> Q tt s') ->
  (forall x s', ~ benign w0 -> E x s') ->
  wp (Mono.trim_found dir_exists is_directory listing x) Q E s.
Proof.
  intros HR Hsz Hev i Hid Hct Hi Hx HQ HE. unfold Mono.trim_found. rewrite Hid. cbn [Z.eqb].
  apply lookup_lt_Some in Hi as Hlt. pose proof kv_size_pos as Hpos.
  pose proof HR as [Hwf Hrf Ht Hl Hw Hn Hc Hsegs].
  apply wp_bind, wp_gets, wp_bind, wp_gets, wp_bind. rewrite Hx.
  eapply wp_trim_log; [done|exact Hw|cbn; rewrite length_encode; nia|by rewrite length_encode| |done].
  cbn [offset]. rewrite take_encode. intros w1 Hev1 Hfs1. rewrite Hct.
  rewrite bool_decide_eq_false_2 by auto. apply wp_modify, HQ. exists rs, (take i cur).
  split_and!; [|done|done|done|].
  - split; cbn; try done.
    + eapply wf_cut_current; [exact Hwf|]. symmetry. apply take_drop.
    + rewrite Hfs1, Hn. by apply rolled_files_name.
    + rewrite Hfs1, Hn. by apply tidy_name.
    + destruct Hw as (Ho & Hro & _). split_and!; [done..|]. cbn. rewrite Hfs1. apply lookup_insert_eq.
    + rewrite Hc. apply take_at_offsets.
  - intros _. unfold rep_size. cbn. rewrite length_take. fold i. nia.
Qed.

(** Once the log of the truncated segment is cut, removing the segments after it leaves the trimmed map. *)
Lemma wp_trim_rolled_rest rs cur s pre id es post i spre spost nid w3
    (Q : unit -> mono_state KV -> Prop) (E : fault -> mono_state KV -> Prop) :
  let segs := spre ++ (id, at_offsets 0 (take i es)) :: spost in
  rs = pre ++ (id, es) :: post -> Rep name rs cur s -> (i < length es)%nat ->
  Forall2 seg_rep spre pre -> Forall2 seg_rep spost post -> om_sorted segs ->
  evolves w0 w3 -> w_files w3 = <[segmentLogPath name id := encode (take i es)]> (w_files (ms_world s)) ->
  om_lower_bound nid segs = S (length spre) ->
  (forall s', trimmed_tail (concat pre.*2 ++ take i es) rs s' -> Q tt s') ->
  (forall x s', ~ benign w0 -> E x s') ->
  wp (Mono.remove_from dir_exists is_directory listing (Some nid)) Q E
    (MonoState w3 (Mono.set_segments segs (ms_map s))).
Proof.
  intros segs -> HR Hlt H1 H2 Hsort2 Hev3 Hfs3 Hnid HQ HE. pose proof HR as [Hwf Hrf Ht Hl _ Hn _ H2'].
  pose proof Hwf as [_ Hrange _ _ _].
  eapply (wp_remove_after _ (<[segmentLogPath name id := encode (take i es)]> (w_files (ms_world s)))
    spre id (at_offsets 0 (take i es)) spost nid (encode (take i es))); cbn; try done.
  - apply Forall_fmap with (f := fst) (P := fun z => 0 < z < 2 ^ 64). cbn.
    rewrite (seg_rep_ids _ _ H2). apply (Forall_fmap fst (fun z => 0 < z < 2 ^ 64) ((id, es) :: post)).
    by apply Forall_app in Hrange as [_ ?].
  - apply lookup_insert_eq.
  - intros w4 Hev4 Hfs4. apply HQ. exists pre, (take i es).
    rewrite (seg_rep_ids _ _ H2) in Hfs4.
    destruct (tail_cut_files pre id es (take i es) post cur _ Hwf Hrf Ht) as [Hrf' Ht'].
    split_and!; [split; cbn; try done|done|done|by eexists|].
    + eapply wf_cut; [exact Hwf|]. symmetry. apply (take_drop i).
    + by rewrite Hfs4.
    + by rewrite Hfs4.
    + split_and!; [done..|]. cbn. rewrite Hfs4. apply lookup_insert_eq.
    + intros Heq. apply (f_equal length) in Heq. rewrite length_app in Heq. cbn in Heq. lia.
Qed.

Lemma wp_trim_rolled rs cur s x e pre id es post c
    (Q : unit -> mono_state KV -> Prop) (E : fault -> mono_state KV -> Prop) :
  rs = pre ++ (id, es) :: post -> ids_left rs ->
  Rep name rs cur s -> evolves w0 (ms_world s) ->
  let i := truncation_point x in
  segment_id x = id -> cache_to_truncate x = rolled_cache id ->
  om_find id (seg_id_to_entry_offset_map (ms_map s)) = Some c ->
  take i c = at_offsets 0 (take i es) -> es !! i = Some e ->
  entry_offset x = KVO e (i * entry_size)%nat ->
  (forall s', trimmed_tail (concat pre.*2 ++ take i es) rs s' -> Q tt s') ->
  (forall x s', ~ benign w0 -> E x s') ->
  wp (Mono.trim_found dir_exists is_directory listing x) Q E s.
Proof.
  intros Hrs Hleft HR Hev i Hid Hct Hfind Htk Hi Hx HQ HE. subst rs.
  destruct (rep_split _ _ _ _ _ _ _ HR) as (spre & c' & spost & Hsegs & H1 & Hc & H2 & Hfind').
  assert (c' = c) as -> by congruence. clear Hfind'.
  pose proof HR as [Hwf Hrf Ht Hl _ Hn _ H2']. pose proof Hwf as [Hids Hrange _ _ _].
  assert (Hids' := seg_rep_sorted _ _ H2' Hids). rewrite Hsegs in Hids'.
  assert (Hr : 0 < id < 2 ^ 64) by by apply Forall_app in Hrange as [_ [? _]%Forall_cons].
  assert (Hl' : id < 2 ^ 64 - 1) by by apply Forall_app in Hleft as [_ [? _]%Forall_cons].
  apply lookup_lt_Some in Hi as Hlt. pose proof kv_size_pos as Hpos.
  assert (Hfile : w_files (ms_world s) !! segmentLogPath name id = Some (encode es))
    by by apply Forall_app in Hrf as [_ [? _]%Forall_cons].
  unfold Mono.trim_found. rewrite Hid, (proj2 (Z.eqb_neq _ _)) by lia.
  apply wp_bind. eapply wp_rolled; [exact HR|done|]. apply wp_bind, wp_gets, wp_bind, wp_zoom.
  rewrite Hn. eapply (wp_open_as w0); [done|intros ?????; by apply HE|exact Hfile|].
  intros w1 Hev1 Hfs1. apply wp_bind, wp_zoom, wp_map_err. cbn [ms_world ms_map].
  eapply (wp_size w0); [done|intros ?????; by apply HE|split; [done|cbn; by rewrite Hfs1]|].
  intros w2 Hev2 Hfs2. apply wp_bind. rewrite Hx.
  eapply wp_trim_log; [done|split_and!; [done..|]| |done| |done].
  { cbn. by rewrite Hfs2, Hfs1. }
  { cbn. rewrite length_encode. nia. }
  cbn [offset filename ms_world ms_map]. rewrite take_encode. intros w3 Hev3 Hfs3.
  rewrite Hct, bool_decide_eq_false_2 by auto. rewrite Hfs2, Hfs1 in Hfs3. clear w1 Hev1 Hfs1 w2 Hev2 Hfs2.
  apply wp_bind, wp_modify, wp_bind, wp_gets. cbn [ms_map ms_world Mono.set_segments seg_id_to_entry_offset_map].
  rewrite Hsegs, (om_insert_middle _ _ c) by done. fold i. rewrite Htk.
  set (c2 := at_offsets 0 (take i es)).
  assert (Hsort2 : om_sorted (spre ++ (id, c2) :: spost)).
  { rewrite om_sorted_fst in Hids' |- *. by rewrite fmap_app in Hids' |- *. }
  rewrite om_lower_bound_middle by done.
  rewrite lookup_app_r by lia. replace (S (length spre) - length spre)%nat with 1%nat by lia.
  destruct spost as [|[nid cn] spost]; cbn; (eapply (wp_trim_rolled_rest _ cur s pre id es post i); [done..| |done|done]).
  - unfold to_u64. rewrite Z.mod_small by lia. rewrite om_lower_bound_end.
    + rewrite length_app. cbn. lia.
    + apply om_sorted_middle in Hsort2 as [Hlt2 _]. apply Forall_app. split.
      * eapply Forall_impl; [exact Hlt2|]. cbn. lia.
      * constructor; [cbn; lia|constructor].
  - fold c2. replace (spre ++ (id, c2) :: (nid, cn) :: spost) with ((spre ++ [(id, c2)]) ++ (nid, cn) :: spost)
      in * by by rewrite <- app_assoc.
    rewrite om_lower_bound_middle by done. rewrite length_app. cbn. lia.
Qed.

Lemma wp_trim_at sel k rs cur s (Q : unit -> mono_state KV -> Prop) (E : fault -> mono_state KV -> Prop) :
  Rep name rs cur s -> rep_size cur s -> evolves w0 (ms_world s) -> ids_left rs ->
  sorted_by sel (contents rs cur) -> can_search sel k rs cur ->
  (forall s', trimmed_tail (filter (fun e => sel e < k) (contents rs cur)) rs s' -> Q tt s') ->
  (forall x s', ~ benign w0 -> E x s') ->
  wp (Mono.trim_at dir_exists is_directory listing (Mono.find_ge sel k)) Q E s.
Proof.
  intros HR Hsz Hev Hleft Hsort Hcan HQ HE. unfold Mono.trim_at. apply wp_bind.
  eapply wp_ensure_loaded; [done|]. apply wp_bind.
  eapply wp_find_ge; [done..| |by intros; apply HE]. intros s1 [x|] Hst Hr.
  - assert (Hsz1 : rep_size cur s1) by (unfold rep_size; by rewrite (stays_log_size _ _ _ _ _ _ Hst)).
    destruct Hr as (before & Hloc & Hlt & Hle).
    assert (Hbefore : filter (fun e => sel e < k) (contents rs cur) = before).
    { destruct (located_contents _ _ _ _ _ Hloc) as [after Hc]. rewrite Hc in Hsort |- *.
      rewrite filter_app, (filter_all _ before) by done.
      rewrite filter_none, app_nil_r; [done|]. constructor; [lia|].
      eapply Forall_impl; [eapply sorted_by_after; [exact Hsort|exact Hle]|]. cbn. lia. }
    rewrite Hbefore in HQ.
    destruct Hloc as [(Hid & Hct & e & Hi & Hx & ->)
                     |(pre & id & es & post & c & e & Hrs & Hid & Hct & Hfind & Htk & Hi & Hx & ->)].
    + eapply wp_trim_current; eauto using stays_rep, stays_evolves.
    + eapply wp_trim_rolled; eauto using stays_rep, stays_evolves.
  - apply wp_ret, HQ. exists rs, cur. split_and!; [apply Hst| |apply Hst|done|].
    + symmetry. by apply filter_all.
    + intros _. unfold rep_size. by rewrite (stays_log_size _ _ _ _ _ _ Hst).
Qed.

(** [remove]: nothing is left but an empty active log, to be loaded again. *)
Record emptied s : Prop := {
  em_disk : on_disk name [] [] [] (w_files (ms_world s));
  em_file : w_files (ms_world s) !! name = Some [];
  em_log : log_file (ms_map s) = mkAppendOnlyFile name false true;
  em_segs : seg_id_to_entry_offset_map (ms_map s) = [];
  em_cache : cache (ms_map s) = [];
  em_size : log_size (ms_map s) = 0%nat;
  em_loaded : current_log_seg_loaded (ms_map s) = false;
}.

Lemma wp_remove_all rs cur s (Q : unit -> mono_state KV -> Prop) (E : fault -> mono_state KV -> Prop) :
  Rep name rs cur s -> evolves w0 (ms_world s) ->
  (forall s', emptied s' -> evolves w0 (ms_world s') -> Q tt s') ->
  (forall x s', ~ benign w0 -> E x s') ->
  wp (Mono.remove dir_exists is_directory listing) Q E s.
Proof.
  intros HR Hev HQ HE. pose proof HR as [Hwf Hrf Ht Hl Hw Hn Hc Hsegs].
  unfold Mono.remove, Mono.remove_from. apply wp_bind. eapply wp_ensure_loaded; [done|].
  apply wp_bind, wp_gets, wp_bind. set (segs := seg_id_to_entry_offset_map (ms_map s)) in *.
  apply (wp_removeRange [] segs []); [done|done|by rewrite app_nil_r| |by intros; apply HE].
  rewrite drop_all. cbn [app]. intros w1 Hev1 Hfs1.
  apply wp_bind, wp_gets, wp_bind, wp_modify, wp_bind, wp_zoom, wp_map_err.
  cbn [ms_world ms_map Mono.set_segments log_file]. rewrite Hn.
  eapply (wp_remove w0); [done|intros ?????; by apply HE|]. intros w2 Hev2 Hfs2.
  apply wp_bind, wp_gets. cbn [ms_map Mono.set_segments Mono.set_log_file seg_id_to_entry_offset_map last].
  apply wp_bind, wp_modify, wp_bind, wp_zoom. cbn [ms_world ms_map].
  eapply (wp_open_or_create w0); [done|intros ?????; by apply HE|]. intros w3 Hev3 Hfs3.
  apply wp_modify, HQ; [|done]. rewrite Hfs2, lookup_delete_eq in Hfs3. cbn in Hfs3.
  rewrite <- (app_nil_r rs) in Hwf, Hrf, Ht.
  destruct (deleted_files _ _ _ _ Hwf Hrf Ht) as (_ & Ht' & _).
  rewrite (seg_rep_ids _ _ Hsegs) in Hfs1.
  assert (Hfile : w_files w3 !! name = Some []) by (rewrite Hfs3; apply lookup_insert_eq).
  split; cbn; try done. split; try done.
  - split; try constructor.
  - constructor.
  - rewrite Hfs3. apply tidy_name, tidy_delete. by rewrite Hfs1.
  - apply kv_size_pos.
  - by left.
Qed.
End Trim.
