(* ===== verification/MonoMapProps.v ===== *)
(** * Properties of PersistentMonoMap

    What the map promises to the indexes of the log: lookups, insertion, crash
    safety, trimming and recovery, for every entry type and every sequence of
    failures of the kernel. *)

From Stdlib Require Import Ascii String.
From S2P Require Import Prelude Ordered Os AppendOnlyFile Codec KeyValues Names MonoMap MonoMapLoad.
From S2P Require Import MonoMapRep MonoMapUpdate MonoMapRecover MonoMapTrim.

Local Open Scope Z_scope.

(** ** A map with one rolled segment, of which only the first entry is loaded *)

Definition example_a := mkSequencePosition 1 0.
Definition example_b := mkSequencePosition 5 100.
Definition example_c := mkSequencePosition 9 300.
Definition example_rs : list (Z * list SequencePosition) := [(1, [example_a; example_b])].
Definition example_files : gmap string (list Z) :=
  <["log" := encode [example_c]]> {["log.1" := encode [example_a; example_b]]}.
Definition example_map : PersistentMonoMap SequencePosition :=
  MonoMap 32 [(1, [KVO example_a 0])] (mkAppendOnlyFile "log" false true) 16 true [KVO example_c 0].
(** The kernel answers with a short transfer first. *)
Definition example_state : mono_state SequencePosition :=
  MonoState (World example_files [SysOk; SysOk; SysShort 3]) example_map.
(** A directory listing in the order of the map. *)
Definition example_listing (fs : gmap string (list Z)) : list string := (map_to_list fs).*1.

Lemma example_tidy : tidy "log" example_rs example_files.
Proof.
  intros f [c Hf] _. unfold example_files in Hf.
  apply lookup_insert_Some in Hf as [[<- _]|[_ Hf]]; [by left|].
  apply lookup_singleton_Some in Hf as [<- _]. right. exists 1. split; [by left|reflexivity].
Qed.

Lemma example_wf : well_formed example_rs [example_c].
Proof.
  split.
  - repeat constructor.
  - repeat constructor.
  - repeat constructor. discriminate.
  - repeat constructor; cbn; lia.
  - repeat constructor.
Qed.

Lemma example_rep : Rep "log" example_rs [example_c] example_state.
Proof.
  split; try reflexivity.
  - apply example_wf.
  - repeat constructor.
  - apply example_tidy.
  - split_and!; reflexivity.
  - constructor; [|constructor]. split; [done|]. by right.
Qed.

Lemma example_listing_ok : lists_directory "log" example_listing.
Proof.
  intros fs. split; [apply NoDup_fst_map_to_list|]. intros f _. unfold example_listing.
  rewrite list_elem_of_fmap. split.
  - intros ([f' c] & -> & Hin). apply elem_of_map_to_list in Hin. by exists c.
  - intros [c Hc]. exists (f, c). split; [done|]. by apply elem_of_map_to_list.
Qed.

Section Properties.
Context {KV : Type} `{HKV : !MonoKeyValue KV} `{!MonoKeyValueLaws KV}.
Implicit Types (cur es : list KV) (rs pre post : list (Z * list KV)) (s : mono_state KV).
Context (dir_exists is_directory : bool) (listing : gmap string (list Z) -> list string).

(** [lowerBound] returns the first entry whose key is not below the key asked
    for, over all rolled segments and the active one, and leaves the contents
    alone; it only fails when the kernel refuses a call, and then the contents are
    still the same. *)
Theorem lowerBound_correct name rs cur s k :
  Rep name rs cur s -> can_search key k rs cur ->
  exists r s', Mono.lowerBound dir_exists is_directory listing k s = (r, s') /\ Rep name rs cur s' /\
    (r = Ok (head (filter (fun e => k <= key e) (contents rs cur)))
     \/ (faulted r /\ ~ benign (ms_world s))).
Proof.
  intros HR Hcan. apply wp_reports, wp_bind. eapply wp_ensure_loaded; [done|]. apply wp_bind.
  eapply (wp_find_ge key); [done|reflexivity|apply HR|done| |].
  - intros s1 r Hst Hr. apply wp_ret. split; [by eapply found_ge_head|apply Hst].
  - intros x s1 Hst Hb. split; [apply Hst|done].
Qed.

(** [leftLowerBound] returns the last entry whose key is not above the key asked
    for, over all rolled segments and the active one, and leaves the contents
    alone; no condition on the active segment is needed. *)
Theorem leftLowerBound_correct name rs cur s k :
  Rep name rs cur s ->
  exists r s', Mono.leftLowerBound dir_exists is_directory listing k s = (r, s') /\
    Rep name rs cur s' /\
    (r = Ok (last (filter (fun e => key e <= k) (contents rs cur)))
     \/ (faulted r /\ ~ benign (ms_world s))).
Proof.
  intros HR. apply wp_reports, wp_bind. eapply wp_ensure_loaded; [done|]. apply wp_bind.
  eapply (wp_find_le key); [done|reflexivity|apply HR| |].
  - intros s1 r Hst Hr. apply wp_ret. split; [by eapply found_le_last|apply Hst].
  - intros x s1 Hst Hb. split; [apply Hst|done].
Qed.

(** When the values increase along with the keys, [lowerBoundByValue] and
    [leftLowerBoundByValue] return the first entry whose value is not below, and
    the last entry whose value is not above, the value asked for. *)
Theorem boundsByValue_correct name rs cur s v :
  Rep name rs cur s -> sorted_by value (contents rs cur) -> can_search value v rs cur ->
  (exists r s', Mono.lowerBoundByValue dir_exists is_directory listing v s = (r, s') /\
     Rep name rs cur s' /\
     (r = Ok (head (filter (fun e => v <= value e) (contents rs cur)))
      \/ (faulted r /\ ~ benign (ms_world s)))) /\
  (exists r s', Mono.leftLowerBoundByValue dir_exists is_directory listing v s = (r, s') /\
     Rep name rs cur s' /\
     (r = Ok (last (filter (fun e => value e <= v) (contents rs cur)))
      \/ (faulted r /\ ~ benign (ms_world s)))).
Proof.
  intros HR Hsort Hcan. split.
  - apply wp_reports, wp_bind. eapply wp_ensure_loaded; [done|]. apply wp_bind.
    eapply (wp_find_ge value); [done|reflexivity|done|done| |].
    + intros s1 r Hst Hr. apply wp_ret. split; [by eapply found_ge_head|apply Hst].
    + intros x s1 Hst Hb. split; [apply Hst|done].
  - apply wp_reports, wp_bind. eapply wp_ensure_loaded; [done|]. apply wp_bind.
    eapply (wp_find_le value); [done|reflexivity|done| |].
    + intros s1 r Hst Hr. apply wp_ret. split; [by eapply found_le_last|apply Hst].
    + intros x s1 Hst Hb. split; [apply Hst|done].
Qed.

(** [first], [last] and [prevLast] return the first, the last and the second
    last entry of the whole contents; [prevLast] needs a second entry in the last
    rolled segment when the active one is empty. *)
Theorem ends_correct name rs cur s :
  Rep name rs cur s ->
  (exists r s', Mono.first dir_exists is_directory listing s = (r, s') /\ Rep name rs cur s' /\
     (r = Ok (head (contents rs cur)) \/ (faulted r /\ ~ benign (ms_world s)))) /\
  (exists r s', Mono.last_entry dir_exists is_directory listing s = (r, s') /\ Rep name rs cur s' /\
     (r = Ok (last (contents rs cur)) \/ (faulted r /\ ~ benign (ms_world s)))) /\
  (can_prev_last rs cur ->
   exists r s', Mono.prevLast dir_exists is_directory listing s = (r, s') /\ Rep name rs cur s' /\
     (r = Ok (reverse (contents rs cur) !! 1%nat) \/ (faulted r /\ ~ benign (ms_world s)))).
Proof.
  intros HR. split_and!; [| |intros Hcan]; apply wp_reports.
  - eapply wp_first; [done|reflexivity|done].
  - eapply wp_last_entry; [done|reflexivity| |].
    + intros s1 Hst. split; [done|apply Hst].
    + intros x s1 Hst Hb. split; [apply Hst|done].
  - eapply wp_prevLast; [done|reflexivity|done| |].
    + intros s1 Hst. split; [done|apply Hst].
    + intros x s1 Hst Hb. split; [apply Hst|done].
Qed.


(** C21. Reopening a map from a disk state that an interrupted insertion can leave,
    with a torn entry at the end of the active log or no active log at all, gives
    back exactly the entries that were completely written, whatever the order of
    the directory listing. *)
Theorem reopen_correct name rs cur torn w max :
  lists_directory name listing -> on_disk name rs cur torn (w_files w) -> benign w ->
  exists s, reopen name listing max w = (Ok s, ms_world s) /\ Rep name rs cur s /\ rep_size cur s.
Proof. intros Hdir. by apply reopen_total. Qed.

(** C20. An insertion is atomic across failures and restarts: however [maybeIndex]
    ends, a map reopened on the files it leaves holds the old contents or the old
    contents followed by the new entry, and the latter when it returned true. *)
Theorem maybeIndex_atomic name rs cur s e sync max :
  Rep name rs cur s -> rep_size cur s -> kv_valid e -> ids_left rs ->
  (0 < max_size (ms_map s))%nat -> can_index rs cur e -> lists_directory name listing ->
  exists r s', Mono.maybeIndex dir_exists is_directory listing e sync s = (r, s') /\
    forall w, w_files w = w_files (ms_world s') -> benign w ->
    exists rs' cur' t, reopen name listing max w = (Ok t, ms_world t) /\ Rep name rs' cur' t /\
      (contents rs' cur' = contents rs cur \/ contents rs' cur' = contents rs cur ++ [e]) /\
      (r = Ok true -> contents rs' cur' = contents rs cur ++ [e]).
Proof.
  intros HR Hsz He Hleft Hmax Hcan Hdir.
  destruct (maybeIndex_cases dir_exists is_directory listing name rs cur s e sync)
    as (r & s' & Hrun & Hcase); try done.
  exists r, s'. split; [done|]. intros w Hfs Hb.
  assert (Hre : forall rs' cur' torn, on_disk name rs' cur' torn (w_files (ms_world s')) ->
    exists t, reopen name listing max w = (Ok t, ms_world t) /\ Rep name rs' cur' t).
  { intros rs' cur' torn Hod. rewrite <- Hfs in Hod.
    destruct (reopen_total name listing Hdir rs' cur' torn w max Hod Hb) as (t & ? & ? & _).
    by exists t. }
  destruct Hcase as [(-> & _ & rs' & cur' & HR' & _ & _ & Hc)|[(-> & _ & ->)|(Hf & _ & Hcr)]].
  - destruct (Hre rs' cur' [] (rep_on_disk _ _ _ _ HR')) as (t & ? & ?). exists rs', cur', t. auto.
  - destruct (Hre rs cur [] (rep_on_disk _ _ _ _ HR)) as (t & ? & ?). exists rs, cur, t.
    split_and!; auto. done.
  - destruct Hcr as (rs' & cur' & torn & Hod & Hc). destruct (Hre _ _ _ Hod) as (t & ? & ?).
    exists rs', cur', t. split_and!; auto. by intros ->.
Qed.

(** [trim] keeps exactly the entries with a key below [start_key]; when it cuts
    inside a rolled segment, the later segments and the active log go and the cut
    segment becomes the active one. *)
Theorem trim_correct name rs cur s start_key :
  Rep name rs cur s -> rep_size cur s -> ids_left rs -> can_search key start_key rs cur ->
  exists r s', Mono.trim dir_exists is_directory listing start_key s = (r, s') /\
    ((r = Ok tt /\ exists rs' cur', Rep name rs' cur' s' /\
        contents rs' cur' = filter (fun e => key e < start_key) (contents rs cur)) \/
     (faulted r /\ ~ benign (ms_world s))).
Proof.
  intros HR Hsz Hleft Hcan.
  destruct (wp_outcome (Mono.trim dir_exists is_directory listing start_key)
    (fun _ s' => trimmed_tail (ms_world s) name (filter (fun e => key e < start_key) (contents rs cur)) rs s')
    (fun _ _ => ~ benign (ms_world s)) s) as (r & s' & Hrun & Hcase).
  - eapply (wp_trim_at (ms_world s) name _ _ _ key); [done|done|reflexivity|done|apply HR|done|auto..].
  - exists r, s'. split; [done|].
    destruct Hcase as [([] & -> & rs' & cur' & ? & ? & _)|(Hf & _ & Hb)]; [left|by right].
    split; [done|]. by exists rs', cur'.
Qed.

(** [trimByValue] keeps exactly the entries with a value below [start_value],
    when the values increase along with the keys. *)
Theorem trimByValue_correct name rs cur s start_value :
  Rep name rs cur s -> rep_size cur s -> ids_left rs -> sorted_by value (contents rs cur) ->
  can_search value start_value rs cur ->
  exists r s', Mono.trimByValue dir_exists is_directory listing start_value s = (r, s') /\
    ((r = Ok tt /\ exists rs' cur', Rep name rs' cur' s' /\
        contents rs' cur' = filter (fun e => value e < start_value) (contents rs cur)) \/
     (faulted r /\ ~ benign (ms_world s))).
Proof.
  intros HR Hsz Hleft Hsort Hcan.
  destruct (wp_outcome (Mono.trimByValue dir_exists is_directory listing start_value)
    (fun _ s' => trimmed_tail (ms_world s) name (filter (fun e => value e < start_value) (contents rs cur)) rs s')
    (fun _ _ => ~ benign (ms_world s)) s) as (r & s' & Hrun & Hcase).
  - eapply (wp_trim_at (ms_world s) name _ _ _ value); [done|done|reflexivity|done|done|done|auto..].
  - exists r, s'. split; [done|].
    destruct Hcase as [([] & -> & rs' & cur' & ? & ? & _)|(Hf & _ & Hb)]; [left|by right].
    split; [done|]. by exists rs', cur'.
Qed.

(** [trimHead] only removes entries from the front, all with keys up to the
    target, and never touches the active segment; this also holds when it fails in
    the middle. *)
Theorem trimHead_safe name rs cur s target t1 :
  Rep name rs cur s -> key_succ (KV := KV) target = Some t1 -> t1 <= target + 1 ->
  exists r s' rs' removed, Mono.trimHead dir_exists is_directory listing target s = (r, s') /\
    Rep name rs' cur s' /\ log_size (ms_map s') = log_size (ms_map s) /\
    contents rs cur = removed ++ contents rs' cur /\ Forall (fun e => key e <= target) removed /\
    (r = Ok tt \/ (faulted r /\ ~ benign (ms_world s))).
Proof.
  intros HR Hsucc Ht1.
  destruct (wp_reports (Mono.trimHead dir_exists is_directory listing target) tt
    (trimmed_head (ms_world s) name key target rs cur s) (~ benign (ms_world s)) s)
    as (r & s' & Hrun & (pre & post & -> & Hle & HR' & _ & Hls & _) & Hr).
  - eapply (wp_trim_head (ms_world s) name key target); [done|done|done|reflexivity|apply HR|auto..].
  - exists r, s', post, (concat pre.*2). split_and!; try done. apply contents_app.
Qed.

(** [trimHeadByValue] only removes entries from the front, all with values up to
    the target, when the values increase along with the keys. *)
Theorem trimHeadByValue_safe name rs cur s target t1 :
  Rep name rs cur s -> sorted_by value (contents rs cur) ->
  value_succ (KV := KV) target = Some t1 -> t1 <= target + 1 ->
  exists r s' rs' removed, Mono.trimHeadByValue dir_exists is_directory listing target s = (r, s') /\
    Rep name rs' cur s' /\ log_size (ms_map s') = log_size (ms_map s) /\
    contents rs cur = removed ++ contents rs' cur /\ Forall (fun e => value e <= target) removed /\
    (r = Ok tt \/ (faulted r /\ ~ benign (ms_world s))).
Proof.
  intros HR Hsort Hsucc Ht1.
  destruct (wp_reports (Mono.trimHeadByValue dir_exists is_directory listing target) tt
    (trimmed_head (ms_world s) name value target rs cur s) (~ benign (ms_world s)) s)
    as (r & s' & Hrun & (pre & post & -> & Hle & HR' & _ & Hls & _) & Hr).
  - eapply (wp_trim_head (ms_world s) name value target); [done|done|done|reflexivity|done|auto..].
  - exists r, s', post, (concat pre.*2). split_and!; try done. apply contents_app.
Qed.

(** [remove] deletes every segment file and leaves an empty active log, in
    memory and on disk. *)
Theorem remove_correct name rs cur s :
  Rep name rs cur s ->
  exists r s', Mono.remove dir_exists is_directory listing s = (r, s') /\
    ((r = Ok tt /\ emptied name s') \/ (faulted r /\ ~ benign (ms_world s))).
Proof.
  intros HR.
  destruct (wp_outcome (Mono.remove dir_exists is_directory listing) (fun _ s' => emptied name s')
    (fun _ _ => ~ benign (ms_world s)) s) as (r & s' & Hrun & Hcase).
  - eapply (wp_remove_all (ms_world s)); [done|reflexivity|auto..].
  - exists r, s'. split; [done|].
    destruct Hcase as [([] & -> & ?)|(Hf & _ & Hb)]; auto.
Qed.
End Properties.

(** ** The properties on the example *)

Lemma lowerBound_correct_witness :
  head (filter (fun e => 3 <= key e) (contents example_rs [example_c])) = Some example_b /\
  exists r s', Mono.lowerBound true true example_listing 3 example_state = (r, s') /\
    Rep "log" example_rs [example_c] s' /\
    (r = Ok (head (filter (fun e => 3 <= key e) (contents example_rs [example_c]))) \/ (faulted r /\ ~ benign (ms_world example_state))).
Proof.
  split; [vm_compute; reflexivity|].
  apply (lowerBound_correct true true example_listing "log" example_rs [example_c] example_state 3).
  - apply example_rep.
  - left. discriminate.
Defined.

Lemma leftLowerBound_correct_witness :
  last (filter (fun e => key e <= 8) (contents example_rs [example_c])) = Some example_b /\
  exists r s', Mono.leftLowerBound true true example_listing 8 example_state = (r, s') /\
    Rep "log" example_rs [example_c] s' /\
    (r = Ok (last (filter (fun e => key e <= 8) (contents example_rs [example_c]))) \/ (faulted r /\ ~ benign (ms_world example_state))).
Proof.
  split; [vm_compute; reflexivity|].
  apply (leftLowerBound_correct true true example_listing "log" example_rs [example_c] example_state 8).
  apply example_rep.
Defined.

Lemma example_values : sorted_by value (contents example_rs [example_c]).
Proof. repeat constructor. Qed.

Lemma boundsByValue_correct_witness :
  head (filter (fun e => 99 <= value e) (contents example_rs [example_c])) = Some example_b /\
  last (filter (fun e => value e <= 99) (contents example_rs [example_c])) = Some example_a /\
  (exists r s', Mono.lowerBoundByValue true true example_listing 99 example_state = (r, s') /\
     Rep "log" example_rs [example_c] s' /\
     (r = Ok (head (filter (fun e => 99 <= value e) (contents example_rs [example_c]))) \/ (faulted r /\ ~ benign (ms_world example_state)))) /\
  (exists r s', Mono.leftLowerBoundByValue true true example_listing 99 example_state = (r, s') /\
     Rep "log" example_rs [example_c] s' /\
     (r = Ok (last (filter (fun e => value e <= 99) (contents example_rs [example_c]))) \/ (faulted r /\ ~ benign (ms_world example_state)))).
Proof.
  split; [vm_compute; reflexivity|].
  split; [vm_compute; reflexivity|].
  apply (boundsByValue_correct true true example_listing "log" example_rs [example_c] example_state 99).
  - apply example_rep.
  - apply example_values.
  - left. discriminate.
Defined.

Lemma ends_correct_witness :
  exists r s', Mono.prevLast true true example_listing example_state = (r, s') /\
    Rep "log" example_rs [example_c] s' /\
    (r = Ok (Some example_b) \/ (faulted r /\ ~ benign (ms_world example_state))).
Proof.
  apply (ends_correct true true example_listing "log" example_rs [example_c] example_state).
  - apply example_rep.
  - left. discriminate.
Defined.

Definition example_d := mkSequencePosition 12 400.


(** A disk on which the last entry is torn. *)
Definition torn_world : world :=
  World (<["log" := encode [example_c] ++ [12; 0; 0]]> example_files) [SysShort 1].

Lemma torn_on_disk : on_disk "log" example_rs [example_c] [12; 0; 0] (w_files torn_world).
Proof.
  split.
  - apply example_wf.
  - apply rolled_files_name. repeat constructor.
  - apply tidy_name, example_tidy.
  - cbn. lia.
  - by left.
Qed.

Lemma reopen_correct_witness :
  exists s, reopen "log" example_listing 32 torn_world = (Ok s, ms_world s) /\
    Rep "log" example_rs [example_c] s /\ rep_size [example_c] s.
Proof.
  apply (reopen_correct example_listing "log" example_rs [example_c] [12; 0; 0] torn_world 32).
  - apply example_listing_ok.
  - apply torn_on_disk.
  - repeat constructor.
Defined.

Lemma maybeIndex_atomic_witness :
  exists r s', Mono.maybeIndex true true example_listing example_d true example_state = (r, s') /\
    forall w, w_files w = w_files (ms_world s') -> benign w ->
    exists rs' cur' t, reopen "log" example_listing 32 w = (Ok t, ms_world t) /\ Rep "log" rs' cur' t /\
      (contents rs' cur' = [example_a; example_b; example_c] \/
       contents rs' cur' = [example_a; example_b; example_c; example_d]) /\
      (r = Ok true -> contents rs' cur' = [example_a; example_b; example_c; example_d]).
Proof.
  apply (maybeIndex_atomic true true example_listing "log" example_rs [example_c] example_state
    example_d true 32).
  - apply example_rep.
  - reflexivity.
  - split; cbn; unfold i64, u64; lia.
  - repeat constructor.
  - cbn. lia.
  - left. discriminate.
  - apply example_listing_ok.
Defined.

Lemma trim_correct_witness :
  filter (fun e => key e < 5) (contents example_rs [example_c]) = [example_a] /\
  exists r s', Mono.trim true true example_listing 5 example_state = (r, s') /\
    ((r = Ok tt /\ exists rs' cur', Rep "log" rs' cur' s' /\ contents rs' cur' = filter (fun e => key e < 5) (contents example_rs [example_c])) \/
     (faulted r /\ ~ benign (ms_world example_state))).
Proof.
  split; [vm_compute; reflexivity|].
  apply (trim_correct true true example_listing "log" example_rs [example_c] example_state 5).
  - apply example_rep.
  - reflexivity.
  - repeat constructor.
  - left. discriminate.
Defined.

Lemma trimByValue_correct_witness :
  filter (fun e => value e < 300) (contents example_rs [example_c]) = [example_a; example_b] /\
  exists r s', Mono.trimByValue true true example_listing 300 example_state = (r, s') /\
    ((r = Ok tt /\ exists rs' cur', Rep "log" rs' cur' s' /\
        contents rs' cur' = filter (fun e => value e < 300) (contents example_rs [example_c])) \/
     (faulted r /\ ~ benign (ms_world example_state))).
Proof.
  split; [vm_compute; reflexivity|].
  apply (trimByValue_correct true true example_listing "log" example_rs [example_c] example_state 300).
  - apply example_rep.
  - reflexivity.
  - repeat constructor.
  - apply example_values.
  - left. discriminate.
Defined.

Lemma trimHead_safe_witness :
  exists r s' rs' removed, Mono.trimHead true true example_listing 6 example_state = (r, s') /\
    Rep "log" rs' [example_c] s' /\ log_size (ms_map s') = 16%nat /\
    contents example_rs [example_c] = removed ++ contents rs' [example_c] /\
    Forall (fun e => key e <= 6) removed /\
    (r = Ok tt \/ (faulted r /\ ~ benign (ms_world example_state))).
Proof.
  apply (trimHead_safe true true example_listing "log" example_rs [example_c] example_state 6 7).
  - apply example_rep.
  - reflexivity.
  - lia.
Defined.

Lemma trimHeadByValue_safe_witness :
  exists r s' rs' removed, Mono.trimHeadByValue true true example_listing 120 example_state = (r, s') /\
    Rep "log" rs' [example_c] s' /\ log_size (ms_map s') = 16%nat /\
    contents example_rs [example_c] = removed ++ contents rs' [example_c] /\
    Forall (fun e => value e <= 120) removed /\
    (r = Ok tt \/ (faulted r /\ ~ benign (ms_world example_state))).
Proof.
  apply (trimHeadByValue_safe true true example_listing "log" example_rs [example_c] example_state 120 121).
  - apply example_rep.
  - apply example_values.
  - reflexivity.
  - lia.
Defined.

Lemma remove_correct_witness :
  exists r s', Mono.remove true true example_listing example_state = (r, s') /\
    ((r = Ok tt /\ emptied "log" s') \/ (faulted r /\ ~ benign (ms_world example_state))).
Proof.
  apply (remove_correct true true example_listing "log" example_rs [example_c] example_state).
  apply example_rep.
Defined.

(** ** Where the code falls short of its contract

    Runs from the example map, with a kernel that never refuses a call. *)

Definition run {A} (m : M (mono_state SequencePosition) A) (s : mono_state SequencePosition)
  : mono_state SequencePosition := (m s).2.

(** The remembered size of the log is not updated when a rolled segment becomes the
    active one: the next entry gets a wrong offset, and trimming it away later
    leaves it in the file. *)
Definition trimmed_into_rolled := run (Mono.trim true true example_listing 1) example_state.

Lemma trim_rolled_keeps_log_size :
  w_files (ms_world trimmed_into_rolled) !! "log" = Some [] /\
  log_size (ms_map trimmed_into_rolled) = 16%nat.
Proof. split; vm_compute; reflexivity. Qed.

Lemma trim_after_rolled_trim_keeps_entry :
  let s1 := run (Mono.maybeIndex true true example_listing example_d true) trimmed_into_rolled in
  let s2 := run (Mono.trim true true example_listing 12) s1 in
  cache (ms_map s2) = [] /\ w_files (ms_world s2) !! "log" = Some (encode [example_d]).
Proof. split; vm_compute; reflexivity. Qed.

(** Once the active segment is empty and rolled ones exist, a search beyond the last
    entry reads the front of an empty deque, and an entry with a smaller key than
    the rolled ones is accepted. *)
Definition trimmed_active := run (Mono.trim true true example_listing 9) example_state.

Lemma lowerBound_reads_empty_cache :
  (Mono.lowerBound true true example_listing 7 trimmed_active).1 = Undef.
Proof. vm_compute. reflexivity. Qed.

Lemma maybeIndex_accepts_smaller_key :
  let e := mkSequencePosition 2 50 in
  let '(r, s) := Mono.maybeIndex true true example_listing e true trimmed_active in
  r = Ok true /\ entry <$> cache (ms_map s) = [e] /\
  (Mono.lowerBound true true example_listing 5 s).1 = Ok None.
Proof. vm_compute. auto. Qed.
