(* ===== verification/Entry.v ===== *)
(** * Entry (src/Cluster/Common/Entry.cpp)

    Log entries and their wire format: a fixed-width length prefix, variable-width
    metadata and the payload. *)

From S2P Require Import Prelude Codec.

Local Open Scope prog_scope.

Definition CORRUPTED_DATA : Z := 246.

(** [EntryType]; a byte read from disk is cast to it unchecked. *)
Definition EntryType_Normal : Z := 0.
Definition EntryType_ConfChange : Z := 1.

Record Entry : Type := mkEntry {
  prefix_length : Z;             (** [uint32_t], does not count itself *)
  crc : Z;                       (** [uint32_t] *)
  version : Z;                   (** [uint16_t] *)
  correlation_id : Z;            (** [uint64_t] *)
  max_event_timestamp : Z;       (** [int64_t] *)
  append_timestamp : Z;          (** [int64_t] *)
  sn : Z;                        (** [int64_t] *)
  entry_type : Z;                (** [EntryType : uint8_t] *)
  data : list Z;
}.

#[export] Instance Entry_eq_dec : EqDecision Entry.
Proof. solve_decision. Defined.

Definition set_prefix_length (x : Z) (e : Entry) : Entry :=
  mkEntry x (crc e) (version e) (correlation_id e) (max_event_timestamp e) (append_timestamp e)
    (sn e) (entry_type e) (data e).
Definition set_data (x : list Z) (e : Entry) : Entry :=
  mkEntry (prefix_length e) (crc e) (version e) (correlation_id e) (max_event_timestamp e)
    (append_timestamp e) (sn e) (entry_type e) x.

Definition prefixLengthSize : Z := 4.
Definition serializedSize (e : Entry) : Z := prefix_length e + prefixLengthSize.
Definition payloadSize (e : Entry) : Z := Z.of_nat (length (data e)).
Definition payloadSizeOfEntries (es : list Entry) : Z :=
  foldl (fun size e => size + payloadSize e) 0 es.
(** 4 + 4 + 2 + 8 + 8 + 8 + 8 + 1 *)
Definition approximateSerializedMetadataSize : nat := 43.

(** [setData] *)
Definition setData (new_data : list Z) (e : Entry) : Entry :=
  set_prefix_length (to_u32 (Z.of_nat (length new_data))) (set_data new_data e).

(** [operator==]: everything but the prefix length and the checksum. *)
Definition Entry_eq (a b : Entry) : bool :=
  (version a =? version b) && (correlation_id a =? correlation_id b) &&
  (max_event_timestamp a =? max_event_timestamp b) && (append_timestamp a =? append_timestamp b) &&
  (sn a =? sn b) && (entry_type a =? entry_type b) && bool_decide (data a = data b).

(** [serialize(WriteBuffer &, uint16_t)], after the prefix length. *)
Definition serializeRest (e : Entry) : list Z :=
  writeVarUInt (crc e) ++ writeVarUInt (version e) ++ writeVarUInt (correlation_id e) ++
  writeVarInt (max_event_timestamp e) ++ writeVarInt (append_timestamp e) ++
  writeVarInt (sn e) ++ [entry_type e] ++
  writeVarUInt (Z.of_nat (length (data e))) ++ data e.
Definition serialize_to (e : Entry) : list Z := writeUInt32 (prefix_length e) ++ serializeRest e.

(** [serialize(uint16_t)]: the prefix length is written over the first four bytes,
    and kept in the entry. *)
Definition serialize (e : Entry) : list Z * Entry :=
  let bytes := serialize_to e in
  let len := to_u32 (Z.of_nat (length bytes - 4)) in
  (writeUInt32 len ++ drop 4 bytes, set_prefix_length len e).

(** [ByteVector tmp{size}; rb.readStrict(tmp.data(), size)] *)
Definition readBytes (size : Z) : reader (list Z) := fun rb =>
  if Z.of_nat (length rb) <? size then (Exn CANNOT_READ_ALL_DATA, [])
  else readStrict (Z.to_nat size) rb.

Definition deserializeRest (metadata_only : bool) (e : Entry) : reader Entry :=
  crc' <- readVarUInt32;;
  version' <- readVarUInt16;;
  correlation_id' <- readVarUInt;;
  max_event_timestamp' <- readVarInt;;
  append_timestamp' <- readVarInt;;
  sn' <- readVarInt;;
  type' <- readUInt8;;
  data' <- (if metadata_only then ret (data e) else size <- readVarUInt;; readBytes size);;
  ret (mkEntry (prefix_length e) crc' version' correlation_id' max_event_timestamp'
         append_timestamp' sn' type' data').

(** A default constructed [Entry]. *)
Definition new_Entry : Entry := mkEntry 0 0 0 0 0 0 0 EntryType_Normal [].

Definition deserializePrefixLength : reader Entry :=
  len <- readUInt32;; ret (set_prefix_length len new_Entry).

(** [Entry::parse] *)
Definition parse (metadata_only : bool) : reader Entry :=
  e <- deserializePrefixLength;; deserializeRest metadata_only e.

(** [Entry::parseMany]: how many bytes were parsed, an error code, the entries
    appended to those given.  [version] is passed on as [metadata_only]. *)
Fixpoint parseMany_loop (fuel : nat) (metadata_only : bool) (data_size : Z) (max_sn max_size : Z)
    (rb : list Z) (parsed_bytes : Z) (entries : list Entry) : res (Z * Z * list Entry) :=
  if parsed_bytes + prefixLengthSize <? data_size then
    match fuel with
    | O => Undef
    | S fuel =>
        match deserializePrefixLength rb with
        | (Ok e, rb) =>
            if data_size <? parsed_bytes + serializedSize e then Ok (parsed_bytes, 0, entries)
            else
              match deserializeRest metadata_only e rb with
              | (Ok e, rb) =>
                  if sn e <? max_sn then
                    let parsed_bytes := parsed_bytes + serializedSize e in
                    if max_size <=? parsed_bytes then Ok (parsed_bytes, 0, entries ++ [e])
                    else parseMany_loop fuel metadata_only data_size max_sn max_size rb parsed_bytes
                           (entries ++ [e])
                  else Ok (parsed_bytes, 0, entries)
              | (Err code, _) | (Exn code, _) => Ok (parsed_bytes, code, entries)
              | (Undef, _) => Undef
              end
        | (Err code, _) | (Exn code, _) => Ok (parsed_bytes, code, entries)
        | (Undef, _) => Undef
        end
    end
  else Ok (parsed_bytes, 0, entries).

(** A turn parses at least the four bytes of a prefix. *)
Definition parseMany (bytes : list Z) (version_ : Z) (max_sn max_size : Z) (entries : list Entry)
  : res (Z * Z * list Entry) :=
  parseMany_loop (length bytes) (negb (version_ =? 0)) (Z.of_nat (length bytes)) max_sn max_size
    bytes 0 entries.

(** ** Round trips *)

(** The values of the C++ types. *)
Record valid_entry (e : Entry) : Prop := {
  ve_prefix : u32 (prefix_length e);
  ve_crc : u32 (crc e);
  ve_version : u16 (version e);
  ve_correlation : u64 (correlation_id e);
  ve_event_ts : i64 (max_event_timestamp e);
  ve_append_ts : i64 (append_timestamp e);
  ve_sn : i64 (sn e);
  ve_type : 0 <= entry_type e < 256;
}.

(** An entry as it is after [serialize]: its prefix length is that of its bytes. *)
Definition sized (e : Entry) : Prop :=
  valid_entry e /\ prefix_length e = Z.of_nat (length (serializeRest e)).

Lemma reads_bytes bs : reads (readBytes (Z.of_nat (length bs))) bs bs.
Proof.
  intros rest. unfold readBytes. destruct (Z.ltb_spec (Z.of_nat (length (bs ++ rest))) (Z.of_nat (length bs))).
  - rewrite length_app in H. lia.
  - rewrite Nat2Z.id. apply reads_strict.
Qed.

Definition metadata_of (e : Entry) : Entry := set_data [] e.

(** The metadata: what [parse] reads when it leaves the payload alone. *)
Definition serializeMeta (e : Entry) : list Z :=
  writeUInt32 (prefix_length e) ++
  writeVarUInt (crc e) ++ writeVarUInt (version e) ++ writeVarUInt (correlation_id e) ++
  writeVarInt (max_event_timestamp e) ++ writeVarInt (append_timestamp e) ++
  writeVarInt (sn e) ++ [entry_type e].

Lemma serialize_to_meta e :
  serialize_to e = serializeMeta e ++ writeVarUInt (Z.of_nat (length (data e))) ++ data e.
Proof. unfold serialize_to, serializeMeta, serializeRest. by rewrite <- !app_assoc. Qed.

Lemma reads_rest e :
  valid_entry e -> u64 (Z.of_nat (length (data e))) ->
  reads (deserializeRest false (set_prefix_length (prefix_length e) new_Entry)) (serializeRest e) e.
Proof.
  intros [] Hlen.
  assert (Hr : reads (deserializeRest false (set_prefix_length (prefix_length e) new_Entry))
    (writeVarUInt (crc e) ++ writeVarUInt (version e) ++ writeVarUInt (correlation_id e) ++
     writeVarInt (max_event_timestamp e) ++ writeVarInt (append_timestamp e) ++
     writeVarInt (sn e) ++ [entry_type e] ++
     (writeVarUInt (Z.of_nat (length (data e))) ++ data e) ++ []) e).
  { unfold deserializeRest.
    do 7 (eapply reads_bind; [by auto with codec|cbv beta]).
    eapply reads_bind; [eapply reads_bind; [by apply reads_VarUInt|apply reads_bytes]|].
    replace (mkEntry _ _ _ _ _ _ _ _ _) with e by by destruct e.
    apply reads_ret. }
  unfold serializeRest. by rewrite app_nil_r in Hr.
Qed.

Lemma reads_prefix x : u32 x -> reads deserializePrefixLength (writeUInt32 x) (set_prefix_length x new_Entry).
Proof. intros H. eapply reads_map; [by apply reads_UInt32|done]. Qed.

Lemma reads_parse e :
  valid_entry e -> u64 (Z.of_nat (length (data e))) -> reads (parse false) (serialize_to e) e.
Proof.
  intros Hv Hlen. eapply reads_bind; [apply reads_prefix, Hv|]. by apply reads_rest.
Qed.

(** The bytes of [serialize] are those of the entry it leaves. *)
Lemma serialize_bytes e : (serialize e).1 = serialize_to (serialize e).2.
Proof. done. Qed.

Lemma length_serialize_to e :
  length (serialize_to e) = (4 + length (serializeRest e))%nat.
Proof. unfold serialize_to, writeUInt32. by rewrite length_app, length_le_encode. Qed.

Lemma serialize_sized e :
  valid_entry e -> u32 (Z.of_nat (length (serializeRest e))) -> sized (serialize e).2.
Proof.
  intros [] Hlen. unfold serialize. cbn [snd]. rewrite length_serialize_to.
  replace (4 + length (serializeRest e) - 4)%nat with (length (serializeRest e)) by lia.
  unfold to_u32. rewrite Z.mod_small by exact Hlen. split; [by split|done].
Qed.

Lemma sized_data e : sized e -> u64 (Z.of_nat (length (data e))).
Proof.
  intros [[] Heq]. unfold u32, u64 in *. unfold serializeRest in Heq. rewrite !length_app in Heq. lia.
Qed.

Lemma sized_length e : sized e -> Z.of_nat (length (serialize_to e)) = serializedSize e.
Proof.
  intros [_ Heq]. rewrite length_serialize_to. unfold serializedSize, prefixLengthSize. lia.
Qed.

Lemma sized_rest_length e : sized e -> (8 <= length (serializeRest e))%nat.
Proof.
  intros _. unfold serializeRest. rewrite !length_app.
  assert (H : forall x, (1 <= length (writeVarUInt x))%nat).
  { intros x. unfold writeVarUInt. cbn [writeVarUInt_loop]. destruct (127 <? x); cbn; lia. }
  unfold writeVarInt. pose proof (H (crc e)). pose proof (H (version e)).
  pose proof (H (correlation_id e)).
  pose proof (H (to_u64 (Z.lxor (Z.shiftl (max_event_timestamp e) 1) (Z.shiftr (max_event_timestamp e) 63)))).
  pose proof (H (to_u64 (Z.lxor (Z.shiftl (append_timestamp e) 1) (Z.shiftr (append_timestamp e) 63)))).
  pose proof (H (to_u64 (Z.lxor (Z.shiftl (sn e) 1) (Z.shiftr (sn e) 63)))).
  pose proof (H (Z.of_nat (length (data e)))). cbn [length]. lia.
Qed.

Lemma reads_metadata e : valid_entry e -> reads (parse true) (serializeMeta e) (metadata_of e).
Proof.
  intros []. unfold serializeMeta, parse. eapply reads_bind; [by apply reads_prefix|].
  unfold deserializeRest, metadata_of, set_data.
  do 6 (eapply reads_bind; [by auto with codec|cbv beta]).
  rewrite <- (app_nil_r [entry_type e]). eapply reads_bind; [by auto with codec|cbv beta].
  rewrite <- (app_nil_r []). eapply reads_bind; [apply reads_ret|]. apply reads_ret.
Qed.

(** ** Parsing a run of entries *)

(** The bytes of a run of entries. *)
Definition encode_entries (es : list Entry) : list Z := concat (serialize_to <$> es).

(** The entries [parseMany] is to return: those below [max_sn], until [max_size]
    bytes are reached. *)
Fixpoint take_entries (max_sn max_size : Z) (es : list Entry) : list Entry :=
  match es with
  | [] => []
  | e :: es =>
      if sn e <? max_sn then
        e :: (if max_size <=? serializedSize e then []
              else take_entries max_sn (max_size - serializedSize e) es)
      else []
  end.

Definition size_of (es : list Entry) : Z := Z.of_nat (length (encode_entries es)).

Lemma encode_entries_cons e es : encode_entries (e :: es) = serialize_to e ++ encode_entries es.
Proof. done. Qed.
Lemma encode_entries_app es es' :
  encode_entries (es ++ es') = encode_entries es ++ encode_entries es'.
Proof. unfold encode_entries. by rewrite fmap_app, concat_app. Qed.
Lemma size_of_cons e es : sized e -> size_of (e :: es) = serializedSize e + size_of es.
Proof.
  intros H. unfold size_of. rewrite encode_entries_cons, length_app, Nat2Z.inj_add.
  by rewrite sized_length.
Qed.

Lemma size_of_app es es' : size_of (es ++ es') = size_of es + size_of es'.
Proof. unfold size_of. rewrite encode_entries_app, length_app. lia. Qed.
Lemma size_of_nonneg es : 0 <= size_of es.
Proof. unfold size_of. lia. Qed.

(** A tail that holds no complete entry: too short for a prefix and a byte, or
    shorter than its prefix says. *)
Definition incomplete (tail : list Z) : Prop :=
  (length tail <= 4)%nat \/
  exists e, sized e /\ (length tail < length (serialize_to e))%nat /\
            tail = take (length tail) (serialize_to e).

Lemma incomplete_prefix tail :
  incomplete tail -> (4 < length tail)%nat ->
  exists e rb, sized e /\ deserializePrefixLength tail = (Ok (set_prefix_length (prefix_length e) new_Entry), rb) /\
    Z.of_nat (length tail) < serializedSize e.
Proof.
  intros [?|(e & He & Hlt & Htail)] Hlen; [lia|].
  exists e, (drop 4 tail). split; [done|].
  assert (Hsplit : tail = writeUInt32 (prefix_length e) ++ drop 4 tail).
  { rewrite <- (take_drop 4 tail) at 1. f_equal. rewrite Htail. rewrite take_take.
    replace (4 `min` length tail)%nat with 4%nat by lia. unfold serialize_to.
    rewrite take_app_length'; [done|]. unfold writeUInt32. by rewrite length_le_encode. }
  split.
  - rewrite Hsplit at 1. apply reads_prefix, He.
  - rewrite <- sized_length by done. lia.
Qed.

Lemma parseMany_loop_spec es tail fuel data_size max_sn max_size parsed acc :
  Forall sized es -> incomplete tail ->
  data_size = parsed + size_of es + Z.of_nat (length tail) ->
  (length (encode_entries es ++ tail) <= fuel)%nat ->
  parseMany_loop fuel false data_size max_sn max_size (encode_entries es ++ tail) parsed acc
  = Ok (parsed + size_of (take_entries max_sn (max_size - parsed) es), 0,
        acc ++ take_entries max_sn (max_size - parsed) es).
Proof.
  intros Hs Htail. revert fuel parsed acc. induction Hs as [|e es He Hs IH]; intros fuel parsed acc Hds Hf.
  - cbn [encode_entries fmap list_fmap concat app take_entries] in *. rewrite app_nil_r.
    change (size_of []) with 0 in *. rewrite Z.add_0_r in *.
    unfold prefixLengthSize. destruct fuel as [|fuel]; cbn [parseMany_loop].
    + rewrite (proj2 (Z.ltb_ge _ _)) by (unfold prefixLengthSize; cbn in *; lia). done.
    + unfold prefixLengthSize. destruct (Z.ltb_spec (parsed + 4) data_size); [|done].
      destruct (incomplete_prefix tail Htail) as (e & rb & He & -> & Hlt); [lia|].
      rewrite (proj2 (Z.ltb_lt _ _)); [done|]. unfold serializedSize in *. cbn [prefix_length set_prefix_length]. lia.
  - pose proof (sized_rest_length e He) as H8. pose proof (sized_length e He) as Hse.
    rewrite size_of_cons in Hds by done. rewrite encode_entries_cons, <- app_assoc in Hf |- *.
    assert (Hlen : Z.of_nat (length (serialize_to e)) >= 12) by (rewrite length_serialize_to; lia).
    assert (0 <= size_of es) by (unfold size_of; lia).
    destruct fuel as [|fuel]; [rewrite length_app in Hf; lia|]. cbn [parseMany_loop].
    rewrite (proj2 (Z.ltb_lt _ _)) by (unfold prefixLengthSize; lia).
    unfold serialize_to at 1. rewrite <- app_assoc, (reads_prefix _ (ve_prefix e (proj1 He))).
    assert (Hss : serializedSize (set_prefix_length (prefix_length e) new_Entry) = serializedSize e) by done.
    rewrite Hss, (proj2 (Z.ltb_ge data_size _)) by lia.
    rewrite (reads_rest e (proj1 He) (sized_data e He)). cbn [take_entries].
    destruct (sn e <? max_sn).
    2: { change (size_of []) with 0. by rewrite Z.add_0_r, app_nil_r. }
    destruct (Z.leb_spec max_size (parsed + serializedSize e)).
    + rewrite (proj2 (Z.leb_le _ _)) by lia. rewrite size_of_cons by done.
      change (size_of []) with 0. by rewrite Z.add_0_r.
    + rewrite (proj2 (Z.leb_gt _ _)) by lia. rewrite IH; [|lia|rewrite length_app in Hf; lia].
      rewrite size_of_cons by done.
      replace (max_size - (parsed + serializedSize e)) with (max_size - parsed - serializedSize e) by lia.
      rewrite <- app_assoc, Z.add_assoc. done.
Qed.

Lemma parseMany_spec es tail max_sn max_size acc :
  Forall sized es -> incomplete tail ->
  parseMany (encode_entries es ++ tail) 0 max_sn max_size acc
  = Ok (size_of (take_entries max_sn max_size es), 0, acc ++ take_entries max_sn max_size es).
Proof.
  intros Hs Htail. unfold parseMany. cbn [Z.eqb negb].
  rewrite (parseMany_loop_spec es tail); [|done|done| |done].
  - by rewrite Z.sub_0_r.
  - unfold size_of. rewrite length_app. lia.
Qed.

(** ** Properties *)

(** C28. Writing an entry and parsing it back gives the entry with the prefix length
    it was given, and consumes exactly its bytes, whatever follows them; an entry
    parsed from its metadata alone is the same without the payload. *)
Theorem entry_roundtrip e rest :
  valid_entry e -> u32 (Z.of_nat (length (serializeRest e))) ->
  let '(bytes, e') := serialize e in
  parse false (bytes ++ rest) = (Ok e', rest) /\ Entry_eq e e' = true /\
  serializedSize e' = Z.of_nat (length bytes) /\
  exists rest', parse true (bytes ++ rest) = (Ok (metadata_of e'), rest').
Proof.
  intros Hv Hlen. destruct (serialize e) as [bytes e'] eqn:Hser.
  pose proof (serialize_bytes e) as Hb. pose proof (serialize_sized e Hv Hlen) as Hs.
  rewrite Hser in Hb, Hs. cbn [fst snd] in Hb, Hs. subst bytes. split_and!.
  - apply reads_parse; [apply Hs|by apply sized_data].
  - unfold serialize in Hser. simplify_eq. unfold Entry_eq. cbn.
    rewrite !Z.eqb_refl. cbn. by apply bool_decide_eq_true_2.
  - symmetry. by apply sized_length.
  - eexists. rewrite serialize_to_meta, <- app_assoc. apply reads_metadata, Hs.
Qed.

Definition example_entry : Entry := mkEntry 0 7 1 300 1700000000000 (-5) 42 EntryType_Normal [1; 2; 3].

Lemma example_entry_valid :
  valid_entry example_entry /\ u32 (Z.of_nat (length (serializeRest example_entry))).
Proof. split; [split; vm_compute; split; congruence|vm_compute; split; congruence]. Qed.

Lemma entry_roundtrip_witness :
  let '(bytes, e') := serialize example_entry in
  parse false (bytes ++ [9; 9]) = (Ok e', [9; 9]) /\ Entry_eq example_entry e' = true /\
  serializedSize e' = Z.of_nat (length bytes) /\
  exists rest', parse true (bytes ++ [9; 9]) = (Ok (metadata_of e'), rest').
Proof.
  apply (entry_roundtrip example_entry [9; 9]); apply example_entry_valid.
Defined.

(** C29. [parseMany] on the bytes of a run of entries, followed by a tail with no
    complete entry, returns the entries below [max_sn] until [max_size] bytes are
    reached, after those already there, and exactly the bytes of the new ones. *)
Theorem parseMany_correct es tail max_sn max_size acc :
  Forall sized es -> incomplete tail ->
  parseMany (encode_entries es ++ tail) 0 max_sn max_size acc
  = Ok (size_of (take_entries max_sn max_size es), 0, acc ++ take_entries max_sn max_size es).
Proof. apply parseMany_spec. Qed.

Definition example_entries : list Entry :=
  [(serialize example_entry).2;
   (serialize (mkEntry 0 7 1 300 1700000000000 (-5) 43 EntryType_Normal [4; 5])).2;
   (serialize (mkEntry 0 7 1 300 1700000000000 (-5) 44 EntryType_Normal [6])).2].

Lemma example_entries_sized : Forall sized example_entries.
Proof.
  repeat constructor; apply serialize_sized;
    first [split; vm_compute; split; congruence|vm_compute; split; congruence].
Qed.

Lemma parseMany_correct_witness :
  take_entries 44 1000 example_entries = take 2 example_entries /\
  parseMany (encode_entries example_entries ++ [1; 2]) 0 44 1000 []
  = Ok (size_of (take_entries 44 1000 example_entries), 0, [] ++ take_entries 44 1000 example_entries).
Proof.
  split; [vm_compute; reflexivity|].
  apply (parseMany_correct example_entries [1; 2] 44 1000 []).
  - apply example_entries_sized.
  - left. cbn. lia.
Defined.
