(* ===== verification/FileLogEntries.v ===== *)
(** * FileLogEntries (src/Cluster/LocalLog/Common/FileLogEntries.cpp)

    The entries of a segment file or of a slice of it: appending, truncating,
    walking over the metadata, and reading the entries of a slice through a bounded
    buffer. *)

From S2P Require Import Prelude Os AppendOnlyFile Codec Entry.

Local Open Scope prog_scope.

Definition CANNOT_FSTAT : Z := 531.

Record FileLogEntries : Type := mkFileLogEntries {
  file : AppendOnlyFile;
  start_pos : Z;               (** position in the file *)
  end_pos : Z;
  is_slice : bool;
  eof : bool;
  bytes : Z;                   (** size of the file *)
}.

(** A position and size found by a search. *)
Record LogSequencePosition : Type := mkLogSequencePosition {
  lsp_sn : Z;
  lsp_file_position : Z;
  lsp_entry_size : Z;
}.

Module Fle.

Definition set_bytes (x : Z) (l : FileLogEntries) : FileLogEntries :=
  mkFileLogEntries (file l) (start_pos l) (end_pos l) (is_slice l) (eof l) x.
Definition set_file (x : AppendOnlyFile) (l : FileLogEntries) : FileLogEntries :=
  mkFileLogEntries x (start_pos l) (end_pos l) (is_slice l) (eof l) (bytes l).

(** The constructor asks for the size of the file. *)
Definition create (f : AppendOnlyFile) (start_pos end_pos : Z) (is_slice : bool)
  : M world FileLogEntries :=
  r <- attempt (File.size f);;
  match r with
  | inl n => ret (mkFileLogEntries f start_pos end_pos is_slice false (Z.of_nat n))
  | inr _ => throw CANNOT_FSTAT
  end.

Definition open (filename : string) (file_already_exists readonly : bool) : M world FileLogEntries :=
  f <- File.open_as filename file_already_exists readonly;;
  create f 0 (2 ^ 64 - 1) false.

(** The bytes left in the file are counted also when the append failed. *)
Definition append_batch (l : FileLogEntries) (batch_data : list (list Z)) (total_bytes : nat)
  : M world (nat * Z * FileLogEntries) :=
  written <- File.append_batch (file l) batch_data total_bytes;;
  ret (written, set_bytes (bytes l + Z.of_nat written.1) l).
Definition append (l : FileLogEntries) (entry_data : list Z) : M world (nat * Z * FileLogEntries) :=
  written <- File.append (file l) entry_data;;
  ret (written, set_bytes (bytes l + Z.of_nat written.1) l).

Definition read (l : FileLogEntries) (bytes_to_read : nat) (position : Z) : M world (list Z) :=
  File.read (file l) bytes_to_read (Z.to_nat (start_pos l + position)).

Definition availableBytes (l : FileLogEntries) (position size : Z) : Z :=
  let current_size := bytes l in
  let end_ := start_pos l + position + size in
  let end_ := if (start_pos l + current_size <? end_) || (size =? 0)
              then start_pos l + current_size else end_ in
  end_ - start_pos l - position.

Definition slice (l : FileLogEntries) (position size : Z) : M world FileLogEntries :=
  let available_bytes := availableBytes l position size in
  create (file l) (start_pos l + position) (start_pos l + position + available_bytes) true.

(** [trim(length)]: how many bytes were cut off. *)
Definition trim (l : FileLogEntries) (length : Z) : M world (Z * FileLogEntries) :=
  File.truncate (file l) (Z.to_nat length) >>
  ret (bytes l - length, set_bytes length l).

Definition setEndOfFile (l : FileLogEntries) : FileLogEntries :=
  mkFileLogEntries (file l) (start_pos l) (end_pos l) (is_slice l) true (bytes l).

Definition close (l : FileLogEntries) : FileLogEntries :=
  if is_slice l then l else set_file (File.close (file l)) l.

Definition empty (l : FileLogEntries) : bool := start_pos l =? end_pos l.

(** ** Walking over the metadata *)

(** [applyLogEntryMetadata]: [callback] updates what it captures, here the second
    part of the state, and says whether to stop.  A failed read ends the walk like
    the end of the file does; an entry that cannot be parsed throws. *)
Fixpoint apply_loop {B} (fuel : nat) (f : AppendOnlyFile) (callback : B -> Entry -> Z -> B * bool)
    (start_offset end_pos : Z) : M (world * B) unit :=
  if start_offset <? end_pos then
    match fuel with
    | O => undef
    | S fuel =>
        n <- zoom fst (fun w s => (w, s.2))
               (attempt (File.read f approximateSerializedMetadataSize (Z.to_nat start_offset)));;
        match n with
        | inl (b0 :: buf) =>
            match parse true (b0 :: buf) with
            | (Ok entry_meta, _) =>
                b <- gets snd;;
                let '(b, stop) := callback b entry_meta start_offset in
                modify (fun s => (s.1, b)) >>
                if (stop : bool) then ret tt
                else apply_loop fuel f callback (start_offset + serializedSize entry_meta) end_pos
            | (Err e, _) => fail e
            | (Exn e, _) => throw e
            | (Undef, _) => undef
            end
        | _ => ret tt
        end
    end
  else ret tt.

(** Every turn moves on by at least the four bytes of a prefix. *)
Definition applyLogEntryMetadata {B} (l : FileLogEntries) (callback : B -> Entry -> Z -> B * bool)
    (starting_position : option Z) : M (world * B) unit :=
  fuel <- gets (fun s => S (length (default [] (w_files s.1 !! filename (file l)))));;
  apply_loop fuel (file l) callback (default (start_pos l) starting_position) (end_pos l).

Definition searchForSequenceWithSize (l : FileLogEntries) (target_sn starting_position : Z)
  : M world (option LogSequencePosition) :=
  r <- zoom (fun w => (w, (0, 0))) (fun s _ => s.1)
         (applyLogEntryMetadata l
            (fun (found : Z * Z) entry position =>
               if sn entry =? target_sn then ((serializedSize entry, position), true)
               else (found, false))
            (Some starting_position) >>
          gets snd);;
  let '(target_size, target_position) := r in
  ret (if 0 <? target_size then Some (mkLogSequencePosition target_sn target_position target_size)
       else None).

(** ** Reading the entries of a slice *)

(** The buffer and the positions [deserialize] works with. *)
Record read_state : Type := mkReadState {
  read_buf : list Z;
  next_consuming_pos : nat;
  unconsumed : nat;
  current_file_offset : Z;
}.

(** [read_more_data(resize)]: [inl] the new state, [inr] the error code, zero for
    the end of the file. *)
Definition read_more_data (f : AppendOnlyFile) (end_offset : Z) (st : read_state) (resize : bool)
  : M world (read_state + Z) :=
  let '(mkReadState buf next unconsumed current) := st in
  let '(buf, next) :=
    if negb resize then
      if (length buf =? next + unconsumed)%nat then
        (drop next buf ++ drop (length buf - next) buf, 0%nat)
      else (buf, next)
    else (buf ++ replicate (length buf) 0, next) in
  let max_to_read :=
    Z.min (to_u64 (end_offset - current + 1)) (to_u64 (Z.of_nat (length buf) - Z.of_nat next - Z.of_nat unconsumed)) in
  r <- attempt (File.read f (Z.to_nat max_to_read) (Z.to_nat current));;
  match r with
  | inr e => ret (inr e)
  | inl [] => ret (inr 0)
  | inl r =>
      let at_ := (next + unconsumed)%nat in
      ret (inl (mkReadState (take at_ buf ++ r ++ drop (at_ + length r) buf) next
                  (unconsumed + length r) (current + Z.of_nat (length r))))
  end.

(** The loop of [deserialize]: what has been parsed, the entries, an error code. *)
Fixpoint deserialize_loop (fuel : nat) (f : AppendOnlyFile) (end_offset max_sn : Z)
    (st : read_state) (max_bytes_to_parse : Z) (first : Z) (entries : list Entry)
  : M world (Z * list Entry * Z) :=
  match fuel with
  | O => undef
  | S fuel =>
      if (unconsumed st <? next_consuming_pos st)%nat then undef
      else
        let view := take (unconsumed st - next_consuming_pos st)
                      (drop (next_consuming_pos st) (read_buf st)) in
        match parseMany view 0 max_sn max_bytes_to_parse entries with
        | Ok (parsed_bytes, code, entries) =>
            if negb (code =? 0) then ret (first, [], code)
            else
              let first := first + parsed_bytes in
              if max_bytes_to_parse <=? parsed_bytes then ret (first, entries, 0)
              else
                let max_bytes_to_parse := max_bytes_to_parse - parsed_bytes in
                if match last entries with Some e => max_sn <=? sn e + 1 | None => false end
                then ret (first, entries, 0)
                else if end_offset <=? current_file_offset st then ret (first, entries, 0)
                else
                  let next := (next_consuming_pos st + Z.to_nat parsed_bytes)%nat in
                  if (unconsumed st <? next)%nat then undef
                  else
                    let unconsumed' := (unconsumed st - next)%nat in
                    r <- read_more_data f end_offset
                           (mkReadState (read_buf st) next unconsumed' (current_file_offset st))
                           (length (read_buf st) <=? unconsumed')%nat;;
                    match r with
                    | inr e => ret (first, entries, e)
                    | inl st => deserialize_loop fuel f end_offset max_sn st max_bytes_to_parse
                                  first entries
                    end
        | Err e => fail e
        | Exn e => throw e
        | Undef => undef
        end
  end.

(** Every turn but the last reads at least one more byte of the slice. *)
Definition deserialize (l : FileLogEntries) (max_sn max_size max_buffer_size : Z)
  : M world (Z * list Entry * Z) :=
  let start_offset := start_pos l in
  let end_offset := end_pos l in
  let to_read := to_u64 (end_offset - start_offset) in
  let max_to_read := Z.to_nat (Z.min to_read max_buffer_size) in
  r <- attempt (File.read (file l) max_to_read (Z.to_nat start_offset));;
  match r with
  | inr e => ret (0, [], e)
  | inl [] => ret (0, [], 0)
  | inl r =>
      fuel <- gets (fun w => (2 + length (default [] (w_files w !! filename (file l))))%nat);;
      deserialize_loop fuel (file l) end_offset max_sn
        (mkReadState (r ++ replicate (max_to_read - length r) 0) 0 (length r)
           (start_offset + Z.of_nat (length r)))
        max_size 0 []
  end.

End Fle.
