(* ===== verification/FleSpec.v ===== *)
(** * What reading a slice returns

    [deserialize] reads a slice of a segment file through a buffer of any size and
    returns the entries of the slice up to the limits, as a parse of the whole
    slice would. *)

From S2P Require Import Prelude Os AppendOnlyFile Codec Entry FileLogEntries.

(** ** Entries cut by a read *)

Lemma split_complete es n :
  Forall sized es -> (n <= length (encode_entries es))%nat ->
  exists ea eb tail, es = ea ++ eb /\ take n (encode_entries es) = encode_entries ea ++ tail /\
    (tail = [] \/ exists e eb', eb = e :: eb' /\ (length tail < length (serialize_to e))%nat /\
                              tail = take (length tail) (serialize_to e)).
Proof.
  intros Hs. revert n. induction Hs as [|e es He Hs IH]; intros n Hn.
  { exists [], [], []. cbn. rewrite take_nil. auto. }
  rewrite encode_entries_cons in Hn |- *. rewrite length_app in Hn.
  destruct (decide (length (serialize_to e) <= n)%nat) as [Hle|Hgt].
  - destruct (IH (n - length (serialize_to e))%nat) as (ea & eb & tail & -> & Htk & Htail); [lia|].
    exists (e :: ea), eb, tail. split_and!; [done| |done].
    rewrite take_app, take_ge by lia. by rewrite Htk, encode_entries_cons, app_assoc.
  - exists [], (e :: es), (take n (serialize_to e)). split_and!; [done| |].
    + rewrite take_app_le by lia. done.
    + right. exists e, es. rewrite length_take. split_and!; [done|lia|]. f_equal. lia.
Qed.

Lemma view_split es X u :
  Forall sized es -> (u <= S (length (encode_entries es)))%nat ->
  exists ea eb tail, es = ea ++ eb /\ take u (encode_entries es ++ X) = encode_entries ea ++ tail /\
    incomplete tail /\ ((length (encode_entries es) <= u)%nat -> eb = []).
Proof.
  intros Hs Hu. destruct (decide (u <= length (encode_entries es))%nat) as [Hle|Hgt].
  - destruct (split_complete es u Hs Hle) as (ea & eb & tail & -> & Htk & Htail).
    exists ea, eb, tail. rewrite take_app_le by done. split_and!; [done|done| |].
    + destruct Htail as [->|(e & eb' & -> & Hlt & Heq)]; [left; cbn; lia|].
      right. exists e. split_and!; [|done|done]. apply Forall_app in Hs as [_ Hs].
      by apply Forall_cons in Hs as [? _].
    + intros Hge. rewrite take_ge, encode_entries_app in Htk by lia.
      apply app_inv_head in Htk. destruct Htail as [->|(e & eb' & -> & Hlt & _)].
      * destruct eb as [|e eb]; [done|]. apply (f_equal length) in Htk.
        rewrite encode_entries_cons, length_app, length_serialize_to in Htk. cbn in Htk. lia.
      * apply (f_equal length) in Htk. rewrite encode_entries_cons, length_app in Htk. lia.
  - exists es, [], (take 1 X). split_and!; [by rewrite app_nil_r| | |done].
    + rewrite take_app, take_ge by lia. do 2 f_equal. lia.
    + left. rewrite length_take. lia.
Qed.

(** ** The reference *)

Lemma take_entries_prefix m s es : take_entries m s es `prefix_of` es.
Proof.
  revert s. induction es as [|e es IH]; intros s; cbn; [done|].
  destruct (sn e <? m); [|apply prefix_nil]. apply prefix_cons.
  destruct (s <=? serializedSize e); [apply prefix_nil|apply IH].
Qed.

Lemma take_entries_continue m s ea es t es' :
  Forall sized ea -> t = take_entries m s ea -> ea `prefix_of` es -> es = t ++ es' ->
  size_of t < s -> take_entries m s es = t ++ take_entries m (s - size_of t) es'.
Proof.
  intros Hs. revert s es t. induction Hs as [|e ea He Hs IH]; intros s es t Ht [eb ->] Hes Hlt; cbn in Ht.
  { subst t. cbn in Hes |- *. subst es'. change (size_of []) with 0. by rewrite Z.sub_0_r. }
  destruct (sn e <? m) eqn:Hsn.
  - destruct (Z.leb_spec s (serializedSize e)) as [Hle|Hgt].
    { subst t. rewrite size_of_cons in Hlt by done. change (size_of []) with 0 in Hlt. lia. }
    subst t. cbn in Hes. injection Hes as Hes. rewrite size_of_cons in Hlt |- * by done.
    cbn [app take_entries]. rewrite Hsn, (proj2 (Z.leb_gt _ _)) by done. f_equal.
    rewrite (IH _ (ea ++ eb) _ eq_refl); [|by exists eb|done|lia]. do 2 f_equal. lia.
  - subst t. cbn in Hes |- *. subst es'. change (size_of []) with 0. cbn. by rewrite Hsn.
Qed.

Lemma take_entries_reached m s ea eb :
  Forall sized ea -> 0 < s -> s <= size_of (take_entries m s ea) ->
  take_entries m s (ea ++ eb) = take_entries m s ea.
Proof.
  intros Hs. revert s. induction Hs as [|e ea He Hs IH]; intros s Hpos Hle; cbn in *.
  { change (size_of []) with 0 in Hle. lia. }
  destruct (sn e <? m) eqn:Hsn; [|done]. destruct (Z.leb_spec s (serializedSize e)) as [|Hgt]; [done|].
  rewrite size_of_cons in Hle by done. f_equal. apply IH; lia.
Qed.

(** Sequence numbers increase along the log. *)
Definition sn_increasing (es : list Entry) : Prop := StronglySorted (fun a b => sn a < sn b) es.

Lemma take_entries_above m s t es b :
  sn_increasing (t ++ es) -> last t = Some b -> m <= sn b + 1 -> take_entries m s es = [].
Proof.
  intros Hs Hb Hm. apply last_Some in Hb as [t' ->]. destruct es as [|e es]; [done|]. cbn.
  apply StronglySorted_app in Hs as (Hlt & _ & _).
  assert (sn b < sn e) by (apply Hlt; [apply elem_of_app; right; by left|by left]).
  by rewrite (proj2 (Z.ltb_ge _ _)) by lia.
Qed.

(** ** The loop *)

Section Deserialize.
Context (w0 : world) (f : AppendOnlyFile) (c : list Z) (start : nat) (es : list Entry) (X : list Z).
Context (Hfile : drop start c = encode_entries es ++ X) (Hstart : (start <= length c)%nat)
  (Hsmall : Z.of_nat (length c) < 2 ^ 62) (Hsized : Forall sized es) (Hsn : sn_increasing es).

Abbreviation len es := (length (encode_entries es)).
Definition end_offset : Z := Z.of_nat (start + len es).

(** The buffer holds the [u] bytes that follow the consumed entries [es1], and is
    full or has met the end of the slice. *)
Record buffered (es1 es2 : list Entry) (st : Fle.read_state) : Prop := {
  bf_entries : es = es1 ++ es2;
  bf_next : Fle.next_consuming_pos st = 0%nat;
  bf_bytes : take (Fle.unconsumed st) (Fle.read_buf st) = take (Fle.unconsumed st) (encode_entries es2 ++ X);
  bf_space : (Fle.unconsumed st <= length (Fle.read_buf st))%nat;
  bf_avail : (Fle.unconsumed st <= length (encode_entries es2 ++ X))%nat;
  bf_slice : (Fle.unconsumed st <= S (len es2))%nat;
  bf_full : Fle.unconsumed st = length (Fle.read_buf st) \/ (len es2 <= Fle.unconsumed st)%nat;
  bf_size : Z.of_nat (length (Fle.read_buf st)) < 2 ^ 63;
  bf_offset : Fle.current_file_offset st = Z.of_nat (start + len es1 + Fle.unconsumed st);
}.

Lemma file_length : (length c = start + len es + length X)%nat.
Proof. apply (f_equal length) in Hfile. rewrite length_drop, length_app in Hfile. lia. Qed.

Lemma drop_file es1 es2 u :
  es = es1 ++ es2 -> drop (start + len es1 + u) c = drop u (encode_entries es2 ++ X).
Proof.
  intros Hes. rewrite <- !drop_drop, Hfile, Hes, encode_entries_app, <- app_assoc.
  by rewrite drop_app_length.
Qed.

(** After [p] bytes of a full buffer were consumed, the rest is moved to its front,
    or the buffer doubled, and filled up. *)
Lemma wp_read_more w es1 es2 buf p u (Q : Fle.read_state + Z -> world -> Prop) (E : fault -> world -> Prop) :
  readable f w c -> evolves w0 w -> es = es1 ++ es2 ->
  length buf = (p + u)%nat -> (0 < length buf)%nat -> Z.of_nat (length buf) < 2 ^ 63 ->
  drop p buf = take u (encode_entries es2 ++ X) -> (u < len es2)%nat ->
  (forall st w', evolves w0 w' -> w_files w' = w_files w -> buffered es1 es2 st ->
     (u < Fle.unconsumed st)%nat -> Q (inl st) w') ->
  (forall e w', evolves w0 w' -> w_files w' = w_files w -> ~ benign w0 -> Q (inr e) w') ->
  wp (Fle.read_more_data f end_offset
        (Fle.mkReadState buf p u (Z.of_nat (start + len es1 + u))) (length buf <=? u)%nat) Q E w.
Proof.
  intros Hr Hev Hes Hbuf Hpos Hsz Hdrop Hu HQ Hbad. set (R := encode_entries es2 ++ X) in *.
  assert (HR : length R = (len es2 + length X)%nat) by apply length_app.
  assert (Hlen : (len es = len es1 + len es2)%nat) by (rewrite Hes, encode_entries_app; apply length_app).
  pose proof file_length as Hfl.
  set (buf' := if negb (length buf <=? u)%nat then drop p buf ++ drop (length buf - p) buf
               else buf ++ replicate (length buf) 0).
  assert (Hbuf' : take u buf' = take u R /\ (u < length buf')%nat /\ Z.of_nat (length buf') < 2 ^ 63).
  { unfold buf'. destruct (Nat.leb_spec (length buf) u) as [Hle|Hgt]; cbn.
    - assert (p = 0%nat) by lia. subst p. rewrite drop_0 in Hdrop. rewrite length_app, length_replicate.
      split_and!; [|lia|lia]. rewrite take_app_le by lia. rewrite Hdrop, take_take. f_equal. lia.
    - rewrite length_app, !length_drop. split_and!; [|lia|lia].
      rewrite take_app_le by (rewrite length_drop; lia). rewrite Hdrop, take_take. f_equal. lia. }
  destruct Hbuf' as (Htk' & Hspace & Hsz').
  unfold Fle.read_more_data.
  replace (if negb (length buf <=? u)%nat then _ else _) with (buf', 0%nat).
  2: { unfold buf'. destruct (Nat.leb_spec (length buf) u) as [Hle|Hgt]; cbn.
       - f_equal. lia.
       - rewrite (proj2 (Nat.eqb_eq _ _)) by done. done. }
  set (n := Z.min _ _).
  assert (Hn : n = Z.min (Z.of_nat (len es2 - u) + 1) (Z.of_nat (length buf' - u))).
  { unfold n, to_u64, end_offset. rewrite !Z.mod_small by lia. lia. }
  apply wp_bind, wp_attempt. eapply (wp_read w0); [done| |exact Hr|].
  { intros x w' ???. by apply wp_ret, Hbad. }
  intros w1 Hev1 Hfs1. rewrite Nat2Z.id, (drop_file es1 es2 u Hes). fold R.
  set (r := take (Z.to_nat n) (drop u R)).
  assert (Hlr : length r = (Z.to_nat n `min` (length R - u))%nat) by (unfold r; by rewrite length_take, length_drop).
  assert (Hrt : take (length r) (drop u R) = r) by apply take_length_take.
  clearbody r. destruct r as [|b r'] eqn:Hrr; [cbn in Hlr; lia|]. rewrite <- Hrr in *.
  apply wp_ret, HQ; [done|done| |cbn; lia].
  rewrite Nat.add_0_l. split; cbn -[length take]; try done.
  - rewrite app_assoc, take_app_le, take_ge; rewrite ?length_app, ?length_take; [|lia|lia].
    by rewrite Htk', <- (take_take_drop R u), Hrt.
  - rewrite !length_app, length_take, length_drop. lia.
  - fold R. lia.
  - lia.
  - rewrite !length_app, length_take, length_drop. lia.
  - rewrite !length_app, length_take, length_drop. lia.
  - lia.
Qed.

(** The result for a slice, or what was read before the kernel refused a read. *)
Definition deserialized (t : list Entry) (r : Z * list Entry * Z) : Prop :=
  r = (size_of t, t, 0) \/
  (~ benign w0 /\ exists t' e, t' `prefix_of` t /\ r = (size_of t', t', e)).

(** What parsing left of the entries in view it would not take afterwards either. *)
Lemma take_entries_rest m s ea ea' :
  Forall sized ea -> ea = take_entries m s ea ++ ea' -> size_of (take_entries m s ea) < s ->
  take_entries m (s - size_of (take_entries m s ea)) ea' = [].
Proof.
  intros Hs Hea Hlt. pose proof (take_entries_continue m s ea ea _ ea' Hs eq_refl (reflexivity _) Hea Hlt) as Hc.
  rewrite <- (app_nil_r (take_entries m s ea)) in Hc at 1. by apply app_inv_head in Hc.
Qed.

Lemma wp_deserialize_loop fuel w es1 es2 st max_sn s (Q : Z * list Entry * Z -> world -> Prop)
    (E : fault -> world -> Prop) :
  readable f w c -> evolves w0 w -> buffered es1 es2 st -> 0 < s -> (0 < Fle.unconsumed st)%nat ->
  (len es + 2 <= fuel + len es1 + Fle.unconsumed st)%nat ->
  (forall r w', evolves w0 w' -> w_files w' = w_files w ->
     deserialized (es1 ++ take_entries max_sn s es2) r -> Q r w') ->
  wp (Fle.deserialize_loop fuel f end_offset max_sn st s (size_of es1) es1) Q E w.
Proof.
  revert w es1 es2 st s. induction fuel as [|fuel IH];
    intros w es1 es2 st s Hr Hev Hbf Hs Hu Hf HQ; pose proof Hbf as [Hes Hnext Hby Hsp Hav Hsl Hfull Hsz Hoff].
  { rewrite Hes, encode_entries_app, length_app in Hf. lia. }
  cbn [Fle.deserialize_loop]. rewrite Hnext, (proj2 (Nat.ltb_ge (Fle.unconsumed st) 0)) by lia.
  rewrite Nat.sub_0_r, drop_0, Hby. set (u := Fle.unconsumed st) in *.
  assert (Hsz2 : Forall sized es2) by (rewrite Hes in Hsized; by apply Forall_app in Hsized as [_ ?]).
  destruct (view_split es2 X u Hsz2 Hsl) as (ea & eb & tail & Hea & Hview & Hinc & Hend).
  rewrite Hview. assert (Hsza : Forall sized ea) by (rewrite Hea in Hsz2; by apply Forall_app in Hsz2 as [? _]).
  rewrite parseMany_spec by done. cbn [Z.eqb negb].
  set (t := take_entries max_sn s ea) in *. rewrite <- size_of_app.
  destruct (Z.leb_spec s (size_of t)) as [Hreach|Hmore].
  { apply wp_ret, HQ; [done|done|]. left. by rewrite Hea, take_entries_reached. }
  destruct (take_entries_prefix max_sn s ea) as [ea' Hea']. fold t in Hea'.
  set (es2' := ea' ++ eb). assert (Hes2 : es2 = t ++ es2') by (by rewrite Hea, Hea', <- app_assoc).
  assert (Hgoal : take_entries max_sn s es2 = t ++ take_entries max_sn (s - size_of t) es2').
  { eapply take_entries_continue; [exact Hsza|done|by exists eb|done|done]. }
  assert (Hes' : es = (es1 ++ t) ++ es2') by (by rewrite <- app_assoc, <- Hes2).
  rewrite Hgoal, app_assoc in HQ.
  destruct (match last (es1 ++ t) with Some e => max_sn <=? sn e + 1 | None => false end) eqn:Hlast.
  { destruct (last (es1 ++ t)) as [b|] eqn:Hb; [|done]. apply Z.leb_le in Hlast.
    apply wp_ret, HQ; [done|done|]. left.
    rewrite (take_entries_above max_sn _ (es1 ++ t) es2' b), app_nil_r; [done| |done|done].
    by rewrite <- Hes'. }
  assert (Hlen2 : len es2 = (length (encode_entries t) + len es2')%nat)
    by (rewrite Hes2, encode_entries_app; apply length_app).
  assert (Hlen : (len es = len es1 + len es2)%nat) by (rewrite Hes, encode_entries_app; apply length_app).
  destruct (Z.leb_spec end_offset (Fle.current_file_offset st)) as [Hdone|Hnot].
  { apply wp_ret, HQ; [done|done|]. left. rewrite Hoff in Hdone. unfold end_offset in Hdone.
    assert (eb = []) as -> by (apply Hend; lia). unfold es2'. rewrite app_nil_r.
    unfold t in *. by rewrite take_entries_rest, app_nil_r. }
  rewrite Hoff in Hnot. unfold end_offset in Hnot.
  assert (Hufull : u = length (Fle.read_buf st)) by (destruct Hfull as [?|?]; [done|lia]).
  assert (Htu : (length (encode_entries t) <= u)%nat).
  { apply (f_equal length) in Hview. rewrite Hea', encode_entries_app, length_take, !length_app in Hview.
    rewrite length_app in Hav. lia. }
  rewrite Nat.add_0_l. replace (Z.to_nat (size_of t)) with (length (encode_entries t))
    by (unfold size_of; by rewrite Nat2Z.id).
  rewrite (proj2 (Nat.ltb_ge _ _)) by lia. apply wp_bind.
  replace (Fle.current_file_offset st)
    with (Z.of_nat (start + len (es1 ++ t) + (u - length (encode_entries t))))
    by (rewrite Hoff, encode_entries_app, length_app; lia).
  eapply (wp_read_more w (es1 ++ t) es2'); [done|done|done|lia|lia|done| |lia| |].
  - apply (f_equal (drop (length (encode_entries t)))) in Hby.
    rewrite (take_ge (Fle.read_buf st)) in Hby by lia. rewrite Hby, skipn_firstn_comm, Hes2, encode_entries_app.
    by rewrite <- app_assoc, drop_app_length.
  - intros st' w' Hev' Hfs' Hbf' Hlt. apply (IH w' (es1 ++ t) es2'); [|done|done|lia|lia| |].
    + destruct Hr. split; [done|]. by rewrite Hfs'.
    + rewrite encode_entries_app, length_app. lia.
    + intros r w'' ???. apply HQ; [done|congruence|done].
  - intros e w' Hev' Hfs' Hb. apply wp_ret, HQ; [done|done|]. right. split; [done|].
    exists (es1 ++ t), e. split; [by eexists|done].
Qed.

Lemma wp_deserialize w l max_sn max_size max_buffer_size
    (Q : Z * list Entry * Z -> world -> Prop) (E : fault -> world -> Prop) :
  file l = f -> start_pos l = Z.of_nat start -> end_pos l = end_offset ->
  readable f w c -> evolves w0 w -> 0 < max_size -> 0 < max_buffer_size ->
  (forall r w', evolves w0 w' -> w_files w' = w_files w ->
     deserialized (take_entries max_sn max_size es) r -> Q r w') ->
  wp (Fle.deserialize l max_sn max_size max_buffer_size) Q E w.
Proof.
  intros Hf Hst Hen Hr Hev Hms Hmb HQ. unfold Fle.deserialize. rewrite Hf, Hst, Hen.
  pose proof file_length as Hfl.
  replace (to_u64 (end_offset - Z.of_nat start)) with (Z.of_nat (len es))
    by (unfold end_offset, to_u64; rewrite Z.mod_small by lia; lia).
  set (n := Z.to_nat (Z.min (Z.of_nat (len es)) max_buffer_size)).
  assert (Hn : (n <= len es)%nat) by lia.
  apply wp_bind, wp_attempt. eapply (wp_read w0); [done| |exact Hr|].
  { intros x w' ???. apply wp_ret, HQ; [done|done|]. right. split; [done|]. exists [], x.
    split; [apply prefix_nil|done]. }
  intros w1 Hev1 Hfs1. rewrite Nat2Z.id, Hfile. set (r := take n (encode_entries es ++ X)).
  assert (Hlr : length r = n) by (unfold r; rewrite length_take, length_app; lia).
  destruct r as [|b r'] eqn:Hrr.
  { apply wp_ret, HQ; [done|done|]. left. destruct es as [|e es']; [done|]. cbn in Hlr.
    unfold n in Hlr. rewrite encode_entries_cons, length_app, length_serialize_to in Hlr. lia. }
  rewrite <- Hrr in *. assert (Hpos : (0 < n)%nat) by (rewrite <- Hlr, Hrr; cbn; lia).
  clear b r' Hrr. apply wp_bind, wp_gets.
  destruct (Hr) as [Ho Hc]. rewrite Hfs1, Hc. cbn [default from_option].
  rewrite Hlr, Nat.sub_diag, app_nil_r.
  apply (wp_deserialize_loop _ w1 [] es); [split; [done|by rewrite Hfs1]|done| |done| | |].
  - split; cbn -[length take encode_entries]; try done;
      try (change (len []) with 0%nat; rewrite ?length_app; lia).
    unfold r. by rewrite take_take, Nat.min_id.
  - done.
  - change (len []) with 0%nat. cbn -[length encode_entries]. lia.
  - intros x w' ???. apply HQ; [done|congruence|done].
Qed.
End Deserialize.

(** ** Walking over the metadata *)

(** The walk reads 43 bytes of each entry, which have to hold its metadata. *)
Definition meta_fits (e : Entry) : Prop :=
  (length (serializeMeta e) <= approximateSerializedMetadataSize)%nat.

(** A buffer that starts with the metadata of [e] parses to it. *)
Lemma parse_meta_prefix e rest :
  sized e -> exists b buf rest', serializeMeta e ++ rest = b :: buf /\
    parse true (b :: buf) = (Ok (metadata_of e), rest').
Proof.
  intros He. pose proof (reads_metadata e (proj1 He) rest) as Hp.
  destruct (serializeMeta e ++ rest) as [|b buf] eqn:Heq.
  - apply (f_equal length) in Heq. unfold serializeMeta, writeUInt32 in Heq.
    rewrite !length_app, length_le_encode in Heq. cbn in Heq. lia.
  - by exists b, buf, rest.
Qed.

Lemma parse_meta_buffer e n rest :
  sized e -> meta_fits e -> (length (serializeMeta e) <= n)%nat ->
  exists b buf rest',
    take approximateSerializedMetadataSize (take n (serialize_to e) ++ rest) = b :: buf /\
    parse true (b :: buf) = (Ok (metadata_of e), rest').
Proof.
  intros He Hfit Hn. unfold meta_fits in Hfit. rewrite serialize_to_meta.
  rewrite (take_app_ge (serializeMeta e)), <- app_assoc, take_app_ge by done.
  by apply parse_meta_prefix.
Qed.

(** What follows the entries of a walk: the end of the file, the end of the slice,
    or an entry torn in its payload, which the walk still visits. *)
Inductive walk_tail (end_ : Z) (pos : nat) : list Z -> list Entry -> Prop :=
  | tail_eof : walk_tail end_ pos [] []
  | tail_slice X : end_ = Z.of_nat pos -> walk_tail end_ pos X []
  | tail_torn e n :
      sized e -> meta_fits e -> (length (serializeMeta e) <= n)%nat ->
      (n < length (serialize_to e))%nat -> end_ = Z.of_nat (pos + n) ->
      walk_tail end_ pos (take n (serialize_to e)) [e].

Section Walk.
Context {B : Type} (callback : B -> Entry -> Z -> B * bool).

(** The walk over a list of entries, the first at [pos]. *)
Fixpoint walk (b : B) (pos : Z) (es : list Entry) : B :=
  match es with
  | [] => b
  | e :: es =>
      let '(b', stop) := callback b (metadata_of e) pos in
      if (stop : bool) then b' else walk b' (pos + serializedSize e) es
  end.

(** The end of the walk, after the complete entries. *)
Lemma wp_apply_tail w0 fuel f c off X ts b end_ w (Q : unit -> world * B -> Prop) E :
  readable f w c -> evolves w0 w -> drop off c = X -> (off <= length c)%nat -> Z.of_nat off <= end_ -> walk_tail end_ off X ts ->
  (length c < fuel + off)%nat ->
  (forall r w', evolves w0 w' -> w_files w' = w_files w ->
     r = walk b (Z.of_nat off) ts \/ (~ benign w0 /\ exists es', es' `prefix_of` ts /\ r = walk b (Z.of_nat off) es') -> Q tt (w', r)) ->
  wp (Fle.apply_loop fuel f callback (Z.of_nat off) end_) Q E (w, b).
Proof.
  intros Hr Hev Hc Hle Hend HX Hf HQ. assert (Hlx : length X = (length c - off)%nat) by (rewrite <- Hc; apply length_drop).
  destruct fuel as [|fuel]; [lia|]. cbn [Fle.apply_loop].
  destruct (Z.ltb_spec (Z.of_nat off) end_) as [Hlt|Hge].
  2: { destruct HX as [|? ?|e n He ? ? ? ->]; [by apply wp_ret, HQ; auto..|].
       unfold serializeMeta, writeUInt32 in *. rewrite !length_app, length_le_encode in *. lia. }
  apply wp_bind, wp_zoom, wp_attempt. cbn [fst snd]. rewrite Nat2Z.id.
  eapply (wp_read w0); [done| |exact Hr|].
  { intros x w' ???. apply wp_ret, HQ; [done|done|]. right. split; [done|]. exists [].
    split; [apply prefix_nil|done]. }
  intros w1 Hev1 Hfs1. rewrite Hc. destruct HX as [|? ?|e n He Hfe Hn Hn' Hen].
  - apply wp_ret, HQ; auto.
  - lia.
  - destruct (parse_meta_buffer e n [] He Hfe Hn) as (b0 & buf & rest' & Hbuf & Hp).
    rewrite app_nil_r in Hbuf. rewrite Hbuf, Hp. apply wp_bind, wp_gets. cbn [snd].
    cbn [walk] in HQ. destruct (callback b (metadata_of e) (Z.of_nat off)) as [b' stop].
    apply wp_bind, wp_modify. cbn [fst]. destruct stop; [apply wp_ret, HQ; auto|].
    pose proof (sized_length e He) as Hse.
    change (serializedSize (metadata_of e)) with (serializedSize e).
    destruct fuel as [|fuel]; cbn [Fle.apply_loop];
      (rewrite (proj2 (Z.ltb_ge _ _)) by lia); apply wp_ret, HQ; auto.
Qed.

Lemma wp_apply_loop w0 fuel f c off es X ts b end_ w (Q : unit -> world * B -> Prop) E :
  readable f w c -> evolves w0 w -> drop off c = encode_entries es ++ X -> (off <= length c)%nat ->
  Forall sized es -> Forall meta_fits es ->
  Z.of_nat (off + length (encode_entries es)) <= end_ ->
  walk_tail end_ (off + length (encode_entries es)) X ts ->
  (length c < fuel + off)%nat ->
  (forall r w', evolves w0 w' -> w_files w' = w_files w ->
     r = walk b (Z.of_nat off) (es ++ ts) \/
     (~ benign w0 /\ exists es', es' `prefix_of` es ++ ts /\ r = walk b (Z.of_nat off) es') ->
     Q tt (w', r)) ->
  wp (Fle.apply_loop fuel f callback (Z.of_nat off) end_) Q E (w, b).
Proof.
  intros Hr Hev Hc Hle Hs. revert fuel off b w Hr Hev Hc Hle.
  induction Hs as [|e es He Hs IH]; intros fuel off b w Hr Hev Hc Hle Hfit Hend HX Hf HQ.
  - cbn [encode_entries fmap list_fmap concat app length] in *. rewrite Nat.add_0_r in *. by apply (wp_apply_tail w0 fuel f c off X ts).
  - apply Forall_cons in Hfit as [Hfe Hfit]. pose proof (sized_length e He) as Hse.
    rewrite encode_entries_cons in Hc, Hend, HX. rewrite length_app in Hend, HX.
    rewrite <- app_assoc in Hc. pose proof (length_serialize_to e) as Hl4.
    destruct fuel as [|fuel]; [lia|]. cbn [Fle.apply_loop]. rewrite (proj2 (Z.ltb_lt _ _)) by lia.
    apply wp_bind, wp_zoom, wp_attempt. cbn [fst snd]. rewrite Nat2Z.id.
    eapply (wp_read w0); [done| |exact Hr|].
    { intros x w' ???. apply wp_ret, HQ; [done|done|]. right. split; [done|]. exists [].
      split; [apply prefix_nil|done]. }
    intros w1 Hev1 Hfs1. rewrite Hc.
    destruct (parse_meta_buffer e (length (serialize_to e)) (encode_entries es ++ X) He Hfe)
      as (b0 & buf & rest' & Hbuf & Hp).
    { rewrite serialize_to_meta, length_app. lia. }
    rewrite firstn_all in Hbuf. rewrite Hbuf, Hp. apply wp_bind, wp_gets. cbn [snd].
    cbn [walk app] in HQ. destruct (callback b (metadata_of e) (Z.of_nat off)) as [b' stop] eqn:Hcb.
    change (serializedSize (metadata_of e)) with (serializedSize e).
    apply wp_bind, wp_modify. cbn [fst]. destruct stop; [apply wp_ret, HQ; auto|].
    replace (Z.of_nat off + serializedSize e) with (Z.of_nat (off + length (serialize_to e))) by lia.
    apply IH; [|done| | |done|lia|by rewrite <- Nat.add_assoc|lia|].
    + destruct Hr. split; [done|]. by rewrite Hfs1.
    + by rewrite <- drop_drop, Hc, drop_app_length.
    + apply (f_equal length) in Hc. rewrite length_drop, !length_app in Hc. lia.
    + intros r w' Hev' Hfs' Hcase. apply HQ; [done|congruence|].
      replace (Z.of_nat off + serializedSize e) with (Z.of_nat (off + length (serialize_to e))) by lia.
      destruct Hcase as [->|(Hb & es' & Hpre & ->)]; [by left|]. right. split; [done|].
      exists (e :: es'). split; [by apply prefix_cons|]. cbn [walk]. rewrite Hcb. do 2 f_equal. lia.
Qed.
End Walk.

(** The first entry with the sequence number asked for. *)
Fixpoint locate (target pos : Z) (es : list Entry) : option LogSequencePosition :=
  match es with
  | [] => None
  | e :: es =>
      if sn e =? target then Some (mkLogSequencePosition target pos (serializedSize e))
      else locate target (pos + serializedSize e) es
  end.

Lemma locate_middle pos es1 e es2 :
  Forall sized es1 -> Forall (fun x => sn x <> sn e) es1 ->
  locate (sn e) pos (es1 ++ e :: es2)
  = Some (mkLogSequencePosition (sn e) (pos + size_of es1) (serializedSize e)).
Proof.
  intros Hs. revert pos. induction Hs as [|x es1 Hx Hs IH]; intros pos Hne; cbn [app locate].
  - rewrite Z.eqb_refl. change (size_of []) with 0. by rewrite Z.add_0_r.
  - apply Forall_cons in Hne as [Hne Hne']. rewrite (proj2 (Z.eqb_neq _ _)) by done.
    rewrite IH, size_of_cons by done. by rewrite Z.add_assoc.
Qed.

Lemma locate_prefix target pos es es' :
  es' `prefix_of` es -> locate target pos es' = None \/ locate target pos es' = locate target pos es.
Proof.
  intros [rest ->]. revert pos. induction es' as [|e es' IH]; intros pos; cbn; [by left|].
  destruct (sn e =? target); [by right|apply IH].
Qed.

Lemma serializedSize_pos e : sized e -> 0 < serializedSize e.
Proof. intros He. rewrite <- sized_length, length_serialize_to by done. lia. Qed.

Lemma walk_locate target pos es :
  Forall sized es ->
  let '(size, p) := walk (fun (found : Z * Z) entry position =>
            if sn entry =? target then ((serializedSize entry, position), true)
            else (found, false)) (0, 0) pos es in
  (if 0 <? size then Some (mkLogSequencePosition target p size) else None) = locate target pos es.
Proof.
  intros Hs. revert pos. induction Hs as [|e es He Hs IH]; intros pos; cbn; [done|].
  destruct (sn e =? target); [|apply IH].
  pose proof (serializedSize_pos e He).
  change (serializedSize (metadata_of e)) with (serializedSize e).
  by rewrite (proj2 (Z.ltb_lt _ _)).
Qed.

Lemma wp_search w0 w l c start es target (Q : option LogSequencePosition -> world -> Prop) E :
  evolves w0 w ->
  readable (file l) w c -> drop start c = encode_entries es -> (start <= length c)%nat ->
  Forall sized es -> Forall meta_fits es -> Z.of_nat (length c) <= end_pos l ->
  (forall r w', evolves w0 w' -> w_files w' = w_files w ->
     r = locate target (Z.of_nat start) es \/ (r = None /\ ~ benign w0) -> Q r w') ->
  wp (Fle.searchForSequenceWithSize l target (Z.of_nat start)) Q E w.
Proof.
  intros Hev Hr Hc Hle Hs Hfit Hen HQ.
  apply wp_bind, wp_zoom, wp_bind. unfold Fle.applyLogEntryMetadata. apply wp_bind, wp_gets.
  destruct (Hr) as [_ Hf]. cbn [fst]. rewrite Hf. change (default [] (Some c)) with c.
  assert (length c = start + length (encode_entries es))%nat
    by (apply (f_equal length) in Hc; rewrite length_drop in Hc; lia).
  eapply (wp_apply_loop _ w0 _ _ c start es [] []);
    [done|done|by rewrite app_nil_r|done|done|done|lia|constructor|lia|].
  intros r w' Hev' Hfs Hcase. apply wp_gets. cbn [fst snd]. rewrite app_nil_r in Hcase.
  pose proof (walk_locate target (Z.of_nat start) es Hs) as Hloc.
  destruct Hcase as [->|(Hb & es' & Hpre & ->)].
  - destruct (walk _ _ _ _) as [size p]. apply wp_ret, HQ; auto.
  - assert (Hs' : Forall sized es') by (destruct Hpre as [? ->]; by apply Forall_app in Hs as [? _]).
    pose proof (walk_locate target (Z.of_nat start) es' Hs') as Hloc'.
    destruct (walk _ _ _ es') as [size p]. apply wp_ret, HQ; [done|done|]. rewrite Hloc'.
    destruct (locate_prefix target (Z.of_nat start) _ _ Hpre); auto.
Qed.

(** ** Properties *)

(** C30. [deserialize] of a slice that holds the entries [es], through a read buffer
    of any size, returns the entries below [max_sn] up to [max_size] bytes and the
    bytes they take, exactly as one parse of the whole slice would; entries cut by a
    buffer are completed by further reads, and bytes of the file behind the slice
    are never returned.  It always returns; with an error code only if the kernel
    refused a read, and then with the first of these entries. *)
Theorem deserialize_correct l w c start es X max_sn max_size max_buffer_size :
  readable (file l) w c -> drop start c = encode_entries es ++ X -> (start <= length c)%nat ->
  Z.of_nat (length c) < 2 ^ 62 -> Forall sized es -> sn_increasing es ->
  start_pos l = Z.of_nat start -> end_pos l = Z.of_nat (start + length (encode_entries es)) ->
  0 < max_size -> 0 < max_buffer_size ->
  let t := take_entries max_sn max_size es in
  exists r w', Fle.deserialize l max_sn max_size max_buffer_size w = (Ok r, w') /\
    w_files w' = w_files w /\
    (r = (size_of t, t, 0) \/
     ~ benign w /\ exists t' e, t' `prefix_of` t /\ r = (size_of t', t', e)).
Proof.
  intros Hr Hc Hle Hsm Hs Hsn Hst Hen Hms Hmb t.
  destruct (wp_total (Fle.deserialize l max_sn max_size max_buffer_size)
    (fun r w' => w_files w' = w_files w /\ deserialized w t r) w) as (r & w' & Hrun & Hfs & Hd).
  - eapply (wp_deserialize w (file l) c start es X); eauto. reflexivity.
  - by exists r, w'.
Qed.

(** [searchForSequenceWithSize] finds the position and the size of the first
    entry with the target sequence number behind the starting position, and nothing
    when there is none; a refused read looks like the end of the file. *)
Theorem searchForSequenceWithSize_correct l w c start es target :
  readable (file l) w c -> drop start c = encode_entries es -> (start <= length c)%nat ->
  Forall sized es -> Forall meta_fits es -> Z.of_nat (length c) <= end_pos l ->
  exists r w', Fle.searchForSequenceWithSize l target (Z.of_nat start) w = (Ok r, w') /\
    w_files w' = w_files w /\ (r = locate target (Z.of_nat start) es \/ r = None /\ ~ benign w).
Proof.
  intros Hr Hc Hle Hs Hfit Hen.
  destruct (wp_total (Fle.searchForSequenceWithSize l target (Z.of_nat start))
    (fun r w' => w_files w' = w_files w /\ (r = locate target (Z.of_nat start) es \/ r = None /\ ~ benign w)) w)
    as (r & w' & Hrun & H).
  - by eapply (wp_search w w); eauto.
  - by exists r, w'.
Qed.

Definition example_log : AppendOnlyFile := mkAppendOnlyFile "log" true true.
Definition example_slice : FileLogEntries :=
  mkFileLogEntries example_log 3 (3 + size_of example_entries) true false
    (5 + size_of example_entries).
Definition example_bytes : list Z := [9; 9; 9] ++ encode_entries example_entries ++ [8; 8].
Definition example_world : world := World {["log" := example_bytes]} [SysShort 7; SysErr 4; SysShort 2].

Lemma example_increasing : sn_increasing example_entries.
Proof. repeat constructor. Qed.

Lemma deserialize_correct_witness :
  let t := take_entries 100 1000 example_entries in
  exists r w', Fle.deserialize example_slice 100 1000 10 example_world = (Ok r, w') /\
    w_files w' = w_files example_world /\
    (r = (size_of t, t, 0) \/
     ~ benign example_world /\ exists t' e, t' `prefix_of` t /\ r = (size_of t', t', e)).
Proof.
  apply (deserialize_correct example_slice example_world example_bytes 3 example_entries [8; 8] 100 1000 10).
  - split; reflexivity.
  - reflexivity.
  - unfold example_bytes. rewrite length_app. cbn [length]. lia.
  - vm_compute. reflexivity.
  - apply example_entries_sized.
  - apply example_increasing.
  - reflexivity.
  - vm_compute. reflexivity.
  - lia.
  - lia.
Defined.

Lemma searchForSequenceWithSize_correct_witness :
  let l := mkFileLogEntries example_log 0 (2 ^ 64 - 1) false false 0 in
  let w := World {["log" := [9; 9; 9] ++ encode_entries example_entries]} [SysShort 7] in
  exists r w', Fle.searchForSequenceWithSize l 44 3 w = (Ok r, w') /\
    w_files w' = w_files w /\ (r = locate 44 3 example_entries \/ r = None /\ ~ benign w).
Proof.
  intros l w.
  apply (searchForSequenceWithSize_correct l w ([9; 9; 9] ++ encode_entries example_entries) 3 example_entries 44).
  - split; reflexivity.
  - reflexivity.
  - rewrite length_app. cbn [length]. lia.
  - apply example_entries_sized.
  - unfold meta_fits, approximateSerializedMetadataSize.
    repeat (apply Forall_cons; split; [vm_compute; lia|]). constructor.
  - vm_compute. congruence.
Defined.
