(* ===== verification/SegmentNames.v ===== *)
(** * Segment files and positions (src/Cluster/LocalLog/Log/Loglet.cpp, Loglet.h)

    The name of a segment file holds the id and the base sequence of the segment,
    and the sequence index stores the id of a segment and a position in its file in
    one 64-bit number. *)

From Stdlib Require Import Ascii String.
From S2P Require Import Prelude Codec Names.

Local Open Scope Z_scope.

(** ** Definitions *)

Definition LOG_FILE_SUFFIX : string := ".log".
Definition INDEX_FILE_SUFFIX : string := ".indexes".
Definition DELETED_FILE_SUFFIX : string := ".deleted".
Definition SWAP_FILE_SUFFIX : string := ".swap".

(** [filename.ends_with(suffix)] *)
Definition ends_with (suffix name : string) : bool :=
  let s := list_ascii_of_string suffix in
  let n := list_ascii_of_string name in
  bool_decide (length s <= length n)%nat && bool_decide (drop (length n - length s) n = s).
Definition isIndexFile (filename : string) : bool := ends_with INDEX_FILE_SUFFIX filename.
Definition isLogFile (filename : string) : bool := ends_with LOG_FILE_SUFFIX filename.

(** [fmt::format("{:08d}-{:020d}", segment_id, sn)] *)
Definition filenamePrefixFrom (segment_id sn : Z) : string :=
  string_of_list_ascii (show_padded 8 segment_id ++ "-"%char :: show_padded 20 sn).

Definition logFileName (segment_id sn : Z) (suffix : string) : string :=
  filenamePrefixFrom segment_id sn +:+ LOG_FILE_SUFFIX +:+ suffix.
Definition logFile (dir : string) (segment_id sn : Z) (suffix : string) : string :=
  dir +:+ "/" +:+ logFileName segment_id sn suffix.

(** [filename.find(c)] *)
Fixpoint find_char (c : ascii) (cs : list ascii) : option nat :=
  match cs with
  | [] => None
  | c' :: cs => if Ascii.eqb c c' then Some O else S <$> find_char c cs
  end.

Definition parseInt (from_chars : list ascii -> option Z) (s : list ascii) (lpos rpos : nat) : option Z :=
  if bool_decide (rpos <= lpos)%nat || bool_decide (length s < rpos)%nat then None
  else from_chars (take (rpos - lpos) (drop lpos s)).

Definition segmentIDAndSequenceFromFileName (filename : string) : option (Z * Z) :=
  let s := list_ascii_of_string filename in
  match find_char "-" s, find_char "." s with
  | Some segment_id_pos, Some sn_pos =>
      if bool_decide (sn_pos <= segment_id_pos)%nat then None
      else
        match parseInt from_chars_u64 s 0 segment_id_pos,
              parseInt from_chars_i64 s (S segment_id_pos) sn_pos with
        | Some seg_id, Some seq => Some (seg_id, seq)
        | _, _ => None
        end
  | _, _ => None
  end.

(** Positions in the indexes: 36 bits of file position below the segment id. *)
Definition SEGMENT_NUMBER_MASK : Z := 0xfffffff000000000.
Definition SEGMENT_FILE_POSITION_MASK : Z := 0x0000000fffffffff.
Definition globalSegmentFilePosition (segment_id file_position : Z) : Z :=
  Z.lor (to_u64 (Z.shiftl segment_id 36)) file_position.
Definition segmentIDAndFilePosition (global_file_position : Z) : Z * Z :=
  (Z.shiftr (Z.land global_file_position SEGMENT_NUMBER_MASK) 36,
   Z.land global_file_position SEGMENT_FILE_POSITION_MASK).

(** ** File names *)

Definition is_digit (c : ascii) : Prop := is_Some (char_digit c).

Lemma digits_range fuel x : 0 <= x < 10 ^ Z.of_nat fuel -> Forall (fun d => 0 <= d < 10) (digits fuel x).
Proof.
  revert x. induction fuel as [|fuel IH]; intros x Hx; cbn [digits]; [constructor|].
  destruct (Z.ltb_spec x 10); [repeat constructor; lia|].
  rewrite Nat2Z.inj_succ, Z.pow_succ_r in Hx by lia.
  apply Forall_app. split.
  - apply IH. split; [apply Z.div_pos; lia|apply Z.div_lt_upper_bound; lia].
  - repeat constructor; apply Z.mod_pos_bound; lia.
Qed.

Lemma pad_zero_digits width x : u64 x -> Forall is_digit (pad_zero width (show_u64 x)).
Proof.
  intros Hx. unfold pad_zero, show_u64. apply Forall_app. split.
  - apply Forall_replicate. by exists 0.
  - rewrite Forall_map. eapply Forall_impl; [apply digits_range; unfold u64 in Hx; cbn; lia|].
    intros d Hd. exists d. by apply char_digit_char.
Qed.

Lemma find_char_skip c l l' :
  Forall (fun x => x <> c) l -> find_char c (l ++ c :: l') = Some (length l).
Proof.
  induction 1 as [|x l Hx _ IH]; cbn.
  - by rewrite Ascii.eqb_refl.
  - destruct (Ascii.eqb_spec c x) as [->|_]; [done|]. by rewrite IH.
Qed.

Lemma digit_not_char c l : char_digit c = None -> Forall is_digit l -> Forall (fun x => x <> c) l.
Proof. intros Hc Hl. eapply Forall_impl; [exact Hl|]. intros x [d Hd] ->. congruence. Qed.

Lemma parseInt_middle f l m r :
  m <> [] -> parseInt f (l ++ m ++ r) (length l) (length l + length m) = f m.
Proof.
  intros Hm. unfold parseInt. rewrite !bool_decide_eq_false_2; cbn [orb].
  - rewrite drop_app_length. f_equal.
    replace (length l + length m - length l)%nat with (length m) by lia. apply take_app_length.
  - rewrite !length_app. lia.
  - destruct m; [done|]. cbn [length]. lia.
Qed.

Lemma from_chars_u64_padded width x : u64 x -> from_chars_u64 (pad_zero width (show_u64 x)) = Some x.
Proof.
  intros H. unfold from_chars_u64. pose proof (pad_zero_nonempty width x).
  rewrite (parse_pad_zero width x H). unfold u64 in H. rewrite (proj2 (Z.ltb_lt _ _)) by lia.
  by destruct (pad_zero width (show_u64 x)).
Qed.

Lemma from_chars_i64_digits cs :
  Forall is_digit cs -> cs <> [] ->
  from_chars_i64 cs = match parse_digits 0 cs with
                      | Some x => if x <? 2 ^ 63 then Some x else None
                      | None => None
                      end.
Proof.
  intros Hd Hne. destruct cs as [|c cs]; [done|].
  apply Forall_cons in Hd as [[d Hc] _].
  destruct c as [[] [] [] [] [] [] [] []]; try done.
Qed.

Lemma from_chars_i64_padded width x :
  i64 x -> from_chars_i64 (show_padded width x) = Some x.
Proof.
  intros H. unfold i64 in H. unfold show_padded. destruct (Z.ltb_spec x 0).
  - assert (Hu : u64 (- x)) by (unfold u64; lia). unfold from_chars_i64.
    pose proof (pad_zero_nonempty (width - 1) (- x)).
    destruct (pad_zero (width - 1) (show_u64 (- x))) eqn:E; [done|]. rewrite <- E.
    rewrite (parse_pad_zero _ _ Hu), (proj2 (Z.leb_le _ _)) by lia. f_equal. lia.
  - assert (Hu : u64 x) by (unfold u64; lia).
    rewrite from_chars_i64_digits by auto using pad_zero_digits, pad_zero_nonempty.
    rewrite (parse_pad_zero _ _ Hu), (proj2 (Z.ltb_lt _ _)) by lia. done.
Qed.

Lemma show_padded_no_dot width x : i64 x -> Forall (fun c => c <> "."%char) (show_padded width x).
Proof.
  unfold i64, show_padded. intros H. destruct (Z.ltb_spec x 0).
  - constructor; [done|]. apply digit_not_char; [done|]. apply pad_zero_digits. unfold u64. lia.
  - apply digit_not_char; [done|]. apply pad_zero_digits. unfold u64. lia.
Qed.

Lemma parse_logFileName segment_id sn suffix :
  u64 segment_id -> i64 sn ->
  segmentIDAndSequenceFromFileName (logFileName segment_id sn suffix) = Some (segment_id, sn).
Proof.
  intros Hid Hsn. unfold segmentIDAndSequenceFromFileName, logFileName, filenamePrefixFrom.
  rewrite !list_ascii_app, list_ascii_of_string_of_list_ascii.
  assert (Hp : show_padded 8 segment_id = pad_zero 8 (show_u64 segment_id)).
  { unfold show_padded. unfold u64 in Hid. by rewrite (proj2 (Z.ltb_ge _ _)) by lia. }
  rewrite Hp. set (p := pad_zero 8 (show_u64 segment_id)). set (q := show_padded 20 sn).
  set (t := (list_ascii_of_string LOG_FILE_SUFFIX ++ _)%list).
  assert (Hdig : Forall is_digit p) by (by apply pad_zero_digits).
  assert (Hq : q <> []).
  { subst q. unfold show_padded. destruct (sn <? 0); [done|]. apply pad_zero_nonempty. }
  rewrite <- app_assoc. cbn [app]. rewrite find_char_skip by (by apply digit_not_char).
  replace (p ++ "-"%char :: q ++ t)%list
    with ((p ++ "-"%char :: q) ++ "."%char :: tail t)%list at 1 by (by rewrite <- app_assoc).
  rewrite find_char_skip.
  2: { apply Forall_app. split; [by apply digit_not_char|]. constructor; [done|].
       by apply show_padded_no_dot. }
  rewrite length_app. cbn [length]. rewrite bool_decide_eq_false_2 by lia.
  pose proof (parseInt_middle from_chars_u64 [] p ("-"%char :: q ++ t) (pad_zero_nonempty _ _)) as Hl.
  cbn [length app Nat.add] in Hl. rewrite Hl. unfold p at 1. rewrite from_chars_u64_padded by done.
  replace (p ++ "-"%char :: q ++ t)%list with ((p ++ ["-"%char]) ++ q ++ t)%list by (by rewrite <- app_assoc).
  replace (S (length p)) with (length (p ++ ["-"%char])) by (rewrite length_app; cbn; lia).
  replace (length p + S (length q))%nat with (length (p ++ ["-"%char]) + length q)%nat
    by (rewrite length_app; cbn; lia).
  rewrite parseInt_middle by done. unfold q. by rewrite from_chars_i64_padded.
Qed.

(** The name given to a segment file is read back by the loader: whatever
    suffix is put behind [.log], the id (any 64-bit number) and the base sequence
    (negative ones included) are recovered exactly.  So two segments with different
    ids or base sequences never share a file. *)
Theorem filename_roundtrip segment_id sn suffix :
  u64 segment_id -> i64 sn ->
  segmentIDAndSequenceFromFileName (logFileName segment_id sn suffix) = Some (segment_id, sn).
Proof. apply parse_logFileName. Qed.

Lemma filename_roundtrip_witness :
  logFileName 12 3456 ".deleted" = "00000012-00000000000000003456.log.deleted"%string /\
  segmentIDAndSequenceFromFileName (logFileName 12 3456 ".deleted") = Some (12, 3456).
Proof.
  split; [vm_compute; reflexivity|]. apply filename_roundtrip; unfold u64, i64; lia.
Defined.

(** Two segments of a directory have different files. *)
Lemma logFile_inj dir id sn suffix id' sn' suffix' :
  u64 id -> i64 sn -> u64 id' -> i64 sn' ->
  logFile dir id sn suffix = logFile dir id' sn' suffix' -> id = id' /\ sn = sn'.
Proof.
  intros H1 H2 H3 H4 Heq. apply (f_equal list_ascii_of_string) in Heq. unfold logFile in Heq.
  rewrite !list_ascii_app in Heq. do 2 apply app_inv_head in Heq. apply list_ascii_inj in Heq.
  apply (f_equal segmentIDAndSequenceFromFileName) in Heq. rewrite !parse_logFileName in Heq by done.
  by injection Heq.
Qed.

Lemma logFile_suffix dir id sn suffix : logFile dir id sn EmptyString +:+ suffix = logFile dir id sn suffix.
Proof.
  apply list_ascii_inj. unfold logFile, logFileName. rewrite !list_ascii_app. cbn [list_ascii_of_string].
  by rewrite <- !app_assoc, app_nil_l.
Qed.

Lemma prefix_cancel a b c : String.prefix (a +:+ b) (a +:+ c) = String.prefix b c.
Proof.
  induction a as [|x a IH]; [done|].
  change (String x a +:+ b) with (String x (a +:+ b)). change (String x a +:+ c) with (String x (a +:+ c)).
  cbn [String.prefix]. by destruct (ascii_dec x x).
Qed.

(** The name of a segment file starts with a digit. *)
Lemma logFile_prefix dir id sn suffix c rest :
  u64 id -> char_digit c = None ->
  String.prefix (dir +:+ "/" +:+ String c rest) (logFile dir id sn suffix) = false.
Proof.
  intros Hid Hc. unfold logFile. rewrite !prefix_cancel. unfold logFileName, filenamePrefixFrom, show_padded.
  unfold u64 in Hid. rewrite (proj2 (Z.ltb_ge _ _)) by lia.
  pose proof (pad_zero_nonempty 8 id) as Hne. pose proof (pad_zero_digits 8 id Hid) as Hd.
  destruct (pad_zero 8 (show_u64 id)) as [|x xs]; [done|]. apply Forall_cons in Hd as [[v Hv] _].
  cbn [app string_of_list_ascii].
  match goal with |- String.prefix _ (String x ?a +:+ ?b) = _ => change (String x a +:+ b) with (String x (a +:+ b)) end.
  cbn [String.prefix]. destruct (ascii_dec c x) as [->|]; [congruence|done].
Qed.

(** ** Positions in the indexes *)

Lemma position_value segment_id file_position :
  0 <= segment_id < 2 ^ 28 -> 0 <= file_position < 2 ^ 36 ->
  globalSegmentFilePosition segment_id file_position = segment_id * 2 ^ 36 + file_position.
Proof.
  intros Hid Hpos. unfold globalSegmentFilePosition, to_u64.
  rewrite Z.mod_small by (rewrite Z.shiftl_mul_pow2 by lia; lia).
  rewrite Z.lor_comm, lor_disjoint, Z.shiftl_mul_pow2 by lia. lia.
Qed.

Lemma position_decode id pos :
  0 <= id < 2 ^ 28 -> 0 <= pos < 2 ^ 36 ->
  segmentIDAndFilePosition (globalSegmentFilePosition id pos) = (id, pos).
Proof.
  intros H1 H2. rewrite position_value by done. unfold segmentIDAndFilePosition.
  change SEGMENT_FILE_POSITION_MASK with (Z.ones 36).
  change SEGMENT_NUMBER_MASK with (Z.shiftl (Z.ones 28) 36).
  rewrite Z.shiftr_land, Z.shiftr_shiftl_l, Z.sub_diag, Z.shiftl_0_r by lia.
  rewrite !Z.land_ones, Z.shiftr_div_pow2 by lia. f_equal.
  - rewrite Z.div_add_l, (Z.div_small pos) by lia. rewrite Z.mod_small; lia.
  - rewrite Z.add_comm, Z_mod_plus_full. apply Z.mod_small. lia.
Qed.

Lemma position_lt id1 pos1 id2 pos2 :
  0 <= id1 < 2 ^ 28 -> 0 <= pos1 < 2 ^ 36 -> 0 <= id2 < 2 ^ 28 -> 0 <= pos2 < 2 ^ 36 ->
  globalSegmentFilePosition id1 pos1 < globalSegmentFilePosition id2 pos2 <->
  id1 < id2 \/ (id1 = id2 /\ pos1 < pos2).
Proof.
  intros H1 H2 H3 H4. rewrite !position_value by done. split; [nia|intros [?|[-> ?]]; nia].
Qed.

Lemma position_before v id pos :
  u64 v -> (segmentIDAndFilePosition v).1 < id -> 0 <= pos -> v < id * 2 ^ 36 + pos.
Proof.
  unfold u64. intros Hv Hid Hpos.
  assert (Hdiv : (segmentIDAndFilePosition v).1 = v / 2 ^ 36).
  { unfold segmentIDAndFilePosition. cbn [fst]. change SEGMENT_NUMBER_MASK with (Z.shiftl (Z.ones 28) 36).
    rewrite Z.shiftr_land, Z.shiftr_shiftl_l, Z.sub_diag, Z.shiftl_0_r, Z.land_ones, Z.shiftr_div_pow2 by lia.
    apply Z.mod_small. split; [apply Z.div_pos; lia|]. apply Z.div_lt_upper_bound; lia. }
  rewrite Hdiv in Hid. pose proof (Z.mul_succ_div_gt v (2 ^ 36)). nia.
Qed.

(** C34. The 64-bit positions of the sequence index are faithful as long as segment
    files stay below 64 GiB and there are fewer than 2^28 segments: they decode to
    the segment id and file position they were made from, fit in 64 bits, and are
    ordered by segment first, then by position in the file, so that the index stays
    monotone when the log rolls. *)
Theorem position_encoding id1 pos1 id2 pos2 :
  0 <= id1 < 2 ^ 28 -> 0 <= pos1 < 2 ^ 36 -> 0 <= id2 < 2 ^ 28 -> 0 <= pos2 < 2 ^ 36 ->
  segmentIDAndFilePosition (globalSegmentFilePosition id1 pos1) = (id1, pos1) /\
  u64 (globalSegmentFilePosition id1 pos1) /\
  (globalSegmentFilePosition id1 pos1 < globalSegmentFilePosition id2 pos2 <->
   id1 < id2 \/ (id1 = id2 /\ pos1 < pos2)).
Proof.
  intros H1 H2 H3 H4. split; [|split].
  - by apply position_decode.
  - rewrite position_value by done. unfold u64. lia.
  - by apply position_lt.
Qed.

Lemma position_encoding_witness :
  segmentIDAndFilePosition (globalSegmentFilePosition 3 4096) = (3, 4096) /\
  u64 (globalSegmentFilePosition 3 4096) /\
  (globalSegmentFilePosition 3 4096 < globalSegmentFilePosition 4 0 <->
   3 < 4 \/ (3 = 4 /\ 4096 < 0)).
Proof. apply position_encoding; lia. Defined.
