(* ===== verification/LogConfig.v ===== *)
(** * LogConfig (src/Cluster/LocalLog/Log/LogConfig.cpp)

    The settings of a log, and what [validate] makes of them. *)

From S2P Require Import Prelude.

Local Open Scope Z_scope.

Record LogConfig : Type := mkLogConfig {
  max_entry_size : Z;
  segment_size : Z;
  segment_ms : Z;
  flush_interval_entries : Z;
  flush_interval_ms : Z;
  flush_bytes : Z;
  retention_size : Z;
  retention_ms : Z;
  file_delete_delay_ms : Z;
  index_interval_bytes : Z;
  index_interval_entries : Z;
  max_cached_entries_per_shard : Z;
  max_cached_bytes_per_shard : Z;
  min_size_to_keep : Z;
  hard_state_ckpt_log_size : Z;
  leader_epoch_index_log_size : Z;
  timestamp_index_log_size : Z;
  log_position_index_log_size : Z;
  inmemory : bool;
  incremental_flush : bool;
}.

Definition DEFAULT_MAX_ENTRY_SIZE : Z := 10 * 1024 * 1024.
Definition DEFAULT_SEGMENT_SIZE : Z := 2 * 1024 * 1024 * 1024.
Definition DEFAULT_SEGMENT_MS : Z := 24 * 7 * 60 * 60 * 1000.
Definition DEFAULT_FLUSH_INTERVAL_ENTRIES : Z := 1000.
Definition DEFAULT_FLUSH_MS : Z := 2 * 60 * 1000.
Definition DEFAULT_FLUSH_BYTES : Z := 8 * 1024 * 1024.
Definition DEFAULT_RETENTION_BYTES : Z := 1.
Definition DEFAULT_RETENTION_MS : Z := 24 * 60 * 60 * 1000.
Definition DEFAULT_LOG_DELETE_DELAY_MS : Z := 300 * 1000.
Definition DEFAULT_INDEX_INTERVAL_BYTES : Z := 4096 * 1024.
Definition DEFAULT_INDEX_INTERVAL_ENTRIES : Z := 1000.
Definition DEFAULT_MAX_CACHED_ENTRIES_PER_SHARD : Z := 100.
Definition DEFAULT_MAX_CACHED_BYTES_PER_SHARD : Z := 4194304.

(** A default constructed [LogConfig]. *)
Definition default_LogConfig : LogConfig := {|
  max_entry_size := DEFAULT_MAX_ENTRY_SIZE;
  segment_size := DEFAULT_SEGMENT_SIZE;
  segment_ms := DEFAULT_SEGMENT_MS;
  flush_interval_entries := DEFAULT_FLUSH_INTERVAL_ENTRIES;
  flush_interval_ms := DEFAULT_FLUSH_MS;
  flush_bytes := DEFAULT_FLUSH_BYTES;
  retention_size := DEFAULT_RETENTION_BYTES;
  retention_ms := DEFAULT_RETENTION_MS;
  file_delete_delay_ms := DEFAULT_LOG_DELETE_DELAY_MS;
  index_interval_bytes := DEFAULT_INDEX_INTERVAL_BYTES;
  index_interval_entries := DEFAULT_INDEX_INTERVAL_ENTRIES;
  max_cached_entries_per_shard := DEFAULT_MAX_CACHED_ENTRIES_PER_SHARD;
  max_cached_bytes_per_shard := DEFAULT_MAX_CACHED_BYTES_PER_SHARD;
  min_size_to_keep := DEFAULT_SEGMENT_SIZE * 2;
  hard_state_ckpt_log_size := 1024 * 1024;
  leader_epoch_index_log_size := 8 * 1024 * 1024;
  timestamp_index_log_size := 8 * 1024 * 1024;
  log_position_index_log_size := 8 * 1024 * 1024;
  inmemory := false;
  incremental_flush := false;
|}.

Definition or_default (x d : Z) : Z := if x =? 0 then d else x.
Definition at_most (x d : Z) : Z := if (x =? 0) || (d <? x) then d else x.

(** [validate]: the two cache limits are replaced by their defaults when the other
    one is {e not} zero; the second test sees the result of the first. *)
Definition validate (c : LogConfig) : LogConfig :=
  let segment_size' := or_default (segment_size c) DEFAULT_SEGMENT_SIZE in
  let max_cached_entries' :=
    if max_cached_bytes_per_shard c =? 0 then max_cached_entries_per_shard c
    else DEFAULT_MAX_CACHED_ENTRIES_PER_SHARD in
  {| max_entry_size := or_default (max_entry_size c) DEFAULT_MAX_ENTRY_SIZE;
     segment_size := segment_size';
     segment_ms := or_default (segment_ms c) DEFAULT_SEGMENT_MS;
     flush_interval_entries := flush_interval_entries c;
     flush_interval_ms := if flush_interval_ms c <=? 0 then 0 else flush_interval_ms c;
     flush_bytes := flush_bytes c;
     retention_size := retention_size c;
     retention_ms := if retention_ms c <=? 0 then 0 else retention_ms c;
     file_delete_delay_ms := or_default (file_delete_delay_ms c) DEFAULT_LOG_DELETE_DELAY_MS;
     index_interval_bytes := or_default (index_interval_bytes c) DEFAULT_INDEX_INTERVAL_BYTES;
     index_interval_entries := or_default (index_interval_entries c) DEFAULT_INDEX_INTERVAL_ENTRIES;
     max_cached_entries_per_shard := max_cached_entries';
     max_cached_bytes_per_shard :=
       if max_cached_entries' =? 0 then max_cached_bytes_per_shard c
       else DEFAULT_MAX_CACHED_BYTES_PER_SHARD;
     min_size_to_keep := or_default (min_size_to_keep c) ((2 * segment_size') mod 2 ^ 64);
     hard_state_ckpt_log_size := at_most (hard_state_ckpt_log_size c) (1024 * 1024);
     leader_epoch_index_log_size := at_most (leader_epoch_index_log_size c) (8 * 1024 * 1024);
     timestamp_index_log_size := at_most (timestamp_index_log_size c) (8 * 1024 * 1024);
     log_position_index_log_size := at_most (log_position_index_log_size c) (8 * 1024 * 1024);
     inmemory := inmemory c;
     incremental_flush := incremental_flush c |}.

(** A configured number of cached entries does not survive [validate]: with the
    byte limit at its default, every setting, zero included, becomes 100. *)
Lemma validate_overrides_cached_entries c :
  max_cached_bytes_per_shard c <> 0 ->
  max_cached_entries_per_shard (validate c) = DEFAULT_MAX_CACHED_ENTRIES_PER_SHARD.
Proof. intros H. cbn. by rewrite (proj2 (Z.eqb_neq _ _)). Qed.
