(* ===== verification/LogSegment.v ===== *)
(** * LogSegment (src/Cluster/LocalLog/Log/LogSegment.cpp)

    One segment of a log: appending to its file, cutting and flushing it, and
    recovering it after a crash. *)

From Stdlib Require Import Ascii String.
From S2P Require Import Prelude Os AppendOnlyFile Codec KeyValues Entry FileLogEntries LogConfig SegmentNames.

Local Open Scope prog_scope.

Definition CANNOT_DELETE_FILE : Z := 2617.
Definition CANNOT_FLUSH_FILE : Z := 2511.
Definition CANNOT_TRUNCATE_FILE : Z := 88.
Definition CANNOT_WRITE_TO_FILE_DESCRIPTOR : Z := 75.
Definition ATOMIC_RENAME_FAIL : Z := 521.

Record LogSegment : Type := mkLogSegment {
  seg_id : Z;
  base_sn : Z;
  last_sync_offset : Z;
  log : FileLogEntries;
}.

(** [std::filesystem::path::extension]: from the last dot of the last component,
    unless the component starts with it. *)
Fixpoint extension_rev (acc rpath : list ascii) : list ascii :=
  match rpath with
  | [] => []
  | "/"%char :: _ => []
  | "."%char :: rest =>
      match rest with
      | [] | "/"%char :: _ => []
      | _ => "."%char :: acc
      end
  | c :: rest => extension_rev (c :: acc) rest
  end.
Definition extension (path : string) : string :=
  string_of_list_ascii (extension_rev [] (rev (list_ascii_of_string path))).

Module Segment.

Definition set_log (x : FileLogEntries) (s : LogSegment) : LogSegment :=
  mkLogSegment (seg_id s) (base_sn s) (last_sync_offset s) x.
Definition set_last_sync_offset (x : Z) (s : LogSegment) : LogSegment :=
  mkLogSegment (seg_id s) (base_sn s) x (log s).

(** The constructor. *)
Definition create (log_dir : string) (id sn : Z) (file_already_exists : bool) (file_suffix : string)
  : M world LogSegment :=
  l <- Fle.open (logFile log_dir id sn file_suffix) file_already_exists false;;
  ret (mkLogSegment id sn 0 l).

Definition size (s : LogSegment) : Z := bytes (log s).
Definition filename (s : LogSegment) : string := AppendOnlyFile.filename (file (log s)).

(** The size and error code of an append; an [errno] becomes one error code. *)
Definition append_batch (s : LogSegment) (entry_data : list (list Z)) (total_bytes : nat)
  : M world (nat * Z * LogSegment) :=
  r <- Fle.append_batch (log s) entry_data total_bytes;;
  let '(written, error_code, l) := r in
  ret (written, if error_code =? 0 then 0 else CANNOT_WRITE_TO_FILE_DESCRIPTOR, set_log l s).
Definition append (s : LogSegment) (entry_data : list Z) : M world (nat * Z * LogSegment) :=
  r <- Fle.append (log s) entry_data;;
  let '(written, error_code, l) := r in
  ret (written, if error_code =? 0 then 0 else CANNOT_WRITE_TO_FILE_DESCRIPTOR, set_log l s).

Definition fetch (s : LogSegment) (file_position size : Z) : M world FileLogEntries :=
  Fle.slice (log s) file_position size.

(** [trim]: the bytes cut off or an error code; the offset of the last flush is
    moved in both cases. *)
Definition trim (s : LogSegment) (file_position : Z) : M world ((Z + Z) * LogSegment) :=
  r <- attempt (Fle.trim (log s) file_position);;
  let s' := set_last_sync_offset (Z.min (last_sync_offset s) file_position) s in
  match r with
  | inl (trimmed, l) => ret (inl trimmed, set_log l s')
  | inr _ => ret (inr CANNOT_TRUNCATE_FILE, s')
  end.

Definition flush (s : LogSegment) (incremental : bool) : M world LogSegment :=
  map_err (fun _ => CANNOT_FLUSH_FILE)
    (if incremental then File.syncTail (file (log s)) (Z.to_nat (last_sync_offset s))
     else File.sync (file (log s))) >>
  ret (set_last_sync_offset (size s) s).

Definition fsize (s : LogSegment) : M world nat :=
  map_err (fun _ => CANNOT_FSTAT) (File.size (file (log s))).

Definition shouldRoll (s : LogSegment) (config : LogConfig) (append_size : Z) : bool :=
  segment_size config <? to_u64 (size s + append_size).

Definition translateSequence (s : LogSegment) (sn start_position : Z)
  : M world (option LogSequencePosition) :=
  Fle.searchForSequenceWithSize (log s) sn start_position.

(** What the walk over the metadata keeps of the last entry it saw. *)
Record last_entry : Type := mkLastEntry {
  last_sn : Z;
  last_entry_start_offset : Z;
  last_entry_size : Z;
}.

(** [readNextSequenceAndCheckCorruption]: the next sequence, the offset of the last
    entry, and whether the tail is corrupted.  An entry that cannot be parsed ends
    the walk. *)
Definition readNextSequenceAndCheckCorruption (s : LogSegment) (start_position start_sn : Z)
  : M world (Z * Z * bool) :=
  let log_size := size s in
  if log_size =? 0 then ret (base_sn s, 0, false)
  else
    file_log_entries <- fetch s start_position log_size;;
    last <- zoom (fun w => (w, mkLastEntry start_sn start_position 0)) (fun s _ => s.1)
              (catch (Fle.applyLogEntryMetadata file_log_entries
                        (fun _ entry entry_start_offset =>
                           (mkLastEntry (sn entry) entry_start_offset (serializedSize entry), false))
                        None)
                     (fun _ => ret tt) >>
               gets snd);;
    let corrupted := negb (last_entry_start_offset last + last_entry_size last =? log_size) in
    ret (if corrupted then last_sn last else last_sn last + 1, last_entry_start_offset last, corrupted).

Definition readNextSequence (s : LogSegment) (start_position start_sn : Z) : M world Z :=
  r <- readNextSequenceAndCheckCorruption s start_position start_sn;; ret r.1.1.

(** [remove]: the descriptor is closed also when the file stays. *)
Definition remove (s : LogSegment) : M world (Z * LogSegment) :=
  let s' := set_log (Fle.close (log s)) s in
  r <- attempt (sys_remove (filename s));;
  ret (match r with inl _ => 0 | inr _ => CANNOT_DELETE_FILE end, s').

Definition changeFileSuffix (s : LogSegment) (new_suffix : string) : M world LogSegment :=
  if String.eqb (extension (filename s)) new_suffix then ret s
  else
    f <- map_err (fun e => if e =? ENOENT then FILE_DOESNT_EXIST else ATOMIC_RENAME_FAIL)
           (File.renameTo (file (log s)) (filename s +:+ new_suffix));;
    ret (set_log (Fle.set_file f (log s)) s).

(** [recover]: the next sequence and the bytes cut off. *)
Definition recover (s : LogSegment) (last_sn_pos : SequencePosition) : M world (Z * Z * LogSegment) :=
  r <- readNextSequenceAndCheckCorruption s (file_position last_sn_pos) (sp_sn last_sn_pos);;
  let '(next_sn, last_entry_offset, corrupted) := r in
  if (corrupted : bool) then
    t <- map_err (fun _ => CANNOT_TRUNCATE_FILE) (Fle.trim (log s) last_entry_offset);;
    let '(trimmed, l) := t in
    ret (next_sn, trimmed, set_log l s)
  else ret (next_sn, 0, s).

End Segment.
