(* ===== verification/SegmentSpec.v ===== *)
(** * What the operations of a segment do

    A segment in step with its file, what each operation leaves of both, and the
    recovery of a segment whose last entry was torn by a crash. *)

From S2P Require Import Prelude Os AppendOnlyFile Codec KeyValues Entry FileLogEntries FleSpec LogConfig.
From S2P Require Import SegmentNames LogSegment.

Local Open Scope prog_scope.

(** The segment [s] is open on a file of bytes [c] and knows its size. *)
Record segment_on (w : world) (s : LogSegment) (c : list Z) : Prop := {
  sr_file : writable (file (log s)) w c;
  sr_bytes : bytes (log s) = Z.of_nat (length c);
  sr_start : start_pos (log s) = 0;
  sr_end : end_pos (log s) = 2 ^ 64 - 1;
  sr_whole : is_slice (log s) = false;
}.

Lemma segment_on_readable w s c : segment_on w s c -> readable (file (log s)) w c.
Proof. intros []. by apply writable_readable. Qed.

Lemma segment_on_filename w s c : segment_on w s c -> w_files w !! Segment.filename s = Some c.
Proof. by intros [(_ & _ & ?)]. Qed.

Lemma segment_on_size w s c : segment_on w s c -> Segment.size s = Z.of_nat (length c).
Proof. by intros []. Qed.

(** A segment follows its file. *)
Lemma segment_on_set w w' s c c' :
  segment_on w s c -> w_files w' !! Segment.filename s = Some c' ->
  segment_on w' (Segment.set_log (Fle.set_bytes (Z.of_nat (length c')) (log s)) s) c'.
Proof. intros [(? & ? & _)] Hc'. by split. Qed.

Lemma segment_on_world w w' s c :
  segment_on w s c -> w_files w' !! Segment.filename s = Some c -> segment_on w' s c.
Proof. intros [(? & ? & _)] Hc'. by split. Qed.

(** A new segment starts empty. *)
Lemma wp_seg_create w0 w dir id sn (Q : LogSegment -> world -> Prop) E :
  evolves w0 w -> let name := logFile dir id sn EmptyString in w_files w !! name = None ->
  (forall seg w', evolves w0 w' -> w_files w' = <[name := []]> (w_files w) -> seg_id seg = id -> base_sn seg = sn ->
     Segment.filename seg = name -> segment_on w' seg [] -> Q seg w') ->
  (forall x w', evolves w0 w' -> ~ benign w0 -> (forall f, f <> name -> w_files w' !! f = w_files w !! f) -> E x w') ->
  wp (Segment.create dir id sn false EmptyString) Q E w.
Proof.
  intros Hev name Hnone HQ HE. unfold Segment.create, Fle.open. apply wp_bind, wp_bind.
  apply (wp_open_new w0); [done|done| |].
  { intros e w' Hev' Hfs Hb. apply HE; [done|done|]. intros f _. by rewrite Hfs. }
  intros w1 Hev1 Hfs1. unfold Fle.create. apply wp_bind, wp_attempt.
  assert (Hc : readable (mkAppendOnlyFile name false true) w1 []).
  { split; [done|]. cbn. rewrite Hfs1. apply lookup_insert_eq. }
  eapply (wp_size w0); [done| |exact Hc|].
  { intros e w' Hev' Hfs Hb. apply HE; [done|done|]. intros f Hf. rewrite Hfs, Hfs1. by apply lookup_insert_ne. }
  intros w2 Hev2 Hfs2. apply wp_ret, wp_ret, HQ; try done; [by rewrite Hfs2|].
  split; try done. split_and!; [done|done|]. cbn. rewrite Hfs2, Hfs1. apply lookup_insert_eq.
Qed.

Section SegmentWp.
Context (w0 : world) (w : world) (Hev : evolves w0 w) (s : LogSegment) (c : list Z)
  (Hs : segment_on w s c).

(** What an append leaves: [n] bytes of [data] more, all of them if there was no
    error; an error has one of two codes and comes from the kernel. *)
Definition appended (data : list Z) (r : nat * Z * LogSegment) (w' : world) : Prop :=
  let '(n, e, s') := r in
  evolves w0 w' /\ (n <= length data)%nat /\ (e = 0 /\ n = length data \/
    e = CANNOT_WRITE_TO_FILE_DESCRIPTOR /\ ~ benign w0) /\
  s' = Segment.set_log (Fle.set_bytes (Z.of_nat (length c + n)) (log s)) s /\
  w_files w' = <[Segment.filename s := c ++ take n data]> (w_files w) /\
  segment_on w' s' (c ++ take n data).

Lemma appended_intro data n e w' :
  evolves w0 w' -> (e <> 0 -> ~ benign w0) -> (n <= length data)%nat -> (e = 0 -> n = length data) ->
  w_files w' = <[Segment.filename s := c ++ take n data]> (w_files w) ->
  appended data (n, if e =? 0 then 0 else CANNOT_WRITE_TO_FILE_DESCRIPTOR,
    Segment.set_log (Fle.set_bytes (bytes (log s) + Z.of_nat n) (log s)) s) w'.
Proof.
  intros Hev' Hb Hle He Hfs. unfold appended. destruct Hs as [Hf Hby ? ? ?].
  assert (Hlen : length (c ++ take n data) = (length c + n)%nat)
    by (rewrite length_app, length_take; lia).
  rewrite Hby, <- Nat2Z.inj_add. split_and!; [done|done| |done|done|].
  - destruct (Z.eqb_spec e 0) as [->|]; auto.
  - rewrite <- Hlen. eapply (segment_on_set w); [done|]. rewrite Hfs. apply lookup_insert_eq.
Qed.

Lemma wp_seg_append data (Q : nat * Z * LogSegment -> world -> Prop) E :
  (forall r w', appended data r w' -> Q r w') -> wp (Segment.append s data) Q E w.
Proof.
  intros HQ. unfold Segment.append, Fle.append. do 2 apply wp_bind.
  eapply (wp_append w0); [done|apply Hs|]. intros n e w' ?????.
  apply wp_ret, wp_ret, HQ. by apply appended_intro.
Qed.

Lemma wp_seg_append_batch batch total (Q : nat * Z * LogSegment -> world -> Prop) E :
  concat batch <> [] -> total = length (concat batch) ->
  (forall r w', appended (concat batch) r w' -> Q r w') ->
  wp (Segment.append_batch s batch total) Q E w.
Proof.
  intros Hne -> HQ. unfold Segment.append_batch, Fle.append_batch. do 2 apply wp_bind.
  eapply (wp_append_batch w0); [done|apply Hs|done|]. intros n e w' ?????.
  apply wp_ret, wp_ret, HQ. by apply appended_intro.
Qed.

Lemma wp_seg_flush incremental (Q : LogSegment -> world -> Prop) E :
  left_with w0 (w_files w) (Q (Segment.set_last_sync_offset (Segment.size s) s)) ->
  refused w0 (w_files w) (fun _ => E (Returned CANNOT_FLUSH_FILE)) ->
  wp (Segment.flush s incremental) Q E w.
Proof.
  intros HQ HE. destruct (segment_on_readable _ _ _ Hs) as [Ho _].
  apply wp_bind, wp_map_err. destruct incremental.
  - apply (wp_syncTail w0); [done|intros ?????; by apply HE with (e := 0)|done|].
    intros w' ??. apply wp_ret. by apply HQ.
  - apply (wp_sync w0); [done|intros ?????; by apply HE with (e := 0)|done|].
    intros w' ??. apply wp_ret. by apply HQ.
Qed.

(** [trim] cuts the file, or the kernel refused. *)
Lemma wp_seg_trim pos (Q : (Z + Z) * LogSegment -> world -> Prop) E :
  (pos <= length c)%nat ->
  (forall w', evolves w0 w' -> w_files w' = <[Segment.filename s := take pos c]> (w_files w) ->
     Q (inl (Z.of_nat (length c - pos)),
        Segment.set_log (Fle.set_bytes (Z.of_nat pos) (log s))
          (Segment.set_last_sync_offset (Z.min (last_sync_offset s) (Z.of_nat pos)) s)) w') ->
  (forall w', evolves w0 w' -> w_files w' = w_files w -> ~ benign w0 ->
     Q (inr CANNOT_TRUNCATE_FILE,
        Segment.set_last_sync_offset (Z.min (last_sync_offset s) (Z.of_nat pos)) s) w') ->
  wp (Segment.trim s (Z.of_nat pos)) Q E w.
Proof.
  intros Hle HQ HE. apply wp_bind, wp_attempt. unfold Fle.trim. apply wp_bind. rewrite Nat2Z.id.
  eapply (wp_truncate w0); [done| |apply Hs|done|].
  { intros e w' ???. apply wp_ret. by apply HE. }
  intros w' ? Hfs. apply wp_ret, wp_ret. rewrite (sr_bytes _ _ _ Hs).
  replace (Z.of_nat (length c) - Z.of_nat pos) with (Z.of_nat (length c - pos)) by lia.
  by apply HQ.
Qed.

(** A slice that ends with the file, or before. *)
Lemma wp_seg_fetch pos sz (Q : FileLogEntries -> world -> Prop) E :
  0 <= pos -> 0 < sz ->
  left_with w0 (w_files w)
    (Q (mkFileLogEntries (file (log s)) pos (Z.min (pos + sz) (Z.of_nat (length c))) true false
          (Z.of_nat (length c)))) ->
  refused w0 (w_files w) (fun _ => E (Thrown CANNOT_FSTAT)) ->
  wp (Segment.fetch s pos sz) Q E w.
Proof.
  intros Hpos Hsz HQ HE. unfold Segment.fetch, Fle.slice, Fle.create. apply wp_bind, wp_attempt.
  eapply (wp_size w0); [done| |by apply segment_on_readable|].
  { intros e w' ???. by apply (HE e). }
  intros w' ??. apply wp_ret. unfold Fle.availableBytes.
  rewrite (sr_start _ _ _ Hs), (sr_bytes _ _ _ Hs), !Z.add_0_l, Z.sub_0_r.
  rewrite (proj2 (Z.eqb_neq sz 0)), orb_false_r by lia.
  replace (pos + (_ - pos)) with (Z.min (pos + sz) (Z.of_nat (length c))); [by apply HQ|].
  destruct (Z.ltb_spec (Z.of_nat (length c)) (pos + sz)); lia.
Qed.
End SegmentWp.

(** ** Recovery *)

(** What follows the complete entries of a segment file after a crash: nothing, or
    an entry cut behind its metadata. *)
Inductive torn : list Z -> list Entry -> Prop :=
  | torn_none : torn [] []
  | torn_entry e n :
      sized e -> meta_fits e -> (length (serializeMeta e) <= n)%nat ->
      (n < length (serialize_to e))%nat -> torn (take n (serialize_to e)) [e].

Lemma torn_length X ts : torn X ts -> X = [] <-> ts = [].
Proof.
  intros [|e n He Hf Hn Hlt]; [done|]. split; [|done]. intros H. apply (f_equal length) in H.
  rewrite length_take in H. unfold serializeMeta, writeUInt32 in Hn.
  rewrite !length_app, length_le_encode in Hn. cbn in H. lia.
Qed.

Lemma torn_walk_tail pos X ts : torn X ts -> walk_tail (Z.of_nat (pos + length X)) pos X ts.
Proof.
  intros [|e n He Hf Hn Hlt]; [apply tail_eof|]. apply tail_torn; try done.
  rewrite length_take. f_equal. lia.
Qed.

(** The sequence number the next entry is to get. *)
Definition next_sn (es ts : list Entry) : Z :=
  match ts with
  | e :: _ => sn e
  | [] => match last es with Some e => sn e + 1 | None => 0 end
  end.

Section Recovery.
Let note (_ : Segment.last_entry) (entry : Entry) (pos : Z) : Segment.last_entry * bool :=
  (Segment.mkLastEntry (sn entry) pos (serializedSize entry), false).

Lemma walk_last b pos es e :
  Forall sized es ->
  walk note b pos (es ++ [e]) = Segment.mkLastEntry (sn e) (pos + size_of es) (serializedSize e).
Proof.
  intros Hs. revert b pos. induction Hs as [|e' es He Hs IH]; intros b pos; cbn [app walk note].
  - change (size_of []) with 0. by rewrite Z.add_0_r.
  - rewrite IH, size_of_cons by done. by rewrite Z.add_assoc.
Qed.

(** The entry [readNextSequenceAndCheckCorruption] stops at, and what it concludes. *)
Lemma recovered_from b pos es X ts :
  Forall sized es -> torn X ts -> es ++ ts <> [] ->
  let last := walk note b (Z.of_nat pos) (es ++ ts) in
  let corrupted := negb (Segment.last_entry_start_offset last + Segment.last_entry_size last =?
                         Z.of_nat (pos + length (encode_entries es) + length X)) in
  corrupted = bool_decide (ts <> []) /\
  (if corrupted then Segment.last_sn last else Segment.last_sn last + 1) = next_sn es ts /\
  (ts <> [] -> Segment.last_entry_start_offset last = Z.of_nat (pos + length (encode_entries es))).
Proof.
  intros Hs Ht Hne. destruct Ht as [|e n He Hf Hn Hlt].
  - rewrite app_nil_r in *. destruct es as [|e es _] using rev_ind; [done|].
    apply Forall_app in Hs as [Hs [He _]%Forall_cons]. rewrite walk_last by done. cbn.
    rewrite encode_entries_app, length_app, last_snoc. cbn [encode_entries fmap list_fmap concat].
    rewrite app_nil_r, Nat.add_0_r. rewrite <- sized_length by done. unfold size_of.
    rewrite (proj2 (Z.eqb_eq _ _)) by lia. done.
  - rewrite walk_last by done. cbn. rewrite <- sized_length by done. unfold size_of.
    rewrite length_take, (proj2 (Z.eqb_neq _ _)) by lia.
    split_and!; [done|done|]. intros _. lia.
Qed.

Lemma wp_readNext w0 w s es1 es2 X ts start_sn (Q : Z * Z * bool -> world -> Prop) E :
  evolves w0 w -> segment_on w s (encode_entries (es1 ++ es2) ++ X) ->
  Forall sized es2 -> Forall meta_fits es2 -> torn X ts -> es2 ++ ts <> [] -> benign w0 ->
  (forall pos w', evolves w0 w' -> w_files w' = w_files w ->
     (ts <> [] -> pos = Z.of_nat (length (encode_entries (es1 ++ es2)))) ->
     Q (next_sn es2 ts, pos, bool_decide (ts <> [])) w') ->
  wp (Segment.readNextSequenceAndCheckCorruption s (size_of es1) start_sn) Q E w.
Proof.
  intros Hev Hrep Hs Hfit Ht Hne Hb HQ. pose proof (segment_on_size _ _ _ Hrep) as Hsz.
  set (c := encode_entries (es1 ++ es2) ++ X) in *.
  assert (Hlen : length c = (length (encode_entries es1) + length (encode_entries es2) + length X)%nat)
    by (unfold c; rewrite encode_entries_app, !length_app; lia).
  assert (Hpos : (length (encode_entries es1) < length c)%nat).
  { destruct es2 as [|e es2].
    - destruct ts; [done|]. destruct X; [by apply torn_length in Ht as [H _]; specialize (H eq_refl)|].
      cbn [length] in Hlen. lia.
    - rewrite encode_entries_cons, length_app, length_serialize_to in Hlen. lia. }
  unfold Segment.readNextSequenceAndCheckCorruption. rewrite Hsz, (proj2 (Z.eqb_neq _ _)) by lia.
  apply wp_bind. eapply (wp_seg_fetch w0); [done|done|unfold size_of; lia|lia| |].
  2: { intros e w' ???. done. }
  intros w1 Hev1 Hfs1. rewrite Z.min_r by (unfold size_of; lia).
  apply wp_bind, wp_zoom, wp_bind, wp_catch. unfold Fle.applyLogEntryMetadata. apply wp_bind, wp_gets.
  cbn [fst file start_pos end_pos default from_option].
  destruct (segment_on_readable _ _ _ Hrep) as [Ho Hf]. rewrite Hfs1, Hf. change (default [] (Some c)) with c.
  apply (wp_apply_loop note w0 _ _ c (length (encode_entries es1)) es2 X ts).
  - split; [done|]. by rewrite Hfs1.
  - done.
  - unfold c. by rewrite encode_entries_app, <- app_assoc, drop_app_length.
  - lia.
  - done.
  - done.
  - lia.
  - rewrite Hlen. by apply torn_walk_tail.
  - lia.
  - intros r w' Hev' Hfs' [->|[Hnb _]]; [|done]. apply wp_gets. cbn [fst snd].
    destruct (recovered_from (Segment.mkLastEntry start_sn (size_of es1) 0)
      (length (encode_entries es1)) es2 X ts Hs Ht Hne) as (H1 & H2 & H3).
    rewrite Hlen. apply wp_ret. rewrite H2, H1. apply HQ; [done|congruence|].
    intros Hts. rewrite H3 by done. by rewrite encode_entries_app, length_app.
Qed.
End Recovery.

Lemma wp_recover_segment w0 w s es1 es2 X ts start_sn (Q : Z * Z * LogSegment -> world -> Prop) E :
  evolves w0 w -> segment_on w s (encode_entries (es1 ++ es2) ++ X) ->
  Forall sized es2 -> Forall meta_fits es2 -> torn X ts -> es2 ++ ts <> [] -> benign w0 ->
  (forall s' w', evolves w0 w' -> seg_id s' = seg_id s -> base_sn s' = base_sn s ->
     Segment.filename s' = Segment.filename s -> segment_on w' s' (encode_entries (es1 ++ es2)) ->
     w_files w' = <[Segment.filename s := encode_entries (es1 ++ es2)]> (w_files w) ->
     Q (next_sn es2 ts, Z.of_nat (length X), s') w') ->
  wp (Segment.recover s (mkSequencePosition start_sn (size_of es1))) Q E w.
Proof.
  intros Hev Hrep Hs Hfit Ht Hne Hb HQ. unfold Segment.recover. apply wp_bind. cbn [file_position sp_sn].
  eapply wp_readNext; try done. intros pos w1 Hev1 Hfs1 Hpos. cbn beta iota.
  pose proof (segment_on_filename _ _ _ Hrep) as Hf. pose proof (torn_length X ts Ht) as HX.
  destruct (decide (ts = [])) as [Hts|Hts].
  - rewrite bool_decide_eq_false_2 by auto. apply wp_ret. assert (X = []) as -> by tauto.
    rewrite app_nil_r in Hf, Hrep. apply HQ; [done|done|done|done| |].
    + apply (segment_on_world w); [done|]. by rewrite Hfs1.
    + rewrite Hfs1. symmetry. by apply insert_id.
  - rewrite bool_decide_eq_true_2 by auto. rewrite (Hpos Hts). apply wp_bind, wp_map_err.
    unfold Fle.trim. apply wp_bind. rewrite Nat2Z.id. destruct (Hrep) as [(Ho & Hro & Hc) Hby _ _ _].
    eapply (wp_truncate w0); [done|intros ?????; done| | |].
    + split_and!; [done|done|]. by rewrite Hfs1.
    + rewrite length_app. lia.
    + intros w2 Hev2 Hfs2. rewrite take_app_length, Hfs1 in Hfs2. apply wp_ret, wp_ret.
      rewrite Hby, length_app.
      replace (Z.of_nat (_ + _) - _) with (Z.of_nat (length X)) by lia.
      apply HQ; [done|done|done|done| |done]. eapply (segment_on_set w); [done|].
      rewrite Hfs2. apply lookup_insert_eq.
Qed.

(** ** Properties *)


Definition example_segment (n : nat) : LogSegment :=
  mkLogSegment 1 42 0
    (mkFileLogEntries (mkAppendOnlyFile "log" false true) 0 (2 ^ 64 - 1) false false (Z.of_nat n)).
Definition example_torn_entry : Entry :=
  (serialize (mkEntry 0 7 1 300 1700000000000 (-5) 45 EntryType_Normal [1; 2; 3; 4; 5; 6])).2.

(** The files of a segment cut after [n] bytes of a fourth entry. *)
Definition example_segment_bytes (n : nat) : list Z :=
  encode_entries example_entries ++ take n (serialize_to example_torn_entry).

Lemma example_torn : torn (take 20 (serialize_to example_torn_entry)) [example_torn_entry].
Proof.
  constructor.
  - apply serialize_sized; [split; vm_compute; split; congruence|vm_compute; split; congruence].
  - unfold meta_fits. vm_compute. lia.
  - vm_compute. lia.
  - vm_compute. lia.
Qed.


(** A tail torn inside the metadata is not parsed, so the walk ends at the last
    complete entry, and recovery cuts that entry off as well. *)
Lemma recover_drops_complete_entry :
  let c := example_segment_bytes 10 in
  match Segment.recover (example_segment (length c)) (mkSequencePosition 42 0) (World {["log" := c]} []) with
  | (Ok (next, _, _), w') =>
      next = 44 /\ w_files w' !! "log" = Some (encode_entries (take 2 example_entries))
  | _ => False
  end.
Proof. vm_compute. done. Qed.

(** A read error during the walk is taken for the end of the file: an intact segment
    loses its tail. *)
Lemma recover_read_error_truncates :
  let c := encode_entries example_entries in
  match Segment.recover (example_segment (length c)) (mkSequencePosition 42 0)
          (World {["log" := c]} [SysOk; SysOk; SysErr 5]) with
  | (Ok (next, _, _), w') => next = 42 /\ w_files w' !! "log" = Some []
  | _ => False
  end.
Proof. vm_compute. done. Qed.
