(* ===== verification/LogSegments.v ===== *)
(** * LogSegments (src/Cluster/LocalLog/Log/LogSegments.cpp)

    The segments of a log, ordered by base sequence. *)

From S2P Require Import Prelude Ordered LogSegment.

Local Open Scope Z_scope.

(** [std::map<int64_t, LogSegmentPtr>], iterators as positions. *)
Abbreviation LogSegments := (list (Z * LogSegment)) (only parsing).

Module Segments.
Implicit Types (m : LogSegments) (sn : Z) (s : LogSegment).

Definition add s m : LogSegments := om_insert (base_sn s) s m.
Definition remove sn m : LogSegments := om_erase sn m.
Definition get sn m : option LogSegment := om_find sn m.
Definition contains sn m : bool := bool_decide (is_Some (om_find sn m)).
Definition firstSegment m : option LogSegment := snd <$> head m.
Definition lastSegment m : option LogSegment := snd <$> last m.
Definition activeSegment m : option LogSegment := lastSegment m.

Definition higherSegment sn m : option LogSegment := snd <$> m !! om_upper_bound sn m.

Definition lowerSegment sn m : option LogSegment :=
  let iter := om_lower_bound sn m in
  if bool_decide (iter = length m) then None
  else if bool_decide (iter <> O) then snd <$> m !! pred iter
  else None.

Definition floorSegment sn m : option LogSegment :=
  match m with
  | [] => None
  | _ =>
      let iter := om_lower_bound sn m in
      match m !! iter with
      | None => lastSegment m
      | Some (k, s) =>
          if k =? sn then Some s
          else if bool_decide (iter <> O) then snd <$> m !! pred iter
          else None
      end
  end.

Definition lowerEqualSegments sn m : list LogSegment :=
  let iter_end := om_lower_bound sn m in
  match m !! iter_end with
  | Some (k, _) =>
      if k =? sn then (take (S iter_end) m).*2
      else if bool_decide (iter_end = O) then []
      else (take iter_end m).*2
  | None => (take iter_end m).*2
  end.

Definition upperSegments sn m : list LogSegment := (drop (om_upper_bound sn m) m).*2.

Definition baseSequences m : list Z := (fun e => base_sn e.2) <$> m.
Definition sequenceRange m : Z * Z :=
  match firstSegment m, lastSegment m with
  | Some a, Some b => (base_sn a, base_sn b)
  | _, _ => (-1, -1)
  end.

Definition segmentsBetween from to m : list LogSegment :=
  if to <=? from then []
  else
    let iter := om_lower_bound from m in
    match m !! iter with
    | None => []
    | Some (k, _) =>
        if to <=? k then []
        else
          let high_iter := om_lower_bound to m in
          (take (high_iter - iter) (drop iter m)).*2
    end.

Definition allSegments m : list LogSegment := m.*2.

(** [apply(func)]: [func] updates what it captures and says whether to stop. *)
Fixpoint apply {B} (func : B -> LogSegment -> B * bool) (b : B) m : B :=
  match m with
  | [] => b
  | (_, s) :: m =>
      let '(b, stop) := func b s in
      if (stop : bool) then b else apply func b m
  end.

Definition clear m : LogSegments := [].
Definition empty m : bool := match m with [] => true | _ => false end.
Definition size m : nat := length m.

(** ** Well-formed maps *)

(** Ordered, every segment filed under its base sequence. *)
Record wf m : Prop := {
  wf_sorted : om_sorted m;
  wf_base : Forall (fun e => base_sn e.2 = e.1) m;
}.

Lemma wf_nil : wf [].
Proof. split; constructor. Qed.

Lemma wf_add s m : wf m -> wf (add s m).
Proof.
  intros [Hs Hb]. split; [by apply om_insert_sorted|]. rewrite Forall_forall in Hb |- *.
  intros e [->|He]%om_insert_in; [done|]. by apply Hb.
Qed.

Lemma wf_remove sn m : wf m -> wf (remove sn m).
Proof. intros [Hs Hb]. split; [by apply om_erase_sorted|]. by apply Forall_filter. Qed.

Lemma wf_app m1 m2 : wf (m1 ++ m2) -> wf m1 /\ wf m2.
Proof.
  intros [Hs Hb]. apply StronglySorted_app in Hs as (_ & ? & ?). apply Forall_app in Hb as [? ?].
  by split; split.
Qed.

(** The base sequences are the keys. *)
Lemma wf_baseSequences m : wf m -> baseSequences m = m.*1.
Proof.
  intros [_ Hb]. unfold baseSequences. induction Hb as [|e m He _ IH]; cbn; [done|].
  rewrite He. by f_equal.
Qed.

Lemma floorSegment_spec sn m : wf m -> floorSegment sn m = snd <$> last (filter (fun e => e.1 <= sn) m).
Proof.
  intros [Hs _]. rewrite om_upto by done. unfold floorSegment. destruct m as [|e m]; [done|].
  set (m' := e :: m) in *. clearbody m'. cbv zeta. rewrite om_upper_lower by done.
  pose proof (partition_point_le (fun e => e.1 <? sn) m') as Hle. fold (om_lower_bound sn m') in Hle.
  destruct (m' !! om_lower_bound sn m') as [[k s]|] eqn:Hl.
  - destruct (k =? sn) eqn:Hk.
    + rewrite (take_S_r _ _ _ Hl), last_snoc. done.
    + destruct (om_lower_bound sn m') as [|i] eqn:Hi; [done|]. cbn [pred].
      rewrite bool_decide_eq_true_2 by done.
      destruct (lookup_lt_is_Some_2 m' i) as [x Hx]; [apply lookup_lt_Some in Hl; lia|].
      by rewrite (take_S_r _ _ _ Hx), last_snoc, Hx.
  - apply lookup_ge_None in Hl. rewrite take_ge by done. done.
Qed.

Lemma higherSegment_spec sn m :
  wf m -> higherSegment sn m = snd <$> head (filter (fun e => sn < e.1) m).
Proof.
  intros [Hs _]. rewrite om_above by done. unfold higherSegment. f_equal.
  rewrite <- (Nat.add_0_r (om_upper_bound sn m)) at 1. rewrite <- lookup_drop. by destruct (drop _ _).
Qed.

Lemma lowerEqualSegments_spec sn m :
  wf m -> lowerEqualSegments sn m = (filter (fun e => e.1 <= sn) m).*2.
Proof.
  intros [Hs _]. rewrite om_upto, om_upper_lower by done. unfold lowerEqualSegments.
  destruct (m !! om_lower_bound sn m) as [[k s]|]; [|done].
  destruct (k =? sn); [done|]. case_bool_decide as H; [by rewrite H|done].
Qed.

Lemma upperSegments_spec sn m : wf m -> upperSegments sn m = (filter (fun e => sn < e.1) m).*2.
Proof. intros [Hs _]. by rewrite om_above by done. Qed.

Lemma segmentsBetween_spec from to m :
  wf m -> segmentsBetween from to m = (filter (fun e => from <= e.1 < to) m).*2.
Proof.
  intros [Hs _]. unfold segmentsBetween. destruct (Z.leb_spec to from) as [Hle|Hlt].
  { rewrite filter_none; [done|]. apply Forall_forall. intros x _. lia. }
  assert (Hf : filter (fun e : Z * LogSegment => from <= e.1 < to) m
               = filter (fun e => e.1 < to) (filter (fun e => from <= e.1) m)).
  { rewrite list_filter_filter. apply list_filter_iff. intros x. tauto. }
  pose proof Hs as Hd. rewrite <- (take_drop (om_lower_bound from m) m) in Hd.
  apply StronglySorted_app in Hd as (_ & _ & Hd).
  rewrite Hf, om_from, om_below by done.
  assert (Hpp : om_lower_bound to (drop (om_lower_bound from m) m)
                = (om_lower_bound to m - om_lower_bound from m)%nat).
  { pose proof (partition_point_le (fun e => e.1 <? from) m) as Hle. fold (om_lower_bound from m) in Hle.
    assert (Happ := partition_point_app_l (fun e => e.1 <? to) (take (om_lower_bound from m) m)
      (drop (om_lower_bound from m) m)).
    rewrite take_drop, length_take, Nat.min_l in Happ by done. unfold om_lower_bound at 1 3.
    rewrite Happ; [lia|].
    eapply Forall_impl; [apply partition_point_before|]. cbn. intros x Hx. lia. }
  rewrite Hpp. destruct (m !! om_lower_bound from m) as [[k s]|] eqn:Hl.
  - destruct (Z.leb_spec to k) as [Htk|]; [|done].
    rewrite <- Hpp. unfold om_lower_bound at 1. rewrite (partition_point_none _ _ (k, s)); [done| |cbn; lia].
    rewrite (drop_S _ _ _ Hl). done.
  - apply lookup_ge_None in Hl. by rewrite drop_ge, take_nil.
Qed.

(** [lowerSegment] answers only when there is a segment at or above [sn]. *)
Lemma lowerSegment_spec sn m :
  wf m -> lowerSegment sn m = if decide (Exists (fun e => sn <= e.1) m)
                              then snd <$> last (filter (fun e => e.1 < sn) m) else None.
Proof.
  intros [Hs _]. unfold lowerSegment. rewrite om_below by done.
  pose proof (partition_point_le (fun e => e.1 <? sn) m) as Hle. fold (om_lower_bound sn m) in Hle.
  pose proof (om_from sn m Hs) as Hf. destruct (decide (Exists _ m)) as [Hex|Hex].
  - rewrite bool_decide_eq_false_2.
    2: { intros Heq. rewrite drop_ge in Hf by lia. apply Exists_exists in Hex as (x & Hx & Hsn).
         assert (Hin : x ∈ filter (fun e => sn <= e.1) m) by (by apply list_elem_of_filter).
         rewrite Hf in Hin. by apply not_elem_of_nil in Hin. }
    destruct (om_lower_bound sn m) as [|i] eqn:Hi; [done|]. rewrite bool_decide_eq_true_2 by done. cbn.
    destruct (lookup_lt_is_Some_2 m i) as [x Hx]; [lia|].
    by rewrite (take_S_r _ _ _ Hx), last_snoc, Hx.
  - apply not_Exists_Forall in Hex; [|intros; apply _]. rewrite filter_none in Hf by done.
    rewrite bool_decide_eq_true_2; [done|]. apply (f_equal length) in Hf.
    rewrite length_drop in Hf. cbn in Hf. lia.
Qed.
End Segments.

(** ** Properties *)

(** The lookups of the segment map are what they are named for: the floor of a
    sequence is the segment with the greatest base at or below it, the higher
    segment the one with the smallest base above it, and the range queries return
    exactly the segments whose base is in their range, in order. *)
Theorem segment_lookups m sn to :
  Segments.wf m ->
  Segments.floorSegment sn m = snd <$> last (filter (fun e => e.1 <= sn) m) /\
  Segments.higherSegment sn m = snd <$> head (filter (fun e => sn < e.1) m) /\
  Segments.lowerEqualSegments sn m = (filter (fun e => e.1 <= sn) m).*2 /\
  Segments.upperSegments sn m = (filter (fun e => sn < e.1) m).*2 /\
  Segments.segmentsBetween sn to m = (filter (fun e => sn <= e.1 < to) m).*2.
Proof.
  intros Hwf. split_and!.
  - by apply Segments.floorSegment_spec.
  - by apply Segments.higherSegment_spec.
  - by apply Segments.lowerEqualSegments_spec.
  - by apply Segments.upperSegments_spec.
  - by apply Segments.segmentsBetween_spec.
Qed.

(** The map keeps its order and files every segment under its base sequence;
    adding and removing a segment change exactly the entry of its base sequence, an
    added segment replacing one with the same base. *)
Theorem segments_add_remove m s sn k :
  Segments.wf m ->
  Segments.wf (Segments.add s m) /\ Segments.wf (Segments.remove sn m) /\
  Segments.get k (Segments.add s m) = (if decide (base_sn s = k) then Some s else Segments.get k m) /\
  Segments.get k (Segments.remove sn m) = (if decide (sn = k) then None else Segments.get k m).
Proof.
  intros Hwf. split_and!.
  - by apply Segments.wf_add.
  - by apply Segments.wf_remove.
  - apply om_find_insert, Hwf.
  - apply om_find_erase.
Qed.

Definition example_segment_at (id sn : Z) : LogSegment :=
  mkLogSegment id sn 0
    (FileLogEntries.mkFileLogEntries (AppendOnlyFile.mkAppendOnlyFile "x" false true) 0 0 false false 0).
Definition example_segments : LogSegments :=
  (fun x => (x.2, example_segment_at x.1 x.2)) <$> [(1, 1); (2, 10); (3, 25)].

Lemma example_segments_wf : Segments.wf example_segments.
Proof. split; repeat constructor. Qed.

Lemma segment_lookups_witness :
  (Segments.floorSegment 12 example_segments = snd <$> last (filter (fun e => e.1 <= 12) example_segments) /\
  Segments.higherSegment 12 example_segments = snd <$> head (filter (fun e => 12 < e.1) example_segments) /\
  Segments.lowerEqualSegments 12 example_segments = (filter (fun e => e.1 <= 12) example_segments).*2 /\
  Segments.upperSegments 12 example_segments = (filter (fun e => 12 < e.1) example_segments).*2 /\
  Segments.segmentsBetween 12 30 example_segments = (filter (fun e => 12 <= e.1 < 30) example_segments).*2) /\
  base_sn <$> Segments.floorSegment 12 example_segments = Some 10.
Proof. split; [apply segment_lookups, example_segments_wf|vm_compute; reflexivity]. Defined.

Lemma segments_add_remove_witness :
  let s := example_segment_at 4 30 in
  Segments.wf (Segments.add s example_segments) /\ Segments.wf (Segments.remove 10 example_segments) /\
  Segments.get 30 (Segments.add s example_segments)
  = (if decide (base_sn s = 30) then Some s else Segments.get 30 example_segments) /\
  Segments.get 30 (Segments.remove 10 example_segments)
  = (if decide (10 = 30) then None else Segments.get 30 example_segments).
Proof. intros s. apply segments_add_remove, example_segments_wf. Defined.

(** The last segment is strictly below 30, yet [lowerSegment] finds nothing. *)
Lemma lowerSegment_misses_last :
  Segments.lowerSegment 30 example_segments = None /\
  base_sn <$> (snd <$> last (filter (fun e => e.1 < 30) example_segments)) = Some 25.
Proof. by vm_compute. Qed.

(** The segment that includes 12 starts at 10 and is left out of [12, 30). *)
Lemma segmentsBetween_misses_first :
  base_sn <$> Segments.segmentsBetween 12 30 example_segments = [25] /\
  base_sn <$> Segments.floorSegment 12 example_segments = Some 10.
Proof. by vm_compute. Qed.
