(* ===== verification/LogTypes.v ===== *)
(** * Positions in a log (src/Cluster/LocalLog/Common/LogSequenceMetadata.cpp,
    src/Cluster/Common/FetchHint.cpp, src/Cluster/LocalLog/Common/FetchResult.h)

    A sequence number with the segment and file position it lives at, the hint a
    consumer sends back with its next fetch, and the result of a fetch. *)

From S2P Require Import Prelude Codec Entry.

Local Open Scope prog_scope.

(** [Constants] *)
Definition LogStartSN : Z := 1.
Definition SegmentStartID : Z := 1.
Definition LatestSN : Z := -1.
Definition EarliestSN : Z := -2.

Record FetchHint : Type := mkFetchHint {
  fh_sn : Z;                     (** [int64_t] *)
  fh_segment_base_sn : Z;        (** [int64_t] *)
  fh_file_position : Z;          (** [uint64_t], the maximum when unknown *)
}.

#[export] Instance FetchHint_eq_dec : EqDecision FetchHint.
Proof. solve_decision. Defined.

Record LogSequenceMetadata : Type := mkLogSequenceMetadata {
  entry_sn : Z;
  segment_base_sn : option Z;
  lm_file_position : option Z;
}.

#[export] Instance LogSequenceMetadata_eq_dec : EqDecision LogSequenceMetadata.
Proof. solve_decision. Defined.

Definition no_position : Z := 2 ^ 64 - 1.
Definition new_FetchHint : FetchHint := mkFetchHint 0 0 no_position.
Definition new_LogSequenceMetadata : LogSequenceMetadata := mkLogSequenceMetadata 0 None None.

Module Hint.
Definition empty (h : FetchHint) : bool :=
  (fh_sn h =? 0) && (fh_segment_base_sn h =? 0) && (fh_file_position h =? no_position).
Definition hasFilePosition (h : FetchHint) : bool := negb (fh_file_position h =? no_position).
Definition serialize (h : FetchHint) : list Z :=
  writeVarInt (fh_sn h) ++ writeVarInt (fh_segment_base_sn h) ++ writeVarUInt (fh_file_position h).
Definition deserialize : reader FetchHint :=
  sn <- readVarInt;; base <- readVarInt;; pos <- readVarUInt;; ret (mkFetchHint sn base pos).
End Hint.

Module SnMeta.
Definition isValid (m : LogSequenceMetadata) : bool :=
  (LogStartSN <=? entry_sn m) || bool_decide (is_Some (segment_base_sn m)) ||
  bool_decide (is_Some (lm_file_position m)).

(** [operator==]: invalid metadata equals nothing, not even itself. *)
Definition eqb (a b : LogSequenceMetadata) : bool :=
  isValid a && isValid b && (entry_sn a =? entry_sn b) &&
  bool_decide (lm_file_position a = lm_file_position b) &&
  bool_decide (segment_base_sn a = segment_base_sn b).

Definition toFetchHint (m : LogSequenceMetadata) : FetchHint :=
  mkFetchHint (entry_sn m) (default 0 (segment_base_sn m)) (default no_position (lm_file_position m)).

Definition writeOption (write : Z -> list Z) (o : option Z) : list Z :=
  match o with Some x => [1] ++ write x | None => [0] end.
(** An absent value leaves the field as it was. *)
Definition readOption (read : reader Z) (old : option Z) : reader (option Z) :=
  has <- readUInt8;;
  if has =? 0 then ret old else x <- read;; ret (Some x).

Definition serialize (m : LogSequenceMetadata) : list Z :=
  writeVarInt (entry_sn m) ++ writeOption writeVarInt (segment_base_sn m) ++
  writeOption writeVarUInt (lm_file_position m).
Definition deserialize (m : LogSequenceMetadata) : reader LogSequenceMetadata :=
  sn <- readVarInt;;
  base <- readOption readVarInt (segment_base_sn m);;
  pos <- readOption readVarUInt (lm_file_position m);;
  ret (mkLogSequenceMetadata sn base pos).
End SnMeta.

Record FetchResult : Type := mkFetchResult {
  fr_log_start_sn : Z;
  fr_log_committed_sn : Z;
  fetch_hint : FetchHint;
  fetched_log_sn_metadata : LogSequenceMetadata;
  fr_entries : list Entry;
}.

Definition new_FetchResult : FetchResult :=
  mkFetchResult 0 0 new_FetchHint new_LogSequenceMetadata [].

(** ** Round trips *)

Lemma reads_option write read (P : Z -> Prop) o :
  (forall x, P x -> reads read (write x) x) -> (forall x, o = Some x -> P x) ->
  reads (SnMeta.readOption read None) (SnMeta.writeOption write o) o.
Proof.
  intros Hr HP. destruct o as [x|]; cbn [SnMeta.writeOption].
  - eapply reads_bind; [apply reads_UInt8; lia|]. cbn. eapply reads_map; [|done]. auto.
  - intros rest. done.
Qed.

(** A fetch hint, and the metadata of a sequence number in all four
    combinations of known and unknown segment and position, survive being written
    and read back, and reading consumes exactly their bytes. *)
Theorem hint_metadata_roundtrip h m rest :
  i64 (fh_sn h) -> i64 (fh_segment_base_sn h) -> u64 (fh_file_position h) ->
  i64 (entry_sn m) -> (forall x, segment_base_sn m = Some x -> i64 x) ->
  (forall x, lm_file_position m = Some x -> u64 x) ->
  Hint.deserialize (Hint.serialize h ++ rest) = (Ok h, rest) /\
  SnMeta.deserialize new_LogSequenceMetadata (SnMeta.serialize m ++ rest) = (Ok m, rest).
Proof.
  intros H1 H2 H3 H4 H5 H6. split; revert rest.
  - destruct h as [a b c]. cbn in *. eapply reads_bind; [by apply reads_VarInt|].
    eapply reads_bind; [by apply reads_VarInt|]. eapply reads_map; [by apply reads_VarUInt|done].
  - destruct m as [a b c]. cbn in *. eapply reads_bind; [by apply reads_VarInt|].
    eapply reads_bind; [by apply (reads_option _ _ i64), H5; apply reads_VarInt|].
    eapply reads_map; [by apply (reads_option _ _ u64), H6; apply reads_VarUInt|done].
Qed.

Lemma hint_metadata_roundtrip_witness :
  Hint.deserialize (Hint.serialize (mkFetchHint 42 (-1) no_position) ++ [7])
  = (Ok (mkFetchHint 42 (-1) no_position), [7]) /\
  SnMeta.deserialize new_LogSequenceMetadata
    (SnMeta.serialize (mkLogSequenceMetadata 42 None (Some 4096)) ++ [7])
  = (Ok (mkLogSequenceMetadata 42 None (Some 4096)), [7]).
Proof.
  apply hint_metadata_roundtrip; cbn; unfold i64, u64, no_position; try lia; intros; simplify_eq; lia.
Defined.
