(* ===== verification/LogEntryCache.v ===== *)
(** * LogEntryCache (src/Cluster/LocalLog/Log/LogEntryCache.cpp)

    The latest entries of a log, kept in memory to serve consumers that are close to
    its end.  The size of the [Entry] struct depends on the platform and is a
    parameter. *)

From S2P Require Import Prelude Ordered Codec KeyValues Entry LogTypes.

Local Open Scope prog_scope.

Record EntryWithSequenceMeta : Type := mkCached {
  current_log_sn_metadata : LogSequenceMetadata;
  cached_hint : FetchHint;
  entry : Entry;
}.

#[export] Instance EntryWithSequenceMeta_eq_dec : EqDecision EntryWithSequenceMeta.
Proof. solve_decision. Defined.

Record LogEntryCache : Type := mkLogEntryCache {
  max_cached_entries : Z;
  cached_bytes : Z;              (** [uint64_t] *)
  cached : list EntryWithSequenceMeta;
}.

Module Cache.

Section Cache.
Context (sizeof_Entry : Z).
Implicit Types (c : LogEntryCache) (e : Entry).

Definition approximateSerializedSize e : Z := sizeof_Entry + Z.of_nat (length (data e)).

Definition create (max : Z) : LogEntryCache := mkLogEntryCache max 0 [].
Definition clearWithLockHeld c : LogEntryCache := mkLogEntryCache (max_cached_entries c) 0 [].
Definition clear c : LogEntryCache := clearWithLockHeld c.

(** [entries.emplace_back(item)], and [entries.pop_front()] when there are too many. *)
Definition push (item : EntryWithSequenceMeta) c : LogEntryCache :=
  let entries := cached c ++ [item] in
  let bytes := to_u64 (cached_bytes c + approximateSerializedSize (entry item)) in
  match entries with
  | front :: rest =>
      if max_cached_entries c <? Z.of_nat (length entries) then
        mkLogEntryCache (max_cached_entries c)
          (to_u64 (bytes - approximateSerializedSize (entry front))) rest
      else mkLogEntryCache (max_cached_entries c) bytes entries
  | [] => c
  end.

(** The item made for an entry of a batch that starts at [position]. *)
Definition item_at (segment_base : Z) (e : Entry) (size position : Z) : EntryWithSequenceMeta :=
  mkCached (mkLogSequenceMetadata (sn e) (Some segment_base) (Some position))
    (mkFetchHint (sn e + 1) segment_base (position + size)) e.

(** [None] when there are fewer serialized entries than entries. *)
Fixpoint append_loop (batch : list Entry) (batch_data : list (list Z)) (segment_base position : Z) c
  : option LogEntryCache :=
  match batch, batch_data with
  | [], _ => Some c
  | e :: batch, d :: batch_data =>
      let size := Z.of_nat (length d) in
      append_loop batch batch_data segment_base (position + size)
        (push (item_at segment_base e size position) c)
  | _ :: _, [] => None
  end.
Definition append_batch (batch : list Entry) (batch_data : list (list Z))
    (segment_base start_file_position : Z) c : option LogEntryCache :=
  if max_cached_entries c =? 0 then Some c
  else
    let c := if max_cached_entries c <=? Z.of_nat (length batch) then clearWithLockHeld c else c in
    append_loop batch batch_data segment_base start_file_position c.

Definition append (e : Entry) (metadata : LogSequenceMetadata) (hint : FetchHint) c : LogEntryCache :=
  push (mkCached metadata hint e) c.

(** The loop of a fetch over the items behind [it]: [left] is [it_end - it].  The
    items taken, or [None] when the loop runs past the end. *)
Fixpoint fetch_loop (items : list EntryWithSequenceMeta) (left total_size max_size : Z)
  : option (list EntryWithSequenceMeta) :=
  if (left =? 0) || (max_size <=? total_size) then Some []
  else
    match items with
    | [] => None
    | item :: items =>
        cons item <$> fetch_loop items (left - 1) (total_size + approximateSerializedSize (entry item)) max_size
    end.

(** From the loop to the result: [std::prev(it)] and [it_start] have to exist. *)
Definition fetch_from c (index_start index_end max_size : Z) : res (FetchResult * bool) :=
  let items := drop (Z.to_nat index_start) (cached c) in
  match fetch_loop items (index_end - index_start) 0 max_size with
  | None => Undef
  | Some taken =>
      let it := index_start + Z.of_nat (length taken) in
      match items, cached c !! Z.to_nat (it - 1) with
      | start :: _, Some prev =>
          if it =? 0 then Undef
          else Ok (mkFetchResult 0 0 (cached_hint prev) (current_log_sn_metadata start) (entry <$> taken),
                   false)
      | _, _ => Undef
      end
  end.

Definition fetchForMemoryLog c (first_sn last_sn : Z) (last_hint : FetchHint)
    (request_start_sn request_end_sn max_size : Z) : res (FetchResult * bool) :=
  if request_start_sn =? last_sn + 1 then
    Ok (mkFetchResult 0 0 last_hint new_LogSequenceMetadata [], false)
  else if last_sn + 1 <? request_start_sn then
    Ok (mkFetchResult 0 0 (mkFetchHint request_start_sn 0 no_position) new_LogSequenceMetadata [], false)
  else
    let request_start_sn := if request_start_sn <? first_sn then first_sn else request_start_sn in
    let request_end_sn := Z.min request_end_sn (last_sn + 1) in
    fetch_from c (request_start_sn - first_sn) (request_end_sn - first_sn) max_size.

(** [fetch]: the result, and whether to fall back to the file system. *)
Definition fetch c (request_start_sn request_end_sn max_size : Z) (memory_log : bool)
  : res (FetchResult * bool) :=
  match head (cached c), last (cached c) with
  | Some front, Some back =>
      let first_sn := sn (entry front) in
      let last_sn := sn (entry back) in
      if memory_log then
        fetchForMemoryLog c first_sn last_sn (cached_hint back) request_start_sn request_end_sn max_size
      else if last_sn <? request_start_sn then Ok (new_FetchResult, true)
      else if request_start_sn <? first_sn then Ok (new_FetchResult, true)
      else
        let request_end_sn := Z.min (last_sn + 1) request_end_sn in
        fetch_from c (request_start_sn - first_sn) (request_end_sn - first_sn) max_size
  | _, _ => Ok (new_FetchResult, true)
  end.

(** [trim]: the hint of the new last entry, when something was cut off. *)
Definition trim c (target_sn : Z) : option FetchHint * LogEntryCache :=
  match last (cached c) with
  | None => (None, c)
  | Some back =>
      if sn (entry back) <? target_sn then (None, c)
      else
        let iter := partition_point (fun i => negb (target_sn <=? sn (entry i))) (cached c) in
        let bytes := foldl (fun b i => to_u64 (b - approximateSerializedSize (entry i)))
                       (cached_bytes c) (drop iter (cached c)) in
        let entries := take iter (cached c) in
        (cached_hint <$> last entries, mkLogEntryCache (max_cached_entries c) bytes entries)
  end.

(** [epochSequences]: nothing unless the cache covers the whole range. *)
Definition epochSequences c (low_sn high_sn : Z) : res (list EpochSequence) :=
  if max_cached_entries c =? 0 then Ok []
  else
    match head (cached c), last (cached c) with
    | Some front, Some back =>
        if (low_sn <? sn (entry front)) || (sn (entry back) + 1 <? high_sn) then Ok []
        else
          let n := Z.to_nat (high_sn - low_sn) in
          let items := take n (drop (Z.to_nat (low_sn - sn (entry front))) (cached c)) in
          if bool_decide (length items = n) then Ok ((fun i => mkEpochSequence 1 (sn (entry i))) <$> items)
          else Undef
    | _, _ => Ok []
    end.

Definition lastLogSequence c : option Z := (fun i => sn (entry i)) <$> last (cached c).

End Cache.
End Cache.
