(* ===== verification/CacheProps.v ===== *)
(** * What the cache guarantees

    The cache holds the latest entries of the log without gaps, accounts for their
    size, and serves a range from memory only when it starts inside the cache. *)

From S2P Require Import Prelude Ordered Codec KeyValues Entry LogTypes LogEntryCache.

Local Open Scope Z_scope.

Section CacheSpec.
Context (sizeof_Entry : Z).
Implicit Types (c : LogEntryCache) (items : list EntryWithSequenceMeta) (e : Entry).
Local Abbreviation size i := (Cache.approximateSerializedSize sizeof_Entry (entry i)).

Definition item_sn (i : EntryWithSequenceMeta) : Z := sn (entry i).

Definition total items : Z := foldr (fun i t => size i + t) 0 items.

(** No gaps, the size accounted for, and not too many entries. *)
Record cache_ok c : Prop := {
  co_consecutive : consecutive (item_sn <$> cached c);
  co_bytes : cached_bytes c = to_u64 (total (cached c));
  co_max : Z.of_nat (length (cached c)) <= max_cached_entries c;
}.

Lemma total_cons i items : total (i :: items) = size i + total items.
Proof. done. Qed.
Lemma total_app i1 i2 : total (i1 ++ i2) = total i1 + total i2.
Proof. unfold total. induction i1 as [|i i1 IH]; cbn; [done|]. rewrite IH. lia. Qed.

Lemma to_u64_add a b : to_u64 (to_u64 a + b) = to_u64 (a + b).
Proof. unfold to_u64. by rewrite Zplus_mod_idemp_l. Qed.
Lemma to_u64_sub a b : to_u64 (to_u64 a - b) = to_u64 (a - b).
Proof. unfold to_u64. by rewrite Zminus_mod_idemp_l. Qed.

Lemma push_ok item c :
  cache_ok c -> consecutive (item_sn <$> cached c ++ [item]) ->
  let c' := Cache.push sizeof_Entry item c in
  cache_ok c' /\ max_cached_entries c' = max_cached_entries c /\
  cached c' = lastn (Z.to_nat (max_cached_entries c)) (cached c ++ [item]).
Proof.
  intros [_ Hb Hm] Hc'. unfold Cache.push.
  pose proof (total_app (cached c) [item]) as Ht. cbn in Ht. rewrite Z.add_0_r in Ht.
  rewrite Hb, to_u64_add, <- Ht. rewrite length_app. cbn [length].
  assert (Hlen : length (cached c ++ [item]) = S (length (cached c))) by (rewrite length_app; cbn; lia).
  destruct (cached c ++ [item]) as [|front rest]; [done|]. cbn [length] in Hlen.
  destruct (Z.ltb_spec (max_cached_entries c) (Z.of_nat (length (cached c) + 1)));
    cbn [cached max_cached_entries cached_bytes length].
  - split_and!; [split; cbn|done|].
    + by apply (consecutive_drop 1) in Hc'.
    + rewrite to_u64_sub. f_equal. cbn. lia.
    + lia.
    + unfold lastn. cbn [length]. replace (S (length rest) - _)%nat with 1%nat by lia. done.
  - split_and!; [split; cbn [cached max_cached_entries cached_bytes length]; [done|done|lia]|done|].
    rewrite lastn_all; [done|]. cbn [length]. lia.
Qed.

(** The items [append_batch] makes. *)
Fixpoint items_of (base : Z) (batch : list Entry) (batch_data : list (list Z)) (position : Z)
  : list EntryWithSequenceMeta :=
  match batch, batch_data with
  | e :: batch, d :: batch_data =>
      let size := Z.of_nat (length d) in
      Cache.item_at base e size position :: items_of base batch batch_data (position + size)
  | _, _ => []
  end.

Lemma items_of_entries base batch batch_data position :
  length batch_data = length batch -> entry <$> items_of base batch batch_data position = batch.
Proof.
  revert batch_data position. induction batch as [|e batch IH]; intros [|d ds] p Hl; cbn in *; try done.
  rewrite IH by lia. done.
Qed.

Lemma append_loop_ok batch batch_data base position c :
  cache_ok c -> length batch_data = length batch ->
  consecutive (item_sn <$> cached c ++ items_of base batch batch_data position) ->
  exists c', Cache.append_loop sizeof_Entry batch batch_data base position c = Some c' /\
    cache_ok c' /\ max_cached_entries c' = max_cached_entries c /\
    cached c' = lastn (Z.to_nat (max_cached_entries c)) (cached c ++ items_of base batch batch_data position).
Proof.
  revert batch_data position c. induction batch as [|e batch IH]; intros [|d ds] p c Hok Hl Hc; try done.
  - exists c. split_and!; [done..|]. cbn. rewrite app_nil_r, lastn_all; [done|].
    pose proof (co_max c Hok). lia.
  - cbn [items_of Cache.append_loop] in *. set (item := Cache.item_at base e (Z.of_nat (length d)) p) in *.
    rewrite cons_middle, app_assoc in Hc |- *.
    destruct (push_ok item c Hok) as (Hok' & Hm' & Hcc).
    { rewrite fmap_app in Hc. by apply consecutive_app in Hc as [? _]. }
    edestruct (IH ds (p + Z.of_nat (length d))) as (c' & Hrun & Hok'' & Hm'' & Hcc'').
    + exact Hok'.
    + cbn in Hl. lia.
    + rewrite Hcc, fmap_app. unfold lastn. rewrite fmap_drop, <- drop_app_le, <- fmap_app.
      * by apply consecutive_drop.
      * rewrite length_fmap. lia.
    + exists c'. rewrite Hm' in *. split_and!; [done|done|congruence|].
      by rewrite Hcc'', Hcc, lastn_lastn_app.
Qed.

Lemma clear_ok c : 0 <= max_cached_entries c -> cache_ok (Cache.clear c).
Proof. intros H. by split. Qed.

Lemma append_batch_ok batch batch_data base position c :
  cache_ok c -> length batch_data = length batch ->
  consecutive (item_sn <$> cached c ++ items_of base batch batch_data position) ->
  exists c', Cache.append_batch sizeof_Entry batch batch_data base position c = Some c' /\
    cache_ok c' /\ max_cached_entries c' = max_cached_entries c /\
    cached c' = lastn (Z.to_nat (max_cached_entries c)) (cached c ++ items_of base batch batch_data position).
Proof.
  intros Hok Hl Hc. unfold Cache.append_batch.
  assert (Hil : length (items_of base batch batch_data position) = length batch)
    by (rewrite <- (items_of_entries base batch batch_data position Hl) at 2; by rewrite length_fmap).
  destruct (Z.eqb_spec (max_cached_entries c) 0) as [H0|H0].
  { exists c. split_and!; [done..|]. rewrite H0. pose proof (co_max c Hok) as Hm.
    destruct (cached c); cbn in Hm; [|lia]. unfold lastn. rewrite drop_ge by (cbn; lia). done. }
  destruct (Z.leb_spec (max_cached_entries c) (Z.of_nat (length batch))) as [Hle|_].
  - pose proof (co_max c Hok) as Hm.
    destruct (append_loop_ok batch batch_data base position (Cache.clearWithLockHeld c))
      as (c' & Hrun & Hok' & Hm' & Hcc).
    + apply clear_ok. lia.
    + done.
    + rewrite fmap_app in Hc. by apply consecutive_app in Hc as (_ & ? & _).
    + exists c'. split_and!; [done|done|done|]. rewrite Hcc. cbn. rewrite lastn_app_ge; [done|]. lia.
  - by apply append_loop_ok.
Qed.

(** ** Fetching *)

(** What a fetch takes of the items [sel] that are asked for: a prefix, all of them
    unless the size limit is reached, and no entry after it was reached. *)
Record taken_of (sel : list EntryWithSequenceMeta) (max_size : Z) (taken : list EntryWithSequenceMeta)
  : Prop := {
  to_prefix : taken `prefix_of` sel;
  to_full : taken = sel \/ max_size <= total taken;
  to_limit : forall p x, taken = p ++ [x] -> total p < max_size;
}.

Lemma fetch_loop_ok items n t0 max_size :
  (n <= length items)%nat ->
  exists taken, Cache.fetch_loop sizeof_Entry items (Z.of_nat n) t0 max_size = Some taken /\
    taken_of (take n items) (max_size - t0) taken.
Proof.
  revert n t0. induction items as [|i items IH]; intros n t0 Hn; cbn [Cache.fetch_loop].
  - cbn in Hn. assert (n = O) as -> by lia. exists []. split; [done|]. split; [done|by left|].
    by intros [] ?.
  - destruct n as [|n]; [exists []; split; [done|]; split; [done|by left|by intros [] ?]|].
    rewrite (proj2 (Z.eqb_neq _ _)) by lia. cbn [orb].
    destruct (Z.leb_spec max_size t0).
    { exists []. split; [done|]. split; [apply prefix_nil|right; cbn; lia|by intros [] ?]. }
    replace (Z.of_nat (S n) - 1) with (Z.of_nat n) by lia. cbn in Hn.
    destruct (IH n (t0 + size i)) as (taken & -> & [Hpre Hfull Hlim]); [lia|].
    exists (i :: taken). split; [done|]. cbn [take]. split.
    + by apply prefix_cons.
    + destruct Hfull as [->|?]; [by left|]. right. rewrite total_cons. lia.
    + intros [|j p] x Heq; [cbn; lia|]. injection Heq as <- Heq. specialize (Hlim p x Heq).
      rewrite total_cons. lia.
Qed.

Lemma taken_nonempty sel max_size taken :
  taken_of sel max_size taken -> sel <> [] -> 0 < max_size -> taken <> [].
Proof. intros [_ [->|Hm] _] Hne Hpos; [done|]. intros ->. cbn in Hm. lia. Qed.

(** The items of a range, by position. *)
Lemma range_items items first a b :
  consecutive (item_sn <$> items) -> item_sn <$> head items = Some first ->
  first <= a -> a <= b <= first + Z.of_nat (length items) ->
  filter (fun i => a <= item_sn i < b) items
  = take (Z.to_nat (b - a)) (drop (Z.to_nat (a - first)) items).
Proof.
  intros Hc Hh Ha Hb.
  assert (Hl : forall j x, items !! j = Some x -> item_sn x = first + Z.of_nat j).
  { intros j x Hx. destruct items as [|i0 items]; [done|]. cbn in Hh. simplify_eq.
    pose proof (consecutive_lookup _ 0 j (item_sn i0) (item_sn x) Hc eq_refl) as H.
    rewrite list_lookup_fmap, Hx in H. specialize (H eq_refl). lia. }
  set (i0 := Z.to_nat (a - first)). set (n := Z.to_nat (b - a)).
  rewrite <- (take_drop i0 items) at 1. rewrite <- (take_drop n (drop i0 items)) at 1.
  rewrite !filter_app, (filter_none _ (take i0 items)), filter_all, filter_none, app_nil_r; [done|..].
  - apply Forall_lookup. intros j x Hx. rewrite !lookup_drop in Hx. apply Hl in Hx. lia.
  - apply Forall_lookup. intros j x [Hx Hj]%lookup_take_Some. rewrite lookup_drop in Hx.
    apply Hl in Hx. lia.
  - apply Forall_lookup. intros j x [Hx Hj]%lookup_take_Some. apply Hl in Hx. lia.
Qed.

Lemma last_sn items first back :
  consecutive (item_sn <$> items) -> item_sn <$> head items = Some first -> last items = Some back ->
  item_sn back = first + Z.of_nat (length items) - 1.
Proof.
  intros Hc Hh Hl. destruct items as [|i0 items]; [done|]. cbn in Hh. simplify_eq.
  rewrite last_lookup in Hl.
  pose proof (consecutive_lookup _ 0 (pred (length (i0 :: items))) (item_sn i0) (item_sn back) Hc eq_refl) as H.
  rewrite list_lookup_fmap, Hl in H. specialize (H eq_refl). cbn [pred length] in H |- *. lia.
Qed.

Lemma prefix_lookup {A} (l1 l2 : list A) i : l1 `prefix_of` l2 -> (i < length l1)%nat -> l2 !! i = l1 !! i.
Proof. intros [k ->] Hi. by apply lookup_app_l. Qed.

Lemma fetch_from_ok c first a b max_size :
  cache_ok c -> item_sn <$> head (cached c) = Some first -> first <= a -> a < b ->
  b <= first + Z.of_nat (length (cached c)) -> 0 < max_size ->
  exists taken front back,
    taken_of (filter (fun i => a <= item_sn i < b) (cached c)) max_size taken /\
    head taken = Some front /\ item_sn front = a /\ last taken = Some back /\
    Cache.fetch_from sizeof_Entry c (a - first) (b - first) max_size
    = Ok (mkFetchResult 0 0 (cached_hint back) (current_log_sn_metadata front) (entry <$> taken), false).
Proof.
  intros [Hc _ _] Hh Ha Hab Hb Hm.
  set (n := Z.to_nat (b - a)). set (i0 := Z.to_nat (a - first)).
  destruct (fetch_loop_ok (drop i0 (cached c)) n 0 max_size) as (taken & Hrun & Htk).
  { rewrite length_drop. lia. }
  rewrite Z.sub_0_r in Htk.
  assert (Hsel := range_items (cached c) first a b Hc Hh Ha ltac:(lia)). fold n i0 in Hsel.
  assert (Hne : taken <> []).
  { eapply taken_nonempty; [done| |done]. intros H%(f_equal length).
    rewrite length_take, length_drop in H. cbn in H. lia. }
  destruct taken as [|front taken']; [done|]. set (taken := front :: taken') in *.
  destruct (last taken) as [back|] eqn:Hl; [|by apply last_None in Hl].
  assert (Hpre : taken `prefix_of` drop i0 (cached c)).
  { etransitivity; [apply (to_prefix _ _ _ Htk)|]. exists (drop n (drop i0 (cached c))). by rewrite take_drop. }
  assert (Hfront : cached c !! i0 = Some front).
  { rewrite <- (Nat.add_0_r i0), <- lookup_drop. rewrite (prefix_lookup taken); [done|done|cbn; lia]. }
  exists taken, front, back. split_and!; [by rewrite Hsel|done| |done|].
  - destruct (cached c) as [|x l] eqn:Hcc; [done|]. cbn in Hh. simplify_eq.
    pose proof (consecutive_lookup _ 0 i0 (item_sn x) (item_sn front) Hc eq_refl) as H.
    rewrite list_lookup_fmap, Hfront in H. specialize (H eq_refl). lia.
  - unfold Cache.fetch_from. replace (b - first - (a - first)) with (Z.of_nat n) by lia. fold i0.
    rewrite Hrun. rewrite last_lookup in Hl.
    assert (Hback : cached c !! Z.to_nat (a - first + Z.of_nat (length taken) - 1) = Some back).
    { rewrite <- Hl. replace (Z.to_nat _) with (i0 + pred (length taken))%nat by (cbn [length taken]; lia).
      rewrite <- lookup_drop. apply prefix_lookup; [done|]. cbn. lia. }
    rewrite Hback, (drop_S _ _ _ Hfront), (proj2 (Z.eqb_neq _ _)); [done|]. cbn [length taken]. lia.
Qed.

Lemma cache_fetch_ok c start end_ max_size :
  cache_ok c -> start < end_ -> 0 < max_size ->
  match item_sn <$> head (cached c), item_sn <$> last (cached c) with
  | Some first, Some last_ =>
      if decide (first <= start <= last_) then
        exists taken front back,
          taken_of (filter (fun i => start <= item_sn i < end_) (cached c)) max_size taken /\
          head taken = Some front /\ item_sn front = start /\ last taken = Some back /\
          Cache.fetch sizeof_Entry c start end_ max_size false
          = Ok (mkFetchResult 0 0 (cached_hint back) (current_log_sn_metadata front) (entry <$> taken), false)
      else Cache.fetch sizeof_Entry c start end_ max_size false = Ok (new_FetchResult, true)
  | _, _ => Cache.fetch sizeof_Entry c start end_ max_size false = Ok (new_FetchResult, true)
  end.
Proof.
  intros Hok Hse Hm. unfold Cache.fetch.
  destruct (head (cached c)) as [f|] eqn:Hf; [|done]. destruct (last (cached c)) as [l|] eqn:Hl; [|done].
  cbn [fmap option_fmap option_map]. fold (item_sn f) (item_sn l).
  assert (Hh : item_sn <$> head (cached c) = Some (item_sn f)) by (by rewrite Hf).
  pose proof (last_sn _ _ _ (co_consecutive c Hok) Hh Hl) as Hlast.
  destruct (decide _) as [[H1 H2]|Hout].
  - rewrite (proj2 (Z.ltb_ge _ _)), (proj2 (Z.ltb_ge _ _)) by lia.
    destruct (fetch_from_ok c (item_sn f) start (Z.min (item_sn l + 1) end_) max_size)
      as (taken & front & back & Htk & ? & ? & ? & ?); [done|done|lia|lia|lia|lia|].
    exists taken, front, back. split_and!; try done.
    erewrite filter_ext_in; [exact Htk|]. intros x Hx. cbn. apply list_elem_of_lookup in Hx as [j Hj].
    rewrite head_lookup in Hh, Hf.
    pose proof (consecutive_lookup _ 0 j (item_sn f) (item_sn x) (co_consecutive c Hok)) as Hd.
    rewrite !list_lookup_fmap, Hf, Hj in Hd. specialize (Hd eq_refl eq_refl).
    apply lookup_lt_Some in Hj. lia.
  - destruct (Z.ltb_spec (item_sn l) start); [done|]. by rewrite (proj2 (Z.ltb_lt _ _)) by lia.
Qed.

(** ** Trimming *)

Lemma subtract_total items b :
  foldl (fun b i => to_u64 (b - size i)) (to_u64 b) items = to_u64 (b - total items).
Proof.
  revert b. induction items as [|i items IH]; intros b; cbn [foldl]; [by rewrite Z.sub_0_r|].
  rewrite to_u64_sub, IH, total_cons. f_equal. lia.
Qed.

Lemma consecutive_partitioned items target :
  consecutive (item_sn <$> items) -> partitioned (fun i => negb (target <=? item_sn i)) items.
Proof.
  intros Hc i j x y Hij Hx Hy.
  pose proof (consecutive_lookup _ i j (item_sn x) (item_sn y) Hc) as H.
  rewrite !list_lookup_fmap, Hx, Hy in H. specialize (H eq_refl eq_refl).
  rewrite !negb_true_iff, !Z.leb_gt. lia.
Qed.

Lemma cache_trim_ok c target :
  cache_ok c ->
  let '(hint, c') := Cache.trim sizeof_Entry c target in
  let kept := filter (fun i => item_sn i < target) (cached c) in
  cache_ok c' /\ cached c' = kept /\ max_cached_entries c' = max_cached_entries c /\
  hint = if decide (kept = cached c) then None else cached_hint <$> last kept.
Proof.
  intros [Hc Hb Hm]. unfold Cache.trim.
  pose proof (filter_take_point _ (fun i => item_sn i < target) _ (consecutive_partitioned _ target Hc)) as Hk.
  rewrite Hk by (intros x; rewrite negb_true_iff, Z.leb_gt; done). clear Hk.
  set (n := partition_point _ (cached c)).
  assert (Hsplit : total (cached c) = total (take n (cached c)) + total (drop n (cached c)))
    by (rewrite <- total_app, take_drop; done).
  destruct (last (cached c)) as [back|] eqn:Hl.
  - destruct (Z.ltb_spec (sn (entry back)) target) as [Hlt|Hge].
    + assert (take n (cached c) = cached c) as Hall.
      { apply take_ge. subst n. rewrite partition_point_all; [done|]. apply Forall_lookup. intros j x Hx.
        rewrite last_lookup in Hl.
        pose proof (consecutive_lookup _ j _ (item_sn x) (item_sn back) Hc
          ltac:(rewrite list_lookup_fmap, Hx; done) ltac:(rewrite list_lookup_fmap, Hl; done)) as H.
        pose proof (lookup_lt_Some _ _ _ Hx). unfold item_sn in *. rewrite negb_true_iff, Z.leb_gt. lia. }
      rewrite !Hall, decide_True by done. by split_and!.
    + split_and!.
      * split; cbn [cached cached_bytes max_cached_entries].
        -- rewrite fmap_take. by apply consecutive_take.
        -- rewrite Hb. fold n. rewrite subtract_total. f_equal. lia.
        -- rewrite length_take. lia.
      * done.
      * done.
      * rewrite decide_False; [done|]. intros Hall. apply (f_equal last) in Hall. rewrite Hl in Hall.
        pose proof (partition_point_before (fun i => negb (target <=? item_sn i)) (cached c)) as Hbef.
        fold n in Hbef. rewrite Forall_forall in Hbef. rewrite last_lookup in Hall.
        apply list_elem_of_lookup_2 in Hall. apply Hbef in Hall. unfold item_sn in Hall.
        rewrite negb_true_iff, Z.leb_gt in Hall. lia.
  - apply last_None in Hl. assert (take n (cached c) = cached c) as -> by (by rewrite Hl, take_nil).
    rewrite decide_True by done. by split_and!.
Qed.

(** ** Properties *)

(** C36. After a batch whose sequence numbers continue those of the cache, the cache
    holds exactly the last entries of what it held followed by the batch, as many as
    its limit allows, each with its position in the segment; there are no gaps and
    the byte count is that of the entries. *)
Theorem cache_append_correct c batch batch_data base position :
  cache_ok c -> length batch_data = length batch ->
  let items := items_of base batch batch_data position in
  consecutive (item_sn <$> cached c ++ items) ->
  exists c', Cache.append_batch sizeof_Entry batch batch_data base position c = Some c' /\
    cache_ok c' /\ entry <$> items = batch /\
    cached c' = lastn (Z.to_nat (max_cached_entries c)) (cached c ++ items).
Proof.
  intros Hok Hl items Hc. destruct (append_batch_ok _ _ _ _ _ Hok Hl Hc) as (c' & ? & ? & _ & ?).
  exists c'. split_and!; [done|done|by apply items_of_entries|done].
Qed.


(** Trimming the cache at a sequence number keeps exactly the entries below it,
    in order and without gaps, with the byte count of what is left; the hint that
    follows the new last entry is returned when something was cut off and something
    is left. *)
Theorem cache_trim_correct c target :
  cache_ok c ->
  let '(hint, c') := Cache.trim sizeof_Entry c target in
  let kept := filter (fun i => item_sn i < target) (cached c) in
  cache_ok c' /\ cached c' = kept /\ max_cached_entries c' = max_cached_entries c /\
  hint = if decide (kept = cached c) then None else cached_hint <$> last kept.
Proof. apply cache_trim_ok. Qed.
End CacheSpec.

Definition example_batch : list Entry :=
  (fun n => mkEntry 0 0 0 0 0 0 n EntryType_Normal [1; 2]) <$> [10; 11; 12; 13].
Definition example_cache : LogEntryCache :=
  default (Cache.create 0)
    (Cache.append_batch 64 example_batch (replicate 4 [0; 0; 0]) 1 100 (Cache.create 5)).

Lemma example_cache_ok : cache_ok 64 example_cache.
Proof.
  split; [|vm_compute; reflexivity|vm_compute; congruence].
  change (item_sn <$> cached example_cache) with [10; 11; 12; 13].
  repeat (apply consecutive_cons; [cbn; intros; simplify_eq; lia|]). apply consecutive_nil.
Qed.

Lemma cache_append_correct_witness :
  let batch := (fun n => mkEntry 0 0 0 0 0 0 n EntryType_Normal [1; 2]) <$> [14; 15] in
  let items := items_of 1 batch [[0; 0]; [0]] 112 in
  exists c', Cache.append_batch 64 batch [[0; 0]; [0]] 1 112 example_cache = Some c' /\
    cache_ok 64 c' /\ entry <$> items = batch /\
    cached c' = lastn 5 (cached example_cache ++ items).
Proof.
  intros batch items. apply (cache_append_correct 64 example_cache batch [[0; 0]; [0]] 1 112).
  - apply example_cache_ok.
  - reflexivity.
  - change (consecutive [10; 11; 12; 13; 14; 15]).
    repeat (apply consecutive_cons; [cbn; intros; simplify_eq; lia|]). apply consecutive_nil.
Defined.


Lemma cache_trim_correct_witness :
  let '(hint, c') := Cache.trim 64 example_cache 12 in
  let kept := filter (fun i => item_sn i < 12) (cached example_cache) in
  cache_ok 64 c' /\ cached c' = kept /\ max_cached_entries c' = max_cached_entries example_cache /\
  hint = if decide (kept = cached example_cache) then None else cached_hint <$> last kept.
Proof. apply cache_trim_correct, example_cache_ok. Defined.

(** A request to a memory log that lies below its cache runs off the end of the
    deque. *)
Lemma memory_fetch_below_cache :
  Cache.fetch 64 example_cache 2 5 1000 true = Undef.
Proof. by vm_compute. Qed.
