(* ===== verification/IndexSpec.v ===== *)
(** * What an index promises

    The lookups of a loaded index as functions of its contents, in the form the
    loglet uses them: they leave the files alone, and what they answer is right
    unless the kernel refused a call. *)

From S2P Require Import Prelude Ordered Os AppendOnlyFile Frame KeyValues MonoMap MonoMapFrame MonoMapLoad.
From S2P Require Import MonoMapRep MonoMapUpdate MonoMapRecover MonoMapTrim.

Local Open Scope Z_scope.

Section IndexSpec.
Context {KV : Type} `{HKV : !MonoKeyValue KV} `{!MonoKeyValueLaws KV}.
Context (dir_exists is_directory : bool) (listing : gmap string (list Z) -> list string).
Implicit Types (es : list KV) (s : mono_state KV).

(** A loaded index with the entries [es], increasing in key and value. *)
Record index_of (name : string) (es : list KV) (s : mono_state KV) : Prop := {
  io_rep : exists rs cur, Rep name rs cur s /\ rep_size cur s /\ contents rs cur = es;
  io_values : sorted_by value es;
  io_max : (0 < max_size (ms_map s))%nat;
}.

(** The active segment has entries, or nothing was indexed yet.  A trim that empties
    the active segment breaks this until the next entry is indexed. *)
Definition searchable (m : PersistentMonoMap KV) : Prop :=
  cache m <> [] \/ seg_id_to_entry_offset_map m = [].

(** There is an id for the next rolled segment. *)
Definition ids_room (m : PersistentMonoMap KV) : Prop :=
  Forall (fun x => x.1 < 2 ^ 64 - 1) (seg_id_to_entry_offset_map m).

(** The rolled segments have ids below [K]; [ids_grow]: at most [n] ids more. *)
Definition ids_below (K : Z) (m : PersistentMonoMap KV) : Prop :=
  Forall (fun x => x.1 < K) (seg_id_to_entry_offset_map m).
Definition ids_grow (n : Z) (m m' : PersistentMonoMap KV) : Prop :=
  forall K, 1 <= K -> ids_below K m -> ids_below (K + n) m'.

Lemma ids_below_mono K K' m : ids_below K m -> K <= K' -> ids_below K' m.
Proof. intros Hm HK. eapply Forall_impl; [exact Hm|]. cbn. lia. Qed.

Lemma ids_grow_refl n m : 0 <= n -> ids_grow n m m.
Proof. intros Hn K _ Hm. eapply ids_below_mono; [exact Hm|lia]. Qed.

Lemma ids_grow_trans n1 n2 m1 m2 m3 : 0 <= n1 -> ids_grow n1 m1 m2 -> ids_grow n2 m2 m3 -> ids_grow (n1 + n2) m1 m3.
Proof. intros Hn H1 H2 K HK Hm. rewrite Z.add_assoc. apply H2; [lia|]. by apply H1. Qed.

Lemma ids_below_spec name rs cur s K : Rep name rs cur s -> ids_below K (ms_map s) <-> Forall (fun r => r.1 < K) rs.
Proof.
  intros HR. pose proof (seg_rep_ids _ _ (rep_segs _ _ _ _ HR)) as Hids. unfold ids_below.
  assert (Hall : forall A (l : list (Z * A)), Forall (fun x => x.1 < K) l <-> Forall (fun i => i < K) l.*1)
    by (intros; by rewrite Forall_fmap).
  by rewrite !Hall, Hids.
Qed.

(** The index has not rolled yet. *)
Definition unrolled (m : PersistentMonoMap KV) : Prop := seg_id_to_entry_offset_map m = [].

Lemma unrolled_spec name rs cur s : Rep name rs cur s -> unrolled (ms_map s) <-> rs = [].
Proof.
  intros HR. pose proof (rep_segs _ _ _ _ HR) as Hsegs. unfold unrolled.
  split; intros Hnil; rewrite Hnil in Hsegs; by inversion Hsegs.
Qed.

Lemma searchable_spec name rs cur s : Rep name rs cur s -> searchable (ms_map s) <-> cur <> [] \/ rs = [].
Proof.
  intros HR. unfold searchable. rewrite (rep_cache _ _ _ _ HR).
  pose proof (unrolled_spec _ _ _ _ HR) as Hrs. unfold unrolled in Hrs. rewrite Hrs. destruct cur; cbn; [tauto|]. split; by left.
Qed.

Lemma ids_room_spec name rs cur s : Rep name rs cur s -> ids_room (ms_map s) <-> ids_left rs.
Proof. apply ids_below_spec. Qed.

(** An index depends on its own files only. *)
Lemma index_of_frame name es w w' ix :
  index_of name es (MonoState w ix) -> (forall f, belongs name f -> w_files w' !! f = w_files w !! f) ->
  index_of name es (MonoState w' ix).
Proof.
  intros [(rs & cur & HR & Hsz & Hc) Hv Hmax] Hfs. split; [|done|done]. exists rs, cur. split_and!; try done.
  assert (Hname : belongs name name) by apply prefix_refl.
  destruct HR as [Hwf Hro Hti Hlo Hfi Hna Hca Hse]. cbn in *. split; cbn; try done.
  - eapply Forall_impl; [exact Hro|]. intros r Hr. cbn in Hr. rewrite Hfs; [done|]. by apply belongs_segment.
  - intros f Hf Hp. apply Hti; [|done]. by rewrite <- Hfs.
  - destruct Hfi as (? & ? & Hf). split_and!; [done|done|]. cbn in *. by rewrite Hna, Hfs, <- Hna.
Qed.

(** The files stay, and so does the index. *)
Definition index_stays (w0 : world) name es s s' : Prop :=
  index_of name es s' /\ evolves w0 (ms_world s') /\ w_files (ms_world s') = w_files (ms_world s) /\
  (searchable (ms_map s) -> searchable (ms_map s')) /\ (unrolled (ms_map s) -> unrolled (ms_map s')) /\
  ids_grow 0 (ms_map s) (ms_map s').

Lemma index_of_stays w0 name rs cur s s' :
  Rep name rs cur s -> rep_size cur s -> sorted_by value (contents rs cur) -> (0 < max_size (ms_map s))%nat ->
  stays w0 name rs cur s s' -> index_stays w0 name (contents rs cur) s s'.
Proof.
  intros HR Hsz Hv Hmax []. split_and!; [|done|done| | |].
  - split; [|done|congruence]. exists rs, cur. split_and!; try done. unfold rep_size in *. congruence.
  - by rewrite (searchable_spec _ _ _ _ HR), (searchable_spec _ _ _ _ stays_rep).
  - by rewrite (unrolled_spec _ _ _ _ HR), (unrolled_spec _ _ _ _ stays_rep).
  - intros K _. by rewrite Z.add_0_r, (ids_below_spec _ _ _ _ _ HR), (ids_below_spec _ _ _ _ _ stays_rep).
Qed.

Lemma index_valid name es s e : index_of name es s -> e ∈ es -> kv_valid e.
Proof.
  intros [(rs & cur & HR & _ & <-) _ _]. pose proof (wf_valid _ _ (rep_wf _ _ _ _ HR)) as Hv.
  rewrite Forall_forall in Hv. apply Hv.
Qed.

Lemma index_keys name es s : index_of name es s -> sorted_by key es.
Proof. intros [(rs & cur & HR & _ & <-) _ _]. apply HR. Qed.

Lemma wp_index_leftLowerBound w0 name es s k (Q : option KV -> mono_state KV -> Prop) E :
  index_of name es s -> evolves w0 (ms_world s) ->
  (forall s', index_stays w0 name es s s' -> Q (last (filter (fun e => key e <= k) es)) s') ->
  (forall x s', index_stays w0 name es s s' -> ~ benign w0 -> E x s') ->
  wp (Mono.leftLowerBound dir_exists is_directory listing k) Q E s.
Proof.
  intros [(rs & cur & HR & Hsz & <-) Hv Hmax] Hev HQ HE.
  assert (Hst : forall s', stays w0 name rs cur s s' -> index_stays w0 name (contents rs cur) s s')
    by (intros; by apply index_of_stays).
  apply wp_bind. eapply wp_ensure_loaded; [done|]. apply wp_bind.
  eapply (wp_find_le key); [done|done|apply HR| |]; [|auto].
  intros s' r Hs' Hr. apply wp_ret. rewrite (found_le_last _ _ _ _ _ Hr). auto.
Qed.

Lemma wp_index_lowerBoundByValue w0 name es s v (Q : option KV -> mono_state KV -> Prop) E :
  index_of name es s -> searchable (ms_map s) -> evolves w0 (ms_world s) ->
  (forall s', index_stays w0 name es s s' -> Q (head (filter (fun e => v <= value e) es)) s') ->
  (forall x s', index_stays w0 name es s s' -> ~ benign w0 -> E x s') ->
  wp (Mono.lowerBoundByValue dir_exists is_directory listing v) Q E s.
Proof.
  intros [(rs & cur & HR & Hsz & <-) Hv Hmax] Hse Hev HQ HE. rewrite (searchable_spec _ _ _ _ HR) in Hse.
  assert (Hst : forall s', stays w0 name rs cur s s' -> index_stays w0 name (contents rs cur) s s')
    by (intros; by apply index_of_stays).
  apply wp_bind. eapply wp_ensure_loaded; [done|]. apply wp_bind.
  eapply (wp_find_ge value); [done|done|done| | |]; [unfold can_search; tauto| |auto].
  intros s' r Hs' Hr. apply wp_ret. rewrite (found_ge_head _ _ _ _ _ _ Hr). auto.
Qed.

(** [maybeIndex] adds an entry behind the others, or leaves the index alone; what it
    writes stays in the files of the index. *)
Lemma wp_index_maybeIndex w0 name es s e sync (Q : bool -> mono_state KV -> Prop) E :
  index_of name es s -> evolves w0 (ms_world s) -> kv_valid e -> ids_room (ms_map s) ->
  (searchable (ms_map s) \/ Forall (fun a => key a < key e) es) ->
  Forall (fun a => key a < key e -> value a < value e) es ->
  let fr := kept name (w_files (ms_world s)) (max_size (ms_map s)) in
  (forall s', Forall (fun a => key a < key e) es -> index_of name (es ++ [e]) s' -> searchable (ms_map s') ->
     ids_grow 1 (ms_map s) (ms_map s') -> evolves w0 (ms_world s') -> fr s' -> Q true s') ->
  (Exists (fun a => key e <= key a) es -> Q false s) ->
  (forall x s', evolves w0 (ms_world s') -> ~ benign w0 -> fr s' -> E x s') ->
  wp (Mono.maybeIndex dir_exists is_directory listing e sync) Q E s.
Proof.
  intros [(rs & cur & HR & Hsz & <-) Hv Hmax] Hev He Hids Hse Hval fr HQ HQf HE.
  assert (Hfr : fr s).
  { split; [done| |done]. unfold belongs. rewrite (rep_name _ _ _ _ HR). apply prefix_refl. }
  pose (grown s' := exists rs' cur', Rep name rs' cur' s' /\ rep_size cur' s' /\ cur' <> [] /\
          contents rs' cur' = contents rs cur ++ [e] /\ ids_after rs rs').
  eapply (wp_mono _ (fun b s' =>
      ((b = true /\ Forall (fun a => key a < key e) (contents rs cur) /\ grown s' /\ evolves w0 (ms_world s')) \/
       (b = false /\ Exists (fun a => key e <= key a) (contents rs cur) /\ s' = s)) /\ fr s')).
  - eapply wp_keeps; [|by apply keeps_maybeIndex].
    eapply (wp_maybeIndex w0 name) with (E := fun _ s' => evolves w0 (ms_world s') /\ ~ benign w0);
      [done|done|done|done|by eapply ids_room_spec|done| |..].
    + unfold can_index. destruct Hse as [Hse|]; [|by right].
      rewrite (searchable_spec _ _ _ _ HR) in Hse. destruct Hse as [| ->]; [by left|]. destruct cur; [|by left].
      right. constructor.
    + intros s' Hlt Hg Hev'. left. auto.
    + intros Hex. right. auto.
    + auto.
  - intros b s' [[(-> & Hlt & (rs' & cur' & HR' & Hsz' & Hne & Hc & Haf) & Hev')|(-> & Hex & ->)] Hk]; [|by apply HQf].
    apply HQ; [done| | | |done|done].
    + split; [by exists rs', cur'| |by rewrite (kept_max _ _ _ _ Hk)]. apply StronglySorted_app_2; [|done|].
      * intros a b Ha Hb. apply list_elem_of_singleton in Hb as ->. rewrite Forall_forall in Hval, Hlt. auto.
      * repeat constructor.
    + rewrite (searchable_spec _ _ _ _ HR'). by left.
    + intros K HK. rewrite (ids_below_spec _ _ _ _ _ HR), (ids_below_spec _ _ _ _ _ HR'). by apply Haf.
  - intros x s' [[Hev' Hb] Hk]. by apply HE.
Qed.

(** ** An index that has not rolled *)

Lemma wp_index_trim w0 name es s (sel : KV -> Z) k (Q : unit -> mono_state KV -> Prop) E :
  sel = key \/ sel = value -> index_of name es s -> unrolled (ms_map s) -> evolves w0 (ms_world s) ->
  (forall s', index_of name (filter (fun e => sel e < k) es) s' -> unrolled (ms_map s') ->
     evolves w0 (ms_world s') -> kept name (w_files (ms_world s)) (max_size (ms_map s)) s' -> Q tt s') ->
  (forall x s', ~ benign w0 -> E x s') ->
  wp (Mono.trim_at dir_exists is_directory listing (Mono.find_ge sel k)) Q E s.
Proof.
  intros Hsel [(rs & cur & HR & Hsz & <-) Hv Hmax] Hun Hev HQ HE.
  apply (unrolled_spec _ _ _ _ HR) in Hun as ->.
  assert (Hfr : kept name (w_files (ms_world s)) (max_size (ms_map s)) s).
  { split; [done| |done]. unfold belongs. rewrite (rep_name _ _ _ _ HR). apply prefix_refl. }
  eapply (wp_mono _ (fun _ s' => trimmed_tail w0 name (filter (fun e => sel e < k) (contents [] cur)) [] s' /\
    kept name (w_files (ms_world s)) (max_size (ms_map s)) s')).
  - eapply wp_keeps; [|apply keeps_trim_at; [|done]; intros; by apply keeps_find_ge].
    eapply (wp_trim_at w0 name) with (E := fun _ _ => ~ benign w0); [done|done|done|constructor| | |done|auto].
    + destruct Hsel as [->| ->]; [apply HR|done].
    + right. by left.
  - intros [] s' [(rs' & cur' & HR' & Hc & Hev' & [rest Hp] & Hsz') Hk].
    destruct rs'; [|done]. apply HQ; [|by eapply unrolled_spec|done|done].
    split; [exists [], cur'; auto| |by rewrite (kept_max _ _ _ _ Hk)].
    by apply sorted_filter.
  - intros x s' [Hb _]. by apply HE.
Qed.

Lemma wp_index_last w0 name es s (Q : option KV -> mono_state KV -> Prop) E :
  index_of name es s -> evolves w0 (ms_world s) ->
  (forall s', index_stays w0 name es s s' -> Q (last es) s') ->
  (forall x s', ~ benign w0 -> E x s') ->
  wp (Mono.last_entry dir_exists is_directory listing) Q E s.
Proof.
  intros [(rs & cur & HR & Hsz & <-) Hv Hmax] Hev HQ HE.
  eapply wp_last_entry; [done|done| |auto]. intros s' Hst.
  apply HQ. by apply index_of_stays.
Qed.

(** Nothing to trim at the head: the active segment always stays. *)
Lemma wp_index_trim_head w0 name es s (sel : KV -> Z) succ k (Q : unit -> mono_state KV -> Prop) E :
  index_of name es s -> unrolled (ms_map s) -> evolves w0 (ms_world s) -> is_Some (succ k) -> Q tt s ->
  wp (Mono.trim_head dir_exists is_directory listing sel succ k) Q E s.
Proof.
  intros [(rs & cur & HR & Hsz & <-) Hv Hmax] Hun Hev [k' Hk] HQ. unfold Mono.trim_head, Mono.trim_head_rolled.
  unfold unrolled in Hun. apply wp_bind. eapply wp_ensure_loaded; [done|]. apply wp_bind, wp_gets, wp_bind.
  rewrite (rep_cache _ _ _ _ HR). destruct (head (at_offsets 0 cur)) as [a|].
  - rewrite Hk. apply wp_bind, wp_ret, wp_ret. destruct (_ <=? _); apply wp_bind, wp_gets; rewrite Hun; [by apply wp_ret|].
    apply wp_bind, wp_ret. by apply wp_ret.
  - apply wp_ret, wp_bind, wp_gets. rewrite Hun. apply wp_bind, wp_ret. by apply wp_ret.
Qed.
End IndexSpec.
