(* ===== verification/IndexOpen.v ===== *)
(** * Opening an index

    An index is loaded by the first operation on it.  What an operation does to an
    index that is loaded or still closed, when the kernel answers its calls. *)

From Stdlib Require Import String.
From S2P Require Import Prelude Ordered Os AppendOnlyFile Frame KeyValues MonoMap MonoMapFrame MonoMapLoad.
From S2P Require Import MonoMapRep MonoMapUpdate MonoMapRecover MonoMapTrim IndexSpec.

Local Open Scope Z_scope.

(** A run that does not fail, with what it keeps. *)
Lemma wp_framed {S A} (I : S -> Prop) (m : M S A) (Q' Q : A -> S -> Prop) P E s :
  wp m Q' (fun _ _ => False) s -> keeps I m P s -> (forall a s', Q' a s' -> I s' -> Q a s') -> wp m Q E s.
Proof.
  intros Hm Hk HQ. eapply wp_mono; [by eapply wp_keeps| |by intros x s' [[] _]].
  intros a s' [Ha Hi]. by apply HQ.
Qed.

Section IndexOpen.
Context {KV : Type} `{HKV : !MonoKeyValue KV} `{!MonoKeyValueLaws KV}.
Context (name : string) (listing : gmap string (list Z) -> list string) (Hdir : lists_directory name listing).
Context (w0 : world) (Hben : benign w0) (K : Z) (HK : 2 <= K).
Implicit Types (es : list KV) (s : mono_state KV) (fs : gmap string (list Z)).

(** The files of the index hold the entries [es]; the active log may end with a part
    of an entry.  The ids of the rolled parts are below [K]. *)
Record stored es fs : Prop := {
  so_disk : exists rs cur torn, on_disk name rs cur torn fs /\ contents rs cur = es /\ (cur <> [] \/ rs = []) /\
    Forall (fun r => r.1 < K) rs;
  so_values : sorted_by value es;
}.

(** The index was constructed and not used yet. *)
Record closed es s : Prop := {
  cl_stored : stored es (w_files (ms_world s));
  cl_there : is_Some (w_files (ms_world s) !! name);
  cl_fresh : fresh name (w_files (ms_world s)) s;
  cl_max : (0 < max_size (ms_map s))%nat;
}.

Definition opened es s : Prop := index_of name es s /\ searchable (ms_map s) /\ ids_below K (ms_map s).
Definition available es s : Prop := closed es s \/ opened es s.

(** What an operation may change. *)
Definition within s s' : Prop :=
  evolves w0 (ms_world s') /\ kept name (w_files (ms_world s)) (max_size (ms_map s)) s'.

Lemma available_kept es s : available es s -> kept name (w_files (ms_world s)) (max_size (ms_map s)) s.
Proof.
  intros [[_ _ Hfr _]|[[(rs & cur & HR & _) _ _] _]]; split; try done; unfold belongs.
  - rewrite (fr_log _ _ _ Hfr). apply prefix_refl.
  - rewrite (rep_name _ _ _ _ HR). apply prefix_refl.
Qed.

Lemma available_stored es s : available es s -> stored es (w_files (ms_world s)).
Proof.
  intros [[]|[[(rs & cur & HR & _ & Hc) Hv _] [Hse Hid]]]; [done|]. split; [|done]. exists rs, cur, [].
  rewrite (searchable_spec _ _ _ _ HR) in Hse. rewrite (ids_below_spec _ _ _ _ _ HR) in Hid.
  split_and!; [by apply rep_on_disk|done|done|done].
Qed.

Lemma stored_frame es fs fs' :
  stored es fs -> (forall f, belongs name f -> fs' !! f = fs !! f) -> stored es fs'.
Proof.
  intros [(rs & cur & torn & [Hwf Hr Ht Hl Hf] & Hc & Hn) Hv] Hfs. split; [|done].
  exists rs, cur, torn. split; [|done]. split; try done.
  - eapply Forall_impl; [exact Hr|]. cbn. intros r Hr'. rewrite Hfs; [done|]. apply belongs_segment, prefix_refl.
  - intros f Hf' Hp. rewrite Hfs in Hf' by done. by apply Ht.
  - by rewrite !Hfs by apply prefix_refl.
Qed.

(** The index depends on its own files only. *)
Lemma available_frame es w w' ix :
  available es (MonoState w ix) -> (forall f, belongs name f -> w_files w' !! f = w_files w !! f) ->
  available es (MonoState w' ix).
Proof.
  intros [[Hst Hth [_ ? ? ? ?] Hm]|[Hio Hse]] Hfs.
  - left. split; cbn in *; [by eapply stored_frame| |by split|done]. by rewrite Hfs by apply prefix_refl.
  - right. split; [by eapply index_of_frame|done].
Qed.

Lemma opened_frame es w w' ix :
  opened es (MonoState w ix) -> (forall f, belongs name f -> w_files w' !! f = w_files w !! f) ->
  opened es (MonoState w' ix).
Proof. intros [Hio Hse] Hfs. split; [by eapply index_of_frame|done]. Qed.

Lemma wp_open_recover es s (Q : unit -> mono_state KV -> Prop) E :
  closed es s -> evolves w0 (ms_world s) -> (forall s', opened es s' -> within s s' -> Q tt s') ->
  wp (Mono.recover true true listing) Q E s.
Proof.
  intros Hcl Hev HQ. pose proof (available_kept es s (or_introl Hcl)) as Hk.
  destruct Hcl as [[(rs & cur & torn & Hod & Hc & Hn & Hid) Hv] Hth Hfr Hm].
  assert (Hf : w_files (ms_world s) !! name = Some (encode cur ++ torn)).
  { destruct (od_file _ _ _ _ _ Hod) as [?|[Hnone _]]; [done|]. rewrite Hnone in Hth. by destruct Hth. }
  eapply (wp_framed _ _ (fun _ s' => opened es s' /\ evolves w0 (ms_world s'))); [|by apply keeps_recover|].
  - eapply (wp_recover w0 name rs cur torn); try done. intros s' HR Hsz Hev' Hmax. split; [|done]. split.
    + split; [by exists rs, cur|by subst|congruence].
    + by rewrite (searchable_spec _ _ _ _ HR), (ids_below_spec _ _ _ _ _ HR).
  - intros [] s' [Ho He] Hk'. by apply HQ.
Qed.

(** An operation on an available index is that operation on the opened one. *)
Lemma wp_opening {A} es (k : unit -> M (mono_state KV) A) s (Q : A -> mono_state KV -> Prop) E :
  available es s -> evolves w0 (ms_world s) ->
  (forall s', opened es s' -> within s s' -> wp (bind (Mono.ensure_loaded true true listing) k) Q E s') ->
  wp (bind (Mono.ensure_loaded true true listing) k) Q E s.
Proof.
  intros Hav Hev Hk. pose proof (available_kept _ _ Hav) as Hkept. destruct Hav as [Hcl|Ho]; [|by apply Hk].
  apply wp_bind. unfold Mono.ensure_loaded. apply wp_bind, wp_gets. rewrite (fr_loaded _ _ _ (cl_fresh _ _ Hcl)).
  eapply wp_open_recover; [done|done|]. intros s' Ho Hw. specialize (Hk s' Ho Hw).
  destruct Ho as [[(rs & cur & HR & _) _ _] _]. pose proof (rep_loaded _ _ _ _ HR) as Hl.
  unfold wp in Hk |- *. unfold bind, Mono.ensure_loaded, bind, Mono.get, gets in Hk. rewrite Hl in Hk. done.
Qed.

Lemma within_trans s s1 s2 : within s s1 -> within s1 s2 -> within s s2.
Proof.
  intros [_ [Ho _ Hm]] [Hev [Ho' Hn' Hm']]. split; [done|]. split; [|done|congruence].
  intros f Hf. rewrite Ho' by done. by apply Ho.
Qed.

Lemma opened_rep es s :
  opened es s -> exists rs cur, Rep name rs cur s /\ rep_size cur s /\ contents rs cur = es /\
    (cur <> [] \/ rs = []) /\ sorted_by value es /\ (0 < max_size (ms_map s))%nat /\ Forall (fun r => r.1 < K) rs.
Proof.
  intros [[(rs & cur & HR & Hsz & Hc) Hv Hm] [Hse Hid]]. exists rs, cur.
  rewrite (searchable_spec _ _ _ _ HR) in Hse. by rewrite (ids_below_spec _ _ _ _ _ HR) in Hid.
Qed.

Lemma opened_stays es s s' : opened es s -> index_stays w0 name es s s' -> opened es s' /\ evolves w0 (ms_world s').
Proof.
  intros (_ & Hse & Hid) (Hio & Hev & _ & Hse' & _ & Hid'). split; [|done]. split_and!; [done|by apply Hse'|].
  rewrite <- (Z.add_0_r K). apply Hid'; [lia|done].
Qed.

Lemma wp_open_last es s (Q : option KV -> mono_state KV -> Prop) E :
  available es s -> evolves w0 (ms_world s) -> (forall s', opened es s' -> within s s' -> Q (last es) s') ->
  wp (Mono.last_entry true true listing) Q E s.
Proof.
  intros Hav Hev HQ. apply (wp_opening es); [done|done|]. intros s1 Ho Hw1.
  change (wp (Mono.last_entry true true listing) Q E s1). pose proof (available_kept es s1 (or_intror Ho)) as Hk.
  eapply wp_framed; [|by apply keeps_ends|].
  - eapply (wp_index_last _ _ _ w0 name es _
      (fun r s' => r = last es /\ opened es s' /\ evolves w0 (ms_world s'))); [apply Ho|apply Hw1| |done].
    intros s' Hst. destruct (opened_stays _ _ _ Ho Hst). done.
  - cbn. intros r s' (-> & Ho' & Hev') Hk'. apply HQ; [done|]. by eapply within_trans.
Qed.

(** Trimming at the head drops entries from the front. *)
Lemma wp_open_trim_head es s (sel : KV -> Z) succ k (Q : unit -> mono_state KV -> Prop) E :
  sel = key \/ sel = value -> succ k = Some (k + 1) -> available es s -> evolves w0 (ms_world s) ->
  (forall es' s', es' `suffix_of` es -> opened es' s' -> within s s' -> Q tt s') ->
  wp (Mono.trim_head true true listing sel succ k) Q E s.
Proof.
  intros Hsel Hsucc Hav Hev HQ. apply (wp_opening es); [done|done|]. intros s1 Ho Hw1.
  change (wp (Mono.trim_head true true listing sel succ k) Q E s1). pose proof (available_kept es s1 (or_intror Ho)) as Hk.
  destruct (opened_rep _ _ Ho) as (rs & cur & HR & Hsz & <- & Hn & Hv & Hm & Hid).
  eapply wp_framed; [|by apply keeps_trim_head|].
  - eapply (wp_trim_head w0 name sel k succ (k + 1)) with (Q := fun _ s' => trimmed_head w0 name sel k rs cur s1 s');
      [done|lia|done|apply Hw1| |done|done].
    destruct Hsel as [->| ->]; [apply HR|done].
  - cbn. intros [] s' (pre & post & -> & _ & HR' & Hev' & Hls & Hms) Hk'.
    rewrite contents_app in Hv, HQ. apply (HQ (contents post cur)); [by eexists| |by eapply within_trans].
    apply sorted_by_app in Hv as [_ Hv]. split.
    + split; [|done|congruence]. exists post, cur. split_and!; try done. unfold rep_size in *. congruence.
    + rewrite (searchable_spec _ _ _ _ HR'), (ids_below_spec _ _ _ _ _ HR'). apply Forall_app in Hid as [_ Hid].
      split; [|done]. destruct Hn as [|Hnil]; [by left|]. right. by apply app_eq_nil in Hnil as [_ ?].
Qed.

(** Nothing to trim behind the last entry. *)
Lemma wp_open_trim es s (sel : KV -> Z) k (Q : unit -> mono_state KV -> Prop) E :
  sel = key \/ sel = value -> Forall (fun e => sel e < k) es -> available es s -> evolves w0 (ms_world s) ->
  (forall s', opened es s' -> within s s' -> Q tt s') ->
  wp (Mono.trim_at true true listing (Mono.find_ge sel k)) Q E s.
Proof.
  intros Hsel Hlt Hav Hev HQ. apply (wp_opening es); [done|done|]. intros s1 Ho Hw1.
  change (wp (Mono.trim_at true true listing (Mono.find_ge sel k)) Q E s1).
  pose proof (available_kept es s1 (or_intror Ho)) as Hk.
  destruct (opened_rep _ _ Ho) as (rs & cur & HR & Hsz & <- & Hn & Hv & Hm & Hid).
  eapply wp_framed; [|apply keeps_trim_at; [|exact Hk]; intros; by apply keeps_find_ge|].
  - apply wp_bind. eapply wp_ensure_loaded; [done|]. apply wp_bind.
    eapply (wp_find_ge sel w0); [done|apply Hw1| | | |done].
    + destruct Hsel as [->| ->]; [apply HR|done].
    + unfold can_search. tauto.
    + intros s' r Hst Hr. pose proof (found_ge_head _ _ _ _ _ _ Hr) as Hh.
      rewrite filter_none in Hh by (eapply Forall_impl; [exact Hlt|]; cbn; lia). destruct r; [done|].
      apply wp_ret. instantiate (1 := fun _ s' => opened (contents rs cur) s' /\ evolves w0 (ms_world s')).
      by apply (opened_stays _ _ _ Ho), (index_of_stays w0 name rs cur).
  - cbn. intros [] s' [Ho' Hev'] Hk'. apply HQ; [done|]. by eapply within_trans.
Qed.
(** Nothing is below the key: the entry is the first one, or it is refused. *)
Lemma wp_open_first es e sync s (Q : bool -> mono_state KV -> Prop) E :
  available es s -> evolves w0 (ms_world s) -> kv_valid e -> Forall (fun a => key e <= key a) es ->
  (forall b es' s', (es = [] /\ es' = [e] \/ es <> [] /\ es' = es) -> opened es' s' -> within s s' -> Q b s') ->
  wp (Mono.maybeIndex true true listing e sync) Q E s.
Proof.
  intros Hav Hev He Hge HQ. apply (wp_opening es); [done|done|]. intros s1 Ho Hw1.
  change (wp (Mono.maybeIndex true true listing e sync) Q E s1). pose proof (available_kept es s1 (or_intror Ho)) as Hk.
  destruct (opened_rep _ _ Ho) as (rs & cur & HR & Hsz & Hc & Hn & Hv & Hm & Hid). destruct es as [|a es].
  - assert (rs = [] /\ cur = []) as [-> ->].
    { unfold contents in Hc. apply app_eq_nil in Hc as [_ ->]. by destruct Hn as [| ->]. }
    eapply (wp_index_maybeIndex _ _ _ w0 name []); [apply Ho|apply Hw1|done| | |constructor| | |by intros x s' _ ?].
    + rewrite (ids_room_spec _ _ _ _ HR). constructor.
    + right. constructor.
    + intros s' _ Hio Hse Hg Hev' Hk'. eapply HQ; [by left| |by eapply within_trans]. split_and!; [done|done|].
      eapply ids_below_mono; [apply (Hg 1); [lia|]|lia]. rewrite (ids_below_spec _ _ _ _ _ HR). constructor.
    + intros Hex. by apply Exists_nil in Hex.
  - unfold Mono.maybeIndex. apply wp_bind. eapply wp_ensure_loaded; [done|]. apply wp_bind, wp_gets.
    rewrite (rep_cache _ _ _ _ HR). pose proof (last_at_offsets 0 cur) as Hlast.
    assert (Hend : wp (ret false) Q E s1) by (apply wp_ret; apply (HQ false (a :: es)); [by right|done|done]).
    destruct (last (at_offsets 0 cur)) as [b|]; cbn in Hlast |- *; symmetry in Hlast.
    + destruct (kv_ltb e (entry b)); [done|]. assert (Hin : entry b ∈ a :: es).
      { rewrite <- Hc. apply elem_of_app. right. apply last_Some in Hlast as [l ->]. apply elem_of_app. right. by left. }
      rewrite Forall_forall in Hge. specialize (Hge _ Hin). by rewrite (proj2 (Z.ltb_ge _ _)).
    + apply last_None in Hlast as ->. destruct Hn as [| ->]; [done|]. by cbn in Hc.
Qed.

(** Constructing an index creates its log when it is missing. *)
Lemma wp_index_create es max w
    (Q : PersistentMonoMap KV -> world -> Prop) E :
  stored es (w_files w) -> evolves w0 w -> (0 < max)%nat ->
  (forall m w', evolves w0 w' -> w_files w' = <[name := default [] (w_files w !! name)]> (w_files w) ->
     closed es (MonoState w' m) -> Q m w') ->
  wp (Mono.create name max) Q E w.
Proof.
  intros Hst Hev Hmax HQ. apply wp_bind. apply (wp_open_or_create w0); [done|by intros ?????|].
  intros w' Hev' Hfs. apply wp_ret, HQ; [done|done|]. split; cbn; [| |by split|done].
  - destruct Hst as [(rs & cur & torn & [Hwf Hr Ht Htn Hf] & Hc) Hv]. split; [|done]. exists rs, cur, torn.
    split; [|done]. rewrite Hfs. split; [done|by apply rolled_files_name|by apply tidy_name|done|].
    rewrite lookup_insert_eq. destruct Hf as [->|(-> & -> & ->)]; by left.
  - rewrite Hfs, lookup_insert_eq. done.
Qed.
End IndexOpen.
