(* ===== verification/Indexes.v ===== *)
(** * The indexes of a log (src/Cluster/LocalLog/Indexes/EpochSequenceIndex.h,
    SequencePositionIndex.h, TimestampSequenceIndex.h)

    Three instances of [PersistentMonoMap], each in a file of its own in the
    directory of the log. *)

From Stdlib Require Import String.
From S2P Require Import Prelude Os AppendOnlyFile Codec KeyValues MonoMap.

Local Open Scope prog_scope.

(** The directory of a log, as the file system shows it: whether it is there and a
    directory, and the files listed in it. *)
Record directory : Type := mkDirectory {
  dir_there : bool;
  dir_is_directory : bool;
  dir_listing : gmap string (list Z) -> list string;
}.

(** [EpochSequenceIndex]: first sequence of every epoch. *)
Module EpochIndex.
Section Index.
Context (d : directory).
Abbreviation on f := (f (dir_there d) (dir_is_directory d) (dir_listing d)).
Implicit Types (e : EpochSequence) (sn : Z).

Definition create (ckpt_dir : string) (file_max_size : nat) : M world (PersistentMonoMap EpochSequence) :=
  Mono.create (ckpt_dir +:+ "/epoch-sn.idx") file_max_size.
Definition maybeIndexEpochStartSequence e : M (mono_state EpochSequence) bool := on Mono.maybeIndex e true.
Definition leaderEpochSequenceFor sn : M (mono_state EpochSequence) (option EpochSequence) :=
  on Mono.leftLowerBoundByValue sn.
Definition latestLeaderEpochSequence : M (mono_state EpochSequence) (option EpochSequence) :=
  on Mono.last_entry.
Definition previousLeaderEpochSequence : M (mono_state EpochSequence) (option EpochSequence) :=
  on Mono.prevLast.
Definition latestLeaderEpoch : M (mono_state EpochSequence) (option Z) := on Mono.lastKey.
Definition previousLeaderEpoch : M (mono_state EpochSequence) (option Z) := on Mono.prevLastKey.
Definition earliestLeaderEpochSequence : M (mono_state EpochSequence) (option EpochSequence) :=
  on Mono.first.
Definition trim sn : M (mono_state EpochSequence) unit := on Mono.trimByValue sn.
Definition trimHead sn : M (mono_state EpochSequence) unit := on Mono.trimHeadByValue sn.
Definition remove : M (mono_state EpochSequence) unit := on Mono.remove.
Definition close : M (mono_state EpochSequence) unit := Mono.close.
End Index.
End EpochIndex.

(** [SequencePositionIndex]: sequence numbers to positions in segment files. *)
Module PosIndex.
Section Index.
Context (d : directory).
Abbreviation on f := (f (dir_there d) (dir_is_directory d) (dir_listing d)).
Implicit Types (e : SequencePosition) (sn position : Z).

Definition create (ckpt_dir : string) (file_max_size : nat) : M world (PersistentMonoMap SequencePosition) :=
  Mono.create (ckpt_dir +:+ "/sn-pos.idx") file_max_size.
Definition maybeIndex e : M (mono_state SequencePosition) bool := on Mono.maybeIndex e true.
Definition lastIndexedSequencePosition : M (mono_state SequencePosition) (option SequencePosition) :=
  on Mono.last_entry.
Definition firstIndexedSequencePosition : M (mono_state SequencePosition) (option SequencePosition) :=
  on Mono.first.
Definition leftLowerBoundPositionForSequence sn : M (mono_state SequencePosition) (option SequencePosition) :=
  on Mono.leftLowerBound sn.
Definition leftLowerBoundSequenceForPosition position
  : M (mono_state SequencePosition) (option SequencePosition) :=
  on Mono.leftLowerBoundByValue position.
Definition lowerBoundSequenceForPosition position
  : M (mono_state SequencePosition) (option SequencePosition) :=
  on Mono.lowerBoundByValue position.
Definition trim sn : M (mono_state SequencePosition) unit := on Mono.trim sn.
Definition trimHead sn : M (mono_state SequencePosition) unit := on Mono.trimHead sn.
Definition remove : M (mono_state SequencePosition) unit := on Mono.remove.
Definition close : M (mono_state SequencePosition) unit := Mono.close.
End Index.
End PosIndex.

(** [TimestampSequenceIndex]: event timestamps to sequence numbers. *)
Module TsIndex.
Section Index.
Context (d : directory).
Abbreviation on f := (f (dir_there d) (dir_is_directory d) (dir_listing d)).
Implicit Types (e : TimestampSequence) (sn ts : Z).

Definition create (ckpt_dir : string) (file_max_size : nat) : M world (PersistentMonoMap TimestampSequence) :=
  Mono.create (ckpt_dir +:+ "/ts-sn.idx") file_max_size.
Definition maybeIndex e : M (mono_state TimestampSequence) bool := on Mono.maybeIndex e true.
Definition lastIndexedTimestampSequence : M (mono_state TimestampSequence) (option TimestampSequence) :=
  on Mono.last_entry.
Definition leftLowerBoundSequenceForTimestamp ts
  : M (mono_state TimestampSequence) (option TimestampSequence) :=
  on Mono.leftLowerBound ts.
Definition trim sn : M (mono_state TimestampSequence) unit := on Mono.trimByValue sn.
Definition trimHead sn : M (mono_state TimestampSequence) unit := on Mono.trimHeadByValue sn.
Definition remove : M (mono_state TimestampSequence) unit := on Mono.remove.
Definition close : M (mono_state TimestampSequence) unit := Mono.close.
End Index.
End TsIndex.
