(* ===== verification/Loglet.v ===== *)
(** * Loglet (src/Cluster/LocalLog/Log/Loglet.cpp)

    The segments of one log with their indexes: appending, fetching, trimming,
    rolling, and deleting segments.  The clock is not modelled, and the background
    deletion of segment files is a list of segments handed to it. *)

From Stdlib Require Import Ascii String.
From S2P Require Import Prelude Ordered Os AppendOnlyFile Codec KeyValues MonoMap Entry FileLogEntries.
From S2P Require Import SegmentNames LogConfig LogSegment LogSegments LogTypes Indexes.

Local Open Scope prog_scope.

Definition SEQUENCE_OUT_OF_RANGE : Z := 2500.
Definition RECORD_NOT_FOUND : Z := 2620.
Definition INVALID_STATE : Z := 2509.
Definition CANNOT_DELETE_DIRECTORY : Z := 505.
(** [std::bad_optional_access] *)
Definition STD_EXCEPTION : Z := 1001.

Record Loglet : Type := mkLoglet {
  log_dir : string;
  parent_dir : string;
  log_config : LogConfig;
  segments : LogSegments;
  next_sn_meta : LogSequenceMetadata;
  last_flushed_sn : Z;
  unflushed_bytes : Z;
  max_etimestamp_and_sn_so_far : TimestampSequence;
  bytes_since_last_index_entry : Z;
  event_ts_sn_index : PersistentMonoMap TimestampSequence;
  sn_pos_index : PersistentMonoMap SequencePosition;
  to_delete : list LogSegment;         (** handed to the background deleter *)
}.

(** A loglet and the disk below it. *)
Record loglet_state : Type := LogletState {
  ls_world : world;
  ls_loglet : Loglet;
}.

Definition set_segments (x : LogSegments) (l : Loglet) : Loglet :=
  mkLoglet (log_dir l) (parent_dir l) (log_config l) x (next_sn_meta l) (last_flushed_sn l)
    (unflushed_bytes l) (max_etimestamp_and_sn_so_far l) (bytes_since_last_index_entry l)
    (event_ts_sn_index l) (sn_pos_index l) (to_delete l).
Definition set_next_sn_meta (x : LogSequenceMetadata) (l : Loglet) : Loglet :=
  mkLoglet (log_dir l) (parent_dir l) (log_config l) (segments l) x (last_flushed_sn l)
    (unflushed_bytes l) (max_etimestamp_and_sn_so_far l) (bytes_since_last_index_entry l)
    (event_ts_sn_index l) (sn_pos_index l) (to_delete l).
Definition set_flushed (sn bytes : Z) (l : Loglet) : Loglet :=
  mkLoglet (log_dir l) (parent_dir l) (log_config l) (segments l) (next_sn_meta l) sn
    bytes (max_etimestamp_and_sn_so_far l) (bytes_since_last_index_entry l)
    (event_ts_sn_index l) (sn_pos_index l) (to_delete l).
Definition set_max_etimestamp (x : TimestampSequence) (l : Loglet) : Loglet :=
  mkLoglet (log_dir l) (parent_dir l) (log_config l) (segments l) (next_sn_meta l) (last_flushed_sn l)
    (unflushed_bytes l) x (bytes_since_last_index_entry l)
    (event_ts_sn_index l) (sn_pos_index l) (to_delete l).
Definition set_bytes_since_last_index_entry (x : Z) (l : Loglet) : Loglet :=
  mkLoglet (log_dir l) (parent_dir l) (log_config l) (segments l) (next_sn_meta l) (last_flushed_sn l)
    (unflushed_bytes l) (max_etimestamp_and_sn_so_far l) x
    (event_ts_sn_index l) (sn_pos_index l) (to_delete l).
Definition set_event_ts_sn_index (x : PersistentMonoMap TimestampSequence) (l : Loglet) : Loglet :=
  mkLoglet (log_dir l) (parent_dir l) (log_config l) (segments l) (next_sn_meta l) (last_flushed_sn l)
    (unflushed_bytes l) (max_etimestamp_and_sn_so_far l) (bytes_since_last_index_entry l)
    x (sn_pos_index l) (to_delete l).
Definition set_sn_pos_index (x : PersistentMonoMap SequencePosition) (l : Loglet) : Loglet :=
  mkLoglet (log_dir l) (parent_dir l) (log_config l) (segments l) (next_sn_meta l) (last_flushed_sn l)
    (unflushed_bytes l) (max_etimestamp_and_sn_so_far l) (bytes_since_last_index_entry l)
    (event_ts_sn_index l) x (to_delete l).
Definition set_to_delete (x : list LogSegment) (l : Loglet) : Loglet :=
  mkLoglet (log_dir l) (parent_dir l) (log_config l) (segments l) (next_sn_meta l) (last_flushed_sn l)
    (unflushed_bytes l) (max_etimestamp_and_sn_so_far l) (bytes_since_last_index_entry l)
    (event_ts_sn_index l) (sn_pos_index l) x.
Definition set_log_config (x : LogConfig) (l : Loglet) : Loglet :=
  mkLoglet (log_dir l) (parent_dir l) x (segments l) (next_sn_meta l) (last_flushed_sn l)
    (unflushed_bytes l) (max_etimestamp_and_sn_so_far l) (bytes_since_last_index_entry l)
    (event_ts_sn_index l) (sn_pos_index l) (to_delete l).
Definition set_log_dir (dir parent : string) (l : Loglet) : Loglet :=
  mkLoglet dir parent (log_config l) (segments l) (next_sn_meta l) (last_flushed_sn l)
    (unflushed_bytes l) (max_etimestamp_and_sn_so_far l) (bytes_since_last_index_entry l)
    (event_ts_sn_index l) (sn_pos_index l) (to_delete l).

Module Lglt.
Section Loglet.
(** The directory of the log, for the indexes when they load. *)
Context (d : directory).

Definition disk {A} (k : M world A) : M loglet_state A :=
  zoom ls_world (fun w s => LogletState w (ls_loglet s)) k.
Definition get {A} (f : Loglet -> A) : M loglet_state A := gets (fun s => f (ls_loglet s)).
Definition put (f : Loglet -> Loglet) : M loglet_state unit :=
  modify (fun s => LogletState (ls_world s) (f (ls_loglet s))).
Definition on_ts {A} (k : M (mono_state TimestampSequence) A) : M loglet_state A :=
  zoom (fun s => MonoState (ls_world s) (event_ts_sn_index (ls_loglet s)))
       (fun t s => LogletState (ms_world t) (set_event_ts_sn_index (ms_map t) (ls_loglet s))) k.
Definition on_pos {A} (k : M (mono_state SequencePosition) A) : M loglet_state A :=
  zoom (fun s => MonoState (ls_world s) (sn_pos_index (ls_loglet s)))
       (fun t s => LogletState (ms_world t) (set_sn_pos_index (ms_map t) (ls_loglet s))) k.

(** A segment changed through its shared pointer. *)
Definition put_segment (seg : LogSegment) : M loglet_state unit :=
  put (fun l => set_segments (om_insert (base_sn seg) seg (segments l)) l).

Definition activeSegment : M loglet_state LogSegment :=
  segs <- get segments;; defined (Segments.activeSegment segs).

Definition nextLogSequence : M loglet_state Z := get (fun l => entry_sn (next_sn_meta l)).
Definition nextLogSequenceMetadata : M loglet_state LogSequenceMetadata := get next_sn_meta.

Definition updateNextLogSequence (next_sn segment_base_sn segment_pos : Z) : M loglet_state unit :=
  put (fun l => set_flushed (Z.min (last_flushed_sn l) (next_sn - 1)) (unflushed_bytes l)
         (set_next_sn_meta (mkLogSequenceMetadata next_sn (Some segment_base_sn) (Some segment_pos)) l)).

(** ** Appending *)

(** The index entries made after an append; errors of the indexes are soft. *)
Definition index_append (active : LogSegment) (physical_position first_sn : Z) : M loglet_state unit :=
  max_ts <- get max_etimestamp_and_sn_so_far;;
  attempt (on_ts (TsIndex.maybeIndex d max_ts)) >>
  attempt (on_pos (PosIndex.maybeIndex d
             (mkSequencePosition first_sn (globalSegmentFilePosition (seg_id active) physical_position)))) >>
  put (set_bytes_since_last_index_entry 0).

Definition count_bytes (written : nat) : M loglet_state unit :=
  put (fun l => set_flushed (last_flushed_sn l) (unflushed_bytes l + Z.of_nat written)
         (set_bytes_since_last_index_entry (to_u64 (bytes_since_last_index_entry l + Z.of_nat written)) l)).

Definition append_batch (batch : list Entry) (batch_data : list (list Z)) (total_bytes : nat)
    (max_event_ts : TimestampSequence) : M loglet_state (nat * Z) :=
  active <- activeSegment;;
  let physical_position := Segment.size active in
  r <- disk (Segment.append_batch active batch_data total_bytes);;
  let '(written, error_code, active) := r in
  put_segment active >>
  if negb (error_code =? 0) then ret (written, error_code)
  else
    put (fun l => if timestamp (max_etimestamp_and_sn_so_far l) <? timestamp max_event_ts
                  then set_max_etimestamp max_event_ts l else l) >>
    count_bytes written >>
    bytes_since <- get bytes_since_last_index_entry;;
    config <- get log_config;;
    first <- defined (head batch);;
    (if (index_interval_bytes config <=? bytes_since) || (physical_position =? 0)
     then index_append active physical_position (sn first)
     else ret tt) >>
    back <- defined (last batch);;
    updateNextLogSequence (sn back + 1) (base_sn active) (Segment.size active) >>
    ret (written, 0).

Definition append (entry_data : list Z) (entry : Entry) : M loglet_state (nat * Z) :=
  active <- activeSegment;;
  let physical_position := Segment.size active in
  r <- disk (Segment.append active entry_data);;
  let '(written, error_code, active) := r in
  put_segment active >>
  if negb (error_code =? 0) then ret (written, error_code)
  else
    put (fun l => if timestamp (max_etimestamp_and_sn_so_far l) <? max_event_timestamp entry
                  then set_max_etimestamp (mkTimestampSequence (max_event_timestamp entry) (sn entry)) l
                  else l) >>
    count_bytes written >>
    bytes_since <- get bytes_since_last_index_entry;;
    config <- get log_config;;
    (if (index_interval_bytes config <=? bytes_since) || (sn entry =? LogStartSN)
     then index_append active physical_position (sn entry)
     else ret tt) >>
    updateNextLogSequence (sn entry + 1) (base_sn active) (Segment.size active) >>
    ret (written, 0).

(** ** Fetching *)

Definition validateFetchHint (segment : LogSegment) (target_sn : Z) (hint : option FetchHint) : option Z :=
  match hint with
  | None => None
  | Some h =>
      if Hint.empty h then None
      else if fh_sn h =? target_sn then
        if negb (Hint.hasFilePosition h) then None
        else if negb (fh_segment_base_sn h =? base_sn segment) then None
        else if Segment.size segment <=? fh_file_position h then None
        else Some (fh_file_position h)
      else None
  end.

Definition translateSequence (segment : LogSegment) (target_sn : Z)
  : M loglet_state (option LogSequencePosition) :=
  res <- attempt (on_pos (PosIndex.leftLowerBoundPositionForSequence d target_sn));;
  match res with
  | inr _ | inl None => disk (Segment.translateSequence segment target_sn 0)
  | inl (Some sp) =>
      let '(segment_id, position) := segmentIDAndFilePosition (file_position sp) in
      if segment_id =? to_u64 (seg_id segment) then
        if sp_sn sp =? target_sn then ret (Some (mkLogSequencePosition target_sn position 0))
        else disk (Segment.translateSequence segment target_sn position)
      else disk (Segment.translateSequence segment target_sn 0)
  end.

(** The second half of [doFetch]: how much to read from the position on. *)
Definition fetch_at (segment : LogSegment) (lsn : LogSequencePosition) (max_size max_position : Z)
  : M loglet_state (option FileLogEntries) :=
  let position := lsp_file_position lsn in
  let adjusted_max_size := Z.max max_size (lsp_entry_size lsn) in
  let max_to_fetch := to_u64 (max_position - position) in
  let slice size := r <- disk (Segment.fetch segment position size);; ret (Some r) in
  if max_to_fetch <=? adjusted_max_size then
    if max_to_fetch <? lsp_entry_size lsn then ret None
    else slice max_to_fetch
  else
    sn_pos <- attempt (on_pos (PosIndex.lowerBoundSequenceForPosition d
                (globalSegmentFilePosition (seg_id segment) (to_u64 (position + adjusted_max_size)))));;
    match sn_pos with
    | inr _ => ret None
    | inl (Some sp) =>
        let '(segment_id, file_position) := segmentIDAndFilePosition (file_position sp) in
        if segment_id =? to_u64 (seg_id segment) then slice (to_u64 (file_position - position))
        else slice max_to_fetch
    | inl None => slice max_to_fetch
    end.

Definition doFetch (segment : LogSegment) (start_sn max_size max_position : Z)
    (sn_file_position : option Z) : M loglet_state (option FileLogEntries) :=
  lsn <- match sn_file_position with
         | None => translateSequence segment start_sn
         | Some p => ret (Some (mkLogSequencePosition start_sn p 1))
         end;;
  match lsn with
  | None => ret None
  | Some lsn => fetch_at segment lsn max_size max_position
  end.

(** [deserialize]'s default buffer. *)
Definition max_buffer_size : Z := 16 * 1024 * 1024.

(** A result that starts and ends where the entries do. *)
Definition fetched (base : Z) (start : Z) (entries : list Entry) (first : Entry) (hint : FetchHint)
  : FetchResult :=
  mkFetchResult 0 0 hint (mkLogSequenceMetadata (sn first) (Some base) (Some start)) entries.

(** The second half of [fetch]: the answer made of the entries that were parsed. *)
Definition fetch_result (segment : LogSegment) (target_sn : Z) (hint : option FetchHint)
    (active_base_sn : option Z) (fle : FileLogEntries) (parsed : Z * list Entry * Z)
  : M loglet_state (FetchResult * Z) :=
  let base := base_sn segment in
  let '(parsed_bytes, entries, error_code) := parsed in
  if negb (error_code =? 0) then
    match entries, last entries with
    | first :: _, Some back =>
        ret (fetched base (start_pos fle) entries first
               (mkFetchHint (sn back + 1) base (start_pos fle + parsed_bytes)), error_code)
    | _, _ =>
        if (error_code =? CANNOT_READ_ALL_DATA) && bool_decide (is_Some hint)
        then ret (new_FetchResult, 0)
        else ret (new_FetchResult, error_code)
    end
  else
    match entries, last entries with
    | first :: _, Some back =>
        if negb (sn first =? target_sn) then ret (new_FetchResult, 0)
        else
          match active_base_sn with
          | None => throw STD_EXCEPTION
          | Some active_base =>
              ret (fetched base (start_pos fle) entries first
                     (if negb (base =? active_base) &&
                         (start_pos fle + parsed_bytes =? Segment.size segment)
                      then mkFetchHint (sn back + 1) (sn back + 1) 0
                      else mkFetchHint (sn back + 1) base (start_pos fle + parsed_bytes)), 0)
          end
    | _, _ => ret (new_FetchResult, 0)
    end.

(** [fetch]: the result and an error code. *)
Definition fetch (target_sn max_size : Z) (max_sn_meta : LogSequenceMetadata) (hint : option FetchHint)
  : M loglet_state (FetchResult * Z) :=
  segs <- get segments;;
  match Segments.floorSegment target_sn segs with
  | None => ret (new_FetchResult, SEQUENCE_OUT_OF_RANGE)
  | Some segment =>
      let sn_file_position := validateFetchHint segment target_sn hint in
      next_meta <- nextLogSequenceMetadata;;
      let base := base_sn segment in
      let max_position :=
        match segment_base_sn max_sn_meta, lm_file_position max_sn_meta with
        | Some b, Some p => if b =? base then p else Segment.size segment
        | _, _ => Segment.size segment
        end in
      let sn_file_position := if target_sn =? base then Some 0 else sn_file_position in
      file_log_entries <- doFetch segment target_sn max_size max_position sn_file_position;;
      match file_log_entries with
      | None => ret (new_FetchResult, 0)
      | Some fle =>
          parsed <- disk (Fle.deserialize fle (entry_sn max_sn_meta) max_size max_buffer_size);;
          fetch_result segment target_sn hint (segment_base_sn next_meta) fle parsed
      end
  end.

Definition sequenceForTimestamp (ts : Z) : M loglet_state (option Z) :=
  r <- on_ts (TsIndex.leftLowerBoundSequenceForTimestamp d ts);; ret (ts_sn <$> r).

(** ** Flushing and rolling *)

Definition flushActiveSegment : M loglet_state unit :=
  next_sn <- nextLogSequence;;
  active <- activeSegment;;
  config <- get log_config;;
  active <- disk (Segment.flush active (incremental_flush config));;
  put_segment active >>
  put (set_flushed next_sn 0).

Definition needFlush (l : Loglet) : bool :=
  let c := log_config l in
  ((0 <? flush_bytes c) && (flush_bytes c <=? unflushed_bytes l)) ||
  ((0 <? flush_interval_entries c) &&
   (flush_interval_entries c <=? to_u64 (entry_sn (next_sn_meta l) - last_flushed_sn l))).

Definition roll (expected_next_sn : option Z) : M loglet_state LogSegment :=
  flushActiveSegment >>
  next_sn <- nextLogSequence;;
  let new_sn := Z.max (default 0 expected_next_sn) next_sn in
  active_segment <- activeSegment;;
  max_ts <- get max_etimestamp_and_sn_so_far;;
  attempt (on_ts (TsIndex.maybeIndex d max_ts)) >>
  dir <- get log_dir;;
  new_segment <- disk (Segment.create dir (seg_id active_segment + 1) new_sn false EmptyString);;
  put (fun l => set_segments (Segments.add new_segment (segments l)) l) >>
  next_sn <- nextLogSequence;;
  updateNextLogSequence next_sn (base_sn new_segment) (Segment.size new_segment) >>
  ret new_segment.

(** [updateConfig]: settings by name; the values are converted to the types of the
    fields. *)
Definition update_flush (c : LogConfig) (kv : string * Z) : LogConfig :=
  let '(k, v) := kv in
  let with_flush entries bytes :=
    mkLogConfig (max_entry_size c) (segment_size c) (segment_ms c) entries (flush_interval_ms c) bytes
      (retention_size c) (retention_ms c) (file_delete_delay_ms c) (index_interval_bytes c)
      (index_interval_entries c) (max_cached_entries_per_shard c) (max_cached_bytes_per_shard c)
      (min_size_to_keep c) (hard_state_ckpt_log_size c) (leader_epoch_index_log_size c)
      (timestamp_index_log_size c) (log_position_index_log_size c) (inmemory c) (incremental_flush c) in
  if String.eqb k "flush_messages" then with_flush (to_u64 v) (flush_bytes c)
  else if String.eqb k "flush_bytes" then with_flush (flush_interval_entries c) v
  else c.
Definition update_retention (c : LogConfig) (kv : string * Z) : LogConfig :=
  let '(k, v) := kv in
  let with_retention size ms :=
    mkLogConfig (max_entry_size c) (segment_size c) (segment_ms c) (flush_interval_entries c)
      (flush_interval_ms c) (flush_bytes c) size ms (file_delete_delay_ms c) (index_interval_bytes c)
      (index_interval_entries c) (max_cached_entries_per_shard c) (max_cached_bytes_per_shard c)
      (min_size_to_keep c) (hard_state_ckpt_log_size c) (leader_epoch_index_log_size c)
      (timestamp_index_log_size c) (log_position_index_log_size c) (inmemory c) (incremental_flush c) in
  if String.eqb k "retention_bytes" then with_retention (to_u64 v) (retention_ms c)
  else if String.eqb k "retention_ms" then with_retention (retention_size c) v
  else c.
Definition updateConfig (flush_settings retention_settings : list (string * Z)) : M loglet_state unit :=
  put (fun l => set_log_config
         (foldl update_retention (foldl update_flush (log_config l) flush_settings) retention_settings) l).

(** ** Deleting segments *)

(** What the background job does with a segment handed to it. *)
Definition delete_next : M loglet_state unit :=
  pending <- get to_delete;;
  match pending with
  | [] => ret tt
  | segment :: rest =>
      put (set_to_delete rest) >>
      disk (Segment.remove segment) >> ret tt
  end.

Definition removeSegmentFilesAsync (segments_to_delete : list LogSegment) (new_start_sn : Z)
  : M loglet_state unit :=
  attempt (on_ts (TsIndex.trimHead d new_start_sn)) >>
  attempt (on_pos (PosIndex.trimHead d new_start_sn)) >>
  put (fun l => set_to_delete (to_delete l ++ segments_to_delete) l).

Fixpoint remove_each (segments_to_delete : list LogSegment) : M world unit :=
  match segments_to_delete with
  | [] => ret tt
  | segment :: rest => Segment.remove segment >> remove_each rest
  end.
Definition removeSegmentFilesSync (segments_to_delete : list LogSegment) (new_start_sn : Z)
  : M loglet_state unit :=
  attempt (on_ts (TsIndex.trimHead d new_start_sn)) >>
  attempt (on_pos (PosIndex.trimHead d new_start_sn)) >>
  disk (remove_each segments_to_delete).

(** The files get the suffix [.deleted]; a file that is gone is no error.  The
    segments as they are after it. *)
Fixpoint mark_deleted (segments_to_delete : list LogSegment) : M world (list LogSegment) :=
  match segments_to_delete with
  | [] => ret []
  | segment :: rest =>
      r <- attempt (Segment.changeFileSuffix segment DELETED_FILE_SUFFIX);;
      segment <- match r with
                 | inl segment => ret segment
                 | inr e => if e =? FILE_DOESNT_EXIST then ret segment else fail e
                 end;;
      rest <- mark_deleted rest;;
      ret (segment :: rest)
  end.

Definition removeSegments (segments_to_delete : list LogSegment) (new_start_sn : option Z)
  : M loglet_state unit :=
  match segments_to_delete with
  | [] => ret tt
  | _ =>
      put (fun l => set_segments
             (foldl (fun segs segment => Segments.remove (base_sn segment) segs) (segments l)
                segments_to_delete) l) >>
      marked <- disk (mark_deleted segments_to_delete);;
      start <- match new_start_sn with
               | Some sn => ret sn
               | None => segs <- get segments;;
                         first <- defined (Segments.firstSegment segs);;
                         ret (base_sn first)
               end;;
      removeSegmentFilesAsync marked start
  end.

(** [deletableSegments]: the segments before the first one that is not below
    [applied_sn] or whose predecessor is to be kept; [should_delete] is called with
    the state it captured. *)
Definition deletableSegments {T} (should_delete : T -> LogSegment -> LogSegment -> T * bool) (t : T)
    (applied_sn : Z) (segs : LogSegments) : list LogSegment :=
  (Segments.apply
     (fun (st : list LogSegment * option LogSegment * T) segment =>
        let '(deletable, prev_segment, t) := st in
        match prev_segment with
        | None => ((deletable, Some segment, t), false)
        | Some prev =>
            if base_sn segment <? applied_sn then
              let '(t, del) := should_delete t prev segment in
              if (del : bool) then ((deletable ++ [prev], Some segment, t), false)
              else ((deletable, Some prev, t), true)
            else ((deletable, Some prev, t), true)
        end)
     ([], None, t) segs).1.1.

Definition removeAllSegments : M loglet_state unit :=
  segs <- get segments;;
  next_sn <- nextLogSequence;;
  removeSegments (Segments.allSegments segs) (Some next_sn).

(** [std::filesystem::remove_all] of a directory. *)
Definition sys_remove_all (dir : string) : M world unit :=
  syscall (modify (fun w => set_files
    (filter (fun f => String.prefix (dir +:+ "/") f.1 = false) (w_files w)) w)).

Definition removeEmptyDir : M loglet_state unit :=
  segs <- get segments;;
  if negb (Segments.empty segs) then fail INVALID_STATE
  else
    dir <- get log_dir;;
    disk (map_err (fun _ => CANNOT_DELETE_DIRECTORY) (sys_remove_all dir)).

Definition remove : M loglet_state unit :=
  removeAllSegments >>
  on_ts TsIndex.close >>
  on_pos PosIndex.close >>
  removeEmptyDir.

(** ** Trimming *)

Definition trim (target_sn : Z) : M loglet_state unit :=
  segs <- get segments;;
  match Segments.floorSegment target_sn segs with
  | None => fail RECORD_NOT_FOUND
  | Some target_segment =>
      lsn <- translateSequence target_segment target_sn;;
      match lsn with
      | None => fail RECORD_NOT_FOUND
      | Some lsn =>
          on_pos (PosIndex.trim d target_sn) >>
          on_ts (TsIndex.trim d target_sn) >>
          last_ts <- on_ts (TsIndex.lastIndexedTimestampSequence d);;
          put (set_max_etimestamp (default (mkTimestampSequence 0 0) last_ts)) >>
          segs <- get segments;;
          removeSegments (Segments.upperSegments target_sn segs) None >>
          r <- disk (Segment.trim target_segment (lsp_file_position lsn));;
          let '(trimmed, target_segment) := r in
          put_segment target_segment >>
          match trimmed with
          | inl _ => updateNextLogSequence target_sn (base_sn target_segment) (Segment.size target_segment)
          | inr e => fail e
          end
      end
  end.

Definition trimFullyAndStartAt (new_sn : Z) : M loglet_state unit :=
  segs <- get segments;;
  let all := Segments.allSegments segs in
  active <- defined (last all);;
  removeSegments (take (length all - 1) all) (Some new_sn) >>
  active <- (if new_sn =? base_sn active
             then active <- disk (Segment.changeFileSuffix active DELETED_FILE_SUFFIX);;
                  put_segment active >> ret active
             else ret active);;
  dir <- get log_dir;;
  new_segment <- disk (Segment.create dir (seg_id active + 1) new_sn false EmptyString);;
  put (fun l => set_segments (Segments.add new_segment (segments l)) l) >>
  (if new_sn =? base_sn active then ret tt
   else put (fun l => set_segments (Segments.remove (base_sn active) (segments l)) l)) >>
  removeSegmentFilesAsync [active] new_sn >>
  put (set_next_sn_meta (mkLogSequenceMetadata new_sn (Some new_sn) (Some 0))).

Definition size (l : Loglet) : Z :=
  Segments.apply (fun total segment => (total + Segment.size segment, false)) 0 (segments l).

(** ** Epochs *)

(** [epochSequences]: [fuel] bounds the turns of [while (true)]. *)
Fixpoint epoch_loop (fuel : nat) (high_sn : Z) (segment : LogSegment) (file_pos : Z)
    (result : list EpochSequence) : M loglet_state (list EpochSequence) :=
  match fuel with
  | O => undef
  | S fuel =>
      total <- get size;;
      fle <- disk (Segment.fetch segment file_pos (to_u64 (total - file_pos)));;
      result <- disk (zoom (fun w => (w, result)) (fun s _ => s.1)
                  (Fle.applyLogEntryMetadata fle
                     (fun result meta_entry _ =>
                        (if sn meta_entry <? high_sn then result ++ [mkEpochSequence 1 (sn meta_entry)]
                         else result,
                         sn meta_entry + 1 <? high_sn)) None >>
                   gets snd));;
      match last result with
      | None => fail RECORD_NOT_FOUND
      | Some back =>
          if high_sn <=? es_sn back + 1 then ret result
          else
            segs <- get segments;;
            segment <- defined (Segments.floorSegment (es_sn back + 1) segs);;
            epoch_loop fuel high_sn segment 0 result
      end
  end.

Definition epochSequences (fuel : nat) (low_sn high_sn : Z) : M loglet_state (list EpochSequence) :=
  segs <- get segments;;
  match Segments.floorSegment low_sn segs with
  | None => fail SEQUENCE_OUT_OF_RANGE
  | Some segment =>
      file_pos <- (if low_sn =? base_sn segment then ret 0
                   else
                     lsn <- translateSequence segment low_sn;;
                     match lsn with
                     | None => fail RECORD_NOT_FOUND
                     | Some lsn => ret (lsp_file_position lsn)
                     end);;
      epoch_loop fuel high_sn segment file_pos []
  end.

End Loglet.
End Lglt.
