(* ===== verification/Log.v ===== *)
(** * Log (src/Cluster/LocalLog/Log/Log.cpp)

    A log: a loglet, the epoch index, the cache of its latest entries, and the
    committed sequence that bounds what consumers see.  What other threads do while
    a fetch waits is a parameter of the fetch; the times of files are one of
    retention. *)

From Stdlib Require Import String.
From S2P Require Import Prelude Ordered Os AppendOnlyFile Codec KeyValues MonoMap Entry FileLogEntries.
From S2P Require Import SegmentNames LogConfig LogSegment LogSegments LogTypes LogEntryCache Indexes Loglet.

Local Open Scope prog_scope.

Definition FAILED_TO_ROLL_LOG_SEGMENT : Z := 2618.
Definition TOO_LARGE_RECORD : Z := 2514.
Definition SEQUENCE_COMPACTED_AWAY : Z := 2547.
Definition SEQUENCE_UNAVAILABLE : Z := 2543.
Definition INVALID_SEQUENCE : Z := 2510.
Definition STREAM_PAUSED : Z := 2619.

(** [<limits.h>] *)
Definition IOV_MAX : nat := 1024.
Arguments IOV_MAX : simpl never.

Inductive FetchIsolation : Type := Committed | LogEnd.

(** The configuration is shared with the loglet. *)
Record Log : Type := mkLog {
  closed : bool;
  paused : bool;
  log_start_sn : Z;
  epoch_sn_index : PersistentMonoMap EpochSequence;
  loglet : Loglet;
  committed_sn : Z;
  committed_epoch : Z;
  entry_cache : LogEntryCache;
}.

Record log_state : Type := LogState {
  lg_world : world;
  lg_log : Log;
}.

Definition set_closed (x : bool) (l : Log) : Log :=
  mkLog x (paused l) (log_start_sn l) (epoch_sn_index l) (loglet l) (committed_sn l) (committed_epoch l)
    (entry_cache l).
Definition set_paused (x : bool) (l : Log) : Log :=
  mkLog (closed l) x (log_start_sn l) (epoch_sn_index l) (loglet l) (committed_sn l) (committed_epoch l)
    (entry_cache l).
Definition set_log_start_sn (x : Z) (l : Log) : Log :=
  mkLog (closed l) (paused l) x (epoch_sn_index l) (loglet l) (committed_sn l) (committed_epoch l)
    (entry_cache l).
Definition set_epoch_sn_index (x : PersistentMonoMap EpochSequence) (l : Log) : Log :=
  mkLog (closed l) (paused l) (log_start_sn l) x (loglet l) (committed_sn l) (committed_epoch l)
    (entry_cache l).
Definition set_loglet (x : Loglet) (l : Log) : Log :=
  mkLog (closed l) (paused l) (log_start_sn l) (epoch_sn_index l) x (committed_sn l) (committed_epoch l)
    (entry_cache l).
Definition set_committed (sn epoch : Z) (l : Log) : Log :=
  mkLog (closed l) (paused l) (log_start_sn l) (epoch_sn_index l) (loglet l) sn epoch (entry_cache l).
Definition set_entry_cache (x : LogEntryCache) (l : Log) : Log :=
  mkLog (closed l) (paused l) (log_start_sn l) (epoch_sn_index l) (loglet l) (committed_sn l)
    (committed_epoch l) x.

Module Lg.
Section Log.
Context (d : directory) (sizeof_Entry : Z).

Definition get {A} (f : Log -> A) : M log_state A := gets (fun s => f (lg_log s)).
Definition put (f : Log -> Log) : M log_state unit :=
  modify (fun s => LogState (lg_world s) (f (lg_log s))).
Definition on_loglet {A} (k : M loglet_state A) : M log_state A :=
  zoom (fun s => LogletState (lg_world s) (loglet (lg_log s)))
       (fun t s => LogState (ls_world t) (set_loglet (ls_loglet t) (lg_log s))) k.
Definition on_epoch {A} (k : M (mono_state EpochSequence) A) : M log_state A :=
  zoom (fun s => MonoState (lg_world s) (epoch_sn_index (lg_log s)))
       (fun t s => LogState (ms_world t) (set_epoch_sn_index (ms_map t) (lg_log s))) k.

Definition config (l : Log) : LogConfig := log_config (loglet l).
Definition isInmemory (l : Log) : bool := inmemory (config l).
Definition nextLogSequence : M log_state Z := on_loglet Lglt.nextLogSequence.
Definition committedSequence : M log_state Z := get committed_sn.
Definition logFirstSegmentBaseSequence : M log_state Z :=
  segs <- get (fun l => segments (loglet l));;
  s <- defined (Segments.firstSegment segs);; ret (base_sn s).
Definition logActiveSegmentBaseSequence : M log_state Z :=
  segs <- get (fun l => segments (loglet l));;
  s <- defined (Segments.activeSegment segs);; ret (base_sn s).

(** The constructor. *)
Definition create (start_sn : Z) (epochs : PersistentMonoMap EpochSequence) (ll : Loglet) : Log :=
  mkLog false false start_sn epochs ll (LogStartSN - 1) 0
    (Cache.create (max_cached_entries_per_shard (log_config ll))).

Definition shutdown : M log_state unit := put (set_closed true).
Definition restart : M log_state unit := put (set_closed false).
Definition pause : M log_state unit := put (set_paused true).
Definition resume : M log_state unit := put (set_paused false).
Definition recover : M log_state unit := put (set_paused false).
Definition flush : M log_state unit := on_loglet Lglt.flushActiveSegment.

(** ** Committing *)

(** [advanceCommittedSequence]: the old committed sequence, except that a sequence
    beyond the end of the log is refused. *)
Definition advanceCommittedSequence (new_epoch new_committed_sn : Z) : M log_state Z :=
  prev_epoch <- get committed_epoch;;
  prev_commit_sn <- get committed_sn;;
  if new_epoch <? prev_epoch then ret prev_commit_sn
  else
    next_log_sn <- nextLogSequence;;
    if next_log_sn <=? new_committed_sn then ret prev_commit_sn
    else
      (if prev_commit_sn <? new_committed_sn then put (set_committed new_committed_sn new_epoch)
       else ret tt) >>
      ret prev_commit_sn.

(** ** Appending *)

Definition maybeRoll (append_size next_sn : Z) : M log_state LogSegment :=
  segment <- on_loglet Lglt.activeSegment;;
  c <- get config;;
  if negb (Segment.shouldRoll segment c append_size) then ret segment
  else on_loglet (Lglt.roll d (Some next_sn)).

(** The loop over a batch: every entry is indexed by epoch and serialized.  [inr] is
    the error code of the epoch index. *)
Fixpoint serialize_batch (batch : list Entry) (max_event_ts : TimestampSequence)
    (entries : list Entry) (batch_data : list (list Z)) (bytes : Z)
  : M log_state (TimestampSequence * list Entry * list (list Z) * Z + Z) :=
  match batch with
  | [] => ret (inl (max_event_ts, entries, batch_data, bytes))
  | e :: batch =>
      r <- attempt (on_epoch (EpochIndex.maybeIndexEpochStartSequence d (mkEpochSequence 1 (sn e))));;
      match r with
      | inr code => ret (inr code)
      | inl _ =>
          let max_event_ts :=
            if timestamp max_event_ts <? max_event_timestamp e
            then mkTimestampSequence (max_event_timestamp e) (sn e) else max_event_ts in
          let '(bs, e) := serialize e in
          serialize_batch batch max_event_ts (entries ++ [e]) (batch_data ++ [bs])
            (to_u32 (bytes + Z.of_nat (length bs)))
      end
  end.

(** [append(span)]: the bytes written and an error code. *)
Definition append_span (batch : list Entry) : M log_state (nat * Z) :=
  r <- serialize_batch batch (mkTimestampSequence 0 0) [] [] 0;;
  match r with
  | inr code => ret (0%nat, code)
  | inl (max_event_ts, batch, batch_data, bytes) =>
      first <- defined (head batch);;
      rolled <- attempt (maybeRoll bytes (sn first));;
      match rolled with
      | inr _ => ret (0%nat, FAILED_TO_ROLL_LOG_SEGMENT)
      | inl segment =>
          let start_file_position := Segment.size segment in
          result <- on_loglet (Lglt.append_batch d batch batch_data (Z.to_nat bytes) max_event_ts);;
          if negb (result.2 =? 0) then ret result
          else
            c <- get entry_cache;;
            c <- defined (Cache.append_batch sizeof_Entry batch batch_data (base_sn segment)
                            start_file_position c);;
            put (set_entry_cache c) >>
            ret result
      end
  end.

Definition appendInMemory (entries : list Entry) : M log_state (nat * Z) :=
  let fix go es :=
    match es with
    | [] => ret tt
    | e :: es =>
        on_loglet (Lglt.updateNextLogSequence (sn e + 1) 0 0) >>
        meta <- on_loglet Lglt.nextLogSequenceMetadata;;
        put (fun l => set_entry_cache
               (Cache.append sizeof_Entry e (mkLogSequenceMetadata (sn e) None None)
                  (SnMeta.toFetchHint meta) (entry_cache l)) l) >>
        go es
    end in
  go entries >>
  back <- defined (last entries);;
  advanceCommittedSequence 1 (sn back) >>
  ret (0%nat, 0).

(** The batches of [append]: at most [IOV_MAX] entries each. *)
Fixpoint append_batches (fuel : nat) (entries : list Entry) (written : nat) : M log_state (nat * Z) :=
  match fuel with
  | O => undef
  | S fuel =>
      if (length entries <=? IOV_MAX)%nat then
        r <- append_span entries;; ret ((written + r.1)%nat, r.2)
      else
        r <- append_span (take IOV_MAX entries);;
        if negb (r.2 =? 0) then ret ((written + r.1)%nat, r.2)
        else append_batches fuel (drop IOV_MAX entries) (written + r.1)
  end.
Definition append (entries : list Entry) : M log_state (nat * Z) :=
  mem <- get isInmemory;;
  if (mem : bool) then appendInMemory entries
  else append_batches (S (length entries)) entries 0.

(** [appendLocal] at time [now]: the sequence number given to the entry. *)
Definition appendLocal (now : Z) (e : Entry) : M log_state Z :=
  is_paused <- get paused;;
  if (is_paused : bool) then fail STREAM_PAUSED
  else
    c <- get config;;
    if max_entry_size c <? payloadSize e then fail TOO_LARGE_RECORD
    else
      next_sn <- nextLogSequence;;
      let e := mkEntry (prefix_length e) (crc e) (version e) (correlation_id e) (max_event_timestamp e)
                 now next_sn (entry_type e) (data e) in
      let '(bs, e) := serialize e in
      segment <- map_err (fun _ => FAILED_TO_ROLL_LOG_SEGMENT)
                   (maybeRoll (to_u32 (Z.of_nat (length bs))) (sn e));;
      let current_metadata :=
        mkLogSequenceMetadata (sn e) (Some (base_sn segment)) (Some (Segment.size segment)) in
      mem <- get isInmemory;;
      (if (mem : bool) then on_loglet (Lglt.updateNextLogSequence (sn e + 1) 0 0)
       else
         r <- on_loglet (Lglt.append d bs e);;
         if negb (r.2 =? 0) then fail r.2 else ret tt) >>
      meta <- on_loglet Lglt.nextLogSequenceMetadata;;
      put (fun l => set_entry_cache
             (Cache.append sizeof_Entry e current_metadata (SnMeta.toFetchHint meta) (entry_cache l)) l) >>
      need_flush <- get (fun l => Lglt.needFlush (loglet l));;
      (if (need_flush : bool) then attempt flush >> ret tt else ret tt) >>
      advanceCommittedSequence 1 (sn e) >>
      ret (sn e).

(** ** Fetching *)

Definition nextSequenceMetadata (isolation : FetchIsolation) : M log_state LogSequenceMetadata :=
  match isolation with
  | Committed =>
      c <- committedSequence;;
      base <- logActiveSegmentBaseSequence;;
      ret (mkLogSequenceMetadata (c + 1) (Some base) None)
  | LogEnd => on_loglet Lglt.nextLogSequenceMetadata
  end.

(** [nextFetchSequenceOrWait]: the sequence to fetch and the end of what can be
    fetched.  [others] is what the other threads do while this one waits. *)
Definition nextFetchSequenceOrWait (others : M log_state unit) (target_sn max_wait_ms : Z)
    (isolation : FetchIsolation) : M log_state (Z * LogSequenceMetadata) :=
  next_meta <- nextSequenceMetadata isolation;;
  start_sn <- get log_start_sn;;
  let target_sn :=
    if target_sn =? EarliestSN then start_sn
    else if target_sn =? LatestSN then entry_sn next_meta
    else if target_sn <? LogStartSN then LogStartSN
    else target_sn in
  if (target_sn <? entry_sn next_meta) || (max_wait_ms <=? 0) then ret (target_sn, next_meta)
  else
    others >>
    new_meta <- nextSequenceMetadata isolation;;
    ret (target_sn, if entry_sn next_meta <? entry_sn new_meta then new_meta else next_meta).

Definition with_bounds (start_sn committed : Z) (r : FetchResult) : FetchResult :=
  mkFetchResult start_sn committed (fetch_hint r) (fetched_log_sn_metadata r) (fr_entries r).

Definition lift_res {A} (r : res A) : M log_state A := fun s => (r, s).

(** The cache, then the loglet. *)
Definition fetch_entries (target_sn max_size : Z) (next_meta : LogSequenceMetadata)
    (hint : option FetchHint) : M log_state (FetchResult * Z) :=
  c <- get entry_cache;;
  mem <- get isInmemory;;
  r <- lift_res (Cache.fetch sizeof_Entry c target_sn (entry_sn next_meta) max_size mem);;
  let '(result, try_fs) := r in
  if negb (bool_decide (fr_entries result = [])) || negb try_fs then ret (result, 0)
  else on_loglet (Lglt.fetch d target_sn max_size next_meta hint).

Definition fetch (others : M log_state unit) (target_sn max_size max_wait_ms : Z)
    (hint : option FetchHint) (isolation : FetchIsolation) : M log_state (FetchResult * Z) :=
  start_sn <- get log_start_sn;;
  if (target_sn <? start_sn) && (LogStartSN <=? target_sn) then
    committed <- committedSequence;;
    base <- logFirstSegmentBaseSequence;;
    ret (mkFetchResult start_sn committed (mkFetchHint start_sn base no_position)
           new_LogSequenceMetadata [], SEQUENCE_COMPACTED_AWAY)
  else
    r <- nextFetchSequenceOrWait others target_sn max_wait_ms isolation;;
    let '(target_sn, next_meta) := r in
    if entry_sn next_meta <=? target_sn then
      committed <- committedSequence;;
      let h := match hint with
               | Some h => if negb (entry_sn next_meta =? target_sn) || Hint.empty h
                           then SnMeta.toFetchHint next_meta else h
               | None => SnMeta.toFetchHint next_meta
               end in
      ret (mkFetchResult start_sn committed h new_LogSequenceMetadata [], 0)
    else
      r <- fetch_entries target_sn max_size next_meta hint;;
      committed <- committedSequence;;
      ret (with_bounds start_sn committed r.1, r.2).

(** [fetchRange]: the whole range [low_sn, high_sn) has to be in the log. *)
Definition fetchRange (low_sn high_sn max_size : Z) (hint : option FetchHint)
    (isolation : FetchIsolation) : M log_state (FetchResult * Z) :=
  start_sn <- get log_start_sn;;
  if low_sn <? start_sn then
    committed <- committedSequence;;
    base <- logFirstSegmentBaseSequence;;
    ret (mkFetchResult start_sn committed (mkFetchHint start_sn base no_position)
           new_LogSequenceMetadata [], SEQUENCE_COMPACTED_AWAY)
  else
    r <- nextFetchSequenceOrWait (ret tt) low_sn 0 isolation;;
    let '(low_sn, next_meta) := r in
    if high_sn <=? entry_sn next_meta then
      fetch_entries low_sn max_size
        (mkLogSequenceMetadata high_sn (segment_base_sn next_meta) (lm_file_position next_meta)) hint
    else
      ret (mkFetchResult 0 0 (mkFetchHint (entry_sn next_meta) 0 no_position)
             new_LogSequenceMetadata [], SEQUENCE_UNAVAILABLE).

(** ** Trimming *)

(** Errors of the epoch index are ignored here. *)
Definition trimFullyAndStartAt (new_sn : Z) (prev_epoch_sn : option EpochSequence) : M log_state unit :=
  on_loglet (Lglt.trimFullyAndStartAt d new_sn) >>
  put (fun l => set_entry_cache (Cache.clear (entry_cache l)) l) >>
  match prev_epoch_sn with
  | Some es =>
      attempt (on_epoch (EpochIndex.trimHead d new_sn)) >>
      attempt (on_epoch (EpochIndex.maybeIndexEpochStartSequence d es)) >> ret tt
  | None => attempt (on_epoch (EpochIndex.remove d)) >> ret tt
  end >>
  put (fun l => set_committed (new_sn - 1) (committed_epoch l) (set_log_start_sn new_sn l)).

Definition trim (target_sn : Z) : M log_state unit :=
  if target_sn <? LogStartSN then fail INVALID_SEQUENCE
  else
    log_end_sn <- nextLogSequence;;
    if target_sn <? log_end_sn then
      base <- logFirstSegmentBaseSequence;;
      if target_sn <? base then trimFullyAndStartAt target_sn None
      else
        on_loglet (Lglt.trim d target_sn) >>
        put (fun l => set_entry_cache (Cache.trim sizeof_Entry (entry_cache l) target_sn).2 l) >>
        on_epoch (EpochIndex.trim d target_sn) >>
        put (fun l => set_log_start_sn (Z.min target_sn (log_start_sn l)) l) >>
        put (fun l => if target_sn <? committed_sn l then set_committed target_sn (committed_epoch l) l
                      else l)
    else if target_sn =? log_end_sn then on_epoch (EpochIndex.trim d target_sn)
    else ret tt.

(** ** Retention *)

Definition maybeIncrementLogStartSequence (new_log_start_sn : Z) : M log_state bool :=
  current_start_sn <- get log_start_sn;;
  if current_start_sn <? new_log_start_sn then put (set_log_start_sn new_log_start_sn) >> ret true
  else ret false.

Definition deleteOldSegments_by {T} (should_delete : T -> LogSegment -> LogSegment -> T * bool) (t : T)
    (applied_sn : Z) : M log_state nat :=
  segs <- get (fun l => segments (loglet l));;
  let deletable := Lglt.deletableSegments should_delete t applied_sn segs in
  match deletable with
  | [] => ret 0%nat
  | _ =>
      attempt (on_loglet (Lglt.removeSegments d deletable None)) >>
      base <- logFirstSegmentBaseSequence;;
      maybeIncrementLogStartSequence base >>
      ret (length deletable)
  end.

Definition deleteLogStartSequenceBreachedSegments (applied_sn : Z) : M log_state nat :=
  start_sn <- get log_start_sn;;
  deleteOldSegments_by (fun (u : unit) _ next_segment => (u, base_sn next_segment <=? start_sn)) tt applied_sn.

(** The predicate of the size based retention: it captures the bytes that are left. *)
Definition should_delete_by_size (retention_size min_size_to_keep : Z) (total_bytes : Z)
    (prev_segment _ : LogSegment) : Z * bool :=
  let prev_seg_size := Segment.size prev_segment in
  if (retention_size <? total_bytes) && (prev_seg_size <? total_bytes) &&
     (min_size_to_keep <? total_bytes - prev_seg_size)
  then (total_bytes - prev_seg_size, true) else (total_bytes, false).
Definition deleteRetentionSizeBreachedSegments (applied_sn : Z) : M log_state nat :=
  c <- get config;;
  if retention_size c =? 0 then ret 0%nat
  else
    total_bytes <- get (fun l => Lglt.size (loglet l));;
    if (total_bytes <? retention_size c) || (total_bytes <? min_size_to_keep c) then ret 0%nat
    else deleteOldSegments_by (should_delete_by_size (retention_size c) (min_size_to_keep c)) total_bytes
           applied_sn.

(** The time based one: [last_modified] is [LogSegment::lastModified], [None] for an
    error. *)
Definition should_delete_by_time (last_modified : LogSegment -> option Z)
    (start_ms retention_ms min_size_to_keep : Z) (total_bytes : Z) (segment _ : LogSegment) : Z * bool :=
  match last_modified segment with
  | Some t =>
      if (retention_ms <? start_ms - t) && (Segment.size segment <? total_bytes) &&
         (min_size_to_keep <? total_bytes)
      then (total_bytes - Segment.size segment, true) else (total_bytes, false)
  | None => (total_bytes, false)
  end.
Definition deleteRetentionTimeBreachedSegments (last_modified : LogSegment -> option Z)
    (start_ms applied_sn : Z) : M log_state nat :=
  c <- get config;;
  if retention_ms c <=? 0 then ret 0%nat
  else
    total_bytes <- get (fun l => Lglt.size (loglet l));;
    if total_bytes <? min_size_to_keep c then ret 0%nat
    else deleteOldSegments_by
           (should_delete_by_time last_modified start_ms (retention_ms c) (min_size_to_keep c))
           total_bytes applied_sn.

Definition deleteOldSegments (last_modified : LogSegment -> option Z) (now applied_sn : Z)
  : M log_state nat :=
  a <- deleteLogStartSequenceBreachedSegments applied_sn;;
  b <- deleteRetentionSizeBreachedSegments applied_sn;;
  c <- deleteRetentionTimeBreachedSegments last_modified now applied_sn;;
  ret (a + b + c)%nat.

(** ** Timestamps and epochs *)

Definition sequenceForTimestamp (ts : Z) : M log_state Z :=
  res <- attempt (on_loglet (Lglt.sequenceForTimestamp d ts));;
  start_sn <- get log_start_sn;;
  match res with
  | inl (Some sn) => ret (if start_sn <=? sn then sn else start_sn)
  | _ => ret start_sn
  end.

Definition latestLeaderEpoch : M log_state (option Z) :=
  res <- attempt (on_epoch (EpochIndex.latestLeaderEpochSequence d));;
  match res with
  | inl (Some es) =>
      next_sn <- nextLogSequence;;
      if es_sn es <? next_sn then ret (Some (epoch es))
      else
        res <- attempt (on_epoch (EpochIndex.leaderEpochSequenceFor d (next_sn - 1)));;
        match res with
        | inl (Some es) => ret (Some (epoch es))
        | _ => ret None
        end
  | _ => ret None
  end.

Definition leaderEpochFor (sn : Z) : M log_state (option Z) :=
  if sn <? LogStartSN then ret (Some 1)
  else
    next_sn <- nextLogSequence;;
    if sn =? next_sn - 1 then latestLeaderEpoch
    else
      res <- attempt (on_epoch (EpochIndex.leaderEpochSequenceFor d sn));;
      match res with
      | inl (Some es) => ret (Some (epoch es))
      | _ =>
          r <- fetch (ret tt) sn 1 0 None Committed;;
          ret (match fr_entries r.1 with [] => None | _ => Some 1 end)
      end.

(** [committedSequences]: the sequences and the next sequence of the log; [fuel] is
    that of the loglet. *)
Definition committedSequences (fuel : nat) (last_committed_sn max_entries : Z)
  : M log_state (list EpochSequence * Z) :=
  local_committed <- committedSequence;;
  local_log_start_sn <- get log_start_sn;;
  next_sn <- nextLogSequence;;
  let last_committed_sn :=
    if LogStartSN <? last_committed_sn then Z.min last_committed_sn local_committed else local_committed in
  let start_committed_sn :=
    if local_log_start_sn + max_entries <? last_committed_sn then last_committed_sn - max_entries
    else local_log_start_sn in
  if last_committed_sn <=? start_committed_sn + 1 then ret ([], 0)
  else
    c <- get entry_cache;;
    sequences <- lift_res (Cache.epochSequences c start_committed_sn last_committed_sn);;
    match sequences with
    | _ :: _ => ret (sequences, next_sn)
    | [] =>
        result <- on_loglet (Lglt.epochSequences d fuel start_committed_sn last_committed_sn);;
        ret (result, next_sn)
    end.

Definition remove : M log_state unit :=
  on_epoch EpochIndex.close >> on_loglet (Lglt.remove d).

End Log.
End Lg.
