(* ===== verification/LogLoader.v ===== *)
(** * Starting a log (src/Cluster/LocalLog/Log/LogLoader.cpp, Log.cpp, Loglet.cpp)

    What a log does when its directory is opened: delete what a deletion has left
    behind, load the segments, find the end of the last one, cutting off a torn entry
    after a crash, and build the [Loglet] and the [Log] from it. *)

From Stdlib Require Import Ascii String.
From S2P Require Import Prelude Ordered Os AppendOnlyFile Codec KeyValues MonoMap SegmentNames LogConfig.
From S2P Require Import LogSegment LogSegments LogTypes LogEntryCache Indexes Loglet Log.

Local Open Scope Z_scope.
Local Open Scope prog_scope.

Definition BAD_FILE_NAME : Z := 2507.
Definition CANNOT_READ_FILE : Z := 2508.
Definition DELETE_DIR_SUFFIX : string := ".delete".

(** [std::filesystem::path::filename]: the last component. *)
Fixpoint filename_rev (acc rpath : list ascii) : list ascii :=
  match rpath with
  | [] => acc
  | "/"%char :: _ => acc
  | c :: rest => filename_rev (c :: acc) rest
  end.
Definition path_filename (path : string) : string :=
  string_of_list_ascii (filename_rev [] (rev (list_ascii_of_string path))).

(** The paths of one directory are ordered by the bytes of their names. *)
Definition path_le (a b : string) : Prop := String.leb a b = true.
#[export] Instance path_le_dec : RelDecision path_le.
Proof. unfold path_le. intros a b. apply _. Defined.

(** What the loader works on: the files, the two indexes and the segments so far. *)
Record loader : Type := LoaderState {
  ld_world : world;
  ld_ts : PersistentMonoMap TimestampSequence;
  ld_pos : PersistentMonoMap SequencePosition;
  ld_segments : LogSegments;
}.

Module Loader.
Section Loader.
(** The directory of the log and the permissions of its files. *)
Context (d : directory) (isReadable : string -> bool).

Definition disk {A} (k : M world A) : M loader A :=
  zoom ld_world (fun w s => LoaderState w (ld_ts s) (ld_pos s) (ld_segments s)) k.
Definition on_ts {A} (k : M (mono_state TimestampSequence) A) : M loader A :=
  zoom (fun s => MonoState (ld_world s) (ld_ts s))
       (fun t s => LoaderState (ms_world t) (ms_map t) (ld_pos s) (ld_segments s)) k.
Definition on_pos {A} (k : M (mono_state SequencePosition) A) : M loader A :=
  zoom (fun s => MonoState (ld_world s) (ld_pos s))
       (fun t s => LoaderState (ms_world t) (ld_ts s) (ms_map t) (ld_segments s)) k.
Definition put_segments (f : LogSegments -> LogSegments) : M loader unit :=
  modify (fun s => LoaderState (ld_world s) (ld_ts s) (ld_pos s) (f (ld_segments s))).

(** A call of the file system library that throws its errors. *)
Definition throwing {A} (k : M world A) : M world A :=
  r <- attempt k;;
  match r with
  | inl a => ret a
  | inr _ => throw STD_EXCEPTION
  end.

(** [auto [_, sn] = segmentIDAndSequenceFromFileName(filename)]: the second member
    of the result is its error code. *)
Definition parsed_code (filename : string) : Z :=
  match segmentIDAndSequenceFromFileName filename with
  | Some _ => 0
  | None => BAD_FILE_NAME
  end.

(** [removeTempFiles], over the files of the directory. *)
Fixpoint remove_temp_files (files : list string) : M loader unit :=
  match files with
  | [] => ret tt
  | path :: files =>
      if negb (isReadable path) then throw CANNOT_READ_FILE
      else
        let filename := path_filename path in
        (if ends_with DELETED_FILE_SUFFIX filename then
           disk (throwing (sys_remove path)) >>
           let sn := parsed_code filename in
           attempt (on_ts (TsIndex.trimHead d sn)) >>
           attempt (on_pos (PosIndex.trimHead d sn)) >> ret tt
         else ret tt) >>
        remove_temp_files files
  end.
Definition removeTempFiles : M loader unit :=
  files <- gets (fun s => dir_listing d (w_files (ld_world s)));;
  remove_temp_files files.

(** [loadSegmentFiles]: the log files in the order of their names. *)
Fixpoint load_segment_files (log_dir : string) (segfiles : list string) : M loader unit :=
  match segfiles with
  | [] => ret tt
  | segfile :: segfiles =>
      let filename := path_filename segfile in
      (if isLogFile filename then
         match segmentIDAndSequenceFromFileName filename with
         | None => ret tt
         | Some (segment_id, base_sn) =>
             segment <- disk (Segment.create log_dir segment_id base_sn true EmptyString);;
             put_segments (Segments.add segment)
         end
       else ret tt) >>
      load_segment_files log_dir segfiles
  end.
Definition loadSegmentFiles (log_dir : string) : M loader unit :=
  segfiles <- gets (fun s => dir_listing d (w_files (ld_world s)));;
  load_segment_files log_dir (merge_sort path_le segfiles).

(** The last position the index knows in the last segment, or its start; an error
    of the index is thrown. *)
Definition get_last_sn_pos (last_segment : LogSegment) : M loader SequencePosition :=
  r <- attempt (on_pos (PosIndex.lastIndexedSequencePosition d));;
  match r with
  | inr e => throw e
  | inl None => ret (mkSequencePosition (base_sn last_segment) 0)
  | inl (Some sn_pos) =>
      if sp_sn sn_pos <? base_sn last_segment then ret (mkSequencePosition (base_sn last_segment) 0)
      else ret (mkSequencePosition (sp_sn sn_pos) (segmentIDAndFilePosition (file_position sn_pos)).2)
  end.

(** [recoverLog]: the next sequence.  After a crash the last segment is recovered;
    errors of the trims are ignored. *)
Definition recoverLog (had_clean_shutdown : bool) : M loader Z :=
  segs <- gets ld_segments;;
  last_segment <- defined (Segments.lastSegment segs);;
  last_sn_pos <- get_last_sn_pos last_segment;;
  if had_clean_shutdown then
    disk (Segment.readNextSequence last_segment (file_position last_sn_pos) (sp_sn last_sn_pos))
  else
    r <- attempt (disk (Segment.recover last_segment last_sn_pos));;
    match r with
    | inr e => throw e
    | inl (next_sn, trimmed_bytes, last_segment) =>
        put_segments (Segments.add last_segment) >>
        (if 0 <? trimmed_bytes then
           attempt (on_ts (TsIndex.trim d next_sn)) >>
           attempt (on_pos (PosIndex.trim d next_sn)) >> ret tt
         else ret tt) >>
        ret next_sn
    end.

Definition load (log_dir : string) (had_clean_shutdown : bool) : M loader LogSequenceMetadata :=
  removeTempFiles >>
  loadSegmentFiles log_dir >>
  segs <- gets ld_segments;;
  next_sn <- (if negb (Segments.empty segs) then
                if String.eqb (extension log_dir) DELETE_DIR_SUFFIX then ret 0
                else recoverLog had_clean_shutdown
              else
                segment <- disk (Segment.create log_dir SegmentStartID LogStartSN false EmptyString);;
                put_segments (Segments.add segment) >>
                ret LogStartSN);;
  segs <- gets ld_segments;;
  active_segment <- defined (Segments.lastSegment segs);;
  ret (mkLogSequenceMetadata next_sn (Some (base_sn active_segment)) (Some (Segment.size active_segment))).

(** The constructor of [Loglet]: the largest event time starts at the last one that
    was indexed. *)
Definition new_loglet (log_dir parent_dir : string) (config : LogConfig) (next_sn_meta : LogSequenceMetadata)
  : M loader Loglet :=
  r <- attempt (on_ts (TsIndex.lastIndexedTimestampSequence d));;
  match r with
  | inr e => throw e
  | inl last_ts =>
      s <- gets (fun s => s);;
      ret (mkLoglet log_dir parent_dir config (ld_segments s) next_sn_meta (entry_sn next_sn_meta - 1) 0
             (default (mkTimestampSequence 0 0) last_ts) 0 (ld_ts s) (ld_pos s) [])
  end.

(** The part of [Log::create] behind the indexes: the segments, the loglet and the
    log. *)
Definition load_log (log_dir parent_dir : string) (config : LogConfig) (had_clean_shutdown : bool)
    (epoch_sn_index : PersistentMonoMap EpochSequence) (event_ts_sn_index : PersistentMonoMap TimestampSequence)
    (sn_pos_index : PersistentMonoMap SequencePosition) : M world log_state :=
  fun w =>
    match (next_sn_meta <- load log_dir had_clean_shutdown;;
           new_loglet log_dir parent_dir config next_sn_meta)
            (LoaderState w event_ts_sn_index sn_pos_index []) with
    | (Ok ll, s) =>
        match Segments.firstSegment (segments ll) with
        | Some first_segment =>
            let w := ld_world s in
            (Ok (LogState w (Lg.create (base_sn first_segment) epoch_sn_index ll)), w)
        | None => (Undef, ld_world s)
        end
    | (Err e, s) => (Err e, ld_world s)
    | (Exn e, s) => (Exn e, ld_world s)
    | (Undef, s) => (Undef, ld_world s)
    end.

(** [Log::create]: the directory, the three indexes and what they are for. *)
Definition create (log_dir parent_dir : string) (config : LogConfig) (had_clean_shutdown : bool)
  : M world log_state :=
  throwing (syscall (ret tt)) >>
  epoch_sn_index <- EpochIndex.create log_dir (Z.to_nat (leader_epoch_index_log_size config));;
  event_ts_sn_index <- TsIndex.create log_dir (Z.to_nat (timestamp_index_log_size config));;
  sn_pos_index <- PosIndex.create log_dir (Z.to_nat (log_position_index_log_size config));;
  load_log log_dir parent_dir config had_clean_shutdown epoch_sn_index event_ts_sn_index sn_pos_index.

(** [removeSegmentsSync]: the new start is the given one, or the base of the last
    segment that is left. *)
Definition removeSegmentsSync (segments_to_remove : list LogSegment) (new_start_sn : option Z) : M loader unit :=
  put_segments (fun all => foldl (fun all seg => Segments.remove (base_sn seg) all) all segments_to_remove) >>
  segs <- gets ld_segments;;
  start <- (match new_start_sn with
            | Some sn => ret sn
            | None => seg <- defined (Segments.lastSegment segs);; ret (base_sn seg)
            end);;
  attempt (on_ts (TsIndex.trimHead d start)) >>
  attempt (on_pos (PosIndex.trimHead d start)) >>
  disk (Lglt.remove_each segments_to_remove).

End Loader.
End Loader.
