(* ===== verification/LogletRep.v ===== *)
(** * What a loglet holds, and its lookups

    [log_rep w l ess next]: the segments of [l] hold the entries [ess], one list per
    segment, numbered without gaps up to [next], and the sequence index points at
    entries.  Under it a sequence number is translated to its position, with or
    without the help of the index. *)

From S2P Require Import Prelude Ordered Os AppendOnlyFile Codec KeyValues MonoMap MonoMapLoad MonoMapRep.
From S2P Require Import Entry FileLogEntries FleSpec SegmentNames LogConfig LogSegment SegmentSpec.
From S2P Require Import LogSegments LogTypes IndexSpec Indexes Loglet.

Local Open Scope Z_scope.

(** ** Sequence numbers and positions *)

(** The entries of a segment have the numbers from its base on, and the base of the
    next segment, or [next] behind the last one, follows. *)
Definition numbered (segs : LogSegments) (ess : list (list Entry)) (next : Z) : Prop :=
  forall i b seg es, segs !! i = Some (b, seg) -> ess !! i = Some es ->
    sn <$> es = seqZ b (Z.of_nat (length es)) /\
    match segs !! S i with Some (b', _) => b' | None => next end = b + Z.of_nat (length es).

Lemma numbered_lookup segs ess next i b seg es j e :
  numbered segs ess next -> segs !! i = Some (b, seg) -> ess !! i = Some es -> es !! j = Some e ->
  sn e = b + Z.of_nat j.
Proof.
  intros Hn Hs He Hj. destruct (Hn _ _ _ _ Hs He) as [Hsn _].
  assert (Hl : (sn <$> es) !! j = Some (sn e)) by (by rewrite list_lookup_fmap, Hj).
  rewrite Hsn in Hl. apply lookup_seqZ in Hl. lia.
Qed.

Lemma seqZ_increasing es b : sn <$> es = seqZ b (Z.of_nat (length es)) -> sn_increasing es.
Proof.
  unfold sn_increasing. revert b. induction es as [|e es IH]; intros b Hsn; [constructor|].
  rewrite seqZ_cons in Hsn by (cbn [length]; lia). cbn [length fmap list_fmap] in Hsn. injection Hsn as He Hes.
  replace (Z.pred _) with (Z.of_nat (length es)) in Hes by lia. constructor; [by eapply IH|].
  assert (Hall : Forall (fun m => sn e < m) (sn <$> es)).
  { rewrite Hes. apply Forall_seqZ. lia. }
  by rewrite Forall_fmap in Hall.
Qed.

(** A cut of a segment is a cut of its sequence numbers. *)
Lemma numbered_cut segs ess next i b seg ea eb :
  numbered segs ess next -> segs !! i = Some (b, seg) -> ess !! i = Some (ea ++ eb) ->
  Forall (fun x => b <= sn x < b + Z.of_nat (length ea)) ea /\
  Forall (fun x => b + Z.of_nat (length ea) <= sn x) eb.
Proof.
  intros Hn Hs He. split; apply Forall_lookup; intros j x Hj.
  - rewrite (numbered_lookup _ _ _ _ _ _ _ j x Hn Hs He) by (by apply lookup_app_l_Some).
    apply lookup_lt_Some in Hj. lia.
  - rewrite (numbered_lookup _ _ _ _ _ _ _ (length ea + j) x Hn Hs He); [lia|].
    rewrite lookup_app_r by lia. by rewrite Nat.add_sub_swap, Nat.sub_diag by lia.
Qed.

(** An entry of the log, with what is before and behind it in its segment. *)
Record entry_at (segs : LogSegments) (ess : list (list Entry)) (seg : LogSegment)
    (es1 : list Entry) (e : Entry) (es2 : list Entry) : Prop := {
  ea_index : exists i, segs !! i = Some (base_sn seg, seg) /\ ess !! i = Some (es1 ++ e :: es2);
}.

(** A position of the sequence index points at an entry, or into a segment that was
    before the first one: deleting old segments leaves the index alone. *)
Definition points (segs : LogSegments) (ess : list (list Entry)) (sp : SequencePosition) : Prop :=
  (exists seg es1 e es2, entry_at segs ess seg es1 e es2 /\ sn e = sp_sn sp /\
    file_position sp = globalSegmentFilePosition (seg_id seg) (size_of es1)) \/
  Forall (fun x => (segmentIDAndFilePosition (file_position sp)).1 < seg_id x.2 /\ sp_sn sp < x.1) segs.

Definition pos_name (l : Loglet) : string := log_dir l +:+ "/sn-pos.idx".
Definition ts_name (l : Loglet) : string := log_dir l +:+ "/ts-sn.idx".

(** The segments and their files. *)
Record segs_rep (w : world) (dir : string) (segs : LogSegments) (ess : list (list Entry)) (next : Z) : Prop := {
  lr_wf : Segments.wf segs;
  lr_files : Forall2 (fun x es => segment_on w x.2 (encode_entries es)) segs ess;
  lr_named : Forall (fun x => Segment.filename x.2 = logFile dir (seg_id x.2) (base_sn x.2) EmptyString)
    segs;
  lr_entries : Forall (Forall (fun e => sized e /\ meta_fits e)) ess;
  lr_numbered : numbered segs ess next;
  lr_ids : StronglySorted (fun a b => seg_id a.2 < seg_id b.2) segs;
  lr_id_range : Forall (fun x => 0 <= seg_id x.2 < 2 ^ 28) segs;
  lr_base_range : Forall (fun x => i64 x.1) segs;
  lr_small : Forall (fun es => size_of es < 2 ^ 36) ess;
}.
Arguments lr_wf {w dir segs ess next}.
Arguments lr_files {w dir segs ess next}.
Arguments lr_named {w dir segs ess next}.
Arguments lr_entries {w dir segs ess next}.
Arguments lr_numbered {w dir segs ess next}.
Arguments lr_ids {w dir segs ess next}.
Arguments lr_id_range {w dir segs ess next}.
Arguments lr_base_range {w dir segs ess next}.
Arguments lr_small {w dir segs ess next}.

(** The next sequence number, with the end of the active segment. *)
Definition next_meta (l : Loglet) (ess : list (list Entry)) (next : Z) : Prop :=
  exists b seg es, last (segments l) = Some (b, seg) /\ last ess = Some es /\
    next_sn_meta l = mkLogSequenceMetadata next (Some b) (Some (size_of es)).

(** The timestamps that were indexed are not above the largest one so far; this starts
    at zero. *)
Record times_below (m : TimestampSequence) (next : Z) (ts : list TimestampSequence) : Prop := {
  tb_below : Forall (fun x => x = m \/ timestamp x < timestamp m /\ ts_sn x < ts_sn m) ts;
  tb_valid : kv_valid m;
  tb_next : ts_sn m < next;
  tb_time : 0 <= timestamp m;
  tb_times : Forall (fun x => 0 <= timestamp x) ts;
}.

(** The indexes. *)
Record indexes_rep (w : world) (l : Loglet) (ess : list (list Entry)) (next : Z) : Prop := {
  lr_pos : exists ps, index_of (pos_name l) ps (MonoState w (sn_pos_index l)) /\
    Forall (points (segments l) ess) ps;
  lr_ts : exists ts, index_of (ts_name l) ts (MonoState w (event_ts_sn_index l)) /\
    times_below (max_etimestamp_and_sn_so_far l) next ts;
}.

Record log_rep (w : world) (l : Loglet) (ess : list (list Entry)) (next : Z) : Prop := {
  lr_segs :> segs_rep w (log_dir l) (segments l) ess next;
  lr_next : next_meta l ess next;
  lr_indexes :> indexes_rep w l ess next;
}.

Arguments lr_segs {w l ess next}.
Arguments lr_next {w l ess next}.
Arguments lr_pos {w l ess next}.
Arguments lr_ts {w l ess next}.

Section Rep.
Context {w : world} {dir : string} {segs : LogSegments} {ess : list (list Entry)} {next : Z}
  (HL : segs_rep w dir segs ess next).
Implicit Types (seg : LogSegment) (es : list Entry).

Lemma rep_segment i b seg es :
  segs !! i = Some (b, seg) -> ess !! i = Some es ->
  b = base_sn seg /\ segment_on w seg (encode_entries es) /\ Forall sized es /\ Forall meta_fits es /\
  0 <= seg_id seg < 2 ^ 28 /\ size_of es < 2 ^ 36.
Proof.
  intros Hs He. destruct HL as [[_ Hb] Hf _ Hen _ _ Hid _ Hsm].
  pose proof (Forall_lookup_1 _ _ _ _ Hb Hs) as Hbs. pose proof (Forall_lookup_1 _ _ _ _ Hen He) as Hes.
  pose proof (Forall_lookup_1 _ _ _ _ Hid Hs) as Hids. pose proof (Forall_lookup_1 _ _ _ _ Hsm He) as Hsms.
  pose proof (Forall2_lookup_lr _ _ _ _ _ _ Hf Hs He) as Hon.
  split_and!; [done|done|..].
  - eapply Forall_impl; [exact Hes|]. by intros ? [? _].
  - eapply Forall_impl; [exact Hes|]. by intros ? [_ ?].
  - apply Hids.
  - apply Hids.
  - done.
Qed.

Lemma rep_ess_lookup i b seg : segs !! i = Some (b, seg) -> exists es, ess !! i = Some es.
Proof.
  intros Hs. pose proof (Forall2_length _ _ _ (lr_files HL)) as Hl.
  apply lookup_lt_is_Some. rewrite <- Hl. by apply lookup_lt_is_Some.
Qed.

(** A sequence number of the log is found in the segment at or below it. *)
Lemma floor_entry target seg :
  Segments.floorSegment target segs = Some seg -> target < next ->
  exists es1 e es2, entry_at segs ess seg es1 e es2 /\ sn e = target.
Proof.
  intros Hfl Hlt. rewrite (Segments.floorSegment_spec _ _ (lr_wf HL)) in Hfl.
  destruct (last (filter _ _)) as [[b seg']|] eqn:Hlast; cbn in Hfl; [|done]. simplify_eq.
  pose proof (Segments.wf_sorted _ (lr_wf HL)) as Hsorted. rewrite om_upto in Hlast by done.
  pose proof (partition_point_le (fun x => x.1 <=? target) segs) as Hle.
  fold (om_upper_bound target segs) in Hle.
  set (n := om_upper_bound target segs) in *.
  rewrite last_lookup, length_take, Nat.min_l in Hlast by done.
  apply lookup_take_Some in Hlast as [Hs Hn].
  destruct (rep_ess_lookup _ _ _ Hs) as [es He]. destruct (rep_segment _ _ _ _ Hs He) as (-> & _).
  destruct (lr_numbered HL _ _ _ _ Hs He) as [Hsn Hnext].
  assert (Hb : base_sn seg <= target).
  { pose proof (partition_point_before (fun x => x.1 <=? target) segs) as Hall.
    fold (om_upper_bound target segs) n in Hall. rewrite Forall_lookup in Hall.
    specialize (Hall (pred n) (base_sn seg, seg)). rewrite lookup_take_lt in Hall by done.
    specialize (Hall Hs). cbn in Hall. lia. }
  assert (Ht : target < base_sn seg + Z.of_nat (length es)).
  { rewrite <- Hnext. replace (S (pred n)) with n by lia.
    destruct (segs !! n) as [[b' s']|] eqn:Hs'; [|done].
    apply partition_point_at in Hs'. cbn in Hs'. lia. }
  destruct (lookup_lt_is_Some_2 es (Z.to_nat (target - base_sn seg))) as [e Hj]; [lia|].
  exists (take (Z.to_nat (target - base_sn seg)) es), e, (drop (S (Z.to_nat (target - base_sn seg))) es).
  split; [split; exists (pred n); split; [done|]; by rewrite take_drop_middle|].
  rewrite (numbered_lookup _ _ _ _ _ _ _ _ _ (lr_numbered HL) Hs He Hj). lia.
Qed.

(** Two entries of the same segment: where the second is, seen from the first. *)
Lemma entry_at_same seg es1 e es2 es1' e' es2' :
  entry_at segs ess seg es1 e es2 -> entry_at segs ess seg es1' e' es2' ->
  es1 ++ e :: es2 = es1' ++ e' :: es2' /\
  (sn e' <= sn e -> exists mid, es1 = es1' ++ mid /\ e' :: es2' = mid ++ e :: es2 /\
     (sn e' = sn e <-> mid = [])).
Proof.
  intros [(i & Hs & He)] [(i' & Hs' & He')].
  assert (i = i') as <-.
  { eapply sorted_lookup_inj; [apply (lr_wf HL)|done|done|cbn; lia..]. }
  rewrite He in He'. injection He' as Heq. split; [done|]. intros Hle.
  pose proof (lr_numbered HL) as Hn.
  pose proof (numbered_lookup _ _ _ _ _ _ _ (length es1) e Hn Hs He) as H1.
  rewrite list_lookup_middle in H1 by done. specialize (H1 eq_refl).
  rewrite Heq in He.
  pose proof (numbered_lookup _ _ _ _ _ _ _ (length es1') e' Hn Hs He) as H2.
  rewrite list_lookup_middle in H2 by done. specialize (H2 eq_refl).
  apply app_eq_inv in Heq as [(k & -> & Hk)|(k & -> & Hk)].
  - exists k. rewrite length_app in H1. split_and!; [done|done|]. rewrite H1, H2.
    destruct k; cbn; split; intros; [done|lia|lia|done].
  - rewrite length_app in H2. assert (k = []) as -> by (destruct k; [done|cbn in H2; lia]).
    exists []. rewrite !app_nil_r in *. split_and!; [done|by rewrite Hk|]. split; [done|]. lia.
Qed.

(** Segments are told apart by their ids. *)
Lemma entry_at_id seg es1 e es2 seg' es1' e' es2' :
  entry_at segs ess seg es1 e es2 -> entry_at segs ess seg' es1' e' es2' ->
  seg_id seg = seg_id seg' -> seg' = seg.
Proof.
  intros [(i & Hs & _)] [(i' & Hs' & _)] Hid.
  assert (i = i') as <- by (eapply sorted_lookup_inj; [apply (lr_ids HL)|done|done|cbn; lia..]).
  congruence.
Qed.
End Rep.

(** The segments depend on their own files only. *)
Lemma segs_rep_frame w dir segs ess next w' :
  segs_rep w dir segs ess next ->
  (forall x, x ∈ segs -> w_files w' !! Segment.filename x.2 = w_files w !! Segment.filename x.2) ->
  segs_rep w' dir segs ess next.
Proof.
  intros [] Hfs. split; try done.
  apply Forall2_same_length_lookup in lr_files0 as [Hlen Hon].
  apply Forall2_same_length_lookup. split; [done|]. intros i x es Hi He.
  eapply segment_on_world; [by eapply Hon|]. rewrite Hfs by (by eapply list_elem_of_lookup_2).
  eapply segment_on_filename. by eapply Hon.
Qed.

(** ** Operations that only look *)

(** The loglet stays, but for rolled segments its sequence index may have loaded. *)
Record log_stays (w0 w : world) (l : Loglet) (ess : list (list Entry)) (next : Z) (s : loglet_state)
  : Prop := {
  ls_rep : log_rep (ls_world s) (ls_loglet s) ess next;
  ls_evolves : evolves w0 (ls_world s);
  ls_files : w_files (ls_world s) = w_files w;
  ls_same : exists ix, ls_loglet s = set_sn_pos_index ix l;
  ls_searchable : searchable (sn_pos_index l) -> searchable (sn_pos_index (ls_loglet s));
  ls_unrolled : unrolled (sn_pos_index l) -> unrolled (sn_pos_index (ls_loglet s));
  ls_ids : ids_grow 0 (sn_pos_index l) (sn_pos_index (ls_loglet s));
}.

Arguments ls_rep {w0 w l ess next s}.
Arguments ls_evolves {w0 w l ess next s}.
Arguments ls_files {w0 w l ess next s}.
Arguments ls_same {w0 w l ess next s}.
Arguments ls_searchable {w0 w l ess next s}.
Arguments ls_unrolled {w0 w l ess next s}.
Arguments ls_ids {w0 w l ess next s}.

Lemma log_stays_refl w0 w l ess next :
  log_rep w l ess next -> evolves w0 w -> log_stays w0 w l ess next (LogletState w l).
Proof.
  intros HL Hev. split; [done|done|done| |done|done|by apply ids_grow_refl]. exists (sn_pos_index l). by destruct l.
Qed.

Lemma log_rep_world w l ess next w' ix ps :
  log_rep w l ess next -> w_files w' = w_files w ->
  index_of (pos_name l) ps (MonoState w' ix) -> Forall (points (segments l) ess) ps ->
  log_rep w' (set_sn_pos_index ix l) ess next.
Proof.
  intros [Hsegs Hn [_ (ts & Hts & Htb)]] Hfs Hix Hps. split; [|done|split; [by exists ps|]].
  - eapply segs_rep_frame; [exact Hsegs|]. intros x _. by rewrite Hfs.
  - exists ts. split; [|done]. eapply index_of_frame; [exact Hts|]. intros f _. by rewrite Hfs.
Qed.

Lemma log_stays_world w0 w l ess next s w' :
  log_stays w0 w l ess next s -> evolves w0 w' -> w_files w' = w_files (ls_world s) ->
  log_stays w0 w l ess next (LogletState w' (ls_loglet s)).
Proof.
  intros [HL Hev Hfs Hsame Hse Hun Hids] Hev' Hfs'. split; cbn; [|done|congruence|done|done|done|done].
  destruct (lr_pos HL) as (ps & Hio & Hps).
  replace (ls_loglet s) with (set_sn_pos_index (sn_pos_index (ls_loglet s)) (ls_loglet s))
    by (by destruct (ls_loglet s)).
  eapply log_rep_world; [done|done| |done]. eapply index_of_frame; [exact Hio|]. intros f _. by rewrite Hfs'.
Qed.

Section Looking.
Context (d : directory) (w0 : world) (w : world) (l : Loglet) (ess : list (list Entry)) (next : Z).

Lemma log_stays_index s ps t :
  log_stays w0 w l ess next s -> Forall (points (segments l) ess) ps ->
  index_stays w0 (pos_name l) ps (MonoState (ls_world s) (sn_pos_index (ls_loglet s))) t ->
  log_stays w0 w l ess next (LogletState (ms_world t) (set_sn_pos_index (ms_map t) (ls_loglet s))).
Proof.
  intros [HL Hev Hfs [ix Hix] Hse Hun Hids] Hps (Hio & Hev' & Hfs' & Hse' & Hun' & Hids'). cbn in Hfs', Hse', Hun', Hids'.
  split; cbn; [|done|congruence|exists (ms_map t); by rewrite Hix|auto|auto|exact (ids_grow_trans 0 0 _ _ _ ltac:(lia) Hids Hids')].
  eapply log_rep_world; [exact HL|done| |]; rewrite Hix; cbn; [|exact Hps].
  by destruct t.
Qed.

(** Searching a segment from the position of an entry at or below the target. *)
Lemma wp_search_from s seg es1 e es2 es1' e' es2' (Q : option LogSequencePosition -> loglet_state -> Prop) E :
  log_stays w0 w l ess next s ->
  entry_at (segments l) ess seg es1 e es2 -> es1 ++ e :: es2 = es1' ++ e' :: es2' ->
  (exists mid, es1 = es1' ++ mid /\ e' :: es2' = mid ++ e :: es2) ->
  (forall r s', log_stays w0 w l ess next s' ->
     r = Some (mkLogSequencePosition (sn e) (size_of es1) (serializedSize e)) \/ (r = None /\ ~ benign w0) -> Q r s') ->
  wp (Lglt.disk (Segment.translateSequence seg (sn e) (size_of es1'))) Q E s.
Proof.
  intros Hst Hat Heq (mid & Hes1 & Hmid) HQ. apply wp_zoom.
  destruct Hat as [(i & Hs & He)]. pose proof (ls_rep Hst) as HL.
  assert (Hsegs : segments (ls_loglet s) = segments l) by (destruct (ls_same Hst) as [ix ->]; done).
  rewrite <- Hsegs in Hs. destruct (rep_segment HL _ _ _ _ Hs He) as (_ & Hon & Hsz & Hfit & _ & Hsm).
  pose proof (numbered_lookup _ _ _ _ _ _ _ (length es1) e (lr_numbered HL) Hs He
    ltac:(by apply list_lookup_middle)) as Hsne.
  unfold size_of.
  apply (wp_search w0) with (c := encode_entries (es1 ++ e :: es2))
    (start := length (encode_entries es1')) (es := e' :: es2');
    [apply Hst|by apply segment_on_readable| | | | | |].
  - by rewrite Heq, encode_entries_app, drop_app_length.
  - rewrite Heq, encode_entries_app, length_app. lia.
  - rewrite Heq in Hsz. by apply Forall_app in Hsz as [_ ?].
  - rewrite Heq in Hfit. by apply Forall_app in Hfit as [_ ?].
  - rewrite (sr_end _ _ _ Hon). unfold size_of in Hsm. lia.
  - intros r w' Hev' Hfs' Hr. apply HQ; [by apply log_stays_world|].
    destruct Hr as [->|]; [left|by right]. rewrite Hmid, locate_middle.
    + do 2 f_equal. rewrite Hes1. unfold size_of. rewrite encode_entries_app, length_app. lia.
    + rewrite Hes1, <- app_assoc in Hsz. apply Forall_app in Hsz as [_ Hsz]. by apply Forall_app in Hsz as [? _].
    + apply Forall_lookup. intros j x Hj.
      pose proof (numbered_lookup _ _ _ _ _ _ _ (length es1' + j) x (lr_numbered HL) Hs He) as Hx.
      rewrite Hes1, <- app_assoc, lookup_app_r, Nat.add_sub_swap, Nat.sub_diag, lookup_app_l in Hx
        by (try apply lookup_lt_Some in Hj; lia).
      specialize (Hx Hj). apply lookup_lt_Some in Hj. rewrite Hes1, length_app in Hsne. lia.
Qed.

(** [translateSequence] finds the position of an entry of the segment; the size it
    reports is that of the entry, or zero when the index had the position. *)
Lemma wp_translateSequence s seg es1 e es2 (Q : option LogSequencePosition -> loglet_state -> Prop) E :
  log_stays w0 w l ess next s -> entry_at (segments l) ess seg es1 e es2 ->
  (forall r s', log_stays w0 w l ess next s' ->
     (exists sz, r = Some (mkLogSequencePosition (sn e) (size_of es1) sz) /\
        (sz = 0 \/ sz = serializedSize e)) \/ (r = None /\ ~ benign w0) -> Q r s') ->
  (forall x s', log_stays w0 w l ess next s' -> ~ benign w0 -> E x s') ->
  wp (Lglt.translateSequence d seg (sn e)) Q E s.
Proof.
  intros Hst Hat HQ HE. pose proof (ls_rep Hst) as HL.
  destruct (ls_same Hst) as [ix Hsame].
  assert (Hname : pos_name (ls_loglet s) = pos_name l) by (by rewrite Hsame).
  assert (Hsegs : segments (ls_loglet s) = segments l) by (by rewrite Hsame).
  destruct (lr_pos HL) as (ps & Hio & Hps). rewrite Hname in Hio. rewrite Hsegs in Hps.
  assert (Hstart : forall s', log_stays w0 w l ess next s' ->
    wp (Lglt.disk (Segment.translateSequence seg (sn e) 0)) Q E s').
  { intros s' Hs'. change 0 with (size_of []).
    destruct (es1 ++ e :: es2) as [|e' es2'] eqn:Heq; [by destruct es1|].
    eapply (wp_search_from s' seg es1 e es2 [] e' es2'); [done|done|done|by exists es1|].
    intros r s'' Hs'' Hr. apply HQ; [done|]. destruct Hr as [->|]; [left; eauto|by right]. }
  unfold Lglt.translateSequence. apply wp_bind, wp_attempt, wp_zoom.
  eapply wp_index_leftLowerBound; [exact Hio|apply Hst| |].
  2: { intros x t Ht Hb. pose proof (log_stays_index _ _ _ Hst Hps Ht) as Hs'.
       destruct x as [code|code]; [by apply Hstart|by apply HE]. }
  intros t Ht. pose proof (log_stays_index _ _ _ Hst Hps Ht) as Hs'.
  destruct (last (filter _ ps)) as [sp|] eqn:Hlast; [|by apply Hstart].
  apply last_Some in Hlast as [ps' Hlast].
  assert (Hin : sp ∈ filter (fun x => key x <= sn e) ps)
    by (rewrite Hlast; apply elem_of_app; right; by apply list_elem_of_singleton).
  apply list_elem_of_filter in Hin as [Hle Hin]. change (key sp) with (sp_sn sp) in Hle.
  assert (Hid0 : to_u64 (seg_id seg) = seg_id seg).
  { pose proof Hat as [(j & Hj & Hej)]. rewrite <- Hsegs in Hj.
    destruct (rep_segment HL _ _ _ _ Hj Hej) as (_ & _ & _ & _ & Hid' & _).
    unfold to_u64. rewrite Z.mod_small; lia. }
  rewrite Hid0.
  rewrite Forall_forall in Hps. destruct (Hps sp Hin) as [(seg' & es1' & e' & es2' & Hat' & Hsn' & ->)|Hgone].
  2: { pose proof Hat as [(j & Hj & _)]. pose proof (Forall_lookup_1 _ _ _ _ Hgone Hj) as [Hne _]. cbn [snd] in Hne.
       destruct (segmentIDAndFilePosition _) as [id p]. rewrite (proj2 (Z.eqb_neq _ _)) by (cbn [fst] in Hne; lia).
       by apply Hstart. }
  pose proof Hat' as [(i' & Hi' & He')]. rewrite <- Hsegs in Hi'.
  destruct (rep_segment HL _ _ _ _ Hi' He') as (_ & _ & _ & _ & Hid & Hsm).
  rewrite size_of_app in Hsm. pose proof (size_of_nonneg es1'). pose proof (size_of_nonneg (e' :: es2')).
  rewrite position_decode by lia.
  destruct (Z.eqb_spec (seg_id seg') (seg_id seg)) as [Hseg|]; [|by apply Hstart].
  rewrite <- Hsegs in Hat, Hat'.
  assert (seg' = seg) as -> by (by apply (entry_at_id HL _ _ _ _ _ _ _ _ Hat Hat')).
  destruct (entry_at_same HL _ _ _ _ _ _ _ Hat Hat') as (Heq & Hmid).
  destruct Hmid as (mid & Hes1 & Hm & Hiff); [lia|].
  destruct (Z.eqb_spec (sp_sn sp) (sn e)) as [Hex|].
  - apply wp_ret, HQ; [done|]. left. exists 0. split; [|by left].
    assert (mid = []) as -> by (apply Hiff; lia). by rewrite Hes1, app_nil_r.
  - rewrite Hsegs in Hat. eapply wp_search_from; [exact Hs'|exact Hat|exact Heq|by exists mid|].
    intros r s'' Hs'' Hr. apply HQ; [done|]. destruct Hr as [->|]; [left; eauto|by right].
Qed.
End Looking.
