(* ===== verification/LogletFetch.v ===== *)
(** * Fetching from a loglet

    A fetch returns the entries of one segment from the requested sequence number
    on, and a hint with which the next fetch goes on right behind them. *)

From S2P Require Import Prelude Ordered Os AppendOnlyFile Codec KeyValues MonoMap MonoMapLoad MonoMapRep.
From S2P Require Import Entry FileLogEntries FleSpec SegmentNames LogConfig LogSegment SegmentSpec.
From S2P Require Import LogSegments LogTypes IndexSpec Indexes Loglet LogletRep.

Local Open Scope Z_scope.

(** A run of entries cut at [max_size] bytes, or where [max_sn] is reached, gives the
    same as the whole run. *)
Lemma take_entries_cut max_sn max_size es rest :
  Forall sized es ->
  (max_size <= size_of es /\ es <> []) \/ Forall (fun x => max_sn <= sn x) rest ->
  take_entries max_sn max_size (es ++ rest) = take_entries max_sn max_size es.
Proof.
  intros Hs. revert max_size. induction Hs as [|e es He Hs IH]; intros max_size Hcut; cbn [app take_entries].
  - destruct Hcut as [[_ ?]|Hr]; [done|]. destruct Hr as [|x rest Hx _]; [done|]. cbn.
    by rewrite (proj2 (Z.ltb_ge _ _)).
  - destruct (sn e <? max_sn); [|done]. destruct (Z.leb_spec max_size (serializedSize e)); [done|].
    f_equal. apply IH. destruct Hcut as [[Hsz _]|]; [|by right]. left.
    rewrite size_of_cons in Hsz by done. split; [lia|]. intros ->. change (size_of []) with 0 in Hsz. lia.
Qed.

Section Fetch.
Context (d : directory) (w0 : world) (w : world) (l : Loglet) (ess : list (list Entry)) (next : Z).
Context (seg : LogSegment) (es1 : list Entry) (e : Entry) (es2 : list Entry).
Context (Hat : entry_at (segments l) ess seg es1 e es2).

(** A slice of the segment that starts at [e] and holds [es]: as much as was asked
    for, or all there is below the limit [m]. *)
Record slice_of (max_size : Z) (m : list Entry) (fle : FileLogEntries) (es : list Entry) : Prop := {
  so_file : file fle = file (log seg);
  so_start : start_pos fle = size_of es1;
  so_end : end_pos fle = size_of (es1 ++ es);
  so_prefix : es `prefix_of` e :: es2;
  so_nonempty : es <> [];
  so_enough : m `prefix_of` es \/ max_size <= size_of es;
}.

Lemma wp_slice s sz es max_size m (Q : option FileLogEntries -> loglet_state -> Prop) E :
  log_stays w0 w l ess next s -> es `prefix_of` e :: es2 -> es <> [] ->
  (m `prefix_of` es \/ max_size <= size_of es) -> sz = size_of es ->
  (forall fle s', log_stays w0 w l ess next s' -> slice_of max_size m fle es -> Q (Some fle) s') ->
  (forall x s', log_stays w0 w l ess next s' -> ~ benign w0 -> E x s') ->
  wp (bind (Lglt.disk (Segment.fetch seg (size_of es1) sz)) (fun r => ret (Some r))) Q E s.
Proof.
  intros Hst Hpre Hne Hen -> HQ HE. destruct Hat as [(i & Hs & He)].
  pose proof (ls_rep Hst) as HL.
  assert (Hsegs : segments (ls_loglet s) = segments l) by (destruct (ls_same Hst) as [ix ->]; done).
  rewrite <- Hsegs in Hs. destruct (rep_segment HL _ _ _ _ Hs He) as (_ & Hon & Hsz & _).
  assert (Hpos : 0 < size_of es).
  { destruct es as [|x es]; [done|]. destruct Hpre as [rest Hpre]. injection Hpre as -> _.
    unfold size_of. rewrite encode_entries_cons, length_app, length_serialize_to. lia. }
  apply wp_bind, wp_zoom. eapply (wp_seg_fetch w0); [apply Hst|exact Hon|apply size_of_nonneg|done| |].
  - intros w' Hev' Hfs'. apply wp_ret, HQ; [by apply log_stays_world|].
    destruct Hpre as [rest Hpre]. split; cbn; try done; [|by exists rest].
    rewrite Hpre, !encode_entries_app, !length_app, size_of_app. unfold size_of. lia.
  - intros x w' Hev' Hfs' Hb. apply HE; [by apply log_stays_world|done].
Qed.

(** A position of the index in this segment that is at least [n] bytes behind [e]. *)
Lemma cut_at_index s ps sp n :
  log_stays w0 w l ess next s -> Forall (points (segments l) ess) ps -> 0 < n ->
  0 <= size_of es1 + n < 2 ^ 36 ->
  head (filter (fun x => globalSegmentFilePosition (seg_id seg) (size_of es1 + n) <= value x) ps) = Some sp ->
  let '(id, p) := segmentIDAndFilePosition (file_position sp) in
  id = seg_id seg ->
  exists es, es `prefix_of` e :: es2 /\ es <> [] /\ p = size_of es1 + size_of es /\ n <= size_of es.
Proof.
  intros Hst Hps Hn Hrange Hhd. pose proof (ls_rep Hst) as HL.
  assert (Hsegs : segments (ls_loglet s) = segments l) by (destruct (ls_same Hst) as [ix ->]; done).
  assert (Hin : sp ∈ filter (fun x => globalSegmentFilePosition (seg_id seg) (size_of es1 + n) <= value x) ps).
  { destruct (filter _ ps); cbn in Hhd; simplify_eq. by left. }
  apply list_elem_of_filter in Hin as [Hle Hin]. change (value sp) with (file_position sp) in Hle.
  rewrite Forall_forall in Hps. destruct (Hps sp Hin) as [(seg' & es1' & e' & es2' & Hat' & Hsn' & Hfp)|Hgone].
  2: { pose proof Hat as [(j & Hj & _)]. pose proof (Forall_lookup_1 _ _ _ _ Hgone Hj) as [Hne _]. cbn [snd] in Hne.
       destruct (segmentIDAndFilePosition _) as [id p]. cbn [fst] in Hne. intros ->. lia. }
  rewrite Hfp in Hle |- *. rewrite <- Hsegs in Hat, Hat'.
  pose proof Hat' as [(i' & Hi' & He')].
  destruct (rep_segment HL _ _ _ _ Hi' He') as (_ & _ & _ & _ & Hid' & Hsm').
  pose proof Hat as [(i & Hi & He)].
  destruct (rep_segment HL _ _ _ _ Hi He) as (_ & _ & Hsz & _ & Hid & Hsm).
  rewrite size_of_app in Hsm'. pose proof (size_of_nonneg es1') as H0.
  pose proof (size_of_nonneg (e' :: es2')) as H1.
  rewrite position_decode by lia. intros Heq.
  assert (seg' = seg) as -> by (by apply (entry_at_id HL _ _ _ _ _ _ _ _ Hat Hat')).
  assert (Hge : size_of es1 + n <= size_of es1').
  { destruct (Z.le_gt_cases (size_of es1 + n) (size_of es1')) as [|Hgt]; [done|exfalso].
    assert (globalSegmentFilePosition (seg_id seg) (size_of es1')
            < globalSegmentFilePosition (seg_id seg) (size_of es1 + n)); [|lia].
    apply position_lt; [done|lia|done|lia|]. by right. }
  destruct (entry_at_same HL _ _ _ _ _ _ _ Hat Hat') as (Hes & _).
  apply app_eq_inv in Hes as [(k & Hk & _)|(k & -> & Hk)].
  { rewrite Hk, size_of_app in Hge. pose proof (size_of_nonneg k). lia. }
  rewrite size_of_app in Hge |- *. exists k. split_and!; [by exists (e' :: es2')| |lia|lia].
  intros ->. change (size_of []) with 0 in Hge. lia.
Qed.

(** What the segment's numbers fit in. *)
Lemma fetch_range s esm rest :
  log_stays w0 w l ess next s -> e :: es2 = esm ++ rest -> esm <> [] ->
  0 <= seg_id seg < 2 ^ 28 /\ 0 < serializedSize e <= size_of esm /\ size_of es1 + size_of esm < 2 ^ 36.
Proof.
  intros Hst Hsplit Hne. pose proof (ls_rep Hst) as HL.
  destruct (ls_same Hst) as [ix Hsame]. destruct Hat as [(i & Hs & He)].
  assert (Hs' : segments (ls_loglet s) !! i = Some (base_sn seg, seg)) by (by rewrite Hsame).
  destruct (rep_segment HL _ _ _ _ Hs' He) as (_ & _ & Hsz & _ & Hid & Hsm).
  rewrite Hsplit, !size_of_app in Hsm. pose proof (size_of_nonneg rest).
  destruct esm as [|x esm]; [done|]. injection Hsplit as <- _. apply Forall_app in Hsz as [_ Hsz].
  apply Forall_cons in Hsz as [Hse _]. pose proof (size_of_nonneg esm).
  pose proof (serializedSize_pos e Hse). rewrite size_of_cons in Hsm |- * by done. lia.
Qed.

Lemma wp_fetch_at s sz max_size esm rest (Q : option FileLogEntries -> loglet_state -> Prop) E :
  log_stays w0 w l ess next s -> searchable (sn_pos_index l) ->
  e :: es2 = esm ++ rest -> esm <> [] -> 0 < max_size -> 0 <= sz <= serializedSize e ->
  (forall r s', log_stays w0 w l ess next s' ->
     (exists fle es, r = Some fle /\ slice_of max_size esm fle es) \/ (r = None /\ ~ benign w0) -> Q r s') ->
  (forall x s', log_stays w0 w l ess next s' -> ~ benign w0 -> E x s') ->
  wp (Lglt.fetch_at d seg (mkLogSequencePosition (sn e) (size_of es1) sz) max_size (size_of (es1 ++ esm))) Q E s.
Proof.
  intros Hst Hsearch Hsplit Hne Hmax Hsz HQ HE.
  destruct (fetch_range _ _ _ Hst Hsplit Hne) as (Hid & Hse & H36). pose proof (size_of_nonneg es1) as H1.
  assert (Hslice : forall s' es k, log_stays w0 w l ess next s' -> es `prefix_of` e :: es2 -> es <> [] ->
    esm `prefix_of` es \/ max_size <= size_of es -> k = size_of es ->
    wp (bind (Lglt.disk (Segment.fetch seg (size_of es1) k)) (fun r => ret (Some r))) Q E s').
  { intros s' es k Hs' Hpre Hnn Hen ->. eapply wp_slice; [done|done|done|exact Hen|done| |done].
    intros fle s'' Hs'' Hsl. apply HQ; [done|]. left. eauto. }
  assert (Hm : forall s', log_stays w0 w l ess next s' ->
    wp (bind (Lglt.disk (Segment.fetch seg (size_of es1) (size_of esm))) (fun r => ret (Some r))) Q E s').
  { intros s' Hs'. apply (Hslice s' esm); try done; [by exists rest|by left]. }
  unfold Lglt.fetch_at. cbn [lsp_file_position lsp_entry_size].
  rewrite size_of_app, Z.add_simpl_l, !to_u64_small by lia.
  destruct (Z.leb_spec (size_of esm) (Z.max max_size sz)) as [|Hgt].
  { rewrite (proj2 (Z.ltb_ge _ _)) by lia. by apply Hm. }
  set (n := Z.max max_size sz) in *. rewrite !to_u64_small by lia.
  destruct (lr_pos (ls_rep Hst)) as (ps & Hio & Hps).
  destruct (ls_same Hst) as [ix Hsame].
  replace (pos_name (ls_loglet s)) with (pos_name l) in Hio by (by rewrite Hsame).
  replace (segments (ls_loglet s)) with (segments l) in Hps by (by rewrite Hsame).
  apply wp_bind, wp_attempt, wp_zoom. eapply wp_index_lowerBoundByValue; [exact Hio|by apply Hst|apply Hst| |].
  2: { intros x t Ht Hb. pose proof (log_stays_index _ _ _ _ _ _ _ _ Hst Hps Ht) as Hs'.
       destruct x; [by apply wp_ret, HQ; auto|by apply HE]. }
  intros t Ht. pose proof (log_stays_index _ _ _ _ _ _ _ _ Hst Hps Ht) as Hs'.
  destruct (head (filter _ ps)) as [sp|] eqn:Hhd; [|by apply Hm].
  pose proof (cut_at_index _ _ _ n Hst Hps ltac:(lia) ltac:(lia) Hhd) as Hcut.
  destruct (segmentIDAndFilePosition _) as [id p].
  destruct (Z.eqb_spec id (seg_id seg)) as [Heq|]; [|by apply Hm].
  destruct (Hcut Heq) as (es & Hpre & Hnn & -> & Hn).
  apply (Hslice _ es); [done|done|done|right; lia|].
  destruct Hpre as [rest' Hpre]. pose proof (fetch_range _ _ _ Hst Hpre Hnn).
  rewrite to_u64_small; lia.
Qed.

(** [doFetch] cuts a slice at the boundary of an entry, from a position it was given
    or one it looks up. *)
Lemma wp_doFetch s max_size esm rest at_position (Q : option FileLogEntries -> loglet_state -> Prop) E :
  log_stays w0 w l ess next s -> searchable (sn_pos_index l) ->
  e :: es2 = esm ++ rest -> esm <> [] -> 0 < max_size -> at_position = None \/ at_position = Some (size_of es1) ->
  (forall r s', log_stays w0 w l ess next s' ->
     (exists fle es, r = Some fle /\ slice_of max_size esm fle es) \/ (r = None /\ ~ benign w0) -> Q r s') ->
  (forall x s', log_stays w0 w l ess next s' -> ~ benign w0 -> E x s') ->
  wp (Lglt.doFetch d seg (sn e) max_size (size_of (es1 ++ esm)) at_position) Q E s.
Proof.
  intros Hst Hsearch Hsplit Hne Hmax Hpos HQ HE. destruct (fetch_range _ _ _ Hst Hsplit Hne) as (_ & Hse & _).
  unfold Lglt.doFetch. apply wp_bind. destruct Hpos as [->| ->].
  2: { apply wp_ret. eapply wp_fetch_at; [done|done|exact Hsplit|done|done|lia|done|done]. }
  eapply wp_translateSequence; [done|exact Hat| |done].
  intros r s' Hs' [(sz & -> & Hsz)|[-> Hb]]; [|by apply wp_ret, HQ; auto].
  eapply wp_fetch_at; [done|done|exact Hsplit|done|done|destruct Hsz; lia|done|done].
Qed.

(** The entries of the segment are in order. *)
Lemma segment_increasing : numbered (segments l) ess next -> sn_increasing (es1 ++ e :: es2).
Proof. intros Hn. destruct Hat as [(i & Hs & He)]. eapply seqZ_increasing, (Hn _ _ _ _ Hs He). Qed.
End Fetch.

(** ** Positions of sequence numbers *)

(** [p] is where the entries from [snn] on start in the segment at [base], if there is
    such a segment. *)
Definition position_of (segs : LogSegments) (ess : list (list Entry)) (snn base p : Z) : Prop :=
  forall i seg es, segs !! i = Some (base, seg) -> ess !! i = Some es ->
    exists ea eb, es = ea ++ eb /\ p = size_of ea /\ Forall (fun x => sn x < snn) ea /\
      Forall (fun x => snn <= sn x) eb.

Definition meta_ok segs ess (m : LogSequenceMetadata) : Prop :=
  forall b p, segment_base_sn m = Some b -> lm_file_position m = Some p -> position_of segs ess (entry_sn m) b p.

Definition hint_ok segs ess (h : FetchHint) : Prop :=
  Hint.hasFilePosition h = true ->
  position_of segs ess (fh_sn h) (fh_segment_base_sn h) (fh_file_position h).

(** A position that stays right when the log grows: behind an entry, or at the start
    of a segment. *)
Definition known_position (ess : list (list Entry)) (snn base p : Z) : Prop :=
  (base = snn /\ p = 0) \/
  exists k es1 e es2, ess !! k = Some (es1 ++ e :: es2) /\ snn = sn e + 1 /\
    base = sn e - Z.of_nat (length es1) /\ p = size_of (es1 ++ [e]).

Definition known_hint (ess : list (list Entry)) (h : FetchHint) : Prop :=
  Hint.hasFilePosition h = true -> known_position ess (fh_sn h) (fh_segment_base_sn h) (fh_file_position h).

Lemma start_position segs ess next snn : numbered segs ess next -> position_of segs ess snn snn 0.
Proof.
  intros Hn i seg' es' Hs He. exists [], es'. split_and!; [done|done|constructor|].
  destruct (numbered_cut _ _ _ _ _ _ [] es' Hn Hs He) as [_ Hb].
  eapply Forall_impl; [exact Hb|]. cbn. lia.
Qed.

Lemma known_position_ok w dir segs ess next snn base p :
  segs_rep w dir segs ess next -> known_position ess snn base p -> position_of segs ess snn base p.
Proof.
  intros HR [[-> ->]|(k & es1 & e & es2 & Hk & -> & -> & ->)]; [eapply start_position, (lr_numbered HR)|].
  intros i seg es Hs He. assert (Hlen := Forall2_length _ _ _ (lr_files HR)).
  destruct (lookup_lt_is_Some_2 segs k) as [[b' seg'] Hs']; [apply lookup_lt_Some in Hk; lia|].
  pose proof (numbered_lookup _ _ _ _ _ _ _ (length es1) e (lr_numbered HR) Hs' Hk
    ltac:(by apply list_lookup_middle)) as H1.
  assert (i = k) as -> by (eapply sorted_lookup_inj; [apply (lr_wf HR)|done|done|cbn; lia..]).
  rewrite He in Hk. injection Hk as ->. rewrite cons_middle, app_assoc in He |- *.
  destruct (numbered_cut _ _ _ _ _ _ _ _ (lr_numbered HR) Hs He) as [Ha Hb]. rewrite length_app in Ha, Hb. cbn in Ha, Hb.
  exists (es1 ++ [e]), es2. split_and!; [done|done|eapply Forall_impl; [exact Ha|]; cbn; lia|].
  eapply Forall_impl; [exact Hb|]. cbn. lia.
Qed.

Lemma increasing_before es1 e es2 x : sn_increasing (es1 ++ e :: es2) -> x ∈ es1 -> sn x < sn e.
Proof. intros Hi Hx. apply (StronglySorted_app_1_elem_of _ es1 (e :: es2) x e Hi Hx). left. Qed.

(** Two ways to cut a segment: at an entry, and at a sequence number. *)
Lemma cut_at_entry es1 e es2 ea eb :
  sn_increasing (es1 ++ e :: es2) -> es1 ++ e :: es2 = ea ++ eb ->
  Forall (fun x => sn x < sn e) ea -> Forall (fun x => sn e <= sn x) eb -> ea = es1.
Proof.
  intros Hi Heq Ha Hb. rewrite Forall_forall in Ha, Hb.
  apply app_eq_inv in Heq as [(k & -> & ->)|(k & -> & Hk)]; destruct k as [|x k].
  - by rewrite app_nil_r.
  - assert (sn e <= sn x) by (apply Hb; left).
    assert (sn x < sn e); [|lia]. eapply increasing_before; [done|]. apply elem_of_app. right. left.
  - by rewrite app_nil_r.
  - injection Hk as -> _. assert (sn x < sn x); [|lia]. apply Ha, elem_of_app. right. left.
Qed.

Lemma cut_behind_entry es1 e es2 ea eb m :
  es1 ++ e :: es2 = ea ++ eb -> sn e < m -> Forall (fun x => m <= sn x) eb ->
  exists k, ea = es1 ++ k /\ e :: es2 = k ++ eb /\ k <> [].
Proof.
  intros Heq Hlt Hb. rewrite Forall_forall in Hb.
  apply app_eq_inv in Heq as [(k & -> & ->)|(k & -> & Hk)].
  - assert (m <= sn e); [|lia]. apply Hb, elem_of_app. right. left.
  - exists k. split_and!; [done|done|]. intros ->. cbn in Hk. subst eb.
    assert (m <= sn e); [|lia]. apply Hb. left.
Qed.

(** ** Fetching *)

(** The answer to a fetch of the entries [t] that start with [e]: the hint it gives
    leads the next fetch to where it stopped. *)
Record fetched_ok (segs : LogSegments) (ess : list (list Entry)) (seg : LogSegment) (es1 : list Entry)
    (e : Entry) (t : list Entry) (r : FetchResult) : Prop := {
  fo_entries : fr_entries r = t;
  fo_next : fh_sn (fetch_hint r) = sn e + Z.of_nat (length t);
  fo_hint : hint_ok segs ess (fetch_hint r);
  fo_known : known_hint ess (fetch_hint r);
  fo_start : fetched_log_sn_metadata r = mkLogSequenceMetadata (sn e) (Some (base_sn seg)) (Some (size_of es1));
}.

(** All of [t], or the first of it when the kernel refused a call. *)
Definition fetch_answer (w0 : world) segs ess seg es1 e (t : list Entry) (r : FetchResult * Z) : Prop :=
  (r.2 = 0 /\ t <> [] /\ fetched_ok segs ess seg es1 e t r.1) \/
  (~ benign w0 /\ (fr_entries r.1 = [] \/
     exists t', t' `prefix_of` t /\ t' <> [] /\ fetched_ok segs ess seg es1 e t' r.1)).

Section Fetched.
Context (d : directory) (w0 : world) (w : world) (l : Loglet) (ess : list (list Entry)) (next : Z).
Context (seg : LogSegment) (es1 : list Entry) (e : Entry) (es2 : list Entry).
Context (Hat : entry_at (segments l) ess seg es1 e es2) (HL : log_rep w l ess next).

(** Behind the entries [t]. *)
Lemma fetched_next t rest back :
  e :: es2 = t ++ rest -> last t = Some back -> sn back + 1 = sn e + Z.of_nat (length t).
Proof.
  intros Heq Hback. destruct Hat as [(i & Hs & He)].
  pose proof (numbered_lookup _ _ _ _ _ _ _ (length es1) e (lr_numbered HL) Hs He
    ltac:(by apply list_lookup_middle)) as H1.
  rewrite last_lookup in Hback. pose proof (lookup_lt_Some _ _ _ Hback) as Hlt.
  pose proof (numbered_lookup _ _ _ _ _ _ _ (length es1 + pred (length t)) back (lr_numbered HL) Hs He) as H2.
  rewrite lookup_app_r, Nat.add_sub_swap, Nat.sub_diag, Heq, lookup_app_l in H2 by lia.
  specialize (H2 Hback). lia.
Qed.

Lemma hint_same t rest :
  e :: es2 = t ++ rest ->
  position_of (segments l) ess (sn e + Z.of_nat (length t)) (base_sn seg) (size_of es1 + size_of t).
Proof.
  intros Heq i' seg' es' Hs' He'. destruct Hat as [(i & Hs & He)].
  assert (i' = i) as -> by (eapply sorted_lookup_inj; [apply (lr_wf HL)|done|done|cbn; lia..]).
  rewrite He in He'. injection He' as <-.
  pose proof (numbered_lookup _ _ _ _ _ _ _ (length es1) e (lr_numbered HL) Hs He
    ltac:(by apply list_lookup_middle)) as H1.
  rewrite Heq, app_assoc in He.
  destruct (numbered_cut _ _ _ _ _ _ _ _ (lr_numbered HL) Hs He) as [Ha Hb].
  rewrite length_app in Ha, Hb.
  exists (es1 ++ t), rest. rewrite Heq, app_assoc, size_of_app. split_and!; [done|done|..].
  - eapply Forall_impl; [exact Ha|]. cbn. lia.
  - eapply Forall_impl; [exact Hb|]. cbn. lia.
Qed.

Lemma known_behind t rest back :
  e :: es2 = t ++ rest -> last t = Some back ->
  known_position ess (sn back + 1) (base_sn seg) (size_of es1 + size_of t).
Proof.
  intros Heq Hback. right. destruct Hat as [(i & Hs & He)]. pose proof (fetched_next _ _ _ Heq Hback) as Hn.
  pose proof (numbered_lookup _ _ _ _ _ _ _ (length es1) e (lr_numbered HL) Hs He
    ltac:(by apply list_lookup_middle)) as H1.
  apply last_Some in Hback as [t' ->]. rewrite length_app in Hn. cbn in Hn.
  exists i, (es1 ++ t'), back, rest. rewrite He, Heq, <- !app_assoc, !size_of_app, length_app. split_and!; [done|done|lia|lia].
Qed.

(** What [fetch] makes of the entries it parsed. *)
Lemma fetched_answer t rest (to_next : bool) :
  e :: es2 = t ++ rest -> t <> [] ->
  exists first back, head t = Some first /\ last t = Some back /\ sn first = sn e /\
    fetched_ok (segments l) ess seg es1 e t
      (Lglt.fetched (base_sn seg) (size_of es1) t first
         (if to_next then mkFetchHint (sn back + 1) (sn back + 1) 0
          else mkFetchHint (sn back + 1) (base_sn seg) (size_of es1 + size_of t))).
Proof.
  intros Heq Hne. destruct t as [|first t]; [done|]. pose proof Heq as [= <- _].
  destruct (last (e :: t)) as [back|] eqn:Hback; [|by apply last_None in Hback].
  pose proof (fetched_next _ _ _ Heq Hback) as Hnext.
  exists e, back. split_and!; [done|done|done|]. split; [done|by destruct to_next| | |done].
  - intros _. destruct to_next; [eapply start_position, (lr_numbered HL)|]. cbn. rewrite Hnext. by eapply hint_same.
  - intros _. destruct to_next; [by left|]. by eapply known_behind.
Qed.

Lemma wp_fetch_result hint active_base fle parsed t rest (Q : FetchResult * Z -> loglet_state -> Prop) E s :
  e :: es2 = t ++ rest -> t <> [] -> start_pos fle = size_of es1 -> deserialized w0 t parsed ->
  (forall r, fetch_answer w0 (segments l) ess seg es1 e t r -> Q r s) ->
  wp (Lglt.fetch_result seg (sn e) hint (Some active_base) fle parsed) Q E s.
Proof.
  intros Heq Hne Hst Hd HQ. unfold Lglt.fetch_result. destruct Hd as [->|(Hb & t' & x & [tl Htl] & ->)].
  - cbn [Z.eqb negb]. rewrite Hst.
    destruct (fetched_answer t rest (negb (base_sn seg =? active_base) &&
      (size_of es1 + size_of t =? Segment.size seg)) Heq Hne) as (first & back & Hh & Hl & Hsn & Hok).
    destruct t as [|first' t]; [done|]. injection Hh as ->. rewrite Hl, Hsn, Z.eqb_refl. cbn [negb].
    apply wp_ret, HQ. by left.
  - rewrite Htl, <- app_assoc in Heq. rewrite Hst. destruct t' as [|f t'].
    + assert (Hempty : forall code, Q (new_FetchResult, code) s) by (intros; apply HQ; right; auto).
      destruct (negb _); [destruct (_ && _)|]; by apply wp_ret.
    + destruct (fetched_answer (f :: t') (tl ++ rest) false Heq ltac:(done))
        as (first & back & Hh & Hl & Hsn & Hok).
      destruct (fetched_answer (f :: t') (tl ++ rest) (negb (base_sn seg =? active_base) &&
        (size_of es1 + size_of (f :: t') =? Segment.size seg)) Heq ltac:(done))
        as (first' & back' & Hh' & Hl' & _ & Hok').
      injection Hh as ->. injection Hh' as ->. rewrite Hl in Hl'. injection Hl' as <-. rewrite Hl.
      destruct (negb (x =? 0)); [|rewrite Hsn, Z.eqb_refl; cbn [negb]];
        apply wp_ret, HQ; right; (split; [done|]); right; exists (first' :: t');
        (split; [by exists tl|split; [done|done]]).
Qed.

(** The limit on the position, and the position of the hint. *)
Lemma max_position_cut m :
  meta_ok (segments l) ess m -> sn e < entry_sn m ->
  exists esm rest, e :: es2 = esm ++ rest /\ esm <> [] /\ Forall (fun x => entry_sn m <= sn x) rest /\
    match segment_base_sn m, lm_file_position m with
    | Some b, Some p => if b =? base_sn seg then p else Segment.size seg
    | _, _ => Segment.size seg
    end = size_of (es1 ++ esm).
Proof.
  intros Hm Hlt. destruct Hat as [(i & Hs & He)].
  destruct (rep_segment HL _ _ _ _ Hs He) as (_ & Hon & _).
  assert (Hall : exists esm rest, e :: es2 = esm ++ rest /\ esm <> [] /\
    Forall (fun x => entry_sn m <= sn x) rest /\ Segment.size seg = size_of (es1 ++ esm)).
  { exists (e :: es2), []. rewrite app_nil_r. split_and!; [done|done|constructor|].
    by rewrite (segment_on_size _ _ _ Hon). }
  destruct (segment_base_sn m) as [b|] eqn:Hb; [|done]. destruct (lm_file_position m) as [p|] eqn:Hp; [|done].
  destruct (Z.eqb_spec b (base_sn seg)) as [->|]; [|done].
  destruct (Hm _ _ Hb Hp _ _ _ Hs He) as (ea & eb & Heq & -> & _ & Hge).
  destruct (cut_behind_entry _ _ _ _ _ _ Heq Hlt Hge) as (k & -> & Hk & Hne). eauto 8.
Qed.

Lemma hint_position hint :
  (forall h, hint = Some h -> hint_ok (segments l) ess h) ->
  let p := if sn e =? base_sn seg then Some 0 else Lglt.validateFetchHint seg (sn e) hint in
  p = None \/ p = Some (size_of es1).
Proof.
  intros Hh. pose proof Hat as [(i & Hs & He)]. cbv zeta. destruct (Z.eqb_spec (sn e) (base_sn seg)) as [Heq|_].
  - right. pose proof (numbered_lookup _ _ _ _ _ _ _ (length es1) e (lr_numbered HL) Hs He
      ltac:(by apply list_lookup_middle)) as H1.
    destruct es1; [done|]. cbn in H1. lia.
  - destruct hint as [h|]; [|by left]. cbn. destruct (Hint.empty h); [by left|].
    destruct (Z.eqb_spec (fh_sn h) (sn e)) as [Hsn|]; [|by left].
    destruct (Hint.hasFilePosition h) eqn:Hpos; [cbn [negb]|by left].
    destruct (Z.eqb_spec (fh_segment_base_sn h) (base_sn seg)) as [Hb|]; [|by left]. cbn [negb].
    destruct (_ <=? _); [by left|]. right. f_equal.
    specialize (Hh h eq_refl Hpos). unfold hint_ok in Hh. rewrite Hsn, Hb in Hh.
    destruct (Hh _ _ _ Hs He) as (ea & eb & Heq & -> & Ha & Hge). f_equal.
    eapply cut_at_entry; [|exact Heq|done|done].
    eapply segment_increasing; [exact Hat|apply (lr_numbered HL)].
Qed.

(** Parsing a slice gives what parsing the rest of the segment would. *)
Lemma wp_parse_slice m max_size esm rest fle es s (Q : Z * list Entry * Z -> loglet_state -> Prop) E :
  log_stays w0 w l ess next s -> slice_of seg es1 e es2 max_size esm fle es -> 0 < max_size ->
  e :: es2 = esm ++ rest -> Forall (fun x => m <= sn x) rest ->
  (forall r s', log_stays w0 w l ess next s' -> deserialized w0 (take_entries m max_size (e :: es2)) r -> Q r s') ->
  wp (Lglt.disk (Fle.deserialize fle m max_size Lglt.max_buffer_size)) Q E s.
Proof.
  intros Hst Hsl Hmax Hsplit Hrest HQ. pose proof Hat as [(i & Hs & He)].
  pose proof (ls_rep Hst) as HL'. destruct (ls_same Hst) as [ix Hsame].
  assert (Hs' : segments (ls_loglet s) !! i = Some (base_sn seg, seg)) by (by rewrite Hsame).
  destruct (rep_segment HL' _ _ _ _ Hs' He) as (_ & Hon & Hsz & _ & _ & Hsm).
  pose proof (segment_increasing _ _ _ _ _ _ _ Hat (lr_numbered HL)) as Hinc.
  destruct Hsl as [Hf Hstart Hend [rest' Hpre] Hne Hen].
  assert (Hcut : take_entries m max_size (e :: es2) = take_entries m max_size es).
  { rewrite Hpre. apply take_entries_cut.
    - rewrite Hpre in Hsz. apply Forall_app in Hsz as [_ Hsz]. by apply Forall_app in Hsz as [? _].
    - destruct Hen as [[k ->]|]; [right|by left]. rewrite Hsplit, <- app_assoc in Hpre.
      apply app_inv_head in Hpre as ->. by apply Forall_app in Hrest as [_ ?]. }
  apply wp_zoom. unfold size_of in Hstart, Hend, Hsm.
  eapply (wp_deserialize w0 (file (log seg)) (encode_entries (es1 ++ e :: es2)) (length (encode_entries es1)) es
    (encode_entries rest')); [| | | | |exact Hf|exact Hstart| |by apply segment_on_readable|apply Hst|done|done|].
  - by rewrite encode_entries_app, drop_app_length, Hpre, encode_entries_app.
  - rewrite encode_entries_app, length_app. lia.
  - lia.
  - rewrite Hpre in Hsz. apply Forall_app in Hsz as [_ Hsz]. by apply Forall_app in Hsz as [? _].
  - rewrite Hpre in Hinc. by apply StronglySorted_app_1_r, StronglySorted_app_1_l in Hinc.
  - rewrite Hend. unfold end_offset. by rewrite encode_entries_app, length_app.
  - intros r w' Hev' Hfs' Hd. apply HQ; [by apply log_stays_world|by rewrite Hcut].
Qed.

Lemma wp_fetch m max_size hint (Q : FetchResult * Z -> loglet_state -> Prop) E s :
  log_stays w0 w l ess next s -> searchable (sn_pos_index l) -> Segments.floorSegment (sn e) (segments l) = Some seg ->
  sn e < entry_sn m -> meta_ok (segments l) ess m ->
  (forall h, hint = Some h -> hint_ok (segments l) ess h) -> 0 < max_size ->
  (forall r s', log_stays w0 w l ess next s' ->
     fetch_answer w0 (segments l) ess seg es1 e (take_entries (entry_sn m) max_size (e :: es2)) r -> Q r s') ->
  (forall x s', log_stays w0 w l ess next s' -> ~ benign w0 -> E x s') ->
  wp (Lglt.fetch d (sn e) max_size m hint) Q E s.
Proof.
  intros Hst Hsearch Hfl Hlt Hm Hh Hmax HQ HE. unfold Lglt.fetch. apply wp_bind, wp_gets.
  destruct (ls_same Hst) as [ix Hsame].
  replace (segments (ls_loglet s)) with (segments l) by (by rewrite Hsame). rewrite Hfl.
  apply wp_bind, wp_gets. destruct (max_position_cut _ Hm Hlt) as (esm & rest & Hsplit & Hne & Hrest & ->).
  apply wp_bind. eapply (wp_doFetch d w0 w l ess next seg es1 e es2 Hat);
    [done|done|exact Hsplit|done|done|by apply hint_position| |done].
  intros r s' Hs' [(fle & es & -> & Hsl)|[-> Hb]]; [|by apply wp_ret, HQ; [|right; auto]].
  apply wp_bind. eapply wp_parse_slice; [done|exact Hsl|done|exact Hsplit|exact Hrest|].
  intros parsed s'' Hs'' Hd.
  replace (segment_base_sn (next_sn_meta (ls_loglet s))) with (segment_base_sn (next_sn_meta l)) by (by rewrite Hsame).
  destruct (lr_next HL) as (b & active & esl & _ & _ & ->). cbn [segment_base_sn].
  destruct (take_entries_prefix (entry_sn m) max_size (e :: es2)) as [tl Htl].
  eapply wp_fetch_result; [exact Htl| |apply Hsl|exact Hd|auto].
  cbn [take_entries]. by rewrite (proj2 (Z.ltb_lt _ _)).
Qed.
End Fetched.

(** The end of the log is a right limit for a fetch. *)
Lemma next_meta_ok w l ess next : log_rep w l ess next -> meta_ok (segments l) ess (next_sn_meta l).
Proof.
  intros HL. destruct (lr_next HL) as (b & seg & es & Hl & He & ->). intros b' p [= <-] [= <-] i s0 es0 Hs0 He0.
  apply last_Some in Hl as [psegs Hsegs]. apply last_Some in He as [pre Hpre].
  pose proof (lr_segs HL) as HR. rewrite Hsegs, Hpre in HR.
  pose proof (Forall2_length _ _ _ (lr_files HR)) as Hlen. rewrite !length_app in Hlen. cbn in Hlen.
  assert (i = length psegs) as ->.
  { apply (sorted_lookup_inj _ _ _ _ _ (b, seg) (Segments.wf_sorted _ (lr_wf HL)) Hs0); [|cbn; lia..].
    rewrite Hsegs. by apply list_lookup_middle. }
  rewrite Hpre in He0. replace (length psegs) with (length pre) in He0 by lia.
  rewrite list_lookup_middle in He0 by done. injection He0 as <-.
  exists es, []. rewrite app_nil_r. split_and!; [done|done| |constructor].
  pose proof (lr_numbered HR (length psegs) b seg es) as Hn.
  destruct Hn as [Hsn Hnext]; [by apply list_lookup_middle|replace (length psegs) with (length pre) by lia; by apply list_lookup_middle|].
  rewrite lookup_ge_None_2 in Hnext by (rewrite length_app; cbn; lia). cbn [entry_sn]. rewrite Hnext.
  assert (Hall : Forall (fun x => x < b + Z.of_nat (length es)) (sn <$> es)) by (rewrite Hsn; apply Forall_seqZ; lia).
  by rewrite Forall_fmap in Hall.
Qed.
