(* ===== verification/LogletAppend.v ===== *)
(** * Appending to a loglet

    What [append] does to the contents of a loglet: the batch comes behind the entries
    of the active segment, numbered on, and the indexes stay right.  When the kernel
    refuses a call the segments still hold what they held. *)

From Stdlib Require Import Ascii String.
From S2P Require Import Prelude Ordered Os AppendOnlyFile Frame Codec KeyValues Names MonoMap MonoMapFrame.
From S2P Require Import MonoMapLoad MonoMapRep MonoMapUpdate MonoMapRecover Entry FileLogEntries FleSpec.
From S2P Require Import SegmentNames LogConfig LogSegment SegmentSpec LogSegments LogTypes IndexSpec Indexes.
From S2P Require Import Loglet LogletRep.

Local Open Scope Z_scope.

(** ** The last segment *)

Lemma numbered_snoc psegs pre b seg es next :
  length psegs = length pre ->
  numbered (psegs ++ [(b, seg)]) (pre ++ [es]) next <->
  numbered psegs pre b /\ sn <$> es = seqZ b (Z.of_nat (length es)) /\ next = b + Z.of_nat (length es).
Proof.
  intros Hlen. split.
  - intros Hn. split.
    + intros i b' seg' es' Hs He. pose proof (lookup_lt_Some _ _ _ Hs) as Hi.
      destruct (Hn i b' seg' es') as [Hsn Hnext];
        [by apply lookup_app_l_Some|by apply lookup_app_l_Some|]. split; [done|].
      destruct (decide (S i < length psegs)%nat) as [Hlt|Hge].
      * destruct (lookup_lt_is_Some_2 _ _ Hlt) as [[] Hx]. rewrite lookup_app_l, Hx in Hnext by done. by rewrite Hx.
      * rewrite (lookup_ge_None_2 psegs) by lia. rewrite lookup_app_r in Hnext by lia.
        by replace (S i - length psegs)%nat with 0%nat in Hnext by lia.
    + destruct (Hn (length psegs) b seg es) as [Hsn Hnext];
        [by apply list_lookup_middle|rewrite Hlen; by apply list_lookup_middle|].
      rewrite (lookup_ge_None_2 (psegs ++ _)) in Hnext by (rewrite length_app; cbn; lia). auto.
  - intros (Hn & Hsn & Hnext) i b' seg' es' Hs He. destruct (decide (i < length psegs)%nat) as [Hlt|Hge].
    + rewrite lookup_app_l in Hs by done. rewrite lookup_app_l in He by lia.
      destruct (Hn i b' seg' es' Hs He) as [Hsn' Hnext']. split; [done|].
      destruct (decide (S i < length psegs)%nat) as [Hlt'|Hge'].
      { destruct (lookup_lt_is_Some_2 _ _ Hlt') as [[] Hx]. rewrite Hx in Hnext'. by rewrite lookup_app_l, Hx by done. }
      rewrite lookup_ge_None_2 in Hnext' by lia. rewrite lookup_app_r by lia.
      by replace (S i - length psegs)%nat with 0%nat by lia.
    + assert (i = length psegs) as ->.
      { apply lookup_lt_Some in Hs. rewrite length_app in Hs. cbn in Hs. lia. }
      rewrite list_lookup_middle in Hs by done. rewrite Hlen, list_lookup_middle in He by done. simplify_eq.
      by rewrite (lookup_ge_None_2 (psegs ++ _)) by (rewrite length_app; cbn; lia).
Qed.

(** What is said of each segment, for a last segment that is replaced. *)
Record last_segment (w : world) (dir : string) (b : Z) (seg : LogSegment) (es : list Entry) (next : Z) : Prop := {
  la_base : base_sn seg = b;
  la_file : segment_on w seg (encode_entries es);
  la_named : Segment.filename seg = logFile dir (seg_id seg) b EmptyString;
  la_entries : Forall (fun e => sized e /\ meta_fits e) es;
  la_sn : sn <$> es = seqZ b (Z.of_nat (length es));
  la_next : next = b + Z.of_nat (length es);
  la_id : 0 <= seg_id seg < 2 ^ 28;
  la_base_range : i64 b;
  la_small : size_of es < 2 ^ 36;
}.

Arguments la_base {w dir b seg es next}.
Arguments la_file {w dir b seg es next}.
Arguments la_named {w dir b seg es next}.
Arguments la_entries {w dir b seg es next}.
Arguments la_sn {w dir b seg es next}.
Arguments la_next {w dir b seg es next}.
Arguments la_id {w dir b seg es next}.
Arguments la_base_range {w dir b seg es next}.
Arguments la_small {w dir b seg es next}.

Lemma Forall_snoc {A} (P : A -> Prop) l x : Forall P (l ++ [x]) <-> Forall P l /\ P x.
Proof. by rewrite Forall_app, Forall_singleton. Qed.

Lemma StronglySorted_snoc {A} (R : A -> A -> Prop) l x :
  StronglySorted R (l ++ [x]) <-> StronglySorted R l /\ Forall (fun y => R y x) l.
Proof.
  rewrite StronglySorted_app, Forall_forall. split.
  - intros (Hlt & Hs & _). split; [done|]. intros y Hy. apply Hlt; [done|]. by apply list_elem_of_singleton.
  - intros [Hs Hlt]. split_and!; [|done|repeat constructor].
    intros y z Hy Hz. apply list_elem_of_singleton in Hz as ->. auto.
Qed.

(** A log is its last segment and the log before it. *)
Lemma segs_rep_snoc w dir psegs b seg pre es next :
  segs_rep w dir (psegs ++ [(b, seg)]) (pre ++ [es]) next <->
  segs_rep w dir psegs pre b /\ Forall (fun x => x.1 < b /\ seg_id x.2 < seg_id seg) psegs /\
  last_segment w dir b seg es next.
Proof.
  split.
  - intros [[Hs Hb] Hf Hna Hen Hnu Hid Hir Hbr Hsm].
    apply Forall2_app_inv in Hf as [Hf Hl];
      [|apply Forall2_length in Hf; rewrite !length_app in Hf; cbn in Hf; lia].
    pose proof (Forall2_length _ _ _ Hf) as Hlen. apply Forall2_cons in Hl as [Hl _].
    apply numbered_snoc in Hnu as (Hnu & Hsn & Hnext); [|done]. unfold om_sorted in Hs.
    apply StronglySorted_snoc in Hs as [Hs ?], Hid as [Hid ?].
    apply Forall_snoc in Hb as [Hb ?], Hna as [Hna ?], Hen as [Hen ?], Hir as [Hir ?], Hbr as [Hbr ?], Hsm as [Hsm ?].
    cbn in *. split_and!; [split; try done; by split| |].
    + apply Forall_and. by split.
    + split; try done. congruence.
  - intros ([[Hs Hb] Hf Hna Hen Hnu Hid Hir Hbr Hsm] & Hlt & []). pose proof (Forall2_length _ _ _ Hf) as Hlen.
    apply Forall_and in Hlt as [Hlt Hlti].
    split; rewrite ?Forall_snoc; try done.
    + split; [by apply StronglySorted_snoc|]. apply Forall_snoc. split; [done|]. done.
    + apply Forall2_app; [done|]. by constructor.
    + cbn. by rewrite la_base0.
    + by apply numbered_snoc.
    + by apply StronglySorted_snoc.
Qed.

(** ** Names *)

(** The file of a segment with a larger id is another one. *)
Lemma new_file_apart w dir segs ess next id sn x :
  segs_rep w dir segs ess next -> x ∈ segs -> seg_id x.2 < id -> u64 id -> i64 sn ->
  Segment.filename x.2 <> logFile dir id sn EmptyString.
Proof.
  intros HR Hx Hlt Hid Hsn. pose proof (lr_named HR) as Hn. pose proof (lr_id_range HR) as Hi.
  pose proof (lr_base_range HR) as Hb. pose proof (Segments.wf_base _ (lr_wf HR)) as Hbase.
  rewrite Forall_forall in Hn, Hi, Hb, Hbase. specialize (Hi x Hx).
  rewrite (Hn x Hx). intros Heq. apply logFile_inj in Heq as [? _]; [lia| |rewrite (Hbase x Hx); by apply Hb|done|done].
  unfold u64. lia.
Qed.

Lemma segment_file_apart w dir psegs b seg pre es next x :
  segs_rep w dir (psegs ++ [(b, seg)]) (pre ++ [es]) next -> x ∈ psegs ->
  Segment.filename x.2 <> Segment.filename seg.
Proof.
  intros HR Hx. apply segs_rep_snoc in HR as (HP & Hlt & Hla). rewrite (la_named Hla).
  rewrite Forall_forall in Hlt. pose proof (la_id Hla).
  eapply new_file_apart; [done|done|by apply Hlt|unfold u64; lia|apply Hla].
Qed.

Lemma logFile_not_index dir id sn suffix c rest :
  u64 id -> char_digit c = None -> ~ belongs (dir +:+ String "/"%char (String c rest)) (logFile dir id sn suffix).
Proof.
  intros Hid Hc. unfold belongs. change (String "/"%char (String c rest)) with ("/" +:+ String c rest).
  by rewrite logFile_prefix.
Qed.

Lemma segment_file_not_index w dir segs ess next x c rest :
  segs_rep w dir segs ess next -> x ∈ segs -> char_digit c = None ->
  ~ belongs (dir +:+ String "/"%char (String c rest)) (Segment.filename x.2).
Proof.
  intros HR Hx Hc. pose proof (lr_named HR) as Hn. pose proof (lr_id_range HR) as Hi.
  rewrite Forall_forall in Hn, Hi. rewrite (Hn x Hx). apply logFile_not_index; [|done].
  specialize (Hi x Hx). unfold u64. lia.
Qed.

(** The indexes do not share files. *)
Lemma index_files_apart dir c rest c' rest' f :
  c <> c' -> belongs (dir +:+ String "/"%char (String c rest)) f -> ~ belongs (dir +:+ String "/"%char (String c' rest')) f.
Proof.
  intros Hne. unfold belongs. revert f. induction dir as [|x dir IH]; intros [|y f] H1 H2; try done.
  - change ("" +:+ ?x) with x in *. cbn [String.prefix] in *. destruct (Ascii.ascii_dec "/"%char y); [|done].
    destruct f as [|z f]; [done|]. cbn [String.prefix] in *.
    destruct (Ascii.ascii_dec c z), (Ascii.ascii_dec c' z); congruence.
  - change (String x dir +:+ ?r) with (String x (dir +:+ r)) in *. cbn [String.prefix] in *.
    destruct (Ascii.ascii_dec x y); [|done]. by eapply IH.
Qed.

(** ** The entries behind the last one *)

Section Grow.
Context (w : world) (dir : string) (psegs : LogSegments) (b : Z) (seg : LogSegment) (pre : list (list Entry))
  (es : list Entry) (next : Z).
Context (HR : segs_rep w dir (psegs ++ [(b, seg)]) (pre ++ [es]) next).

Lemma rep_length : length psegs = length pre.
Proof. apply segs_rep_snoc in HR as (HP & _). eapply Forall2_length, (lr_files HP). Qed.

(** What the index holds is before the end of the log. *)
Lemma points_below sp :
  points (psegs ++ [(b, seg)]) (pre ++ [es]) sp -> kv_valid sp ->
  sp_sn sp < next /\ file_position sp < globalSegmentFilePosition (seg_id seg) (size_of es).
Proof.
  intros Hp [_ Hu]. pose proof HR as HR'. apply segs_rep_snoc in HR' as (HP & Hlt & Hla).
  pose proof (la_id Hla) as Hid. pose proof (la_small Hla) as Hsm. pose proof (size_of_nonneg es) as Hnn.
  pose proof (la_next Hla) as Hnext.
  destruct Hp as [(seg' & es1 & e & es2 & [(i & Hs & He)] & <- & ->)|Hgone].
  - destruct (rep_segment HR _ _ _ _ Hs He) as (_ & _ & Hsz & _ & Hid' & Hsm').
    rewrite size_of_app in Hsm'. pose proof (size_of_nonneg es1). 
    apply Forall_app in Hsz as [_ Hsz]. apply Forall_cons in Hsz as [Hse _].
    pose proof (serializedSize_pos e Hse). pose proof (size_of_nonneg es2). rewrite size_of_cons in Hsm' by done.
    rewrite position_lt by lia.
    pose proof (numbered_lookup _ _ _ _ _ _ _ (length es1) e (lr_numbered HR) Hs He
      ltac:(by apply list_lookup_middle)) as Hsn.
    destruct (decide (i < length psegs)%nat) as [Hi|Hi].
    + rewrite lookup_app_l in Hs by done. rewrite lookup_app_l in He by (rewrite <- rep_length; lia).
      pose proof (Forall_lookup_1 _ _ _ _ Hlt Hs) as [_ Hidlt]. cbn in Hidlt. split; [|by left].
      destruct (lr_numbered HP _ _ _ _ Hs He) as [_ Hend]. rewrite length_app in Hend. cbn in Hend.
      destruct (psegs !! S i) as [[b' s']|] eqn:Hs'; [|lia].
      pose proof (Forall_lookup_1 _ _ _ _ Hlt Hs') as [Hb' _]. cbn in Hb'. lia.
    + assert (i = length psegs) as ->.
      { apply lookup_lt_Some in Hs. rewrite length_app in Hs. cbn in Hs. lia. }
      rewrite list_lookup_middle in Hs by done. rewrite rep_length, list_lookup_middle in He by done.
      injection Hs as Hbs <-. injection He as ->. rewrite length_app in Hnext. cbn in Hnext.
      rewrite size_of_app, size_of_cons by done. split; [lia|]. right. split; [done|lia].
  - apply Forall_snoc in Hgone as [_ [Hid' Hsn]]. cbn in Hid', Hsn. split; [lia|].
    rewrite position_value by lia. by apply position_before.
Qed.

(** The last segment holds a batch more. *)
Context (w' : world) (seg' : LogSegment) (batch : list Entry).
Context (Hid : seg_id seg' = seg_id seg) (Hbase : base_sn seg' = base_sn seg)
  (Hname : Segment.filename seg' = Segment.filename seg)
  (Hon : segment_on w' seg' (encode_entries (es ++ batch)))
  (Hfs : forall f, f <> Segment.filename seg -> w_files w' !! f = w_files w !! f).

Lemma segs_rep_grow :
  Forall (fun e => sized e /\ meta_fits e) batch ->
  sn <$> batch = seqZ next (Z.of_nat (length batch)) -> size_of (es ++ batch) < 2 ^ 36 ->
  segs_rep w' dir (psegs ++ [(b, seg')]) (pre ++ [es ++ batch]) (next + Z.of_nat (length batch)).
Proof.
  intros Hb Hsn Hsm. pose proof HR as HR'. apply segs_rep_snoc in HR' as (HP & Hlt & []).
  apply segs_rep_snoc. split_and!.
  - eapply segs_rep_frame; [exact HP|]. intros x Hx. apply Hfs. by eapply segment_file_apart.
  - eapply Forall_impl; [exact Hlt|]. cbn. by rewrite Hid.
  - split; try done; rewrite ?Hid, ?Hbase, ?Hname; try done.
    + by apply Forall_app.
    + rewrite fmap_app, la_sn0, Hsn, length_app, Nat2Z.inj_add, seqZ_app by lia. by rewrite la_next0.
    + rewrite length_app. lia.
Qed.

Lemma points_grow sp :
  points (psegs ++ [(b, seg)]) (pre ++ [es]) sp -> points (psegs ++ [(b, seg')]) (pre ++ [es ++ batch]) sp.
Proof using HR Hid Hbase.
  clear Hon Hfs Hname. pose proof rep_length as Hlen. intros [(s0 & es1 & e & es2 & [(i & Hs & He)] & Hsn & Hfp)|Hgone].
  - left. destruct (decide (i < length psegs)%nat) as [Hi|Hi].
    + exists s0, es1, e, es2. split_and!; [split; exists i|done|done].
      rewrite lookup_app_l in Hs |- * by done.
      by rewrite lookup_app_l in He |- * by (rewrite <- Hlen; lia).
    + assert (i = length psegs) as ->.
      { apply lookup_lt_Some in Hs. rewrite length_app in Hs. cbn in Hs. lia. }
      rewrite list_lookup_middle in Hs by done. rewrite Hlen, list_lookup_middle in He by done.
      injection Hs as Hbs ->. injection He as ->.
      exists seg', es1, e, (es2 ++ batch). rewrite Hid. split_and!; [split; exists (length psegs)|done|done].
      rewrite list_lookup_middle, Hlen, list_lookup_middle by done. by rewrite Hbase, Hbs, <- app_assoc.
  - right. apply Forall_snoc in Hgone as [? ?]. apply Forall_snoc. cbn in *. by rewrite Hid.
Qed.

Lemma new_point first rest :
  batch = first :: rest -> sn first = next ->
  points (psegs ++ [(b, seg')]) (pre ++ [es ++ batch])
    (mkSequencePosition next (globalSegmentFilePosition (seg_id seg) (size_of es))).
Proof using HR Hid Hbase.
  clear Hon Hfs Hname. intros -> Hsn. left. exists seg', es, first, rest. rewrite Hid. split_and!; [|done|done].
  split. exists (length psegs). rewrite list_lookup_middle, rep_length, list_lookup_middle by done.
  pose proof HR as HR'. apply segs_rep_snoc in HR' as (_ & _ & Hla). by rewrite Hbase, (la_base Hla).
Qed.
End Grow.

(** ** Adding to the indexes *)

Lemma ts_not_pos dir f : belongs (dir +:+ "/ts-sn.idx") f -> ~ belongs (dir +:+ "/sn-pos.idx") f.
Proof. by apply index_files_apart. Qed.
Lemma pos_not_ts dir f : belongs (dir +:+ "/sn-pos.idx") f -> ~ belongs (dir +:+ "/ts-sn.idx") f.
Proof. by apply index_files_apart. Qed.

(** An operation of an index leaves the segments alone. *)
Lemma segs_rep_index {KV} w dir segs ess next name c rest mx (t : mono_state KV) :
  segs_rep w dir segs ess next -> name = dir +:+ String "/"%char (String c rest) -> char_digit c = None ->
  kept name (w_files w) mx t -> segs_rep (ms_world t) dir segs ess next.
Proof.
  intros HR -> Hc Hk. eapply segs_rep_frame; [exact HR|]. intros x Hx. apply (kept_outside _ _ _ _ Hk).
  by eapply segment_file_not_index.
Qed.

(** The indexes of [l'] can be searched as those of [l] could, and gave out at most one
    id more. *)
Record usable (l l' : Loglet) : Prop := {
  us_ts : searchable (event_ts_sn_index l');
  us_pos : searchable (sn_pos_index l) -> searchable (sn_pos_index l');
  us_ts_ids : ids_grow 1 (event_ts_sn_index l) (event_ts_sn_index l');
  us_pos_ids : ids_grow 1 (sn_pos_index l) (sn_pos_index l');
}.

Section Index.
Context (d : directory) (w0 : world) (s : loglet_state) (ess : list (list Entry)) (next : Z).
Abbreviation w := (ls_world s).
Abbreviation l := (ls_loglet s).
Context (HR : segs_rep w (log_dir l) (segments l) ess next) (Hev : evolves w0 w).

Lemma wp_index_ts ts ps m (Q : bool + Z -> loglet_state -> Prop) E :
  index_of (ts_name l) ts (MonoState w (event_ts_sn_index l)) -> times_below m next ts ->
  searchable (event_ts_sn_index l) -> ids_room (event_ts_sn_index l) ->
  index_of (pos_name l) ps (MonoState w (sn_pos_index l)) ->
  (forall r w' ix ts', segs_rep w' (log_dir l) (segments l) ess next -> evolves w0 w' ->
     index_of (pos_name l) ps (MonoState w' (sn_pos_index l)) ->
     (forall f, ~ belongs (ts_name l) f -> w_files w' !! f = w_files w !! f) ->
     (index_of (ts_name l) ts' (MonoState w' ix) /\ times_below m next ts' /\ searchable ix /\
        ids_grow 1 (event_ts_sn_index l) ix) \/ ~ benign w0 ->
     Q r (LogletState w' (set_event_ts_sn_index ix l))) ->
  (forall x s', ~ benign w0 -> segs_rep (ls_world s') (log_dir l) (segments l) ess next ->
     segments (ls_loglet s') = segments l -> E x s') ->
  wp (attempt (Lglt.on_ts (TsIndex.maybeIndex d m))) Q E s.
Proof.
  intros Hts Htb Hse Hids Hps HQ HE.
  assert (Hframe : forall (t : mono_state TimestampSequence) mx, kept (ts_name l) (w_files w) mx t ->
    segs_rep (ms_world t) (log_dir l) (segments l) ess next /\
    index_of (pos_name l) ps (MonoState (ms_world t) (sn_pos_index l)) /\
    (forall f, ~ belongs (ts_name l) f -> w_files (ms_world t) !! f = w_files w !! f)).
  { intros t mx Hk. split_and!; [by apply (segs_rep_index w _ _ _ _ (ts_name l) "t" "s-sn.idx" mx)| |apply Hk].
    eapply index_of_frame; [exact Hps|]. intros f Hf. apply (kept_outside _ _ _ _ Hk). by apply pos_not_ts. }
  apply wp_attempt, wp_zoom. eapply wp_index_maybeIndex; [exact Hts|done|apply Htb|done|by left| |..].
  - eapply Forall_impl; [exact (tb_below _ _ _ Htb)|]. intros x [->|[_ ?]] Hlt; [|done]. lia.
  - intros t Hlt Hio Hst Hg Hev' Hk. destruct (Hframe _ _ Hk) as (HR' & Hps' & Hfr').
    eapply HQ; [done|done|done|done|]. left. destruct t. split_and!; [exact Hio| |done|done].
    destruct Htb as [Hb Hv Hn Ht Hts']. split; [|done|done|done|by apply Forall_snoc]. apply Forall_snoc. auto.
  - intros _. eapply HQ; [done|done|done|done|]. left. split_and!; [done..|by apply ids_grow_refl].
  - intros x t Hev' Hb Hk. destruct (Hframe _ _ Hk) as (HR' & Hps' & Hfr').
    destruct x; [|by apply HE]. eapply (HQ _ _ _ []); auto.
Qed.

Lemma wp_index_pos ps sp (Q : bool + Z -> loglet_state -> Prop) E :
  index_of (pos_name l) ps (MonoState w (sn_pos_index l)) -> kv_valid sp -> ids_room (sn_pos_index l) ->
  Forall (fun a => key a < key sp /\ value a < value sp) ps ->
  (forall r w' ix, segs_rep w' (log_dir l) (segments l) ess next -> evolves w0 w' ->
     (forall f, ~ belongs (pos_name l) f -> w_files w' !! f = w_files w !! f) ->
     (index_of (pos_name l) (ps ++ [sp]) (MonoState w' ix) /\ searchable ix /\ ids_grow 1 (sn_pos_index l) ix) \/
       ~ benign w0 ->
     Q r (LogletState w' (set_sn_pos_index ix l))) ->
  (forall x s', ~ benign w0 -> segs_rep (ls_world s') (log_dir l) (segments l) ess next ->
     segments (ls_loglet s') = segments l -> E x s') ->
  wp (attempt (Lglt.on_pos (PosIndex.maybeIndex d sp))) Q E s.
Proof.
  intros Hps Hv Hids Hlt HQ HE.
  assert (Hframe : forall (t : mono_state SequencePosition) mx, kept (pos_name l) (w_files w) mx t ->
    segs_rep (ms_world t) (log_dir l) (segments l) ess next /\
    (forall f, ~ belongs (pos_name l) f -> w_files (ms_world t) !! f = w_files w !! f)).
  { intros t mx Hk. split; [by apply (segs_rep_index w _ _ _ _ (pos_name l) "s" "n-pos.idx" mx)|apply Hk]. }
  apply wp_attempt, wp_zoom. eapply wp_index_maybeIndex; [exact Hps|done|done|done|right|..].
  - eapply Forall_impl; [exact Hlt|]. by intros ? [? _].
  - eapply Forall_impl; [exact Hlt|]. by intros ? [_ ?].
  - intros t _ Hio Hst Hg Hev' Hk. destruct (Hframe _ _ Hk) as [HR' Hts']. apply HQ; [done|done|done|].
    left. by destruct t.
  - intros Hex. apply Exists_exists in Hex as (a & Ha & Hle). rewrite Forall_forall in Hlt.
    destruct (Hlt a Ha). lia.
  - intros x t Hev' Hb Hk. destruct (Hframe _ _ Hk) as [HR' Hts'].
    destruct x; [|by apply HE]. apply HQ; auto.
Qed.

(** The indexes are right and can be used, unless the kernel refused a call. *)
Definition indexes_ok (s' : loglet_state) : Prop :=
  (indexes_rep (ls_world s') (ls_loglet s') ess next /\ usable l (ls_loglet s')) \/ ~ benign w0.
End Index.

Section MaybeIndex.
Context (d : directory) (w0 : world) (s : loglet_state) (ess : list (list Entry)) (next : Z).
Abbreviation w := (ls_world s).
Abbreviation l := (ls_loglet s).
Context (HR : segs_rep w (log_dir l) (segments l) ess next) (Hev : evolves w0 w).

(** The index entries made after an append. *)
Lemma wp_maybe_index (c : bool) active position first_sn ps ts (Q : unit -> loglet_state -> Prop) E :
  let sp := mkSequencePosition first_sn (globalSegmentFilePosition (seg_id active) position) in
  index_of (pos_name l) ps (MonoState w (sn_pos_index l)) -> Forall (points (segments l) ess) ps ->
  index_of (ts_name l) ts (MonoState w (event_ts_sn_index l)) ->
  times_below (max_etimestamp_and_sn_so_far l) next ts ->
  searchable (event_ts_sn_index l) -> ids_room (event_ts_sn_index l) -> ids_room (sn_pos_index l) ->
  kv_valid sp -> points (segments l) ess sp -> Forall (fun a => key a < key sp /\ value a < value sp) ps ->
  (forall s', segs_rep (ls_world s') (log_dir l) (segments l) ess next -> evolves w0 (ls_world s') ->
     (exists i1 i2 n, ls_loglet s' = set_bytes_since_last_index_entry n
                        (set_sn_pos_index i2 (set_event_ts_sn_index i1 l))) ->
     (forall f, ~ belongs (ts_name l) f -> ~ belongs (pos_name l) f ->
        w_files (ls_world s') !! f = w_files w !! f) ->
     indexes_ok w0 s ess next s' -> Q tt s') ->
  (forall x s', ~ benign w0 -> segs_rep (ls_world s') (log_dir l) (segments l) ess next ->
     segments (ls_loglet s') = segments l -> E x s') ->
  wp (if c then Lglt.index_append d active position first_sn else ret tt) Q E s.
Proof.
  intros sp Hps Hpts Hts Htb Hse Hidt Hidp Hv Hpt Hlt HQ HE. destruct c.
  2: { apply wp_ret, HQ; [done|done| |done|].
       - exists (event_ts_sn_index l), (sn_pos_index l), (bytes_since_last_index_entry l). by destruct l.
       - left. split; [split; eauto|]. split; try done; by apply ids_grow_refl. }
  unfold Lglt.index_append. apply wp_bind, wp_gets, wp_bind.
  eapply (wp_index_ts d w0 s ess next HR Hev ts ps); [done|done|done|done|done| |done].
  intros r1 w1 ix ts' HR1 Hev1 Hps1 Hfs1 Hts1. apply wp_bind.
  eapply (wp_index_pos d w0 (LogletState w1 (set_event_ts_sn_index ix l)) ess next HR1 Hev1 ps sp);
    [done|done|done|done| |done].
  intros r2 w2 ix2 HR2 Hev2 Hfs2 Hps2. cbn in Hfs2. apply wp_modify, HQ; [done|done|by eexists _, _, _| |].
  { intros f Hf1 Hf2. cbn. by rewrite Hfs2, Hfs1. }
  destruct Hts1 as [(Hts1 & Htb1 & Hse1 & Hg1)|]; [|by right]. destruct Hps2 as [(Hps2 & Hse2 & Hg2)|]; [|by right].
  left. split; [split|by split].
  - exists (ps ++ [sp]). split; [done|]. by apply Forall_snoc.
  - exists ts'. split; [|done]. eapply index_of_frame; [exact Hts1|]. intros f Hf. apply Hfs2. by apply ts_not_pos.
Qed.
End MaybeIndex.

(** ** Appending *)

(** A larger timestamp so far, of an entry that was not there before. *)
Definition raised (m m' : TimestampSequence) (next next' : Z) : Prop :=
  m' = m \/ (timestamp m < timestamp m' /\ next <= ts_sn m' < next' /\ kv_valid m').

Lemma times_raised m m' next next' ts :
  times_below m next ts -> raised m m' next next' -> next <= next' -> times_below m' next' ts.
Proof.
  intros [Hb Hv Hn Ht Hts] [->|(Hlt & Hin & Hv')] Hle; [split; [done|done|lia|done|done]|]. split; [|done|lia|lia|done].
  eapply Forall_impl; [exact Hb|]. intros x [->|[? ?]]; right; lia.
Qed.

Lemma snoc_named (segs : LogSegments) b seg seg' x :
  Segment.filename seg' = Segment.filename seg -> x ∈ segs ++ [(b, seg)] ->
  exists x', x' ∈ segs ++ [(b, seg')] /\ Segment.filename x'.2 = Segment.filename x.2.
Proof.
  intros Hn [Hx| ->%list_elem_of_singleton]%elem_of_app.
  - exists x. split; [|done]. apply elem_of_app. by left.
  - exists (b, seg'). split; [|done]. apply elem_of_app. right. by left.
Qed.

Section Append.
Context (d : directory) (w0 : world) (w : world) (l : Loglet) (psegs : LogSegments) (b : Z) (seg : LogSegment)
  (pre : list (list Entry)) (es batch : list Entry) (next : Z).
Context (HL : log_rep w l (pre ++ [es]) next) (Hsegs : segments l = psegs ++ [(b, seg)]) (Hev : evolves w0 w).
Abbreviation ess' := (pre ++ [es ++ batch]).
Abbreviation next' := (next + Z.of_nat (length batch)).

(** The batch continues the log and fits into the active segment. *)
Record batch_ok : Prop := {
  bo_nonempty : batch <> [];
  bo_entries : Forall (fun e => sized e /\ meta_fits e) batch;
  bo_sn : sn <$> batch = seqZ next (Z.of_nat (length batch));
  bo_small : size_of (es ++ batch) < 2 ^ 36;
}.
Context (Hbatch : batch_ok).

(** The state once the segment is written and the counters are updated. *)
Record written (w1 : world) (l1 : Loglet) (seg' : LogSegment) : Prop := {
  wr_evolves : evolves w0 w1;
  wr_files : w_files w1 = <[Segment.filename seg := encode_entries (es ++ batch)]> (w_files w);
  wr_on : segment_on w1 seg' (encode_entries (es ++ batch));
  wr_id : seg_id seg' = seg_id seg;
  wr_base : base_sn seg' = base_sn seg;
  wr_name : Segment.filename seg' = Segment.filename seg;
  wr_dir : log_dir l1 = log_dir l;
  wr_config : log_config l1 = log_config l;
  wr_doomed : to_delete l1 = to_delete l;
  wr_segments : segments l1 = psegs ++ [(b, seg')];
  wr_pos : sn_pos_index l1 = sn_pos_index l;
  wr_ts : event_ts_sn_index l1 = event_ts_sn_index l;
  wr_max : raised (max_etimestamp_and_sn_so_far l) (max_etimestamp_and_sn_so_far l1) next next';
}.

Lemma rep_segs : segs_rep w (log_dir l) (psegs ++ [(b, seg)]) (pre ++ [es]) next.
Proof. rewrite <- Hsegs. apply HL. Qed.

Lemma written_other w1 l1 seg' f :
  written w1 l1 seg' -> f <> Segment.filename seg -> w_files w1 !! f = w_files w !! f.
Proof. intros Hw Hf. rewrite (wr_files _ _ _ Hw). by rewrite lookup_insert_ne. Qed.

Lemma written_index w1 l1 seg' c rest f :
  written w1 l1 seg' -> char_digit c = None -> belongs (log_dir l +:+ String "/"%char (String c rest)) f ->
  w_files w1 !! f = w_files w !! f.
Proof.
  intros Hw Hc Hf. eapply written_other; [done|]. intros ->. revert Hf.
  apply (segment_file_not_index _ _ _ _ _ (b, seg) _ _ rep_segs); [|done]. apply elem_of_app. right. by left.
Qed.

Lemma written_segs w1 l1 seg' :
  written w1 l1 seg' -> segs_rep w1 (log_dir l1) (segments l1) ess' next'.
Proof.
  intros Hw. pose proof Hw as []. rewrite wr_dir0, wr_segments0.
  eapply (segs_rep_grow w); [apply rep_segs|done|done|done|done| |apply Hbatch..].
  intros f Hf. by eapply written_other.
Qed.

Lemma batch_first : exists first rest, batch = first :: rest /\ sn first = next /\ sized first.
Proof.
  destruct Hbatch as [Hne Hen Hsn _]. destruct batch as [|first rest]; [done|]. exists first, rest.
  rewrite seqZ_cons in Hsn by (cbn [length]; lia). injection Hsn as Hsn _.
  apply Forall_cons in Hen as [[? _] _]. done.
Qed.

Lemma batch_last back : last batch = Some back -> sn back + 1 = next'.
Proof.
  intros Hl. rewrite last_lookup in Hl. pose proof (bo_sn Hbatch) as Hsn.
  assert (Hs : (sn <$> batch) !! pred (length batch) = Some (sn back)) by (by rewrite list_lookup_fmap, Hl).
  rewrite Hsn in Hs. apply lookup_seqZ in Hs. lia.
Qed.

(** The indexes of before, and the entry the sequence index may get. *)
Lemma written_indexes w1 l1 seg' :
  written w1 l1 seg' ->
  let sp := mkSequencePosition next (globalSegmentFilePosition (seg_id seg') (size_of es)) in
  exists ps ts,
    index_of (pos_name l1) ps (MonoState w1 (sn_pos_index l1)) /\ Forall (points (segments l1) ess') ps /\
    index_of (ts_name l1) ts (MonoState w1 (event_ts_sn_index l1)) /\
    times_below (max_etimestamp_and_sn_so_far l1) next' ts /\
    kv_valid sp /\ points (segments l1) ess' sp /\ Forall (fun a => key a < key sp /\ value a < value sp) ps.
Proof.
  intros Hw sp. pose proof Hw as []. destruct (lr_pos HL) as (ps & Hps & Hpts).
  destruct (lr_ts HL) as (ts & Hts & Htb). rewrite Hsegs in Hpts. pose proof rep_segs as HR.
  pose proof HR as HR'. apply segs_rep_snoc in HR' as (_ & _ & Hla).
  pose proof (la_id Hla). pose proof (la_small Hla). pose proof (size_of_nonneg es).
  destruct batch_first as (first & rest & Hbt & Hsn & Hsz).
  exists ps, ts. unfold pos_name, ts_name. rewrite wr_dir0, wr_pos0, wr_ts0, wr_segments0. split_and!.
  - eapply index_of_frame; [exact Hps|]. intros f Hf. by eapply (written_index _ _ _ "s" "n-pos.idx").
  - eapply Forall_impl; [exact Hpts|]. intros x. by apply (points_grow w (log_dir l) psegs b seg pre es next).
  - eapply index_of_frame; [exact Hts|]. intros f Hf. by eapply (written_index _ _ _ "t" "s-sn.idx").
  - by eapply times_raised; [done|done|lia].
  - split; cbn; [rewrite <- Hsn; apply Hsz|]. rewrite wr_id0, position_value by lia. unfold u64. lia.
  - unfold sp. rewrite wr_id0. by eapply (new_point w).
  - apply Forall_forall. intros x Hx. rewrite Forall_forall in Hpts. unfold sp. rewrite wr_id0.
    apply (points_below w (log_dir l) psegs b seg pre es next HR); [by apply Hpts|].
    eapply index_valid; [exact Hps|done].
Qed.

(** The log with the entries [ess], and with its indexes unless the kernel refused a
    call. *)
Record log_after (ess : list (list Entry)) (nxt : Z) (s' : loglet_state) : Prop := {
  af_evolves : evolves w0 (ls_world s');
  af_dir : log_dir (ls_loglet s') = log_dir l;
  af_segs : segs_rep (ls_world s') (log_dir l) (segments (ls_loglet s')) ess nxt;
  af_next : next_meta (ls_loglet s') ess nxt;
  af_indexes : (indexes_rep (ls_world s') (ls_loglet s') ess nxt /\ usable l (ls_loglet s')) \/ ~ benign w0;
  af_config : log_config (ls_loglet s') = log_config l;
  af_doomed : to_delete (ls_loglet s') = to_delete l;
  af_max : timestamp (max_etimestamp_and_sn_so_far l) <= timestamp (max_etimestamp_and_sn_so_far (ls_loglet s'));
  af_ids : forall K, Forall (fun x => seg_id x.2 < K) (segments l) ->
    Forall (fun x => seg_id x.2 < K + 1) (segments (ls_loglet s'));
  af_names : forall x, x ∈ segments l ->
    exists x', x' ∈ segments (ls_loglet s') /\ Segment.filename x'.2 = Segment.filename x.2;
  af_files : forall f, ~ belongs (ts_name l) f -> ~ belongs (pos_name l) f ->
    Forall (fun x => f <> Segment.filename x.2) (segments (ls_loglet s')) ->
    w_files (ls_world s') !! f = w_files w !! f;
}.

(** After the indexes, before the next sequence number. *)
Record indexed (seg' : LogSegment) (s : loglet_state) : Prop := {
  ix_evolves : evolves w0 (ls_world s);
  ix_dir : log_dir (ls_loglet s) = log_dir l;
  ix_segments : segments (ls_loglet s) = psegs ++ [(b, seg')];
  ix_segs : segs_rep (ls_world s) (log_dir l) (psegs ++ [(b, seg')]) ess' next';
  ix_indexes : (indexes_rep (ls_world s) (ls_loglet s) ess' next' /\ usable l (ls_loglet s)) \/ ~ benign w0;
  ix_config : log_config (ls_loglet s) = log_config l;
  ix_doomed : to_delete (ls_loglet s) = to_delete l;
  ix_max : timestamp (max_etimestamp_and_sn_so_far l) <= timestamp (max_etimestamp_and_sn_so_far (ls_loglet s));
  ix_id : seg_id seg' = seg_id seg;
  ix_name : Segment.filename seg' = Segment.filename seg;
  ix_files : forall f, ~ belongs (ts_name l) f -> ~ belongs (pos_name l) f -> f <> Segment.filename seg ->
    w_files (ls_world s) !! f = w_files w !! f;
}.

Lemma wp_append_index w1 l1 seg' (c : bool) (Q : unit -> loglet_state -> Prop) E :
  written w1 l1 seg' -> searchable (event_ts_sn_index l) -> ids_room (event_ts_sn_index l) ->
  ids_room (sn_pos_index l) ->
  (forall s', indexed seg' s' -> Q tt s') ->
  (forall x s', ~ benign w0 -> segs_rep (ls_world s') (log_dir l) (segments (ls_loglet s')) ess' next' -> E x s') ->
  wp (if c then Lglt.index_append d seg' (size_of es) next else ret tt) Q E (LogletState w1 l1).
Proof.
  intros Hw Hse Hidt Hidp HQ HE. pose proof (written_segs _ _ _ Hw) as HR.
  destruct (written_indexes _ _ _ Hw) as (ps & ts & Hps & Hpts & Hts & Htb & Hv & Hpt & Hlt).
  pose proof Hw as [].
  eapply (wp_maybe_index d w0 (LogletState w1 l1) ess' next' HR wr_evolves0 c seg' _ _ ps ts);
    cbn [ls_world ls_loglet]; rewrite ?wr_ts0, ?wr_pos0; try done.
  - by rewrite <- wr_pos0.
  - by rewrite <- wr_ts0.
  - intros s' HR' Hev' (i1 & i2 & n & Hl') Hfs' Hok. apply HQ. rewrite wr_dir0, wr_segments0 in HR'.
    split; try done; rewrite ?Hl'; try done.
    + destruct Hok as [[Hix [? ? ? ?]]|]; [left|by right]. rewrite <- Hl'. split; [done|].
      cbn [ls_loglet] in *. split; try done; by rewrite <- ?wr_ts0, <- ?wr_pos0.
    + cbn. destruct wr_max0 as [->|[? _]]; lia.
    + cbn [ls_world ls_loglet] in Hfs'. unfold ts_name, pos_name in *. rewrite wr_dir0 in Hfs'.
      intros f Hf1 Hf2 Hf3. rewrite Hfs' by done. by eapply written_other.
  - intros x s' Hb HR' Hsegs'. apply HE; [done|]. by rewrite Hsegs', <- wr_dir0.
Qed.

Lemma wp_append_update seg' s (Q : unit -> loglet_state -> Prop) E :
  indexed seg' s -> base_sn seg' = base_sn seg ->
  (forall s', log_after ess' next' s' -> Q tt s') ->
  wp (Lglt.updateNextLogSequence next' (base_sn seg') (Segment.size seg')) Q E s.
Proof.
  intros [] Hb HQ. apply wp_modify, HQ. split; cbn; try done.
  - by rewrite ix_segments0.
  - exists b, seg', (es ++ batch). cbn. rewrite ix_segments0, !last_snoc. split_and!; [done|done|].
    apply segs_rep_snoc in ix_segs0 as (_ & _ & Hla). rewrite (la_base Hla).
    by rewrite (segment_on_size _ _ _ (la_file Hla)).
  - destruct ix_indexes0 as [([] & [])|]; [left|by right]. done.
  - intros K HK. rewrite ix_segments0. rewrite Hsegs in HK. apply Forall_snoc in HK as [HK1 HK2]. cbn in HK2.
    apply Forall_snoc. split; [eapply Forall_impl; [exact HK1|]; cbn; lia|cbn; lia].
  - intros x. rewrite ix_segments0, Hsegs. apply snoc_named. by rewrite ix_name0.
  - intros f Hf1 Hf2. rewrite ix_segments0. intros [_ Hf3]%Forall_snoc. cbn in Hf3. apply ix_files0; congruence.
Qed.

(** What an append leaves: the log with the batch, or an error and the first [n] bytes
    of it; with no byte written the log is as before. *)
Definition append_result (r : nat * Z) (s' : loglet_state) : Prop :=
  (r = (length (encode_entries batch), 0) /\ log_after ess' next' s') \/
  (r.2 <> 0 /\ ~ benign w0 /\
   w_files (ls_world s') = <[Segment.filename seg := encode_entries es ++ take r.1 (encode_entries batch)]> (w_files w) /\
   (r.1 = 0%nat -> log_rep (ls_world s') (ls_loglet s') (pre ++ [es]) next)).

Lemma put_active seg' :
  base_sn seg' = base_sn seg -> om_insert (base_sn seg') seg' (segments l) = psegs ++ [(b, seg')].
Proof.
  intros Hb. pose proof rep_segs as HR. pose proof (Segments.wf_sorted _ (lr_wf HR)) as Hs.
  apply segs_rep_snoc in HR as (_ & _ & Hla). rewrite Hsegs, Hb, (la_base Hla). by apply om_insert_middle.
Qed.

Lemma active_segment : Segments.activeSegment (segments l) = Some seg.
Proof. unfold Segments.activeSegment, Segments.lastSegment. by rewrite Hsegs, last_snoc. Qed.

(** A failed append that left nothing behind. *)
Lemma append_nothing w1 n e seg' :
  appended w0 w seg (encode_entries es) (encode_entries batch) (n, e, seg') w1 -> n = 0%nat ->
  log_rep w1 (set_segments (psegs ++ [(b, seg')]) l) (pre ++ [es]) next.
Proof.
  intros (Hev1 & _ & _ & -> & Hfs & _) ->. pose proof rep_segs as HR.
  apply segs_rep_snoc in HR as (_ & _ & Hla). pose proof (la_file Hla) as Hon.
  assert (Hsame : Segment.set_log (Fle.set_bytes (Z.of_nat (length (encode_entries es) + 0)) (log seg)) seg = seg).
  { rewrite Nat.add_0_r, <- (sr_bytes _ _ _ Hon). by destruct seg as [? ? ? []]. }
  rewrite Hsame, <- Hsegs. replace (set_segments (segments l) l) with l by (by destruct l).
  assert (Hfs' : w_files w1 = w_files w).
  { rewrite Hfs, take_0, app_nil_r. apply insert_id. by apply segment_on_filename. }
  destruct (lr_pos HL) as (ps & Hps & Hpts).
  replace l with (set_sn_pos_index (sn_pos_index l) l) by (by destruct l).
  eapply log_rep_world; [done|done| |exact Hpts]. eapply index_of_frame; [exact Hps|]. intros f _. by rewrite Hfs'.
Qed.

(** The segment is written; what the counters are set to does not matter. *)
Lemma written_counted w1 seg' l2 flushed bytes since :
  appended w0 w seg (encode_entries es) (encode_entries batch) (length (encode_entries batch), 0, seg') w1 ->
  (let l1 := set_segments (psegs ++ [(b, seg')]) l in
   l2 = l1 \/ exists m, l2 = set_max_etimestamp m l1 /\
     timestamp (max_etimestamp_and_sn_so_far l) < timestamp m /\ next <= ts_sn m < next' /\ kv_valid m) ->
  written w1 (set_flushed flushed bytes (set_bytes_since_last_index_entry since l2)) seg'.
Proof.
  intros (Hev1 & _ & _ & Hseg' & Hfs & Hon') Hl2. rewrite firstn_all, <- encode_entries_app in Hfs, Hon'.
  destruct Hl2 as [->|(m & -> & Hm)]; split; try done; rewrite Hseg'; try done; [by left|by right].
Qed.

Context (Hse : searchable (event_ts_sn_index l)) (Hidt : ids_room (event_ts_sn_index l))
  (Hidp : ids_room (sn_pos_index l)).

Lemma wp_loglet_append_batch max_event_ts (Q : nat * Z -> loglet_state -> Prop) E :
  (timestamp (max_etimestamp_and_sn_so_far l) < timestamp max_event_ts ->
     next <= ts_sn max_event_ts < next' /\ kv_valid max_event_ts) ->
  (forall r s', append_result r s' -> Q r s') ->
  (forall x s', ~ benign w0 -> segs_rep (ls_world s') (log_dir l) (segments (ls_loglet s')) ess' next' -> E x s') ->
  wp (Lglt.append_batch d batch (serialize_to <$> batch) (length (encode_entries batch)) max_event_ts) Q E
    (LogletState w l).
Proof.
  intros Hmax HQ HE. unfold Lglt.append_batch, Lglt.activeSegment.
  apply wp_bind, wp_bind, wp_gets. cbn [ls_loglet]. rewrite active_segment. apply wp_ret.
  pose proof rep_segs as HR. apply segs_rep_snoc in HR as (_ & _ & Hla). pose proof (la_file Hla) as Hon.
  destruct batch_first as (first & rest & Hbt & Hsn & Hsz).
  apply wp_bind, wp_zoom. eapply (wp_seg_append_batch w0); [done|exact Hon| |done|].
  { change (encode_entries batch <> []). rewrite Hbt, encode_entries_cons. intros Heq.
    apply (f_equal length) in Heq. rewrite length_app, length_serialize_to in Heq. cbn in Heq. lia. }
  intros [[n e] seg'] w1 Happ. change (concat (serialize_to <$> batch)) with (encode_entries batch) in Happ.
  pose proof Happ as (Hev1 & Hn & Hcase & Hseg' & Hfs & Hon').
  apply wp_bind, wp_modify. cbn [ls_world ls_loglet]. rewrite put_active by (by rewrite Hseg').
  destruct (Z.eqb_spec e 0) as [->|He]; cbn [negb].
  2: { apply wp_ret, HQ. right. split_and!; [done|by destruct Hcase as [[]|[]]|done|].
       intros Hn0. by eapply append_nothing. }
  destruct Hcase as [[_ ->]|[[=] _]]. apply wp_bind, wp_modify, wp_bind, wp_modify. cbn [ls_world ls_loglet].
  match goal with |- wp _ _ _ (LogletState w1 ?x) => set (l2 := x) end.
  assert (Hw : written w1 l2 seg').
  { apply written_counted; [done|]. cbn.
    destruct (Z.ltb_spec (timestamp (max_etimestamp_and_sn_so_far l)) (timestamp max_event_ts)); [right|by left].
    exists max_event_ts. split; [done|]. split; [done|]. by apply Hmax. }
  clearbody l2. apply wp_bind, wp_gets, wp_bind, wp_gets, wp_bind.
  eapply wp_defined; [by rewrite Hbt|]. rewrite (segment_on_size _ _ _ Hon), Hsn. apply wp_bind.
  eapply wp_append_index; [done|done|done|done| |done]. intros s2 Hix.
  destruct (last batch) as [back|] eqn:Hback; [|by apply last_None in Hback; rewrite Hbt in Hback].
  apply wp_bind, wp_ret, wp_bind. rewrite (batch_last _ Hback).
  eapply wp_append_update; [done|apply Hw|]. intros s3 Haf. apply wp_ret, HQ. by left.
Qed.

(** A single entry goes the same way. *)
Lemma wp_append_one e (Q : nat * Z -> loglet_state -> Prop) E :
  batch = [e] ->
  (forall r s', append_result r s' -> Q r s') ->
  (forall x s', ~ benign w0 -> segs_rep (ls_world s') (log_dir l) (segments (ls_loglet s')) ess' next' -> E x s') ->
  wp (Lglt.append d (serialize_to e) e) Q E (LogletState w l).
Proof.
  intros Hbt HQ HE. unfold Lglt.append, Lglt.activeSegment.
  apply wp_bind, wp_bind, wp_gets. cbn [ls_loglet]. rewrite active_segment. apply wp_ret.
  pose proof rep_segs as HR. apply segs_rep_snoc in HR as (_ & _ & Hla). pose proof (la_file Hla) as Hon.
  destruct batch_first as (first & rest & Hbt' & Hsn & Hsz). rewrite Hbt' in Hbt. injection Hbt as -> ->.
  assert (Henc : encode_entries batch = serialize_to e) by (rewrite Hbt', encode_entries_cons; apply app_nil_r).
  apply wp_bind, wp_zoom. rewrite <- Henc. eapply (wp_seg_append w0); [done|exact Hon|].
  intros [[n c] seg'] w1 Happ. pose proof Happ as (Hev1 & Hn & Hcase & Hseg' & Hfs & Hon').
  apply wp_bind, wp_modify. cbn [ls_world ls_loglet]. rewrite put_active by (by rewrite Hseg').
  destruct (Z.eqb_spec c 0) as [->|He]; cbn [negb].
  2: { apply wp_ret, HQ. right. split_and!; [done|by destruct Hcase as [[]|[]]|done|].
       intros Hn0. by eapply append_nothing. }
  destruct Hcase as [[_ ->]|[[=] _]]. apply wp_bind, wp_modify, wp_bind, wp_modify. cbn [ls_world ls_loglet].
  match goal with |- wp _ _ _ (LogletState w1 ?x) => set (l2 := x) end.
  assert (Hw : written w1 l2 seg').
  { apply written_counted; [done|]. cbn.
    destruct (Z.ltb_spec (timestamp (max_etimestamp_and_sn_so_far l)) (max_event_timestamp e)); [right|by left].
    eexists. split; [done|]. split; [done|]. split; [|split; apply Hsz]. rewrite Hbt'. cbn. lia. }
  clearbody l2. apply wp_bind, wp_gets, wp_bind, wp_gets, wp_bind.
  rewrite (segment_on_size _ _ _ Hon), Hsn.
  eapply wp_append_index; [done|done|done|done| |done]. intros s2 Hix. apply wp_bind.
  replace (next + 1) with next' by (rewrite Hbt'; cbn; lia).
  eapply wp_append_update; [done|apply Hw|]. intros s3 Haf. apply wp_ret, HQ. by left.
Qed.
End Append.

Lemma log_after_rep w0 w l ess nxt s' :
  log_after w0 w l ess nxt s' -> benign w0 ->
  log_rep (ls_world s') (ls_loglet s') ess nxt /\ usable l (ls_loglet s').
Proof.
  intros [Hev Hd HR Hn [[Hix Hu]|Hb] _ _ _ _ _ _] Hben; [|done]. split; [|done]. split; [by rewrite Hd|done|done].
Qed.
