(* ===== verification/LogletRoll.v ===== *)
(** * Rolling a loglet

    [roll] seals the active segment and starts an empty one behind it; the entries,
    their numbers and the indexes stay. *)

From Stdlib Require Import Ascii String.
From S2P Require Import Prelude Ordered Os AppendOnlyFile Frame Codec KeyValues Names MonoMap MonoMapFrame.
From S2P Require Import MonoMapLoad MonoMapRep MonoMapUpdate MonoMapRecover Entry FileLogEntries FleSpec.
From S2P Require Import SegmentNames LogConfig LogSegment SegmentSpec LogSegments LogTypes IndexSpec Indexes.
From S2P Require Import Loglet LogletRep LogletAppend.

Local Open Scope Z_scope.

(** ** Flushing *)

Section Roll.
Context (d : directory) (w0 : world) (w : world) (l : Loglet) (psegs : LogSegments) (b : Z) (seg : LogSegment)
  (pre : list (list Entry)) (es : list Entry) (next : Z).
Context (HL : log_rep w l (pre ++ [es]) next) (Hsegs : segments l = psegs ++ [(b, seg)]) (Hev : evolves w0 w).

(** A flush changes nothing but what is known to be on the disk. *)
Lemma log_rep_flushed w1 :
  evolves w0 w1 -> w_files w1 = w_files w ->
  let seg' := Segment.set_last_sync_offset (Segment.size seg) seg in
  log_rep w1 (set_flushed next 0 (set_segments (psegs ++ [(b, seg')]) l)) (pre ++ [es]) next.
Proof.
  intros Hev1 Hfs seg'. pose proof (rep_segs w l psegs b seg pre es next HL Hsegs) as HR.
  pose proof HR as HR'. apply segs_rep_snoc in HR' as (HP & Hlt & Hla).
  assert (Hfs' : forall f, w_files w1 !! f = w_files w !! f) by (intros; by rewrite Hfs).
  split.
  - cbn. apply segs_rep_snoc. split_and!; [by eapply segs_rep_frame|done|].
    pose proof (la_file Hla) as [(? & ? & ?) ? ? ? ?]. destruct Hla. split; try done.
    split; try done. split_and!; try done. cbn. by rewrite Hfs'.
  - destruct (lr_next HL) as (b' & s' & es' & Hl & He & Hm). rewrite Hsegs, last_snoc in Hl. injection Hl as <- <-.
    exists b, seg', es'. cbn. by rewrite last_snoc.
  - destruct (lr_pos HL) as (ps & Hps & Hpts). destruct (lr_ts HL) as (ts & Hts & Htb). split.
    + exists ps. split; [by eapply index_of_frame; [exact Hps|]|]. cbn. rewrite Hsegs in Hpts.
      eapply Forall_impl; [exact Hpts|]. intros sp Hsp.
      rewrite <- (app_nil_r es). by apply (points_grow w (log_dir l) psegs b seg pre es next HR).
    + exists ts. split; [|done]. by eapply index_of_frame; [exact Hts|].
Qed.

Lemma wp_flushActiveSegment (Q : unit -> loglet_state -> Prop) E :
  (forall w1 seg', evolves w0 w1 -> w_files w1 = w_files w -> seg' = Segment.set_last_sync_offset (Segment.size seg) seg ->
     Q tt (LogletState w1 (set_flushed next 0 (set_segments (psegs ++ [(b, seg')]) l)))) ->
  (forall x w1, evolves w0 w1 -> w_files w1 = w_files w -> ~ benign w0 -> E x (LogletState w1 l)) ->
  wp Lglt.flushActiveSegment Q E (LogletState w l).
Proof.
  intros HQ HE. pose proof (rep_segs w l psegs b seg pre es next HL Hsegs) as HR.
  apply segs_rep_snoc in HR as (_ & _ & Hla). unfold Lglt.flushActiveSegment, Lglt.activeSegment.
  apply wp_bind, wp_gets, wp_bind, wp_bind, wp_gets. cbn [ls_loglet].
  rewrite (active_segment l psegs b seg Hsegs). apply wp_ret, wp_bind, wp_gets, wp_bind, wp_zoom.
  eapply (wp_seg_flush w0); [done|apply (la_file Hla)| |].
  - intros w1 Hev1 Hfs1. apply wp_bind, wp_modify, wp_modify. cbn [ls_world ls_loglet].
    rewrite (put_active w l psegs b seg pre es next HL Hsegs) by done.
    destruct (lr_next HL) as (? & ? & ? & _ & _ & ->). by apply HQ.
  - intros e w1 Hev1 Hfs1 Hb. by apply HE.
Qed.

(** ** Starting a segment *)

(** Old positions are positions of the log with a new segment. *)
Lemma points_new_segment segs ess sn new sp :
  length segs = length ess -> segs <> [] -> Forall (fun x => x.1 < sn /\ seg_id x.2 < seg_id new) segs ->
  points segs ess sp -> points (segs ++ [(sn, new)]) (ess ++ [[]]) sp.
Proof.
  intros Hlen Hne Hlt [(s0 & es1 & e & es2 & [(i & Hs & He)] & Hsn & Hfp)|Hgone].
  - left. exists s0, es1, e, es2. split_and!; [split; exists i|done|done].
    pose proof (lookup_lt_Some _ _ _ Hs). pose proof (lookup_lt_Some _ _ _ He).
    by rewrite !lookup_app_l by done.
  - right. apply Forall_snoc. split; [done|]. destruct segs as [|x segs]; [done|].
    apply Forall_cons in Hgone as [[? ?] _]. apply Forall_cons in Hlt as [[? ?] _]. split; cbn [snd fst]; lia.
Qed.

(** A segment that starts where the log ends. *)
Lemma segs_rep_new segs ess new w1 w2 :
  segs_rep w1 (log_dir l) segs ess next -> Forall (fun x => x.1 < next /\ seg_id x.2 < seg_id new) segs ->
  (forall f, f <> Segment.filename new -> w_files w2 !! f = w_files w1 !! f) ->
  base_sn new = next -> Segment.filename new = logFile (log_dir l) (seg_id new) next EmptyString ->
  segment_on w2 new [] -> 0 <= seg_id new < 2 ^ 28 -> i64 next ->
  segs_rep w2 (log_dir l) (segs ++ [(next, new)]) (ess ++ [[]]) next.
Proof.
  intros HR Hlt Hfs Hbase Hname Hon Hid Hi. apply segs_rep_snoc. split_and!; [|done|].
  - eapply segs_rep_frame; [exact HR|]. intros x Hx. apply Hfs. rewrite Hname. rewrite Forall_forall in Hlt.
    eapply new_file_apart; [done|done|by apply Hlt|unfold u64; lia|done].
  - split; try done. cbn. lia.
Qed.

Context (Hse : searchable (event_ts_sn_index l)) (Hidt : ids_room (event_ts_sn_index l)).

(** There is room for a segment with the next id, and its file is not there. *)
Record roll_room : Prop := {
  rr_entries : b < next;
  rr_next : i64 next;
  rr_id : seg_id seg + 1 < 2 ^ 28;
  rr_file : w_files w !! logFile (log_dir l) (seg_id seg + 1) next EmptyString = None;
}.
Context (Hroom : roll_room).

(** The state after the new segment is there. *)
Lemma roll_state w2 l2 w3 new seg1 ix ts' :
  let s3 := LogletState w3 (set_flushed (Z.min (last_flushed_sn l2) (next - 1)) (unflushed_bytes l2)
              (set_next_sn_meta (mkLogSequenceMetadata next (Some next) (Some 0))
                 (set_segments ((psegs ++ [(b, seg1)]) ++ [(next, new)]) l2))) in
  seg_id seg1 = seg_id seg -> Segment.filename seg1 = Segment.filename seg -> segments l2 = psegs ++ [(b, seg1)] ->
  log_dir l2 = log_dir l -> log_config l2 = log_config l -> to_delete l2 = to_delete l -> sn_pos_index l2 = sn_pos_index l -> event_ts_sn_index l2 = ix ->
  max_etimestamp_and_sn_so_far l2 = max_etimestamp_and_sn_so_far l ->
  segs_rep w2 (log_dir l) (psegs ++ [(b, seg1)]) (pre ++ [es]) next -> evolves w0 w3 ->
  (exists ps, index_of (pos_name l) ps (MonoState w2 (sn_pos_index l)) /\
     Forall (points (psegs ++ [(b, seg1)]) (pre ++ [es])) ps) ->
  (index_of (ts_name l) ts' (MonoState w2 ix) /\
     times_below (max_etimestamp_and_sn_so_far l) next ts' /\ searchable ix /\
     ids_grow 1 (event_ts_sn_index l) ix) \/ ~ benign w0 ->
  (forall f, ~ belongs (ts_name l) f -> w_files w2 !! f = w_files w !! f) ->
  w_files w3 = <[logFile (log_dir l) (seg_id seg + 1) next EmptyString := []]> (w_files w2) ->
  seg_id new = seg_id seg + 1 -> base_sn new = next ->
  Segment.filename new = logFile (log_dir l) (seg_id seg + 1) next EmptyString -> segment_on w3 new [] ->
  log_after w0 w l ((pre ++ [es]) ++ [[]]) next s3.
Proof.
  intros s3 Hid1 Hn1 Hs2 Hd2 Hc2 Hdm2 Hp2 Ht2 Hm2 HR2 Hev3 (ps & Hps & Hpts) Hts Hfs2 Hfs Hnid Hnb Hnn Hon.
  pose proof HR2 as HR'. apply segs_rep_snoc in HR' as (HP & Hlt & Hla). pose proof (la_id Hla) as Hid.
  assert (Hlt' : Forall (fun x => x.1 < next /\ seg_id x.2 < seg_id new) (psegs ++ [(b, seg1)])).
  { destruct Hroom. apply Forall_snoc. split; [|cbn; lia].
    eapply Forall_impl; [exact Hlt|]. intros x [? ?]. lia. }
  assert (Hfs' : forall f, f <> Segment.filename new -> w_files w3 !! f = w_files w2 !! f).
  { intros f Hf. rewrite Hfs, lookup_insert_ne; [done|]. congruence. }
  assert (Hix : forall c rest f, char_digit c = None -> belongs (log_dir l +:+ String "/"%char (String c rest)) f ->
    w_files w3 !! f = w_files w2 !! f).
  { intros c rest f Hc Hf. apply Hfs'. intros ->. revert Hf. rewrite Hnn.
    apply logFile_not_index; [|done]. destruct Hroom. unfold u64. lia. }
  split; cbn [s3 ls_world ls_loglet]; [done|done| | | |done|done|cbn; by rewrite Hm2| | |].
  - cbn. apply (segs_rep_new _ _ new w2); try done; [by rewrite Hnid|destruct Hroom; lia|apply Hroom].
  - exists next, new, []. cbn. by rewrite !last_snoc.
  - destruct Hts as [(Hts & Htb & Hsx & Hg)|]; [left|by right].
    split; [|split; cbn; rewrite ?Ht2, ?Hp2; try done; by apply ids_grow_refl].
    split; unfold pos_name, ts_name; cbn; rewrite ?Hd2, ?Hp2, ?Ht2, ?Hm2.
    + exists ps. split; [eapply index_of_frame; [exact Hps|]; intros f; by apply (Hix "s"%char)|].
      eapply Forall_impl; [exact Hpts|]. intros sp Hsp. apply points_new_segment; try done.
      * eapply Forall2_length, (lr_files HR2).
      * by destruct psegs.
    + exists ts'. split; [|done]. eapply index_of_frame; [exact Hts|]. intros f. by apply (Hix "t"%char).
  - intros K. cbn. rewrite Hsegs. intros [HK1 HK2]%Forall_snoc. cbn in HK2. apply Forall_snoc. split; [|cbn; lia].
    apply Forall_snoc. split; [eapply Forall_impl; [exact HK1|]; cbn; lia|cbn; lia].
  - intros x. cbn. rewrite Hsegs. intros Hx. apply (snoc_named _ _ _ seg1) in Hx as (x' & Hx' & Hxn); [|done].
    exists x'. split; [|done]. apply elem_of_app. by left.
  - intros f Hf1 Hf2. cbn. intros [_ Hf3]%Forall_snoc. cbn in Hf3. rewrite Hfs' by done. by apply Hfs2.
Qed.

Lemma wp_roll_log expected (Q : LogSegment -> loglet_state -> Prop) E :
  default 0 expected <= next ->
  (forall new s', log_after w0 w l ((pre ++ [es]) ++ [[]]) next s' -> base_sn new = next ->
     last (segments (ls_loglet s')) = Some (next, new) -> Q new s') ->
  (forall x s', ~ benign w0 ->
     segs_rep (ls_world s') (log_dir l) (segments (ls_loglet s')) (pre ++ [es]) next -> E x s') ->
  wp (Lglt.roll d expected) Q E (LogletState w l).
Proof.
  intros Hexp HQ HE. unfold Lglt.roll, Lglt.activeSegment. apply wp_bind, wp_flushActiveSegment.
  2: { intros x w1 Hev1 Hfs1 Hb. apply HE; [done|]. cbn. eapply segs_rep_frame; [apply HL|]. intros f _. by rewrite Hfs1. }
  intros w1 seg1 Hev1 Hfs1 Hseg1. pose proof (log_rep_flushed w1 Hev1 Hfs1) as HL1. cbv zeta in HL1.
  rewrite <- Hseg1 in HL1. set (l1 := set_flushed _ _ _) in *. set (s1 := LogletState w1 l1).
  assert (Hn1 : entry_sn (next_sn_meta l1) = next) by (by destruct (lr_next HL1) as (? & ? & ? & _ & _ & ->)).
  apply wp_bind, wp_gets. cbn [ls_loglet s1]. rewrite Hn1, Z.max_r by done.
  apply wp_bind, wp_bind, wp_gets. cbn [ls_loglet s1].
  rewrite (active_segment l1 psegs b seg1) by done. apply wp_ret, wp_bind, wp_gets, wp_bind.
  destruct (lr_pos HL1) as (ps & Hps & Hpts). destruct (lr_ts HL1) as (ts & Hts & Htb).
  eapply (wp_index_ts d w0 s1 (pre ++ [es]) next (lr_segs HL1) Hev1 ts ps); try done.
  2: { intros x s' Hb HR' Hs'. apply HE; [done|]. by rewrite Hs'. }
  intros r w2 ix ts' HR2 Hev2 Hps2 Hfr2 Hts2. cbn [ls_world ls_loglet s1] in *.
  assert (Hid1 : seg_id seg1 = seg_id seg) by (by rewrite Hseg1).
  apply wp_bind, wp_gets. cbn [ls_loglet]. apply wp_bind, wp_zoom.
  eapply (wp_seg_create w0); [done| | |].
  - cbn. rewrite Hid1, Hfr2, Hfs1; [apply Hroom|]. apply (logFile_not_index (log_dir l)); [|done].
    pose proof (rep_segs w l psegs b seg pre es next HL Hsegs) as HR. apply segs_rep_snoc in HR as (_ & _ & Hla).
    pose proof (la_id Hla). destruct Hroom. unfold u64. lia.
  - intros new w3 Hev3 Hfs3 Hnid Hnb Hnn Hon. rewrite Hid1 in Hnid, Hnn, Hfs3.
    apply wp_bind, wp_modify, wp_bind, wp_gets, wp_bind, wp_modify, wp_ret. cbn [ls_world ls_loglet].
    set (l2 := set_event_ts_sn_index ix l1).
    change (entry_sn (next_sn_meta (set_segments _ l2))) with (entry_sn (next_sn_meta l1)).
    rewrite Hn1, Hnb, (segment_on_size _ _ _ Hon). change (segments l2) with (psegs ++ [(b, seg1)]).
    unfold Segments.add. rewrite Hnb, om_insert_last.
    + apply HQ; [|done|cbn; by rewrite last_snoc].
      apply (roll_state w2 l2 w3 new seg1 ix ts'); try done; [by rewrite Hseg1|by exists ps|].
      intros f Hf. rewrite Hfr2 by done. by rewrite Hfs1.
    + pose proof HR2 as HR'. apply segs_rep_snoc in HR' as (_ & Hlt & _). apply Forall_snoc.
      split; [|apply Hroom]. eapply Forall_impl; [exact Hlt|]. intros x [? _]. destruct Hroom. lia.
  - intros x w3 Hev3 Hb Hfs3. apply HE; [done|]. cbn. eapply segs_rep_frame; [exact HR2|]. intros y Hy. apply Hfs3.
    rewrite Hid1. pose proof HR2 as HR'. apply segs_rep_snoc in HR' as (_ & Hlt & Hla). pose proof (la_id Hla).
    eapply new_file_apart; [exact HR2|done| |destruct Hroom; unfold u64; lia|apply Hroom].
    apply elem_of_app in Hy as [Hy|Hy]; [|apply list_elem_of_singleton in Hy as ->; cbn; lia].
    rewrite Forall_forall in Hlt. destruct (Hlt y Hy). lia.
Qed.
End Roll.
