(* ===== verification/LogletTrim.v ===== *)
(** * Trimming a loglet

    [trim] cuts the log at a sequence number: the entries below it stay, in the same
    segments, and the next entry gets that number.  The segments behind the cut leave
    the log and their files are renamed. *)

From Stdlib Require Import Ascii String.
From S2P Require Import Prelude Ordered Os AppendOnlyFile Frame Codec KeyValues Names MonoMap MonoMapFrame.
From S2P Require Import MonoMapLoad MonoMapRep MonoMapUpdate MonoMapRecover MonoMapTrim Entry FileLogEntries.
From S2P Require Import FleSpec SegmentNames LogConfig LogSegment SegmentSpec LogSegments LogTypes IndexSpec.
From S2P Require Import Indexes Loglet LogletRep LogletAppend.

Local Open Scope Z_scope.

(** ** Cutting the log *)

(** The first segments of a log are a log. *)
Lemma segs_rep_app w dir segs upp ess ups next :
  segs_rep w dir (segs ++ upp) (ess ++ ups) next -> length segs = length ess ->
  exists next', segs_rep w dir segs ess next' /\ next' <= next.
Proof.
  revert ups next. induction upp as [|[b seg] upp IH] using rev_ind; intros ups next HR Hlen.
  - pose proof (Forall2_length _ _ _ (lr_files HR)) as Hl. rewrite !length_app in Hl. cbn in Hl.
    destruct ups; [|cbn in Hl; lia]. rewrite !app_nil_r in HR. by exists next.
  - pose proof (Forall2_length _ _ _ (lr_files HR)) as Hl. rewrite !length_app in Hl. cbn in Hl.
    destruct ups as [|es ups _] using rev_ind; [cbn in Hl; lia|].
    rewrite !app_assoc in HR. apply segs_rep_snoc in HR as (HP & _ & Hla).
    destruct (IH _ _ HP Hlen) as (next' & Hn & Hle). exists next'. split; [done|]. rewrite (la_next Hla). lia.
Qed.

(** The segment a sequence number is in, what is before it and what is behind it. *)
Lemma cut_log w dir segs ess next target seg :
  segs_rep w dir segs ess next -> Segments.floorSegment target segs = Some seg -> target < next ->
  exists psegs upp pre es1 e es2 ups,
    segs = (psegs ++ [(base_sn seg, seg)]) ++ upp /\ ess = (pre ++ [es1 ++ e :: es2]) ++ ups /\
    length psegs = length pre /\ sn e = target /\ Segments.upperSegments target segs = upp.*2 /\
    Forall (fun x => target < x.1) upp /\ entry_at segs ess seg es1 e es2.
Proof.
  intros HR Hfl Hlt. destruct (floor_entry HR _ _ Hfl Hlt) as (es1 & e & es2 & Hat & Hsn).
  pose proof (lr_wf HR) as Hwf. pose proof (Segments.wf_sorted _ Hwf) as Hs.
  pose proof (Segments.floorSegment_spec target _ Hwf) as Hf. rewrite Hfl, om_upto in Hf by done.
  pose proof (Segments.upperSegments_spec target _ Hwf) as Hu. rewrite om_above in Hu by done.
  pose proof (om_above target _ Hs) as Hab. set (n := om_upper_bound target segs) in *.
  destruct (last (take n segs)) as [[b s]|] eqn:Hl; [|done]. injection Hf as <-.
  apply last_Some in Hl as [psegs Hps].
  destruct Hat as [(i & Hi & He)].
  assert (Hb : b = base_sn seg).
  { pose proof (Segments.wf_base _ Hwf) as Hb. rewrite <- (take_drop n segs), Hps in Hb.
    apply Forall_app in Hb as [Hb _]. by apply Forall_snoc in Hb as [_ Hb]. }
  subst b.
  assert (Hi' : i = length psegs).
  { apply (sorted_lookup_inj _ _ _ _ _ (base_sn seg, seg) Hs Hi); [|cbn; lia..].
    rewrite <- (take_drop n segs), Hps, <- app_assoc. by apply list_lookup_middle. }
  subst i. apply take_drop_middle in He as Hess.
  exists psegs, (drop n segs), (take (length psegs) ess), es1, e, es2, (drop (S (length psegs)) ess).
  split_and!.
  - by rewrite <- Hps, take_drop.
  - by rewrite <- app_assoc.
  - rewrite length_take. apply lookup_lt_Some in He. lia.
  - done.
  - done.
  - rewrite <- Hab. apply Forall_forall. intros x Hx. by apply list_elem_of_filter in Hx as [? _].
  - split. eauto.
Qed.

(** The entries of a log are in order. *)
Lemma log_increasing w dir segs ess next :
  segs_rep w dir segs ess next -> sn_increasing (concat ess) /\ Forall (fun e => sn e < next) (concat ess).
Proof.
  revert ess next. induction segs as [|[b seg] segs IH] using rev_ind; intros ess next HR;
    pose proof (Forall2_length _ _ _ (lr_files HR)) as Hl.
  { destruct ess; [|done]. split; constructor. }
  rewrite length_app in Hl. cbn in Hl. destruct ess as [|es ess _] using rev_ind; [cbn in Hl; lia|].
  pose proof HR as HR'. apply segs_rep_snoc in HR' as (HP & _ & Hla). destruct (IH _ _ HP) as [Hi Hlt].
  assert (Hes : Forall (fun e => b <= sn e < next) es).
  { assert (Hall : Forall (fun x => b <= x < next) (sn <$> es)).
    { rewrite (la_sn Hla), (la_next Hla). apply Forall_seqZ. lia. }
    by rewrite Forall_fmap in Hall. }
  rewrite concat_app. cbn [concat]. rewrite app_nil_r. split.
  - apply StronglySorted_app_2; [|done|by eapply seqZ_increasing, (la_sn Hla)].
    rewrite Forall_forall in Hlt, Hes. intros x y Hx Hy. specialize (Hlt x Hx). specialize (Hes y Hy). lia.
  - rewrite Forall_forall in Hlt, Hes |- *. intros x Hx. apply elem_of_app in Hx as [Hx|Hx].
    + specialize (Hlt x Hx). rewrite (la_next Hla). lia.
    + by apply Hes.
Qed.

Lemma filter_below pre es1 e es2 ups :
  let ess := (pre ++ [es1 ++ e :: es2]) ++ ups in
  sn_increasing (concat ess) -> concat (pre ++ [es1]) = filter (fun x => sn x < sn e) (concat ess).
Proof.
  intros ess Hi.
  assert (Hc : concat ess = concat (pre ++ [es1]) ++ e :: es2 ++ concat ups).
  { unfold ess. rewrite !concat_app. cbn [concat]. by rewrite !app_nil_r, <- !app_assoc. }
  rewrite Hc in Hi |- *. rewrite filter_app, filter_cons, decide_False by lia.
  apply StronglySorted_app in Hi as (Hlt & _ & Hi). apply StronglySorted_inv in Hi as [_ Hgt].
  rewrite filter_all, filter_none, app_nil_r; [done|..].
  - eapply Forall_impl; [exact Hgt|]. cbn. lia.
  - apply Forall_forall. intros x Hx. apply Hlt; [done|left].
Qed.

Lemma last_segment_cut w dir b seg es1 e es2 next w' seg' :
  last_segment w dir b seg (es1 ++ e :: es2) next ->
  seg_id seg' = seg_id seg -> base_sn seg' = base_sn seg -> Segment.filename seg' = Segment.filename seg ->
  segment_on w' seg' (encode_entries es1) -> last_segment w' dir b seg' es1 (sn e).
Proof.
  intros Hla Hid Hb Hn Hon. pose proof (la_entries Hla) as Hen. apply Forall_app in Hen as [Hen _].
  pose proof (la_sn Hla) as Hsn. rewrite length_app, Nat2Z.inj_add, seqZ_app, fmap_app in Hsn by lia.
  apply app_inj_1 in Hsn as [Hsn1 Hsn2]; [|by rewrite length_fmap, length_seqZ, Nat2Z.id].
  rewrite seqZ_cons in Hsn2 by (cbn [length]; lia). injection Hsn2 as Hsn2 _.
  pose proof (la_small Hla) as Hsm. rewrite size_of_app in Hsm. pose proof (size_of_nonneg (e :: es2)).
  destruct Hla. split; rewrite ?Hid, ?Hb, ?Hn; try done. lia.
Qed.

(** Positions of entries before the cut are positions in what is left. *)
Lemma points_cut w dir psegs seg upp pre es1 e es2 ups next seg' sp :
  segs_rep w dir ((psegs ++ [(base_sn seg, seg)]) ++ upp) ((pre ++ [es1 ++ e :: es2]) ++ ups) next ->
  length psegs = length pre -> Forall (fun x => sn e < x.1) upp ->
  seg_id seg' = seg_id seg -> base_sn seg' = base_sn seg -> sp_sn sp < sn e ->
  points ((psegs ++ [(base_sn seg, seg)]) ++ upp) ((pre ++ [es1 ++ e :: es2]) ++ ups) sp ->
  points (psegs ++ [(base_sn seg, seg')]) (pre ++ [es1]) sp.
Proof.
  intros HR Hlen Hupp Hid Hb Hlt [(s0 & a1 & x & a2 & Hat & Hsn & Hfp)|Hgone].
  2: { right. apply Forall_app in Hgone as [Hgone _]. apply Forall_snoc in Hgone as [? ?]. apply Forall_snoc.
       cbn [fst snd] in *. by rewrite Hid. }
  left. pose proof Hat as [(i & Hs & He)].
  pose proof (numbered_lookup _ _ _ _ _ _ _ (length a1) x (lr_numbered HR) Hs He
    ltac:(by apply list_lookup_middle)) as Hx.
  destruct (Nat.lt_trichotomy i (length psegs)) as [Hi|[->|Hi]].
  - exists s0, a1, x, a2. split_and!; [split; exists i|done|done].
    rewrite <- !app_assoc in Hs, He. rewrite lookup_app_l in Hs by done. rewrite lookup_app_l in He by lia.
    by rewrite !lookup_app_l by lia.
  - assert (Hat0 : entry_at ((psegs ++ [(base_sn seg, seg)]) ++ upp) ((pre ++ [es1 ++ e :: es2]) ++ ups) seg es1 e es2).
    { split. exists (length psegs). rewrite <- !app_assoc. cbn [app]. rewrite list_lookup_middle by done.
      by rewrite Hlen, list_lookup_middle. }
    rewrite <- app_assoc in Hs. cbn [app] in Hs. rewrite list_lookup_middle in Hs by done. injection Hs as _ <-.
    destruct (entry_at_same HR _ _ _ _ _ _ _ Hat0 Hat) as [_ Hmid].
    destruct Hmid as (mid & -> & Hmid & Hiff); [lia|].
    destruct mid as [|x' mid]; [exfalso; assert (sn x = sn e) by (by apply Hiff); lia|]. injection Hmid as <- _.
    exists seg', a1, x, mid. rewrite Hid. split_and!; [split; exists (length psegs)|done|done].
    rewrite list_lookup_middle by done. rewrite Hlen, list_lookup_middle by done. by rewrite Hb.
  - assert (Hu : upp !! (i - length (psegs ++ [(base_sn seg, seg)]))%nat = Some (base_sn s0, s0)).
    { rewrite lookup_app_r in Hs; [done|]. rewrite length_app. cbn. lia. }
    pose proof (Forall_lookup_1 _ _ _ _ Hupp Hu) as Hgt. cbn in Hgt. lia.
Qed.

(** ** The segments that go *)

(** Renaming fails only when the kernel refuses; a file that is gone is no error. *)
Lemma wp_mark_deleted w0 segs w (Q : list LogSegment -> world -> Prop) E :
  evolves w0 w -> (forall marked w', evolves w0 w' -> Q marked w') -> (forall x w', ~ benign w0 -> E x w') ->
  wp (Lglt.mark_deleted segs) Q E w.
Proof.
  revert w Q. induction segs as [|seg segs IH]; intros w Q Hev HQ HE; cbn [Lglt.mark_deleted]; [by apply wp_ret, HQ|].
  assert (Hgo : forall w', evolves w0 w' -> forall seg',
    wp (bind (Lglt.mark_deleted segs) (fun rest => ret (seg' :: rest))) Q E w').
  { intros w' Hev' seg'. apply wp_bind, IH; [done| |done]. intros marked w2 Hev2. by apply wp_ret, HQ. }
  apply wp_bind, wp_attempt. unfold Segment.changeFileSuffix. destruct (String.eqb _ _).
  { apply wp_ret, wp_bind, wp_ret. by apply Hgo. }
  apply wp_bind, wp_map_err. unfold File.renameTo. apply wp_bind. apply (wp_syscall w0); [done| |].
  - intros w' Hev' Hfs'. apply wp_bind, wp_gets. destruct (w_files w' !! _).
    + apply wp_modify, wp_ret, wp_ret, wp_bind, wp_ret. by apply Hgo.
    + apply wp_fail. cbn. apply wp_bind, wp_ret. by apply Hgo.
  - intros e w' Hev' Hfs' Hb. destruct (_ =? FILE_DOESNT_EXIST); [apply wp_bind, wp_ret; by apply Hgo|].
    apply wp_bind, wp_fail. by apply HE.
Qed.

(** The files of the segments, with and without the suffix. *)
Definition deleted_files (segs : list LogSegment) (f : string) : Prop :=
  exists seg, seg ∈ segs /\ (f = Segment.filename seg \/ f = Segment.filename seg +:+ DELETED_FILE_SUFFIX).

Lemma keeps_mark_deleted fs0 all segs w :
  (forall seg, seg ∈ segs -> seg ∈ all) -> outside (deleted_files all) fs0 w ->
  keeps (outside (deleted_files all) fs0) (Lglt.mark_deleted segs) (fun _ => True) w.
Proof.
  revert w. induction segs as [|seg segs IH]; intros w Hin Ho; cbn [Lglt.mark_deleted]; [by apply keeps_ret|].
  assert (Hseg : seg ∈ all) by (apply Hin; left).
  eapply (keeps_bind _ _ _ (fun _ => True)).
  { eapply keeps_weaken; [|apply keeps_attempt]; [done|]. unfold Segment.changeFileSuffix.
    destruct (String.eqb _ _); [by apply (keeps_ret _ _ (fun _ => True))|].
    eapply keeps_bind; [apply keeps_map_err, keeps_renameTo; [done|exists seg; auto..]|].
    intros f w' Ho' _. by apply keeps_ret. }
  intros r w1 H1 _. eapply (keeps_bind _ _ _ (fun _ => True)).
  { destruct r as [|e]; [by apply keeps_ret|]. destruct (_ =? _); [by apply keeps_ret|by apply keeps_fail]. }
  intros seg' w2 H2 _. eapply keeps_bind; [apply IH; [|done]; intros; apply Hin; by right|].
  intros rest w3 H3 _. by apply keeps_ret.
Qed.

(** Removing the last segments leaves the first. *)
Lemma remove_upper segs upp :
  om_sorted (segs ++ upp) -> Forall (fun x => base_sn x.2 = x.1) upp ->
  foldl (fun m seg => Segments.remove (base_sn seg) m) (segs ++ upp) upp.*2 = segs.
Proof.
  revert segs. induction upp as [|[b seg] upp IH]; intros segs Hs Hb; cbn [fmap list_fmap foldl]; [apply app_nil_r|].
  apply Forall_cons in Hb as [Hb Hb']. cbn in Hb |- *. unfold Segments.remove at 2. rewrite Hb.
  pose proof (om_erase_sorted b _ Hs) as Hs'. rewrite om_erase_middle in Hs' |- * by done. by apply IH.
Qed.

(** The files of the segments that go are not those of the others. *)
Lemma deleted_apart w dir segs upp ess next x :
  segs_rep w dir (segs ++ upp) ess next -> x ∈ segs -> ~ deleted_files upp.*2 (Segment.filename x.2).
Proof.
  intros HR Hx (seg & Hseg & Heq). apply list_elem_of_fmap in Hseg as (y & -> & Hy).
  pose proof (StronglySorted_app_1_elem_of _ _ _ x y (lr_ids HR) Hx Hy) as Hlt. cbn in Hlt.
  assert (Hx' : x ∈ segs ++ upp) by (apply elem_of_app; by left).
  assert (Hy' : y ∈ segs ++ upp) by (apply elem_of_app; by right).
  pose proof (lr_named HR) as Hn. pose proof (lr_id_range HR) as Hi. pose proof (lr_base_range HR) as Hb.
  pose proof (Segments.wf_base _ (lr_wf HR)) as Hbase. rewrite Forall_forall in Hn, Hi, Hb, Hbase.
  pose proof (Hi x Hx'). pose proof (Hi y Hy').
  assert (Hinj : forall suffix, logFile dir (seg_id x.2) (base_sn x.2) EmptyString
                  <> logFile dir (seg_id y.2) (base_sn y.2) suffix).
  { intros suffix E. apply logFile_inj in E as [? _]; [lia|unfold u64; lia| |unfold u64; lia|].
    - rewrite (Hbase x Hx'). by apply Hb.
    - rewrite (Hbase y Hy'). by apply Hb. }
  rewrite (Hn x Hx'), (Hn y Hy'), logFile_suffix in Heq. destruct Heq as [E|E]; by apply Hinj in E.
Qed.

Lemma deleted_not_index w dir segs upp ess next c rest f :
  segs_rep w dir (segs ++ upp) ess next -> char_digit c = None ->
  belongs (dir +:+ String "/"%char (String c rest)) f -> ~ deleted_files upp.*2 f.
Proof.
  intros HR Hc Hf (seg & Hseg & Heq). apply list_elem_of_fmap in Hseg as (y & -> & Hy).
  assert (Hy' : y ∈ segs ++ upp) by (apply elem_of_app; by right).
  pose proof (lr_named HR) as Hn. pose proof (lr_id_range HR) as Hi. rewrite Forall_forall in Hn, Hi.
  specialize (Hi y Hy'). rewrite (Hn y Hy'), logFile_suffix in Heq.
  destruct Heq as [-> | ->]; revert Hf; apply logFile_not_index; unfold u64; try done; lia.
Qed.

(** ** The steps *)

Section Trim.
Context (d : directory) (w0 : world) (l : Loglet) (next : Z).

(** Halfway: the segments [segs] with the entries [ess], and the indexes [ps] and
    [ts]. *)
Record halfway (segs : LogSegments) (ess : list (list Entry)) (ps : list SequencePosition)
    (ts : list TimestampSequence) (m : TimestampSequence) (s : loglet_state) : Prop := {
  hw_evolves : evolves w0 (ls_world s);
  hw_dir : log_dir (ls_loglet s) = log_dir l;
  hw_segments : segments (ls_loglet s) = segs;
  hw_rep : exists n, segs_rep (ls_world s) (log_dir l) segs ess n;
  hw_pos : index_of (pos_name l) ps (MonoState (ls_world s) (sn_pos_index (ls_loglet s)));
  hw_pos_unrolled : unrolled (sn_pos_index (ls_loglet s));
  hw_ts : index_of (ts_name l) ts (MonoState (ls_world s) (event_ts_sn_index (ls_loglet s)));
  hw_ts_unrolled : unrolled (event_ts_sn_index (ls_loglet s));
  hw_max : max_etimestamp_and_sn_so_far (ls_loglet s) = m;
}.

Lemma wp_trim_pos segs ess ps ts m s k (Q : unit -> loglet_state -> Prop) E :
  halfway segs ess ps ts m s ->
  (forall s', halfway segs ess (filter (fun e => key e < k) ps) ts m s' -> Q tt s') ->
  (forall x s', ~ benign w0 -> E x s') ->
  wp (Lglt.on_pos (PosIndex.trim d k)) Q E s.
Proof.
  intros [Hev Hd Hs (n & HR) Hp Hpu Ht Htu Hm] HQ HE. apply wp_zoom.
  eapply (wp_index_trim _ _ _ w0 _ _ _ key); [by left|exact Hp|done|done| |auto].
  intros t Hio Hun Hev' Hk. apply HQ. split; cbn; try done.
  - exists n. by apply (segs_rep_index (ls_world s) _ _ _ _ (pos_name l) "s" "n-pos.idx" _ _ HR eq_refl eq_refl Hk).
  - by destruct t.
  - eapply index_of_frame; [exact Ht|]. intros f Hf. apply (kept_outside _ _ _ _ Hk). by apply ts_not_pos.
Qed.

Lemma wp_trim_ts segs ess ps ts m s k (Q : unit -> loglet_state -> Prop) E :
  halfway segs ess ps ts m s ->
  (forall s', halfway segs ess ps (filter (fun e => value e < k) ts) m s' -> Q tt s') ->
  (forall x s', ~ benign w0 -> E x s') ->
  wp (Lglt.on_ts (TsIndex.trim d k)) Q E s.
Proof.
  intros [Hev Hd Hs (n & HR) Hp Hpu Ht Htu Hm] HQ HE. apply wp_zoom.
  eapply (wp_index_trim _ _ _ w0 _ _ _ value); [by right|exact Ht|done|done| |auto].
  intros t Hio Hun Hev' Hk. apply HQ. split; cbn; try done.
  - exists n. by apply (segs_rep_index (ls_world s) _ _ _ _ (ts_name l) "t" "s-sn.idx" _ _ HR eq_refl eq_refl Hk).
  - eapply index_of_frame; [exact Hp|]. intros f Hf. apply (kept_outside _ _ _ _ Hk). by apply pos_not_ts.
  - by destruct t.
Qed.

Lemma wp_last_ts segs ess ps ts m s (Q : option TimestampSequence -> loglet_state -> Prop) E :
  halfway segs ess ps ts m s ->
  (forall s', halfway segs ess ps ts m s' -> Q (last ts) s') ->
  (forall x s', ~ benign w0 -> E x s') ->
  wp (Lglt.on_ts (TsIndex.lastIndexedTimestampSequence d)) Q E s.
Proof.
  intros [Hev Hd Hs (n & HR) Hp Hpu Ht Htu Hm] HQ HE. apply wp_zoom.
  eapply (wp_index_last _ _ _ w0); [exact Ht|done| |auto].
  intros t (Hio & Hev' & Hfs & _ & Hun & _). cbn in Hfs, Hun. apply HQ. split; cbn; try done.
  - exists n. eapply segs_rep_frame; [exact HR|]. intros x _. by rewrite Hfs.
  - eapply index_of_frame; [exact Hp|]. intros f _. by rewrite Hfs.
  - by destruct t.
  - auto.
Qed.

Lemma wp_remove_upper low upp el eu ps ts m s (Q : unit -> loglet_state -> Prop) E :
  halfway (low ++ upp) (el ++ eu) ps ts m s -> length low = length el -> low <> [] ->
  Forall (fun x => x.1 < 2 ^ 63 - 1) low ->
  (forall s', halfway low el ps ts m s' -> Q tt s') ->
  (forall x s', ~ benign w0 -> E x s') ->
  wp (Lglt.removeSegments d upp.*2 None) Q E s.
Proof.
  intros Hh Hlen Hne Hsmall HQ HE. pose proof Hh as [Hev Hd Hs (n & HR) Hp Hpu Ht Htu Hm].
  destruct (segs_rep_app _ _ _ _ _ _ _ HR Hlen) as (n' & HR' & _).
  unfold Lglt.removeSegments. destruct upp as [|u upp'] eqn:Hupp.
  { apply wp_ret, HQ. rewrite app_nil_r in Hs. split; try done. eauto. }
  rewrite <- Hupp in *. replace (upp.*2) with (u.2 :: upp'.*2) at 1 by (by rewrite Hupp).
  apply wp_bind, wp_modify. cbn [ls_world ls_loglet]. rewrite Hs, remove_upper.
  2: { apply (lr_wf HR). }
  2: { pose proof (Segments.wf_base _ (lr_wf HR)) as Hb. by apply Forall_app in Hb as [_ Hb]. }
  apply wp_bind, wp_zoom. eapply wp_mono.
  - eapply wp_keeps; [|apply keeps_mark_deleted; [done|]].
    + apply (wp_mark_deleted w0 _ _ (fun _ w' => evolves w0 w') (fun _ _ => ~ benign w0)); auto.
    + by intros f _.
  - intros marked w1 [Hev1 Hout]. cbn [ls_world ls_loglet] in *. apply wp_bind, wp_bind, wp_gets. cbn [ls_loglet].
    destruct low as [|[b0 s0] low']; [done|]. apply wp_bind, wp_ret, wp_ret. apply Forall_cons in Hsmall as [Hb0 _].
    assert (Hsucc : is_Some (succ_i64 (base_sn s0))).
    { pose proof (Segments.wf_base _ (lr_wf HR')) as Hb. apply Forall_cons in Hb as [Hb _]. cbn in Hb, Hb0.
      unfold succ_i64. rewrite Hb, (proj2 (Z.eqb_neq _ _)) by lia. by eexists. }
    assert (Hfs : forall c rest f, char_digit c = None -> belongs (log_dir l +:+ String "/"%char (String c rest)) f ->
      w_files w1 !! f = w_files (ls_world s) !! f).
    { intros c rest f Hc Hf. apply Hout. by eapply deleted_not_index. }
    assert (Hp1 : index_of (pos_name l) ps (MonoState w1 (sn_pos_index (ls_loglet s)))).
    { eapply index_of_frame; [exact Hp|]. intros f. by apply (Hfs "s"%char). }
    assert (Ht1 : index_of (ts_name l) ts (MonoState w1 (event_ts_sn_index (ls_loglet s)))).
    { eapply index_of_frame; [exact Ht|]. intros f. by apply (Hfs "t"%char). }
    apply wp_bind, wp_attempt, wp_zoom. eapply (wp_index_trim_head _ _ _ w0); [exact Ht1|done|done|done|].
    apply wp_bind, wp_attempt, wp_zoom. eapply (wp_index_trim_head _ _ _ w0); [exact Hp1|done|done|done|].
    apply wp_modify, HQ. split; cbn; try done. exists n'. eapply segs_rep_frame; [exact HR'|].
    intros x Hx. apply Hout. by eapply deleted_apart.
  - intros x w1 [Hb _]. by apply HE.
Qed.

(** The last step: the segment is cut. *)
Lemma wp_cut_segment psegs seg upp pre es1 e es2 ups ps ts m w s n (Q : unit -> loglet_state -> Prop) E :
  halfway (psegs ++ [(base_sn seg, seg)]) (pre ++ [es1 ++ e :: es2]) ps ts m s ->
  segs_rep w (log_dir l) ((psegs ++ [(base_sn seg, seg)]) ++ upp) ((pre ++ [es1 ++ e :: es2]) ++ ups) n ->
  length psegs = length pre -> Forall (fun x => sn e < x.1) upp ->
  Forall (points ((psegs ++ [(base_sn seg, seg)]) ++ upp) ((pre ++ [es1 ++ e :: es2]) ++ ups)) ps ->
  Forall (fun sp => sp_sn sp < sn e) ps -> times_below m (sn e) ts ->
  (forall s', log_rep (ls_world s') (ls_loglet s') (pre ++ [es1]) (sn e) -> log_dir (ls_loglet s') = log_dir l ->
     evolves w0 (ls_world s') -> Q tt s') ->
  (forall x s', ~ benign w0 -> E x s') ->
  wp (bind (Lglt.disk (Segment.trim seg (size_of es1)))
       (fun r => let '(trimmed, target_segment) := r in
          bind (Lglt.put_segment target_segment) (fun _ =>
          match trimmed with
          | inl _ => Lglt.updateNextLogSequence (sn e) (base_sn target_segment) (Segment.size target_segment)
          | inr e => fail e
          end))) Q E s.
Proof.
  intros [Hev Hd Hs (n0 & HR) Hp Hpu Ht Htu Hm] HRf Hlen Hupp Hpts Hlt Htb HQ HE.
  pose proof HR as HR'. apply segs_rep_snoc in HR' as (HP & Hids & Hla).
  apply wp_bind, wp_zoom. unfold size_of. eapply (wp_seg_trim w0); [done|apply (la_file Hla)| | |].
  - rewrite encode_entries_app, length_app. lia.
  - rewrite encode_entries_app, take_app_length. intros w1 Hev1 Hfs1. apply wp_bind, wp_modify. cbn [ls_world ls_loglet].
    set (seg' := Segment.set_log _ _). change (base_sn seg') with (base_sn seg).
    rewrite Hs, om_insert_middle by apply (lr_wf HR).
    assert (Hon : segment_on w1 seg' (encode_entries es1)).
    { pose proof (la_file Hla) as [(? & ? & ?) ? ? ? ?]. split; try done. split_and!; [done|done|].
      cbn. rewrite Hfs1. apply lookup_insert_eq. }
    assert (Hfs : forall f, f <> Segment.filename seg -> w_files w1 !! f = w_files (ls_world s) !! f).
    { intros f Hf. by rewrite Hfs1, lookup_insert_ne. }
    apply wp_modify, HQ; [|done|done]. split; cbn.
    + rewrite Hd. apply segs_rep_snoc. split_and!; [|done|by eapply last_segment_cut].
      eapply segs_rep_frame; [exact HP|]. intros x Hx. apply Hfs. by eapply segment_file_apart.
    + exists (base_sn seg), seg', es1. cbn. by rewrite !last_snoc.
    + assert (Hix : forall c rest f, char_digit c = None -> belongs (log_dir l +:+ String "/"%char (String c rest)) f ->
        w_files w1 !! f = w_files (ls_world s) !! f).
      { intros c rest f Hc Hf. apply Hfs. intros ->. revert Hf.
        apply (segment_file_not_index _ _ _ _ _ (base_sn seg, seg) _ _ HR); [|done]. apply elem_of_app. right. by left. }
      split; unfold pos_name, ts_name; cbn; rewrite Hd.
      * exists ps. split; [eapply index_of_frame; [exact Hp|]; intros f; by apply (Hix "s"%char)|].
        apply Forall_forall. intros sp Hsp. rewrite Forall_forall in Hpts, Hlt.
        eapply (points_cut w _ psegs seg upp); [exact HRf|done|done|done|done|auto|auto].
      * exists ts. rewrite Hm. split; [|done]. eapply index_of_frame; [exact Ht|]. intros f. by apply (Hix "t"%char).
  - intros w1 Hev1 Hfs1 Hb. apply wp_bind, wp_modify, wp_fail. by apply HE.
Qed.
End Trim.

(** What is left of the timestamps, and the largest of them. *)
Lemma times_trimmed name ts target s :
  index_of name ts s -> Forall (fun x => 0 <= timestamp x) ts -> 0 < target ->
  let ts' := filter (fun e => value e < target) ts in
  times_below (default (mkTimestampSequence 0 0) (last ts')) target ts'.
Proof.
  intros Hio Hnn Ht ts'. pose proof (index_keys _ _ _ Hio) as Hk. pose proof (io_values _ _ _ Hio) as Hv.
  apply (sorted_filter _ (fun e => value e < target)) in Hk, Hv. fold ts' in Hk, Hv.
  assert (Hin : Forall (fun x => ts_sn x < target /\ kv_valid x /\ 0 <= timestamp x) ts').
  { rewrite Forall_forall in Hnn. apply Forall_forall. intros x Hx. apply list_elem_of_filter in Hx as [Hlt Hx].
    split_and!; [done|by eapply index_valid|by apply Hnn]. }
  assert (Hnn' : Forall (fun x => 0 <= timestamp x) ts') by (eapply Forall_impl; [exact Hin|]; by intros x (_ & _ & ?)).
  clearbody ts'. destruct ts' as [|m' ts' _] using rev_ind.
  { split; [constructor| |done|done|done]. split; unfold i64; cbn; lia. }
  rewrite last_snoc. cbn. apply StronglySorted_snoc in Hk as [_ Hk], Hv as [_ Hv].
  apply Forall_snoc in Hin as [_ (Hlt & Hval & Ht0)]. split; [|done|done|done|done]. apply Forall_snoc. split; [|by left].
  rewrite Forall_forall in Hk, Hv |- *. intros x Hx. right. split; [by apply Hk|by apply Hv].
Qed.

Section TrimLog.
Context (d : directory) (w0 w : world) (l : Loglet) (ess : list (list Entry)) (next : Z).
Context (HL : log_rep w l ess next) (Hev : evolves w0 w)
  (Hpu : unrolled (sn_pos_index l)) (Htu : unrolled (event_ts_sn_index l)).

Lemma wp_loglet_trim seg target (Q : unit -> loglet_state -> Prop) E :
  Segments.floorSegment target (segments l) = Some seg -> target < next -> 0 < target < 2 ^ 63 - 1 ->
  (forall ess' s', log_rep (ls_world s') (ls_loglet s') ess' target ->
     concat ess' = filter (fun e => sn e < target) (concat ess) -> Q tt s') ->
  (forall x s', ~ benign w0 -> E x s') ->
  wp (Lglt.trim d target) Q E (LogletState w l).
Proof.
  intros Hfl Hlt Ht HQ HE.
  destruct (cut_log _ _ _ _ _ _ _ HL Hfl Hlt)
    as (psegs & upp & pre & es1 & e & es2 & ups & Hsegs & Hess & Hlen & <- & Hup & Hupp & Hat).
  unfold Lglt.trim. apply wp_bind, wp_gets. cbn [ls_loglet]. rewrite Hfl. apply wp_bind.
  eapply (wp_translateSequence d w0 w l ess next); [by apply log_stays_refl|exact Hat| |auto].
  intros r s1 Hst [(sz & -> & _)|[-> Hb]]; [|by apply wp_fail, HE].
  pose proof (ls_rep Hst) as HL1. destruct (ls_same Hst) as [ix Hsame].
  destruct (lr_pos HL1) as (ps & Hps & Hpts). destruct (lr_ts HL1) as (ts & Hts & Htb).
  assert (Hseg1 : segments (ls_loglet s1) = segments l) by (by rewrite Hsame).
  assert (Hh : halfway w0 l (segments l) ess ps ts (max_etimestamp_and_sn_so_far l) s1).
  { pose proof (lr_segs HL1) as HR1. rewrite Hsame in Hps, Hts, HR1. split; rewrite ?Hsame; try done; [apply Hst|by eexists|].
    pose proof (ls_unrolled Hst Hpu) as Hu. by rewrite Hsame in Hu. }
  rewrite Hseg1 in Hpts.
  apply wp_bind. eapply wp_trim_pos; [done| |auto]. intros s2 H2.
  apply wp_bind. eapply wp_trim_ts; [done| |auto]. intros s3 H3.
  apply wp_bind. eapply wp_last_ts; [done| |auto]. intros s4 H4.
  apply wp_bind, wp_modify, wp_bind, wp_gets. cbn [ls_world ls_loglet].
  set (ts' := filter _ ts) in *. set (ps' := filter _ ps) in *.
  set (m' := default (mkTimestampSequence 0 0) (last ts')).
  assert (H5 : halfway w0 l (segments l) ess ps' ts' m' (LogletState (ls_world s4) (set_max_etimestamp m' (ls_loglet s4)))).
  { destruct H4. by split. }
  change (segments (set_max_etimestamp m' (ls_loglet s4))) with (segments (ls_loglet s4)).
  rewrite (hw_segments _ _ _ _ _ _ _ _ H4), Hup. rewrite Hsegs in Hpts. rewrite Hess in Hpts.
  pose proof (lr_segs HL) as HR. rewrite Hsegs, Hess in HR.
  apply wp_bind. rewrite Hsegs, Hess in H5. eapply wp_remove_upper; [exact H5| | | | |auto].
  - rewrite !length_app. cbn. lia.
  - by destruct psegs.
  - destruct (segs_rep_app _ _ _ _ _ _ _ HR) as (n & HRl & _); [rewrite !length_app; cbn; lia|].
    apply segs_rep_snoc in HRl as (_ & Hbelow & _). destruct Hat as [(i & Hi & He)].
    pose proof (numbered_lookup _ _ _ _ _ _ _ (length es1) e (lr_numbered HL) Hi He
      ltac:(by apply list_lookup_middle)) as Hsn.
    apply Forall_snoc. split; [|cbn; lia]. eapply Forall_impl; [exact Hbelow|]. intros x [? _]. lia.
  - intros s6 H6. cbn [lsp_file_position]. eapply wp_cut_segment; [exact H6|exact HR|done|done| | | | |auto].
    + apply Forall_forall. intros sp Hsp. apply list_elem_of_filter in Hsp as [_ Hsp].
      rewrite Forall_forall in Hpts. auto.
    + apply Forall_forall. intros sp Hsp. by apply list_elem_of_filter in Hsp as [? _].
    + eapply times_trimmed; [exact Hts|apply Htb|lia].
    + intros s7 HL7 _ _. eapply HQ; [exact HL7|]. rewrite Hess. apply filter_below. rewrite <- Hess.
      apply (log_increasing _ _ _ _ _ (lr_segs HL)).
Qed.
End TrimLog.
