(* ===== verification/LogExample.v ===== *)
(** * A small log

    Two segments with three entries and both indexes, to run the theorems on. *)

From Stdlib Require Import String.
From S2P Require Import Prelude Ordered Os AppendOnlyFile Codec KeyValues MonoMap MonoMapFrame MonoMapLoad.
From S2P Require Import MonoMapRep MonoMapProps Entry FileLogEntries FleSpec SegmentNames LogConfig.
From S2P Require Import LogSegment SegmentSpec LogSegments LogTypes IndexSpec Indexes Loglet LogletRep.
From S2P Require Import LogletAppend.

Local Open Scope Z_scope.

Definition small_entry (n : Z) (bytes : list Z) : Entry :=
  (serialize (mkEntry 0 7 1 300 1700000000000 (-5) n EntryType_Normal bytes)).2.
Definition small_entries : list (list Entry) :=
  [[small_entry 42 [1; 2; 3]; small_entry 43 [4; 5]]; [small_entry 44 [6]]].

Ltac small_entry_ok :=
  split; [apply serialize_sized; first [split; vm_compute; split; congruence|vm_compute; split; congruence]
         |vm_compute; lia].

Lemma small_entries_ok : Forall (Forall (fun e => sized e /\ meta_fits e)) small_entries.
Proof. repeat (apply Forall_cons; split); try (by apply Forall_nil); small_entry_ok. Qed.

Definition small_segment (id base : Z) (size : Z) : LogSegment :=
  mkLogSegment id base 0 (mkFileLogEntries (mkAppendOnlyFile (logFile "d" id base EmptyString) false true)
    0 (2 ^ 64 - 1) false false size).
Definition small_segments : LogSegments :=
  [(42, small_segment 1 42 (size_of [small_entry 42 [1; 2; 3]; small_entry 43 [4; 5]]));
   (44, small_segment 2 44 (size_of [small_entry 44 [6]]))].

Definition small_ps : list SequencePosition :=
  [mkSequencePosition 42 (globalSegmentFilePosition 1 0); mkSequencePosition 44 (globalSegmentFilePosition 2 0)].
Definition small_ts : list TimestampSequence := [mkTimestampSequence 1700000000000 42].

Definition small_files : gmap string (list Z) :=
  <[logFile "d" 1 42 EmptyString := encode_entries [small_entry 42 [1; 2; 3]; small_entry 43 [4; 5]]]>
  (<[logFile "d" 2 44 EmptyString := encode_entries [small_entry 44 [6]]]>
  (<["d/sn-pos.idx" := encode small_ps]> (<["d/epoch-sn.idx" := []]> {["d/ts-sn.idx" := encode small_ts]}))).

Definition small_loglet : Loglet :=
  mkLoglet "d" "" default_LogConfig small_segments
    (mkLogSequenceMetadata 45 (Some 44) (Some (size_of [small_entry 44 [6]]))) 41 0
    (mkTimestampSequence 1700000000000 42) 0
    (MonoMap 4096 [] (mkAppendOnlyFile "d/ts-sn.idx" false true) 16 true (at_offsets 0 small_ts))
    (MonoMap 4096 [] (mkAppendOnlyFile "d/sn-pos.idx" false true) 32 true (at_offsets 0 small_ps)) [].
Definition small_directory : directory := mkDirectory true true example_listing.

Lemma small_tidy name : (name = "d/sn-pos.idx" \/ name = "d/ts-sn.idx")%string -> tidy (KV := SequencePosition) name [] small_files.
Proof.
  intros Hname f [c Hf] Hp. left. unfold small_files in Hf.
  apply lookup_insert_Some in Hf as [[<- _]|[_ Hf]]; [by destruct Hname as [-> | ->]|].
  apply lookup_insert_Some in Hf as [[<- _]|[_ Hf]]; [by destruct Hname as [-> | ->]|].
  do 2 (apply lookup_insert_Some in Hf as [[<- _]|[_ Hf]]; [by destruct Hname as [-> | ->]|]).
  apply lookup_singleton_Some in Hf as [<- _]. by destruct Hname as [-> | ->].
Qed.

Lemma small_index_pos script : index_of "d/sn-pos.idx" small_ps (MonoState (World small_files script) (sn_pos_index small_loglet)).
Proof.
  split; [|repeat constructor|cbn; lia]. exists [], small_ps. split_and!; [|reflexivity|reflexivity].
  split; try reflexivity.
  - split; try constructor; repeat constructor; vm_compute; congruence.
  - constructor.
  - apply small_tidy. by left.
  - split_and!; reflexivity.
  - constructor.
Qed.

Lemma small_index_ts script : index_of "d/ts-sn.idx" small_ts (MonoState (World small_files script) (event_ts_sn_index small_loglet)).
Proof.
  split; [|repeat constructor|cbn; lia]. exists [], small_ts. split_and!; [|reflexivity|reflexivity].
  split; try reflexivity.
  - split; try constructor; repeat constructor; vm_compute; congruence.
  - constructor.
  - apply small_tidy. by right.
  - split_and!; reflexivity.
  - constructor.
Qed.

Lemma segs_rep_nil w dir next : segs_rep w dir [] [] next.
Proof. split; try apply Segments.wf_nil; try (by intros i b seg es); auto using Forall_nil, SSorted_nil, Forall2_nil. Qed.

Lemma small_segs_rep script : segs_rep (World small_files script) "d" small_segments small_entries 45.
Proof.
  pose proof small_entries_ok as Hok. apply Forall_cons in Hok as [Hok1 Hok2]. apply Forall_cons in Hok2 as [Hok2 _].
  apply (segs_rep_snoc _ _ [_] _ _ [_]). split_and!.
  - apply (segs_rep_snoc _ _ [] _ _ []). split_and!; [apply segs_rep_nil|constructor|].
    split; try done; try (split; try reflexivity; split_and!; reflexivity).
  - repeat constructor.
  - split; try done; try (split; try reflexivity; split_and!; reflexivity).
Qed.

Lemma small_rep script : log_rep (World small_files script) small_loglet small_entries 45.
Proof.
  split; [apply small_segs_rep|by eexists _, _, _|]. split.
  - exists small_ps. split; [apply small_index_pos|].
    repeat (apply Forall_cons; split); [..|by apply Forall_nil]; left.
    + eexists (small_segment 1 42 _), [], _, _. split; [split; exists 0%nat; split; reflexivity|by split].
    + eexists (small_segment 2 44 _), [], _, _. split; [split; exists 1%nat; split; reflexivity|by split].
  - exists small_ts. split; [apply small_index_ts|]. split; [|split; vm_compute; split; congruence|vm_compute; done|done|repeat constructor; done].
    constructor; [by left|constructor].
Qed.
