(* ===== verification/StartSpec.v ===== *)
(** * What opening a log does

    The steps of [Loader.load]: which files they touch, the segments and the indexes
    they leave. *)

From Stdlib Require Import Ascii String.
From S2P Require Import Prelude Ordered Os AppendOnlyFile Frame Codec KeyValues Names MonoMap MonoMapFrame.
From S2P Require Import MonoMapLoad MonoMapRep MonoMapUpdate MonoMapRecover Entry FileLogEntries FleSpec.
From S2P Require Import SegmentNames LogConfig LogSegment SegmentSpec LogSegments LogTypes IndexSpec IndexOpen.
From S2P Require Import Indexes Loglet LogEntryCache Log LogLoader LogletRep LogletAppend.

Local Open Scope Z_scope.

(** ** File names *)

Lemma filename_rev_suffix acc l : exists l', (rev l ++ acc)%list = (l' ++ filename_rev acc l)%list.
Proof.
  revert acc. induction l as [|c l IH]; intros acc; cbn [filename_rev rev app]; [by exists []|].
  rewrite <- app_assoc. cbn [app]. destruct (IH (c :: acc)) as [l' Hl'].
  destruct (decide (c = "/"%char)) as [->|Hc]; [exists (rev l ++ ["/"%char])%list; by rewrite <- app_assoc|].
  exists l'. rewrite Hl'. f_equal. by destruct c as [[] [] [] [] [] [] [] []].
Qed.

Lemma path_filename_suffix path :
  exists l, list_ascii_of_string path = (l ++ list_ascii_of_string (path_filename path))%list.
Proof.
  unfold path_filename. rewrite list_ascii_of_string_of_list_ascii.
  destruct (filename_rev_suffix [] (rev (list_ascii_of_string path))) as [l Hl].
  exists l. by rewrite rev_involutive, app_nil_r in Hl.
Qed.

Lemma filename_rev_spec acc l rest :
  Forall (fun c => c <> "/"%char) l -> filename_rev acc (l ++ "/"%char :: rest) = (rev l ++ acc)%list.
Proof.
  revert acc. induction l as [|c l IH]; intros acc Hl; [done|]. apply Forall_cons in Hl as [Hc Hl].
  cbn [app rev]. rewrite <- app_assoc. cbn [app]. rewrite <- IH by done.
  cbn [filename_rev]. by destruct c as [[] [] [] [] [] [] [] []].
Qed.

(** The last component of a path. *)
Lemma path_filename_app dir f :
  Forall (fun c => c <> "/"%char) (list_ascii_of_string f) -> path_filename (dir +:+ "/" +:+ f) = f.
Proof.
  intros Hf. apply list_ascii_inj. unfold path_filename. rewrite list_ascii_of_string_of_list_ascii.
  rewrite !list_ascii_app. cbn [list_ascii_of_string app]. rewrite rev_app_distr. cbn [rev]. rewrite <- app_assoc.
  cbn [app]. rewrite filename_rev_spec by (by apply Forall_rev). by rewrite rev_involutive, app_nil_r.
Qed.

Lemma ends_with_last suffix f c :
  last (list_ascii_of_string suffix) = Some c -> ends_with suffix f = true -> last (list_ascii_of_string f) = Some c.
Proof.
  intros Hc He. unfold ends_with in He. apply andb_prop in He as [_ He%bool_decide_eq_true].
  rewrite <- (take_drop (length (list_ascii_of_string f) - length (list_ascii_of_string suffix)) (list_ascii_of_string f)).
  rewrite He. destruct (list_ascii_of_string suffix) as [|x l]; [done|]. by rewrite last_app_cons.
Qed.

Lemma ends_with_app a suffix : ends_with suffix (a +:+ suffix) = true.
Proof.
  unfold ends_with. rewrite list_ascii_app, length_app. apply andb_true_intro. split; apply bool_decide_eq_true; [lia|].
  by rewrite Nat.add_sub, drop_app_length.
Qed.

(** A file left behind by a deletion. *)
Definition temp (f : string) : Prop := ends_with DELETED_FILE_SUFFIX (path_filename f) = true.

Lemma path_ends_with suffix f c :
  last (list_ascii_of_string suffix) = Some c -> ends_with suffix (path_filename f) = true ->
  last (list_ascii_of_string f) = Some c.
Proof.
  intros Hc Ht. apply (ends_with_last _ _ c) in Ht; [|done]. destruct (path_filename_suffix f) as [l ->].
  by rewrite last_app, Ht.
Qed.

Lemma temp_last f : temp f -> last (list_ascii_of_string f) = Some "d"%char.
Proof. by apply path_ends_with. Qed.
Lemma log_last f : isLogFile (path_filename f) = true -> last (list_ascii_of_string f) = Some "g"%char.
Proof. by apply path_ends_with. Qed.

Lemma logFileName_no_slash id sn : u64 id -> i64 sn ->
  Forall (fun c => c <> "/"%char) (list_ascii_of_string (logFileName id sn EmptyString)).
Proof.
  intros Hid Hsn. unfold logFileName, filenamePrefixFrom. rewrite !list_ascii_app, list_ascii_of_string_of_list_ascii.
  assert (Hdig : forall w x, u64 x -> Forall (fun c => c <> "/"%char) (pad_zero w (show_u64 x)))
    by (intros; apply digit_not_char; [done|by apply pad_zero_digits]).
  unfold show_padded, u64, i64 in *. rewrite (proj2 (Z.ltb_ge id 0)) by lia. rewrite !Forall_app, Forall_cons.
  split_and!; [apply Hdig; lia|done| |repeat constructor; done|repeat constructor].
  destruct (Z.ltb_spec sn 0); [constructor; [done|]|]; apply Hdig; lia.
Qed.

Lemma logFile_filename dir id sn : u64 id -> i64 sn ->
  path_filename (logFile dir id sn EmptyString) = logFileName id sn EmptyString.
Proof. intros. by apply path_filename_app, logFileName_no_slash. Qed.

Lemma logFile_inside dir id sn : String.prefix (dir +:+ "/") (logFile dir id sn EmptyString) = true.
Proof. unfold logFile. rewrite prefix_cancel. by destruct (logFileName _ _ _). Qed.

Lemma logFileName_log id sn : isLogFile (logFileName id sn EmptyString) = true.
Proof. unfold isLogFile, logFileName. rewrite string_app_nil. apply ends_with_app. Qed.

Lemma logFile_last dir id sn : last (list_ascii_of_string (logFile dir id sn EmptyString)) = Some "g"%char.
Proof.
  unfold logFile, logFileName. rewrite string_app_nil, !list_ascii_app, !last_app. done.
Qed.

Lemma segment_path_last name id : u64 id ->
  exists c, last (list_ascii_of_string (segmentLogPath name id)) = Some c /\ is_digit c.
Proof.
  intros Hid. rewrite segment_path_chars.
  pose proof (show_u64_nonempty id) as Hne. pose proof (pad_zero_digits 0 id Hid) as Hd.
  change (pad_zero 0 (show_u64 id)) with (show_u64 id) in Hd. destruct (last (show_u64 id)) as [c|] eqn:Hl.
  - exists c. apply last_Some in Hl as [l Hl]. rewrite Hl in Hd |- *. split; [|by apply Forall_app in Hd as [_ [? _]%Forall_cons]].
    change ("."%char :: (l ++ [c])%list) with (("."%char :: l) ++ [c])%list. by rewrite app_assoc, last_snoc.
  - by apply last_None in Hl.
Qed.

(** ** The directory of a log *)

Definition ts_file (dir : string) : string := dir +:+ "/ts-sn.idx".
Definition pos_file (dir : string) : string := dir +:+ "/sn-pos.idx".
Definition epoch_file (dir : string) : string := dir +:+ "/epoch-sn.idx".

(** A file that belongs to neither of the indexes the loader works on. *)
Definition foreign (dir f : string) : Prop := ~ belongs (ts_file dir) f /\ ~ belongs (pos_file dir) f.

(** The directory iterator shows the files of the directory, and these can be read. *)
Record shown (d : directory) (isReadable : string -> bool) (dir : string) : Prop := {
  sw_there : dir_there d = true;
  sw_directory : dir_is_directory d = true;
  sw_lists : lists_directory (dir +:+ "/") (dir_listing d);
  sw_inside : forall fs f, f ∈ dir_listing d fs -> String.prefix (dir +:+ "/") f = true;
  sw_readable : forall fs f, f ∈ dir_listing d fs -> isReadable f = true;
}.

Lemma lists_index dir a listing : lists_directory (dir +:+ "/") listing -> lists_directory (dir +:+ String "/" a) listing.
Proof.
  intros Hl fs. destruct (Hl fs) as [Hnd Hiff]. split; [done|]. intros f Hp. apply Hiff.
  eapply prefix_trans; [|exact Hp]. rewrite prefix_cancel. by destruct a.
Qed.

(** The names of the files of an index end with [x] or a digit. *)
Lemma stored_name {KV} `{!MonoKeyValue KV} name K (es : list KV) fs f c :
  last (list_ascii_of_string name) = Some "x"%char -> stored name K es fs ->
  is_Some (fs !! f) -> last (list_ascii_of_string f) = Some c -> c <> "x"%char -> char_digit c = None -> ~ belongs name f.
Proof.
  intros Hx [(rs & cur & torn & [Hwf _ Ht _ _] & _) _] Hf Hl Hc Hd Hb.
  destruct (Ht f Hf Hb) as [->|(id & Hid & ->)]; [congruence|]. apply list_elem_of_fmap in Hid as (r & -> & Hr).
  destruct (segment_path_last name r.1) as (c' & Hc' & [v Hv]); [|congruence].
  pose proof (wf_range _ _ Hwf) as Hrange. rewrite Forall_forall in Hrange. specialize (Hrange r Hr). unfold u64. lia.
Qed.

Section Loading.
Context (d : directory) (isReadable : string -> bool) (dir : string) (Hshow : shown d isReadable dir).
Context (w0 : world) (Hben : benign w0) (K : Z) (HK : 2 <= K).
Implicit Types (s : loader) (ps : list SequencePosition) (ts : list TimestampSequence).

Abbreviation ts_state s := (MonoState (ld_world s) (ld_ts s)).
Abbreviation pos_state s := (MonoState (ld_world s) (ld_pos s)).

(** The two indexes are there, with these entries. *)
Record loading ps ts s : Prop := {
  lo_evolves : evolves w0 (ld_world s);
  lo_ts : available (ts_file dir) K ts (ts_state s);
  lo_pos : available (pos_file dir) K ps (pos_state s);
}.

(** Other files stay as they are, or are removed when a deletion has left them. *)
Definition spared (w w' : world) (f : string) : Prop :=
  w_files w' !! f = w_files w !! f \/ temp f /\ w_files w' !! f = None.
Definition beside s s' : Prop :=
  ld_segments s' = ld_segments s /\ forall f, foreign dir f -> spared (ld_world s) (ld_world s') f.

Lemma spared_trans w1 w2 w3 f : spared w1 w2 f -> spared w2 w3 f -> spared w1 w3 f.
Proof. intros [H1|[Ht H1]] [H2|[Ht' H2]]; unfold spared; rewrite ?H2, ?H1; auto. Qed.
Lemma beside_refl s : beside s s.
Proof. split; [done|]. by left. Qed.
Lemma beside_trans s1 s2 s3 : beside s1 s2 -> beside s2 s3 -> beside s1 s3.
Proof. intros [H1 H1'] [H2 H2']. split; [congruence|]. intros f Hf. by eapply spared_trans; [apply H1'|apply H2']. Qed.
Lemma beside_same s s' f : beside s s' -> foreign dir f -> ~ temp f -> w_files (ld_world s') !! f = w_files (ld_world s) !! f.
Proof. intros [_ H] Hf Ht. by destruct (H f Hf) as [|[? _]]. Qed.

Lemma loading_ts ps ts s ts' t :
  loading ps ts s -> available (ts_file dir) K ts' t -> within (ts_file dir) w0 (ts_state s) t ->
  let s' := LoaderState (ms_world t) (ms_map t) (ld_pos s) (ld_segments s) in
  loading ps ts' s' /\ beside s s'.
Proof.
  intros [] Hav [Hev [Ho _ _]] s'. split; [|by split; [|intros f []; left; by apply Ho]].
  split; [done|by destruct t|]. eapply available_frame; [exact lo_pos0|]. intros f Hf. apply Ho. by apply pos_not_ts.
Qed.

Lemma loading_pos ps ts s ps' t :
  loading ps ts s -> available (pos_file dir) K ps' t -> within (pos_file dir) w0 (pos_state s) t ->
  let s' := LoaderState (ms_world t) (ld_ts s) (ms_map t) (ld_segments s) in
  loading ps' ts s' /\ beside s s'.
Proof.
  intros [] Hav [Hev [Ho _ _]] s'. split; [|by split; [|intros f []; left; by apply Ho]].
  split; [done| |by destruct t]. eapply available_frame; [exact lo_ts0|]. intros f Hf. apply Ho. by apply ts_not_pos.
Qed.

(** Where only other files change. *)
Lemma loading_world ps ts s w' segs :
  loading ps ts s -> evolves w0 w' ->
  (forall f, ~ foreign dir f -> w_files w' !! f = w_files (ld_world s) !! f) ->
  loading ps ts (LoaderState w' (ld_ts s) (ld_pos s) segs).
Proof.
  intros [] Hev Hfs. split; [done|..]; (eapply available_frame; [eassumption|]); intros f Hf; apply Hfs; intros []; done.
Qed.

(** Files with other names are foreign. *)
Lemma named_foreign ps ts s f c :
  loading ps ts s -> is_Some (w_files (ld_world s) !! f) ->
  last (list_ascii_of_string f) = Some c -> c <> "x"%char -> char_digit c = None -> foreign dir f.
Proof.
  intros [_ Hts Hps] Hf Hl Hc Hd. apply available_stored in Hts, Hps.
  split; [eapply (stored_name (KV := TimestampSequence))|eapply (stored_name (KV := SequencePosition))]; try done;
    unfold ts_file, pos_file; by rewrite list_ascii_app, last_app.
Qed.

Abbreviation listing := (dir_listing d).
Lemma lists_ts : lists_directory (ts_file dir) listing.
Proof. apply lists_index, Hshow. Qed.
Lemma lists_pos : lists_directory (pos_file dir) listing.
Proof. apply lists_index, Hshow. Qed.

(** *** The operations on the indexes *)

Lemma wp_loader_trimHead_ts sn ps ts s (Q : unit + Z -> loader -> Prop) E :
  i64 sn -> sn < 2 ^ 63 - 1 -> loading ps ts s ->
  (forall ts' s', ts' `suffix_of` ts -> loading ps ts' s' -> beside s s' -> Q (inl tt) s') ->
  wp (attempt (Loader.on_ts (TsIndex.trimHead d sn))) Q E s.
Proof.
  intros Hsn Hlt Hlo HQ. apply wp_attempt, wp_zoom. unfold TsIndex.trimHead, Mono.trimHeadByValue.
  rewrite (sw_there _ _ _ Hshow), (sw_directory _ _ _ Hshow).
  eapply (wp_open_trim_head (ts_file dir) listing lists_ts w0 Hben K ts); [by right| |apply Hlo|apply Hlo|].
  - cbn. unfold succ_i64. by rewrite (proj2 (Z.eqb_neq _ _)) by lia.
  - intros ts' t Hsuf Ho Hw. destruct (loading_ts ps ts s ts' t) as [? ?]; [done|by right|done|]. by eapply HQ.
Qed.

Lemma wp_loader_trimHead_pos sn ps ts s (Q : unit + Z -> loader -> Prop) E :
  i64 sn -> sn < 2 ^ 63 - 1 -> loading ps ts s ->
  (forall ps' s', ps' `suffix_of` ps -> loading ps' ts s' -> beside s s' -> Q (inl tt) s') ->
  wp (attempt (Loader.on_pos (PosIndex.trimHead d sn))) Q E s.
Proof.
  intros Hsn Hlt Hlo HQ. apply wp_attempt, wp_zoom. unfold PosIndex.trimHead, Mono.trimHead.
  rewrite (sw_there _ _ _ Hshow), (sw_directory _ _ _ Hshow).
  eapply (wp_open_trim_head (pos_file dir) listing lists_pos w0 Hben K ps); [by left| |apply Hlo|apply Hlo|].
  - cbn. unfold succ_i64. by rewrite (proj2 (Z.eqb_neq _ _)) by lia.
  - intros ps' t Hsuf Ho Hw. destruct (loading_pos ps ts s ps' t) as [? ?]; [done|by right|done|]. by eapply HQ.
Qed.

(** *** Temporary files *)

Lemma wp_remove_temp_files files ps ts s (Q : unit -> loader -> Prop) E :
  Forall (fun f => isReadable f = true) files -> loading ps ts s ->
  (forall ps' ts' s', ps' `suffix_of` ps -> ts' `suffix_of` ts -> loading ps' ts' s' -> beside s s' -> Q tt s') ->
  wp (Loader.remove_temp_files d isReadable files) Q E s.
Proof.
  intros Hr. revert ps ts s. induction Hr as [|f files Hf _ IH]; intros ps ts s Hlo HQ; cbn [Loader.remove_temp_files].
  { apply wp_ret. by eapply HQ; [..|apply beside_refl]. }
  rewrite Hf. cbn [negb]. apply wp_bind. destruct (ends_with DELETED_FILE_SUFFIX (path_filename f)) eqn:Htemp.
  2: { apply wp_ret. by eapply IH. }
  apply wp_bind, wp_zoom. unfold Loader.throwing. apply wp_bind, wp_attempt.
  eapply (wp_remove w0); [apply Hlo|by intros e w1 ???|]. intros w1 Hev1 Hfs1. apply wp_ret.
  set (s1 := LoaderState w1 (ld_ts s) (ld_pos s) (ld_segments s)).
  assert (Hlo1 : loading ps ts s1 /\ beside s s1).
  { split.
    - apply (loading_world ps ts s); [done|done|]. intros g Hg. rewrite Hfs1. destruct (decide (g = f)) as [->|].
      + rewrite lookup_delete_eq. destruct (w_files (ld_world s) !! f) eqn:Hpres; [|done].
        exfalso. apply Hg. eapply named_foreign; [done|done|by apply temp_last|done|done].
      + by rewrite lookup_delete_ne.
    - split; [done|]. intros g _. unfold spared. cbn. rewrite Hfs1. destruct (decide (g = f)) as [->|].
      + right. by rewrite lookup_delete_eq.
      + left. by rewrite lookup_delete_ne. }
  destruct Hlo1 as [Hlo1 Hb1].
  assert (Hcode : i64 (Loader.parsed_code (path_filename f)) /\ Loader.parsed_code (path_filename f) < 2 ^ 63 - 1)
    by (unfold Loader.parsed_code, i64, BAD_FILE_NAME; destruct (segmentIDAndSequenceFromFileName _); lia).
  destruct Hcode as [Hc1 Hc2]. apply wp_bind. eapply wp_loader_trimHead_ts; [done|done|exact Hlo1|].
  intros ts2 s2 Hsuf2 Hlo2 Hb2. apply wp_bind. eapply wp_loader_trimHead_pos; [done|done|exact Hlo2|].
  intros ps3 s3 Hsuf3 Hlo3 Hb3. apply wp_ret. eapply IH; [exact Hlo3|].
  intros ps' ts' s' Hp Ht Hlo' Hb'. eapply HQ; [by etransitivity|by etransitivity|done|].
  eapply beside_trans; [|exact Hb']. eapply beside_trans; [|exact Hb3]. by eapply beside_trans.
Qed.

Lemma wp_removeTempFiles ps ts s (Q : unit -> loader -> Prop) E :
  loading ps ts s ->
  (forall ps' ts' s', ps' `suffix_of` ps -> ts' `suffix_of` ts -> loading ps' ts' s' -> beside s s' -> Q tt s') ->
  wp (Loader.removeTempFiles d isReadable) Q E s.
Proof.
  intros Hlo HQ. apply wp_bind, wp_gets. eapply wp_remove_temp_files; [|done|done].
  apply Forall_forall. intros f Hf. by eapply (sw_readable _ _ _ Hshow).
Qed.

(** *** Segments *)

(** A segment just opened, on a file of bytes [c]. *)
Definition open_segment (id b : Z) (c : list Z) : LogSegment :=
  mkLogSegment id b 0
    (mkFileLogEntries (mkAppendOnlyFile (logFile dir id b EmptyString) false true) 0 (2 ^ 64 - 1) false false
       (Z.of_nat (length c))).

Lemma wp_seg_open w id b c (Q : LogSegment -> world -> Prop) E :
  evolves w0 w -> w_files w !! logFile dir id b EmptyString = Some c ->
  (forall w', evolves w0 w' -> w_files w' = w_files w -> Q (open_segment id b c) w') ->
  wp (Segment.create dir id b true EmptyString) Q E w.
Proof.
  intros Hev Hc HQ. unfold Segment.create, Fle.open. apply wp_bind, wp_bind.
  eapply (wp_open_as w0); [done|by intros ?????|done|]. intros w1 Hev1 Hfs1. apply wp_bind, wp_attempt.
  eapply (wp_size w0); [done|by intros ?????|split; [done|by rewrite Hfs1]|].
  intros w2 Hev2 Hfs2. apply wp_ret, wp_ret, HQ; [done|congruence].
Qed.

(** The segments [T] are the log files of the directory. *)
Record log_files (fs : gmap string (list Z)) (T : LogSegments) : Prop := {
  lf_wf : Segments.wf T;
  lf_open : Forall (fun x => exists c, x.2 = open_segment (seg_id x.2) (base_sn x.2) c /\
    fs !! Segment.filename x.2 = Some c /\ u64 (seg_id x.2) /\ i64 (base_sn x.2)) T;
  lf_only : forall f, String.prefix (dir +:+ "/") f = true -> is_Some (fs !! f) ->
    isLogFile (path_filename f) = true -> segmentIDAndSequenceFromFileName (path_filename f) = None \/
    exists x, x ∈ T /\ f = Segment.filename x.2;
}.

Definition among (files : list string) (x : Z * LogSegment) : Prop := Segment.filename x.2 ∈ files.
#[local] Instance among_dec files x : Decision (among files x).
Proof. unfold among. apply _. Defined.

Lemma segment_named fs T x :
  log_files fs T -> x ∈ T -> Segment.filename x.2 = logFile dir (seg_id x.2) (base_sn x.2) EmptyString /\
    path_filename (Segment.filename x.2) = logFileName (seg_id x.2) (base_sn x.2) EmptyString /\
    segmentIDAndSequenceFromFileName (path_filename (Segment.filename x.2)) = Some (seg_id x.2, base_sn x.2).
Proof.
  intros HT Hx. pose proof (lf_open _ _ HT) as Ho. rewrite Forall_forall in Ho.
  destruct (Ho x Hx) as (c & Heq & _ & Hid & Hb).
  assert (Hn : Segment.filename x.2 = logFile dir (seg_id x.2) (base_sn x.2) EmptyString) by (rewrite Heq at 1; done).
  rewrite Hn, logFile_filename, parse_logFileName by done. done.
Qed.

Lemma segment_apart fs T pre x post y :
  log_files fs T -> T = pre ++ x :: post -> y ∈ pre ++ post -> Segment.filename y.2 <> Segment.filename x.2.
Proof.
  intros HT HTeq Hy Heq. assert (Hin : y ∈ T /\ x ∈ T)
    by (rewrite HTeq, !elem_of_app, !elem_of_cons; apply elem_of_app in Hy; tauto). destruct Hin as [Hin Hx].
  destruct (segment_named _ _ _ HT Hin) as (_ & _ & Hpy). destruct (segment_named _ _ _ HT Hx) as (_ & _ & Hpx).
  rewrite Heq, Hpx in Hpy. injection Hpy as _ Hb. pose proof (lf_wf _ _ HT) as [Hsort Hbase].
  rewrite Forall_forall in Hbase. pose proof (Hbase y Hin) as Hby. pose proof (Hbase x Hx) as Hbx.
  rewrite HTeq in Hsort. destruct x as [k seg]. apply om_sorted_middle in Hsort as [Hlt Hgt].
  rewrite Forall_forall in Hlt, Hgt. cbn in *. apply elem_of_app in Hy as [Hy|Hy]; [specialize (Hlt y Hy)|specialize (Hgt y Hy)]; lia.
Qed.

Lemma wp_load_segment_files fs T done_ todo ps ts s (Q : unit -> loader -> Prop) E :
  log_files fs T -> NoDup (done_ ++ todo) ->
  Forall (fun f => String.prefix (dir +:+ "/") f = true /\ is_Some (fs !! f)) todo ->
  loading ps ts s -> w_files (ld_world s) = fs -> ld_segments s = filter (among done_) T ->
  (forall s', loading ps ts s' -> w_files (ld_world s') = fs ->
     ld_segments s' = filter (among (done_ ++ todo)) T -> Q tt s') ->
  wp (Loader.load_segment_files dir todo) Q E s.
Proof.
  intros HT Hnd Htodo. revert done_ s Hnd. induction Htodo as [|f todo [Hp Hf] _ IH]; intros done_ s Hnd Hlo Hfs Hs HQ.
  { apply wp_ret, HQ; [done|done|]. by rewrite app_nil_r. }
  rewrite cons_middle, app_assoc in Hnd, HQ. cbn [Loader.load_segment_files]. apply wp_bind.
  assert (Hskip : (forall x, x ∈ T -> Segment.filename x.2 <> f) -> wp (Loader.load_segment_files dir todo) Q E s).
  { intros Hne. eapply (IH (done_ ++ [f])); [done|done|done| |done]. rewrite Hs. apply filter_ext_in. intros x Hx.
    unfold among. rewrite elem_of_app, list_elem_of_singleton. specialize (Hne x Hx). tauto. }
  destruct (isLogFile (path_filename f)) eqn:Hlog.
  2: { apply wp_ret, Hskip. intros x Hx <-. destruct (segment_named _ _ _ HT Hx) as (_ & Hn & _).
       by rewrite Hn, logFileName_log in Hlog. }
  destruct (segmentIDAndSequenceFromFileName (path_filename f)) as [[id b]|] eqn:Hparse.
  2: { apply wp_ret, Hskip. intros x Hx <-. destruct (segment_named _ _ _ HT Hx) as (_ & _ & Hn). congruence. }
  destruct (lf_only _ _ HT f Hp Hf Hlog) as [?|(x & Hx & ->)]; [congruence|].
  destruct (segment_named _ _ _ HT Hx) as (Hn & _ & Hpx). rewrite Hpx in Hparse. injection Hparse as <- <-.
  pose proof (lf_open _ _ HT) as Ho. rewrite Forall_forall in Ho. destruct (Ho x Hx) as (c & Heq & Hc & _).
  apply wp_bind, wp_zoom. eapply wp_seg_open; [apply Hlo|by rewrite Hfs, <- Hn|].
  intros w1 Hev1 Hfs1. apply wp_modify. rewrite <- Heq. eapply (IH (done_ ++ [Segment.filename x.2])); [done|..|exact HQ].
  - apply (loading_world ps ts s); [done|exact Hev1|]. intros g _. cbn. by rewrite Hfs1.
  - cbn. congruence.
  - cbn [ld_segments]. rewrite Hs. pose proof (lf_wf _ _ HT) as [Hsort Hbase].
    rewrite Forall_forall in Hbase. specialize (Hbase x Hx).
    apply list_elem_of_split in Hx as (pre & post & HTeq). destruct x as [k seg]. cbn in Hbase |- *. subst k.
    unfold Segments.add. rewrite HTeq in Hsort |- *.
    apply om_insert_selected; [done| | |]; unfold among; cbn [snd].
    + intros y Hy. rewrite elem_of_app, list_elem_of_singleton. split; [intros [|Heq']; [done|]|by left].
      exfalso. by apply (segment_apart fs T pre (base_sn seg, seg) post y).
    + intros Hin. apply NoDup_app in Hnd as (Hnd & _). apply NoDup_app in Hnd as (_ & Hnd & _). apply (Hnd _ Hin). by left.
    + apply elem_of_app. right. by left.
Qed.

Lemma wp_loadSegmentFiles T ps ts s (Q : unit -> loader -> Prop) E :
  loading ps ts s -> log_files (w_files (ld_world s)) T -> ld_segments s = [] ->
  (forall s', loading ps ts s' -> w_files (ld_world s') = w_files (ld_world s) -> ld_segments s' = T -> Q tt s') ->
  wp (Loader.loadSegmentFiles d dir) Q E s.
Proof.
  intros Hlo HT Hnil HQ. apply wp_bind, wp_gets. destruct (sw_lists _ _ _ Hshow (w_files (ld_world s))) as [Hnd Hiff].
  set (files := merge_sort path_le (listing (w_files (ld_world s)))).
  assert (Hperm : files ≡ₚ listing (w_files (ld_world s))) by apply merge_sort_Permutation.
  eapply (wp_load_segment_files _ T [] files); [done|by rewrite Hperm| |done|done| |].
  - rewrite Hperm. apply Forall_forall. intros f Hf. pose proof (sw_inside _ _ _ Hshow _ _ Hf) as Hp.
    split; [done|]. by apply Hiff.
  - rewrite Hnil. symmetry. apply filter_none, Forall_forall. intros x _. apply not_elem_of_nil.
  - intros s' Hlo' Hfs' Hs'. apply HQ; [done|done|]. rewrite Hs'. apply filter_all, Forall_forall.
    intros x Hx. unfold among. cbn [app]. rewrite Hperm. pose proof (lf_open _ _ HT) as Ho. rewrite Forall_forall in Ho.
    destruct (Ho x Hx) as (c & _ & Hc & _). apply Hiff; [|by exists c].
    destruct (segment_named _ _ _ HT Hx) as (-> & _ & _). unfold logFile. rewrite prefix_cancel. by destruct (logFileName _ _ _).
Qed.
End Loading.
