(* ===== verification/LogSpec.v ===== *)
(** * What a log holds

    [log_inv old K w lg ess next]: the loglet of [lg] holds the entries [ess], the cache
    the last of them with their positions, and the epoch index can be used.  The cache
    may still hold entries of the segments [old] that were deleted.  [K] is above every
    id that was given out, to segments and to rolled parts of the indexes, so that it is
    known how many more can be given out. *)

From Stdlib Require Import Ascii String.
From S2P Require Import Prelude Ordered Os AppendOnlyFile Frame Codec KeyValues Names MonoMap MonoMapFrame.
From S2P Require Import MonoMapLoad MonoMapRep MonoMapUpdate MonoMapRecover Entry FileLogEntries FleSpec.
From S2P Require Import SegmentNames LogConfig LogSegment SegmentSpec LogSegments LogTypes LogEntryCache CacheProps.
From S2P Require Import IndexSpec IndexOpen Indexes Loglet Log LogLoader LogletRep LogletFetch LogletAppend LogletRoll.
From S2P Require Import StartSpec.

Local Open Scope Z_scope.

(** ** The cache and the log *)

(** A cached entry is an entry of the log, with its position. *)
Definition item_ok (ess : list (list Entry)) (i : EntryWithSequenceMeta) : Prop :=
  exists k es1 es2, ess !! k = Some (es1 ++ entry i :: es2) /\
    i = Cache.item_at (sn (entry i) - Z.of_nat (length es1)) (entry i)
          (Z.of_nat (length (serialize_to (entry i)))) (size_of es1).

(** The log got longer: its segments and more. *)
Definition extends (ess ess' : list (list Entry)) : Prop :=
  forall k es, ess !! k = Some es -> exists more, ess' !! k = Some (es ++ more).

Lemma extends_refl ess : extends ess ess.
Proof. intros k es He. exists []. by rewrite app_nil_r. Qed.

Lemma extends_trans e1 e2 e3 : extends e1 e2 -> extends e2 e3 -> extends e1 e3.
Proof.
  intros H1 H2 k es He. destruct (H1 k es He) as [m1 He1]. destruct (H2 _ _ He1) as [m2 He2].
  exists (m1 ++ m2). by rewrite app_assoc.
Qed.

Lemma extends_roll ess : extends ess (ess ++ [[]]).
Proof. intros k es He. exists []. rewrite app_nil_r. by apply lookup_app_l_Some. Qed.

Lemma extends_behind old ess ess' : extends ess ess' -> extends (old ++ ess) (old ++ ess').
Proof.
  intros Hx k es He. apply lookup_app_Some in He as [He|[Hk He]].
  - exists []. rewrite app_nil_r. by apply lookup_app_l_Some.
  - destruct (Hx _ _ He) as [more Hm]. exists more. by rewrite lookup_app_r.
Qed.

Lemma extends_append pre es batch : extends (pre ++ [es]) (pre ++ [es ++ batch]).
Proof.
  intros k es' He. destruct (decide (k < length pre)%nat).
  - exists []. rewrite app_nil_r. rewrite lookup_app_l in He |- * by done. done.
  - rewrite lookup_app_r in He |- * by lia. destruct (k - length pre)%nat; [|done]. cbn in *. simplify_eq. by exists batch.
Qed.

Lemma item_ok_extends ess ess' i : item_ok ess i -> extends ess ess' -> item_ok ess' i.
Proof.
  intros (k & es1 & es2 & He & Hi) Hx. destruct (Hx _ _ He) as [more Hm]. exists k, es1, (es2 ++ more).
  split; [|done]. by rewrite Hm, <- app_assoc.
Qed.

Lemma size_of_single e : size_of [e] = Z.of_nat (length (serialize_to e)).
Proof. unfold size_of. rewrite encode_entries_cons. cbn. by rewrite app_nil_r. Qed.

(** The items [append_batch] makes are right for entries numbered on from [b]. *)
Lemma items_of_ok ess k es0 b batch more :
  ess !! k = Some (es0 ++ batch ++ more) ->
  sn <$> batch = seqZ (b + Z.of_nat (length es0)) (Z.of_nat (length batch)) ->
  Forall (item_ok ess) (items_of b batch (serialize_to <$> batch) (size_of es0)).
Proof.
  revert es0. induction batch as [|e batch IH]; intros es0 He Hsn; [constructor|].
  rewrite seqZ_cons in Hsn by (cbn [length]; lia). cbn [length fmap list_fmap] in Hsn. injection Hsn as Hs Hsn.
  cbn [items_of fmap list_fmap]. constructor.
  - exists k, es0, (batch ++ more). split; [done|]. cbn. by rewrite Hs, Z.add_simpl_r.
  - replace (size_of es0 + _) with (size_of (es0 ++ [e])).
    + apply IH.
      * by rewrite He, <- app_assoc.
      * rewrite Hsn, length_app. cbn [length]. f_equal; lia.
    + by rewrite size_of_app, size_of_single.
Qed.

Section LogSpec.
Context (d : directory) (sizeof_Entry : Z).

(** The cache holds entries of the log, up to the last one. *)
Record cache_rep (c : LogEntryCache) (ess : list (list Entry)) (next : Z) : Prop := {
  cr_ok : cache_ok sizeof_Entry c;
  cr_items : Forall (item_ok ess) (cached c);
  cr_last : forall i, last (cached c) = Some i -> item_sn i + 1 = next;
}.

(** The epoch index holds no epoch below the one every entry has. *)
Definition epochs_rep (w : world) (lg : Log) : Prop :=
  exists eps, available (epoch_file (log_dir (loglet lg))) (2 ^ 64) eps (MonoState w (epoch_sn_index lg)) /\
    Forall (fun x => 1 <= epoch x) eps.

(** The ids that were given out are below [K]. *)
Record below (K : Z) (l : Loglet) : Prop := {
  bl_pos : 1 <= K;
  bl_ts : ids_below K (event_ts_sn_index l);
  bl_sn : ids_below K (sn_pos_index l);
  bl_segs : Forall (fun x => seg_id x.2 < K) (segments l);
}.

(** The log files of the directory are those of the segments. *)
Definition only_segments (dir : string) (fs : gmap string (list Z)) (segs : LogSegments) : Prop :=
  forall f, String.prefix (dir +:+ "/") f = true -> is_Some (fs !! f) -> isLogFile (path_filename f) = true ->
    segmentIDAndSequenceFromFileName (path_filename f) = None \/ exists x, x ∈ segs /\ f = Segment.filename x.2.

(** The limits under which the log does not run into those of its file formats. *)
Record sane (c : LogConfig) : Prop := {
  sc_disk : inmemory c = false;
  sc_segment : 0 < segment_size c < 2 ^ 36;
}.

(** Files of deleted segments get a suffix before they are removed. *)
Definition doomed (seg : LogSegment) : Prop :=
  last (list_ascii_of_string (Segment.filename seg)) = Some "d"%char.

(** The loglet of a log. *)
Record log_core (K : Z) (w : world) (l : Loglet) (ess : list (list Entry)) (next : Z) : Prop := {
  lc_rep : log_rep w l ess next;
  lc_ts : searchable (event_ts_sn_index l);
  lc_pos : searchable (sn_pos_index l);
  lc_below : below K l;
  lc_only : only_segments (log_dir l) (w_files w) (segments l);
  lc_config : sane (log_config l);
  lc_next : 0 < next /\ i64 next;
  lc_doomed : Forall doomed (to_delete l);
}.

Lemma core_time K w l ess next : log_core K w l ess next -> 0 <= timestamp (max_etimestamp_and_sn_so_far l).
Proof. intros Hc. destruct (lr_ts (lc_rep _ _ _ _ _ Hc)) as (ts & _ & Htb). apply Htb. Qed.

Record log_inv (old : list (list Entry)) (K : Z) (w : world) (lg : Log) (ess : list (list Entry)) (next : Z) : Prop := {
  li_core :> log_core K w (loglet lg) ess next;
  li_epochs : epochs_rep w lg;
  li_cache : cache_rep (entry_cache lg) (old ++ ess) next;
}.

(** What no append changes. *)
Record same_rest (lg lg' : Log) : Prop := {
  sm_closed : closed lg' = closed lg;
  sm_paused : paused lg' = paused lg;
  sm_start : log_start_sn lg' = log_start_sn lg;
  sm_committed : committed_sn lg' = committed_sn lg;
  sm_epoch : committed_epoch lg' = committed_epoch lg;
  sm_dir : log_dir (loglet lg') = log_dir (loglet lg);
  sm_config : log_config (loglet lg') = log_config (loglet lg);
}.

Lemma same_rest_refl lg : same_rest lg lg.
Proof. by split. Qed.
Lemma same_rest_trans l1 l2 l3 : same_rest l1 l2 -> same_rest l2 l3 -> same_rest l1 l3.
Proof. intros [] []. split; congruence. Qed.

(** ** The epoch index *)

Lemma epoch_not_ts dir f : belongs (epoch_file dir) f -> ~ belongs (dir +:+ "/ts-sn.idx") f.
Proof. by apply index_files_apart. Qed.
Lemma epoch_not_pos dir f : belongs (epoch_file dir) f -> ~ belongs (dir +:+ "/sn-pos.idx") f.
Proof. by apply index_files_apart. Qed.

Lemma log_rep_frame w l ess next w' :
  log_rep w l ess next ->
  (forall f, ~ belongs (epoch_file (log_dir l)) f -> w_files w' !! f = w_files w !! f) ->
  log_rep w' l ess next.
Proof.
  intros [Hs Hn [(ps & Hps & Hpt) (ts & Hts & Htb)]] Hfs. split; [|done|split].
  - eapply segs_rep_frame; [exact Hs|]. intros x Hx. apply Hfs. by eapply (segment_file_not_index _ _ _ _ _ x "e"%char).
  - exists ps. split; [|done]. eapply index_of_frame; [exact Hps|]. intros f Hf. apply Hfs. intros He.
    by apply (epoch_not_pos (log_dir l) f).
  - exists ts. split; [|done]. eapply index_of_frame; [exact Hts|]. intros f Hf. apply Hfs. intros He.
    by apply (epoch_not_ts (log_dir l) f).
Qed.

Lemma only_frame (eps : list EpochSequence) K dir w ix w' segs :
  only_segments dir (w_files w) segs -> available (epoch_file dir) K eps (MonoState w' ix) ->
  (forall f, ~ belongs (epoch_file dir) f -> w_files w' !! f = w_files w !! f) ->
  only_segments dir (w_files w') segs.
Proof.
  intros Ho Hav%available_stored Hfs f Hp Hf Hlog. apply Ho; [done| |done]. rewrite <- Hfs; [done|].
  eapply (stored_name (KV := EpochSequence)); [|exact Hav|done|by apply log_last|done|done].
  unfold epoch_file. by rewrite list_ascii_app, last_app.
Qed.

Context (Hthere : dir_there d = true) (Hisdir : dir_is_directory d = true).
Context (w0 : world) (Hben : benign w0) (old : list (list Entry)).

(** Every entry is registered under epoch 1; only the first one stays. *)
Lemma wp_index_epoch K ess next s n (Q : bool + Z -> log_state -> Prop) E :
  log_inv old K (lg_world s) (lg_log s) ess next -> evolves w0 (lg_world s) -> i64 n ->
  lists_directory (log_dir (loglet (lg_log s)) +:+ "/") (dir_listing d) ->
  (forall b s', log_inv old K (lg_world s') (lg_log s') ess next -> evolves w0 (lg_world s') ->
     same_rest (lg_log s) (lg_log s') -> loglet (lg_log s') = loglet (lg_log s) -> Q (inl b) s') ->
  wp (attempt (Lg.on_epoch (EpochIndex.maybeIndexEpochStartSequence d (mkEpochSequence 1 n)))) Q E s.
Proof.
  intros Hinv Hev Hn Hlist HQ. apply wp_attempt, wp_zoom. unfold EpochIndex.maybeIndexEpochStartSequence.
  rewrite Hthere, Hisdir. destruct (li_epochs _ _ _ _ _ _ Hinv) as (eps & Hav & Heps).
  eapply (wp_open_first _ _ (lists_index _ _ _ Hlist) w0 Hben (2 ^ 64) ltac:(lia) eps); [exact Hav|done| |exact Heps|].
  { split; cbn; unfold u64, i64 in *; lia. }
  intros b eps' t Hcase Ho [Hev' [Hout _ _]]. destruct t as [w' ix]. cbn in Hev', Hout. apply HQ; [|done|done|done].
  destruct Hinv as [[] _ Hcache]. split; cbn; [|exists eps'|done].
  - split; try done; [by eapply log_rep_frame|]. eapply only_frame; [done|right; exact Ho|done].
  - split; [by right|]. destruct Hcase as [[_ ->]|[_ ->]]; [|done]. constructor; [cbn; lia|constructor].
Qed.

(** ** Appending *)

(** The entries as they are filed: with the length of what follows it in front. *)
Definition filed (es : list Entry) : list Entry := (fun e => (serialize e).2) <$> es.

(** The largest event time, with the first entry that has it. *)
Definition max_time (m : TimestampSequence) (es : list Entry) : TimestampSequence :=
  foldl (fun m e => if timestamp m <? max_event_timestamp e
                    then mkTimestampSequence (max_event_timestamp e) (sn e) else m) m es.

Lemma filed_sn es : sn <$> filed es = sn <$> es.
Proof. unfold filed. rewrite <- list_fmap_compose. by apply list_fmap_ext. Qed.

Lemma max_time_from m es :
  max_time m es = m \/ exists e, e ∈ es /\ max_time m es = mkTimestampSequence (max_event_timestamp e) (sn e).
Proof.
  unfold max_time. revert m. induction es as [|e es IH]; intros m; cbn [foldl]; [by left|].
  destruct (IH (if timestamp m <? max_event_timestamp e then mkTimestampSequence (max_event_timestamp e) (sn e) else m))
    as [->|(e' & He' & ->)].
  - destruct (_ <? _); [right|by left]. exists e. split; [by left|done].
  - right. exists e'. split; [by right|done].
Qed.

Lemma wp_serialize_batch K ess next batch m entries data bytes s
    (Q : TimestampSequence * list Entry * list (list Z) * Z + Z -> log_state -> Prop) E :
  log_inv old K (lg_world s) (lg_log s) ess next -> evolves w0 (lg_world s) ->
  lists_directory (log_dir (loglet (lg_log s)) +:+ "/") (dir_listing d) -> Forall (fun e => i64 (sn e)) batch ->
  0 <= bytes -> bytes + size_of (filed batch) < 2 ^ 32 ->
  (forall s', log_inv old K (lg_world s') (lg_log s') ess next -> evolves w0 (lg_world s') ->
     same_rest (lg_log s) (lg_log s') -> loglet (lg_log s') = loglet (lg_log s) ->
     Q (inl (max_time m batch, entries ++ filed batch, data ++ (serialize_to <$> filed batch),
             bytes + size_of (filed batch))) s') ->
  wp (Lg.serialize_batch d batch m entries data bytes) Q E s.
Proof.
  intros Hinv Hev Hlist Hsn. revert m entries data bytes s Hinv Hev Hlist.
  induction Hsn as [|e batch He _ IH]; intros m entries data bytes s Hinv Hev Hlist Hb Hlt HQ.
  { apply wp_ret. specialize (HQ s Hinv Hev (same_rest_refl _) eq_refl).
    change (size_of (filed [])) with 0 in HQ. cbn in HQ. by rewrite !app_nil_r, Z.add_0_r in HQ. }
  cbn [Lg.serialize_batch]. apply wp_bind. eapply wp_index_epoch; [exact Hinv|done|done|done|].
  intros b s1 Hinv1 Hev1 Hsm1 Hl1. pose proof (serialize_bytes e) as Hbs.
  change (filed (e :: batch)) with ((serialize e).2 :: filed batch) in *.
  destruct (serialize e) as [bs e'] eqn:Hser. cbn [fst snd] in *. subst bs.
  assert (Hsz : size_of (e' :: filed batch) = Z.of_nat (length (serialize_to e')) + size_of (filed batch)).
  { unfold size_of. rewrite encode_entries_cons, length_app. lia. }
  rewrite Hsz in Hlt, HQ. pose proof (size_of_nonneg (filed batch)).
  assert (Hu : to_u32 (bytes + Z.of_nat (length (serialize_to e'))) = bytes + Z.of_nat (length (serialize_to e')))
    by (unfold to_u32; rewrite Z.mod_small; lia).
  rewrite Hu. eapply IH; [exact Hinv1|done|by rewrite Hl1|lia|lia|].
  intros s' Hinv' Hev' Hsm' Hl'. rewrite <- !app_assoc, <- Z.add_assoc.
  apply HQ; [done|done|by eapply same_rest_trans|congruence].
Qed.

(** The files of the indexes are no log files. *)
Lemma only_after K w l ess' next' s' :
  only_segments (log_dir l) (w_files w) (segments l) -> log_after w0 w l ess' next' s' ->
  log_rep (ls_world s') (ls_loglet s') ess' next' ->
  searchable (event_ts_sn_index (ls_loglet s')) -> ids_below K (event_ts_sn_index (ls_loglet s')) ->
  searchable (sn_pos_index (ls_loglet s')) -> ids_below K (sn_pos_index (ls_loglet s')) ->
  only_segments (log_dir (ls_loglet s')) (w_files (ls_world s')) (segments (ls_loglet s')).
Proof.
  intros Ho Haf [_ _ [(ps & Hps & _) (ts & Hts & _)]] Hst Hit Hsp Hip f Hp Hf Hlog.
  pose proof (available_stored _ _ _ _ (or_intror (conj Hps (conj Hsp Hip)))) as Hps'.
  pose proof (available_stored _ _ _ _ (or_intror (conj Hts (conj Hst Hit)))) as Hts'.
  pose proof (log_last f Hlog) as Hl. unfold pos_name, ts_name in *. rewrite (af_dir _ _ _ _ _ _ Haf) in *.
  destruct (decide (Exists (fun x => f = Segment.filename x.2) (segments (ls_loglet s')))) as [Hex|Hnex].
  { right. by apply Exists_exists in Hex. }
  rewrite (af_files _ _ _ _ _ _ Haf) in Hf.
  - destruct (Ho f Hp Hf Hlog) as [|(x & Hx & ->)]; [by left|right].
    destruct (af_names _ _ _ _ _ _ Haf x Hx) as (x' & Hx' & Hn). by exists x'.
  - eapply (stored_name (KV := TimestampSequence)); [|exact Hts'|done|exact Hl|done|done]. unfold ts_name. by rewrite list_ascii_app, last_app.
  - eapply (stored_name (KV := SequencePosition)); [|exact Hps'|done|exact Hl|done|done]. unfold pos_name. by rewrite list_ascii_app, last_app.
  - apply Forall_forall. intros x Hx Heq. apply Hnex, Exists_exists. by exists x.
Qed.

(** After an operation of the loglet. *)
Lemma core_after K w l ess next ess' next' s' :
  log_core K w l ess next -> log_after w0 w l ess' next' s' -> next <= next' -> i64 next' ->
  log_core (K + 1) (ls_world s') (ls_loglet s') ess' next' /\
  (forall f, belongs (epoch_file (log_dir l)) f -> w_files (ls_world s') !! f = w_files w !! f).
Proof.
  intros [Hrep Hts Hpos [Hk Hkt Hkp Hks] Ho Hcfg [Hn Hi] Hdm] Haf Hle Hi'.
  destruct (log_after_rep _ _ _ _ _ _ Haf Hben) as [Hrep' [Hut Hup Hgt Hgp]].
  pose proof (af_dir _ _ _ _ _ _ Haf) as Hdir.
  assert (Hother : forall f, ~ belongs (ts_name l) f -> ~ belongs (pos_name l) f ->
    (forall x, x ∈ segments (ls_loglet s') -> f <> Segment.filename x.2) -> w_files (ls_world s') !! f = w_files w !! f).
  { intros f Hf1 Hf2 Hf3. apply (af_files _ _ _ _ _ _ Haf f Hf1 Hf2). apply Forall_forall. exact Hf3. }
  split.
  - split; try done; [by apply Hup|split; [lia|by apply Hgt|by apply Hgp|by apply (af_ids _ _ _ _ _ _ Haf)]| |
      by rewrite (af_config _ _ _ _ _ _ Haf)|by split; [lia|]|by rewrite (af_doomed _ _ _ _ _ _ Haf)].
    eapply only_after; [exact Ho|exact Haf|done|done|by apply Hgt|by apply Hup|by apply Hgp].
  - intros f Hf. apply Hother; [by apply epoch_not_ts|by apply epoch_not_pos|].
    intros x Hx ->. revert Hf. by apply (segment_file_not_index _ _ _ _ _ x "e"%char _ (af_segs _ _ _ _ _ _ Haf)).
Qed.
End LogSpec.
