(* ===== verification/LogWrite.v ===== *)
(** * Appending to a log

    [Log::append] on a log that holds the entries [ess]: every batch goes behind them,
    in a new segment when the active one would grow over its size, and the cache
    follows. *)

From Stdlib Require Import Ascii String.
From S2P Require Import Prelude Ordered Os AppendOnlyFile Frame Codec KeyValues Names MonoMap MonoMapFrame.
From S2P Require Import MonoMapLoad MonoMapRep MonoMapUpdate MonoMapRecover Entry FileLogEntries FleSpec.
From S2P Require Import SegmentNames LogConfig LogSegment SegmentSpec LogSegments LogTypes LogEntryCache CacheProps.
From S2P Require Import IndexSpec IndexOpen Indexes Loglet Log LogLoader LogletRep LogletFetch LogletAppend LogletRoll.
From S2P Require Import StartSpec LogSpec.

Local Open Scope Z_scope.

Lemma log_active w l ess next :
  log_rep w l ess next ->
  exists psegs b seg pre es, segments l = psegs ++ [(b, seg)] /\ ess = pre ++ [es].
Proof.
  intros HL. destruct (lr_next HL) as (b & seg & es & [psegs Hs]%last_Some & [pre He]%last_Some & _).
  by exists psegs, b, seg, pre, es.
Qed.

Section LogWrite.
Context (d : directory) (sizeof_Entry : Z).
Context (Hthere : dir_there d = true) (Hisdir : dir_is_directory d = true).
Context (w0 : world) (Hben : benign w0) (old : list (list Entry)).
Local Abbreviation log_inv := (log_inv sizeof_Entry old).
Local Abbreviation cache_rep := (cache_rep sizeof_Entry).

Lemma cache_rep_extends c ess ess' next : cache_rep c ess next -> extends ess ess' -> cache_rep c ess' next.
Proof.
  intros [] Hx. split; try done. eapply Forall_impl; [done|]. intros i Hi. by eapply item_ok_extends.
Qed.

Lemma log_inv_mono K K' w lg ess next : log_inv K w lg ess next -> K <= K' -> log_inv K' w lg ess next.
Proof.
  intros [[Hrep Hts Hpos [Hk Hkt Hkp Hks] Ho Hcfg Hn Hdm] He Hc] Hle. split; try done. split; try done.
  split; [lia|by eapply ids_below_mono..|]. eapply Forall_impl; [exact Hks|]. cbn. lia.
Qed.

Lemma inv_after K w lg ess next ess' next' s' c :
  log_inv K w lg ess next -> log_after w0 w (loglet lg) ess' next' s' -> next <= next' -> i64 next' ->
  cache_rep c (old ++ ess') next' ->
  log_inv (K + 1) (ls_world s') (set_entry_cache c (set_loglet (ls_loglet s') lg)) ess' next'.
Proof.
  intros [Hcore (eps & Hav & Hle) _] Haf Hn Hi Hc. destruct (core_after w0 Hben _ _ _ _ _ _ _ _ Hcore Haf Hn Hi) as [Hcore' Hfs].
  split; [done| |done]. exists eps. split; [|done]. cbn. rewrite (af_dir _ _ _ _ _ _ Haf). by eapply available_frame.
Qed.

(** What an entry of the log needs of the ids of the indexes. *)
Lemma inv_room K w lg ess next :
  log_inv K w lg ess next -> K < 2 ^ 28 -> ids_room (event_ts_sn_index (loglet lg)) /\ ids_room (sn_pos_index (loglet lg)).
Proof.
  intros [[_ _ _ [] _ _ _ _] _ _] HK. split; (eapply Forall_impl; [eassumption|]); cbn; lia.
Qed.

(** ** Rolling *)

Lemma inv_roll_room K w lg psegs b seg pre es next :
  log_inv K w lg (pre ++ [es]) next -> segments (loglet lg) = psegs ++ [(b, seg)] -> K + 1 < 2 ^ 28 ->
  0 < size_of es -> roll_room w (loglet lg) b seg next.
Proof.
  intros [[Hrep _ _ [_ _ _ Hks] Ho _ [Hn Hi] _] _ _] Hs HK Hsz.
  pose proof (lr_segs Hrep) as HR. rewrite Hs in HR, Hks, Ho. pose proof HR as HR'. apply segs_rep_snoc in HR' as (_ & Hlt & Hla).
  apply Forall_snoc in Hks as [Hks1 Hks2]. cbn in Hks2. pose proof (la_id Hla) as Hid. split; [|done|lia|].
  - rewrite (la_next Hla). destruct es; cbn in *; [done|lia].
  - assert (Hu : u64 (seg_id seg + 1)) by (unfold u64; lia).
    destruct (w_files w !! _) as [x|] eqn:Hf; [|done]. exfalso.
    destruct (Ho _ (logFile_inside _ _ _) ltac:(by exists x)) as [Hnone|(y & Hy & Heq)].
    + rewrite logFile_filename by done. apply logFileName_log.
    + by rewrite logFile_filename, parse_logFileName in Hnone by done.
    + symmetry in Heq. revert Heq. eapply new_file_apart; [exact HR|exact Hy| |done|done].
      apply elem_of_app in Hy as [Hy| ->%list_elem_of_singleton]; [|cbn; lia].
      rewrite Forall_forall in Hlt. destruct (Hlt _ Hy). lia.
Qed.

(** The active segment, with room for what is appended. *)
Record active_room (ess : list (list Entry)) (next bytes : Z) (lg lg' : Log) (psegs : LogSegments) (b : Z)
    (seg : LogSegment) (pre : list (list Entry)) (es : list Entry) : Prop := {
  ar_segments : segments (loglet lg') = psegs ++ [(b, seg)];
  ar_extends : extends ess (pre ++ [es]);
  ar_entries : concat (pre ++ [es]) = concat ess;
  ar_size : size_of es + bytes <= segment_size (log_config (loglet lg'));
}.

Lemma wp_maybeRoll K ess next s bytes (Q : LogSegment -> log_state -> Prop) E :
  log_inv K (lg_world s) (lg_log s) ess next -> evolves w0 (lg_world s) -> K + 1 < 2 ^ 28 ->
  0 <= bytes <= segment_size (log_config (loglet (lg_log s))) ->
  (forall s' psegs b seg pre es, log_inv (K + 1) (lg_world s') (lg_log s') (pre ++ [es]) next ->
     evolves w0 (lg_world s') -> same_rest (lg_log s) (lg_log s') ->
     active_room ess next bytes (lg_log s) (lg_log s') psegs b seg pre es -> Q seg s') ->
  wp (Lg.maybeRoll d bytes next) Q E s.
Proof.
  intros Hinv Hev HK Hb HQ. destruct (log_active _ _ _ _ (lc_rep _ _ _ _ _ Hinv)) as (psegs & b & seg & pre & es & Hs & ->).
  pose proof (lr_segs (lc_rep _ _ _ _ _ Hinv)) as HR. rewrite Hs in HR. apply segs_rep_snoc in HR as (_ & _ & Hla).
  pose proof (segment_on_size _ _ _ (la_file Hla)) as Hsz. fold (size_of es) in Hsz. pose proof (la_small Hla) as Hsm.
  pose proof (size_of_nonneg es). pose proof (sc_segment _ (lc_config _ _ _ _ _ Hinv)) as Hcfg.
  destruct s as [w lg]. cbn [lg_world lg_log] in *.
  unfold Lg.maybeRoll, Lglt.activeSegment. apply wp_bind, wp_zoom, wp_bind, wp_gets. cbn [ls_loglet lg_log].
  rewrite (active_segment (loglet lg) psegs b seg Hs). apply wp_ret. cbn [ls_world ls_loglet lg_log lg_world].
  replace (set_loglet (loglet lg) lg) with lg by by destruct lg. apply wp_bind, wp_gets. cbn [lg_log].
  unfold Segment.shouldRoll, Lg.config.
  replace (to_u64 (Segment.size seg + bytes)) with (size_of es + bytes)
    by (unfold to_u64; rewrite Hsz, Z.mod_small; lia).
  destruct (Z.ltb_spec (segment_size (log_config (loglet lg))) (size_of es + bytes)) as [Hlt|Hle]; cbn [negb].
  - apply wp_zoom. cbn [lg_world lg_log].
    eapply (wp_roll_log d w0 w (loglet lg) psegs b seg pre es next); try done; try apply Hinv.
    + by eapply inv_room; [exact Hinv|lia].
    + by eapply inv_roll_room; [exact Hinv|done|done|lia].
    + intros new s' Haf Hnb Hl. apply last_Some in Hl as [psegs' Hs'].
      pose proof (extends_roll (pre ++ [es])) as Hx.
      apply (HQ _ psegs' next new (pre ++ [es]) []); [|apply Haf|split; try done; apply Haf|].
      * eapply (inv_after K w lg); [exact Hinv|exact Haf|lia|apply Hinv|].
        eapply cache_rep_extends; [apply Hinv|by apply extends_behind].
      * split; [done|done|by rewrite !concat_app, app_nil_r|].
        cbn [lg_log loglet set_loglet]. rewrite (af_config _ _ _ _ _ _ Haf). change (size_of []) with 0. lia.
  - apply wp_ret. apply (HQ _ psegs b seg pre es); [|done|by apply same_rest_refl|].
    + eapply log_inv_mono; [exact Hinv|lia].
    + split; [done|by apply extends_refl|done|done].
Qed.

(** ** A batch *)

(** The batch continues the log and does not need more than a segment. *)
Record batch_fits (c : LogConfig) (next : Z) (batch : list Entry) : Prop := {
  bf_nonempty : batch <> [];
  bf_entries : Forall (fun e => valid_entry e /\ meta_fits e) batch;
  bf_sn : sn <$> batch = seqZ next (Z.of_nat (length batch));
  bf_size : size_of (filed batch) <= segment_size c;
  bf_bytes : size_of (filed batch) < 2 ^ 32;
  bf_next : i64 (next + Z.of_nat (length batch));
}.

Lemma filed_entries batch :
  Forall (fun e => valid_entry e /\ meta_fits e) batch -> size_of (filed batch) < 2 ^ 32 ->
  Forall (fun e => sized e /\ meta_fits e) (filed batch).
Proof.
  intros Hall. induction Hall as [|e batch [Hv Hm] _ IH]; intros Hlt; [constructor|].
  change (filed (e :: batch)) with ((serialize e).2 :: filed batch) in *.
  assert (Hsz : size_of ((serialize e).2 :: filed batch) =
    Z.of_nat (length (serialize_to (serialize e).2)) + size_of (filed batch)).
  { unfold size_of. rewrite encode_entries_cons, length_app. lia. }
  rewrite Hsz in Hlt. pose proof (size_of_nonneg (filed batch)). constructor; [|apply IH; lia].
  split; [|exact Hm]. apply serialize_sized; [done|]. rewrite length_serialize_to in Hlt.
  change (serializeRest (serialize e).2) with (serializeRest e) in Hlt. unfold u32. lia.
Qed.

(** The cache and the items of a batch that continues the log. *)
Section CacheGrows.
Context (c : LogEntryCache) (pre : list (list Entry)) (es batch : list Entry) (b next : Z).
Context (Hrep : cache_rep c (old ++ pre ++ [es]) next) (Hb : next = b + Z.of_nat (length es)) (Hne : batch <> []).
Context (Hsn : sn <$> batch = seqZ next (Z.of_nat (length batch))).
Local Abbreviation items := (items_of b batch (serialize_to <$> batch) (size_of es)).

Lemma items_numbers : item_sn <$> items = seqZ next (Z.of_nat (length batch)).
Proof.
  rewrite <- Hsn. transitivity (sn <$> (entry <$> items)); [by rewrite <- list_fmap_compose|].
  by rewrite items_of_entries by (by rewrite length_fmap).
Qed.

Lemma items_consecutive : consecutive (item_sn <$> cached c ++ items).
Proof.
  destruct Hrep as [Hok _ Hl]. rewrite fmap_app, items_numbers. apply consecutive_app.
  split_and!; [apply Hok|apply consecutive_seqZ|].
  intros x y Hx Hy. rewrite fmap_last in Hx. destruct (last (cached c)) as [i|] eqn:Hi; [|done].
  cbn in Hx. simplify_eq. specialize (Hl _ eq_refl). rewrite seqZ_cons in Hy by (destruct batch; cbn in *; [done|lia]).
  cbn in Hy. simplify_eq. lia.
Qed.

Lemma cache_grows c' :
  cache_ok sizeof_Entry c' -> cached c' = lastn (Z.to_nat (max_cached_entries c)) (cached c ++ items) ->
  cache_rep c' (old ++ pre ++ [es ++ batch]) (next + Z.of_nat (length batch)).
Proof.
  intros Hok' Hc'. split; [done| |].
  - rewrite Hc'. apply Forall_drop, Forall_app. split.
    + eapply Forall_impl; [apply Hrep|]. intros i Hi. eapply item_ok_extends; [exact Hi|]. apply extends_behind, extends_append.
    + apply (items_of_ok _ (length (old ++ pre)) es b batch []); [|by rewrite <- Hb].
      rewrite app_nil_r, app_assoc. by apply list_lookup_middle.
  - intros i Hi. rewrite Hc' in Hi. apply last_drop_Some in Hi.
    apply (f_equal (fmap item_sn)) in Hi. rewrite <- fmap_last, fmap_app, items_numbers in Hi.
    rewrite last_app, last_seqZ in Hi by (destruct batch; cbn in *; [done|lia]). cbn in Hi. simplify_eq. lia.
Qed.

Lemma cache_append :
  exists c', Cache.append_batch sizeof_Entry batch (serialize_to <$> batch) b (size_of es) c = Some c' /\
    cache_rep c' (old ++ pre ++ [es ++ batch]) (next + Z.of_nat (length batch)).
Proof.
  destruct (append_batch_ok sizeof_Entry batch (serialize_to <$> batch) b (size_of es) c)
    as (c' & Hrun & Hok' & _ & Hc'); [apply Hrep|by rewrite length_fmap|apply items_consecutive|].
  exists c'. split; [done|]. by apply cache_grows.
Qed.
End CacheGrows.

(** The log [lg'] is [lg] with [batch] behind its entries. *)
Record grown (K : Z) (ess : list (list Entry)) (next : Z) (batch : list Entry) (s s' : log_state)
    (ess' : list (list Entry)) : Prop := {
  gr_inv : log_inv K (lg_world s') (lg_log s') ess' (next + Z.of_nat (length batch));
  gr_evolves : evolves w0 (lg_world s');
  gr_rest : same_rest (lg_log s) (lg_log s');
  gr_extends : extends ess ess';
  gr_entries : concat ess' = concat ess ++ filed batch;
}.

Lemma filed_length batch : length (filed batch) = length batch.
Proof. apply length_fmap. Qed.

Lemma batch_max c next batch m :
  batch_fits c next batch -> 0 <= timestamp m -> timestamp m < timestamp (max_time (mkTimestampSequence 0 0) batch) ->
  next <= ts_sn (max_time (mkTimestampSequence 0 0) batch) < next + Z.of_nat (length batch) /\
  kv_valid (max_time (mkTimestampSequence 0 0) batch).
Proof.
  intros [] Hm Hlt. destruct (max_time_from (mkTimestampSequence 0 0) batch) as [Heq|(e & He & Heq)];
    rewrite Heq in Hlt |- *; cbn in *; [lia|].
  rewrite Forall_forall in bf_entries0. destruct (bf_entries0 e He) as [[] _]. split; [|done].
  assert (Hs : sn e ∈ sn <$> batch) by (by apply list_elem_of_fmap_2). rewrite bf_sn0 in Hs.
  by apply elem_of_seqZ in Hs.
Qed.

Lemma wp_append_active K ess next s psegs b seg pre es batch lg0 (Q : nat * Z -> log_state -> Prop) E :
  log_inv K (lg_world s) (lg_log s) (pre ++ [es]) next -> evolves w0 (lg_world s) -> K < 2 ^ 28 ->
  batch_fits (log_config (loglet (lg_log s))) next batch ->
  active_room ess next (size_of (filed batch)) lg0 (lg_log s) psegs b seg pre es ->
  (forall s', grown (K + 1) ess next batch s s' (pre ++ [es ++ filed batch]) ->
     Q (length (encode_entries (filed batch)), 0) s') ->
  wp (result <- Lg.on_loglet (Lglt.append_batch d (filed batch) (serialize_to <$> filed batch)
                  (Z.to_nat (size_of (filed batch))) (max_time (mkTimestampSequence 0 0) batch));;
      if negb (result.2 =? 0) then ret result
      else
        c <- Lg.get entry_cache;;
        c <- defined (Cache.append_batch sizeof_Entry (filed batch) (serialize_to <$> filed batch) (base_sn seg)
                        (Segment.size seg) c);;
        Lg.put (set_entry_cache c) >>
        ret result)%prog Q E s.
Proof.
  intros Hinv Hev HK Hbf [Hs Hx Hc Hsz] HQ. destruct s as [w lg]. cbn [lg_world lg_log] in *.
  pose proof (lr_segs (lc_rep _ _ _ _ _ Hinv)) as HR. rewrite Hs in HR. apply segs_rep_snoc in HR as (_ & _ & Hla).
  pose proof Hbf as [Hne Hen Hsn Hsg Hby Hnx]. pose proof (inv_room _ _ _ _ _ Hinv HK) as [Hr1 Hr2].
  pose proof (sc_segment _ (lc_config _ _ _ _ _ Hinv)) as Hcfg.
  assert (Hne' : filed batch <> []) by (by destruct batch).
  assert (Hsn' : sn <$> filed batch = seqZ next (Z.of_nat (length (filed batch)))).
  { by rewrite filed_sn, filed_length. }
  destruct (cache_append (entry_cache lg) pre es (filed batch) b next (li_cache _ _ _ _ _ _ _ Hinv) (la_next Hla) Hne' Hsn')
    as (c' & Hc' & Hrep').
  apply wp_bind, wp_zoom. cbn [lg_world lg_log]. replace (Z.to_nat (size_of (filed batch))) with (length (encode_entries (filed batch)))
    by (unfold size_of; lia).
  eapply (wp_loglet_append_batch d w0 w (loglet lg) psegs b seg pre es (filed batch) next); try done; try apply Hinv.
  - split; [done|by apply filed_entries|done|]. rewrite size_of_app. lia.
  - rewrite filed_length. eapply batch_max; [exact Hbf|]. eapply core_time, Hinv.
  - intros r s' [[-> Haf]|(_ & Hb & _)]; [|done]. cbn [snd]. change (negb (0 =? 0)) with false. cbv iota.
    apply wp_bind, wp_gets. cbn [lg_log]. apply wp_bind. rewrite (la_base Hla), (segment_on_size _ _ _ (la_file Hla)).
    eapply wp_defined; [exact Hc'|]. apply wp_bind, wp_modify, wp_ret, HQ. cbn [lg_world lg_log].
    rewrite filed_length in Haf, Hrep'. split; cbn [lg_world lg_log].
    + eapply (inv_after K w lg); [exact Hinv|exact Haf|lia|done|done].
    + apply Haf.
    + split; try done; apply Haf.
    + eapply extends_trans; [exact Hx|apply extends_append].
    + rewrite <- Hc, !concat_app. cbn. by rewrite !app_nil_r, app_assoc.
Qed.

Lemma wp_append_span K ess next s batch (Q : nat * Z -> log_state -> Prop) E :
  log_inv K (lg_world s) (lg_log s) ess next -> evolves w0 (lg_world s) -> K + 1 < 2 ^ 28 ->
  lists_directory (log_dir (loglet (lg_log s)) +:+ "/") (dir_listing d) ->
  batch_fits (log_config (loglet (lg_log s))) next batch ->
  (forall s' ess', grown (K + 2) ess next batch s s' ess' -> Q (length (encode_entries (filed batch)), 0) s') ->
  wp (Lg.append_span d sizeof_Entry batch) Q E s.
Proof.
  intros Hinv Hev HK Hlist Hbf HQ. pose proof Hbf as [Hne Hen Hsn Hsg Hby Hnx]. unfold Lg.append_span.
  pose proof (size_of_nonneg (filed batch)).
  apply wp_bind. eapply (wp_serialize_batch d sizeof_Entry Hthere Hisdir w0 Hben); [exact Hinv|done|done| |lia|lia|].
  { eapply Forall_impl; [exact Hen|]. intros e [[] _]. done. }
  intros s1 Hinv1 Hev1 Hsm1 Hl1. rewrite Z.add_0_l, !app_nil_l. destruct batch as [|e batch]; [done|].
  set (es0 := e :: batch) in *. apply wp_bind. eapply (wp_defined _ (serialize e).2); [done|].
  assert (He : sn (serialize e).2 = next).
  { rewrite seqZ_cons in Hsn by (cbn; lia). cbn in Hsn. by injection Hsn. }
  rewrite He. apply wp_bind, wp_attempt. eapply wp_maybeRoll; [exact Hinv1|done|done|by rewrite Hl1|].
  intros s2 psegs b seg pre es Hinv2 Hev2 Hsm2 Har.
  eapply wp_append_active; [exact Hinv2|done|done| |exact Har|].
  { by rewrite (sm_config _ _ Hsm2), Hl1. }
  intros s3 []. apply (HQ _ (pre ++ [es ++ filed es0])).
  split; [by rewrite <- Z.add_assoc in gr_inv0|done| |done|done].
  eapply same_rest_trans; [exact Hsm1|]. by eapply same_rest_trans.
Qed.

(** ** Any number of entries *)

(** The batches [append] makes of [n] entries. *)
Definition rounds (n : nat) : Z := Z.of_nat (S ((n - 1) / IOV_MAX)).

Lemma rounds_more n : (IOV_MAX < n)%nat -> rounds n = 1 + rounds (n - IOV_MAX).
Proof.
  intros Hn. unfold rounds. replace (n - 1)%nat with (n - IOV_MAX - 1 + 1 * IOV_MAX)%nat by (unfold IOV_MAX in *; lia).
  rewrite Nat.div_add by done. lia.
Qed.

(** The entries continue the log and no batch needs more than a segment. *)
Record append_fits (c : LogConfig) (next : Z) (entries : list Entry) : Prop := {
  pf_nonempty : entries <> [];
  pf_entries : Forall (fun e => valid_entry e /\ meta_fits e) entries;
  pf_sn : sn <$> entries = seqZ next (Z.of_nat (length entries));
  pf_size : forall k, let batch := take IOV_MAX (drop (k * IOV_MAX) entries) in
    size_of (filed batch) <= segment_size c /\ size_of (filed batch) < 2 ^ 32;
  pf_next : i64 (next + Z.of_nat (length entries));
}.

Lemma seqZ_split (es1 es2 : list Entry) next :
  sn <$> es1 ++ es2 = seqZ next (Z.of_nat (length (es1 ++ es2))) ->
  sn <$> es1 = seqZ next (Z.of_nat (length es1)) /\
  sn <$> es2 = seqZ (next + Z.of_nat (length es1)) (Z.of_nat (length es2)).
Proof.
  rewrite fmap_app, length_app, Nat2Z.inj_add, seqZ_app by lia. intros H.
  apply app_inj_1 in H; [done|]. rewrite length_fmap, length_seqZ. lia.
Qed.

Lemma fits_batch c next entries :
  append_fits c next entries -> 0 < next ->
  batch_fits c next (take IOV_MAX entries) /\
  ((IOV_MAX < length entries)%nat ->
   append_fits c (next + Z.of_nat (length (take IOV_MAX entries))) (drop IOV_MAX entries)).
Proof.
  intros [Hne Hen Hsn Hsz Hnx] Hpos. pose proof (take_drop IOV_MAX entries) as Htd.
  rewrite <- Htd in Hsn. destruct (seqZ_split _ _ _ Hsn) as [Hs1 Hs2]. clear Hsn.
  assert (Hlen : length entries = (length (take IOV_MAX entries) + length (drop IOV_MAX entries))%nat)
    by (rewrite <- Htd at 1; apply length_app).
  split.
  - pose proof (Hsz 0%nat) as [Hz1 Hz2]. cbn in Hz1, Hz2. rewrite drop_0 in Hz1, Hz2.
    split; [by destruct entries|by apply Forall_take|done|done|done|unfold i64 in *; lia].
  - intros Hlt. split; [|by apply Forall_drop|done| |unfold i64 in *; lia].
    + intros Heq%(f_equal length). rewrite length_drop in Heq. cbn in Heq. lia.
    + intros k batch. unfold batch. rewrite drop_drop. specialize (Hsz (S k)). cbn in Hsz. done.
Qed.

Lemma grown_trans K1 K2 ess next b1 b2 s1 s2 s3 ess1 ess2 :
  grown K1 ess next b1 s1 s2 ess1 -> grown K2 ess1 (next + Z.of_nat (length b1)) b2 s2 s3 ess2 ->
  grown K2 ess next (b1 ++ b2) s1 s3 ess2.
Proof.
  intros [] []. split; [|done|by eapply same_rest_trans|by eapply extends_trans|].
  - by rewrite length_app, Nat2Z.inj_add, Z.add_assoc.
  - rewrite gr_entries1, gr_entries0. unfold filed. by rewrite fmap_app, app_assoc.
Qed.

Lemma wp_append_batches fuel K ess next s entries written (Q : nat * Z -> log_state -> Prop) E :
  (length entries < fuel)%nat ->
  log_inv K (lg_world s) (lg_log s) ess next -> evolves w0 (lg_world s) ->
  K + 2 * rounds (length entries) <= 2 ^ 28 ->
  lists_directory (log_dir (loglet (lg_log s)) +:+ "/") (dir_listing d) ->
  append_fits (log_config (loglet (lg_log s))) next entries ->
  (forall s' ess', grown (K + 2 * rounds (length entries)) ess next entries s s' ess' ->
     Q ((written + length (encode_entries (filed entries)))%nat, 0) s') ->
  wp (Lg.append_batches d sizeof_Entry fuel entries written) Q E s.
Proof.
  revert K ess next s entries written. induction fuel as [|fuel IH];
    intros K ess next s entries written Hf Hinv Hev HK Hlist Hfit HQ; [lia|].
  destruct (fits_batch _ _ _ Hfit (proj1 (lc_next _ _ _ _ _ Hinv))) as [Hbf Hrest]. cbn [Lg.append_batches].
  assert (Hr : 1 <= rounds (length entries)) by (unfold rounds; lia).
  destruct (Nat.leb_spec (length entries) IOV_MAX) as [Hle|Hgt].
  - rewrite take_ge in Hbf by done. apply wp_bind.
    eapply wp_append_span; [exact Hinv|done|lia|done|done|]. intros s' ess' Hg. apply wp_ret. eapply HQ.
    destruct Hg. split; try done. eapply log_inv_mono; [exact gr_inv0|lia].
  - rewrite (rounds_more _ Hgt) in HK, HQ. rewrite <- length_drop in HK, HQ.
    assert (Hr' : 1 <= rounds (length (drop IOV_MAX entries))) by (unfold rounds; lia).
    apply wp_bind. eapply wp_append_span; [exact Hinv|done|lia|done|done|]. intros s1 ess1 Hg1.
    cbn [fst snd]. change (negb (0 =? 0)) with false. cbv iota.
    pose proof (gr_rest _ _ _ _ _ _ _ Hg1) as Hsm. eapply IH.
    + rewrite length_drop. unfold IOV_MAX in *. lia.
    + apply Hg1.
    + apply Hg1.
    + lia.
    + by rewrite (sm_dir _ _ Hsm).
    + rewrite (sm_config _ _ Hsm). by apply Hrest.
    + intros s2 ess2 Hg2. pose proof (grown_trans _ _ _ _ _ _ _ _ _ _ _ Hg1 Hg2) as Hg. rewrite take_drop in Hg.
      rewrite <- Nat.add_assoc, <- length_app, <- encode_entries_app. unfold filed.
      rewrite <- fmap_app, take_drop. eapply HQ. destruct Hg. split; try done. by replace (K + _) with (K + 2 + 2 * rounds (length (drop IOV_MAX entries))) by lia.
Qed.

Lemma wp_log_append K ess next s entries (Q : nat * Z -> log_state -> Prop) E :
  log_inv K (lg_world s) (lg_log s) ess next -> evolves w0 (lg_world s) ->
  K + 2 * rounds (length entries) <= 2 ^ 28 ->
  lists_directory (log_dir (loglet (lg_log s)) +:+ "/") (dir_listing d) ->
  append_fits (log_config (loglet (lg_log s))) next entries ->
  (forall s' ess', grown (K + 2 * rounds (length entries)) ess next entries s s' ess' ->
     Q (length (encode_entries (filed entries)), 0) s') ->
  wp (Lg.append d sizeof_Entry entries) Q E s.
Proof.
  intros Hinv Hev HK Hlist Hfit HQ. unfold Lg.append. apply wp_bind, wp_gets.
  unfold Lg.isInmemory, Lg.config. rewrite (sc_disk _ (lc_config _ _ _ _ _ Hinv)).
  eapply wp_append_batches; [lia|exact Hinv|done|done|done|done|]. intros s' ess' Hg. by eapply HQ.
Qed.

(** ** Committing and flushing *)

Definition advanced (next epoch n : Z) (lg : Log) : Log :=
  if (epoch <? committed_epoch lg) || (next <=? n) || (n <=? committed_sn lg) then lg else set_committed n epoch lg.

Lemma wp_advance K ess next epoch n w lg (Q : Z -> log_state -> Prop) E :
  log_inv K w lg ess next -> Q (committed_sn lg) (LogState w (advanced next epoch n lg)) ->
  wp (Lg.advanceCommittedSequence epoch n) Q E (LogState w lg).
Proof.
  intros Hinv HQ. unfold Lg.advanceCommittedSequence, advanced in *. apply wp_bind, wp_gets, wp_bind, wp_gets. cbn [lg_log].
  destruct (epoch <? committed_epoch lg); [by apply wp_ret|]. cbn [orb] in HQ.
  apply wp_bind, wp_zoom, wp_gets. cbn [lg_log lg_world ls_loglet ls_world].
  destruct (lr_next (lc_rep _ _ _ _ _ Hinv)) as (b & seg & es & _ & _ & ->). cbn [entry_sn].
  replace (set_loglet (loglet lg) lg) with lg by by destruct lg.
  destruct (next <=? n); [by apply wp_ret|]. cbn [orb] in HQ. apply wp_bind.
  destruct (Z.leb_spec n (committed_sn lg)).
  - rewrite (proj2 (Z.ltb_ge _ _)) by done. by apply wp_ret, wp_ret.
  - rewrite (proj2 (Z.ltb_lt _ _)) by done. by apply wp_modify, wp_ret.
Qed.

Lemma inv_committed K w lg ess next n epoch :
  log_inv K w lg ess next -> log_inv K w (set_committed n epoch lg) ess next.
Proof. intros [Hcore He Hc]. by split. Qed.

Lemma wp_flush K ess next s (Q : unit -> log_state -> Prop) E :
  log_inv K (lg_world s) (lg_log s) ess next -> evolves w0 (lg_world s) ->
  (forall s', log_inv K (lg_world s') (lg_log s') ess next -> evolves w0 (lg_world s') ->
     same_rest (lg_log s) (lg_log s') -> Q tt s') ->
  wp Lg.flush Q E s.
Proof.
  intros Hinv Hev HQ. destruct s as [w lg]. cbn [lg_world lg_log] in *.
  destruct (log_active _ _ _ _ (lc_rep _ _ _ _ _ Hinv)) as (psegs & b & seg & pre & es & Hs & ->).
  apply wp_zoom. eapply (wp_flushActiveSegment w0 w (loglet lg) psegs b seg pre es next); [apply Hinv|done|done| |done].
  intros w1 seg' Hev1 Hfs ->. apply HQ; cbn [lg_world lg_log ls_world ls_loglet]; [|done|done].
  assert (Hfs' : forall f, w_files w1 !! f = w_files w !! f) by (intros; by rewrite Hfs).
  destruct Hinv as [[Hrep Hts Hpos [Hk Hkt Hkp Hks] Ho Hcfg Hn Hdm] (eps & Hav & Heps) Hc].
  split; [split; try done|exists eps; split; [|done]; by eapply available_frame|done].
  - by eapply log_rep_flushed.
  - rewrite Hs in Hks. apply Forall_snoc in Hks as [Hk1 Hk2]. split; try done. cbn. by apply Forall_snoc.
  - intros f Hp Hf Hlog. rewrite Hfs in Hf. rewrite Hs in Ho. destruct (Ho f Hp Hf Hlog) as [|(x & Hx & ->)]; [by left|right].
    apply (snoc_named _ _ _ (Segment.set_last_sync_offset (Segment.size seg) seg)) in Hx as (x' & Hx' & Hn'); [|done].
    by exists x'.
Qed.

(** ** An entry of this server *)

(** The entry [appendLocal] makes at time [now]. *)
Definition stamped (now next : Z) (e : Entry) : Entry :=
  mkEntry (prefix_length e) (crc e) (version e) (correlation_id e) (max_event_timestamp e) now next (entry_type e) (data e).

(** The cache gets the item [append_batch] would make. *)
Lemma cache_append_one c pre es b e next m :
  cache_rep c (old ++ pre ++ [es]) next -> next = b + Z.of_nat (length es) -> sn e = next ->
  m = mkLogSequenceMetadata (next + 1) (Some b) (Some (size_of (es ++ [e]))) ->
  cache_rep (Cache.append sizeof_Entry e (mkLogSequenceMetadata (sn e) (Some b) (Some (size_of es))) (SnMeta.toFetchHint m) c)
    (old ++ pre ++ [es ++ [e]]) (next + 1).
Proof.
  intros Hrep Hb Hsn ->. assert (Hsns : sn <$> [e] = seqZ next (Z.of_nat (length [e]))) by (rewrite seqZ_cons by (cbn; lia); cbn; by rewrite Hsn).
  assert (Hitem : items_of b [e] (serialize_to <$> [e]) (size_of es) =
    [mkCached (mkLogSequenceMetadata (sn e) (Some b) (Some (size_of es)))
       (SnMeta.toFetchHint (mkLogSequenceMetadata (next + 1) (Some b) (Some (size_of (es ++ [e]))))) e]).
  { cbn [items_of fmap list_fmap]. unfold Cache.item_at, SnMeta.toFetchHint.
    cbn [entry_sn segment_base_sn lm_file_position default]. by rewrite Hsn, size_of_app, size_of_single. }
  pose proof (items_consecutive c pre es [e] b next Hrep Hb ltac:(done) Hsns) as Hc.
  unfold Cache.append. eapply (cache_grows c pre es [e] b next Hrep Hb ltac:(done) Hsns); rewrite Hitem in *;
    by apply push_ok; [apply Hrep|].
Qed.

Lemma append_one_state K ess next w lg psegs b seg pre es e s' lg0 :
  log_inv K w lg (pre ++ [es]) next -> segments (loglet lg) = psegs ++ [(b, seg)] -> sn e = next -> i64 (next + 1) ->
  active_room ess next (size_of (filed [e])) lg0 lg psegs b seg pre es ->
  log_after w0 w (loglet lg) (pre ++ [es ++ filed [e]]) (next + 1) s' ->
  next_sn_meta (ls_loglet s') = mkLogSequenceMetadata (next + 1) (Some b) (Some (size_of (es ++ filed [e]))) /\
  grown (K + 1) ess next [e] (LogState w lg)
    (LogState (ls_world s') (set_entry_cache
      (Cache.append sizeof_Entry (serialize e).2 (mkLogSequenceMetadata next (Some (base_sn seg)) (Some (Segment.size seg)))
         (SnMeta.toFetchHint (next_sn_meta (ls_loglet s'))) (entry_cache lg)) (set_loglet (ls_loglet s') lg)))
    (pre ++ [es ++ filed [e]]).
Proof.
  intros Hinv Hs Hsn Hi [_ Hx Hc _] Haf.
  pose proof (lr_segs (lc_rep _ _ _ _ _ Hinv)) as HR. rewrite Hs in HR. apply segs_rep_snoc in HR as (_ & _ & Hla).
  assert (Hm : next_sn_meta (ls_loglet s') = mkLogSequenceMetadata (next + 1) (Some b) (Some (size_of (es ++ filed [e])))).
  { destruct (af_next _ _ _ _ _ _ Haf) as (b' & seg' & es' & [psegs' Hl]%last_Some & He & ->).
    rewrite last_snoc in He. injection He as <-. pose proof (af_segs _ _ _ _ _ _ Haf) as HR'. rewrite Hl in HR'.
    apply segs_rep_snoc in HR' as (_ & _ & Hla'). pose proof (la_next Hla) as H1. pose proof (la_next Hla') as H2.
    rewrite length_app in H2. cbn in H2. do 2 f_equal. lia. }
  split; [done|]. split; cbn [lg_world lg_log length].
  - eapply (inv_after K w lg); [exact Hinv|exact Haf|lia|done|].
    rewrite (la_base Hla), (segment_on_size _ _ _ (la_file Hla)), <- Hsn at 1.
    change (sn e) with (sn (serialize e).2).
    eapply cache_append_one; [apply Hinv|apply (la_next Hla)|done|done].
  - apply Haf.
  - split; try done; apply Haf.
  - eapply extends_trans; [exact Hx|apply extends_append].
  - rewrite <- Hc, !concat_app. cbn. by rewrite !app_nil_r, <- app_assoc.
Qed.

(** From the append to the end. *)
Lemma wp_local_rest K ess next s psegs b seg pre es e lg0 (Q : Z -> log_state -> Prop) E :
  log_inv K (lg_world s) (lg_log s) (pre ++ [es]) next -> evolves w0 (lg_world s) -> K < 2 ^ 28 ->
  batch_fits (log_config (loglet (lg_log s))) next [e] ->
  active_room ess next (size_of (filed [e])) lg0 (lg_log s) psegs b seg pre es ->
  (forall s' ess', grown (K + 1) ess next [e] s s' ess' ->
     Q next (LogState (lg_world s') (advanced (next + 1) 1 next (lg_log s')))) ->
  let e' := (serialize e).2 in
  wp ((r <- Lg.on_loglet (Lglt.append d (serialize_to e') e');;
       if negb (r.2 =? 0) then fail r.2 else ret tt) >>
      meta <- Lg.on_loglet Lglt.nextLogSequenceMetadata;;
      Lg.put (fun l => set_entry_cache
             (Cache.append sizeof_Entry e' (mkLogSequenceMetadata (sn e') (Some (base_sn seg)) (Some (Segment.size seg)))
                (SnMeta.toFetchHint meta) (entry_cache l)) l) >>
      need_flush <- Lg.get (fun l => Lglt.needFlush (loglet l));;
      (if (need_flush : bool) then attempt Lg.flush >> ret tt else ret tt) >>
      Lg.advanceCommittedSequence 1 (sn e') >>
      ret (sn e'))%prog Q E s.
Proof.
  intros Hinv Hev HK Hbf Har HQ e'. destruct s as [w lg]. cbn [lg_world lg_log] in *.
  pose proof (inv_room _ _ _ _ _ Hinv HK) as [Hr1 Hr2]. pose proof (ar_segments _ _ _ _ _ _ _ _ _ _ Har) as Hs.
  destruct Hbf as [_ Hen Hsn Hsg Hby Hnx]. pose proof (sc_segment _ (lc_config _ _ _ _ _ Hinv)) as Hcfg.
  assert (Hse : sn e' = next).
  { rewrite seqZ_cons in Hsn by (cbn; lia). cbn in Hsn. by injection Hsn. }
  apply wp_bind, wp_bind, wp_zoom. cbn [lg_world lg_log].
  eapply (wp_append_one d w0 w (loglet lg) psegs b seg pre es (filed [e]) next); try done; try apply Hinv.
  { split; [done|by apply filed_entries|by rewrite filed_sn, filed_length|]. rewrite size_of_app.
    pose proof (ar_size _ _ _ _ _ _ _ _ _ _ Har). lia. }
  intros r s' [[-> Haf]|(_ & Hb & _)]; [|done]. cbn [snd]. change (negb (0 =? 0)) with false. cbv iota.
  destruct (append_one_state _ _ _ _ _ _ _ _ _ _ _ _ _ Hinv Hs Hse Hnx Har Haf) as [Hm Hg].
  apply wp_ret, wp_bind, wp_zoom, wp_gets, wp_bind, wp_modify, wp_bind, wp_gets.
  cbn [lg_world lg_log ls_world ls_loglet loglet set_loglet entry_cache] in *. rewrite Hse.
  replace (set_loglet (ls_loglet s') (set_loglet (ls_loglet s') lg)) with (set_loglet (ls_loglet s') lg) by done.
  match type of Hg with grown _ _ _ _ _ ?x _ => set (s1 := x) in * end.
  assert (Hdone : forall s2, log_inv (K + 1) (lg_world s2) (lg_log s2) (pre ++ [es ++ filed [e]]) (next + 1) ->
    evolves w0 (lg_world s2) -> same_rest (lg_log s1) (lg_log s2) ->
    wp (Lg.advanceCommittedSequence 1 next >> ret next)%prog Q E s2).
  { intros [w2 lg2] Hinv2 Hev2 Hsm. apply wp_bind. eapply wp_advance; [exact Hinv2|]. apply wp_ret.
    apply (HQ (LogState w2 lg2) (pre ++ [es ++ filed [e]])). destruct Hg. split; try done. by eapply same_rest_trans. }
  apply wp_bind. destruct (Lglt.needFlush _).
  - apply wp_bind, wp_attempt. eapply (wp_flush _ _ _ s1); [apply Hg|apply Hg|]. intros s2 Hinv2 Hev2 Hsm.
    apply wp_ret. by apply Hdone.
  - apply wp_ret, Hdone; [apply Hg|apply Hg|apply same_rest_refl].
Qed.

Lemma wp_appendLocal K ess next s now e (Q : Z -> log_state -> Prop) E :
  log_inv K (lg_world s) (lg_log s) ess next -> evolves w0 (lg_world s) -> K + 1 < 2 ^ 28 ->
  paused (lg_log s) = false -> payloadSize e <= max_entry_size (log_config (loglet (lg_log s))) ->
  batch_fits (log_config (loglet (lg_log s))) next [stamped now next e] ->
  (forall s' ess', grown (K + 2) ess next [stamped now next e] s s' ess' ->
     Q next (LogState (lg_world s') (advanced (next + 1) 1 next (lg_log s')))) ->
  wp (Lg.appendLocal d sizeof_Entry now e) Q E s.
Proof.
  intros Hinv Hev HK Hpa Hpay Hbf HQ. unfold Lg.appendLocal. apply wp_bind, wp_gets. rewrite Hpa.
  apply wp_bind, wp_gets. unfold Lg.config. rewrite (proj2 (Z.ltb_ge _ _)) by done.
  apply wp_bind, wp_zoom, wp_gets. destruct s as [w lg]. cbn [lg_world lg_log ls_loglet ls_world] in *.
  destruct (lr_next (lc_rep _ _ _ _ _ Hinv)) as (b0 & seg0 & es0 & _ & _ & ->). cbn [entry_sn].
  replace (set_loglet (loglet lg) lg) with lg by by destruct lg.
  change (mkEntry _ _ _ _ _ now next _ _) with (stamped now next e). set (e1 := stamped now next e) in *.
  pose proof (serialize_bytes e1) as Hbs. destruct (serialize e1) as [bs e'] eqn:Hser. cbn [fst snd] in Hbs. subst bs.
  assert (He' : e' = (serialize e1).2) by (by rewrite Hser).
  assert (Hsz : to_u32 (Z.of_nat (length (serialize_to e'))) = size_of (filed [e1])).
  { pose proof (bf_bytes _ _ _ Hbf) as Hb. change (filed [e1]) with [(serialize e1).2] in *.
    rewrite <- He', size_of_single in *. unfold to_u32. apply Z.mod_small. lia. }
  rewrite Hsz. replace (sn e') with next by (by rewrite He').
  apply wp_bind, wp_map_err. eapply wp_maybeRoll; [exact Hinv|done|done| |].
  { split; [apply size_of_nonneg|apply Hbf]. }
  intros s2 psegs b seg pre es Hinv2 Hev2 Hsm2 Har. apply wp_bind, wp_gets. unfold Lg.isInmemory, Lg.config.
  rewrite (sc_disk _ (lc_config _ _ _ _ _ Hinv2)).
  replace next with (sn e') by (by rewrite He'). rewrite He'.
  eapply wp_local_rest; [exact Hinv2|done|done| |exact Har|].
  - by rewrite (sm_config _ _ Hsm2).
  - intros s3 ess3 []. rewrite <- Z.add_assoc in gr_inv0. apply (HQ s3 ess3). split; try done. by eapply same_rest_trans.
Qed.
End LogWrite.
