(* ===== verification/LogRead.v ===== *)
(** * Fetching from a log

    [Log::fetch] on a log that holds the entries [ess]: from the cache or from the
    segments, what comes back are entries from the target on and below the limit.  The
    cache can also answer with entries of segments [old] that were deleted. *)

From Stdlib Require Import Ascii String.
From S2P Require Import Prelude Ordered Os AppendOnlyFile Frame Codec KeyValues Names MonoMap MonoMapFrame.
From S2P Require Import MonoMapLoad MonoMapRep MonoMapUpdate MonoMapRecover Entry FileLogEntries FleSpec.
From S2P Require Import SegmentNames LogConfig LogSegment SegmentSpec LogSegments LogTypes LogEntryCache CacheProps.
From S2P Require Import IndexSpec IndexOpen Indexes Loglet Log LogLoader LogletRep LogletFetch LogletAppend LogletRoll.
From S2P Require Import StartSpec LogSpec LogWrite.

Local Open Scope Z_scope.

(** ** The entries of a log by their numbers *)

(** The number of the first entry the log holds. *)
Definition first_sn (ess : list (list Entry)) (next : Z) : Z := next - Z.of_nat (length (concat ess)).

(** The entries are numbered without gaps up to [next]. *)
Definition numbers (ess : list (list Entry)) (next : Z) : Prop :=
  sn <$> concat ess = seqZ (first_sn ess next) (Z.of_nat (length (concat ess))).

Lemma segs_rep_numbers w dir segs ess next :
  segs_rep w dir segs ess next -> segs <> [] ->
  fst <$> head segs = Some (first_sn ess next) /\ numbers ess next.
Proof.
  unfold numbers, first_sn. revert ess next. induction segs as [|[b seg] segs IH] using rev_ind; intros ess next HR Hne; [done|].
  destruct ess as [|es pre _] using rev_ind.
  { pose proof (Forall2_length _ _ _ (lr_files HR)) as Hl. rewrite length_app in Hl. cbn in Hl. lia. }
  apply segs_rep_snoc in HR as (HP & _ & Hla). rewrite concat_app, length_app. cbn [concat]. rewrite app_nil_r.
  pose proof (la_next Hla) as Hn. destruct (decide (segs = [])) as [->|Hs].
  - pose proof (Forall2_length _ _ _ (lr_files HP)) as Hl. destruct pre; [|done]. cbn. split; [f_equal; lia|].
    rewrite (la_sn Hla). f_equal; lia.
  - destruct (IH _ _ HP Hs) as [Hh Hc]. split.
    + destruct segs as [|x segs]; [done|]. cbn in *. rewrite Hh. f_equal. lia.
    + rewrite fmap_app, Hc, (la_sn Hla).
      rewrite Nat2Z.inj_add, seqZ_app by lia. f_equal; f_equal; lia.
Qed.

Lemma log_rep_numbers w l ess next :
  log_rep w l ess next -> fst <$> head (segments l) = Some (first_sn ess next) /\ numbers ess next.
Proof.
  intros HL. eapply segs_rep_numbers; [apply HL|]. destruct (lr_next HL) as (b & x & es & Hl & _).
  intros Heq. by rewrite Heq in Hl.
Qed.

Section Numbers.
Context (es : list Entry) (first : Z).
Context (Hsn : sn <$> es = seqZ first (Z.of_nat (length es))).

Lemma entry_number i e : es !! i = Some e -> sn e = first + Z.of_nat i.
Proof.
  intros He. assert (Hl : (sn <$> es) !! i = Some (sn e)) by (by rewrite list_lookup_fmap, He).
  rewrite Hsn in Hl. apply lookup_seqZ in Hl. lia.
Qed.

Lemma entry_by_number e : e ∈ es -> es !! Z.to_nat (sn e - first) = Some e.
Proof.
  intros [i Hi]%list_elem_of_lookup. rewrite (entry_number i e Hi). rewrite <- Hi. f_equal. lia.
Qed.

(** Entries of the log, numbered from [target] on and below [bound], are the first of
    the entries in this range. *)
Lemma entries_in_range t target bound :
  (forall j x, t !! j = Some x -> x ∈ es /\ sn x = target + Z.of_nat j) -> Forall (fun x => sn x < bound) t -> t <> [] ->
  t `prefix_of` filter (fun x => target <= sn x < bound) es.
Proof.
  intros Ht Hb Hne. rewrite Forall_forall in Hb.
  assert (Hfirst : first <= target).
  { destruct t as [|x t]; [done|]. destruct (Ht 0%nat x eq_refl) as [[i Hi]%list_elem_of_lookup Hx].
    apply entry_number in Hi. lia. }
  set (i := Z.to_nat (target - first)).
  assert (Hsplit : drop i es = t ++ drop (i + length t) es).
  { apply list_eq. intros j. rewrite lookup_drop. destruct (decide (j < length t)%nat) as [Hj|Hj].
    - rewrite lookup_app_l by done. destruct (lookup_lt_is_Some_2 t j Hj) as [x Hx]. rewrite Hx.
      destruct (Ht j x Hx) as [Hin Hs]. rewrite <- (entry_by_number x Hin). f_equal. lia.
    - rewrite lookup_app_r, lookup_drop by lia. f_equal. lia. }
  rewrite <- (take_drop i es), Hsplit, !filter_app, filter_none, (filter_all _ t).
  - cbn. by eexists.
  - apply Forall_lookup. intros j x Hx. destruct (Ht j x Hx) as [_ Hs].
    apply list_elem_of_lookup_2, Hb in Hx. lia.
  - apply Forall_lookup. intros j x [Hx Hj]%lookup_take_Some. apply entry_number in Hx. lia.
Qed.
End Numbers.

(** ** Answers *)

(** An answer with entries: the first of those in the range, and a hint that stays
    right as the log grows. *)
Record answered (ess : list (list Entry)) (target bound : Z) (r : FetchResult) : Prop := {
  an_nonempty : fr_entries r <> [];
  an_range : fr_entries r `prefix_of` filter (fun x => target <= sn x < bound) (concat ess);
  an_next : fh_sn (fetch_hint r) = target + Z.of_nat (length (fr_entries r));
  an_hint : known_hint ess (fetch_hint r);
}.

Lemma known_position_extends ess ess' snn base p :
  known_position ess snn base p -> extends ess ess' -> known_position ess' snn base p.
Proof.
  intros [|(k & es1 & e & es2 & Hk & H)] Hx; [by left|right]. destruct (Hx _ _ Hk) as [more Hm].
  exists k, es1, e, (es2 ++ more). split; [by rewrite Hm, <- app_assoc|done].
Qed.

Lemma known_hint_extends ess ess' h : known_hint ess h -> extends ess ess' -> known_hint ess' h.
Proof. intros Hk Hx Hp. eapply known_position_extends; [by apply Hk|done]. Qed.

(** ** Segments that were deleted *)

Section Old.
Context (old ess : list (list Entry)) (next : Z) (Hnum : numbers (old ++ ess) next).

Lemma first_behind : first_sn ess next = first_sn (old ++ ess) next + Z.of_nat (length (concat old)).
Proof. unfold first_sn. rewrite concat_app, length_app. lia. Qed.

Lemma numbers_behind ess' next' :
  numbers ess' next' -> first_sn ess' next' = first_sn ess next -> numbers (old ++ ess') next'.
Proof.
  intros Hn Hf. pose proof first_behind as Hb. unfold numbers in *. rewrite concat_app, fmap_app, length_app, Nat2Z.inj_add, seqZ_app in Hnum |- * by lia.
  apply app_inj_1 in Hnum as [Hold _]; [|by rewrite length_fmap, length_seqZ, Nat2Z.id].
  assert (He : first_sn (old ++ ess') next' = first_sn (old ++ ess) next)
    by (unfold first_sn in *; rewrite !concat_app, !length_app in *; lia).
  rewrite He, Hold, Hn. do 2 f_equal. lia.
Qed.

Lemma old_below e : e ∈ concat old -> sn e < first_sn ess next.
Proof.
  intros [i Hi]%list_elem_of_lookup. pose proof (lookup_lt_Some _ _ _ Hi).
  rewrite first_behind, (entry_number _ _ Hnum i e); [lia|]. rewrite concat_app. by apply lookup_app_l_Some.
Qed.

Lemma known_position_behind snn base p : known_position ess snn base p -> known_position (old ++ ess) snn base p.
Proof.
  intros [|(k & es1 & e & es2 & Hk & H)]; [by left|right]. exists (length old + k)%nat, es1, e, es2. split; [|done].
  rewrite lookup_app_r by lia. by replace (length old + k - length old)%nat with k by lia.
Qed.

(** Positions in deleted segments are not taken for positions in others. *)
Lemma known_position_old w dir segs snn base p :
  segs_rep w dir segs ess next -> segs <> [] -> known_position (old ++ ess) snn base p ->
  position_of segs ess snn base p.
Proof.
  intros HR Hne Hk. assert (Hcase : known_position ess snn base p \/ base < first_sn ess next).
  { destruct Hk as [|(k & es1 & e & es2 & Hk & Hs & -> & Hp)]; [by left; left|].
    apply lookup_app_Some in Hk as [Hk|[_ Hk]]; [right|left; right; by exists (k - length old)%nat, es1, e, es2].
    assert (He : e ∈ concat old) by (eapply elem_of_concat; [exact Hk|apply elem_of_app; right; left]).
    apply old_below in He. lia. }
  destruct Hcase as [Hess|Hlt]; [by eapply known_position_ok|]. intros i seg es Hs _.
  destruct (segs_rep_numbers _ _ _ _ _ HR Hne) as [Hf _]. pose proof (Segments.wf_sorted _ (lr_wf HR)) as Hsort.
  destruct segs as [|[b0 s0] segs]; [done|]. cbn in Hf. simplify_eq. destruct i; cbn in Hs; [simplify_eq; lia|].
  apply StronglySorted_inv in Hsort as [_ Hall]. pose proof (Forall_lookup_1 _ _ _ _ Hall Hs) as Hgt. cbn in Hgt. lia.
Qed.

Lemma answered_behind target bound r :
  first_sn ess next <= target -> answered ess target bound r -> answered (old ++ ess) target bound r.
Proof.
  intros Hle [Hne Hp Hn Hk]. split; [done| |done|].
  - rewrite concat_app, filter_app, (filter_none _ (concat old)); [done|]. apply Forall_forall.
    intros e He%old_below. lia.
  - intros Hpos. by apply known_position_behind, Hk.
Qed.
End Old.

Definition known_meta (ess : list (list Entry)) (m : LogSequenceMetadata) : Prop :=
  forall b p, segment_base_sn m = Some b -> lm_file_position m = Some p -> known_position ess (entry_sn m) b p.

Lemma known_meta_extends ess ess' m : known_meta ess m -> extends ess ess' -> known_meta ess' m.
Proof. intros Hk Hx b p Hb Hp. eapply known_position_extends; [by apply Hk|done]. Qed.

Lemma filter_consecutive a b (items : list EntryWithSequenceMeta) :
  consecutive (item_sn <$> items) -> consecutive (item_sn <$> filter (fun i => a <= item_sn i < b) items).
Proof.
  induction items as [|x items IH]; intros Hc; [done|]. pose proof (consecutive_drop 1 _ Hc) as Hc'.
  rewrite filter_cons. destruct (decide _) as [Hx|_]; [|by apply IH].
  cbn [fmap list_fmap]. apply consecutive_cons; [|by apply IH]. intros y Hy.
  destruct items as [|z items]; [done|]. pose proof (Hc 0%nat _ _ eq_refl eq_refl) as Hz.
  rewrite filter_cons in Hy. destruct (decide _) as [_|Hnz]; [cbn in Hy; congruence|].
  rewrite filter_none in Hy; [done|]. apply Forall_lookup. intros j i Hi.
  pose proof (consecutive_lookup _ 0 (S (S j)) (item_sn x) (item_sn i) Hc eq_refl) as H.
  change ((item_sn <$> x :: z :: items) !! S (S j)) with ((item_sn <$> items) !! j) in H.
  rewrite list_lookup_fmap, Hi in H. specialize (H eq_refl). lia.
Qed.

Lemma item_in_log ess i : item_ok ess i -> entry i ∈ concat ess.
Proof.
  intros (k & es1 & es2 & Hk & _). eapply elem_of_concat; [exact Hk|]. apply elem_of_app. right. left.
Qed.

Lemma item_hint_known ess i : item_ok ess i -> known_hint ess (cached_hint i).
Proof.
  intros (k & es1 & es2 & Hk & Hi) _. right. exists k, es1, (entry i), es2. rewrite Hi. cbn. split_and!; [done|done|done|].
  by rewrite size_of_app, size_of_single.
Qed.

Lemma item_hint_next ess i : item_ok ess i -> fh_sn (cached_hint i) = item_sn i + 1.
Proof. intros (k & es1 & es2 & _ & Hi). by rewrite Hi. Qed.

Lemma take_entries_below bound max_size es : Forall (fun x => sn x < bound) (take_entries bound max_size es).
Proof.
  revert max_size. induction es as [|e es IH]; intros m; cbn; [constructor|].
  destruct (Z.ltb_spec (sn e) bound); [|constructor]. constructor; [done|]. by destruct (_ <=? _).
Qed.

Section LogRead.
Context (d : directory) (sizeof_Entry : Z).
Context (w0 : world) (Hben : benign w0) (old : list (list Entry)).
Local Abbreviation log_inv := (log_inv sizeof_Entry old).

Lemma wp_lift_res {A} (a : A) (Q : A -> log_state -> Prop) E s : Q a s -> wp (Lg.lift_res (Ok a)) Q E s.
Proof. done. Qed.

Lemma floor_exists w l ess next target :
  log_rep w l ess next -> first_sn ess next <= target ->
  exists seg, Segments.floorSegment target (segments l) = Some seg.
Proof.
  intros HL Hle. rewrite (Segments.floorSegment_spec _ _ (lr_wf HL)).
  destruct (log_rep_numbers _ _ _ _ HL) as [Hf _].
  destruct (segments l) as [|[b seg] segs]; [done|]. cbn in Hf. simplify_eq.
  rewrite filter_cons, decide_True by done. destruct (last (_ :: _)) as [[]|] eqn:Hl; [by eexists|].
  by apply last_None in Hl.
Qed.

(** A fetch may move what the sequence index has loaded, nothing else. *)
Lemma inv_stays K w lg ess next s' :
  log_inv K w lg ess next -> log_stays w0 w (loglet lg) ess next s' ->
  log_inv K (ls_world s') (set_loglet (ls_loglet s') lg) ess next /\ same_rest lg (set_loglet (ls_loglet s') lg).
Proof.
  intros [[Hrep Hts Hpos [Hk Hkt Hkp Hks] Ho Hcfg Hn Hdm] (eps & Hav & Heps) Hc] [Hrep' Hev Hfs [ix Hsame] Hse _ Hids].
  assert (Hfs' : forall f, w_files (ls_world s') !! f = w_files w !! f) by (intros; by rewrite Hfs).
  specialize (Hids K Hk Hkp). rewrite Z.add_0_r in Hids. specialize (Hse Hpos). rewrite Hsame in *. split; [|done].
  split; [|exists eps|done].
  - split; try done. cbn. unfold only_segments. by rewrite Hfs.
  - split; [|done]. by eapply available_frame.
Qed.

Lemma loglet_answer w l ess next seg es1 e es2 bound max_size r :
  log_rep w l ess next -> entry_at (segments l) ess seg es1 e es2 ->
  fetch_answer w0 (segments l) ess seg es1 e (take_entries bound max_size (e :: es2)) r ->
  r.2 = 0 /\ answered ess (sn e) bound r.1.
Proof.
  intros HL Hat [(Hr & Hne & [He Hn _ Hk _])|[Hb _]]; [|done]. split; [done|].
  destruct (log_rep_numbers _ _ _ _ HL) as [_ Hsn].
  rewrite <- He in *. split; [done| |done|done].
  destruct Hat as [(i & Hs & Hi)]. eapply entries_in_range; [exact Hsn| | |done].
  - rewrite He. intros j x Hx. destruct (take_entries_prefix bound max_size (e :: es2)) as [rest Hrest].
    assert (Hx' : (e :: es2) !! j = Some x) by (rewrite Hrest; by apply lookup_app_l_Some).
    split.
    + eapply elem_of_concat; [exact Hi|]. apply elem_of_app. right. by eapply list_elem_of_lookup_2.
    + rewrite (numbered_lookup _ _ _ _ _ _ _ (length es1 + j) x (lr_numbered HL) Hs Hi),
        (numbered_lookup _ _ _ _ _ _ _ (length es1) e (lr_numbered HL) Hs Hi) by
        (rewrite lookup_app_r by lia; rewrite ?Nat.add_sub_swap, ?Nat.sub_diag by lia; done). lia.
  - rewrite He. apply take_entries_below.
Qed.

Lemma cache_answer c ess next target bound max_size taken front back :
  numbers ess next -> cache_rep sizeof_Entry c ess next ->
  taken_of sizeof_Entry (filter (fun i => target <= item_sn i < bound) (cached c)) max_size taken ->
  head taken = Some front -> item_sn front = target -> last taken = Some back ->
  answered ess target bound
    (mkFetchResult 0 0 (cached_hint back) (current_log_sn_metadata front) (entry <$> taken)).
Proof.
  intros Hsn [[Hc _ _] Hit _] [[rest Hpre] _ _] Hh Hf Hl.
  assert (Hin : forall i, i ∈ taken -> item_ok ess i /\ target <= item_sn i < bound).
  { intros i Hi. assert (Hi' : i ∈ filter (fun i => target <= item_sn i < bound) (cached c))
      by (rewrite Hpre; apply elem_of_app; by left).
    apply list_elem_of_filter in Hi' as [Hr Hi']. rewrite Forall_forall in Hit. split; [by apply Hit|done]. }
  assert (Hnum : forall j x, taken !! j = Some x -> item_sn x = target + Z.of_nat j).
  { intros j x Hx. pose proof (filter_consecutive target bound _ Hc) as Hfc. rewrite Hpre, fmap_app in Hfc.
    apply consecutive_app in Hfc as [Hfc _]. rewrite head_lookup in Hh.
    pose proof (consecutive_lookup _ 0 j (item_sn front) (item_sn x) Hfc) as H.
    rewrite !list_lookup_fmap, Hh, Hx in H. specialize (H eq_refl eq_refl). lia. }
  assert (Hback : back ∈ taken) by (apply last_Some in Hl as [t ->]; apply elem_of_app; right; by left).
  destruct (Hin _ Hback) as [Hok _]. split; cbn.
  - by destruct taken.
  - eapply entries_in_range; [exact Hsn| | |by destruct taken].
    + intros j x Hx. rewrite list_lookup_fmap in Hx. destruct (taken !! j) as [i|] eqn:Hi; [|done]. cbn in Hx. simplify_eq.
      split; [|by apply Hnum]. apply item_in_log, Hin. by eapply list_elem_of_lookup_2.
    + apply Forall_fmap, Forall_forall. intros i Hi. destruct (Hin i Hi) as [_ [_ ?]]. done.
  - rewrite (item_hint_next _ _ Hok), length_fmap. rewrite last_lookup in Hl. rewrite (Hnum _ _ Hl).
    destruct taken; [done|]. cbn. lia.
  - by apply item_hint_known.
Qed.

(** What the cache answers. *)
Lemma cache_cases K w lg ess next target bound max_size :
  log_inv K w lg ess next -> numbers (old ++ ess) next -> target < bound -> 0 < max_size ->
  Cache.fetch sizeof_Entry (entry_cache lg) target bound max_size false = Ok (new_FetchResult, true) \/
  exists r, Cache.fetch sizeof_Entry (entry_cache lg) target bound max_size false = Ok (r, false) /\
    answered (old ++ ess) target bound r.
Proof.
  intros Hinv Hnum Hlt Hmax. pose proof (li_cache _ _ _ _ _ _ _ Hinv) as Hrep.
  pose proof (cache_fetch_ok sizeof_Entry (entry_cache lg) target bound max_size (cr_ok _ _ _ _ Hrep) Hlt Hmax) as Hcache.
  destruct (head (cached (entry_cache lg))), (last (cached (entry_cache lg))); cbn in Hcache; try by left.
  destruct (decide _); [|by left]. destruct Hcache as (taken & front & back & Htk & Hh' & Hf & Hl & ->).
  right. eexists. split; [done|]. by eapply cache_answer.
Qed.

(** The cache, then the loglet. *)
Lemma wp_fetch_entries K ess next s target m max_size hint (Q : FetchResult * Z -> log_state -> Prop) E :
  log_inv K (lg_world s) (lg_log s) ess next -> numbers (old ++ ess) next -> evolves w0 (lg_world s) ->
  first_sn ess next <= target -> target < entry_sn m -> target < next -> 0 < max_size -> known_meta ess m ->
  (forall h, hint = Some h -> known_hint (old ++ ess) h) ->
  (forall r s', log_inv K (lg_world s') (lg_log s') ess next -> evolves w0 (lg_world s') ->
     same_rest (lg_log s) (lg_log s') -> r.2 = 0 -> answered (old ++ ess) target (entry_sn m) r.1 -> Q r s') ->
  wp (Lg.fetch_entries d sizeof_Entry target max_size m hint) Q E s.
Proof.
  intros Hinv Hnum Hev Hfirst Hlt Hnext Hmax Hm Hh HQ. destruct s as [w lg]. cbn [lg_world lg_log] in *.
  pose proof (lc_rep _ _ _ _ _ Hinv) as HL. unfold Lg.fetch_entries. apply wp_bind, wp_gets, wp_bind, wp_gets. cbn [lg_log].
  unfold Lg.isInmemory, Lg.config. rewrite (sc_disk _ (lc_config _ _ _ _ _ Hinv)).
  apply wp_bind. destruct (cache_cases _ _ _ _ _ _ _ _ Hinv Hnum Hlt Hmax) as [->|(r & -> & Hr)]; apply wp_lift_res.
  - rewrite bool_decide_eq_true_2 by done. cbn [negb orb]. apply wp_zoom. cbn [lg_world lg_log].
    destruct (floor_exists _ _ _ _ _ HL Hfirst) as [seg Hfl].
    destruct (floor_entry HL _ _ Hfl Hnext) as (es1 & e & es2 & Hat & <-).
    eapply (wp_fetch d w0 w (loglet lg) ess next seg es1 e es2 Hat HL).
    + by apply log_stays_refl.
    + apply Hinv.
    + done.
    + done.
    + intros b p Hb Hp. eapply known_position_ok; [apply HL|by apply Hm].
    + intros h Hhe Hp. eapply known_position_old; [exact Hnum|apply HL| |by apply (Hh h Hhe)].
      destruct (log_active _ _ _ _ HL) as (? & ? & ? & ? & ? & -> & _). by destruct x.
    + done.
    + intros r s' Hst Ha. destruct (inv_stays _ _ _ _ _ _ Hinv Hst) as [Hinv' Hsm].
      destruct (loglet_answer _ _ _ _ _ _ _ _ _ _ _ HL Hat Ha). apply HQ; try done; [apply Hst|by eapply answered_behind].
    + done.
  - rewrite bool_decide_eq_false_2 by apply Hr. cbn [negb orb]. by apply wp_ret, HQ.
Qed.

(** A fetch from below the first segment. *)
Lemma floor_below w l ess next target :
  log_rep w l ess next -> target < first_sn ess next -> Segments.floorSegment target (segments l) = None.
Proof.
  intros HL Hlt. rewrite (Segments.floorSegment_spec _ _ (lr_wf HL)), filter_none; [done|].
  destruct (log_rep_numbers _ _ _ _ HL) as [Hf _]. pose proof (Segments.wf_sorted _ (lr_wf HL)) as Hs.
  destruct (segments l) as [|[b seg] segs]; [done|]. cbn in Hf. simplify_eq.
  apply StronglySorted_inv in Hs as [_ Hs]. constructor; [cbn; lia|].
  eapply Forall_impl; [exact Hs|]. cbn. lia.
Qed.

(** The entries of deleted segments may still be in the cache. *)
Lemma wp_fetch_below K ess next s target m max_size hint (Q : FetchResult * Z -> log_state -> Prop) E :
  log_inv K (lg_world s) (lg_log s) ess next -> numbers (old ++ ess) next ->
  target < first_sn ess next -> target < entry_sn m -> 0 < max_size ->
  (forall r, answered (old ++ ess) target (entry_sn m) r -> Q (r, 0) s) ->
  Q (new_FetchResult, SEQUENCE_OUT_OF_RANGE) s ->
  wp (Lg.fetch_entries d sizeof_Entry target max_size m hint) Q E s.
Proof.
  intros Hinv Hnum Hfirst Hlt Hmax HQ HQ'. destruct s as [w lg]. cbn [lg_world lg_log] in *.
  pose proof (lc_rep _ _ _ _ _ Hinv) as HL. unfold Lg.fetch_entries. apply wp_bind, wp_gets, wp_bind, wp_gets. cbn [lg_log].
  unfold Lg.isInmemory, Lg.config. rewrite (sc_disk _ (lc_config _ _ _ _ _ Hinv)).
  apply wp_bind. destruct (cache_cases _ _ _ _ _ _ _ _ Hinv Hnum Hlt Hmax) as [->|(r & -> & Hr)]; apply wp_lift_res.
  - rewrite bool_decide_eq_true_2 by done. cbn [negb orb].
    apply wp_zoom. unfold Lglt.fetch. apply wp_bind, wp_gets. cbn [ls_loglet lg_log]. rewrite (floor_below _ _ _ _ _ HL Hfirst).
    apply wp_ret. cbn. by replace (set_loglet (loglet lg) lg) with lg by by destruct lg.
  - rewrite bool_decide_eq_false_2 by apply Hr. cbn [negb orb]. by apply wp_ret, HQ.
Qed.
End LogRead.
