(* ===== verification/LogRetain.v ===== *)
(** * Deleting old segments

    Retention deletes segments at the head of a log: which ones, and what the log
    holds afterwards.  Their files are renamed first and removed by a background job. *)

From Stdlib Require Import Ascii String.
From S2P Require Import Prelude Ordered Os AppendOnlyFile Frame Codec KeyValues Names MonoMap MonoMapFrame.
From S2P Require Import MonoMapLoad MonoMapRep MonoMapUpdate MonoMapRecover Entry FileLogEntries FleSpec.
From S2P Require Import SegmentNames LogConfig LogSegment SegmentSpec LogSegments LogTypes LogEntryCache CacheProps.
From S2P Require Import IndexSpec IndexOpen Indexes Loglet Log LogLoader LogletRep LogletFetch LogletAppend LogletTrim.
From S2P Require Import StartSpec LogSpec LogWrite LogRead.

Local Open Scope Z_scope.

(** ** The segments that go *)

Section Deletable.
Context {T : Type} (should_delete : T -> LogSegment -> LogSegment -> T * bool) (applied_sn : Z).

(** How many segments are deleted: a segment goes when the next one starts below
    [applied_sn] and [should_delete] says so. *)
Fixpoint deletable_count (t : T) (segs : list LogSegment) : nat :=
  match segs with
  | prev :: (segment :: _) as rest =>
      if base_sn segment <? applied_sn then
        let '(t, del) := should_delete t prev segment in
        if (del : bool) then S (deletable_count t rest) else 0
      else 0
  | _ => 0
  end.

Lemma deletable_from segs prev t acc :
  (Segments.apply
     (fun (st : list LogSegment * option LogSegment * T) segment =>
        let '(deletable, prev_segment, t) := st in
        match prev_segment with
        | None => ((deletable, Some segment, t), false)
        | Some prev =>
            if base_sn segment <? applied_sn then
              let '(t, del) := should_delete t prev segment in
              if (del : bool) then ((deletable ++ [prev], Some segment, t), false)
              else ((deletable, Some prev, t), true)
            else ((deletable, Some prev, t), true)
        end) (acc, Some prev, t) segs).1.1
  = acc ++ take (deletable_count t (prev :: segs.*2)) (prev :: segs.*2).
Proof.
  revert prev t acc. induction segs as [|[b seg] segs IH]; intros prev t acc; cbn; [by rewrite app_nil_r|].
  destruct (base_sn seg <? applied_sn); [|by rewrite app_nil_r].
  destruct (should_delete t prev seg) as [t' []]; [|by rewrite app_nil_r].
  rewrite IH, <- app_assoc. done.
Qed.

Lemma deletable_spec t segs :
  Lglt.deletableSegments should_delete t applied_sn segs = take (deletable_count t segs.*2) segs.*2.
Proof. destruct segs as [|[b seg] segs]; [done|]. apply (deletable_from segs seg t []). Qed.

(** The active segment stays, and what goes is below [applied_sn]. *)
Lemma deletable_count_lt t segs :
  deletable_count t segs = 0%nat \/
  exists seg, segs !! deletable_count t segs = Some seg /\ base_sn seg < applied_sn.
Proof.
  revert t. induction segs as [|prev segs IH]; intros t; [by left|]. destruct segs as [|seg segs]; [by left|].
  cbn [deletable_count]. destruct (Z.ltb_spec (base_sn seg) applied_sn) as [Hlt|]; [|by left].
  destruct (should_delete t prev seg) as [t' []]; [right|by left].
  change (exists s, (seg :: segs) !! deletable_count t' (seg :: segs) = Some s /\ base_sn s < applied_sn).
  destruct (IH t') as [->|Hex]; [by exists seg|done].
Qed.
End Deletable.

(** ** Renaming *)

Lemma extension_rev_spec acc rpath :
  extension_rev acc rpath = [] \/
  exists pre post, rpath = pre ++ "."%char :: post /\ extension_rev acc rpath = "."%char :: rev pre ++ acc.
Proof.
  revert acc. induction rpath as [|c rpath IH]; intros acc; [by left|].
  destruct (decide (c = "/"%char)) as [->|Hs]; [by left|]. destruct (decide (c = "."%char)) as [->|Hd].
  - destruct (decide (extension_rev acc ("."%char :: rpath) = [])) as [|Hne]; [by left|]. right.
    exists [], rpath. split; [done|]. revert Hne. cbn. destruct rpath as [|x rpath]; [done|].
    by destruct (decide (x = "/"%char)) as [->|]; [|destruct x as [[] [] [] [] [] [] [] []]].
  - assert (Hc : extension_rev acc (c :: rpath) = extension_rev (c :: acc) rpath)
      by (by destruct c as [[] [] [] [] [] [] [] []]).
    rewrite Hc. destruct (IH (c :: acc)) as [|(pre & post & -> & ->)]; [by left|right].
    exists (c :: pre), post. split; [done|]. cbn. by rewrite <- app_assoc.
Qed.

(** The extension of a path is its end. *)
Lemma extension_last path e c :
  extension path = e -> last (list_ascii_of_string e) = Some c -> last (list_ascii_of_string path) = Some c.
Proof.
  intros <-. unfold extension. rewrite list_ascii_of_string_of_list_ascii.
  destruct (extension_rev_spec [] (rev (list_ascii_of_string path))) as [->|(pre & post & Hp & ->)]; [done|].
  rewrite app_nil_r. apply (f_equal (@rev ascii)) in Hp. rewrite rev_involutive, rev_app_distr in Hp. rewrite Hp.
  change (rev ("."%char :: post)) with (rev post ++ ["."%char]). rewrite <- app_assoc, last_app.
  change (["."%char] ++ rev pre) with ("."%char :: rev pre). by intros ->.
Qed.

Section Mark.
Context (w0 : world) (Hben : benign w0).

(** Marking the files of segments that are there. *)
Lemma wp_mark_files segs w (Q : list LogSegment -> world -> Prop) E :
  evolves w0 w -> NoDup (Segment.filename <$> segs) ->
  Forall (fun seg => is_Some (w_files w !! Segment.filename seg) /\
    last (list_ascii_of_string (Segment.filename seg)) = Some "g"%char) segs ->
  (forall marked w', evolves w0 w' -> Forall doomed marked ->
     Forall (fun seg => w_files w' !! Segment.filename seg = None) segs ->
     (forall f, w_files w !! f = None -> last (list_ascii_of_string f) = Some "g"%char -> w_files w' !! f = None) ->
     Q marked w') ->
  wp (Lglt.mark_deleted segs) Q E w.
Proof.
  revert w Q. induction segs as [|seg segs IH]; intros w Q Hev Hnd Hall HQ; cbn [Lglt.mark_deleted].
  { apply wp_ret, HQ; [done|constructor|constructor|done]. }
  apply Forall_cons in Hall as [[[c Hc] Hg] Hall]. cbn [fmap list_fmap] in Hnd. apply NoDup_cons in Hnd as [Hni Hnd].
  set (f := Segment.filename seg) in *. assert (Hd : last (list_ascii_of_string (f +:+ DELETED_FILE_SUFFIX)) = Some "d"%char)
    by (by rewrite list_ascii_app, last_app).
  assert (Hfg : forall g, last (list_ascii_of_string g) = Some "g"%char -> g <> f +:+ DELETED_FILE_SUFFIX) by congruence.
  apply wp_bind, wp_attempt. unfold Segment.changeFileSuffix. fold f.
  destruct (String.eqb_spec (extension f) DELETED_FILE_SUFFIX) as [He|_].
  { apply (extension_last _ _ "d"%char) in He; [|done]. congruence. }
  apply wp_bind, wp_map_err. eapply (wp_renameTo w0); [done|by intros ? ? ? ?|exact Hc|].
  intros w1 Hev1 Hfs1. change (filename (file (log seg))) with f in Hfs1. apply wp_ret, wp_bind, wp_ret, wp_bind.
  apply IH; [done|done| |].
  - apply Forall_forall. intros x Hx. rewrite Forall_forall in Hall. destruct (Hall x Hx) as [Hs Hl]. split; [|done].
    assert (Segment.filename x <> f).
    { intros Heq. apply Hni. rewrite <- Heq. by apply list_elem_of_fmap_2. }
    by rewrite Hfs1, lookup_insert_ne, lookup_delete_ne by (by first [apply not_eq_sym, Hfg|apply not_eq_sym]).
  - intros marked w2 Hev2 Hdm Hgone Hno. apply wp_ret, HQ; [done|by constructor| |].
    + constructor; [|done]. apply Hno; [|done]. rewrite Hfs1, lookup_insert_ne by (by apply not_eq_sym, Hfg).
      apply lookup_delete_eq.
    + intros g Hng Hlg. apply Hno; [|done]. rewrite Hfs1, lookup_insert_ne by (by apply not_eq_sym, Hfg).
      destruct (decide (g = f)) as [->|]; [apply lookup_delete_eq|by rewrite lookup_delete_ne].
Qed.
End Mark.

(** ** The log without its first segments *)

Lemma segs_rep_drop w dir low segs el ess next :
  segs_rep w dir (low ++ segs) (el ++ ess) next -> length low = length el -> segs_rep w dir segs ess next.
Proof.
  intros [[Hs Hb] Hf Hn He Hnum Hi Hir Hbr Hsm] Hlen. split.
  - split; [by apply StronglySorted_app in Hs as (_ & _ & ?)|by apply Forall_app in Hb as [_ ?]].
  - by apply Forall2_app_inv in Hf as [_ ?].
  - by apply Forall_app in Hn as [_ ?].
  - by apply Forall_app in He as [_ ?].
  - intros i b seg es Hseg Hes. specialize (Hnum (length low + i)%nat b seg es).
    rewrite <- Nat.add_succ_r, Hlen in Hnum. rewrite !lookup_app_r in Hnum by lia. rewrite Hlen in Hnum.
    replace (length el + i - length el)%nat with i in Hnum by lia.
    replace (length el + S i - length el)%nat with (S i) in Hnum by lia. by apply Hnum.
  - by apply StronglySorted_app in Hi as (_ & _ & ?).
  - by apply Forall_app in Hir as [_ ?].
  - by apply Forall_app in Hbr as [_ ?].
  - by apply Forall_app in Hsm as [_ ?].
Qed.

(** An entry is below the segments behind its own. *)
Lemma entry_below w dir segs ess next i k b seg es e y :
  segs_rep w dir segs ess next -> segs !! i = Some (b, seg) -> ess !! i = Some es -> e ∈ es ->
  segs !! k = Some y -> (i < k)%nat -> sn e < y.1.
Proof.
  intros HR Hs He [j Hj]%list_elem_of_lookup Hy Hik.
  pose proof (numbered_lookup _ _ _ _ _ _ _ _ _ (lr_numbered HR) Hs He Hj) as Hsn. apply lookup_lt_Some in Hj.
  destruct (lr_numbered HR _ _ _ _ Hs He) as [_ Hn]. pose proof (Segments.wf_sorted _ (lr_wf HR)) as Hsort.
  destruct (lookup_lt_is_Some_2 segs (S i)) as [[b' s'] Hb']; [apply lookup_lt_Some in Hy; lia|]. rewrite Hb' in Hn.
  destruct (decide (k = S i)) as [->|Hne]; [rewrite Hy in Hb'; simplify_eq; cbn; lia|].
  apply take_drop_middle in Hb' as Heq. unfold om_sorted in Hsort. rewrite <- Heq in Hsort.
  apply StronglySorted_app in Hsort as (_ & _ & [_ Hall]%StronglySorted_inv).
  rewrite <- (take_drop (S (S i)) segs), lookup_app_r in Hy by (rewrite length_take; lia).
  pose proof (Forall_lookup_1 _ _ _ _ Hall Hy) as Hlt. cbn in Hlt. lia.
Qed.

Lemma taken_below w dir segs ess next k y :
  segs_rep w dir segs ess next -> segs !! k = Some y -> Forall (fun e => sn e < y.1) (concat (take k ess)).
Proof.
  intros HR Hy. apply Forall_concat, Forall_forall. intros es Hes. apply Forall_forall. intros e He.
  apply list_elem_of_lookup in Hes as [i Hi]. apply lookup_take_Some in Hi as [Hi Hik].
  pose proof (Forall2_length _ _ _ (lr_files HR)) as Hlen.
  destruct (lookup_lt_is_Some_2 segs i) as [[bi si] Hsi]; [apply lookup_lt_Some in Hi; lia|]. by eapply entry_below.
Qed.

(** Positions in the first segments are positions before the others. *)
Lemma points_drop w dir low segs el ess next sp :
  segs_rep w dir (low ++ segs) (el ++ ess) next -> length low = length el ->
  points (low ++ segs) (el ++ ess) sp -> points segs ess sp.
Proof.
  intros HR Hlen [(seg & es1 & e & es2 & [(i & Hs & He)] & Hsn & Hfp)|Hgone]; [|right; by apply Forall_app in Hgone as [_ ?]].
  destruct (rep_segment HR _ _ _ _ Hs He) as (_ & _ & _ & _ & Hid & Hsm). pose proof (size_of_nonneg es1).
  rewrite size_of_app in Hsm. pose proof (size_of_nonneg (e :: es2)).
  destruct (decide (i < length low)%nat) as [Hi|Hi].
  - right. rewrite <- Hsn, Hfp, position_decode by lia. cbn [fst]. apply Forall_lookup. intros j y Hy.
    assert (Hy' : (low ++ segs) !! (length low + j)%nat = Some y)
      by (rewrite lookup_app_r by lia; by replace (length low + j - length low)%nat with j by lia).
    split; [|eapply entry_below; [exact HR|exact Hs|exact He|apply elem_of_app; right; left|exact Hy'|lia]].
    rewrite lookup_app_l in Hs by done. apply list_elem_of_lookup_2 in Hs, Hy.
    by apply (StronglySorted_app_1_elem_of _ _ _ _ _ (lr_ids HR) Hs Hy).
  - left. exists seg, es1, e, es2. split; [|done]. split. exists (i - length low)%nat.
    rewrite lookup_app_r in Hs by lia. rewrite lookup_app_r in He by lia. by rewrite Hlen in * .
Qed.

Lemma remove_lower low segs :
  om_sorted (low ++ segs) -> Forall (fun x => base_sn x.2 = x.1) low ->
  foldl (fun m seg => Segments.remove (base_sn seg) m) (low ++ segs) low.*2 = segs.
Proof.
  induction low as [|[b seg] low IH]; intros Hs Hb; [done|]. apply Forall_cons in Hb as [Hb Hb']. cbn in Hb.
  cbn [fmap list_fmap foldl]. unfold Segments.remove at 2. cbn [snd]. rewrite Hb.
  pose proof (om_erase_middle [] b seg (low ++ segs) Hs) as He. cbn [app] in He |- *. rewrite He.
  apply StronglySorted_inv in Hs as [Hs _]. by apply IH.
Qed.

(** Segments have files of their own. *)
Lemma filename_id w dir segs ess next x y :
  segs_rep w dir segs ess next -> x ∈ segs -> y ∈ segs -> Segment.filename x.2 = Segment.filename y.2 ->
  seg_id x.2 = seg_id y.2.
Proof.
  intros HR Hx Hy Heq. pose proof (lr_named HR) as Hn. pose proof (lr_id_range HR) as Hi.
  pose proof (lr_base_range HR) as Hb. pose proof (Segments.wf_base _ (lr_wf HR)) as Hbase.
  rewrite Forall_forall in Hn, Hi, Hb, Hbase. pose proof (Hi x Hx). pose proof (Hi y Hy).
  rewrite (Hn x Hx), (Hn y Hy) in Heq. apply logFile_inj in Heq as [? _]; [done|unfold u64; lia| |unfold u64; lia|].
  - rewrite (Hbase x Hx). by apply Hb.
  - rewrite (Hbase y Hy). by apply Hb.
Qed.

Lemma filenames_distinct w dir segs ess next :
  segs_rep w dir segs ess next -> NoDup (Segment.filename <$> segs.*2).
Proof.
  intros HR. assert (Hinj : forall x y, x ∈ segs -> y ∈ segs -> Segment.filename x.2 = Segment.filename y.2 -> seg_id x.2 = seg_id y.2)
    by (intros x y; by apply (filename_id w dir segs ess next)).
  pose proof (lr_ids HR) as Hi. clear HR. induction Hi as [|x segs _ IH Hall]; [constructor|].
  cbn [fmap list_fmap]. constructor; [|apply IH; intros; apply Hinj; [by right|by right|done]].
  rewrite <- list_fmap_compose. intros (y & Heq & Hy)%list_elem_of_fmap. rewrite Forall_forall in Hall.
  specialize (Hall y Hy). specialize (Hinj x y ltac:(by left) ltac:(by right) Heq). lia.
Qed.

Lemma segment_file_last w dir segs ess next x :
  segs_rep w dir segs ess next -> x ∈ segs ->
  is_Some (w_files w !! Segment.filename x.2) /\ last (list_ascii_of_string (Segment.filename x.2)) = Some "g"%char.
Proof.
  intros HR Hx. split.
  - apply list_elem_of_lookup in Hx as [i Hi]. destruct x as [b seg]. destruct (rep_ess_lookup HR _ _ _ Hi) as [es He].
    destruct (rep_segment HR _ _ _ _ Hi He) as (_ & Hon & _). cbn [snd]. by rewrite (segment_on_filename _ _ _ Hon).
  - pose proof (lr_named HR) as Hn. rewrite Forall_forall in Hn. rewrite (Hn x Hx). apply logFile_last.
Qed.

Lemma deleted_files_log segs f : deleted_files segs f -> last (list_ascii_of_string f) = Some "g"%char ->
  exists seg, seg ∈ segs /\ f = Segment.filename seg.
Proof.
  intros (seg & Hseg & [->| ->]) Hl; [by exists seg|]. by rewrite list_ascii_app, last_app in Hl.
Qed.

Section Retain.
Context (d : directory) (Hthere : dir_there d = true) (Hisdir : dir_is_directory d = true).
Context (w0 : world) (Hben : benign w0).

(** The log files stay when an index is trimmed. *)
Lemma only_index {KV} `{!MonoKeyValue KV} `{!MonoKeyValueLaws KV} K c rest dir w w' ix (es : list KV) segs :
  char_digit c = None ->
  let name := (dir +:+ String "/"%char (String c rest) +:+ ".idx")%string in
  available name K es (MonoState w' ix) ->
  (forall f, ~ belongs name f -> w_files w' !! f = w_files w !! f) ->
  only_segments dir (w_files w) segs -> only_segments dir (w_files w') segs.
Proof.
  intros Hc name Hav%available_stored Hfs Ho f Hp Hf Hlog. apply Ho; [done| |done]. rewrite <- Hfs; [done|].
  eapply stored_name; [|exact Hav|done|by apply log_last|done|done]. unfold name. by rewrite !list_ascii_app, !last_app.
Qed.

(** A log with an available timestamp index, whose head is trimmed. *)
Lemma wp_trim_head_ts K ess next w l n (Q : unit + Z -> loglet_state -> Prop) E :
  log_core K w l ess next -> evolves w0 w -> lists_directory (log_dir l +:+ "/") (dir_listing d) -> n < 2 ^ 63 - 1 ->
  (forall w' ix, log_core K w' (set_event_ts_sn_index ix l) ess next -> evolves w0 w' ->
     (forall f, ~ belongs (ts_name l) f -> w_files w' !! f = w_files w !! f) ->
     Q (inl tt) (LogletState w' (set_event_ts_sn_index ix l))) ->
  wp (attempt (Lglt.on_ts (TsIndex.trimHead d n))) Q E (LogletState w l).
Proof.
  intros Hcore Hev Hlist Hn HQ. apply wp_attempt, wp_zoom. unfold TsIndex.trimHead, Mono.trimHeadByValue.
  rewrite Hthere, Hisdir. pose proof (lc_below _ _ _ _ _ Hcore) as [Hk Hkt Hkp Hks].
  pose proof (lc_rep _ _ _ _ _ Hcore) as [HR Hnm [(ps & Hps & Hpt) (ts & Hts & Htb)]].
  assert (Ho : opened (ts_name l) K ts (MonoState w (event_ts_sn_index l))) by (split_and!; [done|apply Hcore|done]).
  eapply (wp_open_trim_head (ts_name l) (dir_listing d) (lists_index _ _ _ Hlist) w0 Hben K ts); [by right| |by right|done|].
  - cbn. unfold succ_i64. by rewrite (proj2 (Z.eqb_neq _ _)) by lia.
  - intros ts' t [pre ->] Ho' [Hev' [Hout _ _]]. destruct t as [w' ix]. cbn [ms_world ms_map] in *.
    apply HQ; [|done|done]. destruct Hcore as [_ _ Hse _ Honly Hcfg Hnx Hdm].
    assert (Hix : forall f, belongs (pos_name l) f -> w_files w' !! f = w_files w !! f)
      by (intros f Hf; apply Hout; by apply pos_not_ts).
    split; try done; cbn; [|apply Ho'|by split; [|apply Ho'|..]|by eapply (only_index (KV := TimestampSequence) K "t"%char "s-sn"); [|right; exact Ho'|..]].
    split; [|done|split; cbn].
    + eapply segs_rep_frame; [exact HR|]. intros x Hx. apply Hout.
      by eapply (segment_file_not_index _ _ _ _ _ x "t"%char).
    + exists ps. split; [by eapply index_of_frame|done].
    + exists ts'. split; [apply Ho'|]. destruct Htb as [Hb Hv Hl Ht Hts']. apply Forall_app in Hb as [_ Hb], Hts' as [_ Hts'].
      by split.
Qed.

Lemma wp_trim_head_pos K ess next w l n (Q : unit + Z -> loglet_state -> Prop) E :
  log_core K w l ess next -> evolves w0 w -> lists_directory (log_dir l +:+ "/") (dir_listing d) -> n < 2 ^ 63 - 1 ->
  (forall w' ix, log_core K w' (set_sn_pos_index ix l) ess next -> evolves w0 w' ->
     (forall f, ~ belongs (pos_name l) f -> w_files w' !! f = w_files w !! f) ->
     Q (inl tt) (LogletState w' (set_sn_pos_index ix l))) ->
  wp (attempt (Lglt.on_pos (PosIndex.trimHead d n))) Q E (LogletState w l).
Proof.
  intros Hcore Hev Hlist Hn HQ. apply wp_attempt, wp_zoom. unfold PosIndex.trimHead, Mono.trimHead.
  rewrite Hthere, Hisdir. pose proof (lc_below _ _ _ _ _ Hcore) as [Hk Hkt Hkp Hks].
  pose proof (lc_rep _ _ _ _ _ Hcore) as [HR Hnm [(ps & Hps & Hpt) (ts & Hts & Htb)]].
  assert (Ho : opened (pos_name l) K ps (MonoState w (sn_pos_index l))) by (split_and!; [done|apply Hcore|done]).
  eapply (wp_open_trim_head (pos_name l) (dir_listing d) (lists_index _ _ _ Hlist) w0 Hben K ps); [by left| |by right|done|].
  - cbn. unfold succ_i64. by rewrite (proj2 (Z.eqb_neq _ _)) by lia.
  - intros ps' t [pre ->] Ho' [Hev' [Hout _ _]]. destruct t as [w' ix]. cbn [ms_world ms_map] in *.
    apply HQ; [|done|done]. destruct Hcore as [_ Hse _ _ Honly Hcfg Hnx Hdm].
    assert (Hix : forall f, belongs (ts_name l) f -> w_files w' !! f = w_files w !! f)
      by (intros f Hf; apply Hout; by apply ts_not_pos).
    split; try done; cbn; [|apply Ho'|by split; [| |apply Ho'|]|by eapply (only_index (KV := SequencePosition) K "s"%char "n-pos"); [|right; exact Ho'|..]].
    split; [|done|split; cbn].
    + eapply segs_rep_frame; [exact HR|]. intros x Hx. apply Hout.
      by eapply (segment_file_not_index _ _ _ _ _ x "s"%char).
    + exists ps'. split; [apply Ho'|]. by apply Forall_app in Hpt as [_ Hpt].
    + exists ts. split; [by eapply index_of_frame|done].
Qed.

(** The log without its first segments, when their files were renamed. *)
Lemma core_marked K w l low segs el ess next w' :
  log_core K w l (el ++ ess) next -> segments l = low ++ segs -> length low = length el -> segs <> [] ->
  outside (deleted_files low.*2) (w_files w) w' ->
  Forall (fun seg => w_files w' !! Segment.filename seg = None) low.*2 ->
  log_core K w' (set_segments segs l) ess next /\
  (forall c rest f, char_digit c = None -> belongs (log_dir l +:+ String "/"%char (String c rest)) f ->
     w_files w' !! f = w_files w !! f).
Proof.
  intros [[HR (b & seg & es & Hl & Hes & Hm) [(ps & Hps & Hpt) (ts & Hts & Htb)]] Hse Hsp [Hk Hkt Hkp Hks] Honly Hcfg Hnx Hdm]
    Hs Hlen Hne Hout Hgone.
  rewrite Hs in HR, Hpt, Hks, Honly, Hl. pose proof (segs_rep_drop _ _ _ _ _ _ _ HR Hlen) as HR'.
  assert (Hix : forall c rest f, char_digit c = None -> belongs (log_dir l +:+ String "/"%char (String c rest)) f ->
    w_files w' !! f = w_files w !! f).
  { intros c rest f Hc Hf. apply Hout. intros (y & (x & -> & Hx)%list_elem_of_fmap & Heq).
    assert (Hx' : x ∈ low ++ segs) by (apply elem_of_app; by left).
    pose proof (lr_named HR) as Hn. pose proof (lr_id_range HR) as Hi. rewrite Forall_forall in Hn, Hi. specialize (Hi x Hx').
    rewrite (Hn x Hx'), logFile_suffix in Heq. destruct Heq as [-> | ->]; revert Hf; apply logFile_not_index; unfold u64; try done; lia. }
  assert (Hfile : forall x, x ∈ segs -> w_files w' !! Segment.filename x.2 = w_files w !! Segment.filename x.2).
  { intros x Hx. apply Hout. intros Hdel. assert (Hx' : x ∈ low ++ segs) by (apply elem_of_app; by right).
    destruct (segment_file_last _ _ _ _ _ x HR Hx') as [_ Hg].
    apply deleted_files_log in Hdel as (y & (z & -> & Hz)%list_elem_of_fmap & Heq); [|done].
    pose proof (StronglySorted_app_1_elem_of _ _ _ z x (lr_ids HR) Hz Hx) as Hlt. cbn in Hlt.
    apply (filename_id _ _ _ _ _ x z HR) in Heq; [lia|done|apply elem_of_app; by left]. }
  split; [|exact Hix]. split; try done.
  - split; cbn; [by eapply segs_rep_frame| |split; cbn].
    + exists b, seg, es. rewrite last_app in Hl. rewrite last_app in Hes. split_and!; try done.
      * change (last segs = Some (b, seg)). destruct (last segs) eqn:Hls; [done|by apply last_None in Hls].
      * pose proof (Forall2_length _ _ _ (lr_files HR')) as Hlen'. destruct (last ess) eqn:Hls; [done|].
        apply last_None in Hls as ->. by destruct segs.
    + exists ps. split; [eapply index_of_frame; [exact Hps|]; intros f; by apply (Hix "s"%char)|].
      eapply Forall_impl; [exact Hpt|]. intros sp. by eapply points_drop.
    + exists ts. split; [|done]. eapply index_of_frame; [exact Hts|]. intros f. by apply (Hix "t"%char).
  - split; try done. by apply Forall_app in Hks as [_ ?].
  - intros f Hp Hf Hlog. pose proof (log_last f Hlog) as Hg. destruct (decide (f ∈ (Segment.filename <$> low.*2))) as [Hin|Hni].
    { apply list_elem_of_fmap in Hin as (y & -> & Hy). rewrite Forall_forall in Hgone. rewrite (Hgone y Hy) in Hf. by destruct Hf. }
    rewrite Hout in Hf.
    + destruct (Honly f Hp Hf Hlog) as [|(x & Hx & ->)]; [by left|right]. exists x. split; [|done].
      apply elem_of_app in Hx as [Hx|]; [|done]. exfalso. apply Hni. by apply list_elem_of_fmap_2, list_elem_of_fmap_2.
    + intros Hdel. apply deleted_files_log in Hdel as (y & Hy & ->); [|done]. apply Hni. by apply list_elem_of_fmap_2.
Qed.

(** What deleting segments leaves alone. *)
Record same_loglet (l l' : Loglet) : Prop := {
  sl_dir : log_dir l' = log_dir l;
  sl_config : log_config l' = log_config l;
}.

Lemma wp_remove_lower K w l low segs el ess next (Q : unit -> loglet_state -> Prop) E :
  log_core K w l (el ++ ess) next -> evolves w0 w -> lists_directory (log_dir l +:+ "/") (dir_listing d) ->
  segments l = low ++ segs -> length low = length el -> low <> [] -> segs <> [] -> next < 2 ^ 63 - 1 ->
  (forall w' l', log_core K w' l' ess next -> evolves w0 w' -> same_loglet l l' -> segments l' = segs ->
     (forall f, belongs (epoch_file (log_dir l)) f -> w_files w' !! f = w_files w !! f) -> Q tt (LogletState w' l')) ->
  wp (Lglt.removeSegments d low.*2 None) Q E (LogletState w l).
Proof.
  intros Hcore Hev Hlist Hs Hlen Hlow Hsegs Hnext HQ. pose proof (lr_segs (lc_rep _ _ _ _ _ Hcore)) as HR. rewrite Hs in HR.
  unfold Lglt.removeSegments. destruct low as [|u low'] eqn:Hl; [done|]. rewrite <- Hl in *. replace (low.*2) with (u.2 :: low'.*2) at 1 by (by rewrite Hl).
  clear u low' Hl. apply wp_bind, wp_modify. cbn [ls_world ls_loglet]. rewrite Hs, remove_lower.
  2: { apply (lr_wf HR). }
  2: { pose proof (Segments.wf_base _ (lr_wf HR)) as Hb. by apply Forall_app in Hb as [Hb _]. }
  apply wp_bind, wp_zoom. eapply (wp_framed (outside (deleted_files low.*2) (w_files w))
    _ (fun marked w' => evolves w0 w' /\ Forall doomed marked /\ Forall (fun seg => w_files w' !! Segment.filename seg = None) low.*2)).
  - apply (wp_mark_files w0 Hben); [done| | |by auto].
    + pose proof (filenames_distinct _ _ _ _ _ HR) as Hnd. rewrite !fmap_app in Hnd. by apply NoDup_app in Hnd as [? _].
    + apply Forall_fmap, Forall_forall. intros x Hx. cbn. eapply segment_file_last; [exact HR|]. apply elem_of_app. by left.
  - apply keeps_mark_deleted; [done|]. by intros f _.
  - intros marked w1 (Hev1 & Hdm & Hgone) Hout. cbn [ls_world ls_loglet].
    destruct (core_marked _ _ _ _ _ _ _ _ _ Hcore Hs Hlen Hsegs Hout Hgone) as [Hcore1 Hix].
    apply wp_bind, wp_bind, wp_gets. cbn [ls_loglet]. destruct segs as [|[b0 s0] segs']; [done|].
    apply wp_bind, wp_ret, wp_ret. unfold Lglt.removeSegmentFilesAsync.
    assert (Hb0 : base_sn s0 < 2 ^ 63 - 1).
    { pose proof (lr_segs (lc_rep _ _ _ _ _ Hcore1)) as HR1. cbn in HR1. destruct (segs_rep_numbers _ _ _ _ _ HR1) as [Hf _]; [done|].
      pose proof (Segments.wf_base _ (lr_wf HR1)) as Hb. apply Forall_cons in Hb as [Hb _]. cbn in Hf, Hb. unfold first_sn in Hf. simplify_eq. lia. }
    apply wp_bind. eapply (wp_trim_head_ts K ess next); [exact Hcore1|done|done|done|]. intros w2 ix2 Hcore2 Hev2 Hfs2.
    apply wp_bind. eapply (wp_trim_head_pos K ess next); [exact Hcore2|done|done|done|]. intros w3 ix3 Hcore3 Hev3 Hfs3.
    apply wp_modify, HQ; [|done|done|done|].
    + destruct Hcore3 as [[? ? []] ? ? [] ? ? ? Hdm3].
      split; [by split; [| |split]|done|done|by split|done|done|done|cbn; by apply Forall_app].
    + intros f Hf. rewrite Hfs3 by (by apply epoch_not_pos). rewrite Hfs2 by (by apply epoch_not_ts).
      by apply (Hix "e"%char "poch-sn.idx").
Qed.

(** The background job removes a file that is no log file and belongs to no index. *)
Lemma removed_stays {KV} `{!MonoKeyValue KV} `{!MonoKeyValueLaws KV} K name (es : list KV) w w' ix f :
  last (list_ascii_of_string name) = Some "x"%char -> available name K es (MonoState w ix) ->
  w_files w' = delete f (w_files w) -> last (list_ascii_of_string f) = Some "d"%char ->
  forall g, belongs name g -> w_files w' !! g = w_files w !! g.
Proof.
  intros Hx Hav%available_stored Hfs Hd g Hg. rewrite Hfs. destruct (decide (g = f)) as [->|]; [|by rewrite lookup_delete_ne].
  rewrite lookup_delete_eq. destruct (w_files w !! f) eqn:Hf; [|done]. exfalso. revert Hg.
  by eapply (stored_name name K es); [done|exact Hav|eexists|exact Hd|..].
Qed.

Lemma wp_delete_next K w l ess next (Q : unit -> loglet_state -> Prop) E :
  log_core K w l ess next -> evolves w0 w ->
  (forall w' l', log_core K w' l' ess next -> evolves w0 w' -> same_loglet l l' -> segments l' = segments l ->
     (forall (eps : list EpochSequence) ix, available (epoch_file (log_dir l)) (2 ^ 64) eps (MonoState w ix) ->
        available (epoch_file (log_dir l)) (2 ^ 64) eps (MonoState w' ix)) -> Q tt (LogletState w' l')) ->
  wp Lglt.delete_next Q E (LogletState w l).
Proof.
  intros Hcore Hev HQ. unfold Lglt.delete_next. apply wp_bind, wp_gets. cbn [ls_loglet].
  pose proof Hcore as [[HR Hnm [(ps & Hps & Hpt) (ts & Hts & Htb)]] Hse Hsp Hbl Honly Hcfg Hnx Hdm].
  destruct (to_delete l) as [|seg rest]; [by apply wp_ret, HQ|]. apply Forall_cons in Hdm as [Hd Hdm].
  apply wp_bind, wp_modify, wp_bind, wp_zoom. unfold Segment.remove. apply wp_bind, wp_attempt.
  eapply (wp_remove w0); [done|by intros ? ? ? ?|]. intros w1 Hev1 Hfs1. apply wp_ret, wp_ret. cbn [ls_world ls_loglet] in *.
  assert (Hav : forall {KV} `{!MonoKeyValue KV} `{!MonoKeyValueLaws KV} K name (es : list KV) ix,
    last (list_ascii_of_string name) = Some "x"%char -> available name K es (MonoState w ix) ->
    forall g, belongs name g -> w_files w1 !! g = w_files w !! g).
  { intros KV H1 H2 K' name es ix Hx Ha. by eapply (removed_stays K' name es w w1 ix). }
  apply HQ; [|done|done|done|].
  - destruct Hbl as [Hk Hkt Hkp Hks]. split; try done; [split; cbn|].
    + eapply segs_rep_frame; [exact HR|]. intros x Hx. rewrite Hfs1. apply lookup_delete_ne. intros Heq.
      destruct (segment_file_last _ _ _ _ _ x HR Hx) as [_ Hg]. unfold doomed in Hd. congruence.
    + done.
    + split; cbn.
      * exists ps. split; [|done]. eapply index_of_frame; [exact Hps|].
        apply (Hav _ _ _ K _ ps (sn_pos_index l)); [unfold pos_name; by rewrite list_ascii_app, last_app|by right; split_and!].
      * exists ts. split; [|done]. eapply index_of_frame; [exact Hts|].
        apply (Hav _ _ _ K _ ts (event_ts_sn_index l)); [unfold ts_name; by rewrite list_ascii_app, last_app|by right; split_and!].
    + intros f Hp Hf Hlog. apply Honly; [done| |done]. cbn in Hf. rewrite Hfs1 in Hf. by apply lookup_delete_is_Some in Hf as [_ ?].
  - intros eps ix Ha. eapply available_frame; [exact Ha|]. apply (Hav _ _ _ (2 ^ 64) _ eps ix); [|done].
    unfold epoch_file. by rewrite list_ascii_app, last_app.
Qed.
End Retain.

(** ** Retention of a log *)

Lemma first_sn_drop k ess next : first_sn ess next <= first_sn (drop k ess) next.
Proof.
  unfold first_sn. rewrite <- (take_drop k ess) at 1. rewrite concat_app, length_app. lia.
Qed.

Section LogRetain.
Context (d : directory) (sizeof_Entry : Z).
Context (Hthere : dir_there d = true) (Hisdir : dir_is_directory d = true).
Context (w0 : world) (Hben : benign w0) (K next applied_sn : Z) (Hnext : next < 2 ^ 63 - 1).

(** [k] segments were deleted, with entries below [applied_sn] only; the log starts at
    what is left. *)
Record retained (old ess : list (list Entry)) (s : log_state) (k : nat) (s' : log_state) : Prop := {
  rt_inv : log_inv sizeof_Entry (old ++ take k ess) K (lg_world s') (lg_log s') (drop k ess) next;
  rt_evolves : evolves w0 (lg_world s');
  rt_closed : Log.closed (lg_log s') = Log.closed (lg_log s);
  rt_paused : paused (lg_log s') = paused (lg_log s);
  rt_committed : committed_sn (lg_log s') = committed_sn (lg_log s);
  rt_epoch : committed_epoch (lg_log s') = committed_epoch (lg_log s);
  rt_dir : log_dir (loglet (lg_log s')) = log_dir (loglet (lg_log s));
  rt_config : log_config (loglet (lg_log s')) = log_config (loglet (lg_log s));
  rt_start : log_start_sn (lg_log s') =
    if decide (k = 0%nat) then log_start_sn (lg_log s)
    else Z.max (log_start_sn (lg_log s)) (first_sn (drop k ess) next);
  rt_applied : Forall (fun e => sn e < applied_sn) (concat (take k ess));
}.

Lemma retained_none old ess s :
  log_inv sizeof_Entry old K (lg_world s) (lg_log s) ess next -> evolves w0 (lg_world s) -> retained old ess s 0 s.
Proof. intros Hinv Hev. split; try done. by rewrite take_0, app_nil_r, drop_0. Qed.

Lemma retained_trans old ess s1 k1 s2 k2 s3 :
  retained old ess s1 k1 s2 -> retained (old ++ take k1 ess) (drop k1 ess) s2 k2 s3 -> retained old ess s1 (k1 + k2) s3.
Proof.
  intros [] [].
  assert (Ht : take (k1 + k2) ess = take k1 ess ++ take k2 (drop k1 ess)).
  { rewrite <- (take_drop k1 ess) at 1. rewrite take_app, take_take, length_take.
    destruct (decide (k1 <= length ess)%nat).
    - by rewrite Nat.min_r, Nat.min_l, Nat.add_comm, Nat.add_sub by lia.
    - rewrite (drop_ge ess k1) by lia. by rewrite !take_nil, !app_nil_r, Nat.min_r by lia. }
  split; try congruence.
  - by rewrite Ht, app_assoc, <- drop_drop.
  - rewrite rt_start1, rt_start0, drop_drop. pose proof (first_sn_drop k2 (drop k1 ess) next) as Hle. rewrite drop_drop in Hle.
    destruct (decide (k1 = 0%nat)) as [->|], (decide (k2 = 0%nat)) as [->|].
    + done.
    + by rewrite decide_False by lia.
    + rewrite decide_False by lia. by rewrite Nat.add_0_r.
    + rewrite decide_False by lia. lia.
  - rewrite Ht, concat_app. by apply Forall_app.
Qed.

(** Deleting the first [k] segments. *)
Lemma wp_delete_first old ess s k (Q : nat -> log_state -> Prop) E :
  log_inv sizeof_Entry old K (lg_world s) (lg_log s) ess next -> evolves w0 (lg_world s) ->
  lists_directory (log_dir (loglet (lg_log s)) +:+ "/") (dir_listing d) ->
  k <> 0%nat -> (exists seg, (segments (loglet (lg_log s))).*2 !! k = Some seg /\ base_sn seg < applied_sn) ->
  (forall s', retained old ess s k s' -> Q k s') ->
  wp (attempt (Lg.on_loglet (Lglt.removeSegments d (take k (segments (loglet (lg_log s))).*2) None)) >>
      base <- Lg.logFirstSegmentBaseSequence;;
      Lg.maybeIncrementLogStartSequence base >> ret k)%prog Q E s.
Proof.
  intros Hinv Hev Hlist Hk (seg & Hseg & Happ) HQ. destruct s as [w lg]. cbn [lg_world lg_log] in *.
  pose proof (lc_rep _ _ _ _ _ Hinv) as HL. pose proof (Forall2_length _ _ _ (lr_files HL)) as Hlen.
  rewrite list_lookup_fmap in Hseg. destruct (segments (loglet lg) !! k) as [[b seg']|] eqn:Hb; [|done].
  cbn in Hseg. simplify_eq. pose proof (lookup_lt_Some _ _ _ Hb) as Hlt.
  apply wp_bind, wp_attempt, wp_zoom. cbn [lg_world lg_log]. rewrite <- fmap_take.
  eapply (wp_remove_lower d Hthere Hisdir w0 Hben K w (loglet lg) (take k (segments (loglet lg))) (drop k (segments (loglet lg)))
    (take k ess) (drop k ess)); try done.
  - rewrite take_drop. apply Hinv.
  - by rewrite take_drop.
  - rewrite !length_take. lia.
  - intros Heq%(f_equal length). rewrite length_take in Heq. cbn in Heq. lia.
  - intros Heq%(f_equal length). rewrite length_drop in Heq. cbn in Heq. lia.
  - intros w1 l1 Hcore1 Hev1 [Hd1 Hc1] Hs1 Hep. destruct (log_rep_numbers _ _ _ _ (lc_rep _ _ _ _ _ Hcore1)) as [Hf _].
    pose proof (Segments.wf_base _ (lr_wf (lr_segs (lc_rep _ _ _ _ _ Hcore1)))) as Hbase.
    unfold Lg.logFirstSegmentBaseSequence, Lg.maybeIncrementLogStartSequence.
    apply wp_bind, wp_bind, wp_gets, wp_bind. cbn [lg_world lg_log ls_loglet ls_world loglet set_loglet].
    destruct (segments l1) as [|[b1 s1] segs1] eqn:Hsegs1; [done|]. apply Forall_cons in Hbase as [Hbase _]. cbn in Hbase, Hf.
    assert (Hb1 : base_sn s1 = first_sn (drop k ess) next) by (rewrite Hbase; congruence).
    eapply wp_defined; [done|]. apply wp_ret, wp_bind, wp_bind, wp_gets. cbn [lg_log lg_world snd]. rewrite Hb1.
    change (log_start_sn (set_loglet l1 lg)) with (log_start_sn lg).
    set (f := first_sn (drop k ess) next) in *.
    assert (Hlt' : Forall (fun e => sn e < applied_sn) (concat (take k ess))).
    { eapply Forall_impl; [by eapply taken_below; [apply HL|exact Hb]|]. cbn.
      pose proof (Segments.wf_base _ (lr_wf (lr_segs HL))) as Hbs. apply (Forall_lookup_1 _ _ _ _ Hbs) in Hb. cbn in Hb. lia. }
    assert (Hinv1 : forall lg', loglet lg' = l1 -> epoch_sn_index lg' = epoch_sn_index lg -> entry_cache lg' = entry_cache lg ->
      log_inv sizeof_Entry (old ++ take k ess) K w1 lg' (drop k ess) next).
    { intros lg' H1 H2 H3. destruct Hinv as [_ (eps & Hav & Heps) Hc]. split; rewrite ?H1, ?H2, ?H3; [done| |].
      - exists eps. split; [|done]. rewrite H1, H2, Hd1. by eapply available_frame.
      - by rewrite <- app_assoc, take_drop. }
    destruct (Z.ltb_spec (log_start_sn lg) f) as [Hle|Hle].
    + apply wp_bind, wp_modify, wp_ret, wp_ret, HQ.
      split; cbn; try done; [by apply Hinv1|]. rewrite decide_False by done. fold f. lia.
    + apply wp_ret, wp_ret, HQ. split; cbn; try done; [by apply Hinv1|]. rewrite decide_False by done. fold f. lia.
Qed.

Lemma wp_deleteOldSegments_by {T} (should_delete : T -> LogSegment -> LogSegment -> T * bool) t old ess s
    (Q : nat -> log_state -> Prop) E :
  log_inv sizeof_Entry old K (lg_world s) (lg_log s) ess next -> evolves w0 (lg_world s) ->
  lists_directory (log_dir (loglet (lg_log s)) +:+ "/") (dir_listing d) ->
  (forall k s', retained old ess s k s' -> Q k s') ->
  wp (Lg.deleteOldSegments_by d should_delete t applied_sn) Q E s.
Proof.
  intros Hinv Hev Hlist HQ. unfold Lg.deleteOldSegments_by. apply wp_bind, wp_gets. rewrite deletable_spec.
  set (k := deletable_count _ _ _ _). destruct (deletable_count_lt should_delete applied_sn t (segments (loglet (lg_log s))).*2)
    as [Hk|Hex]; fold k in Hk || fold k in Hex.
  { rewrite Hk, take_0. apply wp_ret, HQ. by apply retained_none. }
  destruct (decide (k = 0%nat)) as [->|Hk]; [rewrite take_0; by apply wp_ret, HQ, retained_none|].
  destruct Hex as (seg & Hseg & Happ). pose proof (lookup_lt_Some _ _ _ Hseg) as Hlt.
  assert (Hlen : length (take k (segments (loglet (lg_log s))).*2) = k) by (rewrite length_take; lia).
  destruct (take k (segments (loglet (lg_log s))).*2) as [|x xs] eqn:Htk; [cbn in Hlen; lia|].
  rewrite <- Htk. rewrite <- Htk in Hlen. rewrite Hlen. eapply wp_delete_first; [exact Hinv|done|done|done|by exists seg|].
  intros s' Hr. by apply HQ.
Qed.

Lemma wp_deleteOldSegments last_modified now old ess s (Q : nat -> log_state -> Prop) E :
  log_inv sizeof_Entry old K (lg_world s) (lg_log s) ess next -> evolves w0 (lg_world s) ->
  lists_directory (log_dir (loglet (lg_log s)) +:+ "/") (dir_listing d) ->
  (forall k s', retained old ess s k s' -> Q k s') ->
  wp (Lg.deleteOldSegments d last_modified now applied_sn) Q E s.
Proof.
  intros Hinv Hev Hlist HQ. unfold Lg.deleteOldSegments. apply wp_bind.
  unfold Lg.deleteLogStartSequenceBreachedSegments. apply wp_bind, wp_gets.
  eapply wp_deleteOldSegments_by; [exact Hinv|done|done|]. intros k1 s1 Hr1. apply wp_bind.
  assert (Hlist1 : lists_directory (log_dir (loglet (lg_log s1)) +:+ "/") (dir_listing d)) by (by rewrite (rt_dir _ _ _ _ _ Hr1)).
  assert (H2 : forall (Q' : nat -> log_state -> Prop),
    (forall k s', retained (old ++ take k1 ess) (drop k1 ess) s1 k s' -> Q' k s') ->
    wp (Lg.deleteRetentionSizeBreachedSegments d applied_sn) Q' E s1).
  { intros Q' HQ'. pose proof (retained_none _ _ s1 (rt_inv _ _ _ _ _ Hr1) (rt_evolves _ _ _ _ _ Hr1)) as Hn.
    unfold Lg.deleteRetentionSizeBreachedSegments. apply wp_bind, wp_gets.
    destruct (_ =? 0); [by apply wp_ret, HQ'|]. apply wp_bind, wp_gets. destruct (_ || _); [by apply wp_ret, HQ'|].
    by eapply wp_deleteOldSegments_by; [apply Hr1|apply Hr1|..]. }
  apply H2. intros k2 s2 Hr2. apply wp_bind. pose proof (retained_trans _ _ _ _ _ _ _ Hr1 Hr2) as Hr12.
  assert (Hlist2 : lists_directory (log_dir (loglet (lg_log s2)) +:+ "/") (dir_listing d)) by (by rewrite (rt_dir _ _ _ _ _ Hr2)).
  pose proof (retained_none _ _ s2 (rt_inv _ _ _ _ _ Hr12) (rt_evolves _ _ _ _ _ Hr12)) as Hn.
  assert (Hend : forall k3 s3, retained (old ++ take (k1 + k2) ess) (drop (k1 + k2) ess) s2 k3 s3 -> Q (k1 + k2 + k3)%nat s3).
  { intros k3 s3 Hr3. apply HQ. by eapply retained_trans. }
  unfold Lg.deleteRetentionTimeBreachedSegments. apply wp_bind, wp_gets.
  destruct (_ <=? 0); [by apply wp_ret, wp_ret, Hend|]. apply wp_bind, wp_gets. destruct (_ <? _); [by apply wp_ret, wp_ret, Hend|].
  eapply wp_deleteOldSegments_by; [apply Hr12|apply Hr12|done|]. intros k3 s3 Hr3. apply wp_ret. by apply Hend.
Qed.

(** The background job leaves the log alone. *)
Lemma wp_background old ess s (Q : unit -> log_state -> Prop) E :
  log_inv sizeof_Entry old K (lg_world s) (lg_log s) ess next -> evolves w0 (lg_world s) ->
  (forall s', log_inv sizeof_Entry old K (lg_world s') (lg_log s') ess next -> evolves w0 (lg_world s') ->
     same_rest (lg_log s) (lg_log s') -> Q tt s') ->
  wp (Lg.on_loglet Lglt.delete_next) Q E s.
Proof.
  intros [Hcore (eps & Hav & Heps) Hc] Hev HQ. destruct s as [w lg]. apply wp_zoom. cbn [lg_world lg_log] in *.
  eapply (wp_delete_next w0 Hben); [exact Hcore|done|]. intros w1 l1 Hcore1 Hev1 [Hd Hcf] Hs Hep.
  apply HQ; [|done|by split]. split; [done| |done]. exists eps. split; [|done]. cbn. rewrite Hd. by apply Hep.
Qed.
End LogRetain.

(** ** Retention by size *)

Definition bytes_of (segs : list LogSegment) : Z := foldr Z.add 0 (Segment.size <$> segs).

Section BySize.
Context (retention_size min_keep applied_sn : Z).
Local Abbreviation size_count := (deletable_count (Lg.should_delete_by_size retention_size min_keep) applied_sn).

Lemma size_count_cons total prev seg segs :
  size_count total (prev :: seg :: segs) =
  if (base_sn seg <? applied_sn) && ((retention_size <? total) && (Segment.size prev <? total) &&
       (min_keep <? total - Segment.size prev))
  then S (size_count (total - Segment.size prev) (seg :: segs)) else 0%nat.
Proof.
  cbn [deletable_count]. destruct (_ <? applied_sn); [|done]. unfold Lg.should_delete_by_size at 1. cbn [andb].
  by destruct (_ && _ && _).
Qed.

Lemma size_count_spec total segs :
  let n := size_count total segs in
  let left := total - bytes_of (take n segs) in
  (n <> 0%nat -> min_keep < left /\ exists s, segs !! n = Some s /\ base_sn s < applied_sn) /\
  (forall i, (i < n)%nat -> retention_size < total - bytes_of (take i segs)) /\
  (forall s s', segs !! n = Some s -> segs !! S n = Some s' -> base_sn s' < applied_sn ->
     left <= retention_size \/ left <= Segment.size s \/ left - Segment.size s <= min_keep).
Proof.
  revert total. induction segs as [|prev segs IH]; intros total; [by split_and!; [|cbn; lia|]|].
  destruct segs as [|seg segs]; [by split_and!; [|cbn; lia|]|]. cbv zeta. rewrite size_count_cons.
  destruct (Z.ltb_spec (base_sn seg) applied_sn) as [Hlt|Hge]; cbn [andb].
  2: { split_and!; [done|lia|]. intros s s' Hs Hs' Hb. cbn in Hs, Hs'. simplify_eq. lia. }
  destruct (Z.ltb_spec retention_size total), (Z.ltb_spec (Segment.size prev) total),
    (Z.ltb_spec min_keep (total - Segment.size prev)); cbn [andb].
  2-8: split_and!; [done|lia|]; intros s s' Hs _ _; cbn in Hs |- *; simplify_eq; lia.
  specialize (IH (total - Segment.size prev)). cbv zeta in IH. set (m := size_count _ (seg :: segs)) in *.
  destruct IH as (IH1 & IH2 & IH3).
  assert (Hb : forall k, bytes_of (take (S k) (prev :: seg :: segs)) = Segment.size prev + bytes_of (take k (seg :: segs))) by done.
  rewrite Hb. replace (total - (Segment.size prev + bytes_of (take m (seg :: segs))))
    with (total - Segment.size prev - bytes_of (take m (seg :: segs))) by lia.
  split_and!.
  - intros _. change ((prev :: seg :: segs) !! S m) with ((seg :: segs) !! m). destruct (decide (m = 0%nat)) as [->|Hm]; [|auto].
    split; [cbn; lia|by exists seg].
  - intros [|i] Hi; [cbn; lia|]. rewrite Hb. specialize (IH2 i). lia.
  - exact IH3.
Qed.
End BySize.

(** C38. Retention by size deletes segments from the head of the log while the log is
    larger than [retention_size], and no further: as long as a segment is deleted the
    log before it is above the limit, what is left stays above [min_size_to_keep],
    the segment that becomes the first starts below the applied sequence, and where
    it stops the log is within the limit, or without the next segment it would not be
    above [min_size_to_keep], or the next segment is all there is. *)
Theorem retention_size_bounds retention_size min_keep total_bytes applied_sn segs :
  let deleted := Lglt.deletableSegments (Lg.should_delete_by_size retention_size min_keep) total_bytes applied_sn segs in
  let left := total_bytes - bytes_of deleted in
  exists n, deleted = take n segs.*2 /\
    (deleted <> [] -> min_keep < left /\ exists s, segs.*2 !! n = Some s /\ base_sn s < applied_sn) /\
    (forall i, (i < n)%nat -> retention_size < total_bytes - bytes_of (take i segs.*2)) /\
    (forall s s', segs.*2 !! n = Some s -> segs.*2 !! S n = Some s' -> base_sn s' < applied_sn ->
       left <= retention_size \/ left <= Segment.size s \/ left - Segment.size s <= min_keep).
Proof.
  intros deleted left. unfold left, deleted. rewrite deletable_spec.
  destruct (size_count_spec retention_size min_keep applied_sn total_bytes segs.*2) as (H1 & H2 & H3).
  eexists. split; [done|]. split_and!; [|exact H2|exact H3]. intros Hne. apply H1. intros Heq. by rewrite Heq in Hne.
Qed.
