(* ===== verification/LogRefine.v ===== *)
(** * The log as its clients see it

    The abstract log [alog] is a list of numbered entries with a committed number;
    [spec_step] says what the operations of [Log] may answer and what they do to it.
    The operations run on files, indexes and cache as [Lg] defines them stay within
    this specification. *)

From Stdlib Require Import Ascii String.
From S2P Require Import Prelude Ordered Os AppendOnlyFile Frame Codec KeyValues Names MonoMap MonoMapFrame.
From S2P Require Import MonoMapLoad MonoMapRep MonoMapUpdate MonoMapRecover Entry FileLogEntries FleSpec.
From S2P Require Import SegmentNames LogConfig LogSegment SegmentSpec LogSegments LogTypes LogEntryCache CacheProps.
From S2P Require Import IndexSpec IndexOpen Indexes Loglet Log LogLoader LogletRep LogletFetch LogletAppend LogletRoll.
From S2P Require Import StartSpec LogSpec LogWrite LogRead LogRetain.

Local Open Scope Z_scope.

(** ** The specification *)

Record alog : Type := mkALog {
  al_first : Z;                       (** the number of the first entry *)
  al_entries : list Entry;
  al_gone : list Entry;               (** entries before the first one that were deleted *)
  al_start : Z;                       (** what is below is gone for consumers *)
  al_committed : Z;
  al_epoch : Z;
  al_paused : bool;
  al_hints : list FetchHint;          (** the hints handed out *)
  al_ids : Z;                         (** above the ids of files given out *)
}.

Definition al_next (a : alog) : Z := al_first a + Z.of_nat (length (al_entries a)).

Definition al_grow (entries : list Entry) (ids : Z) (a : alog) : alog :=
  mkALog (al_first a) (al_entries a ++ filed entries) (al_gone a) (al_start a) (al_committed a) (al_epoch a)
    (al_paused a) (al_hints a) (al_ids a + ids).
Definition al_commit (epoch n : Z) (a : alog) : alog :=
  if (epoch <? al_epoch a) || (al_next a <=? n) || (n <=? al_committed a) then a
  else mkALog (al_first a) (al_entries a) (al_gone a) (al_start a) n epoch (al_paused a) (al_hints a) (al_ids a).
Definition al_pause (p : bool) (a : alog) : alog :=
  mkALog (al_first a) (al_entries a) (al_gone a) (al_start a) (al_committed a) (al_epoch a) p (al_hints a) (al_ids a).
Definition al_hint (h : FetchHint) (a : alog) : alog :=
  mkALog (al_first a) (al_entries a) (al_gone a) (al_start a) (al_committed a) (al_epoch a) (al_paused a)
    (h :: al_hints a) (al_ids a).

(** The entries [gone] are deleted, with [n] segments; [rest] is left. *)
Definition al_retain (n : nat) (gone rest : list Entry) (a : alog) : alog :=
  let first := al_first a + Z.of_nat (length gone) in
  mkALog first rest (al_gone a ++ gone) (if decide (n = 0%nat) then al_start a else Z.max (al_start a) first)
    (al_committed a) (al_epoch a) (al_paused a) (al_hints a) (al_ids a).

Inductive write : Type :=
  | Append (entries : list Entry)
  | AppendLocal (now : Z) (e : Entry)
  | Advance (epoch n : Z)
  | Pause
  | Resume.

Inductive op : Type :=
  | Write (w : write)
  | Fetch (others : list write) (target max_size max_wait_ms : Z) (hint : option FetchHint) (isolation : FetchIsolation)
  | Retain (last_modified : LogSegment -> option Z) (now applied_sn : Z)
  | Background.

Inductive answer : Type :=
  | Appended (written : nat) (code : Z)
  | AppendedAt (n : Z)
  | Refused (code : Z)
  | Advanced (previous : Z)
  | Done
  | Deleted (n : nat)
  | Fetched (r : FetchResult) (code : Z).

Section Spec.
Context (c : LogConfig).

Definition spec_write (w : write) (a : alog) : answer * alog :=
  match w with
  | Append entries =>
      (Appended (length (encode_entries (filed entries))) 0, al_grow entries (2 * rounds (length entries)) a)
  | AppendLocal now e =>
      if al_paused a then (Refused STREAM_PAUSED, a)
      else if max_entry_size c <? payloadSize e then (Refused TOO_LARGE_RECORD, a)
      else (AppendedAt (al_next a), al_commit 1 (al_next a) (al_grow [stamped now (al_next a) e] 2 a))
  | Advance epoch n => (Advanced (al_committed a), al_commit epoch n a)
  | Pause => (Done, al_pause true a)
  | Resume => (Done, al_pause false a)
  end.
Definition spec_writes (ws : list write) (a : alog) : alog := foldl (fun a w => (spec_write w a).2) a ws.

(** The end of what a consumer sees. *)
Definition al_bound (isolation : FetchIsolation) (a : alog) : Z :=
  match isolation with Committed => al_committed a + 1 | LogEnd => al_next a end.

Definition fetch_target (target : Z) (isolation : FetchIsolation) (a : alog) : Z :=
  if target =? EarliestSN then al_start a
  else if target =? LatestSN then al_bound isolation a
  else if target <? LogStartSN then LogStartSN
  else target.

Definition compacted_away (target : Z) (a : alog) : bool := (target <? al_start a) && (LogStartSN <=? target).

(** The log a fetch answers from: that after the others when there is nothing to
    fetch yet and it may wait. *)
Definition fetch_log (others : list write) (target max_wait_ms : Z) (isolation : FetchIsolation) (a : alog) : alog :=
  if compacted_away target a || (fetch_target target isolation a <? al_bound isolation a) || (max_wait_ms <=? 0)
  then a else spec_writes others a.

(** An answer with the first of the entries [es] from [target] on, and a hint that
    leads behind them. *)
Definition fetched_from (target bound : Z) (es : list Entry) (r : FetchResult) (code : Z) : Prop :=
  fr_entries r <> [] /\ code = 0 /\
  fr_entries r `prefix_of` filter (fun e => target <= sn e < bound) es /\
  fh_sn (fetch_hint r) = target + Z.of_nat (length (fr_entries r)).

(** The entries and the code of the answer to a fetch of [target], below [bound].  A
    target below the first entry, which only a request for the start of all logs has,
    can still find deleted entries in the cache. *)
Definition fetch_spec (compacted : bool) (target bound : Z) (a : alog) (r : FetchResult) (code : Z) : Prop :=
  if compacted then fr_entries r = [] /\ code = SEQUENCE_COMPACTED_AWAY
  else if bound <=? target then fr_entries r = [] /\ code = 0
  else if target <? al_first a then
    (fr_entries r = [] /\ code = SEQUENCE_OUT_OF_RANGE) \/ fetched_from target bound (al_gone a ++ al_entries a) r code
  else fetched_from target bound (al_entries a) r code.

Inductive spec_step (a : alog) : op -> answer -> alog -> Prop :=
  | step_write w : spec_step a (Write w) (spec_write w a).1 (spec_write w a).2
  | step_fetch others target max_size wait hint isolation r code :
      let a' := fetch_log others target wait isolation a in
      fr_log_start_sn r = al_start a -> fr_log_committed_sn r = al_committed a' ->
      fetch_spec (compacted_away target a) (fetch_target target isolation a) (al_bound isolation a') a' r code ->
      spec_step a (Fetch others target max_size wait hint isolation) (Fetched r code) (al_hint (fetch_hint r) a')
  | step_retain last_modified now applied_sn n gone rest :
      al_entries a = gone ++ rest -> Forall (fun e => sn e < applied_sn) gone -> (n = 0%nat -> gone = []) ->
      spec_step a (Retain last_modified now applied_sn) (Deleted n) (al_retain n gone rest a)
  | step_background : spec_step a Background Done a.

(** What a client has to keep to: entries continue the log and fit into a segment,
    the ids do not run out, hints are ones it was given. *)
Definition write_fits (w : write) (a : alog) : Prop :=
  match w with
  | Append entries => append_fits c (al_next a) entries /\ al_ids a + 2 * rounds (length entries) <= 2 ^ 28
  | AppendLocal now e =>
      al_paused a = false -> payloadSize e <= max_entry_size c ->
      batch_fits c (al_next a) [stamped now (al_next a) e] /\ al_ids a + 2 <= 2 ^ 28
  | _ => True
  end.
Fixpoint writes_fit (ws : list write) (a : alog) : Prop :=
  match ws with [] => True | w :: ws => write_fits w a /\ writes_fit ws (spec_write w a).2 end.
Definition op_fits (o : op) (a : alog) : Prop :=
  match o with
  | Write w => write_fits w a
  | Fetch others _ max_size _ hint _ =>
      writes_fit others a /\ 0 < max_size /\ (forall h, hint = Some h -> h ∈ al_hints a)
  | Retain _ _ _ => al_next a < 2 ^ 63 - 1
  | Background => True
  end.
End Spec.

(** ** The operations *)

Section Run.
Context (d : directory) (sizeof_Entry : Z).

Definition run_write (w : write) : M log_state answer :=
  (match w with
   | Append entries => r <- Lg.append d sizeof_Entry entries;; ret (Appended r.1 r.2)
   | AppendLocal now e =>
       r <- attempt (Lg.appendLocal d sizeof_Entry now e);;
       ret (match r with inl n => AppendedAt n | inr code => Refused code end)
   | Advance epoch n => r <- Lg.advanceCommittedSequence epoch n;; ret (Advanced r)
   | Pause => Lg.pause >> ret Done
   | Resume => Lg.resume >> ret Done
   end)%prog.
Fixpoint run_writes (ws : list write) : M log_state unit :=
  (match ws with [] => ret tt | w :: ws => run_write w >> run_writes ws end)%prog.

Definition run_op (o : op) : M log_state answer :=
  (match o with
   | Write w => run_write w
   | Fetch others target max_size wait hint isolation =>
       r <- Lg.fetch d sizeof_Entry (run_writes others) target max_size wait hint isolation;;
       ret (Fetched r.1 r.2)
   | Retain last_modified now applied_sn =>
       n <- Lg.deleteOldSegments d last_modified now applied_sn;; ret (Deleted n)
   | Background => Lg.on_loglet Lglt.delete_next >> ret Done
   end)%prog.

(** ** The log implements the specification *)

Context (Hthere : dir_there d = true) (Hisdir : dir_is_directory d = true).
Context (w0 : world) (Hben : benign w0) (c : LogConfig) (dir : string).

Record sim (a : alog) (s : log_state) (old ess : list (list Entry)) : Prop := {
  si_inv : log_inv sizeof_Entry old (al_ids a) (lg_world s) (lg_log s) ess (al_next a);
  si_evolves : evolves w0 (lg_world s);
  si_entries : concat ess = al_entries a;
  si_gone : concat old = al_gone a;
  si_numbers : numbers (old ++ ess) (al_next a);
  si_start : log_start_sn (lg_log s) = al_start a;
  si_committed : committed_sn (lg_log s) = al_committed a;
  si_epoch : committed_epoch (lg_log s) = al_epoch a;
  si_paused : paused (lg_log s) = al_paused a;
  si_config : log_config (loglet (lg_log s)) = c;
  si_dir : log_dir (loglet (lg_log s)) = dir;
  si_lists : lists_directory (dir +:+ "/") (dir_listing d);
  si_bound : al_committed a < al_next a;
  si_hints : Forall (known_hint (old ++ ess)) (al_hints a);
}.

Lemma next_grow entries ids a : al_next (al_grow entries ids a) = al_next a + Z.of_nat (length entries).
Proof. unfold al_next. cbn. rewrite length_app, filed_length. lia. Qed.

Lemma sim_first a s old ess : sim a s old ess -> first_sn ess (al_next a) = al_first a.
Proof. intros []. unfold first_sn, al_next. rewrite si_entries0. lia. Qed.

Lemma sim_grow a s old ess entries ids s' ess' :
  sim a s old ess -> grown sizeof_Entry w0 old (al_ids a + ids) ess (al_next a) entries s s' ess' ->
  sim (al_grow entries ids a) s' old ess'.
Proof.
  intros Hs [Hinv Hev [] Hx He]. pose proof (sim_first _ _ _ _ Hs) as Hf. destruct Hs.
  split; rewrite ?next_grow; cbn; try done; try congruence.
  - eapply numbers_behind; [exact si_numbers0|by apply (log_rep_numbers _ _ _ _ (lc_rep _ _ _ _ _ Hinv))|].
    rewrite Hf. unfold first_sn, al_next. rewrite He, length_app, filed_length, si_entries0. lia.
  - lia.
  - eapply Forall_impl; [exact si_hints0|]. intros h Hh. by eapply known_hint_extends, extends_behind.
Qed.

Lemma sim_advance a w lg old ess epoch n :
  sim a (LogState w lg) old ess -> sim (al_commit epoch n a) (LogState w (advanced (al_next a) epoch n lg)) old ess.
Proof.
  intros Hs. pose proof Hs as []. cbn in *. unfold al_commit, advanced. rewrite si_committed0, si_epoch0.
  destruct (epoch <? al_epoch a); [done|]. destruct (Z.leb_spec (al_next a) n); [done|].
  destruct (n <=? al_committed a); [done|]. cbn [orb]. split; cbn; try done. by apply inv_committed.
Qed.

Lemma sim_pause p a w lg old ess :
  sim a (LogState w lg) old ess -> sim (al_pause p a) (LogState w (set_paused p lg)) old ess.
Proof. intros [[] ]. by split. Qed.

Lemma wp_run_write w a s old ess (Q : answer -> log_state -> Prop) E :
  sim a s old ess -> write_fits c w a ->
  (forall s' ess', sim (spec_write c w a).2 s' old ess' -> extends ess ess' -> Q (spec_write c w a).1 s') ->
  wp (run_write w) Q E s.
Proof.
  intros Hs Hfit HQ. pose proof Hs as []. destruct w; cbn [run_write].
  - destruct Hfit as [Hfit Hids]. apply wp_bind.
    eapply (wp_log_append d sizeof_Entry Hthere Hisdir w0 Hben); [exact si_inv0|done|done|by rewrite si_dir0|by rewrite si_config0|].
    intros s' ess' Hg. apply wp_ret. eapply HQ; [by eapply sim_grow|apply Hg].
  - apply wp_bind, wp_attempt. unfold spec_write in HQ. cbn in Hfit. destruct (al_paused a) eqn:Hp.
    { unfold Lg.appendLocal. apply wp_bind, wp_gets. rewrite si_paused0. apply wp_fail, wp_ret.
      eapply HQ; [exact Hs|apply extends_refl]. }
    destruct (Z.ltb_spec (max_entry_size c) (payloadSize e)) as [Hl|Hl].
    { unfold Lg.appendLocal. apply wp_bind, wp_gets. rewrite si_paused0. apply wp_bind, wp_gets. unfold Lg.config.
      rewrite si_config0, (proj2 (Z.ltb_lt _ _)) by done. apply wp_fail, wp_ret.
      eapply HQ; [exact Hs|apply extends_refl]. }
    destruct Hfit as [Hbf Hids]; [done|done|].
    eapply (wp_appendLocal d sizeof_Entry w0 Hben); [exact si_inv0|done|lia|done|by rewrite si_config0|by rewrite si_config0|].
    intros [w' lg'] ess' Hg. apply wp_ret. eapply HQ; [|apply Hg]. cbn [snd].
    pose proof (sim_grow _ _ _ _ _ _ _ _ Hs Hg) as Hs'. pose proof (sim_advance _ _ _ _ _ 1 (al_next a) Hs') as Hs''.
    by rewrite next_grow in Hs''.
  - destruct s as [wo lg]. cbn [lg_world lg_log] in *. apply wp_bind. eapply wp_advance; [exact si_inv0|].
    apply wp_ret. rewrite si_committed0.
    eapply HQ; [by apply sim_advance|apply extends_refl].
  - destruct s. apply wp_bind, wp_modify, wp_ret. eapply HQ; [by apply sim_pause|apply extends_refl].
  - destruct s. apply wp_bind, wp_modify, wp_ret. eapply HQ; [by apply sim_pause|apply extends_refl].
Qed.

Lemma wp_run_writes ws a s old ess (Q : unit -> log_state -> Prop) E :
  sim a s old ess -> writes_fit c ws a ->
  (forall s' ess', sim (spec_writes c ws a) s' old ess' -> extends ess ess' -> Q tt s') ->
  wp (run_writes ws) Q E s.
Proof.
  revert a s ess. induction ws as [|w ws IH]; intros a s ess Hs Hfit HQ; cbn [run_writes].
  - apply wp_ret. eapply HQ; [exact Hs|apply extends_refl].
  - destruct Hfit as [Hf1 Hf2]. apply wp_bind. eapply wp_run_write; [exact Hs|done|].
    intros s1 ess1 Hs1 Hx1. eapply IH; [exact Hs1|done|]. intros s2 ess2 Hs2 Hx2. eapply HQ; [exact Hs2|].
    by eapply extends_trans.
Qed.

(** ** Fetching *)

Lemma end_known w l ess next :
  log_rep w l ess next ->
  entry_sn (next_sn_meta l) = next /\ known_meta ess (next_sn_meta l) /\
  known_hint ess (SnMeta.toFetchHint (next_sn_meta l)).
Proof.
  intros HL. destruct (log_active _ _ _ _ HL) as (psegs & b & seg & pre & es & Hs & ->).
  pose proof (lr_segs HL) as HR. rewrite Hs in HR. apply segs_rep_snoc in HR as (_ & _ & Hla).
  destruct (lr_next HL) as (b' & seg' & es' & Hl & He & ->). rewrite Hs, last_snoc in Hl. rewrite last_snoc in He.
  injection Hl as <- <-. injection He as <-.
  assert (Hk : known_position (pre ++ [es]) next b (size_of es)).
  { pose proof (la_next Hla) as Hn. pose proof (la_sn Hla) as Hsn.
    destruct es as [|e es1 _] using rev_ind; [left; split; [cbn in Hn; lia|done]|right].
    exists (length pre), es1, e, []. split; [by apply list_lookup_middle|].
    rewrite length_app in Hn, Hsn. cbn in Hn. apply (f_equal last) in Hsn.
    rewrite fmap_app, last_app, last_seqZ in Hsn by (cbn; lia). cbn in Hsn. injection Hsn as Hsn.
    split_and!; [lia|lia|done]. }
  split_and!; [done| |by intros _]. by intros b' p [= <-] [= <-].
Qed.

Lemma wp_next_meta isolation a s old ess (Q : LogSequenceMetadata -> log_state -> Prop) E :
  sim a s old ess ->
  (forall m, entry_sn m = al_bound isolation a -> known_meta ess m -> known_hint ess (SnMeta.toFetchHint m) -> Q m s) ->
  wp (Lg.nextSequenceMetadata isolation) Q E s.
Proof.
  intros [] HQ. destruct s as [w lg]. cbn [lg_world lg_log] in *. pose proof (lc_rep _ _ _ _ _ si_inv0) as HL.
  destruct isolation; cbn [Lg.nextSequenceMetadata].
  - destruct (log_active _ _ _ _ HL) as (psegs & b & seg & pre & es & Hs & _).
    apply wp_bind, wp_gets, wp_bind. unfold Lg.logActiveSegmentBaseSequence. apply wp_bind, wp_gets. cbn [lg_log].
    rewrite (active_segment _ _ _ _ Hs). apply wp_ret, wp_ret, HQ; [|done|done]. cbn. by rewrite si_committed0.
  - apply wp_zoom, wp_gets. cbn [ls_loglet ls_world lg_world lg_log].
    replace (set_loglet (loglet lg) lg) with lg by by destruct lg. destruct (end_known _ _ _ _ HL) as (? & ? & ?). by apply HQ.
Qed.

(** The end of the log and the committed number do not go back. *)
Lemma bound_write isolation w a : al_bound isolation a <= al_bound isolation (spec_write c w a).2.
Proof.
  assert (Hc : forall epoch n a, al_bound isolation a <= al_bound isolation (al_commit epoch n a)).
  { clear. intros epoch n a. unfold al_commit. destruct (_ || _) eqn:Ho; [done|].
    apply orb_false_iff in Ho as [_ Ho%Z.leb_gt]. destruct isolation; unfold al_bound, al_next; cbn; lia. }
  assert (Hg : forall es ids, al_bound isolation a <= al_bound isolation (al_grow es ids a)).
  { intros es ids. destruct isolation; cbn [al_bound]; [done|]. rewrite next_grow. lia. }
  destruct w; cbn; [apply Hg| |apply Hc|by destruct isolation|by destruct isolation].
  destruct (al_paused a); [done|]. destruct (_ <? _); [done|]. cbn. etransitivity; [apply Hg|apply Hc].
Qed.

Lemma bound_writes isolation ws a : al_bound isolation a <= al_bound isolation (spec_writes c ws a).
Proof.
  revert a. induction ws as [|w ws IH]; intros a; [done|]. etransitivity; [apply (bound_write isolation w)|apply IH].
Qed.

Lemma wp_fetch_or_wait others target wait isolation a s old ess (Q : Z * LogSequenceMetadata -> log_state -> Prop) E :
  sim a s old ess -> writes_fit c others a -> compacted_away target a = false ->
  (forall m s' ess', let a' := fetch_log c others target wait isolation a in
     sim a' s' old ess' -> extends ess ess' -> entry_sn m = al_bound isolation a' -> known_meta ess' m ->
     known_hint ess' (SnMeta.toFetchHint m) -> Q (fetch_target target isolation a, m) s') ->
  wp (Lg.nextFetchSequenceOrWait (run_writes others) target wait isolation) Q E s.
Proof.
  intros Hs Hfit Hca HQ. unfold Lg.nextFetchSequenceOrWait. apply wp_bind.
  eapply wp_next_meta; [exact Hs|]. intros m Hm Hk Hh. apply wp_bind, wp_gets. rewrite (si_start _ _ _ _ Hs), Hm.
  fold (fetch_target target isolation a). unfold fetch_log in HQ. rewrite Hca in HQ. cbn [orb] in HQ.
  destruct (_ || _).
  - apply wp_ret. eapply HQ; [exact Hs|apply extends_refl|done..].
  - apply wp_bind. eapply wp_run_writes; [exact Hs|done|]. intros s1 ess1 Hs1 Hx1.
    apply wp_bind. eapply wp_next_meta; [exact Hs1|]. intros m1 Hm1 Hk1 Hh1. apply wp_ret.
    pose proof (bound_writes isolation others a) as Hle.
    rewrite Hm1. destruct (Z.ltb_spec (al_bound isolation a) (al_bound isolation (spec_writes c others a))).
    + by eapply HQ.
    + eapply HQ; [exact Hs1|done|lia| |]; [by eapply known_meta_extends|by eapply known_hint_extends].
Qed.

Lemma sim_hint a s old ess h : sim a s old ess -> known_hint (old ++ ess) h -> sim (al_hint h a) s old ess.
Proof. intros [] Hh. split; try done. by constructor. Qed.

Lemma sim_same a s old ess s' :
  sim a s old ess -> log_inv sizeof_Entry old (al_ids a) (lg_world s') (lg_log s') ess (al_next a) ->
  evolves w0 (lg_world s') -> same_rest (lg_log s) (lg_log s') -> sim a s' old ess.
Proof. intros [] Hinv Hev []. split; try done; congruence. Qed.

Section FetchCases.
Context (others : list write) (target max_size wait : Z) (hint : option FetchHint) (isolation : FetchIsolation).
Context (a : alog) (Hfit : op_fits c (Fetch others target max_size wait hint isolation) a) (old : list (list Entry)).
Context (Q : FetchResult * Z -> log_state -> Prop) (E : fault -> log_state -> Prop).
Context (HQ : forall r s' ess' a',
  spec_step c a (Fetch others target max_size wait hint isolation) (Fetched r.1 r.2) a' -> sim a' s' old ess' -> Q r s').
Local Abbreviation a1 := (fetch_log c others target wait isolation a).
Local Abbreviation t := (fetch_target target isolation a).

(** An answer the specification allows. *)
Lemma fetch_done r s ess :
  sim a1 s old ess -> known_hint (old ++ ess) (fetch_hint r.1) -> fr_log_start_sn r.1 = al_start a ->
  fr_log_committed_sn r.1 = al_committed a1 ->
  fetch_spec (compacted_away target a) t (al_bound isolation a1) a1 r.1 r.2 -> Q r s.
Proof. intros Hs Hk H1 H2 H3. eapply HQ; [by apply step_fetch|]. by apply sim_hint. Qed.

Lemma wp_fetch_compacted s ess :
  sim a s old ess -> compacted_away target a = true ->
  wp (committed <- Lg.committedSequence;;
      base <- Lg.logFirstSegmentBaseSequence;;
      ret (mkFetchResult (al_start a) committed (mkFetchHint (al_start a) base no_position)
             new_LogSequenceMetadata [], SEQUENCE_COMPACTED_AWAY))%prog Q E s.
Proof.
  intros Hs Hca. apply wp_bind, wp_gets, wp_bind. unfold Lg.logFirstSegmentBaseSequence. apply wp_bind, wp_gets, wp_bind.
  destruct (log_active _ _ _ _ (lc_rep _ _ _ _ _ (si_inv _ _ _ _ Hs))) as (psegs & b & seg & pre & es & Hsegs & _).
  assert (Hfs : exists x, Segments.firstSegment (segments (loglet (lg_log s))) = Some x).
  { unfold Segments.firstSegment. rewrite Hsegs. destruct psegs; by eexists. }
  destruct Hfs as [x Hx]. eapply wp_defined; [exact Hx|]. apply wp_ret, wp_ret.
  assert (Ha : a1 = a) by (unfold fetch_log; by rewrite Hca).
  eapply fetch_done; rewrite ?Ha; [exact Hs|done|done|apply Hs|]. by rewrite Hca.
Qed.

Lemma wp_fetch_nothing m s ess :
  sim a1 s old ess -> compacted_away target a = false -> al_bound isolation a1 <= t ->
  known_hint (old ++ ess) (SnMeta.toFetchHint m) -> (forall h, hint = Some h -> known_hint (old ++ ess) h) ->
  wp (committed <- Lg.committedSequence;;
      let h := match hint with
               | Some h => if negb (entry_sn m =? t) || Hint.empty h then SnMeta.toFetchHint m else h
               | None => SnMeta.toFetchHint m
               end in
      ret (mkFetchResult (al_start a) committed h new_LogSequenceMetadata [], 0))%prog Q E s.
Proof.
  intros Hs Hca Hle Hm Hh. apply wp_bind, wp_gets, wp_ret. eapply fetch_done; [exact Hs| |done|apply Hs|].
  - destruct hint as [h|]; [|done]. cbn. destruct (_ || _); [done|]. by apply Hh.
  - rewrite Hca. unfold fetch_spec. by rewrite (proj2 (Z.leb_le _ _)).
Qed.

Lemma wp_fetch_something m s ess :
  sim a1 s old ess -> compacted_away target a = false -> t < al_bound isolation a1 -> entry_sn m = al_bound isolation a1 ->
  known_meta ess m -> (forall h, hint = Some h -> known_hint (old ++ ess) h) ->
  wp (r <- Lg.fetch_entries d sizeof_Entry t max_size m hint;;
      committed <- Lg.committedSequence;;
      ret (Lg.with_bounds (al_start a) committed r.1, r.2))%prog Q E s.
Proof.
  intros Hs Hca Hlt Hm Hk Hh. apply wp_bind. pose proof Hs as []. pose proof (sim_first _ _ _ _ Hs) as Hf.
  assert (Hnext : al_bound isolation a1 <= al_next a1) by (destruct isolation; cbn; lia).
  assert (Hspec : forall r code, fetch_spec false t (al_bound isolation a1) a1 (Lg.with_bounds (al_start a) (al_committed a1) r) code <->
    if t <? al_first a1 then (fr_entries r = [] /\ code = SEQUENCE_OUT_OF_RANGE) \/
      fetched_from t (al_bound isolation a1) (al_gone a1 ++ al_entries a1) r code
    else fetched_from t (al_bound isolation a1) (al_entries a1) r code).
  { intros r code. unfold fetch_spec. by rewrite (proj2 (Z.leb_gt _ _)). }
  assert (Hall : concat (old ++ ess) = al_gone a1 ++ al_entries a1) by (rewrite concat_app; congruence).
  destruct (Z.ltb_spec t (al_first a1)) as [Hb|Hb].
  - eapply wp_fetch_below; [exact si_inv0|done|lia|lia|apply Hfit|..].
    + intros r [He Hp Hn Hkh]. apply wp_bind, wp_gets, wp_ret. rewrite si_committed0.
      eapply fetch_done; [exact Hs|done|done|done|]. rewrite Hca. apply Hspec. right. rewrite Hall, Hm in Hp. by split_and!.
    + apply wp_bind, wp_gets, wp_ret. rewrite si_committed0.
      eapply fetch_done; [exact Hs|done|done|done|]. rewrite Hca. apply Hspec. by left.
  - eapply (wp_fetch_entries d sizeof_Entry w0 Hben); [exact si_inv0|done|done|lia|lia|lia|apply Hfit|done|done|].
    intros r s' Hinv' Hev' Hsm Hr [He Hp Hn Hkh]. pose proof (sim_same _ _ _ _ _ Hs Hinv' Hev' Hsm) as Hs'.
    apply wp_bind, wp_gets, wp_ret. rewrite (si_committed _ _ _ _ Hs').
    eapply fetch_done; [exact Hs'|done|done|done|]. rewrite Hca. apply Hspec. cbn [snd].
    rewrite concat_app, filter_app, (filter_none _ (concat old)), Hm, si_entries0 in Hp; [by split_and!|].
    apply Forall_forall. intros e He'. apply (old_below _ _ _ si_numbers0) in He'. lia.
Qed.

Lemma wp_log_fetch s ess :
  sim a s old ess -> wp (Lg.fetch d sizeof_Entry (run_writes others) target max_size wait hint isolation) Q E s.
Proof.
  intros Hs. pose proof Hfit as (Hws & _ & Hhint). unfold Lg.fetch. apply wp_bind, wp_gets. rewrite (si_start _ _ _ _ Hs).
  fold (compacted_away target a). destruct (compacted_away target a) eqn:Hca; [by eapply wp_fetch_compacted|].
  apply wp_bind. eapply wp_fetch_or_wait; [exact Hs|done|done|]. intros m s1 ess1 a' Hs1 Hx1 Hm Hk Hkh.
  assert (Hh : forall h, hint = Some h -> known_hint (old ++ ess1) h).
  { intros h Hh. eapply known_hint_extends; [|by eapply extends_behind, Hx1]. pose proof (si_hints _ _ _ _ Hs) as Hall.
    rewrite Forall_forall in Hall. by apply Hall, Hhint. }
  destruct (Z.leb_spec (entry_sn m) t) as [Hle|Hlt].
  - rewrite Hm in Hle. eapply wp_fetch_nothing; [exact Hs1|done|done| |done].
    intros Hp. by apply known_position_behind, Hkh.
  - rewrite Hm in Hlt. by eapply wp_fetch_something.
Qed.
End FetchCases.

(** ** Retention *)

Lemma sim_retain a s old ess applied_sn k s' :
  sim a s old ess -> retained sizeof_Entry w0 (al_ids a) (al_next a) applied_sn old ess s k s' ->
  sim (al_retain k (concat (take k ess)) (concat (drop k ess)) a) s' (old ++ take k ess) (drop k ess).
Proof.
  intros [] []. set (a' := al_retain _ _ _ a). assert (Hsplit : al_entries a = concat (take k ess) ++ concat (drop k ess))
    by (by rewrite <- concat_app, take_drop).
  assert (Hn : al_next a' = al_next a) by (unfold al_next, a', al_retain; cbn; rewrite Hsplit, length_app; lia).
  assert (Hf : first_sn (drop k ess) (al_next a) = al_first a + Z.of_nat (length (concat (take k ess))))
    by (unfold first_sn, al_next; rewrite Hsplit, length_app; lia).
  assert (Hall : (old ++ take k ess) ++ drop k ess = old ++ ess) by (by rewrite <- app_assoc, take_drop).
  split; rewrite ?Hn, ?Hall; try done; try (cbn; congruence).
  - rewrite concat_app, si_gone0. done.
  - cbn. rewrite rt_start, Hf, si_start0. done.
Qed.

Lemma wp_run_op o a s old ess (Q : answer -> log_state -> Prop) E :
  sim a s old ess -> op_fits c o a ->
  (forall r s' old' ess' a', spec_step c a o r a' -> sim a' s' old' ess' -> Q r s') ->
  wp (run_op o) Q E s.
Proof.
  intros Hs Hfit HQ. pose proof Hs as []. destruct o; cbn [run_op].
  - eapply wp_run_write; [exact Hs|done|]. intros s' ess' Hs' _. eapply HQ; [apply step_write|done].
  - apply wp_bind. eapply wp_log_fetch; [done| |exact Hs]. intros r s' ess' a' Hstep Hs'. apply wp_ret. by eapply HQ.
  - apply wp_bind. eapply (wp_deleteOldSegments d sizeof_Entry Hthere Hisdir w0 Hben); [exact Hfit|exact si_inv0|done|by rewrite si_dir0|].
    intros k s' Hr. apply wp_ret. eapply HQ; [|by eapply sim_retain].
    apply step_retain; [by rewrite <- concat_app, take_drop|apply Hr|by intros ->].
  - apply wp_bind. eapply (wp_background sizeof_Entry w0 Hben); [exact si_inv0|done|].
    intros s' Hinv' Hev' Hsm. apply wp_ret. eapply HQ; [apply step_background|by eapply sim_same].
Qed.

(** ** Clients *)

(** A client decides its next operation from the answers it got. *)
Definition client : Type := list answer -> op.

Fixpoint run_client (n : nat) (cl : client) (answers : list answer) : M log_state (list answer) :=
  (match n with
   | O => ret answers
   | S n => r <- run_op (cl answers);; run_client n cl (answers ++ [r])
   end)%prog.
End Run.

(** The histories the specification allows. *)
Inductive spec_runs (c : LogConfig) (cl : client) (a0 : alog) : nat -> list answer -> alog -> Prop :=
  | runs_start : spec_runs c cl a0 0 [] a0
  | runs_step n answers a r a' :
      spec_runs c cl a0 n answers a -> spec_step c a (cl answers) r a' -> spec_runs c cl a0 (S n) (answers ++ [r]) a'.

(** Whatever the answers are, the client keeps to the rules. *)
Definition well_behaved (c : LogConfig) (cl : client) (a0 : alog) : Prop :=
  forall n answers a, spec_runs c cl a0 n answers a -> op_fits c (cl answers) a.

Section Client.
Context (d : directory) (sizeof_Entry : Z).
Context (Hthere : dir_there d = true) (Hisdir : dir_is_directory d = true).
Context (w0 : world) (Hben : benign w0) (c : LogConfig) (dir : string).

Lemma wp_run_client cl a0 n k answers a s old ess (Q : list answer -> log_state -> Prop) E :
  well_behaved c cl a0 -> spec_runs c cl a0 k answers a -> sim d sizeof_Entry w0 c dir a s old ess ->
  (forall answers' a' s' old' ess', spec_runs c cl a0 (n + k) answers' a' -> sim d sizeof_Entry w0 c dir a' s' old' ess' -> Q answers' s') ->
  wp (run_client d sizeof_Entry n cl answers) Q E s.
Proof.
  intros Hwb. revert k answers a s old ess. induction n as [|n IH]; intros k answers a s old ess Hr Hs HQ; cbn [run_client].
  { apply wp_ret. by eapply HQ. }
  apply wp_bind. eapply (wp_run_op d sizeof_Entry Hthere Hisdir w0 Hben c dir); [exact Hs|by eapply Hwb|].
  intros r s' old' ess' a' Hstep Hs'. eapply IH; [by eapply runs_step|exact Hs'|].
  intros answers'' a'' s'' old'' ess'' Hr'' Hs''. eapply HQ; [|exact Hs'']. by rewrite Nat.add_succ_r in Hr''.
Qed.
End Client.
