(* ===== verification/StartRecover.v ===== *)
(** * Recovering a log

    The last segment is recovered from the last position the index knows in it, and
    the log the loader builds holds the entries that are in the files. *)

From Stdlib Require Import Ascii String.
From S2P Require Import Prelude Ordered Os AppendOnlyFile Frame Codec KeyValues Names MonoMap MonoMapFrame.
From S2P Require Import MonoMapLoad MonoMapRep MonoMapUpdate MonoMapRecover Entry FileLogEntries FleSpec.
From S2P Require Import SegmentNames LogConfig LogSegment SegmentSpec LogSegments LogTypes IndexSpec IndexOpen.
From S2P Require Import Indexes Loglet LogEntryCache Log LogLoader LogletRep LogletAppend LogletTrim StartSpec.

Local Open Scope Z_scope.

(** ** Segments opened again *)

Definition same_segment (x y : Z * LogSegment) : Prop :=
  y.1 = x.1 /\ seg_id y.2 = seg_id x.2 /\ base_sn y.2 = base_sn x.2 /\ Segment.filename y.2 = Segment.filename x.2.
Definition same_segments : LogSegments -> LogSegments -> Prop := Forall2 same_segment.

Lemma same_forall (P : Z * LogSegment -> Prop) segs T :
  (forall x y, same_segment x y -> P x -> P y) -> same_segments segs T -> Forall P segs -> Forall P T.
Proof. intros HP H2. induction H2; intros Hf; inversion Hf; subst; constructor; eauto. Qed.

Lemma same_sorted (R : Z * LogSegment -> Z * LogSegment -> Prop) segs T :
  (forall x y x' y', same_segment x x' -> same_segment y y' -> R x y -> R x' y') ->
  same_segments segs T -> StronglySorted R segs -> StronglySorted R T.
Proof.
  intros HR H2. induction H2 as [|x y segs T Hxy H2 IH]; intros Hs; [constructor|].
  apply StronglySorted_cons in Hs as [Hall Hs]. apply StronglySorted_cons. split; [|by apply IH].
  clear IH Hs. induction H2 as [|x' y' segs T Hxy' H2 IH]; [constructor|].
  apply Forall_cons in Hall as [? ?]. constructor; [by eapply HR|by apply IH].
Qed.

Lemma segs_rep_same w dir segs ess next w' T :
  segs_rep w dir segs ess next -> same_segments segs T ->
  Forall2 (fun x es => segment_on w' x.2 (encode_entries es)) T ess -> segs_rep w' dir T ess next.
Proof.
  intros [[Hs Hb] _ Hna Hen Hnu Hid Hir Hbr Hsm] H2 Hon. split; try done.
  - split.
    + eapply same_sorted; [|done|exact Hs]. intros x y x' y' [-> _] [-> _]. done.
    + eapply same_forall; [|done|exact Hb]. intros x y (-> & _ & -> & _). done.
  - eapply same_forall; [|done|exact Hna]. intros x y (_ & -> & -> & ->). done.
  - intros i b seg es Hi He. apply Forall2_same_length_lookup in H2 as [Hlen Hl].
    destruct (lookup_lt_is_Some_2 segs i) as [[b0 seg0] Hi0]; [apply lookup_lt_Some in Hi; lia|].
    destruct (Hl _ _ _ Hi0 Hi) as (Hbb & _). cbn in Hbb. subst b0. destruct (Hnu _ _ _ _ Hi0 He) as [Hsn Hnx].
    split; [done|]. rewrite <- Hnx. destruct (T !! S i) as [[b1 s1]|] eqn:HT1.
    + destruct (lookup_lt_is_Some_2 segs (S i)) as [[b2 s2] Hi2]; [apply lookup_lt_Some in HT1; lia|].
      rewrite Hi2. by destruct (Hl _ _ _ Hi2 HT1).
    + apply lookup_ge_None in HT1. by rewrite lookup_ge_None_2 by lia.
  - eapply same_sorted; [|done|exact Hid]. intros x y x' y' (_ & -> & _) (_ & -> & _). done.
  - eapply same_forall; [|done|exact Hir]. intros x y (_ & -> & _). done.
  - eapply same_forall; [|done|exact Hbr]. intros x y (-> & _). done.
Qed.

(** Positions stay positions. *)
Lemma points_same segs ess T sp : same_segments segs T -> points segs ess sp -> points T ess sp.
Proof.
  intros H2 [(seg & es1 & e & es2 & [(i & Hs & He)] & Hsn & Hfp)|Hgone].
  - left. apply Forall2_same_length_lookup in H2 as [Hlen Hl].
    destruct (lookup_lt_is_Some_2 T i) as [[b' seg'] Hi']; [apply lookup_lt_Some in Hs; lia|].
    destruct (Hl _ _ _ Hs Hi') as (Hb & Hid & Hbs & _). cbn in *.
    exists seg', es1, e, es2. split_and!; [split; exists i; split; [by rewrite Hbs, <- Hb|done]|done|by rewrite Hid].
  - right. eapply same_forall; [|done|exact Hgone]. intros x y (-> & -> & _). done.
Qed.

(** ** The end of the log *)

Section Last.
Context (w : world) (dir : string) (psegs : LogSegments) (b : Z) (seg : LogSegment) (pre : list (list Entry))
  (es : list Entry) (next : Z).
Context (HR : segs_rep w dir (psegs ++ [(b, seg)]) (pre ++ [es]) next).

(** A position at or behind the base of the last segment points into its file. *)
Lemma last_point sp :
  points (psegs ++ [(b, seg)]) (pre ++ [es]) sp -> b <= sp_sn sp ->
  exists es1 e es2, es = es1 ++ e :: es2 /\ (segmentIDAndFilePosition (file_position sp)).2 = size_of es1.
Proof.
  intros [(s0 & es1 & e & es2 & [(i & Hs & He)] & Hsn & Hfp)|Hgone] Hle.
  2: { apply Forall_snoc in Hgone as [_ [_ Hgone]]. cbn in Hgone. lia. }
  exists es1, e, es2. pose proof (rep_length _ _ _ _ _ _ _ _ HR) as Hlen.
  pose proof HR as HR'. apply segs_rep_snoc in HR' as (HP & _ & Hla).
  destruct (decide (i < length psegs)%nat) as [Hi|Hi].
  - rewrite lookup_app_l in He by (rewrite <- Hlen; lia). destruct (log_increasing _ _ _ _ _ HP) as [_ Hlt].
    rewrite Forall_forall in Hlt. specialize (Hlt e). exfalso. enough (sn e < b) by lia. apply Hlt.
    eapply elem_of_concat; [exact He|]. apply elem_of_app. right. by left.
  - assert (i = length psegs) as ->.
    { apply lookup_lt_Some in Hs. rewrite length_app in Hs. cbn in Hs. lia. }
    rewrite list_lookup_middle in Hs by done. rewrite Hlen, list_lookup_middle in He by done.
    injection Hs as -> <-. injection He as ->. split; [done|]. rewrite Hfp. pose proof (la_small Hla) as Hsm.
    rewrite size_of_app in Hsm. pose proof (size_of_nonneg es1). pose proof (size_of_nonneg (e :: es2)).
    pose proof (la_id Hla). by rewrite position_decode by lia.
Qed.

(** Every indexed position is before the end. *)
Lemma point_below sp : points (psegs ++ [(b, seg)]) (pre ++ [es]) sp -> sp_sn sp < next.
Proof.
  intros Hp. pose proof HR as HR'. apply segs_rep_snoc in HR' as (HP & _ & Hla). pose proof (la_next Hla).
  destruct Hp as [(s0 & es1 & e & es2 & [(i & Hs & He)] & <- & _)|Hgone].
  - destruct (log_increasing _ _ _ _ _ HR) as [_ Hlt]. rewrite Forall_forall in Hlt. apply Hlt.
    eapply elem_of_concat; [exact He|]. apply elem_of_app. right. by left.
  - apply Forall_snoc in Hgone as [_ [_ Hgone]]. cbn in Hgone. lia.
Qed.

(** The next sequence, seen from any entry. *)
Lemma last_next_sn es1 es2 ts :
  es = es1 ++ es2 -> (es2 <> [] \/ ts <> []) -> Forall (fun e => sn e = next) ts -> next_sn es2 ts = next.
Proof.
  intros -> Hne Hts. unfold next_sn. destruct ts as [|t ts]; [|by apply Forall_cons in Hts as [-> _]].
  destruct Hne as [Hne|]; [|done]. destruct es2 as [|e es2 _] using rev_ind; [done|]. rewrite last_snoc.
  pose proof HR as HR'. apply segs_rep_snoc in HR' as (_ & _ & Hla). pose proof (la_next Hla) as Hn.
  assert (Hsn : (sn <$> es1 ++ es2 ++ [e]) !! (length es1 + length es2)%nat = Some (sn e)).
  { rewrite list_lookup_fmap, app_assoc, lookup_app_r by (rewrite length_app; lia).
    rewrite length_app, Nat.sub_diag. done. }
  rewrite (la_sn Hla) in Hsn. apply lookup_seqZ in Hsn. rewrite !length_app in *. cbn in *. lia.
Qed.
End Last.

(** ** The loader *)

Section Recovering.
Context (d : directory) (isReadable : string -> bool) (dir : string) (Hshow : shown d isReadable dir).
Context (w0 : world) (Hben : benign w0) (K : Z) (HK : 2 <= K).
Implicit Types (s : loader) (ps : list SequencePosition) (ts : list TimestampSequence).

Abbreviation ts_state s := (MonoState (ld_world s) (ld_ts s)).
Abbreviation pos_state s := (MonoState (ld_world s) (ld_pos s)).
Abbreviation loading := (loading dir w0 K).

(** The position index was loaded. *)
Record ready ps ts s : Prop := {
  rd_loading : loading ps ts s;
  rd_pos : opened (pos_file dir) K ps (pos_state s);
}.

Lemma ready_ts ps ts s t :
  ready ps ts s -> opened (ts_file dir) K ts t -> within (ts_file dir) w0 (ts_state s) t ->
  let s' := LoaderState (ms_world t) (ms_map t) (ld_pos s) (ld_segments s) in
  ready ps ts s' /\ beside dir s s' /\ opened (ts_file dir) K ts (ts_state s').
Proof.
  intros [Hlo Hpos] Ho Hw s'. destruct (loading_ts dir w0 K ps ts s ts t) as [Hlo' Hb]; [done|by right|done|].
  split_and!; [split; [done|]|done|by destruct t]. destruct Hw as [_ [Hout _ _]]. eapply opened_frame; [exact Hpos|].
  intros f Hf. apply Hout. by apply pos_not_ts.
Qed.

Lemma ready_pos ps ts s t :
  loading ps ts s -> opened (pos_file dir) K ps t -> within (pos_file dir) w0 (pos_state s) t ->
  let s' := LoaderState (ms_world t) (ld_ts s) (ms_map t) (ld_segments s) in
  ready ps ts s' /\ beside dir s s'.
Proof.
  intros Hlo Ho Hw s'. destruct (loading_pos dir w0 K ps ts s ps t) as [Hlo' Hb]; [done|by right|done|].
  split; [split; [done|by destruct t]|done].
Qed.

Lemma wp_loader_last_pos ps ts s (Q : option SequencePosition + Z -> loader -> Prop) E :
  loading ps ts s -> (forall s', ready ps ts s' -> beside dir s s' -> Q (inl (last ps)) s') ->
  wp (attempt (Loader.on_pos (PosIndex.lastIndexedSequencePosition d))) Q E s.
Proof.
  intros Hlo HQ. apply wp_attempt, wp_zoom. unfold PosIndex.lastIndexedSequencePosition.
  rewrite (sw_there _ _ _ Hshow), (sw_directory _ _ _ Hshow).
  eapply (wp_open_last _ _ (lists_pos d isReadable dir Hshow) w0 Hben K HK); [apply Hlo|apply Hlo|].
  intros t Ho Hw. destruct (ready_pos _ _ _ _ Hlo Ho Hw). by apply HQ.
Qed.

Lemma wp_loader_last_ts ps ts s (Q : option TimestampSequence + Z -> loader -> Prop) E :
  ready ps ts s ->
  (forall s', ready ps ts s' -> beside dir s s' -> opened (ts_file dir) K ts (ts_state s') -> Q (inl (last ts)) s') ->
  wp (attempt (Loader.on_ts (TsIndex.lastIndexedTimestampSequence d))) Q E s.
Proof.
  intros Hrd HQ. apply wp_attempt, wp_zoom. unfold TsIndex.lastIndexedTimestampSequence.
  rewrite (sw_there _ _ _ Hshow), (sw_directory _ _ _ Hshow).
  eapply (wp_open_last _ _ (lists_ts d isReadable dir Hshow) w0 Hben K HK); [apply Hrd|apply Hrd|].
  intros t Ho Hw. destruct (ready_ts _ _ _ _ Hrd Ho Hw) as (? & ? & ?). by apply HQ.
Qed.

(** Nothing indexed is behind the end of the log. *)
Lemma wp_loader_trim next ps ts s (Q : unit -> loader -> Prop) E :
  ready ps ts s -> Forall (fun x => sp_sn x < next) ps -> Forall (fun x => ts_sn x < next) ts ->
  (forall s', ready ps ts s' -> beside dir s s' -> Q tt s') ->
  wp (bind (attempt (Loader.on_ts (TsIndex.trim d next))) (fun _ =>
      bind (attempt (Loader.on_pos (PosIndex.trim d next))) (fun _ => ret tt))) Q E s.
Proof.
  intros Hrd Hps Hts HQ. apply wp_bind, wp_attempt, wp_zoom. unfold TsIndex.trim, PosIndex.trim, Mono.trimByValue, Mono.trim.
  rewrite (sw_there _ _ _ Hshow), (sw_directory _ _ _ Hshow).
  eapply (wp_open_trim _ _ (lists_ts d isReadable dir Hshow) w0 Hben K HK); [by right|exact Hts|apply Hrd|apply Hrd|].
  intros t Ho Hw. destruct (ready_ts _ _ _ _ Hrd Ho Hw) as (Hrd1 & Hb1 & _).
  apply wp_bind, wp_attempt, wp_zoom.
  eapply (wp_open_trim _ _ (lists_pos d isReadable dir Hshow) w0 Hben K HK); [by left|exact Hps|apply Hrd1|apply Hrd1|].
  intros t' Ho' Hw'. destruct (ready_pos _ _ _ _ (rd_loading _ _ _ Hrd1) Ho' Hw') as [Hrd2 Hb2].
  apply wp_ret, HQ; [done|]. by eapply beside_trans.
Qed.

Context (psegs : LogSegments) (b : Z) (seg : LogSegment) (pre : list (list Entry)) (es : list Entry) (next : Z).
Context (wx : world) (HR : segs_rep wx dir (psegs ++ [(b, seg)]) (pre ++ [es]) next).
Abbreviation segs := (psegs ++ [(b, seg)]).
Abbreviation ess := (pre ++ [es]).

(** The segments were opened; the bytes [X] are behind the last entry. *)
Record opened_log (X : list Z) (segT : LogSegment) s : Prop := {
  ol_segs : exists TP, ld_segments s = TP ++ [(b, segT)] /\ same_segments psegs TP /\
    Forall2 (fun x es => segment_on (ld_world s) x.2 (encode_entries es)) TP pre;
  ol_same : same_segment (b, seg) (b, segT);
  ol_last : segment_on (ld_world s) segT (encode_entries es ++ X);
}.

Lemma wp_get_last_sn_pos segT ps ts s (Q : SequencePosition -> loader -> Prop) E :
  loading ps ts s -> Forall (points segs ess) ps -> base_sn segT = b ->
  (forall es1 es2 n s', es = es1 ++ es2 -> (es2 <> [] \/ es1 = []) -> ready ps ts s' -> beside dir s s' ->
     Q (mkSequencePosition n (size_of es1)) s') ->
  wp (Loader.get_last_sn_pos d segT) Q E s.
Proof.
  intros Hlo Hps Hb HQ. unfold Loader.get_last_sn_pos. apply wp_bind.
  eapply wp_loader_last_pos; [done|]. intros s1 Hrd Hbe.
  assert (Hstart : wp (ret (mkSequencePosition (base_sn segT) 0)) Q E s1).
  { apply wp_ret. change 0 with (size_of []). eapply HQ; [done|by right|done|done]. }
  destruct (last ps) as [sp|] eqn:Hlast; [|done]. rewrite Hb in *.
  destruct (Z.ltb_spec (sp_sn sp) b) as [|Hle]; [done|]. apply wp_ret.
  apply last_Some in Hlast as [ps' ->]. apply Forall_snoc in Hps as [_ Hsp].
  destruct (last_point _ _ _ _ _ _ _ _ HR sp Hsp Hle) as (es1 & e & es2 & -> & ->).
  eapply HQ; [done|by left|done|done].
Qed.

(** The files of the segments are files of their own. *)
Lemma segment_file_foreign x : x ∈ segs -> foreign dir (Segment.filename x.2) /\ ~ temp (Segment.filename x.2).
Proof.
  intros Hx. split; [split; by eapply segment_file_not_index|]. pose proof (lr_named HR) as Hn.
  rewrite Forall_forall in Hn. rewrite (Hn x Hx). intros Ht. apply temp_last in Ht. by rewrite logFile_last in Ht.
Qed.

Lemma same_segments_in segs' T y : same_segments segs' T -> y ∈ T -> exists x, x ∈ segs' /\ same_segment x y.
Proof.
  intros H2 Hy. apply list_elem_of_lookup in Hy as [i Hi].
  destruct (Forall2_lookup_r _ _ _ _ _ H2 Hi) as (x & Hx & Hs). exists x. split; [by eapply list_elem_of_lookup_2|done].
Qed.

Lemma opened_log_world X segT s s' :
  opened_log X segT s -> ld_segments s' = ld_segments s ->
  (forall x, x ∈ segs -> w_files (ld_world s') !! Segment.filename x.2 = w_files (ld_world s) !! Segment.filename x.2) ->
  opened_log X segT s'.
Proof.
  intros [(TP & Hs & Hsame & Hon) Hsa Hla] Hs' Hfs. split; [|done|].
  - exists TP. split_and!; [congruence|done|]. apply Forall2_same_length_lookup in Hon as [Hlen Hon].
    apply Forall2_same_length_lookup. split; [done|]. intros i y c Hi Hc. eapply segment_on_world; [by eapply Hon|].
    destruct (same_segments_in _ _ y Hsame) as (x & Hx & (_ & _ & _ & Hn)); [by eapply list_elem_of_lookup_2|].
    rewrite Hn, Hfs, <- Hn by (apply elem_of_app; by left). by eapply segment_on_filename, Hon.
  - eapply segment_on_world; [done|]. destruct Hsa as (_ & _ & _ & Hn). cbn in Hn.
    pose proof (segment_on_filename _ _ _ Hla) as Hf. rewrite Hn in Hf |- *.
    rewrite <- Hf. apply (Hfs (b, seg)). apply elem_of_app. right. by left.
Qed.

Lemma opened_log_beside X segT s s' : opened_log X segT s -> beside dir s s' -> opened_log X segT s'.
Proof.
  intros Hol Hb. eapply opened_log_world; [done|apply Hb|]. intros x Hx. destruct (segment_file_foreign x Hx).
  by apply (beside_same dir).
Qed.

(** The torn tail is cut off the last segment. *)
Lemma opened_log_cut X segT s segT' w' :
  opened_log X segT s -> seg_id segT' = seg_id segT -> base_sn segT' = base_sn segT ->
  Segment.filename segT' = Segment.filename segT ->
  segment_on w' segT' (encode_entries es) ->
  w_files w' = <[Segment.filename segT := encode_entries es]> (w_files (ld_world s)) ->
  opened_log [] segT' (LoaderState w' (ld_ts s) (ld_pos s) (Segments.add segT' (ld_segments s))).
Proof.
  intros [(TP & Hs & Hsame & Hon) Hsa Hla] Hid Hb Hn Hon' Hfs. pose proof HR as HR'.
  apply segs_rep_snoc in HR' as (HP & Hlt & Hlast). destruct Hsa as (_ & Hi & Hbs & Hname). cbn in Hi, Hbs, Hname.
  split; cbn [ld_segments ld_world ld_ts ld_pos].
  - exists TP. split_and!; [|done|].
    + rewrite Hs. unfold Segments.add. rewrite Hb, Hbs, (la_base Hlast). apply om_insert_middle.
      apply StronglySorted_snoc. split.
      * eapply same_sorted; [|exact Hsame|apply HP]. intros x y x' y' [-> _] [-> _]. done.
      * eapply (same_forall (fun x => x.1 < b)); [|exact Hsame|eapply Forall_impl; [exact Hlt|by intros ? [? _]]].
        intros x y [-> _]. done.
    + apply Forall2_same_length_lookup in Hon as [Hlen Hon]. apply Forall2_same_length_lookup. split; [done|].
      intros i y c Hy Hc. eapply segment_on_world; [by eapply Hon|]. rewrite Hfs.
      destruct (same_segments_in _ _ y Hsame) as (x & Hx & (_ & _ & _ & Hnx)); [by eapply list_elem_of_lookup_2|].
      rewrite lookup_insert_ne; [by eapply segment_on_filename, Hon|]. rewrite Hname, Hnx. apply not_eq_sym.
      by eapply segment_file_apart.
  - split_and!; cbn; congruence.
  - by rewrite app_nil_r.
Qed.

Context (X : list Z) (tts : list Entry) (Htorn : torn X tts) (Htts : Forall (fun e => sn e = next) tts).

Lemma last_entries : Forall sized es /\ Forall meta_fits es.
Proof.
  pose proof HR as HR'. apply segs_rep_snoc in HR' as (_ & _ & Hla).
  split; (eapply Forall_impl; [exact (la_entries Hla)|]); by intros ? [? ?].
Qed.

(** The last segment is recovered from any of its entries, or from its start. *)
Lemma wp_recover_last segT es1 es2 n s (Q : Z * Z * LogSegment + Z -> loader -> Prop) E :
  opened_log X segT s -> evolves w0 (ld_world s) -> es = es1 ++ es2 -> (es2 <> [] \/ es1 = []) ->
  (forall segT' w', evolves w0 w' -> seg_id segT' = seg_id segT -> base_sn segT' = base_sn segT ->
     Segment.filename segT' = Segment.filename segT -> segment_on w' segT' (encode_entries es) ->
     w_files w' = <[Segment.filename segT := encode_entries es]> (w_files (ld_world s)) ->
     Q (inl (next, Z.of_nat (length X), segT')) (LoaderState w' (ld_ts s) (ld_pos s) (ld_segments s))) ->
  wp (attempt (Loader.disk (Segment.recover segT (mkSequencePosition n (size_of es1))))) Q E s.
Proof.
  intros Hol Hev Hes Hstart HQ. apply wp_attempt, wp_zoom. pose proof (ol_last _ _ _ Hol) as Hla.
  destruct last_entries as [Hsz Hfit]. destruct (decide (es2 ++ tts = [])) as [Hnil|Hne].
  - apply app_eq_nil in Hnil as [-> ->]. destruct Hstart as [| ->]; [done|]. cbn in Hes.
    assert (X = []) as -> by (by apply (torn_length _ _ Htorn)). rewrite Hes in *.
    unfold Segment.recover, Segment.readNextSequenceAndCheckCorruption. rewrite (segment_on_size _ _ _ Hla). cbn.
    apply wp_bind, wp_ret. cbn beta iota. apply wp_ret. destruct (ol_same _ _ _ Hol) as (_ & _ & Hb & _). cbn in Hb.
    pose proof HR as HR'. apply segs_rep_snoc in HR' as (_ & _ & Hl). pose proof (la_next Hl) as Hn. cbn in Hn.
    rewrite Hb, (la_base Hl). replace b with next by lia. apply HQ; try done.
    symmetry. apply insert_id. exact (segment_on_filename _ _ _ Hla).
  - rewrite Hes in *. apply Forall_app in Hsz as [_ Hsz]. apply Forall_app in Hfit as [_ Hfit].
    eapply wp_recover_segment; try done. intros segT' w' ??????.
    rewrite (last_next_sn _ _ _ _ _ _ _ _ HR es1 es2 tts); [by apply HQ|done| |done].
    destruct es2; [right; by intros ->|by left].
Qed.

(** After a clean shutdown the next sequence is only read. *)
Lemma wp_next_last segT es1 es2 n s (Q : Z -> loader -> Prop) E :
  opened_log [] segT s -> evolves w0 (ld_world s) -> es = es1 ++ es2 -> (es2 <> [] \/ es1 = []) ->
  (forall w', evolves w0 w' -> w_files w' = w_files (ld_world s) ->
     Q next (LoaderState w' (ld_ts s) (ld_pos s) (ld_segments s))) ->
  wp (Loader.disk (Segment.readNextSequence segT (size_of es1) n)) Q E s.
Proof.
  intros Hol Hev Hes Hstart HQ. apply wp_zoom, wp_bind. pose proof (ol_last _ _ _ Hol) as Hla.
  destruct last_entries as [Hsz Hfit]. destruct (decide (es2 = [])) as [->|Hne].
  - destruct Hstart as [| ->]; [done|]. cbn in Hes. rewrite Hes in *.
    unfold Segment.readNextSequenceAndCheckCorruption. rewrite (segment_on_size _ _ _ Hla). cbn.
    apply wp_ret, wp_ret. cbn [fst]. destruct (ol_same _ _ _ Hol) as (_ & _ & Hb & _). cbn in Hb.
    pose proof HR as HR'. apply segs_rep_snoc in HR' as (_ & _ & Hl). pose proof (la_next Hl) as Hn. cbn in Hn.
    rewrite Hb, (la_base Hl). replace b with next by lia. by apply HQ.
  - rewrite Hes in *. apply Forall_app in Hsz as [_ Hsz]. apply Forall_app in Hfit as [_ Hfit].
    eapply (wp_readNext _ _ _ es1 es2 [] []); try done; [constructor|by rewrite app_nil_r|].
    intros pos w' Hev' Hfs' _. apply wp_ret. cbn [fst].
    rewrite (last_next_sn _ _ _ _ _ _ _ _ HR es1 es2 []); [by apply HQ|done|by left|constructor].
Qed.

(** The loader is where it was, with another world and other segments. *)
Lemma ready_world ps ts s w' segs' :
  ready ps ts s -> evolves w0 w' ->
  (forall f, ~ foreign dir f -> w_files w' !! f = w_files (ld_world s) !! f) ->
  ready ps ts (LoaderState w' (ld_ts s) (ld_pos s) segs').
Proof.
  intros [Hlo Hpos] Hev Hfs. split; [by apply loading_world|]. eapply opened_frame; [exact Hpos|].
  intros f Hf. apply Hfs. by intros [_ ?].
Qed.

(** Nothing but the segments and the two indexes is changed. *)
Definition spares s s' : Prop :=
  forall f, foreign dir f -> (forall x, x ∈ segs -> f <> Segment.filename x.2) -> spared (ld_world s) (ld_world s') f.

Lemma spares_trans s1 s2 s3 : spares s1 s2 -> spares s2 s3 -> spares s1 s3.
Proof. intros H1 H2 f Hf Hx. eapply spared_trans; [by apply H1|by apply H2]. Qed.
Lemma beside_spares s s' : beside dir s s' -> spares s s'.
Proof. intros [_ H] f Hf _. by apply H. Qed.

Lemma wp_recoverLog segT clean ps ts s (Q : Z -> loader -> Prop) E :
  loading ps ts s -> Forall (points segs ess) ps -> Forall (fun x => ts_sn x < next) ts -> opened_log X segT s ->
  (clean = true -> X = []) ->
  (forall segT' s', ready ps ts s' -> opened_log [] segT' s' -> spares s s' -> Q next s') ->
  wp (Loader.recoverLog d clean) Q E s.
Proof.
  intros Hlo Hps Hts Hol Hclean HQ. unfold Loader.recoverLog. apply wp_bind, wp_gets. apply wp_bind.
  destruct (Hol) as [(TP & Hs & _ & _) (_ & _ & Hb & _) _]. cbn in Hb.
  eapply wp_defined; [rewrite Hs; unfold Segments.lastSegment; by rewrite last_snoc|]. cbn [snd].
  pose proof HR as HR'. apply segs_rep_snoc in HR' as (_ & _ & Hl). rewrite (la_base Hl) in Hb.
  apply wp_bind. eapply wp_get_last_sn_pos; [done|done|done|]. intros es1 es2 n s1 Hes Hst Hrd1 Hb1.
  pose proof (opened_log_beside _ _ _ _ Hol Hb1) as Hol1. cbn [file_position sp_sn].
  destruct clean.
  - rewrite (Hclean eq_refl) in *. eapply wp_next_last; [done|apply Hrd1|done|done|]. intros w' Hev' Hfs'.
    apply (HQ segT); [by apply ready_world; [..|intros f _; by rewrite Hfs']| |].
    + eapply opened_log_world; [exact Hol1|done|]. intros x _. cbn. by rewrite Hfs'.
    + eapply spares_trans; [by apply beside_spares|]. intros f _ _. left. cbn. by rewrite Hfs'.
  - apply wp_bind. eapply wp_recover_last; [done|apply Hrd1|done|done|].
    intros segT' w' Hev' Hid' Hb' Hn' Hon' Hfs'. apply wp_bind, wp_modify. cbn [ld_world ld_ts ld_pos ld_segments].
    pose proof (opened_log_cut _ _ _ _ _ Hol1 Hid' Hb' Hn' Hon' Hfs') as Hol2.
    set (s2 := LoaderState _ _ _ _) in *.
    assert (Hrd2 : ready ps ts s2).
    { apply ready_world; [done|done|]. intros f Hf. rewrite Hfs'. apply lookup_insert_ne. intros <-. apply Hf.
      destruct (ol_same _ _ _ Hol) as (_ & _ & _ & Hn0). cbn in Hn0. rewrite Hn0. apply (segment_file_foreign (b, seg)).
      apply elem_of_app. right. by left. }
    assert (Hsp2 : spares s s2).
    { eapply spares_trans; [by apply beside_spares|]. intros f _ Hx. left. cbn. rewrite Hfs'. apply lookup_insert_ne. intros <-.
      destruct (ol_same _ _ _ Hol) as (_ & _ & _ & Hn0). cbn in Hn0. apply (Hx (b, seg)); [|done].
      apply elem_of_app. right. by left. }
    apply wp_bind. destruct (0 <? Z.of_nat (length X)); [|apply wp_ret, wp_ret; by eapply HQ].
    eapply wp_loader_trim; [exact Hrd2| |done|].
    + eapply Forall_impl; [exact Hps|]. intros sp. apply (point_below _ _ _ _ _ _ _ _ HR).
    + intros s3 Hrd3 Hb3. apply wp_ret. eapply HQ; [done|by eapply opened_log_beside|].
      eapply spares_trans; [exact Hsp2|by apply beside_spares].
Qed.

(** The position index points into the log opened again. *)
Lemma opened_log_rep segT s :
  opened_log [] segT s ->
  segs_rep (ld_world s) dir (ld_segments s) ess next /\ last (ld_segments s) = Some (b, segT) /\
  Segment.size segT = size_of es /\ base_sn segT = b /\ (forall sp, points segs ess sp -> points (ld_segments s) ess sp).
Proof.
  intros [(TP & Hs & Hsame & Hon) Hsa Hla]. rewrite app_nil_r in Hla. rewrite Hs.
  assert (H2 : same_segments segs (TP ++ [(b, segT)])) by (apply Forall2_app; [done|by constructor]).
  pose proof HR as HR'. apply segs_rep_snoc in HR' as (_ & _ & Hl). split_and!.
  - eapply segs_rep_same; [exact HR|exact H2|]. apply Forall2_app; [done|by constructor].
  - apply last_snoc.
  - by apply segment_on_size in Hla.
  - destruct Hsa as (_ & _ & Hb & _). cbn in Hb. by rewrite Hb, (la_base Hl).
  - intros sp. by apply points_same.
Qed.
End Recovering.
