(* ===== verification/StartProps.v ===== *)
(** * Starting a log after a crash

    What a crash can leave in the directory of a log, and what [Log::create] makes of
    it. *)

From Stdlib Require Import Ascii String.
From S2P Require Import Prelude Ordered Os AppendOnlyFile Frame Codec KeyValues Names MonoMap MonoMapFrame.
From S2P Require Import MonoMapLoad MonoMapRep MonoMapUpdate MonoMapRecover MonoMapProps Entry FileLogEntries FleSpec.
From S2P Require Import SegmentNames LogConfig LogSegment SegmentSpec LogSegments LogTypes IndexSpec IndexOpen.
From S2P Require Import Indexes Loglet LogEntryCache CacheProps Log LogLoader LogletRep LogletAppend LogletTrim.
From S2P Require Import StartSpec LogSpec LogRetain StartRecover LogExample.

Local Open Scope Z_scope.

(** The directory holds the segments [segs] with the entries [ess], and the indexes;
    the bytes [X] of an entry that was not completely written are behind the last
    entry.  The ids in use are below [K]. *)
Record stopped (K : Z) (dir : string) (fs : gmap string (list Z)) (segs : LogSegments) (ess : list (list Entry))
    (next : Z) (X : list Z) : Prop := {
  sd_segs : exists psegs b seg pre es, segs = psegs ++ [(b, seg)] /\ ess = pre ++ [es] /\
    fs !! Segment.filename seg = Some (encode_entries es ++ X) /\
    segs_rep (World (<[Segment.filename seg := encode_entries es]> fs) []) dir segs ess next;
  sd_torn : exists tts, torn X tts /\ Forall (fun e => sn e = next) tts;
  sd_only : only_segments dir fs segs;
  sd_pos : exists ps, stored (pos_file dir) K ps fs /\ Forall (points segs ess) ps;
  sd_ts : exists ts, stored (ts_file dir) K ts fs /\ Forall (fun x => 0 <= timestamp x /\ ts_sn x < next) ts;
  sd_epochs : exists eps, stored (epoch_file dir) (2 ^ 64) eps fs /\ Forall (fun x => 1 <= epoch x) eps;
  sd_ids : 2 <= K /\ Forall (fun x => seg_id x.2 < K) segs;
  sd_next : 0 < next /\ i64 next;
}.

(** The configuration of a log on disk. *)
Record runnable (c : LogConfig) : Prop := {
  rc_sane : sane c;
  rc_ts : 0 < timestamp_index_log_size c;
  rc_pos : 0 < log_position_index_log_size c;
  rc_epoch : 0 < leader_epoch_index_log_size c;
  rc_cache : 0 <= max_cached_entries_per_shard c;
}.

Section Start.
Context (d : directory) (isReadable : string -> bool) (dir : string) (Hshow : shown d isReadable dir).
Context (w0 : world) (Hben : benign w0) (K : Z) (HK : 2 <= K).
Context (psegs : LogSegments) (b : Z) (seg : LogSegment) (pre : list (list Entry)) (es : list Entry) (next : Z).
Abbreviation segs := (psegs ++ [(b, seg)]).
Abbreviation ess := (pre ++ [es]).
Context (wx : world) (HR : segs_rep wx dir segs ess next).
Context (X : list Z) (tts : list Entry) (Htorn : torn X tts) (Htts : Forall (fun e => sn e = next) tts).
Implicit Types (s : loader) (ps : list SequencePosition) (ts : list TimestampSequence).
Abbreviation loading := (loading dir w0 K).
Abbreviation spares := (spares dir psegs b seg).

(** The files of the segments. *)
Record segment_files (fs : gmap string (list Z)) : Prop := {
  sf_before : Forall2 (fun x es => fs !! Segment.filename x.2 = Some (encode_entries es)) psegs pre;
  sf_last : fs !! Segment.filename seg = Some (encode_entries es ++ X);
  sf_only : only_segments dir fs segs;
}.

(** The segments as the loader opens them. *)
Definition reopened (fs : gmap string (list Z)) (x : Z * LogSegment) : Z * LogSegment :=
  (x.1, open_segment dir (seg_id x.2) (base_sn x.2) (default [] (fs !! Segment.filename x.2))).

Lemma segment_facts x : x ∈ segs ->
  Segment.filename x.2 = logFile dir (seg_id x.2) (base_sn x.2) EmptyString /\ u64 (seg_id x.2) /\ i64 (base_sn x.2) /\
  base_sn x.2 = x.1.
Proof.
  intros Hx. destruct HR as [[_ Hb] _ Hna _ _ _ Hir Hbr _]. rewrite Forall_forall in Hb, Hna, Hir, Hbr.
  specialize (Hir x Hx). rewrite (Hb x Hx). split_and!; [by rewrite <- (Hb x Hx); apply Hna|unfold u64; lia|by apply Hbr|done].
Qed.

Lemma reopened_same fs x : x ∈ segs -> same_segment x (reopened fs x).
Proof. intros Hx. destruct (segment_facts x Hx) as (Hn & _). by split_and!. Qed.

Lemma segment_files_in fs x : segment_files fs -> x ∈ segs -> is_Some (fs !! Segment.filename x.2).
Proof.
  intros [Hb Hl _] Hx. apply elem_of_app in Hx as [Hx|Hx].
  - apply list_elem_of_lookup in Hx as [i Hi]. destruct (Forall2_lookup_l _ _ _ _ _ Hb Hi) as (c & _ & ->). done.
  - apply list_elem_of_singleton in Hx as ->. cbn [snd]. by rewrite Hl.
Qed.

Lemma reopened_files fs : segment_files fs -> log_files dir fs (reopened fs <$> segs).
Proof.
  intros Hsf. assert (H2 : same_segments segs (reopened fs <$> segs)).
  { apply Forall2_fmap_r, Forall_Forall2_diag, Forall_forall. intros x Hx. by apply reopened_same. }
  split.
  - destruct HR as [[Hs Hb] _ _ _ _ _ _ _ _]. split.
    + eapply same_sorted; [|exact H2|exact Hs]. intros x y x' y' [-> _] [-> _]. done.
    + eapply same_forall; [|exact H2|exact Hb]. intros x y (-> & _ & -> & _). done.
  - apply Forall_fmap, Forall_forall. intros x Hx. cbn. destruct (segment_facts x Hx) as (Hn & Hid & Hbs & _).
    destruct (segment_files_in fs x Hsf Hx) as [c Hc]. exists c. rewrite Hc. cbn. split_and!; [done| |done|done].
    unfold Segment.filename. cbn. by rewrite <- Hn.
  - intros f Hp Hf Hlog. destruct (sf_only _ Hsf f Hp Hf Hlog) as [?|(x & Hx & ->)]; [by left|]. right.
    exists (reopened fs x). split; [by apply list_elem_of_fmap_2|]. by destruct (reopened_same fs x Hx) as (_ & _ & _ & ->).
Qed.

Lemma reopened_log fs s :
  segment_files fs -> w_files (ld_world s) = fs -> ld_segments s = reopened fs <$> segs ->
  opened_log psegs b seg pre es X (reopened fs (b, seg)).2 s.
Proof.
  intros Hsf Hfs Hs. rewrite fmap_app in Hs.
  assert (Hon : forall x c, x ∈ segs -> fs !! Segment.filename x.2 = Some c -> segment_on (ld_world s) (reopened fs x).2 c).
  { intros x c Hx Hc. cbn. rewrite Hc. cbn. destruct (segment_facts x Hx) as (Hn & _).
    split; try done. split_and!; [done|done|]. cbn. by rewrite <- Hn, Hfs. }
  split.
  - exists (reopened fs <$> psegs). split_and!; [done| |].
    + apply Forall2_fmap_r, Forall_Forall2_diag, Forall_forall. intros x Hx. apply reopened_same, elem_of_app. by left.
    + apply Forall2_fmap_l. pose proof (sf_before _ Hsf) as Hb. apply Forall2_same_length_lookup in Hb as [Hlen Hb].
      apply Forall2_same_length_lookup. split; [done|]. intros i x c Hi Hc. apply Hon; [|by eapply Hb].
      apply elem_of_app. left. by eapply list_elem_of_lookup_2.
  - apply (reopened_same fs (b, seg)), elem_of_app. right. by left.
  - apply (Hon (b, seg)); [|apply Hsf]. apply elem_of_app. right. by left.
Qed.

Lemma segment_files_beside ps ts s s' :
  segment_files (w_files (ld_world s)) -> loading ps ts s' -> beside dir s s' -> segment_files (w_files (ld_world s')).
Proof.
  intros [Hb Hl Ho] Hlo Hbe.
  assert (Hsame : forall x, x ∈ segs -> w_files (ld_world s') !! Segment.filename x.2 = w_files (ld_world s) !! Segment.filename x.2).
  { intros x Hx. destruct (segment_file_foreign dir psegs b seg pre es next wx HR x Hx). by apply (beside_same dir). }
  split.
  - apply Forall2_same_length_lookup in Hb as [Hlen Hb]. apply Forall2_same_length_lookup. split; [done|].
    intros i x c Hi Hc. rewrite Hsame; [by eapply Hb|]. apply elem_of_app. left. by eapply list_elem_of_lookup_2.
  - rewrite <- Hl. apply (Hsame (b, seg)), elem_of_app. right. by left.
  - intros f Hp Hf Hlog. apply Ho; [done| |done]. rewrite <- (beside_same dir s s'); [done|done| |].
    + eapply named_foreign; [done|done|by apply log_last|done|done].
    + intros Ht. apply temp_last in Ht. apply log_last in Hlog. congruence.
Qed.

Lemma opened_log_same X' segT s : opened_log psegs b seg pre es X' segT s -> same_segments segs (ld_segments s).
Proof. intros [(TP & -> & Hsame & _) Hsa _]. apply Forall2_app; [done|by constructor]. Qed.

(** The log is loaded. *)
Lemma wp_load clean ps ts s (Q : LogSequenceMetadata -> loader -> Prop) E :
  loading ps ts s -> Forall (points segs ess) ps -> Forall (fun x => ts_sn x < next) ts ->
  segment_files (w_files (ld_world s)) -> ld_segments s = [] -> (clean = true -> X = []) ->
  extension dir <> DELETE_DIR_SUFFIX ->
  (forall ps' ts' segT s', ps' `suffix_of` ps -> ts' `suffix_of` ts -> ready dir w0 K ps' ts' s' ->
     opened_log psegs b seg pre es [] segT s' -> spares s s' -> Q (mkLogSequenceMetadata next (Some b) (Some (size_of es))) s') ->
  wp (Loader.load d isReadable dir clean) Q E s.
Proof.
  intros Hlo Hps Hts Hsf Hnil Hclean Hext HQ. unfold Loader.load. apply wp_bind.
  eapply (wp_removeTempFiles d isReadable dir Hshow w0 Hben K); [done|]. intros ps1 ts1 s1 Hps1 Hts1 Hlo1 Hb1.
  apply wp_bind. pose proof (segment_files_beside _ _ _ _ Hsf Hlo1 Hb1) as Hsf1.
  eapply (wp_loadSegmentFiles d isReadable dir Hshow w0 Hben K); [exact Hlo1|by apply reopened_files| |].
  { destruct Hb1 as [-> _]. done. }
  intros s2 Hlo2 Hfs2 Hs2. apply wp_bind, wp_gets. pose proof (reopened_log _ s2 Hsf1 Hfs2 Hs2) as Hol.
  apply wp_bind. rewrite Hs2. assert (Hne : Segments.empty (reopened (w_files (ld_world s1)) <$> segs) = false)
    by (by destruct psegs). rewrite Hne. cbn [negb].
  rewrite (proj2 (String.eqb_neq _ _) Hext).
  eapply (wp_recoverLog d isReadable dir Hshow w0 Hben K HK psegs b seg pre es next wx HR X tts Htorn Htts);
    [exact Hlo2| | |exact Hol|done|].
  - destruct Hps1 as [k ->]. by apply Forall_app in Hps as [_ ?].
  - destruct Hts1 as [k ->]. by apply Forall_app in Hts as [_ ?].
  - intros segT s3 Hrd3 Hol3 Hsp3. destruct (opened_log_rep _ _ _ _ _ _ _ _ HR _ _ Hol3) as (_ & Hlast & Hsz & Hb & _).
    apply wp_bind, wp_gets, wp_bind. eapply wp_defined; [unfold Segments.lastSegment; by rewrite Hlast|].
    apply wp_ret. cbn [snd]. rewrite Hsz, Hb. eapply HQ; [done|done|done|done|].
    eapply spares_trans; [by apply beside_spares|]. intros f Hf Hx.
    specialize (Hsp3 f Hf Hx). unfold spared in *. by rewrite Hfs2 in Hsp3.
Qed.

(** The loglet over the loaded log. *)
Record loaded (parent : string) (config : LogConfig) (l : Loglet) (s : loader) : Prop := {
  ld_rep : log_rep (ld_world s) l ess next;
  ld_dir : log_dir l = dir;
  ld_parent : parent_dir l = parent;
  ld_config : log_config l = config;
  ld_same : same_segments segs (segments l);
  ld_ts_ok : searchable (event_ts_sn_index l) /\ ids_below K (event_ts_sn_index l);
  ld_pos_ok : searchable (sn_pos_index l) /\ ids_below K (sn_pos_index l);
  ld_loading : exists ps ts, loading ps ts s;
  ld_doomed : to_delete l = [];
}.

Lemma wp_new_loglet parent config ps ts segT s (Q : Loglet -> loader -> Prop) E :
  ready dir w0 K ps ts s -> Forall (points segs ess) ps -> Forall (fun x => 0 <= timestamp x /\ ts_sn x < next) ts ->
  0 < next -> opened_log psegs b seg pre es [] segT s ->
  (forall l s', loaded parent config l s' -> spares s s' -> Q l s') ->
  wp (Loader.new_loglet d dir parent config (mkLogSequenceMetadata next (Some b) (Some (size_of es)))) Q E s.
Proof.
  intros Hrd Hps Hts Hn Hol HQ. unfold Loader.new_loglet. apply wp_bind.
  eapply (wp_loader_last_ts d isReadable dir Hshow w0 Hben K HK); [exact Hrd|]. intros s1 Hrd1 Hb1 Hts1.
  apply wp_bind, wp_gets, wp_ret.
  pose proof (opened_log_beside _ _ _ _ _ _ _ _ HR _ _ _ _ Hol Hb1) as Hol1.
  destruct (opened_log_rep _ _ _ _ _ _ _ _ HR _ _ Hol1) as (Hsegs & Hlast & _ & _ & Hpt).
  pose proof (rd_pos _ _ _ _ _ _ Hrd1) as Hpos1.
  apply HQ; [|by apply beside_spares]. split; cbn; try done.
  - split; cbn [log_dir segments]; [done| |split; cbn].
    + exists b, segT, es. by rewrite last_snoc.
    + exists ps. split; [apply Hpos1|]. eapply Forall_impl; [exact Hps|]. exact Hpt.
    + exists ts. split; [apply Hts1|]. assert (Hnn : Forall (fun x => 0 <= timestamp x) ts) by (eapply Forall_impl; [exact Hts|]; by intros x [? _]).
      pose proof (times_trimmed _ ts next _ (proj1 Hts1) Hnn Hn) as Htb. cbv zeta in Htb. rewrite filter_all in Htb; [done|]. eapply Forall_impl; [exact Hts|]. by intros x [_ ?].
  - by apply (opened_log_same [] segT).
  - apply Hts1.
  - apply Hpos1.
  - exists ps, ts. apply Hrd1.
Qed.

Lemma segment_files_index fs name c :
  last (list_ascii_of_string name) = Some "x"%char -> segment_files fs -> segment_files (<[name := c]> fs).
Proof.
  intros Hx [Hb Hl Ho]. assert (Hne : forall f, last (list_ascii_of_string f) = Some "g"%char -> <[name := c]> fs !! f = fs !! f).
  { intros f Hf. apply lookup_insert_ne. intros ->. congruence. }
  assert (Hg : forall x, x ∈ segs -> last (list_ascii_of_string (Segment.filename x.2)) = Some "g"%char).
  { intros x Hx'. destruct (segment_facts x Hx') as (-> & _). apply logFile_last. }
  split.
  - apply Forall2_same_length_lookup in Hb as [Hlen Hb]. apply Forall2_same_length_lookup. split; [done|].
    intros i x e Hi He. rewrite Hne; [by eapply Hb|]. apply Hg, elem_of_app. left. by eapply list_elem_of_lookup_2.
  - rewrite Hne; [done|]. apply (Hg (b, seg)), elem_of_app. right. by left.
  - intros f Hp Hf Hlog. apply Ho; [done| |done]. by rewrite Hne in Hf by (by apply log_last).
Qed.

(** Creating the file of another index. *)
Lemma stored_create {KV} `{!MonoKeyValue KV} c rest c' rest' K' x (es' : list KV) fs :
  c <> c' -> stored (dir +:+ String "/"%char (String c rest)) K' es' fs ->
  stored (dir +:+ String "/"%char (String c rest)) K' es' (<[dir +:+ String "/"%char (String c' rest') := x]> fs).
Proof.
  intros Hne Hst. eapply stored_frame; [exact Hst|]. intros f Hf. apply lookup_insert_ne. intros <-.
  eapply (index_files_apart dir c rest c' rest'); [done|exact Hf|apply prefix_refl].
Qed.

(** The files of the epoch index are not touched. *)
Lemma epochs_spared s s' (eps : list EpochSequence) ei :
  spares s s' -> available (epoch_file dir) (2 ^ 64) eps (MonoState (ld_world s) ei) ->
  available (epoch_file dir) (2 ^ 64) eps (MonoState (ld_world s') ei).
Proof.
  intros Hsp Hav. eapply available_frame; [exact Hav|]. intros f Hf. apply available_stored in Hav.
  destruct (Hsp f) as [|[Ht Hnone]]; [|..|done|].
  - split; [by apply epoch_not_ts|by apply epoch_not_pos].
  - intros x Hx ->. revert Hf. by apply (segment_file_not_index _ _ _ _ _ x "e"%char _ HR).
  - rewrite Hnone. destruct (w_files (ld_world s) !! f) eqn:Hs; [|done]. exfalso. revert Hf.
    eapply (stored_name (KV := EpochSequence)); [|exact Hav|by eexists|by apply temp_last|done|done].
    unfold epoch_file. by rewrite list_ascii_app, last_app.
Qed.

(** Log files do not appear. *)
Lemma only_spared parent config l s s' :
  spares s s' -> loaded parent config l s' -> only_segments dir (w_files (ld_world s)) segs ->
  only_segments (log_dir l) (w_files (ld_world s')) (segments l).
Proof.
  intros Hsp [_ Hd _ _ Hsame _ _ (ps & ts & Hlo) _] Ho. rewrite Hd. intros f Hp Hf Hlog.
  assert (Hin : forall x, x ∈ segs -> exists y, y ∈ segments l /\ Segment.filename x.2 = Segment.filename y.2).
  { intros x [i Hi]%list_elem_of_lookup. destruct (Forall2_lookup_l _ _ _ _ _ Hsame Hi) as (y & Hy & (_ & _ & _ & Hn)).
    exists y. split; [by eapply list_elem_of_lookup_2|done]. }
  destruct (decide (Exists (fun x => f = Segment.filename x.2) segs)) as [Hex|Hnex].
  { apply Exists_exists in Hex as (x & Hx & ->). right. by apply Hin. }
  destruct (Hsp f) as [Heq|[_ Hnone]].
  - eapply named_foreign; [exact Hlo|done|by apply log_last|done|done].
  - intros x Hx Heq. apply Hnex, Exists_exists. by exists x.
  - rewrite Heq in Hf. destruct (Ho f Hp Hf Hlog) as [|(x & Hx & ->)]; [by left|right; by apply Hin].
  - rewrite Hnone in Hf. by destruct Hf.
Qed.

(** What the log is that was opened. *)
Record started (sizeof_Entry : Z) (parent : string) (config : LogConfig) (lg : Log) (w' : world) : Prop := {
  sa_inv : log_inv sizeof_Entry [] K w' lg ess next;
  sa_evolves : evolves w0 w';
  sa_dir : log_dir (loglet lg) = dir;
  sa_parent : parent_dir (loglet lg) = parent;
  sa_config : log_config (loglet lg) = config;
  sa_segments : same_segments segs (segments (loglet lg));
  sa_start : Some (log_start_sn lg) = fst <$> head segs;
  sa_fresh : committed_sn lg = LogStartSN - 1 /\ committed_epoch lg = 0 /\ paused lg = false /\ Log.closed lg = false;
}.

Lemma wp_load_log sizeof_Entry parent config clean ei ti pi ps ts (eps : list EpochSequence) w
    (Q : log_state -> world -> Prop) E :
  loading ps ts (LoaderState w ti pi []) -> available (epoch_file dir) (2 ^ 64) eps (MonoState w ei) ->
  Forall (fun x => 1 <= epoch x) eps ->
  Forall (points segs ess) ps -> Forall (fun x => 0 <= timestamp x /\ ts_sn x < next) ts -> 0 < next /\ i64 next ->
  Forall (fun x => seg_id x.2 < K) segs ->
  segment_files (w_files w) -> (clean = true -> X = []) -> extension dir <> DELETE_DIR_SUFFIX -> runnable config ->
  (forall lg w', started sizeof_Entry parent config lg w' -> Q (LogState w' lg) w') ->
  wp (Loader.load_log d isReadable dir parent config clean ei ti pi) Q E w.
Proof.
  intros Hlo Hep Heps Hps Hts Hn Hids Hsf Hclean Hext Hrc HQ. set (s := LoaderState w ti pi []).
  assert (Hin : wp (bind (Loader.load d isReadable dir clean) (Loader.new_loglet d dir parent config))
    (fun l s' => loaded parent config l s' /\ spares s s') (fun _ _ => False) s).
  { apply wp_bind. eapply wp_load; try done; [by eapply Forall_impl; [exact Hts|intros x [_ ?]]|].
    intros ps' ts' segT s' [k ->] [k' ->] Hrd Hol Hsp.
    apply Forall_app in Hps as [_ Hps], Hts as [_ Hts]. eapply wp_new_loglet; [done|done|done|apply Hn|done|].
    intros l s'' Hl Hsp'. split; [done|]. by eapply spares_trans. }
  unfold wp in Hin. unfold wp, Loader.load_log. fold s. destruct (bind _ _ s) as [[l|x|x|] s']; [|done..].
  destruct Hin as [Hl Hsp]. pose proof Hl as [HL Hd Hp Hc Hsame [Ht1 Ht2] [Hp1 Hp2] (ps' & ts' & Hlo') Hdm].
  pose proof (lr_wf (lr_segs HL)) as [_ Hbase].
  destruct (Segments.firstSegment (segments l)) as [first|] eqn:Hfirst.
  2: { unfold Segments.firstSegment in Hfirst. destruct (segments l); [|done].
       by apply Forall2_nil_inv_r in Hsame; destruct psegs. }
  apply HQ. split; cbn; try done; [| |].
  - split; cbn.
    + split; try done; cbn; [|by eapply only_spared; [exact Hsp|exact Hl|apply Hsf]|rewrite Hc; apply Hrc|by rewrite Hdm].
      split; [lia|done|done|]. eapply same_forall; [|exact Hsame|exact Hids]. intros x y (_ & -> & _). done.
    + exists eps. split; [|done]. cbn. rewrite Hd. by apply (epochs_spared s).
    + rewrite Hc. split; [|constructor|done]. split; [apply consecutive_nil|done|apply Hrc].
  - apply Hlo'.
  - unfold Segments.firstSegment in Hfirst. destruct (segments l) as [|[b1 s1] tl]; [done|]. cbn in Hfirst. simplify_eq.
    apply Forall_cons in Hbase as [Hb1 _]. cbn in Hb1.
    destruct segs as [|[b2 s2] tl2] eqn:Hseg2; [by destruct psegs|]. apply Forall2_cons in Hsame as [(Hb2 & _) _]. cbn in *. congruence.
Qed.

Lemma wp_create_log sizeof_Entry parent config clean ps ts (eps : list EpochSequence) w (Q : log_state -> world -> Prop) E :
  evolves w0 w -> stored (pos_file dir) K ps (w_files w) -> stored (ts_file dir) K ts (w_files w) ->
  stored (epoch_file dir) (2 ^ 64) eps (w_files w) -> Forall (fun x => 1 <= epoch x) eps ->
  Forall (points segs ess) ps -> Forall (fun x => 0 <= timestamp x /\ ts_sn x < next) ts -> 0 < next /\ i64 next ->
  Forall (fun x => seg_id x.2 < K) segs ->
  segment_files (w_files w) -> (clean = true -> X = []) -> extension dir <> DELETE_DIR_SUFFIX -> runnable config ->
  (forall lg w', started sizeof_Entry parent config lg w' -> Q (LogState w' lg) w') ->
  wp (Loader.create d isReadable dir parent config clean) Q E w.
Proof.
  intros Hev Hpos Hts Hep Heps Hps Htl Hn Hids Hsf Hclean Hext Hrc HQ. unfold Loader.create. apply wp_bind.
  unfold Loader.throwing. apply wp_bind, wp_attempt. apply (wp_syscall w0); [done| |by intros e w1 ???].
  intros w1 Hev1 Hfs1. apply wp_ret, wp_ret. apply wp_bind. rewrite <- Hfs1 in Hpos, Hts, Hep, Hsf. clear Hfs1 w Hev.
  unfold EpochIndex.create, TsIndex.create, PosIndex.create.
  assert (Hx : forall a, last (list_ascii_of_string (dir +:+ a +:+ ".idx")) = Some "x"%char)
    by (intros; by rewrite !list_ascii_app, !last_app).
  pose proof Hrc as [_ Hm1 Hm2 Hm3 _].
  eapply (wp_index_create (epoch_file dir) w0 Hben (2 ^ 64) eps); [exact Hep|done|lia|].
  intros ei w2 Hev2 Hfs2 Hcl2. apply wp_bind. unfold epoch_file in Hfs2.
  eapply (stored_create _ _ "e"%char "poch-sn.idx") in Hpos, Hts; [|done..].
  eapply (segment_files_index _ (dir +:+ "/epoch-sn.idx")) in Hsf; [|apply (Hx "/epoch-sn")].
  rewrite <- Hfs2 in Hpos, Hts, Hsf.
  eapply (wp_index_create (ts_file dir) w0 Hben K ts); [exact Hts|done|lia|].
  intros ti w3 Hev3 Hfs3 Hcl. apply wp_bind. eapply (stored_create _ _ "t"%char "s-sn.idx") in Hpos; [|done].
  eapply (segment_files_index _ (dir +:+ "/ts-sn.idx")) in Hsf; [|apply (Hx "/ts-sn")].
  unfold ts_file in Hfs3. rewrite <- Hfs3 in Hpos, Hsf.
  eapply (wp_index_create (pos_file dir) w0 Hben K ps); [exact Hpos|done|lia|].
  intros pi w4 Hev4 Hfs4 Hcl4. eapply (segment_files_index _ (pos_file dir)) in Hsf; [|apply (Hx "/sn-pos")].
  rewrite <- Hfs4 in Hsf.
  eapply wp_load_log; [| |done..].
  - split; [done| |by left]. apply (available_frame _ _ _ w3); [by left|]. intros f Hf. cbn [ld_world]. rewrite Hfs4.
    apply lookup_insert_ne. intros <-. by apply (ts_not_pos dir (pos_file dir) Hf), prefix_refl.
  - apply (available_frame _ _ _ w2); [by left|]. intros f Hf. rewrite Hfs4, Hfs3, !lookup_insert_ne; [done|..]; intros <-.
    + by apply (epoch_not_ts dir _ Hf), prefix_refl.
    + by apply (epoch_not_pos dir _ Hf), prefix_refl.
Qed.
End Start.

(** ** Crashes *)

(** The files of a log that was killed: the first entries [b1] of a batch and the
    bytes [X] of the next one were written behind the last segment, and maybe a part of
    an entry behind an index. *)
Record killed (w : world) (l : Loglet) (b1 : list Entry) (X tp tt : list Z) (fs : gmap string (list Z)) : Prop := {
  ki_segment : exists b seg, last (segments l) = Some (b, seg) /\
    fs !! Segment.filename seg = (fun c => c ++ encode_entries b1 ++ X) <$> w_files w !! Segment.filename seg /\
    forall f, f <> Segment.filename seg -> f <> pos_name l -> f <> ts_name l -> fs !! f = w_files w !! f;
  ki_pos : fs !! pos_name l = (fun c => c ++ tp) <$> w_files w !! pos_name l;
  ki_ts : fs !! ts_name l = (fun c => c ++ tt) <$> w_files w !! ts_name l;
  ki_torn : (length tp < exactSerializedSize (KV := SequencePosition))%nat /\ (length tt < exactSerializedSize (KV := TimestampSequence))%nat;
}.

(** The files of a log that was killed in the middle of a retention: those of the
    first [k] segments were renamed. *)
Record renamed (w : world) (l : Loglet) (k : nat) (fs : gmap string (list Z)) : Prop := {
  rn_some : (k < length (segments l))%nat;
  rn_gone : Forall (fun seg => fs !! Segment.filename seg = None) (take k (segments l)).*2;
  rn_rest : forall f, ~ deleted_files (take k (segments l)).*2 f -> fs !! f = w_files w !! f;
}.

(** The entries that were written continue the log. *)
Record continues (l : Loglet) (b1 : list Entry) (next : Z) (X : list Z) : Prop := {
  cn_entries : Forall (fun e => sized e /\ meta_fits e) b1;
  cn_sn : sn <$> b1 = seqZ next (Z.of_nat (length b1));
  cn_small : forall b seg, last (segments l) = Some (b, seg) -> Segment.size seg + size_of b1 < 2 ^ 36;
  cn_next : i64 (next + Z.of_nat (length b1));
  cn_torn : exists tts, torn X tts /\ Forall (fun e => sn e = next + Z.of_nat (length b1)) tts;
}.

Lemma stored_torn {KV} `{!MonoKeyValue KV} `{!MonoKeyValueLaws KV} name K (es : list KV) w ix t fs :
  opened name K es (MonoState w ix) -> (length t < exactSerializedSize (KV := KV))%nat ->
  fs !! name = (fun c => c ++ t) <$> w_files w !! name ->
  (forall f, belongs name f -> f <> name -> fs !! f = w_files w !! f) -> stored name K es fs.
Proof.
  intros ([(rs & cur & HR & _ & Hc) Hv _] & Hse & Hid) Ht Hn Hfs. split; [|done]. exists rs, cur, t.
  rewrite (searchable_spec _ _ _ _ HR) in Hse. rewrite (ids_below_spec _ _ _ _ _ HR) in Hid.
  assert (Hf : w_files w !! name = Some (encode cur)).
  { pose proof HR as [_ _ _ _ (_ & _ & Hf) Hnm _ _]. cbn in Hf. by rewrite <- Hnm. }
  destruct (rep_on_disk _ _ _ _ HR) as [Hwf Hr Htd _ _]. split_and!; try done. cbn in Hr, Htd. split; try done.
  - eapply Forall_impl; [exact Hr|]. cbn. intros r Hr'. rewrite Hfs; [done|apply belongs_segment, prefix_refl|].
    apply segmentLogPath_ne.
  - intros f Hf' Hp. destruct (decide (f = name)) as [->|Hne]; [by left|]. rewrite Hfs in Hf' by done. by apply Htd.
  - left. by rewrite Hn, Hf.
Qed.

(** The segment [seg] as it is when its file has [n] bytes. *)
Definition resized (n : Z) (seg : LogSegment) : LogSegment := Segment.set_log (Fle.set_bytes n (log seg)) seg.

Lemma index_not_log dir a f : isLogFile (path_filename f) = true -> f <> dir +:+ a +:+ ".idx".
Proof. intros Hl%log_last ->. by rewrite !list_ascii_app, !last_app in Hl. Qed.

(** What is left is the log without these segments. *)
Lemma renamed_inv sizeof_Entry old K w lg ess next k fs :
  log_inv sizeof_Entry old K w lg ess next -> renamed w (loglet lg) k fs ->
  log_inv sizeof_Entry (old ++ take k ess) K (World fs [])
    (set_loglet (set_segments (drop k (segments (loglet lg))) (loglet lg)) lg) (drop k ess) next.
Proof.
  intros [Hcore (eps & Hav & Heps) Hc] [Hk Hgone Hrest]. pose proof (Forall2_length _ _ _ (lr_files (lc_rep _ _ _ _ _ Hcore))) as Hlen.
  destruct (core_marked K w (loglet lg) (take k (segments (loglet lg))) (drop k (segments (loglet lg))) (take k ess) (drop k ess) next
    (World fs [])) as [Hcore' Hix]; try done.
  - by rewrite take_drop.
  - by rewrite take_drop.
  - rewrite !length_take. lia.
  - intros Heq%(f_equal length). rewrite length_drop in Heq. cbn in Heq. lia.
  - split; [done| |cbn; by rewrite <- app_assoc, take_drop]. exists eps. split; [|done]. eapply available_frame; [exact Hav|].
    intros f Hf. by apply (Hix "e"%char "poch-sn.idx").
Qed.

Section Crash.
Context (sizeof_Entry K : Z) (w : world) (lg : Log) (psegs : LogSegments) (b : Z) (seg : LogSegment).
Context (pre : list (list Entry)) (es b1 : list Entry) (next : Z) (X tp tt : list Z) (fs : gmap string (list Z)).
Context (old : list (list Entry)) (Hinv : log_inv sizeof_Entry old K w lg (pre ++ [es]) next) (HK : 2 <= K).
Context (Hsegs : segments (loglet lg) = psegs ++ [(b, seg)]).
Context (Hki : killed w (loglet lg) b1 X tp tt fs) (Hcn : continues (loglet lg) b1 next X).
Local Abbreviation l := (loglet lg).
Local Abbreviation seg' := (resized (size_of (es ++ b1)) seg).
Local Abbreviation segs' := (psegs ++ [(b, seg')]).

Lemma killed_same : same_segments (segments l) segs'.
Proof. rewrite Hsegs. apply Forall2_app; [|by constructor]. apply Forall_Forall2_diag, Forall_forall. by intros. Qed.

Lemma killed_last : last_segment w (log_dir l) b seg es next.
Proof.
  pose proof (lr_segs (lc_rep _ _ _ _ _ Hinv)) as HR. rewrite Hsegs in HR. by apply segs_rep_snoc in HR as (_ & _ & ?).
Qed.

Lemma killed_seg : fs !! Segment.filename seg = Some (encode_entries (es ++ b1) ++ X) /\
  forall f, f <> Segment.filename seg -> f <> pos_name l -> f <> ts_name l -> fs !! f = w_files w !! f.
Proof.
  destruct (ki_segment _ _ _ _ _ _ _ Hki) as (b' & s & Hl & Hf & H). rewrite Hsegs, last_snoc in Hl. injection Hl as <- <-.
  split; [|done]. rewrite Hf, (segment_on_filename _ _ _ (la_file killed_last)). cbn.
  by rewrite encode_entries_app, <- app_assoc.
Qed.

Lemma killed_segs :
  segs_rep (World (<[Segment.filename seg := encode_entries (es ++ b1)]> fs) []) (log_dir l) segs' (pre ++ [es ++ b1])
    (next + Z.of_nat (length b1)).
Proof.
  pose proof (lr_segs (lc_rep _ _ _ _ _ Hinv)) as HR. rewrite Hsegs in HR. destruct killed_seg as [_ Hfs].
  pose proof killed_last as Hla. destruct Hcn.
  assert (Hsm : size_of (es ++ b1) < 2 ^ 36).
  { rewrite size_of_app. pose proof (segment_on_size _ _ _ (la_file Hla)) as Hsz. fold (size_of es) in Hsz.
    rewrite <- Hsz. apply (cn_small0 b). by rewrite Hsegs, last_snoc. }
  assert (HR' : segs_rep (World (<[Segment.filename seg := encode_entries es]> fs) []) (log_dir l) (psegs ++ [(b, seg)]) (pre ++ [es]) next).
  { eapply segs_rep_frame; [exact HR|]. intros x Hx. cbn. destruct (decide (Segment.filename x.2 = Segment.filename seg)) as [->|Hne].
    - rewrite lookup_insert_eq. symmetry. by apply segment_on_filename, Hla.
    - rewrite lookup_insert_ne by done. apply Hfs; [done|..]; intros Heq;
        [apply (segment_file_not_index _ _ _ _ _ x "s"%char "n-pos.idx" HR Hx)|apply (segment_file_not_index _ _ _ _ _ x "t"%char "s-sn.idx" HR Hx)];
        try done; rewrite Heq; apply prefix_refl. }
  eapply segs_rep_grow; [exact HR'|done|done|done| | |done|done|done].
  - pose proof (la_file Hla) as [(? & ? & ?) ? ? ? ?]. split; try done. split_and!; [done|done|]. cbn. apply lookup_insert_eq.
  - intros f Hf. cbn. by rewrite !lookup_insert_ne.
Qed.

Lemma killed_only : only_segments (log_dir l) fs segs'.
Proof.
  intros f Hp Hf Hlog. destruct killed_seg as [_ Hfs].
  destruct (decide (f = Segment.filename seg)) as [->|Hne]; [right; exists (b, seg'); split; [apply elem_of_app; right; by left|done]|].
  rewrite Hfs in Hf; [|done|by apply (index_not_log _ "/sn-pos")|by apply (index_not_log _ "/ts-sn")].
  destruct (lc_only _ _ _ _ _ Hinv f Hp Hf Hlog) as [|(x & Hx & ->)]; [by left|right].
  rewrite Hsegs in Hx. apply (snoc_named _ _ _ seg') in Hx as (x' & Hx' & Hn); [|done]. by exists x'.
Qed.

Lemma killed_index c rest f :
  belongs (log_dir l +:+ String "/"%char (String c rest)) f -> char_digit c = None -> f <> pos_name l -> f <> ts_name l ->
  fs !! f = w_files w !! f.
Proof.
  intros Hf Hc Hn1 Hn2. destruct killed_seg as [_ Hfs]. apply Hfs; [|done|done]. intros ->.
  pose proof (lr_segs (lc_rep _ _ _ _ _ Hinv)) as HR. rewrite Hsegs in HR. revert Hf.
  apply (segment_file_not_index _ _ _ _ _ (b, seg) c rest HR); [apply elem_of_app; right; by left|done].
Qed.

(** The log can be started again. *)
Lemma crash_stopped : stopped K (log_dir l) fs segs' (pre ++ [es ++ b1]) (next + Z.of_nat (length b1)) X.
Proof.
  pose proof (lc_rep _ _ _ _ _ Hinv) as HL. pose proof (lr_segs HL) as HR. rewrite Hsegs in HR. destruct Hcn.
  destruct (lr_pos HL) as (ps & Hps & Hpt). destruct (lr_ts HL) as (ts & Hts & Htb).
  pose proof (lc_below _ _ _ _ _ Hinv) as [_ Hbt Hbp Hbs]. rewrite Hsegs in Hpt, Hbs.
  split.
  - exists psegs, b, seg', pre, (es ++ b1). split_and!; [done|done|apply killed_seg|apply killed_segs].
  - done.
  - apply killed_only.
  - exists ps. split; [|eapply Forall_impl; [exact Hpt|]; intros x; by apply (points_grow _ _ _ _ _ _ _ _ HR)].
    eapply stored_torn; [split_and!; [exact Hps|apply Hinv|done]|exact (proj1 (ki_torn _ _ _ _ _ _ _ Hki))|exact (ki_pos _ _ _ _ _ _ _ Hki)|].
    intros f Hf Hne. eapply (killed_index "s"%char); [exact Hf|done|done|]. intros ->.
    by apply (pos_not_ts (log_dir l) _ Hf), prefix_refl.
  - exists ts. split.
    + eapply stored_torn; [split_and!; [exact Hts|apply Hinv|done]|exact (proj2 (ki_torn _ _ _ _ _ _ _ Hki))|exact (ki_ts _ _ _ _ _ _ _ Hki)|].
      intros f Hf Hne. eapply (killed_index "t"%char); [exact Hf|done| |done]. intros ->.
      by apply (ts_not_pos (log_dir l) _ Hf), prefix_refl.
    + destruct Htb as [Hb _ Hn _ Hnn]. rewrite Forall_forall in Hb, Hnn |- *. intros x Hx. split; [by apply Hnn|].
      destruct (Hb x Hx) as [->|[_ ?]]; lia.
  - destruct (li_epochs _ _ _ _ _ _ _ Hinv) as (eps & Hav & Heps). exists eps. split; [|done].
    eapply stored_frame; [exact (available_stored _ _ _ _ Hav)|]. intros f Hf.
    eapply (killed_index "e"%char); [exact Hf|done|..]; intros ->;
      [by apply (epoch_not_pos (log_dir l) _ Hf), prefix_refl|by apply (epoch_not_ts (log_dir l) _ Hf), prefix_refl].
  - split; [done|]. eapply (same_forall (fun x => seg_id x.2 < K)); [|apply killed_same|by rewrite Hsegs].
    intros x y (_ & -> & _). done.
  - pose proof (lc_next _ _ _ _ _ Hinv). split; [lia|done].
Qed.
End Crash.

Lemma stopped_files dir fs psegs b seg pre es next X :
  segs_rep (World (<[Segment.filename seg := encode_entries es]> fs) []) dir (psegs ++ [(b, seg)]) (pre ++ [es]) next ->
  fs !! Segment.filename seg = Some (encode_entries es ++ X) -> only_segments dir fs (psegs ++ [(b, seg)]) ->
  segment_files dir psegs b seg pre es X fs.
Proof.
  intros HR Hf Ho. split; [|done|done]. pose proof HR as HR'. apply segs_rep_snoc in HR' as (HP & _ & _).
  pose proof (lr_files HP) as Hfs. apply Forall2_same_length_lookup in Hfs as [Hlen Hfs].
  apply Forall2_same_length_lookup. split; [done|]. intros i x c Hi Hc. specialize (Hfs i x c Hi Hc).
  apply segment_on_filename in Hfs. cbn in Hfs. rewrite lookup_insert_ne in Hfs; [done|]. apply not_eq_sym.
  eapply segment_file_apart; [exact HR|]. by eapply list_elem_of_lookup_2.
Qed.

(** The log [lg] has the segments [segs] with the entries [ess], and nothing is
    committed yet. *)
Record restarted (sizeof_Entry K : Z) (dir : string) (config : LogConfig) (segs : LogSegments) (ess : list (list Entry))
    (next : Z) (w0 : world) (lg : Log) (w : world) : Prop := {
  rs_inv : log_inv sizeof_Entry [] K w lg ess next;
  rs_evolves : evolves w0 w;
  rs_dir : log_dir (loglet lg) = dir;
  rs_config : log_config (loglet lg) = config;
  rs_segments : same_segments segs (segments (loglet lg));
  rs_start : Some (log_start_sn lg) = fst <$> head segs;
  rs_fresh : committed_sn lg = LogStartSN - 1 /\ committed_epoch lg = 0 /\ paused lg = false /\ Log.closed lg = false;
}.

Lemma stopped_start sizeof_Entry d isReadable K dir w segs ess next X parent config clean :
  shown d isReadable dir -> benign w -> stopped K dir (w_files w) segs ess next X ->
  (clean = true -> X = []) -> extension dir <> DELETE_DIR_SUFFIX -> runnable config ->
  exists lg w', Loader.create d isReadable dir parent config clean w = (Ok (LogState w' lg), w') /\
    restarted sizeof_Entry K dir config segs ess next w lg w'.
Proof.
  intros Hshow Hb [(psegs & b & seg & pre & es & -> & -> & Hf & HR) (tts & Htorn & Htts) Ho (ps & Hp & Hpt) (ts & Ht & Htl)
    (eps & He & Hel) [HK Hids] Hn] Hclean Hext Hrc.
  destruct (wp_total (Loader.create d isReadable dir parent config clean)
    (fun st w' => exists lg, st = LogState w' lg /\ started dir w K psegs b seg pre es next sizeof_Entry parent config lg w') w)
    as (st & w' & Hrun & lg & -> & []).
  - eapply (wp_create_log d isReadable dir Hshow w Hb K HK psegs b seg pre es next _ HR X tts Htorn Htts);
      [done|exact Hp|exact Ht|exact He|done|done|done|done|done|by eapply stopped_files|done|done|done|].
    intros lg w' Hst. by exists lg.
  - by exists lg, w'.
Qed.

(** ** Properties *)



(** ** Witnesses *)

(** The files of a directory. *)
Definition directory_listing (dir : string) (fs : gmap string (list Z)) : list string :=
  filter (fun f => String.prefix (dir +:+ "/") f = true) (map_to_list fs).*1.
Definition readable_directory (dir : string) : directory := mkDirectory true true (directory_listing dir).

Lemma readable_directory_shown dir : shown (readable_directory dir) (fun _ => true) dir.
Proof.
  split; try done.
  - intros fs. unfold readable_directory, directory_listing. cbn. split; [apply list.NoDup_filter, NoDup_fst_map_to_list|].
    intros f Hp. rewrite list_elem_of_filter, list_elem_of_fmap. split.
    + intros (_ & [f' c] & -> & Hin). apply elem_of_map_to_list in Hin. by exists c.
    + intros [c Hc]. split; [done|]. exists (f, c). split; [done|]. by apply elem_of_map_to_list.
  - intros fs f Hf. by apply list_elem_of_filter in Hf as [? _].
Qed.

Definition small_torn : list Z := take 20 (serialize_to (small_entry 46 [7; 8; 9; 10])).

Lemma small_torn_ok : torn small_torn [small_entry 46 [7; 8; 9; 10]].
Proof.
  constructor; [apply serialize_sized; first [split; vm_compute; split; congruence|vm_compute; split; congruence]|..];
    vm_compute; lia.
Qed.

Lemma small_only : only_segments "d" small_files small_segments.
Proof.
  intros f _ [c Hf] Hlog. right. unfold small_files in Hf.
  apply lookup_insert_Some in Hf as [[<- _]|[_ Hf]]; [by eexists (42, _); split; [left|]|].
  apply lookup_insert_Some in Hf as [[<- _]|[_ Hf]]; [by eexists (44, _); split; [right; left|]|].
  do 2 (apply lookup_insert_Some in Hf as [[<- _]|[_ Hf]]; [done|]).
  by apply lookup_singleton_Some in Hf as [<- _].
Qed.

(** The log over the small loglet; its epoch index was not used yet. *)
Definition small_log : Log :=
  Lg.create 42 (MonoMap 4096 [] (mkAppendOnlyFile "d/epoch-sn.idx" false true) 0 false []) small_loglet.

Lemma small_inv script : log_inv 64 [] 3 (World small_files script) small_log small_entries 45.
Proof.
  split.
  - split; [apply small_rep|by left|by left| |apply small_only|by split; vm_compute|by split; vm_compute|constructor].
    split; [lia|constructor|constructor|repeat constructor].
  - exists []. split; [|constructor]. left. split; [|by eexists|split; try done|cbn; lia].
    + split; [|constructor]. exists [], [], []. split_and!; [|done|by right|constructor]. split; try done.
      * split; try constructor.
      * constructor.
      * intros f [c Hf] Hp. left. cbn in Hf. unfold small_files in Hf.
        do 3 (apply lookup_insert_Some in Hf as [[<- _]|[_ Hf]]; [done|]).
        apply lookup_insert_Some in Hf as [[<- _]|[_ Hf]]; [done|]. by apply lookup_singleton_Some in Hf as [<- _].
      * cbn. lia.
      * by left.
  - split; [|constructor|done]. split; [apply consecutive_nil|done|by vm_compute].
Qed.

Lemma runnable_default : runnable default_LogConfig.
Proof. by split; [split|..]; vm_compute. Qed.

(** What is in the files when the log is killed behind the first entry of a batch. *)
Definition killed_files : gmap string (list Z) :=
  <[logFile "d" 2 44 EmptyString := encode_entries [small_entry 44 [6]; small_entry 45 [9]] ++ small_torn]>
  (<["d/ts-sn.idx" := encode small_ts ++ [1; 2; 3]]> small_files).

Lemma small_killed : killed (World small_files []) small_loglet [small_entry 45 [9]] small_torn [] [1; 2; 3]
  killed_files.
Proof.
  split; [eexists _, _; split; [done|split; [done|]]|by vm_compute|by vm_compute|vm_compute; lia].
  intros f H1 _ H3. unfold killed_files. by rewrite !lookup_insert_ne.
Qed.

Lemma small_continues : continues small_loglet [small_entry 45 [9]] 45 small_torn.
Proof.
  split; [|done|by intros b seg [= <- <-]; vm_compute|by vm_compute|].
  - constructor; [small_entry_ok|constructor].
  - eexists. split; [apply small_torn_ok|]. repeat constructor.
Qed.


