(* ===== verification/Sessions.v ===== *)
(** * Sessions of a log

    A server opens the directory of a log, serves clients, and is killed; the next one
    opens what is left.  The log seen by the clients is the one [LogRefine] specifies,
    in every session and from one to the next. *)

From Stdlib Require Import Ascii String.
From S2P Require Import Prelude Ordered Os AppendOnlyFile Frame Codec KeyValues Names MonoMap MonoMapFrame.
From S2P Require Import MonoMapLoad MonoMapRep MonoMapUpdate MonoMapRecover Entry FileLogEntries FleSpec.
From S2P Require Import SegmentNames LogConfig LogSegment SegmentSpec LogSegments LogTypes LogEntryCache CacheProps.
From S2P Require Import IndexSpec IndexOpen Indexes Loglet Log LogLoader LogletRep LogletFetch LogletAppend LogletRoll.
From S2P Require Import LogExample StartSpec LogSpec LogWrite LogRead LogRetain LogRefine StartRecover StartProps.

Local Open Scope Z_scope.

(** The log as it is when it was opened. *)
Definition opened_alog (K : Z) (ess : list (list Entry)) (next : Z) : alog :=
  mkALog (first_sn ess next) (concat ess) [] (first_sn ess next) (LogStartSN - 1) 0 false [] K.

Lemma opened_next K ess next : al_next (opened_alog K ess next) = next.
Proof. unfold al_next, opened_alog, first_sn. cbn. lia. Qed.

Lemma restarted_sim sizeof_Entry d isReadable K dir config segs ess next w lg w' :
  shown d isReadable dir -> restarted sizeof_Entry K dir config segs ess next w lg w' ->
  sim d sizeof_Entry w config dir (opened_alog K ess next) (LogState w' lg) [] ess.
Proof.
  intros Hshow [Hinv Hev Hd Hc Hsame Hstart (H1 & H2 & H3 & _)].
  pose proof (log_rep_numbers _ _ _ _ (lc_rep _ _ _ _ _ Hinv)) as [Hfirst Hnum].
  split; rewrite ?opened_next; cbn; try done.
  - destruct segs as [|x segs], (segments (loglet lg)) as [|y segs']; try done.
    apply Forall2_cons in Hsame as [(Hb & _) _]. cbn in *. congruence.
  - apply Hshow.
  - pose proof (lc_next _ _ _ _ _ Hinv). unfold LogStartSN. lia.
Qed.

(** Ids are given out, not taken back. *)
Lemma ids_write c w a : al_ids a <= al_ids (spec_write c w a).2.
Proof.
  assert (Hc : forall epoch n a, al_ids (al_commit epoch n a) = al_ids a)
    by (clear; intros epoch n a; unfold al_commit; by destruct (_ || _)).
  destruct w; cbn; try done; [unfold rounds; lia| |by rewrite Hc].
  destruct (al_paused a); [done|]. destruct (_ <? _); [done|]. cbn [snd]. rewrite Hc. cbn. lia.
Qed.

Lemma ids_step c a o r a' : spec_step c a o r a' -> al_ids a <= al_ids a'.
Proof.
  intros [w|others target max_size wait hint isolation r' code a1 _ _ _|lm now applied m gone rest _ _ _|]; [apply ids_write| |done|done]. cbn.
  unfold a1, fetch_log. destruct (_ || _ || _); [done|]. unfold spec_writes. clear. revert a.
  induction others as [|w ws IH]; intros a; [done|]. etransitivity; [apply (ids_write c w)|apply IH].
Qed.

Lemma ids_runs c cl a0 n answers a : spec_runs c cl a0 n answers a -> al_ids a0 <= al_ids a.
Proof. induction 1; [done|]. etransitivity; [done|by eapply ids_step]. Qed.

(** A crash of a log that implements [a], after the files of its first [k] segments
    were renamed. *)
Lemma sim_crash d sizeof_Entry w0 c dir a s old ess k fs1 b1 X tp tt fs :
  sim d sizeof_Entry w0 c dir a s old ess -> 2 <= al_ids a ->
  renamed (lg_world s) (loglet (lg_log s)) k fs1 -> killed (World fs1 []) (loglet (lg_log s)) b1 X tp tt fs ->
  continues (loglet (lg_log s)) b1 (al_next a) X ->
  exists segs' ess' gone rest, stopped (al_ids a) dir fs segs' ess' (al_next a + Z.of_nat (length b1)) X /\
    al_entries a = gone ++ rest /\ concat ess' = rest ++ b1 /\ (k = 0%nat -> gone = []) /\
    (forall y, segments (loglet (lg_log s)) !! k = Some y -> Forall (fun e => sn e < y.1) gone).
Proof.
  intros Hs HK Hrn [Hseg Hpos Hts Htorn] [Hen Hsn Hsm Hnx Htt]. pose proof (si_inv _ _ _ _ _ _ _ _ _ Hs) as Hinv.
  pose proof (renamed_inv _ _ _ _ _ _ _ _ _ Hinv Hrn) as Hinv'. set (l' := set_segments _ _) in Hinv'.
  assert (Hlast : last (segments l') = last (segments (loglet (lg_log s)))).
  { change (last (drop k (segments (loglet (lg_log s)))) = last (segments (loglet (lg_log s)))).
    rewrite <- (take_drop k (segments (loglet (lg_log s)))) at 2. rewrite last_app.
    destruct (last (drop k _)) eqn:Hl; [done|]. apply last_None, (f_equal length) in Hl. rewrite length_drop in Hl.
    pose proof (rn_some _ _ _ _ Hrn). cbn in Hl. lia. }
  destruct (log_active _ _ _ _ (lc_rep _ _ _ _ _ Hinv')) as (psegs & b & seg & pre & es & Hsegs & Hess). rewrite Hess in Hinv'.
  assert (Hstop := crash_stopped sizeof_Entry (al_ids a) (World fs1 []) (set_loglet l' (lg_log s)) psegs b seg pre es b1 (al_next a)
    X tp tt fs (old ++ take k ess) Hinv' HK Hsegs). cbn [loglet set_loglet] in Hstop.
  eexists _, _, (concat (take k ess)), (concat (drop k ess)).
  split; [rewrite <- (si_dir _ _ _ _ _ _ _ _ _ Hs); apply Hstop; split; try done; by rewrite Hlast|].
  split_and!.
  - by rewrite <- concat_app, take_drop, (si_entries _ _ _ _ _ _ _ _ _ Hs).
  - rewrite Hess, !concat_app. cbn. by rewrite !app_nil_r, app_assoc.
  - by intros ->.
  - intros y Hy. eapply taken_below; [apply (lc_rep _ _ _ _ _ Hinv)|done].
Qed.

(** ** Properties *)

(** C1. The log implements its specification: for every client that keeps to the
    rules, whatever it decides from the answers it gets, the operations of [Log] run
    to their end on files, indexes and cache, and the answers and the final log are
    ones the abstract log allows.  Entries appended are there from then on with the
    numbers they were given, until retention deletes them from the head of the log,
    only below the applied sequence it was given; a fetch answers with the entries
    from its target on, in order and without gaps, below the committed sequence for
    consumers and below the end of the log otherwise, at least one when there is one,
    also with a hint that is older than appends and deletions; the committed sequence
    does not go back or beyond the end. *)
Theorem log_refines_spec d sizeof_Entry w0 c dir a s old ess cl n :
  dir_there d = true -> dir_is_directory d = true -> benign w0 ->
  sim d sizeof_Entry w0 c dir a s old ess -> well_behaved c cl a ->
  exists answers s' a' old' ess', run_client d sizeof_Entry n cl [] s = (Ok answers, s') /\
    spec_runs c cl a n answers a' /\ sim d sizeof_Entry w0 c dir a' s' old' ess'.
Proof.
  intros Hth Hd Hb Hs Hwb.
  destruct (wp_total (run_client d sizeof_Entry n cl [])
    (fun answers s' => exists a' old' ess', spec_runs c cl a n answers a' /\ sim d sizeof_Entry w0 c dir a' s' old' ess') s)
    as (answers & s' & Hrun & a' & old' & ess' & Hr & Hs').
  - eapply (wp_run_client d sizeof_Entry Hth Hd w0 Hb); [exact Hwb|apply runs_start|exact Hs|].
    intros answers a' s' old' ess' Hr Hs'. rewrite Nat.add_0_r in Hr. eauto 10.
  - eauto 10.
Qed.


(** ** Witnesses *)

(** A client that appends two entries, commits the first, reads them with the hint of
    its first fetch after old segments were deleted, and has their files removed. *)
Definition raw_entry (n : Z) (bytes : list Z) : Entry := mkEntry 0 7 1 300 1700000000000 (-5) n EntryType_Normal bytes.

Definition small_client (next : Z) : client := fun answers =>
  match length answers with
  | 0%nat => Write (Append [raw_entry next [1; 2]; raw_entry (next + 1) [3]])
  | 1%nat => Write (Advance 1 next)
  | 2%nat => Fetch [Advance 1 (next + 1)] EarliestSN 1000 10 None Committed
  | 3%nat => Retain (fun _ => Some 0) 1700000000000 next
  | 4%nat =>
      match answers !! 2%nat with
      | Some (Fetched r _) => Fetch [] (fh_sn (fetch_hint r)) 1000 0 (Some (fetch_hint r)) LogEnd
      | _ => Write Pause
      end
  | _ => Background
  end.

Lemma runs_length c cl a0 n answers a : spec_runs c cl a0 n answers a -> length answers = n.
Proof. induction 1; [done|]. rewrite length_app. cbn. lia. Qed.

Lemma small_append_fits next :
  next = 45 \/ next = 46 -> append_fits default_LogConfig next [raw_entry next [1; 2]; raw_entry (next + 1) [3]].
Proof.
  intros [-> | ->]; (split; [done| |done| |by vm_compute]).
  2, 4: intros [|k]; [by vm_compute|]; cbn [Nat.mul]; rewrite drop_ge; [by vm_compute|]; unfold IOV_MAX; cbn [length]; lia.
  all: repeat (apply Forall_cons; split); try (by apply Forall_nil); (split; [split; vm_compute; split; congruence|vm_compute; lia]).
Qed.

Lemma next_commit epoch n a : al_next (al_commit epoch n a) = al_next a.
Proof. unfold al_commit. by destruct (_ || _). Qed.

(** The step before. *)
Ltac step_back Hr :=
  let Hr' := fresh "Hr" in let Hstep := fresh "Hstep" in let Hl := fresh "Hl" in
  inversion Hr as [|? ? ? ? ? Hr' Hstep]; clear Hr; subst;
  pose proof (runs_length _ _ _ _ _ _ Hr') as Hl; unfold small_client in Hstep; rewrite Hl in Hstep;
  inversion Hstep; clear Hstep; subst; rename Hr' into Hr.

Lemma small_client_behaved a0 :
  al_next a0 = 45 \/ al_next a0 = 46 -> al_ids a0 < 2 ^ 27 -> well_behaved default_LogConfig (small_client (al_next a0)) a0.
Proof.
  intros Hn Hids n answers a Hr. pose proof (runs_length _ _ _ _ _ _ Hr) as Hlen. unfold small_client. rewrite Hlen.
  destruct n as [|[|[|[|[|n]]]]]; try done.
  - inversion Hr; subst. split; [by apply small_append_fits|]. change (rounds _) with 1. lia.
  - step_back Hr. step_back Hr. step_back Hr. inversion Hr; subst. cbn [op_fits].
    change (al_next a' < 2 ^ 63 - 1). unfold a', fetch_log, spec_writes. cbn [foldl]. destruct (_ || _ || _);
      cbn [snd spec_write]; rewrite ?next_commit, next_grow; cbn; lia.
  - step_back Hr. step_back Hr. pose proof (runs_length _ _ _ _ _ _ Hr) as Hl2. rewrite <- app_assoc, lookup_app_r by lia.
    rewrite Hl2. cbn. split_and!; [done|done|]. intros h [= <-]. left.
Qed.

Definition small_alog : alog := opened_alog 3 small_entries 45.

Lemma small_sim script :
  sim (readable_directory "d") 64 (World small_files script) default_LogConfig "d" small_alog
    (LogState (World small_files script) small_log) [] small_entries.
Proof.
  split; try done; [apply small_inv|apply (readable_directory_shown "d")].
Qed.

Lemma log_refines_spec_witness :
  exists answers s' a' old' ess',
    run_client (readable_directory "d") 64 5 (small_client 45) [] (LogState (World small_files [SysShort 3]) small_log)
    = (Ok answers, s') /\
    spec_runs default_LogConfig (small_client 45) small_alog 5 answers a' /\
    sim (readable_directory "d") 64 (World small_files [SysShort 3]) default_LogConfig "d" a' s' old' ess'.
Proof.
  apply (log_refines_spec (readable_directory "d") 64 (World small_files [SysShort 3]) default_LogConfig "d" small_alog
    (LogState (World small_files [SysShort 3]) small_log) [] small_entries (small_client 45) 5).
  - reflexivity.
  - reflexivity.
  - repeat constructor.
  - apply small_sim.
  - apply (small_client_behaved small_alog); [by left|cbn; lia].
Defined.

