(* ===== verification/LogletProps.v ===== *)
(** * Correctness of the loglet

    The operations of a log of segments as functions of its contents: fetching,
    appending, rolling and trimming, run on a small log. *)

From Stdlib Require Import String.
From S2P Require Import Prelude Ordered Os AppendOnlyFile Codec KeyValues MonoMap MonoMapFrame MonoMapLoad.
From S2P Require Import MonoMapRep MonoMapProps Entry FileLogEntries FleSpec SegmentNames LogConfig.
From S2P Require Import LogSegment SegmentSpec LogSegments LogTypes IndexSpec Indexes Loglet LogletRep.
From S2P Require Import LogletFetch LogletAppend LogletRoll LogletTrim LogExample.

Local Open Scope Z_scope.



(** The result of an append: the log with the batch behind its entries, or an error
    after which the log is as before when nothing was written. *)
Definition append_outcome (w : world) (l : Loglet) (seg : LogSegment) pre es batch next
    (r : res (nat * Z)) (s' : loglet_state) : Prop :=
  (exists a, r = Ok a /\ append_result w w l seg pre es batch next a s') \/
  (faulted r /\ ~ benign w /\ segs_rep (ls_world s') (log_dir l) (segments (ls_loglet s'))
                             (pre ++ [es ++ batch]) (next + Z.of_nat (length batch))).


Lemma small_batch_ok : batch_ok [small_entry 44 [6]] [small_entry 45 [7; 8]; small_entry 46 []] 45.
Proof.
  split; [done| |reflexivity|vm_compute; done].
  repeat (apply Forall_cons; split); try (by apply Forall_nil); small_entry_ok.
Qed.


(** What was appended can be fetched: the first of the batch is found at the old end
    of the log. *)
Lemma wp_fetch_appended d w l pre es batch next max_size :
  log_rep w l (pre ++ [es ++ batch]) (next + Z.of_nat (length batch)) -> batch_ok es batch next ->
  searchable (sn_pos_index l) -> 0 < max_size -> benign w ->
  exists r s', Lglt.fetch d next max_size (next_sn_meta l) None (LogletState w l) = (Ok (r, 0), s') /\
    fr_entries r = take_entries (next + Z.of_nat (length batch)) max_size batch.
Proof.
  intros HL Hb Hse Hmax Hben. destruct (lr_next HL) as (b & seg & es' & Hl & He & Hmeta).
  rewrite last_snoc in He. injection He as <-. pose proof Hl as Hl'. apply last_Some in Hl' as [psegs Hsegs].
  destruct (batch_first _ _ _ Hb) as (first & rest & -> & Hsn & _).
  pose proof (lr_segs HL) as HR. rewrite Hsegs in HR. apply segs_rep_snoc in HR as (HP & Hlt & Hla).
  assert (Hat : entry_at (segments l) (pre ++ [es ++ first :: rest]) seg es first rest).
  { split. exists (length psegs). rewrite Hsegs, list_lookup_middle by done.
    rewrite (Forall2_length _ _ _ (lr_files HP)), list_lookup_middle by done. by rewrite (la_base Hla). }
  assert (Hfl : Segments.floorSegment (sn first) (segments l) = Some seg).
  { rewrite (Segments.floorSegment_spec _ _ (lr_wf HL)), filter_all; [by rewrite Hl|].
    pose proof (la_next Hla) as Hn. rewrite length_app in Hn. rewrite Hsegs. apply Forall_snoc. cbn in Hn |- *.
    split; [|lia]. eapply Forall_impl; [exact Hlt|]. intros x [? _]. lia. }
  rewrite <- Hsn.
  destruct (wp_total (Lglt.fetch d (sn first) max_size (next_sn_meta l) None)
    (fun r s' => r.2 = 0 /\ fr_entries r.1 = take_entries (entry_sn (next_sn_meta l)) max_size (first :: rest))
    (LogletState w l)) as ([r c] & s' & Hrun & Hc & Hr).
  - eapply (wp_fetch d w w l); [exact Hat|done|by apply log_stays_refl|done|done| | |done|done| |done].
    + rewrite Hmeta. cbn. lia.
    + by eapply next_meta_ok.
    + intros r s' _ [(Hr & _ & Hok)|[Hnb _]]; [|done]. split; [done|apply Hok].
  - cbn [fst snd] in Hc, Hr. subst c. exists r, s'. split; [done|]. rewrite Hr, Hmeta, Hsn. done.
Qed.

(** C15. What is appended is read back: after an append the kernel did not disturb, a
    fetch at the old end of the log, without a hint, returns the entries of the batch,
    as many as fit the size asked for and at least one. *)
Theorem append_then_fetch d w l pre es next b seg batch max_ts max_size :
  log_rep w l (pre ++ [es]) next -> last (segments l) = Some (b, seg) -> batch_ok es batch next ->
  searchable (event_ts_sn_index l) -> ids_room (event_ts_sn_index l) -> ids_room (sn_pos_index l) ->
  next <= ts_sn max_ts < next + Z.of_nat (length batch) -> kv_valid max_ts ->
  searchable (sn_pos_index l) -> 0 < max_size -> benign w ->
  exists s1 r s2,
    Lglt.append_batch d batch (serialize_to <$> batch) (length (encode_entries batch)) max_ts (LogletState w l)
    = (Ok (length (encode_entries batch), 0), s1) /\
    Lglt.fetch d next max_size (next_sn_meta (ls_loglet s1)) None s1 = (Ok (r, 0), s2) /\
    fr_entries r = take_entries (next + Z.of_nat (length batch)) max_size batch.
Proof.
  intros HL Hl Hb Hse Hidt Hidp Hts Hv Hsp Hmax Hben. apply last_Some in Hl as [psegs Hsegs].
  destruct (wp_total (Lglt.append_batch d batch (serialize_to <$> batch) (length (encode_entries batch)) max_ts)
    (append_result w w l seg pre es batch next) (LogletState w l)) as (a & s1 & Hrun & Hres).
  { eapply wp_loglet_append_batch; eauto; first [reflexivity|by intros]. }
  destruct Hres as [[-> Haf]|(_ & Hnb & _)]; [|done].
  destruct (log_after_rep _ _ _ _ _ _ Haf Hben) as (HL1 & [_ Hsp1 _ _]). destruct s1 as [w1 l1].
  destruct (wp_fetch_appended d w1 l1 pre es batch next max_size) as (r & s2 & Hf & Hr); try done; [by apply Hsp1| |].
  - by eapply evolves_benign; [apply Haf|].
  - by exists (LogletState w1 l1), r, s2.
Qed.

Lemma append_then_fetch_witness :
  let w := World small_files [SysShort 5; SysOk] in
  let batch := [small_entry 45 [7; 8]; small_entry 46 []] in
  exists s1 r s2,
    Lglt.append_batch small_directory batch (serialize_to <$> batch) (length (encode_entries batch))
      (mkTimestampSequence 1700000000000 45) (LogletState w small_loglet)
    = (Ok (length (encode_entries batch), 0), s1) /\
    Lglt.fetch small_directory 45 1000 (next_sn_meta (ls_loglet s1)) None s1 = (Ok (r, 0), s2) /\
    fr_entries r = take_entries (45 + Z.of_nat (length batch)) 1000 batch.
Proof.
  intros w batch.
  apply (append_then_fetch small_directory w small_loglet (take 1 small_entries) [small_entry 44 [6]] 45 44
           (small_segment 2 44 (size_of [small_entry 44 [6]])) batch).
  - apply small_rep.
  - reflexivity.
  - apply small_batch_ok.
  - by left.
  - constructor.
  - constructor.
  - vm_compute. split; congruence.
  - split; vm_compute; split; congruence.
  - by left.
  - lia.
  - repeat constructor.
Defined.

(** C18. Rolling starts a new, empty segment at the end of the log: the entries, their
    numbers and both indexes stay and the new segment is the active one; a roll fails
    only if the kernel reports an error, and leaves the entries in their segments. *)
Theorem loglet_roll_correct d w l pre es next b seg expected :
  log_rep w l (pre ++ [es]) next -> last (segments l) = Some (b, seg) -> roll_room w l b seg next ->
  searchable (event_ts_sn_index l) -> ids_room (event_ts_sn_index l) -> default 0 expected <= next ->
  exists r s', Lglt.roll d expected (LogletState w l) = (r, s') /\
    ((exists new, r = Ok new /\ base_sn new = next /\ last (segments (ls_loglet s')) = Some (next, new) /\
        log_after w w l ((pre ++ [es]) ++ [[]]) next s') \/
     (faulted r /\ ~ benign w /\
        segs_rep (ls_world s') (log_dir l) (segments (ls_loglet s')) (pre ++ [es]) next)).
Proof.
  intros HL Hl Hroom Hse Hid Hexp. apply last_Some in Hl as [psegs Hsegs].
  destruct (wp_outcome (Lglt.roll d expected)
    (fun new s' => base_sn new = next /\ last (segments (ls_loglet s')) = Some (next, new) /\
       log_after w w l ((pre ++ [es]) ++ [[]]) next s')
    (fun _ s' => ~ benign w /\ segs_rep (ls_world s') (log_dir l) (segments (ls_loglet s')) (pre ++ [es]) next)
    (LogletState w l)) as (r & s' & Hrun & Hcase).
  { eapply wp_roll_log; eauto. reflexivity. }
  exists r, s'. split; [done|]. destruct Hcase as [Hok|(Hf & _ & Hr)]; [by left|by right].
Qed.

(** The roll of the small log; the kernel refuses to create the file. *)
Lemma loglet_roll_correct_witness :
  let w := World small_files [SysOk; SysOk; SysErr 28] in
  exists r s', Lglt.roll small_directory (Some 0) (LogletState w small_loglet) = (r, s') /\
    ((exists new, r = Ok new /\ base_sn new = 45 /\ last (segments (ls_loglet s')) = Some (45, new) /\
        log_after w w small_loglet (small_entries ++ [[]]) 45 s') \/
     (faulted r /\ ~ benign w /\ segs_rep (ls_world s') "d" (segments (ls_loglet s')) small_entries 45)).
Proof.
  intros w.
  apply (loglet_roll_correct small_directory w small_loglet (take 1 small_entries) [small_entry 44 [6]] 45 44
           (small_segment 2 44 (size_of [small_entry 44 [6]]))).
  - apply small_rep.
  - reflexivity.
  - split; [lia|split; vm_compute; congruence|reflexivity|reflexivity].
  - by left.
  - constructor.
  - cbn. lia.
Defined.


