(* ===== verification/Rounding.v ===== *)
(** * Rounding down

    Multiples of a tick, for timers and for windows of time. *)

From S2P Require Import Prelude.

Local Open Scope Z_scope.

(** The last multiple of [m] not above [x]. *)
Definition floor_to (m x : Z) : Z := x - x mod m.

Lemma floor_to_spec m x : 0 < m -> floor_to m x <= x < floor_to m x + m /\ (floor_to m x) mod m = 0.
Proof.
  intros Hm. unfold floor_to. pose proof (Z.mod_pos_bound x m Hm). split; [lia|].
  rewrite Zminus_mod_idemp_r, Z.sub_diag. apply Z.mod_0_l. lia.
Qed.

Lemma floor_to_id m x : x mod m = 0 -> floor_to m x = x.
Proof. unfold floor_to. lia. Qed.

Lemma mod_multiple m n x : 0 < m -> 0 < n -> x mod (m * n) = 0 -> x mod m = 0.
Proof.
  intros Hm Hn Hx. apply Z.mod_divide in Hx as [k ->]; [|lia]. apply Z.mod_divide; [lia|]. exists (k * n). lia.
Qed.

(** Multiples of [m] that are less than [m] apart are equal. *)
Lemma multiples_apart m x y : 0 < m -> x mod m = 0 -> y mod m = 0 -> x < y + m -> y < x + m -> x = y.
Proof.
  intros Hm Hx Hy H1 H2. apply Z.mod_divide in Hx as [k ->], Hy as [l ->]; [|lia..].
  assert (k < l + 1) by nia. assert (l < k + 1) by nia. f_equal. lia.
Qed.

Lemma floor_to_unique m x y : 0 < m -> y mod m = 0 -> y <= x < y + m -> floor_to m x = y.
Proof. intros Hm Hy Hle. destruct (floor_to_spec m x Hm). apply (multiples_apart m); lia. Qed.

Lemma floor_floor m n x : 0 < m -> 0 < n -> floor_to (m * n) (floor_to m x) = floor_to (m * n) x.
Proof.
  intros Hm Hn. destruct (floor_to_spec m x Hm) as [H1 H2]. destruct (floor_to_spec (m * n) x) as [H3 H4]; [nia|].
  apply floor_to_unique; [nia|done|]. split; [|lia]. apply mod_multiple in H4; [|done..].
  destruct (Z.le_gt_cases (floor_to (m * n) x) (floor_to m x)); [done|]. exfalso.
  apply Z.mod_divide in H2 as [k Hk], H4 as [l Hl]; [|lia..]. assert (k < l) by nia. assert (l < k + 1) by nia. lia.
Qed.

Lemma floor_mono m x y : 0 < m -> x <= y -> floor_to m x <= floor_to m y.
Proof.
  intros Hm Hxy. destruct (floor_to_spec m x Hm) as [H1 H2], (floor_to_spec m y Hm) as [H3 H4].
  apply Z.mod_divide in H2 as [k Hk], H4 as [l Hl]; [|lia..]. rewrite Hk, Hl in *.
  assert (k < l + 1) by (apply (Z.mul_lt_mono_pos_r m); lia). apply Z.mul_le_mono_nonneg_r; lia.
Qed.

Lemma floor_to_div m x : 0 < m -> floor_to m x = x / m * m.
Proof. intros Hm. unfold floor_to. pose proof (Z.div_mod x m). lia. Qed.
