(* ===== verification/TimeWheel.v ===== *)
(** * Timers (src/Cluster/Common/TimeWheel)

    A timer keeps its tasks in the buckets of a wheel of ticks, those that are too far
    away in the buckets of coarser wheels.  A bucket is in a queue ordered by
    expiration while it holds tasks; polling the queue advances the wheels and moves
    the tasks of expired buckets to finer wheels or to the tasks to run.  Tasks and
    buckets are shared objects: a task has a number, a bucket is named by the level of
    its wheel and its index, and the queue holds such names. *)

From S2P Require Import Prelude Codec.

Local Open Scope Z_scope.

Definition task_id : Type := nat.
Definition bucket_ref : Type := nat * nat.

(** [TimerTaskEntry]; the position in the list of the owner is the task itself. *)
Record TimerTaskEntry : Type := mkTimerTaskEntry {
  cancelled : bool;
  owner : option bucket_ref;
  expiration_ms : Z;
  interval_ms : Z;
  is_repeat : bool;
}.

(** [TimerTaskList] *)
Record TimerTaskList : Type := mkTimerTaskList {
  bucket_expiration_ms : Z;
  bucket : list task_id;
}.

(** A [TimeWheel] without its overflow wheel. *)
Record TimeWheel : Type := mkTimeWheel {
  tick_ms : Z;
  wheel_size : Z;
  wheel_interval_ms : Z;
  current_time_ms : Z;
  buckets : list TimerTaskList;
}.

(** [SystemTimer] with what it shares with its wheels: the tasks made so far, the wheel
    followed by its overflow wheels, the buckets in the delay queue, the tasks to run,
    and those a worker is running. *)
Record SystemTimer : Type := mkSystemTimer {
  tasks : gmap task_id TimerTaskEntry;
  wheels : list TimeWheel;
  queue : list bucket_ref;
  num_timers : Z;
  expired_timers : list task_id;
  running : list task_id;
}.

Definition set_tasks x t := mkSystemTimer x (wheels t) (queue t) (num_timers t) (expired_timers t) (running t).
Definition set_wheels x t := mkSystemTimer (tasks t) x (queue t) (num_timers t) (expired_timers t) (running t).
Definition set_queue x t := mkSystemTimer (tasks t) (wheels t) x (num_timers t) (expired_timers t) (running t).
Definition set_num_timers x t := mkSystemTimer (tasks t) (wheels t) (queue t) x (expired_timers t) (running t).
Definition set_expired_timers x t := mkSystemTimer (tasks t) (wheels t) (queue t) (num_timers t) x (running t).
Definition set_running x t := mkSystemTimer (tasks t) (wheels t) (queue t) (num_timers t) (expired_timers t) x.

Module Wheel.

(** ** Buckets *)

Definition lookup_bucket (r : bucket_ref) (t : SystemTimer) : option TimerTaskList :=
  w ← wheels t !! r.1; buckets w !! r.2.
Definition alter_bucket (f : TimerTaskList -> TimerTaskList) (r : bucket_ref) (t : SystemTimer) : SystemTimer :=
  set_wheels
    (alter (fun w => mkTimeWheel (tick_ms w) (wheel_size w) (wheel_interval_ms w) (current_time_ms w)
                       (alter f r.2 (buckets w))) r.1 (wheels t)) t.
Definition alter_task (f : TimerTaskEntry -> TimerTaskEntry) (id : task_id) (t : SystemTimer) : SystemTimer :=
  set_tasks (alter f id (tasks t)) t.

Definition set_owner (o : option bucket_ref) (e : TimerTaskEntry) : TimerTaskEntry :=
  mkTimerTaskEntry (cancelled e) o (expiration_ms e) (interval_ms e) (is_repeat e).
Definition set_cancelled (e : TimerTaskEntry) : TimerTaskEntry :=
  mkTimerTaskEntry true (owner e) (expiration_ms e) (interval_ms e) (is_repeat e).
Definition set_expiration (x : Z) (e : TimerTaskEntry) : TimerTaskEntry :=
  mkTimerTaskEntry (cancelled e) (owner e) x (interval_ms e) (is_repeat e).

(** [TimerTaskList::add] *)
Definition list_add (r : bucket_ref) (id : task_id) (t : SystemTimer) : SystemTimer :=
  alter_task (set_owner (Some r)) id
    (alter_bucket (fun b => mkTimerTaskList (bucket_expiration_ms b) (bucket b ++ [id])) r t).

(** [TimerTaskList::removeLocked], with the [decrement_size] of the timer. *)
Definition removeLocked (r : bucket_ref) (id : task_id) (t : SystemTimer) : SystemTimer :=
  set_num_timers (num_timers t - 1)
    (alter_bucket (fun b => mkTimerTaskList (bucket_expiration_ms b) (filter (fun x => x <> id) (bucket b))) r t).

(** [TimerTaskEntry::detachFromCurrentBucket] *)
Definition detachFromCurrentBucket (id : task_id) (t : SystemTimer) : SystemTimer :=
  match e ← tasks t !! id; owner e with
  | Some r => alter_task (set_owner None) id (removeLocked r id t)
  | None => t
  end.

(** [TimerTaskEntry::cancel] *)
Definition cancel (id : task_id) (t : SystemTimer) : SystemTimer :=
  detachFromCurrentBucket id (alter_task set_cancelled id t).

(** [TimerTaskList::setExpiration]: whether the expiration changed. *)
Definition setExpiration (r : bucket_ref) (x : Z) (t : SystemTimer) : bool * SystemTimer :=
  (negb (bool_decide (bucket_expiration_ms <$> lookup_bucket r t = Some x)),
   alter_bucket (fun b => mkTimerTaskList x (bucket b)) r t).

(** ** The wheels *)

(** The constructor. *)
Definition new_wheel (tick size start : Z) : TimeWheel :=
  mkTimeWheel tick size (tick * size) (start - Z.rem start tick)
    (replicate (Z.to_nat size) (mkTimerTaskList (-1) [])).

(** [DelayQueue::offer]; waking a consumer is not modelled. *)
Definition offer (r : bucket_ref) (t : SystemTimer) : SystemTimer := set_queue (queue t ++ [r]) t.

(** [getOrCreateOverflowWheel] of the wheel [level]. *)
Definition getOrCreateOverflowWheel (level : nat) (t : SystemTimer) : SystemTimer :=
  match wheels t !! S level, wheels t !! level with
  | None, Some w =>
      set_wheels (wheels t ++ [new_wheel (wheel_interval_ms w) (wheel_size w) (current_time_ms w)]) t
  | _, _ => t
  end.

(** [TimeWheel::add] of the wheel [level]; [None] when the fuel is not enough. *)
Fixpoint add (fuel level : nat) (id : task_id) (t : SystemTimer) : option (bool * SystemTimer) :=
  match fuel with
  | O => None
  | S fuel =>
      e ← tasks t !! id; w ← wheels t !! level;
      if cancelled e then Some (false, t)
      else if expiration_ms e <? current_time_ms w + tick_ms w then Some (false, t)
      else if expiration_ms e <? current_time_ms w + wheel_interval_ms w then
        let virtual_id := Z.quot (expiration_ms e) (tick_ms w) in
        let r := (level, Z.to_nat (Z.rem virtual_id (wheel_size w))) in
        let t := detachFromCurrentBucket id t in
        let t := list_add r id t in
        let '(changed, t) := setExpiration r (virtual_id * tick_ms w) t in
        Some (true, if (changed : bool) then offer r t else t)
      else add fuel (S level) id (getOrCreateOverflowWheel level t)
  end.

(** [TimeWheel::advanceClock], through the overflow wheels. *)
Fixpoint advanceClock (time_ms : Z) (ws : list TimeWheel) : list TimeWheel :=
  match ws with
  | [] => []
  | w :: ws =>
      if current_time_ms w + tick_ms w <=? time_ms then
        let new_time := time_ms - Z.rem time_ms (tick_ms w) in
        mkTimeWheel (tick_ms w) (wheel_size w) (wheel_interval_ms w) new_time (buckets w) :: advanceClock new_time ws
      else w :: ws
  end.

End Wheel.

Module Timer.

(** Levels that are enough for an expiration: each has at least twice the interval of the
    one before. *)
Definition levels (x : Z) : nat := S (S (Z.to_nat (Z.log2_up x))).

(** [addTimerTaskEntryLocked] *)
Definition addTimerTaskEntryLocked (id : task_id) (t : SystemTimer) : option (bool * SystemTimer) :=
  e ← tasks t !! id;
  r ← Wheel.add (levels (expiration_ms e)) 0 id t;
  let '(added, t) := r in
  if (added : bool) then Some (true, t)
  else
    Some (false, if bool_decide (cancelled <$> tasks t !! id = Some false)
                 then set_expired_timers (expired_timers t ++ [id]) t else t).

(** The number of a new task: no other task has it. *)
Definition next_id (t : SystemTimer) : task_id := fresh (dom (tasks t) : gset task_id).

(** [add]: a new task at time [now]; the task when it is in a wheel, nothing when it was
    expired at once. *)
Definition add (now timeout_ms : Z) (repeat : bool) (t : SystemTimer) : option (option task_id * SystemTimer) :=
  let id := next_id t in
  let interval := to_i32 timeout_ms in
  let t := set_tasks (<[id := mkTimerTaskEntry false None (now + interval) interval repeat]> (tasks t)) t in
  r ← addTimerTaskEntryLocked id t;
  let '(added, t) := r in
  if (added : bool) then Some (Some id, set_num_timers (num_timers t + 1) t) else Some (None, t).

(** ** Polling *)

Definition getDelay (now : Z) (r : bucket_ref) (t : SystemTimer) : Z :=
  Z.max (default 0 (bucket_expiration_ms <$> Wheel.lookup_bucket r t) - now) 0.

(** The top of the queue: no other bucket expires earlier. *)
Fixpoint top (t : SystemTimer) (q : list bucket_ref) : option bucket_ref :=
  match q with
  | [] => None
  | r :: q =>
      match top t q with
      | Some r' =>
          if default 0 (bucket_expiration_ms <$> Wheel.lookup_bucket r' t)
             <? default 0 (bucket_expiration_ms <$> Wheel.lookup_bucket r t)
          then Some r' else Some r
      | None => Some r
      end
  end.

(** [DelayQueue::pollLocked] at time [now]. *)
Definition pollLocked (now : Z) (t : SystemTimer) : option bucket_ref * SystemTimer :=
  match top t (queue t) with
  | None => (None, t)
  | Some r =>
      if 0 <? getDelay now r t then (None, t)
      else (Some r, set_queue (filter (fun x => x <> r) (queue t)) t)
  end.

(** The tasks of a bucket that was flushed, put into the wheels again: how many were,
    and how many had expired. *)
Fixpoint reinsert (ids : list task_id) (counts : nat * nat) (t : SystemTimer) : option (nat * nat * SystemTimer) :=
  match ids with
  | [] => Some (counts, t)
  | id :: ids =>
      r ← addTimerTaskEntryLocked id t;
      let '(added, t) := r in
      if (added : bool) then reinsert ids (S counts.1, counts.2) t
      else reinsert ids (counts.1, S counts.2) (set_num_timers (num_timers t - 1) t)
  end.

(** [TimerTaskList::flush] *)
Definition flush (r : bucket_ref) (counts : nat * nat) (t : SystemTimer) : option (nat * nat * SystemTimer) :=
  b ← Wheel.lookup_bucket r t;
  let t := Wheel.alter_bucket (fun b => mkTimerTaskList (bucket_expiration_ms b) []) r t in
  let t := foldr (Wheel.alter_task (Wheel.set_owner None)) t (bucket b) in
  res ← reinsert (bucket b) counts t;
  let '(counts, t) := res in
  Some (counts, Wheel.alter_bucket (fun b => mkTimerTaskList (-1) (bucket b)) r t).

(** The loop of [poll]; [clock i] is the time the queue reads in its [i]th turn. *)
Fixpoint poll_loop (fuel : nat) (clock : nat -> Z) (i : nat) (counts : nat * nat) (t : SystemTimer)
  : option (nat * nat * SystemTimer) :=
  match fuel with
  | O => None
  | S fuel =>
      match pollLocked (clock i) t with
      | (None, t) => Some (counts, t)
      | (Some r, t) =>
          b ← Wheel.lookup_bucket r t;
          let t := set_wheels (Wheel.advanceClock (bucket_expiration_ms b) (wheels t)) t in
          res ← flush r counts t;
          poll_loop fuel clock (S i) res.1 res.2
      end
  end.

(** What is left to do: every task moves to a finer wheel when its bucket expires. *)
Definition weight (e : TimerTaskEntry) : nat :=
  match owner e with Some (level, _) => 2 * S level | None => 0 end.
Definition work_left (t : SystemTimer) : nat :=
  (map_fold (fun _ e n => weight e + n) 0 (tasks t) + length (queue t))%nat.

(** [poll]: the counts of tasks reinserted and expired. *)
Definition poll (clock : nat -> Z) (t : SystemTimer) : option (nat * nat * SystemTimer) :=
  poll_loop (S (work_left t)) clock 0 (0%nat, 0%nat) t.

(** ** Running *)

(** A worker takes the next task; a cancelled one is dropped. *)
Definition take_expired (t : SystemTimer) : option task_id * SystemTimer :=
  match expired_timers t with
  | [] => (None, t)
  | id :: rest =>
      let t := set_expired_timers rest t in
      if bool_decide (cancelled <$> tasks t !! id = Some false) then (Some id, set_running (id :: running t) t)
      else (None, t)
  end.

(** After the callback: a repeating task that was not cancelled starts again. *)
Definition finish (now : Z) (id : task_id) (t : SystemTimer) : option SystemTimer :=
  e ← tasks t !! id;
  let t := set_running (filter (fun x => x <> id) (running t)) t in
  if is_repeat e && negb (cancelled e) then
    let t := Wheel.alter_task (Wheel.set_expiration (now + interval_ms e)) id t in
    r ← addTimerTaskEntryLocked id t;
    let '(added, t) := r in
    Some (set_num_timers (num_timers t + (if (added : bool) then 1 else 0)) t)
  else Some t.

(** The constructor. *)
Definition create (tick size start : Z) : SystemTimer := mkSystemTimer ∅ [Wheel.new_wheel tick size start] [] 0 [] [].

End Timer.
