(* ===== verification/TimerSpec.v ===== *)
(** * What a timer holds

    The invariant of a timer: its wheels show the same time, every pending task is in
    one bucket whose expiration is the tick of the task, and the queue holds the buckets
    that have an expiration, so that no bucket changes its place in the queue. *)

From S2P Require Import Prelude Rounding TimeWheel.

Local Open Scope Z_scope.

Section Spec.
Context (T N : Z) (HT : 0 < T) (HN : 2 <= N).

(** The tick of the wheel [k]. *)
Definition tick_at (k : nat) : Z := T * N ^ Z.of_nat k.

Lemma tick_pos k : 0 < tick_at k.
Proof. unfold tick_at. pose proof (Z.pow_pos_nonneg N (Z.of_nat k)). nia. Qed.

Lemma tick_succ k : tick_at (S k) = tick_at k * N.
Proof. unfold tick_at. rewrite Nat2Z.inj_succ, Z.pow_succ_r by lia. lia. Qed.

Lemma tick_le k l : (k <= l)%nat -> exists m, 0 < m /\ tick_at l = tick_at k * m.
Proof.
  intros Hle. exists (N ^ Z.of_nat (l - k)). split; [apply Z.pow_pos_nonneg; lia|].
  unfold tick_at. rewrite <- Z.mul_assoc, <- Z.pow_add_r by lia. do 2 f_equal. lia.
Qed.

Lemma tick_0 : tick_at 0 = T.
Proof. unfold tick_at. cbn. lia. Qed.

Lemma tick_divides k l x : (k <= l)%nat -> x mod tick_at l = 0 -> x mod tick_at k = 0.
Proof. intros (m & Hm & ->)%tick_le Hx. by apply mod_multiple in Hx; [|apply tick_pos|]. Qed.

Lemma tick_floor k l x : (k <= l)%nat -> floor_to (tick_at l) (floor_to (tick_at k) x) = floor_to (tick_at l) x.
Proof. intros (m & Hm & ->)%tick_le. apply floor_floor; [apply tick_pos|done]. Qed.

(** ** The invariant *)

(** The wheel [k] when the finest wheel is at [c]. *)
Record wheel_ok (c : Z) (k : nat) (w : TimeWheel) : Prop := {
  wk_tick : tick_ms w = tick_at k;
  wk_size : wheel_size w = N;
  wk_interval : wheel_interval_ms w = tick_at (S k);
  wk_time : current_time_ms w = floor_to (tick_at k) c;
  wk_buckets : length (buckets w) = Z.to_nat N;
}.

(** The expiration of a bucket in the queue. *)
Record due_at (c : Z) (r : bucket_ref) (x : Z) : Prop := {
  da_tick : x mod tick_at r.1 = 0;
  da_index : Z.to_nat ((x / tick_at r.1) mod N) = r.2;
  da_range : c <= x < floor_to (tick_at r.1) c + tick_at (S r.1);
}.

Definition owned (t : SystemTimer) (id : task_id) (r : bucket_ref) : Prop :=
  exists e, tasks t !! id = Some e /\ owner e = Some r.

(** A task that is in no bucket. *)
Definition free (t : SystemTimer) (id : task_id) : Prop := exists e, tasks t !! id = Some e /\ owner e = None.

Definition is_owned (e : TimerTaskEntry) : nat := match owner e with Some _ => 1 | None => 0 end.
Definition total (f : TimerTaskEntry -> nat) (m : gmap task_id TimerTaskEntry) : nat :=
  map_fold (fun _ e n => f e + n)%nat 0%nat m.

(** The timer at [c], while the bucket [x] is flushed and its tasks [fl] are on their
    way; [n] timers are counted besides the ones in buckets. *)
Record inv (c : Z) (x : option bucket_ref) (fl : list task_id) (n : Z) (t : SystemTimer) : Prop := {
  iv_clock : 0 <= c /\ c mod T = 0;
  iv_wheels : wheels t <> [] /\ forall k w, wheels t !! k = Some w -> wheel_ok c k w;
  iv_queue : NoDup (queue t);
  iv_queued : forall r, r ∈ queue t -> Some r <> x /\
    exists b, Wheel.lookup_bucket r t = Some b /\ due_at c r (bucket_expiration_ms b);
  iv_idle : forall r b, Wheel.lookup_bucket r t = Some b -> r ∉ queue t ->
    bucket b = [] /\ (Some r <> x -> bucket_expiration_ms b = -1);
  iv_members : forall id r b, Wheel.lookup_bucket r t = Some b -> id ∈ bucket b <-> owned t id r;
  iv_nodup : forall r b, Wheel.lookup_bucket r t = Some b -> NoDup (bucket b);
  iv_tasks : forall id e r, tasks t !! id = Some e -> owner e = Some r -> cancelled e = false /\
    exists b, Wheel.lookup_bucket r t = Some b /\
      bucket_expiration_ms b <= expiration_ms e < bucket_expiration_ms b + tick_at r.1;
  iv_count : num_timers t = Z.of_nat (total is_owned (tasks t)) + n;
  iv_free : NoDup (fl ++ expired_timers t ++ running t) /\ Forall (free t) (fl ++ expired_timers t ++ running t);
  iv_flight : Forall (fun id => exists e, tasks t !! id = Some e /\ cancelled e = false) fl;
}.

Arguments iv_clock {c x fl n t} _.
Arguments iv_wheels {c x fl n t} _.
Arguments iv_queue {c x fl n t} _.
Arguments iv_queued {c x fl n t} _.
Arguments iv_idle {c x fl n t} _.
Arguments iv_members {c x fl n t} _.
Arguments iv_nodup {c x fl n t} _.
Arguments iv_tasks {c x fl n t} _.
Arguments iv_count {c x fl n t} _.
Arguments iv_free {c x fl n t} _.
Arguments iv_flight {c x fl n t} _.

(** A pending task is in a bucket of the queue. *)
Lemma owned_queued c x fl n t id r : inv c x fl n t -> owned t id r -> r ∈ queue t.
Proof.
  intros Hi (e & He & Ho). destruct (iv_tasks Hi _ _ _ He Ho) as (_ & b & Hb & _).
  destruct (decide (r ∈ queue t)) as [|Hn]; [done|]. destruct (iv_idle Hi _ _ Hb Hn) as [Hnil _].
  assert (Hin : id ∈ bucket b) by (apply (iv_members Hi _ _ _ Hb); by exists e). rewrite Hnil in Hin.
  by apply elem_of_nil in Hin.
Qed.

(** ** Sums over the tasks *)

Lemma total_delete f m i e : m !! i = Some e -> total f m = (f e + total f (delete i m))%nat.
Proof.
  intros He. unfold total. apply (map_fold_delete_L (fun _ e n => (f e + n)%nat)); [|done].
  intros. lia.
Qed.

Lemma total_update f m i e e' :
  m !! i = Some e -> (total f (<[i := e']> m) + f e = total f m + f e')%nat.
Proof.
  intros He. rewrite (total_delete f m i e He).
  rewrite (total_delete f (<[i := e']> m) i e') by apply lookup_insert_eq.
  rewrite delete_insert_eq. lia.
Qed.

Lemma total_new f m i e : m !! i = None -> total f (<[i := e]> m) = (f e + total f m)%nat.
Proof.
  intros Hn. rewrite (total_delete f (<[i := e]> m) i e) by apply lookup_insert_eq.
  by rewrite delete_insert_id.
Qed.

(** ** Buckets *)

Lemma lookup_alter_bucket f r r' t :
  Wheel.lookup_bucket r' (Wheel.alter_bucket f r t) =
  (if decide (r' = r) then f <$> Wheel.lookup_bucket r t else Wheel.lookup_bucket r' t).
Proof.
  destruct r as [k i], r' as [k' i']. unfold Wheel.lookup_bucket, Wheel.alter_bucket. cbn.
  destruct (decide (k' = k)) as [->|Hk].
  - rewrite list_lookup_alter_eq. destruct (wheels t !! k) as [w|]; cbn; [|by destruct (decide _)].
    destruct (decide (i' = i)) as [->|Hi]; [rewrite decide_True by done; apply list_lookup_alter_eq|].
    rewrite decide_False by congruence. by apply list_lookup_alter_ne.
  - rewrite list_lookup_alter_ne by done. by rewrite decide_False by congruence.
Qed.

Lemma lookup_same_wheels t t' r : wheels t' = wheels t -> Wheel.lookup_bucket r t' = Wheel.lookup_bucket r t.
Proof. intros Hw. unfold Wheel.lookup_bucket. by rewrite Hw. Qed.

Lemma alter_bucket_wheels f r t k w :
  wheels (Wheel.alter_bucket f r t) !! k = Some w ->
  exists w', wheels t !! k = Some w' /\ tick_ms w = tick_ms w' /\ wheel_size w = wheel_size w' /\
    wheel_interval_ms w = wheel_interval_ms w' /\ current_time_ms w = current_time_ms w' /\
    length (buckets w) = length (buckets w').
Proof.
  unfold Wheel.alter_bucket. cbn. intros Hw. destruct (decide (r.1 = k)) as [<-|Hne].
  - rewrite list_lookup_alter_eq in Hw. destruct (wheels t !! r.1) as [w'|]; [|done]. cbn in Hw. injection Hw as <-.
    exists w'. split_and!; try done. cbn. apply length_alter.
  - rewrite list_lookup_alter_ne in Hw by done. by exists w.
Qed.

Lemma wheels_ok_alter c f r t :
  (wheels t <> [] /\ forall k w, wheels t !! k = Some w -> wheel_ok c k w) ->
  wheels (Wheel.alter_bucket f r t) <> [] /\
  forall k w, wheels (Wheel.alter_bucket f r t) !! k = Some w -> wheel_ok c k w.
Proof.
  intros [Hne Hok]. split.
  - intros Heq%(f_equal length). cbn in Heq. rewrite length_alter in Heq. by destruct (wheels t).
  - intros k w Hw. destruct (alter_bucket_wheels _ _ _ _ _ Hw) as (w' & Hw' & H1 & H2 & H3 & H4 & H5).
    destruct (Hok k w' Hw'). split; congruence.
Qed.

(** ** Changes of the wheels *)

(** Wheels that hold the same buckets, and possibly idle ones. *)
Lemma inv_wheels c c' x fl n t ws :
  inv c x fl n t -> 0 <= c' /\ c' mod T = 0 ->
  (ws <> [] /\ forall k w, ws !! k = Some w -> wheel_ok c' k w) ->
  (forall r b, Wheel.lookup_bucket r t = Some b -> Wheel.lookup_bucket r (set_wheels ws t) = Some b) ->
  (forall r b, Wheel.lookup_bucket r (set_wheels ws t) = Some b ->
     Wheel.lookup_bucket r t = Some b \/ Wheel.lookup_bucket r t = None /\ b = mkTimerTaskList (-1) []) ->
  (forall r b, r ∈ queue t -> Wheel.lookup_bucket r t = Some b -> due_at c' r (bucket_expiration_ms b)) ->
  inv c' x fl n (set_wheels ws t).
Proof.
  intros [] Hc Hws Hto Hfrom Hdue. split; try done.
  - intros r Hr. destruct (iv_queued0 r Hr) as (Hx & b & Hb & _). split; [done|]. exists b. split; [by apply Hto|].
    by apply Hdue.
  - intros r b Hb Hr. destruct (Hfrom r b Hb) as [Hb'|[_ ->]]; [by apply (iv_idle0 r b)|done].
  - intros id r b Hb. destruct (Hfrom r b Hb) as [Hb'|[Hn ->]]; [by apply iv_members0|]. cbn.
    split; [by intros ?%elem_of_nil|]. intros (e & He & Ho).
    destruct (iv_tasks0 _ _ _ He Ho) as (_ & b & Hb' & _). congruence.
  - intros r b Hb. destruct (Hfrom r b Hb) as [Hb'|[_ ->]]; [by apply (iv_nodup0 r b)|constructor].
  - intros id e r He Ho. destruct (iv_tasks0 id e r He Ho) as (Hcan & b & Hb & Hr). split; [done|]. exists b.
    split; [by apply Hto|done].
Qed.

Lemma lookup_bucket_app w t r :
  Wheel.lookup_bucket r (set_wheels (wheels t ++ [w]) t) =
  match wheels t !! r.1 with
  | Some w' => buckets w' !! r.2
  | None => if decide (r.1 = length (wheels t)) then buckets w !! r.2 else None
  end.
Proof.
  unfold Wheel.lookup_bucket. cbn. destruct (wheels t !! r.1) as [w'|] eqn:Hw; [by rewrite (lookup_app_l_Some _ _ _ _ Hw)|].
  apply lookup_ge_None in Hw. rewrite lookup_app_r by done. destruct (decide _) as [->|Hne]; [by rewrite Nat.sub_diag|].
  by rewrite lookup_ge_None_2 by (cbn; lia).
Qed.

Lemma new_wheel_ok c k w :
  0 <= c -> wheel_ok c k w ->
  wheel_ok c (S k) (Wheel.new_wheel (wheel_interval_ms w) (wheel_size w) (current_time_ms w)).
Proof.
  intros Hc []. split; unfold Wheel.new_wheel; cbn [tick_ms wheel_size wheel_interval_ms current_time_ms buckets];
    rewrite ?wk_interval0, ?wk_size0, ?wk_time0; [done|done|by rewrite (tick_succ (S k))| |by rewrite length_replicate].
  pose proof (tick_pos k). pose proof (tick_pos (S k)).
  assert (0 <= floor_to (tick_at k) c) by (unfold floor_to; pose proof (Z.mod_le c (tick_at k)); lia).
  rewrite Z.rem_mod_nonneg by lia. change (floor_to (tick_at (S k)) (floor_to (tick_at k) c) = floor_to (tick_at (S k)) c).
  apply tick_floor. lia.
Qed.

(** A wheel added above the others is idle. *)
Lemma overflow_inv c x fl n t k w (t' := Wheel.getOrCreateOverflowWheel k t) :
  inv c x fl n t -> wheels t !! k = Some w ->
  inv c x fl n t' /\ is_Some (wheels t' !! S k) /\ t' = set_wheels (wheels t') t.
Proof.
  intros Hi Hw. subst t'. unfold Wheel.getOrCreateOverflowWheel. rewrite Hw.
  destruct (wheels t !! S k) as [w'|] eqn:Hk; [split; [done|]; split; [by rewrite Hk|by destruct t]|].
  assert (Hlen : length (wheels t) = S k) by (apply lookup_lt_Some in Hw; apply lookup_ge_None in Hk; lia).
  destruct (iv_wheels Hi) as [Hne Hok]. split_and!; [|cbn; rewrite lookup_app_r by lia; rewrite Hlen, Nat.sub_diag; by eexists|done].
  eapply inv_wheels; [done|apply Hi| | | |].
  - split; [by destruct (wheels t)|]. intros k' w' [Hl|[Hge Hl]]%lookup_app_Some; [by apply Hok|].
    apply list_lookup_singleton_Some in Hl as [Hz <-]. replace k' with (S k) by lia.
    apply new_wheel_ok; [apply Hi|by apply Hok].
  - intros r b. rewrite lookup_bucket_app. unfold Wheel.lookup_bucket. by destruct (wheels t !! r.1).
  - intros r b. rewrite lookup_bucket_app. unfold Wheel.lookup_bucket. destruct (wheels t !! r.1); [by left|].
    destruct (decide _); [|done]. cbn. intros [-> _]%lookup_replicate. by right.
  - intros r b Hr Hb. destruct (iv_queued Hi r Hr) as (_ & b' & Hb' & Hdue). by simplify_eq.
Qed.

(** ** Placing a task *)

(** A bucket has one expiration while the clock is at [c]. *)
Lemma due_unique c r x y : due_at c r x -> due_at c r y -> x = y.
Proof.
  intros [Hx Hxi [Hx1 Hx2]] [Hy Hyi [Hy1 Hy2]]. pose proof (tick_pos r.1) as Ht. rewrite tick_succ in *.
  destruct (floor_to_spec (tick_at r.1) c Ht) as [Hf _].
  apply Z.mod_divide in Hx as [k ->], Hy as [l ->]; [|lia..]. rewrite !Z.div_mul in * by lia.
  pose proof (Z.mod_pos_bound k N ltac:(lia)). pose proof (Z.mod_pos_bound l N ltac:(lia)).
  assert (Hkl : k mod N = l mod N) by lia. f_equal.
  assert (k < l + N) by (apply (Z.mul_lt_mono_pos_r (tick_at r.1)); lia).
  assert (l < k + N) by (apply (Z.mul_lt_mono_pos_r (tick_at r.1)); lia).
  pose proof (Z.div_mod k N ltac:(lia)). pose proof (Z.div_mod l N ltac:(lia)).
  assert (k / N < l / N + 1) by (apply (Z.mul_lt_mono_pos_l N); lia).
  assert (l / N < k / N + 1) by (apply (Z.mul_lt_mono_pos_l N); lia). replace (k / N) with (l / N) in * by lia. lia.
Qed.

(** The bucket of an expiration in the range of the wheel [k]. *)
Lemma due_slot c k x (r := (k, Z.to_nat ((x / tick_at k) mod N))) :
  floor_to (tick_at k) c + tick_at k <= x < floor_to (tick_at k) c + tick_at (S k) ->
  due_at c r (x / tick_at k * tick_at k) /\
  x / tick_at k * tick_at k <= x < x / tick_at k * tick_at k + tick_at k.
Proof.
  intros Hx. pose proof (tick_pos k) as Ht. pose proof (Z.div_mod x (tick_at k) ltac:(lia)) as Hd.
  pose proof (Z.mod_pos_bound x (tick_at k) Ht) as Hm. destruct (floor_to_spec (tick_at k) c Ht) as [Hf Hf0].
  split; [|lia]. subst r. split; cbn [fst snd].
  - rewrite Z.mod_mul; lia.
  - by rewrite Z.div_mul by lia.
  - apply Z.mod_divide in Hf0 as [l Hl]; [|lia]. rewrite Hl in *. split; [|lia].
    assert (l + 1 <= x / tick_at k) by (apply Z.div_le_lower_bound; lia). nia.
Qed.

(** The task [id] at the end of the bucket [r], which expires at [X]. *)
Definition place (r : bucket_ref) (id : task_id) (X : Z) (t : SystemTimer) : SystemTimer :=
  let '(changed, t) := Wheel.setExpiration r X (Wheel.list_add r id t) in
  if (changed : bool) then Wheel.offer r t else t.

Lemma place_tasks r id X t : tasks (place r id X t) = alter (Wheel.set_owner (Some r)) id (tasks t).
Proof. unfold place. cbn. by destruct (negb _). Qed.

Lemma place_lookup r id X t r' b :
  Wheel.lookup_bucket r t = Some b ->
  Wheel.lookup_bucket r' (place r id X t) =
  if decide (r' = r) then Some (mkTimerTaskList X (bucket b ++ [id])) else Wheel.lookup_bucket r' t.
Proof.
  intros Hb. transitivity (Wheel.lookup_bucket r' (Wheel.alter_bucket (fun b => mkTimerTaskList X (bucket b)) r
    (Wheel.alter_bucket (fun b => mkTimerTaskList (bucket_expiration_ms b) (bucket b ++ [id])) r t))).
  { apply lookup_same_wheels. unfold place. cbn. by destruct (negb _). }
  rewrite !lookup_alter_bucket. destruct (decide (r' = r)) as [->|]; [|done]. by rewrite decide_True, Hb by done.
Qed.

Lemma place_queue c x fl n t r id X :
  inv c x fl n t -> Some r <> x -> is_Some (Wheel.lookup_bucket r t) -> due_at c r X ->
  queue (place r id X t) = if decide (r ∈ queue t) then queue t else queue t ++ [r].
Proof.
  intros Hi Hx [b Hb] Hdue. unfold place. cbn.
  assert (Hl : Wheel.lookup_bucket r (Wheel.list_add r id t) =
               Some (mkTimerTaskList (bucket_expiration_ms b) (bucket b ++ [id]))).
  { transitivity (Wheel.lookup_bucket r (Wheel.alter_bucket (fun b => mkTimerTaskList (bucket_expiration_ms b)
      (bucket b ++ [id])) r t)); [by apply lookup_same_wheels|]. by rewrite lookup_alter_bucket, decide_True, Hb. }
  rewrite Hl. cbn. destruct (decide (r ∈ queue t)) as [Hr|Hr].
  - destruct (iv_queued Hi r Hr) as (_ & b' & Hb' & Hdue'). simplify_eq.
    rewrite (due_unique _ _ _ _ Hdue' Hdue). by rewrite bool_decide_eq_true_2.
  - destruct (iv_idle Hi r b Hb Hr) as [_ He]. rewrite (He Hx). rewrite bool_decide_eq_false_2; [done|].
    intros [= <-]. destruct Hdue as [_ _ Hr']. pose proof (iv_clock Hi). lia.
Qed.

Lemma alter_task_lookup (f : TimerTaskEntry -> TimerTaskEntry) (m : gmap task_id TimerTaskEntry) i j e :
  alter f i m !! j = Some e <->
  (j = i /\ exists e', m !! i = Some e' /\ e = f e') \/ (j <> i /\ m !! j = Some e).
Proof.
  destruct (decide (j = i)) as [->|Hne].
  - rewrite lookup_alter_eq, fmap_Some. naive_solver.
  - rewrite lookup_alter_ne by done. naive_solver.
Qed.

Lemma alter_eq_insert (f : TimerTaskEntry -> TimerTaskEntry) (m : gmap task_id TimerTaskEntry) i e :
  m !! i = Some e -> alter f i m = <[i := f e]> m.
Proof.
  intros He. apply map_eq. intros j. destruct (decide (i = j)) as [->|Hne].
  - by rewrite lookup_alter_eq, lookup_insert_eq, He.
  - by rewrite lookup_alter_ne, lookup_insert_ne.
Qed.

Lemma owned_alter f id t id' r :
  tasks f = alter (Wheel.set_owner r) id (tasks t) ->
  forall r', owned f id' r' <-> (id' = id /\ is_Some (tasks t !! id) /\ r = Some r') \/ (id' <> id /\ owned t id' r').
Proof.
  intros Ht r'. unfold owned. rewrite Ht. setoid_rewrite alter_task_lookup. split.
  - intros (e & [(-> & e' & He & ->)|[Hne He]] & Ho); [left; by eauto|right; by eauto].
  - intros [(-> & [e' He] & ->)|[Hne (e & He & Ho)]]; [|by eauto]. exists (Wheel.set_owner (Some r') e'). by eauto 10.
Qed.

Section Placed.
Context (c : Z) (x : option bucket_ref) (fl : list task_id) (n : Z) (t : SystemTimer) (id : task_id)
        (e : TimerTaskEntry) (r : bucket_ref) (b : TimerTaskList) (X : Z).
Context (Hi : inv c x (id :: fl) n t) (He : tasks t !! id = Some e) (Hb : Wheel.lookup_bucket r t = Some b)
        (Hx : Some r <> x) (Hdue : due_at c r X) (HX : X <= expiration_ms e < X + tick_at r.1).

Lemma flying_free : owner e = None /\ cancelled e = false.
Proof.
  destruct (iv_free Hi) as [_ Hf]. apply Forall_cons in Hf as [(e' & He' & Ho) _].
  pose proof (iv_flight Hi) as Hl. apply Forall_cons in Hl as [(e'' & He'' & Hc) _]. by simplify_eq.
Qed.

Lemma flying_unowned r' : ~ owned t id r'.
Proof. intros (e' & He' & Ho). destruct flying_free. simplify_eq. Qed.

Lemma placed_owned id' r' :
  owned (place r id X t) id' r' <-> (id' = id /\ r' = r) \/ (id' <> id /\ owned t id' r').
Proof. rewrite (owned_alter _ id t id' (Some r) (place_tasks r id X t)). rewrite He. naive_solver. Qed.

(** The tasks of the bucket expire with it. *)
Lemma placed_bucket : bucket b <> [] -> bucket_expiration_ms b = X.
Proof.
  intros Hne. destruct (decide (r ∈ queue t)) as [Hr|Hr].
  - destruct (iv_queued Hi r Hr) as (_ & b' & Hb' & Hdue'). simplify_eq. by eapply due_unique.
  - by destruct (iv_idle Hi r b Hb Hr).
Qed.

Lemma placed_queued r' : r' ∈ queue (place r id X t) <-> r' = r \/ r' ∈ queue t.
Proof.
  erewrite place_queue by eauto. destruct (decide _); [|rewrite elem_of_app, list_elem_of_singleton]; naive_solver.
Qed.

Lemma placed_buckets r' b' :
  Wheel.lookup_bucket r' (place r id X t) = Some b' ->
  (forall id', id' ∈ bucket b' <-> owned (place r id X t) id' r') /\ NoDup (bucket b').
Proof.
  rewrite (place_lookup _ _ _ _ _ _ Hb). destruct (decide (r' = r)) as [->|Hne].
  - intros [= <-]. cbn. pose proof (iv_members Hi) as Hm. split.
    + intros id'. rewrite placed_owned, elem_of_app, list_elem_of_singleton, (Hm id' r b Hb).
      destruct (decide (id' = id)) as [->|]; naive_solver.
    + apply NoDup_app. split; [by apply (iv_nodup Hi r)|]. split; [|apply NoDup_singleton].
      intros id' Hin ->%list_elem_of_singleton. apply (Hm id r b Hb) in Hin. by apply flying_unowned in Hin.
  - intros Hb'. split; [|by apply (iv_nodup Hi r')]. intros id'.
    rewrite placed_owned, (iv_members Hi id' r' b' Hb'). split; [|naive_solver].
    destruct (decide (id' = id)) as [->|]; [|by right]. by intros ?%flying_unowned.
Qed.

Lemma placed_tasks id' e' r' :
  tasks (place r id X t) !! id' = Some e' -> owner e' = Some r' -> cancelled e' = false /\
  exists b', Wheel.lookup_bucket r' (place r id X t) = Some b' /\
    bucket_expiration_ms b' <= expiration_ms e' < bucket_expiration_ms b' + tick_at r'.1.
Proof.
  rewrite place_tasks, alter_task_lookup. intros [(-> & e0 & He0 & ->)|[Hne He']] Ho.
  - assert (e0 = e) as -> by congruence. injection Ho as <-. split; [apply flying_free|]. rewrite (place_lookup _ _ _ _ _ _ Hb).
    rewrite decide_True by done. by eexists.
  - destruct (iv_tasks Hi _ _ _ He' Ho) as (Hc & b' & Hb' & Hr). split; [done|].
    rewrite (place_lookup _ _ _ _ _ _ Hb). destruct (decide (r' = r)) as [->|]; [|by eauto].
    eexists. split; [done|]. simplify_eq. cbn. rewrite placed_bucket in Hr; [done|].
    assert (Hin : id' ∈ bucket b) by (apply (iv_members Hi _ _ _ Hb); by exists e').
    by destruct (bucket b); [apply elem_of_nil in Hin|].
Qed.

Lemma place_inv : inv c x fl (n - 1) (place r id X t).
Proof.
  pose proof flying_free as [Ho Hcan].
  assert (Hrest : expired_timers (place r id X t) = expired_timers t /\ running (place r id X t) = running t /\
                  num_timers (place r id X t) = num_timers t) by (unfold place; cbn; by destruct (negb _)).
  destruct Hrest as (Hexp & Hrun & Hnum). destruct (iv_free Hi) as [Hnd Hfree]. cbn in Hnd, Hfree.
  apply NoDup_cons in Hnd as [Hni Hnd]. apply Forall_cons in Hfree as [_ Hfree].
  split; rewrite ?Hexp, ?Hrun, ?Hnum.
  - apply Hi.
  - assert (Hw : wheels (place r id X t) = wheels (Wheel.alter_bucket (fun b => mkTimerTaskList X (bucket b)) r
      (Wheel.list_add r id t))) by (unfold place; cbn; by destruct (negb _)).
    rewrite Hw. apply wheels_ok_alter. apply (wheels_ok_alter _ _ _ t), Hi.
  - erewrite place_queue by eauto. destruct (decide _); [apply Hi|]. apply NoDup_app.
    split; [apply Hi|]. split; [|apply NoDup_singleton]. by intros r' Hr' ->%list_elem_of_singleton.
  - intros r'. rewrite placed_queued, (place_lookup _ _ _ _ _ _ Hb). intros Hq.
    destruct (decide (r' = r)) as [->|]; [by eauto|]. destruct Hq as [|Hq]; [done|]. by apply (iv_queued Hi).
  - intros r' b'. rewrite placed_queued, (place_lookup _ _ _ _ _ _ Hb). intros Hb' Hq.
    rewrite decide_False in Hb' by naive_solver. apply (iv_idle Hi); naive_solver.
  - intros id' r' b' Hb'. by apply placed_buckets.
  - intros r' b' Hb'. by apply (placed_buckets r').
  - apply placed_tasks.
  - rewrite place_tasks, (iv_count Hi).
    replace (alter (Wheel.set_owner (Some r)) id (tasks t)) with (<[id := Wheel.set_owner (Some r) e]> (tasks t))
      by (symmetry; by apply alter_eq_insert).
    pose proof (total_update is_owned _ _ _ (Wheel.set_owner (Some r) e) He) as Htot. cbn in Htot.
    unfold is_owned in Htot at 2. rewrite Ho in Htot. lia.
  - split; [done|]. apply Forall_forall. intros id' Hin. rewrite Forall_forall in Hfree.
    destruct (Hfree _ Hin) as (e' & He' & Ho'). exists e'. rewrite place_tasks, lookup_alter_ne by (by intros ->). done.
  - pose proof (iv_flight Hi) as Hl. apply Forall_cons in Hl as [_ Hl]. rewrite Forall_forall in *.
    intros id' Hin. destruct (Hl _ Hin) as (e' & He' & Ho'). exists e'. rewrite place_tasks, lookup_alter_ne; [done|].
    intros ->. apply Hni. apply elem_of_app. by left.
Qed.
End Placed.


(** ** [TimeWheel::add] *)

(** What adding a task does: it is in a bucket, below the flushed one, or it has
    expired. *)
Record settled (c : Z) (x : option bucket_ref) (fl : list task_id) (n : Z) (id : task_id) (e : TimerTaskEntry)
  (t : SystemTimer) (added : bool) (t' : SystemTimer) : Prop := {
  st_inv : inv c x fl (if added then n - 1 else n) t';
  st_tasks : exists o, tasks t' = <[id := Wheel.set_owner o e]> (tasks t) /\
    if added then exists r, o = Some r /\ forall l i, x = Some (l, i) -> (r.1 < l)%nat else o = None;
  st_expired : expired_timers t' = if added then expired_timers t else expired_timers t ++ [id];
  st_running : running t' = running t;
  st_queue : (length (queue t') <= length (queue t) + (if added then 1 else 0))%nat;
  st_added : added = bool_decide (c + T <= expiration_ms e);
}.

(** The flushed bucket takes no task that expires within its tick. *)
Definition flushed (c : Z) (x : option bucket_ref) (e : TimerTaskEntry) : Prop :=
  forall l i, x = Some (l, i) -> expiration_ms e < c + tick_at l /\ c mod tick_at l = 0.

Lemma below_flushed c x e k l i :
  flushed c x e -> floor_to (tick_at k) c + tick_at k <= expiration_ms e -> x = Some (l, i) -> (k < l)%nat.
Proof.
  intros Hx Hlow Hl. destruct (Hx l i Hl) as [Hlt Hc]. destruct (Nat.lt_ge_cases k l) as [|Hge]; [done|]. exfalso.
  destruct (floor_to_spec (tick_at k) c (tick_pos k)) as [Hf Hf0]. apply (tick_divides l k) in Hf0; [|lia].
  destruct (tick_le l k Hge) as (m & Hm & Hk). rewrite Hk in *. pose proof (tick_pos l).
  apply Z.mod_divide in Hf0 as [q Hq], Hc as [d ->]; [|lia..]. rewrite Hq in *.
  assert (d < q + m) by (apply (Z.mul_lt_mono_pos_r (tick_at l)); lia). nia.
Qed.

Lemma floor_coarser k c : floor_to (tick_at (S k)) c <= floor_to (tick_at k) c.
Proof.
  rewrite <- (tick_floor k (S k)) by lia.
  apply (floor_to_spec (tick_at (S k)) (floor_to (tick_at k) c)), tick_pos.
Qed.

Lemma detach_free id t : free t id -> Wheel.detachFromCurrentBucket id t = t.
Proof. intros (e & He & Ho). unfold Wheel.detachFromCurrentBucket. rewrite He. cbn. by rewrite Ho. Qed.

Lemma slot_lookup c x fl n t k w v :
  inv c x fl n t -> wheels t !! k = Some w ->
  exists b, Wheel.lookup_bucket (k, Z.to_nat (v mod N)) t = Some b.
Proof.
  intros Hi Hw. unfold Wheel.lookup_bucket. cbn [fst snd]. rewrite Hw. cbn [mbind option_bind].
  apply lookup_lt_is_Some_2. rewrite (wk_buckets c k w) by by apply Hi. pose proof (Z.mod_pos_bound v N). lia.
Qed.

Lemma place_settled c x fl n t id e r b X :
  inv c x (id :: fl) n t -> tasks t !! id = Some e -> Wheel.lookup_bucket r t = Some b ->
  due_at c r X -> X <= expiration_ms e < X + tick_at r.1 ->
  (forall l i, x = Some (l, i) -> (r.1 < l)%nat) -> c + T <= expiration_ms e ->
  settled c x fl n id e t true (place r id X t).
Proof.
  intros Hi He Hb Hdue HX Hbelow Hlate.
  assert (Hx : Some r <> x) by (destruct r as [k i]; intros <-; specialize (Hbelow k i eq_refl); cbn in Hbelow; lia).
  split; [by eapply place_inv| | | | |by rewrite bool_decide_eq_true_2].
  - exists (Some r). split; [rewrite place_tasks; by apply alter_eq_insert|]. by exists r.
  - unfold place. cbn. by destruct (negb _).
  - unfold place. cbn. by destruct (negb _).
  - erewrite place_queue by eauto. destruct (decide _); [lia|]. by rewrite length_app.
Qed.

(** Enough fuel and an expiration beyond the present tick of the wheel. *)
Lemma add_placed fuel k c x fl n t id e :
  inv c x (id :: fl) n t -> tasks t !! id = Some e -> is_Some (wheels t !! k) ->
  floor_to (tick_at k) c + tick_at k <= expiration_ms e < tick_at (k + fuel) ->
  flushed c x e -> c + T <= expiration_ms e ->
  exists t', Wheel.add fuel k id t = Some (true, t') /\ settled c x fl n id e t true t'.
Proof.
  revert k t. induction fuel as [|fuel IH]; intros k t Hi He [w Hw] [Hlow Hup] Hx Hlate.
  { rewrite Nat.add_0_r in Hup. destruct (floor_to_spec (tick_at k) c (tick_pos k)). pose proof (iv_clock Hi).
    assert (0 <= floor_to (tick_at k) c) by (unfold floor_to; pose proof (Z.mod_le c (tick_at k)); pose proof (tick_pos k); lia).
    lia. }
  destruct (proj2 (iv_wheels Hi) k w Hw) as [Htick Hsize Hint Htime Hlen].
  assert (Hfree : free t id) by (destruct (flying_free _ _ _ _ _ _ _ Hi He); by exists e).
  destruct (flying_free _ _ _ _ _ _ _ Hi He) as [Ho Hcan]. cbn [Wheel.add]. rewrite He, Hw. cbn [mbind option_bind].
  rewrite Hcan, Htick, Hint, Htime. rewrite (proj2 (Z.ltb_ge _ _)) by done. case_match eqn:Hin.
  - apply Z.ltb_lt in Hin. pose proof (iv_clock Hi) as [Hc0 _].
    pose proof (tick_pos k). rewrite Hsize, Z.quot_div_nonneg by lia.
    rewrite Z.rem_mod_nonneg by (try apply Z.div_pos; lia). rewrite detach_free by done.
    destruct (due_slot c k (expiration_ms e) (conj Hlow Hin)) as [Hdue HX].
    destruct (slot_lookup _ _ _ _ _ _ _ (expiration_ms e / tick_at k) Hi Hw) as [b Hb].
    eexists. split; [reflexivity|]. eapply place_settled; eauto.
    intros l i Hl. by eapply below_flushed.
  - apply Z.ltb_ge in Hin. destruct (overflow_inv _ _ _ _ _ _ _ Hi Hw) as (Hi' & Hsome & Heq). pose proof (floor_coarser k c).
    destruct (IH (S k) (Wheel.getOrCreateOverflowWheel k t) Hi') as (t' & Ht' & Hset); try done.
    { by rewrite Heq. }
    { split; [lia|]. by rewrite Nat.add_succ_comm. }
    exists t'. split; [done|]. destruct Hset as [H1 H2 H3 H4 H5 H6]. rewrite Heq in H2, H3, H4, H5. by split.
Qed.

(** ** [addTimerTaskEntryLocked] *)

Lemma levels_enough x : x < tick_at (Timer.levels x).
Proof.
  unfold Timer.levels, tick_at. set (l := Z.log2_up x). pose proof (Z.log2_up_nonneg x).
  destruct (Z.le_gt_cases x 1) as [Hx|Hx].
  { pose proof (Z.pow_le_mono_l 2 N 2 ltac:(lia)) as Hp. rewrite !Nat2Z.inj_succ, !Z.pow_succ_r by lia.
    pose proof (Z.pow_pos_nonneg N (Z.of_nat (Z.to_nat l))). nia. }
  pose proof (Z.log2_up_spec x Hx) as [_ Hup]. fold l in Hup.
  rewrite !Nat2Z.inj_succ, !Z.pow_succ_r, Z2Nat.id by lia.
  pose proof (Z.pow_le_mono_l 2 N l ltac:(lia)). set (y := N ^ l) in *. assert (x <= y) by lia.
  assert (2 * y <= N * y) by nia. assert (2 * (N * y) <= N * (N * y)) by nia. nia.
Qed.

Lemma expire_inv c x fl n t id :
  inv c x (id :: fl) n t -> inv c x fl n (set_expired_timers (expired_timers t ++ [id]) t).
Proof.
  intros []. split; try done; cbn.
  - assert (Hp : fl ++ (expired_timers t ++ [id]) ++ running t ≡ₚ (id :: fl) ++ expired_timers t ++ running t)
      by solve_Permutation. rewrite Hp. exact iv_free0.
  - by apply Forall_cons in iv_flight0 as [_ ?].
Qed.

Lemma addTimerTaskEntryLocked_spec c x fl n t id e :
  inv c x (id :: fl) n t -> tasks t !! id = Some e -> flushed c x e ->
  exists added t', Timer.addTimerTaskEntryLocked id t = Some (added, t') /\ settled c x fl n id e t added t'.
Proof.
  intros Hi He Hx. unfold Timer.addTimerTaskEntryLocked. rewrite He. cbn [mbind option_bind].
  destruct (iv_wheels Hi) as [Hne Hok]. destruct (wheels t !! 0%nat) as [w|] eqn:Hw; [|by destruct (wheels t)].
  destruct (iv_clock Hi) as [_ Hc].
  assert (Hfl : floor_to (tick_at 0) c = c) by (rewrite tick_0; by apply floor_to_id).
  destruct (Z.le_gt_cases (c + T) (expiration_ms e)) as [Hlate|Hsoon].
  - edestruct (add_placed (Timer.levels (expiration_ms e)) 0) as (t' & Ht' & Hset); [done|done|by rewrite Hw| |done|done|].
    { rewrite Hfl, tick_0. split; [done|]. apply levels_enough. }
    rewrite Ht'. by eauto.
  - destruct (flying_free _ _ _ _ _ _ _ Hi He) as [Ho Hcan]. destruct (Hok 0%nat w Hw).
    unfold Timer.levels. cbn [Wheel.add]. rewrite He, Hw. cbn [mbind option_bind]. rewrite Hcan, wk_time0, wk_tick0, Hfl, tick_0.
    rewrite (proj2 (Z.ltb_lt _ _)) by lia. cbn. rewrite He. cbn. rewrite Hcan, bool_decide_eq_true_2 by done.
    eexists _, _. split; [reflexivity|]. cbn. split; cbn; try done; [by apply expire_inv| |lia|by rewrite bool_decide_eq_false_2 by lia].
    exists None. split; [|done]. symmetry. apply insert_id. rewrite He. f_equal. by destruct e; cbn in *; subst.
Qed.

End Spec.

Arguments iv_clock {T N c x fl n t} _.
Arguments iv_wheels {T N c x fl n t} _.
Arguments iv_queue {T N c x fl n t} _.
Arguments iv_queued {T N c x fl n t} _.
Arguments iv_idle {T N c x fl n t} _.
Arguments iv_members {T N c x fl n t} _.
Arguments iv_nodup {T N c x fl n t} _.
Arguments iv_tasks {T N c x fl n t} _.
Arguments iv_count {T N c x fl n t} _.
Arguments iv_free {T N c x fl n t} _.
Arguments iv_flight {T N c x fl n t} _.
Arguments st_inv {T N c x fl n id e t added t'} _.
Arguments st_tasks {T N c x fl n id e t added t'} _.
Arguments st_expired {T N c x fl n id e t added t'} _.
Arguments st_running {T N c x fl n id e t added t'} _.
Arguments st_queue {T N c x fl n id e t added t'} _.
Arguments st_added {T N c x fl n id e t added t'} _.
