(* ===== verification/TimerPoll.v ===== *)
(** * Polling a timer

    [advanceClock], [flush] and the loop of [poll] keep the invariant; every task whose
    tick has come leaves the buckets, no other task does, and the loop ends. *)

From S2P Require Import Prelude Rounding TimeWheel TimerSpec.

Local Open Scope Z_scope.

(** The task is in a bucket. *)
Definition pending (t : SystemTimer) (id : task_id) : Prop := exists r, owned t id r.

(** Buckets hand their tasks on: those of [fl] and the pending ones are, afterwards,
    pending, in [fl'], or in [new], the ones that expired. *)
Record handed (fl : list task_id) (t : SystemTimer) (new fl' : list task_id) (t' : SystemTimer) : Prop := {
  hd_tasks : forall id, Wheel.set_owner None <$> tasks t' !! id = Wheel.set_owner None <$> tasks t !! id;
  hd_expired : expired_timers t' = expired_timers t ++ new;
  hd_running : running t' = running t;
  hd_pending : forall id, pending t id \/ id ∈ fl <-> pending t' id \/ id ∈ fl' \/ id ∈ new;
}.

Lemma handed_trans fl t new fl1 t1 new' fl2 t2 :
  handed fl t new fl1 t1 -> handed fl1 t1 new' fl2 t2 -> handed fl t (new ++ new') fl2 t2.
Proof.
  intros [H1 H2 H3 H4] [G1 G2 G3 G4]. split; [congruence|by rewrite G2, H2, app_assoc|congruence|].
  intros id. rewrite H4, elem_of_app. specialize (G4 id). tauto.
Qed.

(** What a task is besides its place. *)
Lemma handed_task fl t new fl' t' id e :
  handed fl t new fl' t' -> tasks t !! id = Some e ->
  exists o, tasks t' !! id = Some (Wheel.set_owner o e).
Proof.
  intros [Ht _ _ _] He. specialize (Ht id). rewrite He in Ht. destruct (tasks t' !! id) as [e'|]; [|done].
  cbn in Ht. exists (owner e'). f_equal. destruct e, e'. cbn in *. by simplify_eq.
Qed.

Lemma handed_back fl t new fl' t' id e :
  handed fl t new fl' t' -> tasks t' !! id = Some e ->
  exists o, tasks t !! id = Some (Wheel.set_owner o e).
Proof.
  intros [Ht _ _ _] He. specialize (Ht id). rewrite He in Ht. destruct (tasks t !! id) as [e'|]; [|done].
  cbn in Ht. exists (owner e'). f_equal. destruct e, e'. cbn in *. by simplify_eq.
Qed.

Section Spec.
Context (T N : Z) (HT : 0 < T) (HN : 2 <= N).
Local Abbreviation inv := (inv T N).
Local Abbreviation tick_at := (tick_at T N).
Local Abbreviation due_at := (due_at T N).
Local Abbreviation wheel_ok := (wheel_ok T N).

(** ** The clock *)

Lemma advance_wheels c E ws k time :
  0 <= time -> c <= E -> floor_to (tick_at k) time = floor_to (tick_at k) E ->
  (forall j w, ws !! j = Some w -> wheel_ok c (k + j) w) ->
  forall j w, Wheel.advanceClock time ws !! j = Some w -> wheel_ok E (k + j) w.
Proof.
  revert k time. induction ws as [|w0 ws IH]; intros k time H0 HcE Htime Hok j w; [done|]. cbn [Wheel.advanceClock].
  destruct (Hok 0%nat w0 eq_refl) as [Htick Hsize Hint Hcur Hlen]. rewrite Nat.add_0_r in *.
  pose proof (tick_pos T N HT HN k) as Ht. rewrite Htick, Hcur, Z.rem_mod_nonneg by lia.
  change (time - time mod tick_at k) with (floor_to (tick_at k) time). case_match eqn:Hle.
  - destruct j as [|j]; cbn.
    + intros [= <-]. rewrite Nat.add_0_r. split; cbn; congruence.
    + rewrite <- Nat.add_succ_comm. apply (IH (S k)).
      * unfold floor_to. pose proof (Z.mod_le time (tick_at k)). lia.
      * done.
      * rewrite Htime. apply tick_floor; [done|done|lia].
      * intros j' w' Hw'. rewrite Nat.add_succ_comm. by apply (Hok (S j')).
  - intros Hw. apply Z.leb_gt in Hle. destruct (floor_to_spec (tick_at k) time Ht) as [Hf Hf0].
    assert (Hsame : floor_to (tick_at k) E = floor_to (tick_at k) c).
    { rewrite <- Htime in *. apply (floor_mono (tick_at k)) in HcE; [|done]. rewrite <- Htime in HcE.
      apply (multiples_apart (tick_at k)); [done|done|by apply floor_to_spec|lia..]. }
    destruct (Hok j w Hw). split; try done. rewrite wk_time.
    rewrite <- (tick_floor T N HT HN k (k + j) E), <- (tick_floor T N HT HN k (k + j) c) by lia. by rewrite Hsame.
Qed.

Lemma advance_buckets time ws : map buckets (Wheel.advanceClock time ws) = map buckets ws.
Proof. revert time. induction ws as [|w ws IH]; intros time; [done|]. cbn. case_match; cbn; [by rewrite IH|done]. Qed.

Lemma advance_lookup time t r :
  Wheel.lookup_bucket r (set_wheels (Wheel.advanceClock time (wheels t)) t) = Wheel.lookup_bucket r t.
Proof.
  assert (Hl : forall ws, (w ← ws !! r.1; buckets w !! r.2) = (bs ← map buckets ws !! r.1; bs !! r.2)).
  { intros ws. change (map buckets ws) with (buckets <$> ws). rewrite list_lookup_fmap. by destruct (ws !! r.1). }
  unfold Wheel.lookup_bucket. cbn. by rewrite !Hl, advance_buckets.
Qed.

Lemma advance_inv c x fl n t E :
  inv c x fl n t -> c <= E -> E mod T = 0 ->
  (forall r b, r ∈ queue t -> Wheel.lookup_bucket r t = Some b -> E <= bucket_expiration_ms b) ->
  inv E x fl n (set_wheels (Wheel.advanceClock E (wheels t)) t).
Proof.
  intros Hi HcE HE Hmin. pose proof (iv_clock Hi) as [Hc0 _]. destruct (iv_wheels Hi) as [Hne Hok].
  eapply inv_wheels; [done|split; [lia|done]| | | |].
  - split; [intros Heq%(f_equal (map buckets)); rewrite advance_buckets in Heq; by destruct (wheels t)|].
    intros k w. apply (advance_wheels c E _ 0); [lia|done|done|done].
  - intros r b. by rewrite advance_lookup.
  - intros r b. rewrite advance_lookup. by left.
  - intros r b Hr Hb. destruct (iv_queued Hi r Hr) as (_ & b' & Hb' & []). simplify_eq. split; [done|done|].
    split; [by eapply Hmin|]. pose proof (floor_mono (tick_at r.1) c E (tick_pos T N HT HN _) HcE). lia.
Qed.

(** ** Taking the tasks out of a bucket *)

Lemma clear_lookup (m : gmap task_id TimerTaskEntry) ids i :
  foldr (alter (Wheel.set_owner None)) m ids !! i =
  if decide (i ∈ ids) then Wheel.set_owner None <$> m !! i else m !! i.
Proof.
  induction ids as [|id ids IH]; [by rewrite decide_False by apply not_elem_of_nil|]. cbn.
  destruct (decide (i = id)) as [->|Hne].
  - rewrite lookup_alter_eq, IH, (decide_True (P := id ∈ id :: ids)) by left. destruct (decide _); [|done].
    by destruct (m !! id) as [[]|].
  - rewrite lookup_alter_ne, IH by done. destruct (decide (i ∈ ids)) as [Hin|Hn].
    + by rewrite decide_True by by right.
    + by rewrite decide_False by by intros [?|?]%elem_of_cons.
Qed.

Lemma total_clear f a (m : gmap task_id TimerTaskEntry) ids :
  NoDup ids ->
  (forall id, id ∈ ids -> exists e, m !! id = Some e /\ f e = a /\ f (Wheel.set_owner None e) = 0%nat) ->
  total f m = (total f (foldr (alter (Wheel.set_owner None)) m ids) + length ids * a)%nat.
Proof.
  induction 1 as [|id ids Hni Hnd IH]; intros Hall; [cbn; lia|]. cbn [foldr].
  rewrite IH by (intros; apply Hall; by right). destruct (Hall id) as (e & He & Ha & H0); [by left|].
  assert (He' : foldr (alter (Wheel.set_owner None)) m ids !! id = Some e) by by rewrite clear_lookup, decide_False.
  rewrite (alter_eq_insert _ _ _ _ He').
  pose proof (total_update f _ id e (Wheel.set_owner None e) He') as Hu. cbn [length]. lia.
Qed.

(** The queue without [r], whose bucket was emptied. *)
Definition opened (r : bucket_ref) (ids : list task_id) (t : SystemTimer) : SystemTimer :=
  foldr (Wheel.alter_task (Wheel.set_owner None))
    (Wheel.alter_bucket (fun b => mkTimerTaskList (bucket_expiration_ms b) []) r
       (set_queue (filter (fun x => x <> r) (queue t)) t)) ids.

Lemma clear_eq ids t :
  foldr (Wheel.alter_task (Wheel.set_owner None)) t ids =
  set_tasks (foldr (alter (Wheel.set_owner None)) (tasks t) ids) t.
Proof. induction ids as [|id ids IH]; cbn; [by destruct t|]. by rewrite IH. Qed.

Lemma opened_lookup r ids t r' :
  Wheel.lookup_bucket r' (opened r ids t) =
  if decide (r' = r) then (fun b => mkTimerTaskList (bucket_expiration_ms b) []) <$> Wheel.lookup_bucket r t
  else Wheel.lookup_bucket r' t.
Proof.
  unfold opened. rewrite clear_eq.
  rewrite (lookup_same_wheels (Wheel.alter_bucket (fun b => mkTimerTaskList (bucket_expiration_ms b) []) r
    (set_queue (filter (fun x => x <> r) (queue t)) t))) by done.
  rewrite lookup_alter_bucket. by rewrite !(lookup_same_wheels t) by done.
Qed.

Section Opened.
Context (c : Z) (t : SystemTimer) (r : bucket_ref) (b : TimerTaskList).
Context (Hi : inv c None [] 0 t) (Hb : Wheel.lookup_bucket r t = Some b).
Local Abbreviation t1 := (opened r (bucket b) t).

Lemma opened_tasks i : tasks t1 !! i = if decide (i ∈ bucket b) then Wheel.set_owner None <$> tasks t !! i else tasks t !! i.
Proof. unfold opened. rewrite clear_eq. cbn. apply clear_lookup. Qed.

Lemma opened_member id : id ∈ bucket b -> exists e, tasks t !! id = Some e /\ owner e = Some r.
Proof. intros Hin. by apply (iv_members Hi _ _ _ Hb) in Hin. Qed.

Lemma opened_owned id r' : owned t1 id r' <-> owned t id r' /\ r' <> r.
Proof.
  unfold owned at 1. rewrite opened_tasks. destruct (decide (id ∈ bucket b)) as [Hin|Hn].
  - destruct (opened_member id Hin) as (e & He & Ho). rewrite He. cbn. split.
    + by intros (e' & [= <-] & ?).
    + intros [(e' & He' & Ho') Hne]. congruence.
  - rewrite (iv_members Hi _ _ _ Hb) in Hn. split; [|by intros [? _]]. intros Ho. split; [done|]. by intros ->.
Qed.

Lemma opened_rest :
  queue t1 = filter (fun x => x <> r) (queue t) /\ num_timers t1 = num_timers t /\
  expired_timers t1 = expired_timers t /\ running t1 = running t.
Proof. unfold opened. by rewrite clear_eq. Qed.

Lemma opened_total f a :
  (forall e, owner e = Some r -> f e = a /\ f (Wheel.set_owner None e) = 0%nat) ->
  total f (tasks t) = (total f (tasks t1) + length (bucket b) * a)%nat.
Proof.
  intros Hf. unfold opened. rewrite clear_eq. cbn. apply total_clear; [by apply (iv_nodup Hi r)|].
  intros id (e & He & Ho)%opened_member. exists e. split; [done|]. by apply Hf.
Qed.

Lemma opened_handed : handed [] t [] (bucket b) t1.
Proof.
  destruct opened_rest as (_ & _ & He & Hrun). split; [|by rewrite app_nil_r|done|].
  - intros id. rewrite opened_tasks. destruct (decide _); [|done]. by destruct (tasks t !! id) as [[]|].
  - intros id. unfold pending. setoid_rewrite opened_owned. rewrite (iv_members Hi id _ _ Hb).
    rewrite elem_of_nil. split; [|naive_solver]. intros [[r' Ho]|[]]. destruct (decide (r' = r)) as [->|]; naive_solver.
Qed.

Lemma opened_free : NoDup (bucket b ++ expired_timers t ++ running t) /\
  Forall (free t1) (bucket b ++ expired_timers t ++ running t).
Proof.
  destruct (iv_free Hi) as [Hnd Hf]. cbn in Hnd, Hf. rewrite Forall_forall in Hf. split.
  - apply NoDup_app. split; [by apply (iv_nodup Hi r)|]. split; [|done]. intros id Hin Hin'.
    destruct (opened_member id Hin) as (e & He & Ho), (Hf id Hin') as (e' & He' & Ho'). congruence.
  - apply Forall_forall. intros id Hin. unfold free. rewrite opened_tasks. destruct (decide _) as [Hb'|Hn].
    + destruct (opened_member id Hb') as (e & He & _). rewrite He. by eexists.
    + apply Hf. apply elem_of_app in Hin. naive_solver.
Qed.

Lemma opened_inv : inv c (Some r) (bucket b) (Z.of_nat (length (bucket b))) t1.
Proof.
  destruct opened_rest as (Hq & Hn & He & Hrun). destruct opened_free as [Hnd Hfree].
  assert (Hin : forall r', r' ∈ queue t1 <-> r' ∈ queue t /\ r' <> r)
    by (intros r'; rewrite Hq, list_elem_of_filter; naive_solver).
  split; rewrite ?He, ?Hrun; try done.
  - apply Hi.
  - unfold opened. rewrite clear_eq. apply (wheels_ok_alter T N c _ r (set_queue _ t)), Hi.
  - rewrite Hq. apply NoDup_filter, Hi.
  - intros r' [Hr' Hne]%Hin. rewrite opened_lookup, decide_False by done.
    split; [congruence|]. by destruct (iv_queued Hi r' Hr') as [_ ?].
  - intros r' b'. rewrite opened_lookup, Hb, Hin. destruct (decide (r' = r)) as [->|Hne]; cbn.
    + by intros [= <-] _.
    + intros Hb' Hnq. destruct (iv_idle Hi r' b' Hb') as [H1 H2]; [naive_solver|]. split; [done|]. intros _. by apply H2.
  - intros id r' b'. rewrite opened_lookup, Hb, opened_owned. destruct (decide (r' = r)) as [->|Hne]; cbn.
    + intros [= <-]. cbn. rewrite elem_of_nil. naive_solver.
    + intros Hb'. rewrite (iv_members Hi _ _ _ Hb'). naive_solver.
  - intros r' b'. rewrite opened_lookup, Hb. destruct (decide (r' = r)); cbn; [intros [= <-]; constructor|].
    apply (iv_nodup Hi).
  - intros id e r' Ht Ho. destruct (proj1 (opened_owned id r')) as [(e' & Ht' & _) Hne]; [by exists e|].
    rewrite opened_tasks in Ht. destruct (decide _).
    { rewrite Ht' in Ht. cbn in Ht. simplify_eq. }
    rewrite opened_lookup, decide_False by done. by apply (iv_tasks Hi id).
  - rewrite Hn, (iv_count Hi), (opened_total is_owned 1); [lia|]. intros e Ho. unfold is_owned. by rewrite Ho.
  - apply Forall_forall. intros id Hid. rewrite opened_tasks, decide_True by done.
    destruct (opened_member id Hid) as (e & Ht & Ho). rewrite Ht. eexists. split; [done|].
    by destruct (iv_tasks Hi _ _ _ Ht Ho).
Qed.
End Opened.


(** ** [flush] *)

Lemma work_total t : Timer.work_left t = (total Timer.weight (tasks t) + length (queue t))%nat.
Proof. done. Qed.

(** The count of the timer after one of the tasks that are not in buckets was dropped. *)
Lemma count_inv c x fl n t k :
  inv c x fl n t -> inv c x fl (n + k) (set_num_timers (num_timers t + k) t).
Proof. intros []. split; try done. cbn. lia. Qed.

(** A task that was settled was handed on, to a finer wheel or to be run. *)
Lemma settled_handed c x fl n id e t added t' :
  settled T N c x fl n id e t added t' -> tasks t !! id = Some e -> owner e = None -> NoDup (id :: fl) ->
  handed (id :: fl) t (if added then [] else [id]) fl t'.
Proof.
  intros [_ (o & Ht & Ho) He Hr _ _] Hid Hfree [Hni _]%NoDup_cons.
  assert (Hown : forall i r, owned t' i r <-> (i = id /\ o = Some r) \/ (i <> id /\ owned t i r)).
  { intros i r. unfold owned. rewrite Ht. destruct (decide (i = id)) as [->|Hne].
    - rewrite lookup_insert_eq. split; [by intros (? & [= <-] & ?); left|].
      intros [[_ ->]|[? _]]; [by eexists|done].
    - rewrite lookup_insert_ne by done. naive_solver. }
  assert (Hno : forall r, ~ owned t id r) by (intros r (e' & He' & Ho'); congruence).
  split; [|by destruct added; rewrite ?app_nil_r|done|].
  - intros i. rewrite Ht. destruct (decide (i = id)) as [->|Hne]; [|by rewrite lookup_insert_ne].
    by rewrite lookup_insert_eq, Hid.
  - intros i. unfold pending. setoid_rewrite Hown. rewrite elem_of_cons.
    destruct (decide (i = id)) as [->|Hne].
    + split; [|intros; right; by left]. intros _. destruct added; [destruct Ho as (r & -> & _); left; by eauto|].
      right. right. by apply list_elem_of_singleton.
    + assert (i ∉ (if added then [] else [id])) by (destruct added; [apply not_elem_of_nil|by rewrite list_elem_of_singleton]).
      naive_solver.
Qed.

(** The work a settled task leaves is less than what its old bucket took. *)
Lemma settled_work c l i fl n id e t added t' :
  settled T N c (Some (l, i)) fl n id e t added t' -> tasks t !! id = Some e -> owner e = None ->
  (Timer.work_left t' <= Timer.work_left t + S (2 * l))%nat.
Proof.
  intros [_ (o & Ht & Ho) _ _ Hq _] Hid Hfree. rewrite !work_total, Ht.
  pose proof (total_update Timer.weight _ _ _ (Wheel.set_owner o e) Hid) as Hu.
  assert (Hw : (Timer.weight (Wheel.set_owner o e) <= 2 * l)%nat).
  { unfold Timer.weight. cbn. destruct added; [|by subst; lia]. destruct Ho as ([k j] & -> & Hlt).
    specialize (Hlt l i eq_refl). cbn in Hlt. lia. }
  unfold Timer.weight at 2 in Hu. rewrite Hfree in Hu. destruct added; lia.
Qed.

(** The tasks on their way when the bucket [(l, i)] was flushed at [c]. *)
Record flying (c : Z) (l : nat) (ids : list task_id) (t : SystemTimer) : Prop := {
  fy_clock : c mod tick_at l = 0;
  fy_tasks : forall id e, id ∈ ids -> tasks t !! id = Some e -> expiration_ms e < c + tick_at l;
}.

Lemma reinsert_spec c l i ids counts n t :
  inv c (Some (l, i)) ids n t -> flying c l ids t ->
  exists counts' new t', Timer.reinsert ids counts t = Some (counts', t') /\
    inv c (Some (l, i)) [] (n - Z.of_nat (length ids)) t' /\ handed ids t new [] t' /\
    (forall id e, id ∈ new -> tasks t !! id = Some e -> expiration_ms e < c + T) /\
    (counts'.1 + length new = counts.1 + length ids /\ counts'.2 = counts.2 + length new)%nat /\
    (Timer.work_left t' <= Timer.work_left t + length ids * S (2 * l))%nat.
Proof.
  revert counts n t. induction ids as [|id ids IH]; intros counts n t Hi Hfl.
  { exists counts, [], t. cbn. rewrite Z.sub_0_r. split_and!; try done; try lia.
    - split; [done|by rewrite app_nil_r|done|]. intros id'. rewrite elem_of_nil. tauto.
    - by intros ? ? ?%elem_of_nil. }
  destruct (iv_free Hi) as [Hnd Hfree]. apply Forall_cons in Hfree as [(e & He & Ho) _].
  destruct (addTimerTaskEntryLocked_spec T N HT HN _ _ _ _ _ _ _ Hi He) as (added & t1 & Ht1 & Hset).
  { intros l' i' [= <- <-]. split; [|apply Hfl]. by apply (fy_tasks _ _ _ _ Hfl id); [left|]. }
  assert (Hnd' : NoDup (id :: ids)) by by apply NoDup_app in Hnd as [? _].
  pose proof (settled_handed _ _ _ _ _ _ _ _ _ Hset He Ho Hnd') as Hh.
  pose proof (settled_work _ _ _ _ _ _ _ _ _ _ Hset He Ho) as Hw.
  set (t2 := if added then t1 else set_num_timers (num_timers t1 - 1) t1).
  assert (Hi2 : inv c (Some (l, i)) ids (n - 1) t2)
    by (pose proof (st_inv Hset); destruct added; [done|by apply (count_inv _ _ _ _ _ (-1))]).
  assert (Hh2 : handed (id :: ids) t (if added then [] else [id]) ids t2) by (destruct added; destruct Hh; by split).
  assert (Hw2 : Timer.work_left t2 = Timer.work_left t1) by by destruct added.
  destruct (IH (if added then (S counts.1, counts.2) else (counts.1, S counts.2)) _ _ Hi2)
    as (counts' & new & t' & Hre & Hi' & Hh' & Hnew & Hcount & Hw').
  { split; [apply Hfl|]. intros id' e' Hin He'. destruct (handed_back _ _ _ _ _ _ _ Hh2 He') as [o Hback].
    apply (fy_tasks _ _ _ _ Hfl id' _ (list_elem_of_further _ _ _ Hin) Hback). }
  exists counts', ((if added then [] else [id]) ++ new), t'. split_and!.
  - cbn [Timer.reinsert]. rewrite Ht1. cbn [mbind option_bind]. by destruct added.
  - replace (n - Z.of_nat (length (id :: ids))) with (n - 1 - Z.of_nat (length ids)) by (cbn [length]; lia). done.
  - by eapply handed_trans.
  - intros id' e' [Hin|Hin]%elem_of_app He'.
    + pose proof (st_added Hset) as Hadd. destruct added; [by apply elem_of_nil in Hin|].
      apply list_elem_of_singleton in Hin as ->. symmetry in Hadd. apply bool_decide_eq_false in Hadd. simplify_eq. lia.
    + destruct (handed_task _ _ _ _ _ _ _ Hh2 He') as [o Hthere]. apply (Hnew id' _ Hin Hthere).
  - rewrite length_app. cbn [length]. destruct added; cbn in *; lia.
  - rewrite length_app. destruct added; cbn in *; lia.
  - cbn [length]. lia.
Qed.


(** The flushed bucket is idle again. *)
Lemma close_inv c r n t :
  inv c (Some r) [] n t -> inv c None [] n (Wheel.alter_bucket (fun b => mkTimerTaskList (-1) (bucket b)) r t).
Proof.
  intros Hi. assert (Hr : r ∉ queue t) by by intros [? _]%(iv_queued Hi).
  assert (Hown : forall id, ~ owned t id r) by by intros id Ho%(owned_queued _ _ _ _ _ _ _ _ _ Hi).
  split; try apply Hi; try done.
  - apply wheels_ok_alter, Hi.
  - intros r' Hr'. rewrite lookup_alter_bucket, decide_False by by intros ->. split; [done|].
    by destruct (iv_queued Hi r' Hr') as [_ ?].
  - intros r' b'. rewrite lookup_alter_bucket. destruct (decide (r' = r)) as [->|Hne].
    + intros (b & Hb & ->)%fmap_Some _. by destruct (iv_idle Hi r b Hb Hr) as [-> _].
    + intros Hb' Hnq. destruct (iv_idle Hi r' b' Hb' Hnq) as [H1 H2]. split; [done|]. intros _. apply H2. congruence.
  - intros id r' b'. rewrite lookup_alter_bucket. destruct (decide (r' = r)) as [->|Hne]; [|apply (iv_members Hi)].
    intros (b & Hb & ->)%fmap_Some. apply (iv_members Hi id r b Hb).
  - intros r' b'. rewrite lookup_alter_bucket. destruct (decide (r' = r)) as [->|Hne]; [|apply (iv_nodup Hi)].
    intros (b & Hb & ->)%fmap_Some. apply (iv_nodup Hi r b Hb).
  - intros id e r' He Ho. rewrite lookup_alter_bucket, decide_False; [by apply (iv_tasks Hi id)|].
    intros ->. apply (Hown id). by exists e.
Qed.

Lemma flush_spec c r b counts t :
  inv c None [] 0 t -> r ∈ queue t -> Wheel.lookup_bucket r t = Some b -> bucket_expiration_ms b = c ->
  exists counts' new t', Timer.flush r counts (set_queue (filter (fun x => x <> r) (queue t)) t) = Some (counts', t') /\
    inv c None [] 0 t' /\ handed [] t new [] t' /\
    (forall id e, id ∈ new -> tasks t !! id = Some e -> expiration_ms e < c + T) /\
    (counts'.2 = counts.2 + length new)%nat /\ (Timer.work_left t' < Timer.work_left t)%nat.
Proof.
  intros Hi Hr Hb Hc. destruct r as [l i]. unfold Timer.flush.
  rewrite (lookup_same_wheels t) by done. rewrite Hb. cbn [mbind option_bind].
  change (foldr _ _ (bucket b)) with (opened (l, i) (bucket b) t).
  pose proof (opened_inv _ _ _ _ Hi Hb) as Hi1. pose proof (opened_handed _ _ _ _ Hi Hb) as Hh1.
  destruct (iv_queued Hi _ Hr) as (_ & b' & Hb' & Hdue). simplify_eq.
  destruct (reinsert_spec _ _ _ _ counts _ _ Hi1) as (counts' & new & t' & Hre & Hi2 & Hh2 & Hnew & [_ Hcount] & Hw).
  { split; [apply Hdue|]. intros id e Hin He. destruct (handed_back _ _ _ _ _ _ _ Hh1 He) as [o Hback].
    destruct (opened_member _ _ _ _ Hi Hb _ Hin) as (e' & He' & Ho').
    destruct (iv_tasks Hi _ _ _ He' Ho') as (_ & b' & Hb' & Hlt). simplify_eq. cbn in *. lia. }
  rewrite Hre. cbn [mbind option_bind]. rewrite Z.sub_diag in Hi2. eexists _, new, _. split; [reflexivity|]. split_and!.
  - by apply close_inv.
  - pose proof (handed_trans _ _ _ _ _ _ _ _ Hh1 Hh2) as []. by split.
  - intros id e Hin He. destruct (handed_task _ _ _ _ _ _ _ Hh1 He) as [o Hthere]. apply (Hnew id _ Hin Hthere).
  - done.
  - change (Timer.work_left (Wheel.alter_bucket _ _ t')) with (Timer.work_left t').
    rewrite !work_total in *. destruct (opened_rest t (l, i) b) as (Hq & _). rewrite Hq in Hw.
    pose proof (length_filter_lt (fun x : bucket_ref => x <> (l, i)) _ _ Hr ltac:(by intros Hne)).
    rewrite (opened_total _ _ _ _ Hi Hb Timer.weight (2 * S l)); [lia|]. intros e Ho. unfold Timer.weight. by rewrite Ho.
Qed.

(** ** The loop *)

Definition due_time (t : SystemTimer) (r : bucket_ref) : Z :=
  default 0 (bucket_expiration_ms <$> Wheel.lookup_bucket r t).

Lemma top_spec t q : 
  match Timer.top t q with
  | Some r => r ∈ q /\ forall r', r' ∈ q -> due_time t r <= due_time t r'
  | None => q = []
  end.
Proof.
  induction q as [|r q IH]; [done|]. cbn. destruct (Timer.top t q) as [r'|].
  - destruct IH as [Hin Hmin]. destruct (_ <? _) eqn:Hlt.
    + apply Z.ltb_lt in Hlt. split; [by right|]. intros r'' [->|Hr]%elem_of_cons; [unfold due_time; lia|auto].
    + apply Z.ltb_ge in Hlt. split; [by left|]. intros r'' [->|Hr]%elem_of_cons; [lia|].
      specialize (Hmin _ Hr). unfold due_time in *. lia.
  - subst. split; [by left|]. by intros r' ->%list_elem_of_singleton.
Qed.

(** A bucket that has expired, or none has. *)
Lemma pollLocked_spec c now t :
  inv c None [] 0 t ->
  match Timer.pollLocked now t with
  | (None, t') => t' = t /\ forall r b, r ∈ queue t -> Wheel.lookup_bucket r t = Some b -> now < bucket_expiration_ms b
  | (Some r, t') => t' = set_queue (filter (fun x => x <> r) (queue t)) t /\ r ∈ queue t /\
      exists b, Wheel.lookup_bucket r t = Some b /\ bucket_expiration_ms b <= now /\
        forall r' b', r' ∈ queue t -> Wheel.lookup_bucket r' t = Some b' -> bucket_expiration_ms b <= bucket_expiration_ms b'
  end.
Proof.
  intros Hi. unfold Timer.pollLocked. pose proof (top_spec t (queue t)) as Htop.
  destruct (Timer.top t (queue t)) as [r|]; [|split; [done|]; rewrite Htop; by intros ? ? ?%elem_of_nil].
  destruct Htop as [Hr Hmin]. destruct (iv_queued Hi r Hr) as (_ & b & Hb & _).
  assert (Hmin' : forall r' b', r' ∈ queue t -> Wheel.lookup_bucket r' t = Some b' ->
    bucket_expiration_ms b <= bucket_expiration_ms b').
  { intros r' b' Hr' Hb'. specialize (Hmin r' Hr'). unfold due_time in Hmin. by rewrite Hb, Hb' in Hmin. }
  unfold Timer.getDelay. rewrite Hb. cbn [fmap option_fmap option_map default from_option id]. destruct (0 <? _) eqn:Hd.
  - apply Z.ltb_lt in Hd. split; [done|]. intros r' b' Hr' Hb'. specialize (Hmin' r' b' Hr' Hb'). lia.
  - apply Z.ltb_ge in Hd. split; [done|]. split; [done|]. exists b. split; [done|]. split; [lia|done].
Qed.

Section Loop.
Context (clock : nat -> Z) (Hclock : forall i j, (i <= j)%nat -> clock i <= clock j).

(** What a poll does that reads the clock last in its turn [j]. *)
Record polled (t : SystemTimer) (j : nat) (new : list task_id) (t' : SystemTimer) : Prop := {
  pd_handed : handed [] t new [] t';
  pd_timely : forall id e, id ∈ new -> tasks t !! id = Some e -> floor_to T (expiration_ms e) <= clock j;
  pd_later : forall r b, r ∈ queue t' -> Wheel.lookup_bucket r t' = Some b -> clock j < bucket_expiration_ms b;
}.

Lemma poll_loop_spec fuel i counts c t :
  inv c None [] 0 t -> (Timer.work_left t < fuel)%nat ->
  exists j counts' new c' t', Timer.poll_loop fuel clock i counts t = Some (counts', t') /\ (i <= j)%nat /\
    inv c' None [] 0 t' /\ polled t j new t' /\ (counts'.2 = counts.2 + length new)%nat.
Proof.
  revert i counts c t. induction fuel as [|fuel IH]; intros i counts c t Hi Hfuel; [lia|]. cbn [Timer.poll_loop].
  pose proof (pollLocked_spec c (clock i) t Hi) as Hp. destruct (Timer.pollLocked (clock i) t) as [[r|] t1].
  2:{ destruct Hp as [-> Hlater]. exists i, counts, [], c, t. repeat (split; [done|]). split; [|cbn; lia]. split; [|by intros ? ? ?%elem_of_nil|done].
      split; [done|by rewrite app_nil_r|done|]. intros id. rewrite elem_of_nil. tauto. }
  destruct Hp as (-> & Hr & b & Hb & Hnow & Hmin). rewrite (lookup_same_wheels t) by done. rewrite Hb. cbn [mbind option_bind].
  destruct (iv_queued Hi r Hr) as (_ & b' & Hb' & [Htick _ Hrange]). rewrite Hb in Hb'. injection Hb' as <-. set (E := bucket_expiration_ms b) in *.
  assert (HE : E mod T = 0) by (rewrite <- (tick_0 T N); apply (tick_divides T N HT HN 0 r.1); [lia|done]).
  pose proof (advance_inv _ _ _ _ _ E Hi (proj1 Hrange) HE Hmin) as Hi1.
  set (t1 := set_wheels (Wheel.advanceClock E (wheels t)) t) in *.
  destruct (flush_spec E r b counts t1 Hi1 Hr) as (counts1 & new1 & t2 & Hfl & Hi2 & Hh & Hnew & Hcount & Hwork);
    [by unfold t1; rewrite advance_lookup|done|].
  change (set_wheels (Wheel.advanceClock E _) _) with (set_queue (filter (fun x => x <> r) (queue t1)) t1). rewrite Hfl.
  cbn [mbind option_bind fst snd]. destruct (IH (S i) counts1 E t2 Hi2) as (j & counts' & new & c' & t' & Hpl & Hj & Hi' & [Hh' Ht' Hl'] & Hc').
  { change (Timer.work_left t1) with (Timer.work_left t) in Hwork. lia. }
  exists j, counts', (new1 ++ new), c', t'. split_and!; [done|lia|done| |rewrite length_app; lia].
  assert (Hh1 : handed [] t new1 [] t2) by (destruct Hh; by split).
  split; [by eapply handed_trans| |done]. intros id e [Hin|Hin]%elem_of_app He.
  - specialize (Hnew id e Hin He). specialize (Hclock i j ltac:(lia)).
    destruct (floor_to_spec T (expiration_ms e) HT) as [Hf Hf0]. destruct (Z.le_gt_cases (floor_to T (expiration_ms e)) E); [lia|].
    rewrite (multiples_apart T (floor_to T (expiration_ms e)) E) by lia. lia.
  - destruct (handed_task _ _ _ _ _ _ _ Hh1 He) as [o Hthere]. apply (Ht' id _ Hin Hthere).
Qed.

(** The tasks that a poll leaves are not due. *)
Lemma polled_later c t j new t' id e :
  inv c None [] 0 t' -> polled t j new t' -> pending t' id -> tasks t !! id = Some e ->
  clock j < floor_to T (expiration_ms e).
Proof.
  intros Hi [Hh _ Hl] [r Ho] He. pose proof (owned_queued _ _ _ _ _ _ _ _ _ Hi Ho) as Hr.
  destruct Ho as (e' & He' & Ho). destruct (handed_back _ _ _ _ _ _ _ Hh He') as [o Hback]. simplify_eq. cbn.
  destruct (iv_tasks Hi _ _ _ He' Ho) as (_ & b & Hb & Hlow). specialize (Hl r b Hr Hb).
  destruct (iv_queued Hi r Hr) as (_ & b' & Hb' & [Htick _ _]). simplify_eq.
  apply (tick_divides T N HT HN 0 r.1) in Htick; [|lia]. rewrite tick_0 in Htick.
  pose proof (floor_mono T _ _ HT (proj1 Hlow)) as Hm. rewrite (floor_to_id T (bucket_expiration_ms b)) in Hm by done. lia.
Qed.
End Loop.

End Spec.
