(* ===== verification/TimerProps.v ===== *)
(** * Timers: what they promise

    A timer as a transition system, whose steps are the operations of its users, of the
    poller and of its workers; its invariant, and what follows for tasks. *)

From S2P Require Import Prelude Codec Rounding TimeWheel TimerSpec TimerPoll.

Local Open Scope Z_scope.

Definition monotone (clock : nat -> Z) : Prop := forall i j, (i <= j)%nat -> clock i <= clock j.

(** The operations on a timer.  A worker finishes the tasks it is running. *)
Inductive step : SystemTimer -> SystemTimer -> Prop :=
  | step_add now timeout_ms repeat res t t' : Timer.add now timeout_ms repeat t = Some (res, t') -> step t t'
  | step_cancel id t : step t (Wheel.cancel id t)
  | step_poll clock counts t t' : monotone clock -> Timer.poll clock t = Some (counts, t') -> step t t'
  | step_take t : step t (Timer.take_expired t).2
  | step_finish now id t t' : id ∈ running t -> Timer.finish now id t = Some t' -> step t t'.

Definition reachable (tick size start : Z) (t : SystemTimer) : Prop := rtc step (Timer.create tick size start) t.

Section Spec.
Context (T N : Z) (HT : 0 < T) (HN : 2 <= N).
Local Abbreviation inv := (inv T N).

(** ** The operations keep the invariant *)

Lemma create_inv start : 0 <= start -> inv (floor_to T start) None [] 0 (Timer.create T N start).
Proof.
  intros Hs. pose proof (Z.mod_le start T Hs HT). destruct (floor_to_spec T start HT) as [Hf Hf0].
  assert (Hl : forall r b, Wheel.lookup_bucket r (Timer.create T N start) = Some b -> b = mkTimerTaskList (-1) []).
  { intros [k i] b. unfold Wheel.lookup_bucket. cbn. destruct k as [|k]; cbn; [|done].
    by intros [-> _]%lookup_replicate. }
  split; cbn; try done.
  - unfold floor_to in *. lia.
  - split; [done|]. intros [|k] w; [|done]. intros [= <-].
    split; cbn [Wheel.new_wheel tick_ms wheel_size wheel_interval_ms current_time_ms buckets].
    + by rewrite tick_0.
    + done.
    + rewrite tick_succ, tick_0. lia.
    + rewrite tick_0, (floor_to_id T (floor_to T start)) by done. by rewrite Z.rem_mod_nonneg.
    + apply length_replicate.
  - constructor.
  - by intros r ?%elem_of_nil.
  - by intros r b ->%Hl _.
  - intros id r b ->%Hl. cbn. rewrite elem_of_nil. split; [done|]. by intros (e & He & _).
  - intros r b ->%Hl. constructor.
  - split; constructor.
Qed.

(** Changing a task that is in no bucket. *)
Lemma retask_inv c x n t id f :
  inv c x [] n t -> free t id -> (forall e, owner (f e) = owner e) -> inv c x [] n (Wheel.alter_task f id t).
Proof.
  intros Hi (e & He & Ho) Hf.
  assert (Hown : forall i r, owned (Wheel.alter_task f id t) i r <-> owned t i r).
  { intros i r. unfold owned, Wheel.alter_task. cbn. destruct (decide (i = id)) as [->|Hne].
    - rewrite lookup_alter_eq, He. cbn. split; [intros (e' & [= <-] & Ho'); rewrite Hf in Ho'|intros (e' & He' & Ho')]; congruence.
    - by rewrite lookup_alter_ne. }
  split; try apply Hi.
  - intros i r b Hb. rewrite Hown. by apply (iv_members Hi).
  - intros i e' r He' Ho'. apply alter_task_lookup in He' as [(-> & e0 & He0 & ->)|[Hne He']].
    + rewrite Hf in Ho'. congruence.
    + by apply (iv_tasks Hi i).
  - cbn. rewrite (iv_count Hi), (alter_eq_insert _ _ _ _ He). pose proof (total_update is_owned _ _ _ (f e) He) as Hu.
    unfold is_owned in Hu at 2 4. rewrite Hf, Ho in Hu. lia.
  - destruct (iv_free Hi) as [Hnd Hfr]. split; [done|]. eapply Forall_impl; [exact Hfr|].
    intros i (e' & He' & Ho'). destruct (decide (i = id)) as [->|Hne].
    + exists (f e). cbn. rewrite lookup_alter_eq, He. by rewrite Hf.
    + exists e'. cbn. by rewrite lookup_alter_ne.
  - constructor.
Qed.

(** A task that is nowhere is on its way. *)
Lemma fly_inv c t id e :
  inv c None [] 0 t -> tasks t !! id = Some e -> owner e = None -> cancelled e = false ->
  id ∉ expired_timers t ++ running t -> inv c None [id] 0 t.
Proof.
  intros [] He Ho Hc Hn. split; try done.
  - destruct iv_free as [Hnd Hf]. split; [by constructor|]. constructor; [by exists e|done].
  - repeat constructor. by exists e.
Qed.

(** Lists of tasks to run and running that lose some. *)
Lemma runs_inv c t ex ru :
  inv c None [] 0 t -> NoDup (ex ++ ru) -> (ex ++ ru) ⊆ expired_timers t ++ running t ->
  inv c None [] 0 (set_running ru (set_expired_timers ex t)).
Proof.
  intros [] Hnd Hsub. split; try done. destruct iv_free as [_ Hf]. split; [done|]. rewrite Forall_forall in *.
  intros id Hin. apply Hf, Hsub, Hin.
Qed.

Lemma fresh_inv c t id e :
  inv c None [] 0 t -> tasks t !! id = None -> owner e = None -> cancelled e = false ->
  inv c None [id] 0 (set_tasks (<[id := e]> (tasks t)) t).
Proof.
  intros Hi Hn Ho Hc.
  assert (Hother : forall i e', tasks t !! i = Some e' -> <[id := e]> (tasks t) !! i = Some e')
    by (intros i e' He'; rewrite lookup_insert_ne; [done|congruence]).
  apply (fly_inv c _ _ e); cbn; [|by apply lookup_insert_eq|done|done|].
  2:{ intros Hin. destruct (iv_free Hi) as [_ Hf]. rewrite Forall_forall in Hf. destruct (Hf id Hin) as (e' & He' & _). congruence. }
  split; try apply Hi; cbn.
  - intros i r b Hb. rewrite (iv_members Hi i r b Hb). unfold owned. cbn. split.
    + intros (e' & He' & Ho'). exists e'. by split; [apply Hother|].
    + intros (e' & [[-> <-]|[Hne He']]%lookup_insert_Some & Ho'); [congruence|by exists e'].
  - intros i e' r [[-> <-]|[Hne He']]%lookup_insert_Some Ho'; [congruence|]. by apply (iv_tasks Hi i).
  - rewrite total_new by done. rewrite (iv_count Hi). unfold is_owned at 2. rewrite Ho. lia.
  - destruct (iv_free Hi) as [Hnd Hf]. split; [done|]. eapply Forall_impl; [exact Hf|]. intros i (e' & He' & Ho').
    exists e'. split; [by apply Hother|done].
  - constructor.
Qed.

Section Cancel.
Context (c : Z) (t : SystemTimer) (id : task_id) (e : TimerTaskEntry) (r : bucket_ref).
Context (Hi : inv c None [] 0 t) (He : tasks t !! id = Some e) (Ho : owner e = Some r).
Local Abbreviation t1 := (Wheel.cancel id t).

Lemma cancel_eq :
  t1 = Wheel.alter_task (Wheel.set_owner None) id
         (Wheel.removeLocked r id (Wheel.alter_task Wheel.set_cancelled id t)).
Proof.
  unfold Wheel.cancel, Wheel.detachFromCurrentBucket. cbn. rewrite lookup_alter_eq, He. cbn. by rewrite Ho.
Qed.

Lemma cancel_tasks : tasks t1 = <[id := Wheel.set_owner None (Wheel.set_cancelled e)]> (tasks t).
Proof.
  rewrite cancel_eq. cbn. rewrite (alter_eq_insert Wheel.set_cancelled _ _ _ He).
  rewrite (alter_eq_insert _ _ _ _ (lookup_insert_eq _ _ _)). apply insert_insert_eq.
Qed.

Lemma cancel_lookup r' :
  Wheel.lookup_bucket r' t1 =
  if decide (r' = r)
  then (fun b => mkTimerTaskList (bucket_expiration_ms b) (filter (fun x => x <> id) (bucket b))) <$> Wheel.lookup_bucket r t
  else Wheel.lookup_bucket r' t.
Proof.
  rewrite cancel_eq. etransitivity; [|apply lookup_alter_bucket]. by apply lookup_same_wheels.
Qed.

Lemma cancel_owned i r' : owned t1 i r' <-> i <> id /\ owned t i r'.
Proof.
  unfold owned. rewrite cancel_tasks. destruct (decide (i = id)) as [->|Hne].
  - rewrite lookup_insert_eq. split; [by intros (? & [= <-] & ?)|by intros [? _]].
  - rewrite lookup_insert_ne by done. naive_solver.
Qed.

Lemma cancel_pending_inv : inv c None [] 0 t1.
Proof.
  assert (Hrest : queue t1 = queue t /\ num_timers t1 = num_timers t - 1 /\ expired_timers t1 = expired_timers t /\
    running t1 = running t) by by rewrite cancel_eq.
  destruct Hrest as (Hq & Hn & Hex & Hru).
  assert (Hr : r ∈ queue t) by (eapply owned_queued; [exact Hi|]; by exists e).
  assert (Hsame : forall r' b', Wheel.lookup_bucket r' t1 = Some b' -> exists b, Wheel.lookup_bucket r' t = Some b /\
    bucket_expiration_ms b' = bucket_expiration_ms b /\
    (bucket b' = bucket b /\ r' <> r \/ bucket b' = filter (fun x => x <> id) (bucket b) /\ r' = r)).
  { intros r' b'. rewrite cancel_lookup. destruct (decide (r' = r)) as [->|Hne]; [|by eauto 10].
    intros (b & Hb & ->)%fmap_Some. exists b. by eauto. }
  split; rewrite ?Hq, ?Hn, ?Hex, ?Hru; try apply Hi.
  - rewrite cancel_eq. apply (wheels_ok_alter T N c _ r (Wheel.alter_task _ id t)), Hi.
  - intros r' Hr'. split; [done|]. rewrite cancel_lookup. destruct (iv_queued Hi r' Hr') as (_ & b & Hb & Hdue).
    destruct (decide (r' = r)) as [->|Hne]; [rewrite Hb|]; by eexists.
  - intros r' b' Hb' Hnq. destruct (Hsame r' b' Hb') as (b & Hb & -> & [[-> _]|[_ ->]]); [by apply (iv_idle Hi r')|done].
  - intros i r' b' Hb'. rewrite cancel_owned. destruct (Hsame r' b' Hb') as (b & Hb & _ & Hcase).
    rewrite <- (iv_members Hi i r' b Hb). destruct Hcase as [[-> Hne]|[-> ->]].
    + split; [|by intros [_ ?]]. intros Hin. split; [|done]. intros ->.
      apply (iv_members Hi id r' b Hb) in Hin as (e' & He' & Ho'). congruence.
    + by rewrite list_elem_of_filter.
  - intros r' b' Hb'. destruct (Hsame r' b' Hb') as (b & Hb & _ & [[-> _]|[-> _]]); [|apply NoDup_filter];
      by apply (iv_nodup Hi r').
  - intros i e' r' He' Ho'. assert (i <> id /\ owned t i r') as [Hne _] by (apply cancel_owned; by exists e').
    rewrite cancel_tasks, lookup_insert_ne in He' by done. destruct (iv_tasks Hi i e' r' He' Ho') as (Hc & b & Hb & Hle).
    split; [done|]. rewrite cancel_lookup. destruct (decide (r' = r)) as [->|_]; [rewrite Hb|]; by eexists.
  - rewrite cancel_tasks, (iv_count Hi).
    pose proof (total_update is_owned _ _ _ (Wheel.set_owner None (Wheel.set_cancelled e)) He) as Hu.
    unfold is_owned in Hu at 2. rewrite Ho in Hu. cbn in Hu. lia.
  - destruct (iv_free Hi) as [Hnd Hf]. split; [done|]. eapply Forall_impl; [exact Hf|]. intros i (e' & He' & Ho').
    exists e'. rewrite cancel_tasks, lookup_insert_ne; [done|congruence].
  - constructor.
Qed.
End Cancel.

Lemma cancel_free_eq t id : free t id -> Wheel.cancel id t = Wheel.alter_task Wheel.set_cancelled id t.
Proof.
  intros (e & He & Ho). unfold Wheel.cancel, Wheel.detachFromCurrentBucket. cbn.
  rewrite lookup_alter_eq, He. cbn. by rewrite Ho.
Qed.

Lemma cancel_unknown t id : tasks t !! id = None -> Wheel.cancel id t = t.
Proof.
  intros Hn. assert (Ha : alter Wheel.set_cancelled id (tasks t) = tasks t).
  { apply map_eq. intros i. destruct (decide (i = id)) as [->|]; [by rewrite lookup_alter_eq, Hn|by rewrite lookup_alter_ne]. }
  unfold Wheel.cancel, Wheel.detachFromCurrentBucket, Wheel.alter_task. cbn. rewrite Ha, Hn. by destruct t.
Qed.

Lemma cancel_inv c t id : inv c None [] 0 t -> inv c None [] 0 (Wheel.cancel id t).
Proof.
  intros Hi. destruct (tasks t !! id) as [e|] eqn:He; [|by rewrite cancel_unknown].
  destruct (owner e) as [r|] eqn:Ho; [by eapply cancel_pending_inv|].
  rewrite cancel_free_eq by by exists e. apply retask_inv; [done|by exists e|done].
Qed.

Lemma no_bucket c e : flushed T N c None e.
Proof. by intros l i Hl. Qed.

Lemma add_spec c now timeout_ms repeat t (id := Timer.next_id t)
  (e := mkTimerTaskEntry false None (now + to_i32 timeout_ms) (to_i32 timeout_ms) repeat) :
  inv c None [] 0 t ->
  exists (added : bool) t' t1, Timer.add now timeout_ms repeat t = Some (if added then Some id else None, t') /\
    settled T N c None [] 0 id e (set_tasks (<[id := e]> (tasks t)) t) added t1 /\
    t' = set_num_timers (num_timers t1 + if added then 1 else 0) t1 /\ inv c None [] 0 t' /\ tasks t !! id = None.
Proof.
  intros Hi. assert (Hn : tasks t !! id = None) by (apply (not_elem_of_dom (D := gset task_id)); exact (is_fresh (dom (tasks t) : gset task_id))).
  pose proof (fresh_inv c t id e Hi Hn eq_refl eq_refl) as Hi1.
  destruct (addTimerTaskEntryLocked_spec T N HT HN c None [] 0 _ id e Hi1) as (added & t1 & Ht1 & Hset);
    [by apply lookup_insert_eq|apply no_bucket|].
  exists added, (set_num_timers (num_timers t1 + if added then 1 else 0) t1), t1.
  pose proof (count_inv T N _ _ _ _ _ (if added then 1 else 0) (st_inv Hset)) as Hi2.
  split; [|by destruct added]. unfold Timer.add. fold id e. cbn zeta. rewrite Ht1. cbn [mbind option_bind].
  destruct added; [done|]. rewrite Z.add_0_r. by destruct t1.
Qed.

Lemma take_inv c t : inv c None [] 0 t -> inv c None [] 0 (Timer.take_expired t).2.
Proof.
  intros Hi. unfold Timer.take_expired. destruct (iv_free Hi) as [Hnd _]. cbn in Hnd.
  destruct (expired_timers t) as [|id rest] eqn:Hex; [done|]. case_match; cbn.
  - apply (runs_inv c t rest (id :: running t)); [done| |].
    + by rewrite <- Permutation_middle.
    + rewrite Hex, <- Permutation_middle. done.
  - change (inv c None [] 0 (set_running (running t) (set_expired_timers rest t))). apply runs_inv; [done| |].
    + by apply NoDup_cons in Hnd as [_ ?].
    + rewrite Hex. by apply list_subseteq_cons.
Qed.

Lemma finish_spec c now id t :
  inv c None [] 0 t -> id ∈ running t -> exists t', Timer.finish now id t = Some t' /\ inv c None [] 0 t' /\
    forall i, cancelled <$> tasks t' !! i = cancelled <$> tasks t !! i.
Proof.
  intros Hi Hin. destruct (iv_free Hi) as [Hnd Hf]. cbn in Hnd, Hf. rewrite Forall_forall in Hf.
  destruct (Hf id) as (e & He & Ho); [apply elem_of_app; by right|]. unfold Timer.finish. rewrite He. cbn [mbind option_bind].
  set (t1 := set_running (filter (fun x => x <> id) (running t)) t).
  apply NoDup_app in Hnd as (Hnd1 & Hdisj & Hnd2).
  assert (Hi1 : inv c None [] 0 t1).
  { change t1 with (set_running (filter (fun x => x <> id) (running t)) (set_expired_timers (expired_timers t) t1)).
    apply (runs_inv c t); [done| |].
    - apply NoDup_app. split; [done|]. split; [|by apply NoDup_filter]. intros i Hi1 [_ Hi2]%list_elem_of_filter. by apply (Hdisj i).
    - intros i [?|[_ ?]%list_elem_of_filter]%elem_of_app; apply elem_of_app; [by left|by right]. }
  destruct (is_repeat e && negb (cancelled e)) eqn:Hre; [|by eauto]. apply andb_true_iff in Hre as [_ Hc].
  apply negb_true_iff in Hc. set (e' := Wheel.set_expiration (now + interval_ms e) e).
  set (t2 := Wheel.alter_task (Wheel.set_expiration (now + interval_ms e)) id t1).
  assert (Hi2 : inv c None [] 0 t2) by (apply retask_inv; [done|by exists e|done]).
  assert (He2 : tasks t2 !! id = Some e') by (cbn; by rewrite lookup_alter_eq, He).
  assert (Hi3 : inv c None [id] 0 t2).
  { apply (fly_inv c t2 id e'); [done..|]. cbn. rewrite elem_of_app, list_elem_of_filter. intros [Hex|[? _]]; [|done].
    by apply (Hdisj id). }
  destruct (addTimerTaskEntryLocked_spec T N HT HN c None [] 0 t2 id e' Hi3 He2 (no_bucket _ _)) as (added & t3 & Ht3 & Hset).
  rewrite Ht3. cbn [mbind option_bind]. eexists. split; [done|]. split.
  - pose proof (count_inv T N _ _ _ _ _ (if added then 1 else 0) (st_inv Hset)) as Hi4. by destruct added.
  - intros i. destruct (st_tasks Hset) as (o & Ht & _). cbn. rewrite Ht. destruct (decide (i = id)) as [->|Hne].
    + by rewrite lookup_insert_eq, He.
    + rewrite lookup_insert_ne by done. cbn. by rewrite lookup_alter_ne.
Qed.

Lemma step_inv c t t' : inv c None [] 0 t -> step t t' -> exists c', inv c' None [] 0 t'.
Proof.
  intros Hi Hs. inversion Hs as [now timeout repeat res ? ? Hadd|id|clock counts ? ? Hclock Hpoll| |now id ? ? Hin Hfin]; subst.
  - destruct (add_spec c now timeout repeat t Hi) as (added & t2 & t1 & Hadd' & _ & _ & Hi' & _).
    rewrite Hadd in Hadd'. simplify_eq. by exists c.
  - exists c. by apply cancel_inv.
  - destruct (poll_loop_spec T N HT HN clock Hclock (S (Timer.work_left t)) 0 (0%nat, 0%nat) c t Hi) as
      (j & counts' & new & c' & t2 & Hp & _ & Hi' & _); [lia|]. unfold Timer.poll in Hpoll. rewrite Hpoll in Hp.
    simplify_eq. by exists c'.
  - exists c. by apply take_inv.
  - destruct (finish_spec c now id t Hi Hin) as (t2 & Hf & Hi' & _). rewrite Hfin in Hf. simplify_eq. by exists c.
Qed.

Lemma reachable_inv start t : 0 <= start -> reachable T N start t -> exists c, inv c None [] 0 t.
Proof.
  intros Hs Hr. assert (Hc : exists c, inv c None [] 0 (Timer.create T N start)) by (eexists; by apply create_inv).
  unfold reachable in Hr. induction Hr as [|t0 t1 t2 Hstep _ IH]; [done|]. apply IH.
  destruct Hc as [c Hi]. by eapply step_inv.
Qed.


(** ** Cancelled tasks *)

Definition is_cancelled (t : SystemTimer) (id : task_id) : Prop := cancelled <$> tasks t !! id = Some true.

Lemma step_cancelled c t t' id : inv c None [] 0 t -> step t t' -> is_cancelled t id -> is_cancelled t' id.
Proof.
  unfold is_cancelled. intros Hi Hs Hc.
  inversion Hs as [now timeout repeat res ? ? Hadd|i|clock counts ? ? Hclock Hpoll| |now i ? ? Hin Hfin]; subst.
  - destruct (add_spec c now timeout repeat t Hi) as (added & t2 & t1 & Hadd' & Hset & -> & _ & Hn).
    rewrite Hadd in Hadd'. simplify_eq. destruct (st_tasks Hset) as (o & Ht & _). cbn. rewrite Ht. cbn.
    rewrite insert_insert_eq, lookup_insert_ne; [done|]. intros <-. by rewrite Hn in Hc.
  - destruct (tasks t !! i) as [e|] eqn:He; [|by rewrite cancel_unknown].
    assert (Ht : exists o, tasks (Wheel.cancel i t) = <[i := Wheel.set_owner o (Wheel.set_cancelled e)]> (tasks t)).
    { destruct (owner e) as [r|] eqn:Ho; [exists None; by eapply cancel_tasks|]. rewrite cancel_free_eq by by exists e.
      exists None. cbn. rewrite (alter_eq_insert _ _ _ _ He). f_equal. by destruct e; cbn in *; subst. }
    destruct Ht as [o ->]. destruct (decide (i = id)) as [->|]; [by rewrite lookup_insert_eq|by rewrite lookup_insert_ne].
  - destruct (poll_loop_spec T N HT HN clock Hclock (S (Timer.work_left t)) 0 (0%nat, 0%nat) c t Hi) as
      (j & counts' & new & c' & t2 & Hp & _ & _ & [Hh _ _] & _); [lia|]. unfold Timer.poll in Hpoll. rewrite Hpoll in Hp.
    simplify_eq. destruct (tasks t !! id) as [e|] eqn:He; [|done].
    destruct (handed_task _ _ _ _ _ _ _ Hh He) as [o ->]. done.
  - unfold Timer.take_expired. destruct (expired_timers t); [done|]. by case_match.
  - destruct (finish_spec c now i t Hi Hin) as (t2 & Hf & _ & Hall). rewrite Hfin in Hf. simplify_eq. by rewrite Hall.
Qed.

Lemma cancelled_not_pending c t id : inv c None [] 0 t -> is_cancelled t id -> ~ pending t id.
Proof.
  intros Hi Hc (r & e & He & Ho). unfold is_cancelled in Hc. destruct (iv_tasks Hi _ _ _ He Ho) as (Hf & _).
  rewrite He in Hc. cbn in Hc. congruence.
Qed.

Lemma cancelled_not_taken t id : is_cancelled t id -> (Timer.take_expired t).1 <> Some id.
Proof.
  unfold is_cancelled, Timer.take_expired. intros Hc. destruct (expired_timers t) as [|i rest]; [done|]. cbn.
  case_bool_decide as Hd; [|done]. intros [= ->]. congruence.
Qed.
End Spec.

(** ** Theorems *)




(** Adding a task does not fail: the new task is pending, with the expiration asked
    for, and is returned and counted; or its tick has come, and it waits for a worker
    and nothing is returned.  No other task changes. *)
Theorem timer_add_correct (T N start now timeout_ms : Z) (repeat : bool) (t : SystemTimer) :
  0 < T -> 2 <= N -> 0 <= start -> reachable T N start t ->
  exists res t' e, Timer.add now timeout_ms repeat t = Some (res, t') /\
    tasks t !! Timer.next_id t = None /\ tasks t' = <[Timer.next_id t := e]> (tasks t) /\
    expiration_ms e = now + to_i32 timeout_ms /\ is_repeat e = repeat /\ running t' = running t /\
    match res with
    | Some id => id = Timer.next_id t /\ pending t' id /\ num_timers t' = num_timers t + 1 /\
        expired_timers t' = expired_timers t
    | None => ~ pending t' (Timer.next_id t) /\ num_timers t' = num_timers t /\
        expired_timers t' = expired_timers t ++ [Timer.next_id t]
    end.
Proof.
  intros HT HN Hs Hr. destruct (reachable_inv T N HT HN start t Hs Hr) as [c Hi].
  destruct (add_spec T N HT HN c now timeout_ms repeat t Hi) as (added & t' & t1 & Hadd & Hset & -> & Hi' & Hn).
  destruct (st_tasks Hset) as (o & Ht & Ho). cbn in Ht. rewrite insert_insert_eq in Ht.
  pose proof (iv_count Hi) as Hc0. pose proof (iv_count Hi') as Hc1. cbn in Hc1. rewrite Ht, total_new in Hc1 by done.
  pose proof (st_expired Hset) as Hex. pose proof (st_running Hset) as Hru.
  assert (Hown : forall r, owned t1 (Timer.next_id t) r <-> o = Some r).
  { intros r. unfold owned. rewrite Ht, lookup_insert_eq. naive_solver. }
  eexists _, _, _. split; [exact Hadd|]. split; [done|]. split; [exact Ht|]. split; [done|]. split; [done|].
  split; [done|]. destruct added.
  - destruct Ho as (r & -> & _). split; [done|]. split; [exists r; by apply Hown|]. split; [|done]. cbn in *. lia.
  - subst o. split; [intros [r Hr']; by apply Hown in Hr'|]. split; [|done]. cbn in *. lia.
Qed.

(** ** A timer with three tasks *)

Definition add_all (l : list (Z * Z * bool)) (t : SystemTimer) : SystemTimer :=
  foldl (fun t x => match Timer.add x.1.1 x.1.2 x.2 t with Some (_, t') => t' | None => t end) t l.

Definition example_timer : SystemTimer :=
  add_all [(1000, 50, false); (1003, 400, true); (1010, 36, false)] (Timer.create 10 4 1000).

Lemma add_all_reachable T N start t l : reachable T N start t -> reachable T N start (add_all l t).
Proof.
  revert t. induction l as [|x l IH]; intros t Hr; [done|]. cbn. apply IH. destruct (Timer.add _ _ _ t) as [[res t']|] eqn:Ha; [|done].
  eapply rtc_r; [done|]. by eapply step_add.
Qed.

Lemma example_reachable : reachable 10 4 1000 example_timer.
Proof. apply add_all_reachable. constructor. Qed.




Lemma timer_add_correct_witness : exists res t', Timer.add 1020 7 false example_timer = Some (res, t').
Proof.
  assert (Hr := timer_add_correct 10 4 1000 1020 7 false example_timer ltac:(lia) ltac:(lia) ltac:(lia) example_reachable).
  destruct Hr as (res & t' & _ & Ha & _). exists res, t'. exact Ha.
Defined.
