(* ===== verification/DateLut.v ===== *)
(** * The calendar of a time zone (src/Common/DateLUTImpl.h)

    The functions that windows of time use: rounding a time or a day down to an
    interval, and adding calendar intervals.  The table of days, which [init] fills from
    the data of the time zone, is a field of the record; integers have the width and the
    signedness of the code, so that a division by an unsigned number is unsigned. *)

From S2P Require Import Prelude Codec.

Local Open Scope Z_scope.

(** [x / divisor * divisor] in [UInt64]. *)
Definition div_mul_u64 (x divisor : Z) : Z := to_u64 (to_u64 x / divisor * divisor).

Definition DATE_LUT_MIN_YEAR : Z := 1900.
Definition DATE_LUT_MAX_YEAR : Z := 2299.
Definition DATE_LUT_YEARS : Z := 1 + DATE_LUT_MAX_YEAR - DATE_LUT_MIN_YEAR.
Definition DATE_LUT_SIZE : Z := 146097.
Definition daynum_offset_epoch : Z := 25567.

(** [Values]; the offset change in seconds. *)
Record Values : Type := mkValues {
  date : Z;
  year : Z;
  month : Z;
  day_of_month : Z;
  day_of_week : Z;
  days_in_month : Z;
  amount_of_offset_change : Z;
  time_at_offset_change : Z;
}.

Record DateLUTImpl : Type := mkDateLUTImpl {
  lut : Z -> Values;
  lut_saturated : Z -> Values;
  years_lut : Z -> Z;
  years_months_lut : Z -> Z;
  offset_is_whole_number_of_hours_during_epoch : bool;
  offset_is_whole_number_of_minutes_during_epoch : bool;
}.

Module DateLUT.

(** ** Indexes *)

Definition normalizeLUTIndex (index : Z) : Z :=
  if index <? 0 then 0 else if DATE_LUT_SIZE <=? index then DATE_LUT_SIZE - 1 else index.

(** [operator+] and [operator-] of an index and a number. *)
Definition index_add (index v : Z) : Z := normalizeLUTIndex (to_u32 (index + v)).
Definition index_sub (index v : Z) : Z := normalizeLUTIndex (to_u32 (index - v)).

Definition findIndex (tz : DateLUTImpl) (t : Z) : Z :=
  let guess := Z.quot t 86400 + daynum_offset_epoch in
  let guess := if t <? 0 then guess - 1 else guess in
  if guess <? 0 then 0
  else if DATE_LUT_SIZE <=? guess then DATE_LUT_SIZE - 1
  else if date (lut tz guess) <=? t then
    if (DATE_LUT_SIZE <=? guess + 1) || (t <? date (lut tz (guess + 1))) then guess else guess + 1
  else if guess =? 0 then 0 else guess - 1.

(** Days since 1970: an [ExtendedDayNum] when [ext], else a [DayNum]. *)
Definition saturateMinus (x y : Z) : Z :=
  let res := to_u32 (x - y) in if res <=? x then res else 0.
Definition toDayNum (ext : bool) (index : Z) : Z :=
  if ext then to_i32 (to_u32 (index - daynum_offset_epoch)) else to_u16 (saturateMinus index daynum_offset_epoch).
Definition toLUTIndex (ext : bool) (d : Z) : Z := normalizeLUTIndex (to_u32 (d + daynum_offset_epoch)).
Definition toDate (ext : bool) (tz : DateLUTImpl) (index : Z) : Z :=
  date (if ext then lut tz index else lut_saturated tz index).
Definition fromDayNum (ext : bool) (tz : DateLUTImpl) (d : Z) : Z := toDate ext tz (toLUTIndex ext d).

(** ** Rounding times; the time is an [Int64] when [ext], else an [UInt32] *)

Definition as_time (ext : bool) (res : Z) : Z := if ext then res else if res <? 0 then 0 else to_u32 res.

(** [roundDown] by an [UInt64]. *)
Definition roundDown (ext : bool) (tz : DateLUTImpl) (x divisor : Z) : Z :=
  if offset_is_whole_number_of_hours_during_epoch tz then
    let res := if 0 <=? x then div_mul_u64 x divisor else div_mul_u64 (x + 1 - divisor) divisor in
    if ext then to_i64 res else to_u32 res
  else
    let d := date (lut tz (findIndex tz x)) in
    as_time ext (to_i64 (d + div_mul_u64 (x - d) divisor)).

(** [roundDown] by an [int]. *)
Definition toStartOfHour (ext : bool) (tz : DateLUTImpl) (t : Z) : Z :=
  if offset_is_whole_number_of_hours_during_epoch tz then
    if 0 <=? t then Z.quot t 3600 * 3600 else Z.quot (t + 1 - 3600) 3600 * 3600
  else
    let d := date (lut tz (findIndex tz t)) in
    as_time ext (d + Z.quot (t - d) 3600 * 3600).

Definition toStartOfHourInterval (ext : bool) (tz : DateLUTImpl) (t hours : Z) : Z :=
  if hours =? 1 then toStartOfHour ext tz t
  else
    let seconds := to_u64 (hours * 3600) in
    let values := lut tz (findIndex tz t) in
    let time := t - date values in
    let time :=
      if time_at_offset_change values <=? time then
        let time := to_i64 (div_mul_u64 (time + amount_of_offset_change values) seconds) in
        if time_at_offset_change values <=? time then
          let time := time - amount_of_offset_change values in
          if time <? time_at_offset_change values then time_at_offset_change values else time
        else time
      else to_i64 (div_mul_u64 time seconds) in
    as_time ext (date values + time).

Definition toStartOfMinuteInterval (ext : bool) (tz : DateLUTImpl) (t minutes : Z) : Z :=
  let divisor := to_i64 (60 * minutes) in
  if offset_is_whole_number_of_minutes_during_epoch tz then
    let res := if 0 <=? t then Z.quot t divisor * divisor else Z.quot (t + 1 - divisor) divisor * divisor in
    if ext then res else to_u32 res
  else
    let d := date (lut tz (findIndex tz t)) in
    as_time ext (d + Z.quot (t - d) divisor * divisor).

Definition toStartOfSecondInterval (ext : bool) (tz : DateLUTImpl) (t seconds : Z) : Z :=
  if seconds =? 1 then t
  else if seconds mod 60 =? 0 then toStartOfMinuteInterval ext tz t (seconds / 60)
  else roundDown ext tz t seconds.

(** ** Rounding days *)

Definition toStartOfYearInterval (ext : bool) (tz : DateLUTImpl) (d years : Z) : Z :=
  let i := toLUTIndex ext d in
  if years =? 1 then toDayNum ext (years_lut tz (year (lut tz i) - DATE_LUT_MIN_YEAR))
  else
    let y := to_u16 (year (lut tz i) / years * years) in
    let y := if y <? DATE_LUT_MIN_YEAR then DATE_LUT_MIN_YEAR else y in
    toDayNum ext (years_lut tz (y - DATE_LUT_MIN_YEAR)).

Definition toStartOfMonthInterval (ext : bool) (tz : DateLUTImpl) (d months : Z) : Z :=
  let i := toLUTIndex ext d in
  let values := lut tz i in
  if months =? 1 then toDayNum ext (index_sub i (day_of_month values - 1))
  else
    let month_total_index := (year values - DATE_LUT_MIN_YEAR) * 12 + month values - 1 in
    toDayNum ext (years_months_lut tz (month_total_index / months * months)).

Fixpoint back_months (tz : DateLUTImpl) (n : nat) (index : Z) : Z :=
  match n with O => index | S n => back_months tz n (to_u32 (index - day_of_month (lut tz index))) end.

Definition toFirstDayOfQuarterIndex (tz : DateLUTImpl) (index : Z) : Z :=
  let month_inside_quarter := (month (lut tz index) - 1) mod 3 in
  index_add (back_months tz (S (Z.to_nat month_inside_quarter)) index) 1.

Definition toStartOfQuarterInterval (ext : bool) (tz : DateLUTImpl) (d quarters : Z) : Z :=
  if quarters =? 1 then toDayNum ext (toFirstDayOfQuarterIndex tz (toLUTIndex ext d))
  else toStartOfMonthInterval ext tz d (to_u64 (quarters * 3)).

Definition toStartOfWeekInterval (ext : bool) (tz : DateLUTImpl) (d weeks : Z) : Z :=
  if weeks =? 1 then
    let i := toLUTIndex ext d in toDayNum ext (index_sub i (day_of_week (lut tz i) - 1))
  else
    let res := 4 + div_mul_u64 (d - 4) (to_u64 (weeks * 7)) in
    if ext then to_i32 (to_u64 res) else to_u16 (to_u64 res).

Definition toStartOfDayInterval (ext : bool) (tz : DateLUTImpl) (d days : Z) : Z :=
  if days =? 1 then toDate ext tz (toLUTIndex ext d)
  else toDate ext tz (toLUTIndex true (to_i32 (div_mul_u64 d days))).

(** ** Adding calendar intervals *)

(** The time of the day in [values], on the day [new_values]. *)
Definition move_time (values new_values : Values) (t : Z) : Z :=
  let time := t - date values in
  let time := if time_at_offset_change values <=? time then time + amount_of_offset_change values else time in
  let time := if time_at_offset_change new_values <=? time then time - amount_of_offset_change new_values else time in
  date new_values + time.

Definition addDays (tz : DateLUTImpl) (t delta : Z) : Z :=
  let index := findIndex tz t in move_time (lut tz index) (lut tz (index_add index delta)) t.

Definition addWeeks (tz : DateLUTImpl) (t delta : Z) : Z := addDays tz t (to_i64 (delta * 7)).

Definition daysInMonth (tz : DateLUTImpl) (y m : Z) : Z :=
  if DATE_LUT_YEARS <=? to_u16 (y - DATE_LUT_MIN_YEAR) then 31
  else days_in_month (lut tz (index_add (years_lut tz (y - DATE_LUT_MIN_YEAR)) (32 * (m - 1)))).

Definition saturateDayOfMonth (tz : DateLUTImpl) (y m day : Z) : Z :=
  if day <=? 28 then day else Z.min day (daysInMonth tz y m).

Definition makeLUTIndex (tz : DateLUTImpl) (y m day : Z) : Z :=
  if (y <? DATE_LUT_MIN_YEAR) || (m <? 1) || (12 <? m) || (day <? 1) || (31 <? day) then 0
  else if DATE_LUT_MAX_YEAR <? y then DATE_LUT_SIZE - 1
  else
    let index := to_u32 (years_months_lut tz ((y - DATE_LUT_MIN_YEAR) * 12 + m - 1) + day - 1) in
    Z.min index (DATE_LUT_SIZE - 1).

Definition addMonthsIndex (tz : DateLUTImpl) (t delta : Z) : Z :=
  let values := lut tz (findIndex tz t) in
  let m := to_i64 (month values + delta) in
  let y := to_i16 (if 0 <? m then year values + Z.quot (m - 1) 12 else year values - Z.quot (12 - m) 12) in
  let m := if 0 <? m then Z.rem (m - 1) 12 + 1 else 12 - Z.rem (- m) 12 in
  makeLUTIndex tz y m (saturateDayOfMonth tz y m (day_of_month values)).

Definition addMonths (ext : bool) (tz : DateLUTImpl) (t delta : Z) : Z :=
  let res := move_time (lut tz (findIndex tz t)) (lut tz (addMonthsIndex tz t delta)) t in
  if ext then res else if res <=? 0 then 0 else res.

Definition addQuarters (ext : bool) (tz : DateLUTImpl) (t delta : Z) : Z := addMonths ext tz t (to_i64 (delta * 3)).

Definition addYearsIndex (tz : DateLUTImpl) (t delta : Z) : Z :=
  let values := lut tz (findIndex tz t) in
  let y := to_i16 (year values + delta) in
  let m := month values in
  let day := day_of_month values in
  makeLUTIndex tz y m (if (day =? 29) && (m =? 2) then saturateDayOfMonth tz y m day else day).

Definition addYears (ext : bool) (tz : DateLUTImpl) (t delta : Z) : Z :=
  let res := move_time (lut tz (findIndex tz t)) (lut tz (addYearsIndex tz t delta)) t in
  if ext then res else if res <=? 0 then 0 else res.

End DateLUT.
