(* ===== verification/StreamTime.v ===== *)
(** * Times of windows (src/Interpreters/Streaming/TimeTransformHelper.h, WindowCommon)

    The start of the interval a time falls into, and a time moved by intervals: for the
    seconds of a [DateTime] ([UInt32]) and the ticks of a [DateTime64] ([Int64] with a
    decimal scale). *)

From S2P Require Import Prelude Codec Rounding DateLut.

Local Open Scope Z_scope.

(** [IntervalKind::Kind], in the order of the code. *)
Inductive IntervalKind : Type :=
  | Nanosecond | Microsecond | Millisecond | Second | Minute | Hour | Day | Week | Month | Quarter | Year.

#[export] Instance IntervalKind_dec : EqDecision IntervalKind.
Proof. solve_decision. Defined.

(** The table of powers of ten, for an exponent between 0 and 18. *)
Definition exp10_i64 (x : Z) : Z := 10 ^ x.

Module StreamTime.

(** [Streaming::roundDown] of an [Int64] by an [UInt64]. *)
Definition roundDown (x divisor : Z) : Z :=
  if 0 <=? x then to_i64 (div_mul_u64 x divisor) else to_i64 (div_mul_u64 (x + 1 - divisor) divisor).

(** The decimal scale of a kind below the second, [INTERVAL_SCALE]. *)
Definition interval_scale (kind : IntervalKind) : Z :=
  match kind with Millisecond => 3 | Microsecond => 6 | Nanosecond => 9 | _ => 0 end.

(** ** [ToStartOfTransform::execute] *)

(** Of an [UInt32]. *)
Definition toStartOfSeconds (kind : IntervalKind) (tz : DateLUTImpl) (t delta : Z) : Z :=
  let days f := to_u32 (DateLUT.fromDayNum false tz (f false tz (DateLUT.toDayNum false (DateLUT.findIndex tz t)) delta)) in
  match kind with
  | Year => days DateLUT.toStartOfYearInterval
  | Quarter => days DateLUT.toStartOfQuarterInterval
  | Month => days DateLUT.toStartOfMonthInterval
  | Week => days DateLUT.toStartOfWeekInterval
  | Day => to_u32 (DateLUT.toStartOfDayInterval false tz (DateLUT.toDayNum false (DateLUT.findIndex tz t)) delta)
  | Hour => DateLUT.toStartOfHourInterval false tz t delta
  | Minute => DateLUT.toStartOfMinuteInterval false tz t delta
  | Second => DateLUT.toStartOfSecondInterval false tz t delta
  | Millisecond | Microsecond | Nanosecond =>
      let interval_scale_multiplier := exp10_i64 (interval_scale kind) in
      if interval_scale_multiplier mod delta =? 0 then t
      else
        let start_of_hour := DateLUT.toStartOfHour false tz t in
        let start_interval_of_hour :=
          Z.quot (roundDown ((t - start_of_hour) * interval_scale_multiplier) delta) interval_scale_multiplier in
        to_u32 (start_of_hour + start_interval_of_hour)
  end.

(** Of an [Int64]. *)
Definition toStartOfTicks (kind : IntervalKind) (tz : DateLUTImpl) (t delta scale : Z) : Z :=
  let scale_multiplier := exp10_i64 scale in
  let day := DateLUT.toDayNum true (DateLUT.findIndex tz (Z.quot t scale_multiplier)) in
  let days f := to_i64 (DateLUT.fromDayNum true tz (f true tz day delta) * scale_multiplier) in
  match kind with
  | Year => days DateLUT.toStartOfYearInterval
  | Quarter => days DateLUT.toStartOfQuarterInterval
  | Month => days DateLUT.toStartOfMonthInterval
  | Week => days DateLUT.toStartOfWeekInterval
  | Day => to_i64 (DateLUT.toStartOfDayInterval true tz day delta * scale_multiplier)
  | Hour => to_i64 (DateLUT.toStartOfHourInterval true tz (Z.quot t scale_multiplier) delta * scale_multiplier)
  | Minute => to_i64 (DateLUT.toStartOfMinuteInterval true tz (Z.quot t scale_multiplier) delta * scale_multiplier)
  | Second => to_i64 (DateLUT.toStartOfSecondInterval true tz (Z.quot t scale_multiplier) delta * scale_multiplier)
  | Millisecond | Microsecond | Nanosecond =>
      let interval_scale := interval_scale kind in
      let interval_scale_multiplier := exp10_i64 interval_scale in
      if interval_scale_multiplier mod delta =? 0 then
        if interval_scale <=? scale then roundDown t (to_u64 (delta * exp10_i64 (scale - interval_scale)))
        else
          let multiplier := exp10_i64 (interval_scale - scale) in
          Z.quot (roundDown (to_i64 (t * multiplier)) delta) multiplier
      else
        let start_of_hour :=
          to_i64 (DateLUT.toStartOfHour true tz (Z.quot t interval_scale_multiplier) * interval_scale_multiplier) in
        if interval_scale <=? scale then
          to_i64 (start_of_hour + roundDown (t - start_of_hour) (to_u64 (delta * exp10_i64 (scale - interval_scale))))
        else
          let multiplier := exp10_i64 (interval_scale - scale) in
          to_i64 (start_of_hour + Z.quot (roundDown (to_i64 ((t - start_of_hour) * multiplier)) delta) multiplier)
  end.

(** ** [AddTime::execute] *)

Definition addSeconds (kind : IntervalKind) (tz : DateLUTImpl) (t delta : Z) : Z :=
  match kind with
  | Year => to_u32 (DateLUT.addYears false tz t delta)
  | Quarter => to_u32 (DateLUT.addQuarters false tz t delta)
  | Month => to_u32 (DateLUT.addMonths false tz t delta)
  | Week => to_u32 (DateLUT.addWeeks tz t delta)
  | Day => to_u32 (DateLUT.addDays tz t delta)
  | Hour => to_u32 (t + 3600 * delta)
  | Minute => to_u32 (t + 60 * delta)
  | Second => to_u32 (t + 1 * delta)
  | Millisecond | Microsecond | Nanosecond => to_u32 (t + Z.quot delta (exp10_i64 (interval_scale kind)))
  end.

Definition addTicks (kind : IntervalKind) (tz : DateLUTImpl) (t delta scale : Z) : Z :=
  let scale_multiplier := exp10_i64 scale in
  let calendar f :=
    to_i64 (f tz (Z.quot t scale_multiplier) delta * scale_multiplier + Z.rem t scale_multiplier) in
  match kind with
  | Year => calendar (DateLUT.addYears true)
  | Quarter => calendar (DateLUT.addQuarters true)
  | Month => calendar (DateLUT.addMonths true)
  | Week => calendar DateLUT.addWeeks
  | Day => calendar DateLUT.addDays
  | Hour => to_i64 (t + delta * 3600 * scale_multiplier)
  | Minute => to_i64 (t + delta * 60 * scale_multiplier)
  | Second => to_i64 (t + delta * 1 * scale_multiplier)
  | Millisecond | Microsecond | Nanosecond =>
      let interval_scale := interval_scale kind in
      if interval_scale <=? scale then to_i64 (t + delta * exp10_i64 (scale - interval_scale))
      else to_i64 (t + Z.quot delta (exp10_i64 (interval_scale - scale)))
  end.

(** ** WindowCommon *)

Definition toStartTime (dt : Z) (kind : IntervalKind) (num_units : Z) (tz : DateLUTImpl) (time_scale : Z) : Z :=
  if time_scale =? 0 then toStartOfSeconds kind tz (to_u32 dt) num_units
  else toStartOfTicks kind tz dt num_units time_scale.

Definition addTime (dt : Z) (kind : IntervalKind) (num_units : Z) (tz : DateLUTImpl) (time_scale : Z) : Z :=
  if time_scale =? 0 then addSeconds kind tz (to_u32 dt) num_units
  else addTicks kind tz dt num_units time_scale.

End StreamTime.

(** ** Intervals of equal length *)

(** The ticks of an interval of one unit. *)
Definition unit_ticks (kind : IntervalKind) (scale : Z) : Z :=
  match kind with
  | Hour => 3600 * 10 ^ scale
  | Minute => 60 * 10 ^ scale
  | Second => 10 ^ scale
  | Millisecond | Microsecond | Nanosecond => 10 ^ (scale - StreamTime.interval_scale kind)
  | _ => 0
  end.

(** Intervals of [n] units that all have the same length and start at multiples of it:
    not those of the calendar, and not intervals of several hours, which start over at
    midnight. *)
Definition uniform (tz : DateLUTImpl) (kind : IntervalKind) (n scale : Z) : Prop :=
  0 < n < 2 ^ 62 /\ 0 <= scale <= 9 /\
  match kind with
  | Second => offset_is_whole_number_of_hours_during_epoch tz = true /\
      offset_is_whole_number_of_minutes_during_epoch tz = true
  | Minute => offset_is_whole_number_of_minutes_during_epoch tz = true /\ n < 2 ^ 56
  | Hour => offset_is_whole_number_of_hours_during_epoch tz = true /\ n = 1
  | Millisecond | Microsecond | Nanosecond =>
      0 < StreamTime.interval_scale kind <= scale /\
      10 ^ StreamTime.interval_scale kind mod n = 0
  | _ => False
  end.

(** The times that are represented. *)
Definition time_low (scale : Z) : Z := if decide (scale = 0) then 0 else - 2 ^ 63.
Definition time_top (scale : Z) : Z := if decide (scale = 0) then 2 ^ 32 else 2 ^ 63.

Lemma div_mul_floor x d : 0 <= x < 2 ^ 64 -> 0 < d -> div_mul_u64 x d = floor_to d x.
Proof.
  intros Hx Hd. unfold div_mul_u64. rewrite (to_u64_small x) by done. rewrite <- floor_to_div by done.
  destruct (floor_to_spec d x Hd) as [Hf _]. assert (0 <= floor_to d x) by (rewrite floor_to_div by done; pose proof (Z.div_pos x d); nia).
  apply to_u64_small. lia.
Qed.

Lemma floor_nonneg d x : 0 < d -> 0 <= x -> 0 <= floor_to d x <= x.
Proof. intros Hd Hx. rewrite floor_to_div by done. pose proof (Z.div_pos x d). pose proof (Z.mul_div_le x d). nia. Qed.

Lemma quot_floor x d : 0 <= x -> 0 < d -> Z.quot x d * d = floor_to d x.
Proof. intros Hx Hd. rewrite Z.quot_div_nonneg by done. by rewrite floor_to_div. Qed.

(** Rounding seconds and scaling back is rounding ticks. *)
Lemma floor_scaled d m t : 0 < d -> 0 < m -> 0 <= t -> floor_to d (Z.quot t m) * m = floor_to (d * m) t.
Proof.
  intros Hd Hm Ht. rewrite Z.quot_div_nonneg by done. rewrite !floor_to_div by nia.
  rewrite (Z.mul_comm d m), <- Z.div_div by lia. lia.
Qed.

Section Uniform.
Context (tz : DateLUTImpl) (n scale : Z).

Lemma scale_pos kind : uniform tz kind n scale -> 0 < 10 ^ scale.
Proof. intros Hu. destruct Hu as (_ & Hs & _). apply Z.pow_pos_nonneg; lia. Qed.

Lemma unit_pos kind : uniform tz kind n scale -> 0 < unit_ticks kind scale.
Proof.
  intros Hu. pose proof (scale_pos _ Hu). destruct Hu as (_ & Hs & Hk). destruct kind; cbn in *; try lia; try done;
    apply Z.pow_pos_nonneg; cbn; lia.
Qed.

(** The functions of the time zone on seconds. *)
Lemma second_floor ext t :
  uniform tz Second n scale -> 0 <= t -> t < (if ext : bool then 2 ^ 63 else 2 ^ 32) ->
  DateLUT.toStartOfSecondInterval ext tz t n = floor_to n t.
Proof.
  intros Hu Ht Htop. destruct Hu as (Hn & Hs & Hh & Hm). unfold DateLUT.toStartOfSecondInterval.
  destruct (n =? 1) eqn:H1; [apply Z.eqb_eq in H1; subst n; rewrite floor_to_div by lia; rewrite Z.div_1_r; lia|].
  pose proof (floor_nonneg n t ltac:(lia) Ht).
  destruct (n mod 60 =? 0) eqn:H60.
  - apply Z.eqb_eq in H60. assert (Hdiv : 60 * (n / 60) = n) by (symmetry; apply Z.div_exact; lia).
    unfold DateLUT.toStartOfMinuteInterval. rewrite Hm, Hdiv, to_i64_id by (unfold i64; lia).
    rewrite (proj2 (Z.leb_le 0 t)) by done. rewrite quot_floor by lia. destruct ext; [done|]. apply Z.mod_small. lia.
  - unfold DateLUT.roundDown. rewrite Hh, (proj2 (Z.leb_le 0 t)) by done.
    rewrite div_mul_floor by (try destruct ext; lia). destruct ext; [apply to_i64_id; unfold i64; lia|apply Z.mod_small; lia].
Qed.

Lemma minute_floor ext t :
  uniform tz Minute n scale -> 0 <= t -> t < (if ext : bool then 2 ^ 63 else 2 ^ 32) ->
  DateLUT.toStartOfMinuteInterval ext tz t n = floor_to (n * 60) t.
Proof.
  intros Hu Ht Htop. destruct Hu as (Hn & Hs & Hm & Hb). unfold DateLUT.toStartOfMinuteInterval.
  rewrite to_i64_id by (unfold i64; lia). rewrite Hm, (proj2 (Z.leb_le 0 t)) by done.
  rewrite quot_floor by lia. rewrite (Z.mul_comm 60). pose proof (floor_nonneg (n * 60) t ltac:(lia) Ht).
  destruct ext; [done|]. apply Z.mod_small. lia.
Qed.

Lemma hour_floor ext t :
  uniform tz Hour n scale -> 0 <= t -> DateLUT.toStartOfHourInterval ext tz t n = floor_to (n * 3600) t.
Proof.
  intros Hu Ht. destruct Hu as (_ & _ & Hh & ->). unfold DateLUT.toStartOfHourInterval, DateLUT.toStartOfHour. cbn.
  rewrite Hh, (proj2 (Z.leb_le 0 t)) by done. by rewrite quot_floor.
Qed.

Lemma toStartTime_uniform kind t :
  uniform tz kind n scale -> 0 <= t < time_top scale -> n * unit_ticks kind scale < 2 ^ 63 ->
  StreamTime.toStartTime t kind n tz scale = floor_to (n * unit_ticks kind scale) t.
Proof.
  intros Hu Ht Hlen. pose proof (scale_pos _ Hu) as Hsp. pose proof (unit_pos _ Hu) as Hup. pose proof Hu as (Hn & Hs & Hk).
  unfold StreamTime.toStartTime, time_top in *. destruct (scale =? 0) eqn:Hs0.
  - apply Z.eqb_eq in Hs0. rewrite decide_True in Ht by done. change (to_u32 t) with (t mod 2 ^ 32). rewrite Z.mod_small by lia.
    destruct kind; cbn in Hk; try lia; rewrite ?Hs0; cbn [StreamTime.toStartOfSeconds unit_ticks].
    + rewrite second_floor by (done || lia). f_equal; lia.
    + rewrite minute_floor by (done || lia). f_equal; lia.
    + rewrite hour_floor by (done || lia). f_equal; lia.
  - apply Z.eqb_neq in Hs0. rewrite decide_False in Ht by done.
    assert (Hq : 0 <= Z.quot t (10 ^ scale) < 2 ^ 63) by (split; [apply Z.quot_pos; lia|pose proof (Z.quot_le_upper_bound t (10 ^ scale) t); nia]).
    assert (Hfl : 0 <= floor_to (n * unit_ticks kind scale) t <= t) by (apply floor_nonneg; nia).
    destruct kind; try done; cbn [StreamTime.toStartOfTicks unit_ticks StreamTime.interval_scale] in *.
    1-3: destruct Hk as [His Hd]; unfold exp10_i64; rewrite (proj2 (Z.eqb_eq _ _) Hd), (proj2 (Z.leb_le _ _)) by lia;
      rewrite to_u64_small by nia; unfold StreamTime.roundDown;
      rewrite (proj2 (Z.leb_le 0 t)) by lia; rewrite div_mul_floor by nia; apply to_i64_id; unfold i64; lia.
    + unfold exp10_i64. rewrite second_floor by (done || lia). rewrite floor_scaled by lia. apply to_i64_id. unfold i64. lia.
    + unfold exp10_i64. rewrite minute_floor by (done || lia). rewrite floor_scaled by lia.
      rewrite <- Z.mul_assoc. apply to_i64_id. unfold i64. lia.
    + unfold exp10_i64. rewrite hour_floor by (done || lia). rewrite floor_scaled by lia.
      rewrite <- Z.mul_assoc. apply to_i64_id. unfold i64. lia.
Qed.

Lemma addTime_uniform kind t k :
  uniform tz kind n scale -> time_low scale <= t < time_top scale ->
  time_low scale <= t + k * unit_ticks kind scale < time_top scale ->
  StreamTime.addTime t kind k tz scale = t + k * unit_ticks kind scale.
Proof.
  intros Hu Ht Hres. pose proof (scale_pos _ Hu) as Hsp. pose proof Hu as (Hn & Hs & Hk).
  unfold StreamTime.addTime, time_low, time_top in *. destruct (scale =? 0) eqn:Hs0.
  - apply Z.eqb_eq in Hs0. destruct (decide (scale = 0)); [|lia]. change (to_u32 t) with (t mod 2 ^ 32). rewrite Z.mod_small by lia.
    destruct kind; cbn in Hk; try lia; rewrite ?Hs0 in *; cbn [StreamTime.addSeconds unit_ticks] in *;
      unfold to_u32; rewrite Z.mod_small; lia.
  - apply Z.eqb_neq in Hs0. destruct (decide (scale = 0)); [lia|].
    destruct kind; try done; cbn [StreamTime.addTicks unit_ticks StreamTime.interval_scale] in *; unfold exp10_i64.
    1-3: rewrite (proj2 (Z.leb_le _ _)) by lia; apply to_i64_id; unfold i64; lia.
    all: rewrite to_i64_id by (unfold i64; lia); lia.
Qed.
End Uniform.
