(* ===== verification/WindowHelpers.v ===== *)
(** * Windows of time (src/Interpreters/Streaming/WindowCommon,
      src/Processors/Transforms/Streaming/TumbleWindowHelper, HopWindowHelper)

    The parameters of window functions with their validation, the windows that a
    watermark finalizes, the time buckets that are no longer needed, and the windows over
    a set of buckets. *)

From S2P Require Import Prelude Codec DateLut StreamTime.

Local Open Scope Z_scope.
Local Open Scope prog_scope.

Definition BAD_ARGUMENTS : Z := 36.

Definition INVALID_WATERMARK : Z := - 2 ^ 63.
Definition MIN_WATERMARK : Z := - 2 ^ 63 + 1.
Definition TIMEOUT_WATERMARK : Z := 2 ^ 63 - 1.

Inductive EmitMode : Type :=
  | EmitNone | Tail | AfterSessionClose | Periodic | AfterWindowClose | PerEvent | OnUpdate | OnUpdateWithBatchInterval.
#[export] Instance EmitMode_eq_dec : EqDecision EmitMode.
Proof. solve_decision. Defined.

Definition onlyEmitFinalizedWindows (mode : EmitMode) : bool := bool_decide (mode = AfterWindowClose).
Definition onlyEmitUpdates (mode : EmitMode) : bool := match mode with OnUpdate | OnUpdateWithBatchInterval => true | _ => false end.

Record Window : Type := mkWindow { win_start : Z; win_end : Z }.
Definition isValid (w : Window) : bool := win_start w <? win_end w.

Record WindowWithBuckets : Type := mkWindowWithBuckets { window : Window; window_buckets : list Z }.

(** [WindowParams]: the time column; the scale of a [DateTime] is 0. *)
Record WindowParams : Type := mkWindowParams {
  time_col_is_datetime64 : bool;
  time_scale : Z;
  time_zone : DateLUTImpl;
}.

(** ** Assigning windows to rows *)

(** [getWindowStartAndEndFor] of a row. *)
Definition getWindowStartAndEndFor (base : WindowParams) (kind : IntervalKind) (num_units t : Z) : Window :=
  if time_col_is_datetime64 base then
    let start := StreamTime.toStartOfTicks kind (time_zone base) t num_units (time_scale base) in
    mkWindow start (StreamTime.addTicks kind (time_zone base) start num_units (time_scale base))
  else
    let start := StreamTime.toStartOfSeconds kind (time_zone base) t num_units in
    mkWindow start (StreamTime.addSeconds kind (time_zone base) start num_units).

(** [assignWindow]: the columns of starts and ends, by row. *)
Definition assignWindow (base : WindowParams) (interval : Z) (kind : IntervalKind) (times : list Z) : res (list Window) :=
  if interval <=? 0 then Exn BAD_ARGUMENTS else Ok (map (getWindowStartAndEndFor base kind interval) times).

(** The column to group by, [GroupBy::WindowStart] or [GroupBy::WindowEnd]. *)
Definition group_key (is_start_time_bucket : bool) (w : Window) : Z :=
  if is_start_time_bucket then win_start w else win_end w.

(** ** Validation *)

(** [getAutoScaleByInterval] *)
Fixpoint reduce_scale (fuel : nat) (num_units to_reduce scale : Z) : Z :=
  match fuel with
  | O => scale
  | S fuel =>
      if Z.rem num_units (exp10_i64 to_reduce) =? 0 then
        if scale - 1 =? 0 then 0 else reduce_scale fuel num_units (to_reduce + 1) (scale - 1)
      else scale
  end.
Definition getAutoScaleByInterval (num_units : Z) (kind : IntervalKind) : Z :=
  match kind with
  | Nanosecond => reduce_scale 9 num_units 1 9
  | Microsecond => reduce_scale 9 num_units 1 6
  | Millisecond => reduce_scale 9 num_units 1 3
  | _ => 0
  end.

(** An hour has a whole number of intervals, for kinds below the second. *)
Definition divides_hour (kind : IntervalKind) (interval : Z) : bool :=
  match kind with
  | Nanosecond | Microsecond | Millisecond =>
      Z.rem (3600 * exp10_i64 (StreamTime.interval_scale kind)) interval =? 0
  | _ => true
  end.

Module Tumble.

Record Params : Type := mkParams { base : WindowParams; window_interval : Z; interval_kind : IntervalKind }.

(** [TumbleWindowParams::TumbleWindowParams], after the arguments were read. *)
Definition create (base : WindowParams) (interval : Z) (kind : IntervalKind) : res Params :=
  if time_scale base <? getAutoScaleByInterval interval kind then Exn BAD_ARGUMENTS
  else if negb (divides_hour kind interval) then Exn BAD_ARGUMENTS
  else Ok (mkParams base interval kind).

Definition start_time (p : Params) (t : Z) : Z :=
  StreamTime.toStartTime t (interval_kind p) (window_interval p) (time_zone (base p)) (time_scale (base p)).
Definition add_time (p : Params) (t n : Z) : Z :=
  StreamTime.addTime t (interval_kind p) n (time_zone (base p)) (time_scale (base p)).

Definition getLastFinalizedWindow (watermark : Z) (p : Params) : Window :=
  let current_window_start := start_time p watermark in
  if watermark <? current_window_start then mkWindow INVALID_WATERMARK INVALID_WATERMARK
  else mkWindow (add_time p current_window_start (- window_interval p)) current_window_start.

Definition getLastExpiredTimeBucket (watermark : Z) (p : Params) (is_start_time_bucket : bool) : Z :=
  let w := getLastFinalizedWindow watermark p in
  if negb (isValid w) then watermark - 1
  else if is_start_time_bucket then win_start w else win_end w.

Definition getWindowsWithBuckets (p : Params) (is_start_time_bucket : bool) (buckets : list Z) : list WindowWithBuckets :=
  map (fun b =>
         mkWindowWithBuckets
           (if is_start_time_bucket then mkWindow b (add_time p b (window_interval p))
            else mkWindow (add_time p b (- window_interval p)) b)
           [b]) buckets.

End Tumble.

Module Hop.

Record Params : Type := mkParams {
  base : WindowParams;
  window_interval : Z;
  slide_interval : Z;
  gcd_interval : Z;
  interval_kind : IntervalKind;
}.

(** [HopWindowParams::HopWindowParams], after the arguments were read. *)
Definition create (base : WindowParams) (slide : Z) (slide_kind : IntervalKind) (win : Z) (win_kind : IntervalKind)
  : res Params :=
  if negb (bool_decide (slide_kind = win_kind)) then Exn BAD_ARGUMENTS
  else if win <? slide then Exn BAD_ARGUMENTS
  else if time_scale base <? getAutoScaleByInterval slide slide_kind then Exn BAD_ARGUMENTS
  else if negb (divides_hour slide_kind slide) then Exn BAD_ARGUMENTS
  else Ok (mkParams base win slide (Z.gcd slide win) slide_kind).

Definition start_time (p : Params) (t : Z) : Z :=
  StreamTime.toStartTime t (interval_kind p) (slide_interval p) (time_zone (base p)) (time_scale (base p)).
Definition add_time (p : Params) (t n : Z) : Z :=
  StreamTime.addTime t (interval_kind p) n (time_zone (base p)) (time_scale (base p)).

(** The loop of [getLastFinalizedWindow]. *)
Fixpoint back_to (fuel : nat) (watermark : Z) (p : Params) (last_finalized_window_end : Z) : option Z :=
  match fuel with
  | O => None
  | S fuel =>
      if watermark <? last_finalized_window_end
      then back_to fuel watermark p (add_time p last_finalized_window_end (- slide_interval p))
      else Some last_finalized_window_end
  end.

(** Turns that are enough when the ends that are tried stay in the range of times. *)
Definition back_turns (p : Params) : nat := Z.to_nat (window_interval p / slide_interval p + 2).

Definition getLastFinalizedWindow (watermark : Z) (p : Params) : option Window :=
  let current_window_start := start_time p watermark in
  if watermark <? current_window_start then Some (mkWindow INVALID_WATERMARK INVALID_WATERMARK)
  else
    last_end ← back_to (back_turns p) watermark p (add_time p current_window_start (window_interval p));
    Some (mkWindow (add_time p last_end (- window_interval p)) last_end).

Definition getLastExpiredTimeBucket (watermark : Z) (p : Params) (is_start_time_bucket : bool) : option Z :=
  w ← getLastFinalizedWindow watermark p;
  Some
    (if negb (isValid w) then watermark - 1
     else if is_start_time_bucket then add_time p (win_start w) (slide_interval p - gcd_interval p)
     else add_time p (win_start w) (slide_interval p)).

(** The least and greatest bucket of a window. *)
Definition min_bucket_of_window (p : Params) (is_start_time_bucket : bool) (w : Window) : Z :=
  if is_start_time_bucket then win_start w else add_time p (win_start w) (gcd_interval p).
Definition max_bucket_of_window (p : Params) (is_start_time_bucket : bool) (w : Window) : Z :=
  if is_start_time_bucket then add_time p (win_end w) (- gcd_interval p) else win_end w.

Definition buckets_of (p : Params) (is_start_time_bucket : bool) (w : Window) (buckets : list Z) : list Z :=
  filter (fun b => min_bucket_of_window p is_start_time_bucket w <= b <= max_bucket_of_window p is_start_time_bucket w) buckets.

(** The loop that collects the windows, from the last to the first. *)
Fixpoint collect (fuel : nat) (p : Params) (is_start_time_bucket : bool) (buckets : list Z) (front : Z) (w : Window)
  (collected : list WindowWithBuckets) : option (list WindowWithBuckets) :=
  match fuel with
  | O => None
  | S fuel =>
      if front <=? max_bucket_of_window p is_start_time_bucket w then
        let bs := buckets_of p is_start_time_bucket w buckets in
        let collected := if decide (bs = []) then collected else mkWindowWithBuckets w bs :: collected in
        let w := mkWindow (add_time p (win_start w) (- slide_interval p)) (add_time p (win_end w) (- slide_interval p)) in
        if isValid w then collect fuel p is_start_time_bucket buckets front w collected else Some collected
      else Some collected
  end.

(** Turns that are enough from the window [w] down to the bucket [front]. *)
Definition collect_turns (front : Z) (w : Window) : nat := Z.to_nat (win_end w - front + 2).

Definition getWindowsWithBuckets (p : Params) (is_start_time_bucket : bool) (buckets : list Z)
  : option (list WindowWithBuckets) :=
  match head buckets, last buckets with
  | Some front, Some back =>
      let start := start_time p (if is_start_time_bucket then back else back - 1) in
      let w := mkWindow start (add_time p start (window_interval p)) in
      if isValid w then collect (collect_turns front w) p is_start_time_bucket buckets front w [] else Some []
  | _, _ => Some []
  end.

End Hop.
