(* ===== verification/WindowParamsProps.v ===== *)
(** * Validation of window parameters

    Which arguments the constructors of the parameters of hop and tumble windows accept:
    the scale that an interval needs, as the code computes it, is the least one at which
    the interval is a whole number of ticks. *)

From S2P Require Import Prelude Codec DateLut StreamTime WindowHelpers.

Local Open Scope Z_scope.

(** [n] intervals are a whole number of ticks of a column with scale [s]. *)
Definition whole_ticks (kind : IntervalKind) (n s : Z) : Prop :=
  match kind with
  | Nanosecond | Microsecond | Millisecond => (10 ^ StreamTime.interval_scale kind | n * 10 ^ s)
  | _ => True
  end.

(** An hour is a whole number of [n] intervals. *)
Definition whole_hour (kind : IntervalKind) (n : Z) : Prop :=
  match kind with
  | Nanosecond | Microsecond | Millisecond => (n | 3600 * 10 ^ StreamTime.interval_scale kind)
  | _ => True
  end.

Lemma rem_divide n m : 0 < n -> 0 < m -> (Z.rem n m =? 0) = true <-> (m | n).
Proof. intros Hn Hm. rewrite Z.eqb_eq, Z.rem_mod_nonneg by lia. apply Z.mod_divide. lia. Qed.

Lemma pow10_divide a b : 0 <= a <= b -> (10 ^ a | 10 ^ b).
Proof. intros Hab. exists (10 ^ (b - a)). rewrite <- Z.pow_add_r by lia. f_equal. lia. Qed.

(** The loop ends at the least scale; [d] digits were taken off. *)
Lemma reduce_scale_spec fuel n d scale :
  0 < n -> 0 <= d -> 0 < scale -> scale <= Z.of_nat fuel -> (10 ^ d | n) ->
  let r := reduce_scale fuel n (d + 1) scale in
  0 <= r <= scale /\ (10 ^ (d + scale - r) | n) /\ (0 < r -> ~ (10 ^ (d + scale - r + 1) | n)).
Proof.
  intros Hn. revert d scale. induction fuel as [|fuel IH]; intros d scale Hd Hs Hf Hdiv; [lia|]. cbn [reduce_scale]. unfold exp10_i64.
  assert (Hpow : 0 < 10 ^ (d + 1)) by (apply Z.pow_pos_nonneg; lia). pose proof (rem_divide n (10 ^ (d + 1)) Hn Hpow) as Hrem.
  destruct (Z.rem n (10 ^ (d + 1)) =? 0).
  - assert (Hdiv' : (10 ^ (d + 1) | n)) by by apply Hrem. destruct (Z.eqb_spec (scale - 1) 0) as [He|He].
    + cbn. replace (d + scale - 0) with (d + 1) by lia. split; [lia|]. split; [done|lia].
    + destruct (IH (d + 1) (scale - 1)) as (H1 & H2 & H3); try (done || lia). cbn zeta.
      replace (d + scale - reduce_scale fuel n (d + 1 + 1) (scale - 1)) with (d + 1 + (scale - 1) - reduce_scale fuel n (d + 1 + 1) (scale - 1)) by lia.
      split; [lia|]. by split.
  - cbn zeta. replace (d + scale - scale) with d by lia. split; [lia|]. split; [done|]. intros _ Hdiv'. by apply Hrem in Hdiv'.
Qed.

Lemma scale_divides n u s : 0 <= s <= u -> (10 ^ (u - s) | n) <-> (10 ^ u | n * 10 ^ s).
Proof.
  intros Hs. replace (10 ^ u) with (10 ^ (u - s) * 10 ^ s) by (rewrite <- Z.pow_add_r by lia; f_equal; lia).
  assert (0 < 10 ^ s) by (apply Z.pow_pos_nonneg; lia). split.
  - intros Hd. by apply Z.mul_divide_mono_r.
  - intros Hd. eapply Z.mul_divide_cancel_r; [|exact Hd]. lia.
Qed.

(** The scale is the least at which the interval is a whole number of ticks. *)
Lemma getAutoScaleByInterval_spec kind n s : 0 < n -> 0 <= s -> getAutoScaleByInterval n kind <= s <-> whole_ticks kind n s.
Proof.
  intros Hn Hs.
  assert (Hgen : forall u, 0 < u <= 9 -> reduce_scale 9 n 1 u <= s <-> (10 ^ u | n * 10 ^ s)).
  { intros u Hu. destruct (reduce_scale_spec 9 n 0 u) as (H1 & H2 & H3); try (cbn; lia). { apply Z.divide_1_l. }
    cbn zeta in *. change (0 + 1) with 1 in *. set (r := reduce_scale 9 n 1 u) in *. destruct (decide (u <= s)) as [Hus|Hus].
    { split; [|lia]. intros _. apply Z.divide_mul_r, pow10_divide. lia. }
    rewrite <- scale_divides by lia. split.
    - intros Hrs. eapply Z.divide_trans; [|exact H2]. apply pow10_divide. lia.
    - intros Hd. destruct (decide (r <= s)) as [|Hrs]; [done|]. destruct H3; [lia|]. eapply Z.divide_trans; [|exact Hd]. apply pow10_divide. lia. }
  destruct kind; cbn [getAutoScaleByInterval whole_ticks StreamTime.interval_scale]; try (split; [done|lia]); apply Hgen; lia.
Qed.

Lemma divides_hour_spec kind n : 0 < n -> divides_hour kind n = true <-> whole_hour kind n.
Proof. intros Hn. destruct kind; cbn [divides_hour whole_hour]; try done; apply rem_divide; cbn; lia. Qed.

(** C40. The constructor of hop windows rejects its arguments with [BAD_ARGUMENTS] exactly when
    the two intervals have different units, the slide is longer than the window, the slide
    is not a whole number of ticks of the time column, or an hour is not a whole number of
    slides below a second; else the parameters are those given, with the greatest common
    divisor of slide and window. *)
Theorem hop_create_correct (base : WindowParams) (slide win : Z) (slide_kind win_kind : IntervalKind) :
  0 < slide -> 0 <= time_scale base ->
  (Hop.create base slide slide_kind win win_kind = Ok (Hop.mkParams base win slide (Z.gcd slide win) slide_kind) /\
   slide_kind = win_kind /\ slide <= win /\ whole_ticks slide_kind slide (time_scale base) /\ whole_hour slide_kind slide) \/
  (Hop.create base slide slide_kind win win_kind = Exn BAD_ARGUMENTS /\
   ~ (slide_kind = win_kind /\ slide <= win /\ whole_ticks slide_kind slide (time_scale base) /\ whole_hour slide_kind slide)).
Proof.
  intros Hs Ht. unfold Hop.create. pose proof (getAutoScaleByInterval_spec slide_kind slide (time_scale base) Hs Ht) as Hauto.
  pose proof (divides_hour_spec slide_kind slide Hs) as Hhour. case_bool_decide as Hk; cbn [negb]; [|right; split; [done|naive_solver]].
  destruct (Z.ltb_spec win slide); [right; split; [done|]; intros (_ & ? & _); lia|].
  destruct (Z.ltb_spec (time_scale base) (getAutoScaleByInterval slide slide_kind)); [right; split; [done|]; intros (_ & _ & ?%Hauto & _); lia|].
  destruct (divides_hour slide_kind slide); cbn [negb]; [left|right; split; [done|]; by intros (_ & _ & _ & ?%Hhour)].
  split; [done|]. split; [done|]. split; [done|]. split; [by apply Hauto|by apply Hhour].
Qed.

(** The same for tumble windows, whose only interval is the window. *)
Lemma tumble_create_correct (base : WindowParams) (win : Z) (kind : IntervalKind) :
  0 < win -> 0 <= time_scale base ->
  (Tumble.create base win kind = Ok (Tumble.mkParams base win kind) /\ whole_ticks kind win (time_scale base) /\ whole_hour kind win) \/
  (Tumble.create base win kind = Exn BAD_ARGUMENTS /\ ~ (whole_ticks kind win (time_scale base) /\ whole_hour kind win)).
Proof.
  intros Hs Ht. unfold Tumble.create. pose proof (getAutoScaleByInterval_spec kind win (time_scale base) Hs Ht) as Hauto.
  pose proof (divides_hour_spec kind win Hs) as Hhour.
  destruct (Z.ltb_spec (time_scale base) (getAutoScaleByInterval win kind)); [right; split; [done|]; intros (?%Hauto & _); lia|].
  destruct (divides_hour kind win); cbn [negb]; [left|right; split; [done|]; by intros (_ & ?%Hhour)].
  split; [done|]. split; [by apply Hauto|by apply Hhour].
Qed.

Definition no_table : DateLUTImpl :=
  mkDateLUTImpl (fun _ => mkValues 0 0 0 0 0 0 0 0) (fun _ => mkValues 0 0 0 0 0 0 0 0) (fun _ => 0) (fun _ => 0) true true.

(** 250 milliseconds need a scale of 2 digits. *)
Lemma hop_create_correct_witness :
  Hop.create (mkWindowParams true 2 no_table) 250 Millisecond 1000 Millisecond = Ok (Hop.mkParams (mkWindowParams true 2 no_table) 1000 250 250 Millisecond) /\
  ~ whole_ticks Millisecond 250 1.
Proof.
  split.
  - destruct (hop_create_correct (mkWindowParams true 2 no_table) 250 1000 Millisecond Millisecond) as [[H _]|[H _]]; [lia|cbn; lia|exact H|discriminate H].
  - destruct (hop_create_correct (mkWindowParams true 1 no_table) 250 1000 Millisecond Millisecond) as [[H _]|[_ H]]; [lia|cbn; lia|discriminate H|].
    intros Hw. apply H. split; [reflexivity|]. split; [lia|]. split; [exact Hw|]. by apply divides_hour_spec.
Defined.
