(* ===== verification/WindowSpec.v ===== *)
(** * What windows promise to aggregation

    [WindowFunction] is the interface between the helpers of a window function and the
    transform that aggregates windows: which bucket a row belongs to, which windows a set
    of buckets makes up, and up to which bucket a watermark leaves nothing to do.  The
    tumble and hop helpers implement it for intervals of equal length. *)

From S2P Require Import Prelude Codec Rounding DateLut StreamTime WindowHelpers.

Local Open Scope Z_scope.

(** A time is in a window. *)
Definition covers (w : Window) (t : Z) : Prop := win_start w <= t < win_end w.

(** What the aggregation calls. *)
Record WindowOps : Type := mkWindowOps {
  wf_is_start : bool;    (** [group_by == GroupBy::WindowStart] *)
  wf_reassign : bool;    (** [needReassignWindow] *)
  wf_bucket : Z -> Z;
  wf_windows : list Z -> option (list WindowWithBuckets);
  wf_expired : Z -> option Z;
}.

Class WindowFunction (ops : WindowOps) (usable : Z -> Prop) (is_window : Window -> Prop) : Type := {
  (** A bucket is in a window. *)
  bucket_in : Window -> Z -> Prop;
  bucket_in_dec :: forall w b, Decision (bucket_in w b);
  bucket_in_spec : forall w t, usable t -> is_window w -> bucket_in w (wf_bucket ops t) <-> covers w t;
  (** The windows over buckets: all that hold a bucket, by their end. *)
  windows_spec : forall buckets,
    StronglySorted Z.lt buckets -> Forall (fun b => exists t, usable t /\ b = wf_bucket ops t) buckets ->
    exists ws, wf_windows ops buckets = Some ws /\
      StronglySorted (fun x y => win_end (window x) < win_end (window y)) ws /\
      forall w bs, mkWindowWithBuckets w bs ∈ ws <->
        is_window w /\ bs = filter (bucket_in w) buckets /\ bs <> [];
  (** A bucket is expired when every window over it is finalized. *)
  expired_spec : forall watermark, usable watermark -> exists x, wf_expired ops watermark = Some x /\
    forall t, usable t ->
      wf_bucket ops t <= x <-> forall w, is_window w -> covers w t -> win_end w <= watermark;
  (** Every time has a window. *)
  window_exists : forall t, usable t -> exists w, is_window w /\ covers w t;
  window_end_inj : forall w w', is_window w -> is_window w' -> win_end w = win_end w' -> w = w';
  window_column_inj : forall w w', is_window w -> is_window w' ->
    group_key (wf_is_start ops) w = group_key (wf_is_start ops) w' -> w = w';
  (** The column of a window is its bucket when it is not reassigned. *)
  single_bucket : forall w t, wf_reassign ops = false -> usable t -> is_window w ->
    covers w t -> wf_bucket ops t = group_key (wf_is_start ops) w;
  bucket_nonzero : forall t, usable t -> wf_bucket ops t <> 0;
  usable_valid : forall t, usable t -> MIN_WATERMARK < t < TIMEOUT_WATERMARK;
}.

(** ** Buckets that divide an interval *)

Lemma uniform_divides tz kind n m scale :
  uniform tz kind n scale -> 0 < m -> (m | n) -> uniform tz kind m scale.
Proof.
  intros (Hn & Hs & Hk) Hm Hd. pose proof (Z.divide_pos_le m n ltac:(lia) Hd). split; [lia|]. split; [done|].
  assert (Hsub : forall x, x mod n = 0 -> x mod m = 0).
  { intros x Hx. apply Z.mod_divide in Hx; [|lia]. apply Z.mod_divide; [lia|]. by apply (Z.divide_trans _ n). }
  destruct kind; cbn in *; try done; try (split; [apply Hk|apply Hsub, Hk]).
  - split; [apply Hk|lia].
  - split; [apply Hk|]. destruct Hk as [_ ->]. apply Z.divide_1_r_nonneg; [lia|done].
Qed.

(** Multiples of [g] below a multiple of [g]. *)
Lemma multiple_lt g x y : 0 < g -> x mod g = 0 -> y mod g = 0 -> x < y <-> x <= y - g.
Proof.
  intros Hg Hx Hy. split; [|lia]. intros Hlt. destruct (Z.le_gt_cases x (y - g)); [done|].
  assert (x = y); [|lia]. apply (multiples_apart g); try done; lia.
Qed.

Lemma floor_lt m x y : 0 < m -> y mod m = 0 -> floor_to m x < y <-> x < y.
Proof.
  intros Hm Hy. destruct (floor_to_spec m x Hm) as [Hf Hf0]. split; [|lia]. intros Hlt.
  apply (multiple_lt m) in Hlt; [lia|done..].
Qed.

Lemma floor_le m x y : 0 < m -> y mod m = 0 -> y <= floor_to m x <-> y <= x.
Proof. intros Hm Hy. pose proof (floor_lt m x y Hm Hy). lia. Qed.

(** ** Lists of buckets *)

(** A bucket, the start or the end of its times, is in a window. *)
Definition key_in (is_start : bool) (w : Window) (b : Z) : Prop :=
  if is_start then win_start w <= b < win_end w else win_start w < b <= win_end w.
#[export] Instance key_in_dec is_start w b : Decision (key_in is_start w b).
Proof. unfold key_in. destruct is_start; apply _. Defined.

Lemma sorted_ends x l :
  StronglySorted Z.lt (x :: l) -> exists y, last (x :: l) = Some y /\ forall z, z ∈ x :: l -> x <= z <= y.
Proof.
  revert x. induction l as [|a l IH]; intros x Hs.
  - exists x. split; [done|]. intros z ->%list_elem_of_singleton. lia.
  - apply StronglySorted_inv in Hs as [Hs Hall]. destruct (IH a Hs) as (y & Hy & Hb). exists y. split; [done|].
    apply Forall_cons in Hall as [Hxa _]. destruct (Hb a) as [_ Hay]; [by left|].
    intros z [->|Hz]%elem_of_cons; [lia|]. specialize (Hb z Hz). lia.
Qed.

Lemma sorted_NoDup l : StronglySorted Z.lt l -> NoDup l.
Proof.
  induction 1 as [|x l _ IH Hall]; constructor; [|done]. rewrite Forall_forall in Hall. intros Hin%Hall. lia.
Qed.

Section Hop.
Context (p : Hop.Params).
Local Abbreviation scale := (time_scale (Hop.base p)).
Local Abbreviation U := (unit_ticks (Hop.interval_kind p) scale).
Local Abbreviation Sl := (Hop.slide_interval p * U).
Local Abbreviation Wd := (Hop.window_interval p * U).
Local Abbreviation Gd := (Hop.gcd_interval p * U).

(** Hop windows over intervals of equal length. *)
Record hop_ok : Prop := {
  ho_column : time_col_is_datetime64 (Hop.base p) = negb (scale =? 0);
  ho_uniform : uniform (time_zone (Hop.base p)) (Hop.interval_kind p) (Hop.slide_interval p) scale;
  ho_window : Hop.slide_interval p <= Hop.window_interval p;
  ho_gcd : Hop.gcd_interval p = Z.gcd (Hop.slide_interval p) (Hop.window_interval p);
}.

(** Times at least two windows away from the ends of the range of times. *)
Definition hop_usable (t : Z) : Prop := 2 * Wd + 2 * Sl <= t /\ t + 2 * Wd + 2 * Sl < time_top scale.
Definition hop_window (w : Window) : Prop := win_start w mod Sl = 0 /\ win_end w = win_start w + Wd.

Context (Hok : hop_ok).

Lemma hop_pos : 0 < U /\ 0 < Sl /\ 0 < Gd /\ Sl <= Wd /\ Sl mod Gd = 0 /\ Wd mod Gd = 0.
Proof.
  destruct Hok as [_ Hu Hw Hg]. pose proof (unit_pos _ _ _ _ Hu) as HU. destruct Hu as ([Hn _] & _).
  assert (0 < Hop.gcd_interval p) by (rewrite Hg; pose proof (Z.gcd_nonneg (Hop.slide_interval p) (Hop.window_interval p));
    pose proof (Z.gcd_eq_0_l (Hop.slide_interval p) (Hop.window_interval p)); lia).
  split; [done|]. split; [nia|]. split; [nia|]. split; [nia|].
  split; (apply Z.mod_divide; [nia|]; apply Z.mul_divide_mono_r; rewrite Hg); [apply Z.gcd_divide_l|apply Z.gcd_divide_r].
Qed.

Lemma hop_gcd_le : Gd <= Sl.
Proof.
  pose proof hop_pos as (HU & HS & HG & _ & HSG & _). apply Z.divide_pos_le; [done|]. apply Z.mod_divide; [lia|done].
Qed.

Lemma low_nonpos : time_low scale <= 0.
Proof. unfold time_low. case_decide; lia. Qed.

Lemma hop_add t k :
  0 <= t < time_top scale -> 0 <= t + k * U < time_top scale -> Hop.add_time p t k = t + k * U.
Proof.
  intros Ht Hk. pose proof low_nonpos. apply (addTime_uniform _ (Hop.slide_interval p)); [apply Hok|lia|lia].
Qed.

Lemma hop_start t : 0 <= t < time_top scale -> Sl < 2 ^ 63 -> Hop.start_time p t = floor_to Sl t.
Proof. intros Ht HS. apply toStartTime_uniform; [apply Hok|done|done]. Qed.

Lemma hop_usable_range t : hop_usable t -> 0 <= t < time_top scale /\ Sl < 2 ^ 63.
Proof.
  pose proof hop_pos. unfold hop_usable. assert (time_top scale <= 2 ^ 63) by (unfold time_top; case_decide; lia). lia.
Qed.

(** ** The last finalized window *)

Lemma hop_back fuel j t e :
  hop_usable t -> e <= t < e + Sl -> (j < fuel)%nat -> e + Z.of_nat j * Sl <= t + Wd + Sl ->
  Hop.back_to fuel t p (e + Z.of_nat j * Sl) = Some e.
Proof.
  intros Ht He. pose proof hop_pos as (HU & HS & _ & HSW & _). pose proof (hop_usable_range t Ht) as [Hr _]. unfold hop_usable in Ht.
  revert fuel. induction j as [|j IH]; intros [|fuel] Hf Hle; try lia; cbn [Hop.back_to].
  - rewrite Z.mul_0_l, Z.add_0_r. by rewrite (proj2 (Z.ltb_ge _ _)) by lia.
  - assert (Hj : Z.of_nat (S j) * Sl = Z.of_nat j * Sl + Sl) by lia. rewrite Hj in *.
    assert (0 <= Z.of_nat j * Sl) by (apply Z.mul_nonneg_nonneg; lia).
    rewrite (proj2 (Z.ltb_lt _ _)) by lia. rewrite hop_add by lia.
    replace (e + (Z.of_nat j * Sl + Sl) + - Hop.slide_interval p * U) with (e + Z.of_nat j * Sl) by lia.
    apply IH; lia.
Qed.

(** Its start. *)
Definition last_start (t : Z) : Z := floor_to Sl (t - Wd).

Lemma last_start_spec t : last_start t mod Sl = 0 /\ last_start t + Wd <= t < last_start t + Wd + Sl.
Proof. pose proof hop_pos as (_ & HS & _). unfold last_start. pose proof (floor_to_spec Sl (t - Wd) HS). lia. Qed.

Lemma hop_last_finalized t :
  hop_usable t -> Hop.getLastFinalizedWindow t p = Some (mkWindow (last_start t) (last_start t + Wd)).
Proof.
  intros Ht. pose proof hop_pos as (HU & HS & _ & HSW & _). pose proof (hop_usable_range t Ht) as [Hr H63].
  pose proof (floor_to_spec Sl t HS) as [Hf Hf0]. pose proof (last_start_spec t) as [Hl0 Hl].
  unfold Hop.getLastFinalizedWindow. rewrite hop_start by done. rewrite (proj2 (Z.ltb_ge _ _)) by lia.
  unfold hop_usable in Ht. rewrite hop_add by lia.
  assert (Hj : exists j, floor_to Sl t = last_start t + Z.of_nat j * Sl).
  { apply Z.mod_divide in Hf0 as [a Ha], Hl0 as [b Hb]; [|lia..]. exists (Z.to_nat (a - b)).
    assert (b < a + 1) by (apply (Z.mul_lt_mono_pos_r Sl); lia). rewrite Ha, Hb, Z2Nat.id by lia. lia. }
  destruct Hj as [j Hj]. rewrite Hj. replace (last_start t + Z.of_nat j * Sl + Wd) with (last_start t + Wd + Z.of_nat j * Sl) by lia.
  rewrite hop_back; [|done| | |lia].
  - cbn [mbind option_bind]. rewrite hop_add by lia. do 2 f_equal. lia.
  - lia.
  - unfold Hop.back_turns. assert (Z.of_nat j * Sl < Wd + Sl) by lia.
    assert (Z.of_nat j * Hop.slide_interval p < Hop.window_interval p + Hop.slide_interval p)
      by (apply (Z.mul_lt_mono_pos_r U); lia).
    assert (Z.of_nat j <= Hop.window_interval p / Hop.slide_interval p + 1); [|lia].
    destruct (ho_uniform Hok) as ([Hn _] & _). rewrite <- (Z.div_add _ 1) by lia. apply Z.div_le_lower_bound; lia.
Qed.

(** ** Expired buckets *)

(** The bucket of a time. *)
Definition hop_bucket (is_start : bool) (t : Z) : Z :=
  group_key is_start (getWindowStartAndEndFor (Hop.base p) (Hop.interval_kind p) (Hop.gcd_interval p) t).

Lemma hop_bucket_eq is_start t :
  hop_usable t -> hop_bucket is_start t = floor_to Gd t + (if is_start then 0 else Gd).
Proof.
  intros Ht. pose proof hop_pos as (HU & HS & HG & HSW & HSG & _). pose proof (hop_usable_range t Ht) as [Hr H63].
  pose proof hop_gcd_le as HGS.
  assert (Hg : uniform (time_zone (Hop.base p)) (Hop.interval_kind p) (Hop.gcd_interval p) scale).
  { apply (uniform_divides _ _ (Hop.slide_interval p)); [apply Hok|nia|]. rewrite (ho_gcd Hok). apply Z.gcd_divide_l. }
  pose proof (toStartTime_uniform _ _ _ _ t Hg Hr ltac:(lia)) as Hst. pose proof (floor_to_spec Gd t HG) as [Hf _].
  unfold hop_usable in Ht. pose proof low_nonpos.
  pose proof (addTime_uniform _ _ _ _ (floor_to Gd t) (Hop.gcd_interval p) Hg ltac:(lia) ltac:(lia)) as Had.
  unfold hop_bucket, getWindowStartAndEndFor. rewrite (ho_column Hok). unfold StreamTime.toStartTime, StreamTime.addTime in *.
  unfold time_top in *. destruct (scale =? 0) eqn:Hs0; cbn [negb].
  - apply Z.eqb_eq in Hs0. rewrite decide_True in * by done. unfold to_u32 in Hst, Had. rewrite Z.mod_small in Hst, Had by lia.
    cbn [group_key]. rewrite Hst. unfold group_key. destruct is_start; cbn; [lia|done].
  - rewrite Hst. unfold group_key. destruct is_start; cbn; [lia|done].
Qed.

Lemma hop_expired is_start t :
  hop_usable t ->
  Hop.getLastExpiredTimeBucket t p is_start = Some (last_start t + Sl - (if is_start then Gd else 0)).
Proof.
  intros Ht. pose proof hop_pos as (HU & HS & HG & HSW & HSG & _). pose proof (last_start_spec t) as [_ Hl].
  pose proof hop_gcd_le as HGS.
  pose proof (hop_usable_range t Ht) as [Hr _]. unfold Hop.getLastExpiredTimeBucket. rewrite hop_last_finalized by done.
  cbn [mbind option_bind]. unfold isValid. cbn [win_start win_end]. rewrite (proj2 (Z.ltb_lt _ _)) by lia. cbn [negb].
  unfold hop_usable in Ht. destruct is_start; rewrite hop_add by lia; f_equal; lia.
Qed.

(** A bucket is expired when all windows over its times are finalized. *)
Lemma hop_expired_spec is_start x t :
  hop_usable x -> hop_usable t ->
  hop_bucket is_start t <= last_start x + Sl - (if is_start then Gd else 0) <->
  forall w, hop_window w -> covers w t -> win_end w <= x.
Proof.
  intros Hx Ht. pose proof hop_pos as (HU & HS & HG & HSW & HSG & _). pose proof (last_start_spec x) as [Hl0 Hl].
  rewrite hop_bucket_eq by done.
  assert (Hiff : floor_to Gd t + (if is_start then 0 else Gd) <= last_start x + Sl - (if is_start then Gd else 0) <->
                 t < last_start x + Sl).
  { assert (Hm : (last_start x + Sl) mod Gd = 0).
    { apply Z.mod_divide; [lia|]. apply Z.mod_divide in HSG; [|lia]. apply Z.divide_add_r; [|done].
      apply (Z.divide_trans _ Sl); [done|]. apply Z.mod_divide; [lia|done]. }
    rewrite <- (floor_lt Gd) by done. rewrite (multiple_lt Gd) by (try done; apply floor_to_spec, HG).
    destruct is_start; lia. }
  rewrite Hiff. split.
  - intros Hlt w [Hw0 Hw] [Hc1 Hc2]. assert (win_start w <= last_start x); [|lia].
    destruct (Z.le_gt_cases (win_start w) (last_start x)); [done|].
    apply (multiple_lt Sl) in H; [lia|done..].
  - intros Hall. specialize (Hall (mkWindow (floor_to Sl t) (floor_to Sl t + Wd))). cbn in Hall.
    pose proof (floor_to_spec Sl t HS) as [Hf Hf0]. assert (Hend : floor_to Sl t + Wd <= x) by (apply Hall; [done|split; cbn; lia]).
    apply (floor_lt Sl); [done|rewrite Z.add_mod, Hl0, Z.mod_same by lia; done|]. lia.
Qed.

(** ** The windows over buckets *)

Lemma hop_window_mod w : hop_window w -> win_start w mod Gd = 0 /\ win_end w mod Gd = 0.
Proof.
  pose proof hop_pos as (_ & HS & HG & _ & HSG & HWG). intros [Hw0 ->]. apply Z.mod_divide in HSG, HWG; [|lia..].
  assert (Hd : (Gd | win_start w)) by (apply (Z.divide_trans _ Sl); [done|]; apply Z.mod_divide; [lia|done]).
  split; (apply Z.mod_divide; [lia|]); [done|by apply Z.divide_add_r].
Qed.

(** The window is in the range of times. *)
Definition in_range (w : Window) : Prop := 0 <= win_start w /\ win_end w < time_top scale.

Lemma hop_max_bucket is_start w :
  hop_window w -> in_range w -> Hop.max_bucket_of_window p is_start w = win_end w - (if is_start then Gd else 0).
Proof.
  intros [Hw0 Hw] [Hr1 Hr2]. pose proof hop_pos as (HU & HS & HG & HSW & _). pose proof hop_gcd_le.
  unfold Hop.max_bucket_of_window. destruct is_start; [|lia]. rewrite hop_add by lia. lia.
Qed.

Lemma hop_min_bucket is_start w :
  hop_window w -> in_range w -> Hop.min_bucket_of_window p is_start w = win_start w + (if is_start then 0 else Gd).
Proof.
  intros [Hw0 Hw] [Hr1 Hr2]. pose proof hop_pos as (HU & HS & HG & HSW & _). pose proof hop_gcd_le.
  unfold Hop.min_bucket_of_window. destruct is_start; [lia|]. rewrite hop_add by lia. lia.
Qed.

Lemma hop_buckets_of is_start w buckets :
  hop_window w -> in_range w -> Forall (fun b => b mod Gd = 0) buckets ->
  Hop.buckets_of p is_start w buckets = filter (key_in is_start w) buckets.
Proof.
  intros Hw Hr Hall. pose proof (hop_window_mod w Hw) as [Hm1 Hm2]. pose proof hop_pos as (_ & _ & HG & _).
  unfold Hop.buckets_of. apply filter_iff_Forall. eapply Forall_impl; [done|]. intros b Hb. cbn beta.
  rewrite hop_max_bucket, hop_min_bucket by done. pose proof (multiple_lt Gd b (win_end w) HG Hb Hm2).
  pose proof (multiple_lt Gd (win_start w) b HG Hm1 Hb). unfold key_in. destruct is_start; lia.
Qed.

(** A window below all buckets has none of them. *)
Lemma key_in_below (is_start : bool) w w' front b :
  hop_window w -> win_end w' <= win_end w -> front mod Gd = 0 -> front <= b ->
  win_end w - (if is_start then Gd else 0) < front -> ~ key_in is_start w' b.
Proof.
  intros Hw Hle Hf Hb Hlt. pose proof (hop_window_mod w Hw) as [_ Hm]. pose proof hop_pos as (_ & _ & HG & _).
  pose proof (multiple_lt Gd front (win_end w) HG Hf Hm). unfold key_in. destruct is_start; lia.
Qed.

Definition step_back (w : Window) : Window := mkWindow (win_start w - Sl) (win_end w - Sl).

Lemma step_back_window w : hop_window w -> hop_window (step_back w).
Proof.
  pose proof hop_pos as (_ & HS & _). intros [Hw0 Hw]. split; cbn; [|lia]. rewrite Zminus_mod, Hw0, Z.mod_same by lia. done.
Qed.

(** The windows up to [w] are those up to the one before and [w]. *)
Lemma up_to_window w w' :
  hop_window w -> hop_window w' -> win_end w' <= win_end w <-> w' = w \/ win_end w' <= win_end (step_back w).
Proof.
  pose proof hop_pos as (_ & HS & _). destruct w as [a b], w' as [a' b']. intros [Hw0 Hw] [Hw0' Hw']. cbn in *. subst b b'.
  destruct (decide (a' = a)) as [->|Hne]; [split; [by left|lia]|]. pose proof (multiple_lt Sl a' a HS Hw0' Hw0). split; [lia|].
  intros [Heq|]; [by injection Heq|lia].
Qed.

Definition ends_before (x y : WindowWithBuckets) : Prop := win_end (window x) < win_end (window y).

(** What the loop has collected. *)
Definition windows_up_to (is_start : bool) (buckets : list Z) (e : Z) (ws : list WindowWithBuckets) : Prop :=
  StronglySorted ends_before ws /\
  forall w bs, mkWindowWithBuckets w bs ∈ ws <->
    hop_window w /\ win_end w <= e /\ bs = filter (key_in is_start w) buckets /\ bs <> [].

Lemma windows_up_to_step is_start buckets w ws :
  hop_window w -> windows_up_to is_start buckets (win_end (step_back w)) ws ->
  let bs := filter (key_in is_start w) buckets in
  windows_up_to is_start buckets (win_end w) (ws ++ if decide (bs = []) then [] else [mkWindowWithBuckets w bs]).
Proof.
  intros Hw [Hs Hm] bs. pose proof hop_pos as (_ & HS & _). split.
  - destruct (decide _); [by rewrite app_nil_r|]. apply StronglySorted_app_2; [|done|repeat constructor].
    intros [w1 bs1] y H1 ->%list_elem_of_singleton. apply Hm in H1 as (_ & H1 & _). unfold ends_before. cbn in *. lia.
  - intros w' bs'. rewrite elem_of_app, Hm. split.
    + intros [(Hw' & Hle & Hb)|Hin]; [split; [done|]; split; [cbn in Hle; lia|done]|].
      destruct (decide _); [by apply not_elem_of_nil in Hin|]. apply list_elem_of_singleton in Hin as [= -> ->]. done.
    + intros (Hw' & Hle & Hb & Hne). apply up_to_window in Hle as [->|Hle]; [|by left|done..].
      right. subst bs'. rewrite decide_False by done. by apply list_elem_of_singleton.
Qed.

Lemma hop_collect is_start buckets front fuel w acc :
  Forall (fun b => b mod Gd = 0 /\ front <= b) buckets -> front mod Gd = 0 -> Wd + Sl <= front ->
  hop_window w -> front - Wd - Sl <= win_start w -> win_end w < time_top scale ->
  (0 < fuel)%nat -> win_end w - front + 2 <= Z.of_nat fuel ->
  exists ws, Hop.collect fuel p is_start buckets front w acc = Some (ws ++ acc) /\ windows_up_to is_start buckets (win_end w) ws.
Proof.
  intros Hall Hf Hlow. pose proof hop_pos as (HU & HS & HG & HSW & _).
  revert w acc. induction fuel as [|fuel IH]; [lia|]. intros w acc Hw Hst Hend _ Hfu. cbn [Hop.collect].
  assert (Hr : in_range w) by (split; [lia|done]). rewrite hop_max_bucket by done.
  destruct (front <=? _) eqn:Hle.
  - apply Z.leb_le in Hle. pose proof Hw as [Hw0 Hwe].
    rewrite hop_buckets_of by (done || (eapply Forall_impl; [done|by intros ? []])).
    rewrite !hop_add by (destruct is_start; lia). unfold isValid. cbn [win_start win_end].
    rewrite (proj2 (Z.ltb_lt _ _)) by lia.
    replace (mkWindow _ _) with (step_back w) by (unfold step_back; f_equal; lia).
    edestruct (IH (step_back w)) as (ws & -> & Hws);
      [by apply step_back_window|cbn; destruct is_start; lia|cbn; lia|destruct is_start; lia|cbn; lia|].
    eexists. split; [|by apply windows_up_to_step]. destruct (decide _); [by rewrite app_nil_r|by rewrite <- app_assoc].
  - apply Z.leb_gt in Hle. exists []. split; [done|]. split; [constructor|]. intros w' bs. split; [by intros ?%not_elem_of_nil|].
    intros (Hw' & Hwe & -> & Hne). destruct Hne. apply filter_none. eapply Forall_impl; [done|].
    intros b [Hb1 Hb2]. by apply (key_in_below is_start w w' front).
Qed.

(** ** The interface, for hop windows *)

Definition hop_ops (is_start : bool) : WindowOps :=
  mkWindowOps is_start true (hop_bucket is_start) (Hop.getWindowsWithBuckets p is_start)
    (fun watermark => Hop.getLastExpiredTimeBucket watermark p is_start).

Lemma hop_bucket_range is_start t :
  hop_usable t ->
  hop_bucket is_start t mod Gd = 0 /\ t - Gd < hop_bucket is_start t <= t + Gd /\
  (is_start = false -> t < hop_bucket is_start t).
Proof.
  intros Ht. pose proof hop_pos as (_ & _ & HG & _). rewrite hop_bucket_eq by done.
  destruct (floor_to_spec Gd t HG) as [Hf Hf0]. split; [|destruct is_start; lia].
  rewrite Z.add_mod, Hf0 by lia. destruct is_start; [by rewrite Zmod_0_l|by rewrite Z.mod_same by lia].
Qed.

Lemma hop_bucket_in is_start w t :
  hop_usable t -> hop_window w -> key_in is_start w (hop_bucket is_start t) <-> covers w t.
Proof.
  intros Ht Hw. pose proof hop_pos as (_ & _ & HG & _). destruct (hop_window_mod w Hw) as [Hm1 Hm2]. rewrite hop_bucket_eq by done.
  destruct (floor_to_spec Gd t HG) as [_ Hf0]. unfold key_in, covers.
  pose proof (floor_lt Gd t (win_end w) HG Hm2). pose proof (floor_le Gd t (win_start w) HG Hm1).
  pose proof (multiple_lt Gd (floor_to Gd t) (win_end w) HG Hf0 Hm2).
  pose proof (multiple_lt Gd (floor_to Gd t) (win_start w) HG Hf0 Hm1). destruct is_start; lia.
Qed.

Lemma hop_windows is_start buckets :
  StronglySorted Z.lt buckets -> Forall (fun b => exists t, hop_usable t /\ b = hop_bucket is_start t) buckets ->
  exists ws, Hop.getWindowsWithBuckets p is_start buckets = Some ws /\ StronglySorted ends_before ws /\
    forall w bs, mkWindowWithBuckets w bs ∈ ws <-> hop_window w /\ bs = filter (key_in is_start w) buckets /\ bs <> [].
Proof.
  intros Hs Hall. destruct buckets as [|front rest].
  { exists []. split; [done|]. split; [constructor|]. intros w bs. split; [by intros ?%not_elem_of_nil|]. by intros (_ & -> & ?). }
  pose proof hop_pos as (HU & HS & HG & HSW & _). pose proof hop_gcd_le.
  destruct (sorted_ends front rest Hs) as (back & Hback & Hbounds). unfold Hop.getWindowsWithBuckets. rewrite Hback. cbn [head].
  assert (Hr : forall b, b ∈ front :: rest -> b mod Gd = 0 /\ 2 * Wd + Sl <= b - (if is_start then 0 else 1) /\ b + 2 * Wd < time_top scale).
  { intros b Hb. rewrite Forall_forall in Hall. destruct (Hall b Hb) as (t & Ht & ->). destruct (hop_bucket_range is_start t Ht) as (Hm & Hb1 & Hb2).
    unfold hop_usable in Ht. destruct is_start; lia. }
  destruct (Hr front) as (Hf & Hf1 & _); [by left|]. destruct (Hr back) as (_ & Hb1 & Hb2); [by apply last_Some_elem_of|].
  set (x := if is_start then back else back - 1). assert (Hx : 0 <= x < time_top scale /\ Sl < 2 ^ 63).
  { assert (time_top scale <= 2 ^ 63) by (unfold time_top; case_decide; lia). subst x. destruct is_start; lia. }
  rewrite hop_start by apply Hx. destruct (floor_to_spec Sl x HS) as [Hfl Hfl0].
  assert (Hxb : x <= back) by (subst x; destruct is_start; lia). destruct (Hbounds front) as [_ Hfb]; [by left|].
  assert (Hxf : front - 1 <= x) by (subst x; destruct is_start; lia).
  assert (Hx0 : 2 * Wd + Sl <= x) by (subst x; destruct is_start; lia).
  rewrite hop_add by lia. unfold isValid. cbn [win_start win_end]. rewrite (proj2 (Z.ltb_lt _ _)) by lia.
  edestruct (hop_collect is_start (front :: rest) front) as (ws & -> & Hws).
  - apply Forall_forall. intros b Hb. split; [by apply Hr|by apply Hbounds].
  - done.
  - destruct is_start; lia.
  - split; [|done]. done.
  - cbn. lia.
  - cbn. lia.
  - unfold Hop.collect_turns. cbn. lia.
  - unfold Hop.collect_turns. cbn. lia.
  - exists ws. rewrite app_nil_r. destruct Hws as [Hws1 Hws2]. split; [done|]. split; [done|]. intros w bs. rewrite Hws2. cbn [win_end].
    split; [by intros (? & _ & ?)|]. intros (Hw & -> & Hne). split; [done|]. split; [|done].
    apply filter_nonempty in Hne as (b & Hb & Hin). apply Hbounds in Hb. destruct Hw as [Hw0 Hwe].
    pose proof (floor_le Sl x (win_start w) HS Hw0). subst x. unfold key_in in Hin. destruct is_start; lia.
Qed.

Lemma hop_window_exists t : hop_usable t -> exists w, hop_window w /\ covers w t.
Proof.
  intros _. pose proof hop_pos as (_ & HS & _ & HSW & _). destruct (floor_to_spec Sl t HS) as [Hf Hf0].
  exists (mkWindow (floor_to Sl t) (floor_to Sl t + Wd)). split; [done|]. split; cbn; lia.
Qed.

Lemma hop_bucket_nonzero is_start t : hop_usable t -> hop_bucket is_start t <> 0.
Proof.
  intros Ht. destruct (hop_bucket_range is_start t Ht) as (_ & Hr & _). pose proof hop_pos as (_ & HS & _ & HSW & _).
  pose proof hop_gcd_le. unfold hop_usable in Ht. lia.
Qed.

Lemma hop_usable_valid t : hop_usable t -> MIN_WATERMARK < t < TIMEOUT_WATERMARK.
Proof.
  intros Ht. pose proof hop_pos as (_ & HS & _ & HSW & _). unfold hop_usable in Ht.
  assert (time_top scale <= 2 ^ 63) by (unfold time_top; case_decide; lia). unfold MIN_WATERMARK, TIMEOUT_WATERMARK. lia.
Qed.

#[export] Instance hop_function is_start : WindowFunction (hop_ops is_start) hop_usable hop_window.
Proof.
  unshelve refine {| bucket_in := key_in is_start |}; cbn [wf_bucket wf_windows wf_expired hop_ops].
  - apply hop_bucket_in.
  - apply hop_windows.
  - intros x Hx. eexists. split; [by apply hop_expired|]. intros t Ht. by apply hop_expired_spec.
  - apply hop_window_exists.
  - intros [a b] [a' b'] [_ Hw] [_ Hw']. cbn in *. intros ->. f_equal. lia.
  - intros [a b] [a' b'] [_ Hw] [_ Hw']. cbn in *. destruct is_start; cbn; intros ->; f_equal; lia.
  - done.
  - apply hop_bucket_nonzero.
  - apply hop_usable_valid.
Defined.
End Hop.

(** ** Tumble windows

    Tumble windows are hop windows that slide by their whole length. *)

Definition as_hop (p : Tumble.Params) : Hop.Params :=
  Hop.mkParams (Tumble.base p) (Tumble.window_interval p) (Tumble.window_interval p) (Tumble.window_interval p)
    (Tumble.interval_kind p).

Lemma filter_one {A} (P : A -> Prop) `{!forall x, Decision (P x)} b l :
  NoDup l -> b ∈ l -> (forall x, x ∈ l -> P x <-> x = b) -> filter P l = [b].
Proof.
  intros Hnd Hb HP. induction l as [|a l IH]; [by apply not_elem_of_nil in Hb|]. apply NoDup_cons in Hnd as [Ha Hnd].
  destruct (decide (P a)) as [Hpa|Hpa].
  - rewrite filter_cons_True by done. apply HP in Hpa as ->; [|by left]. f_equal. apply filter_none, Forall_forall.
    intros x Hx Hp. apply HP in Hp as ->; [done|by right].
  - rewrite filter_cons_False by done. apply elem_of_cons in Hb as [->|Hb]; [by destruct Hpa; apply HP; [left|]|].
    apply IH; [done|done|]. intros x Hx. apply HP. by right.
Qed.

Section Tumble.
Context (p : Tumble.Params) (Hok : hop_ok (as_hop p)).
Local Abbreviation U := (unit_ticks (Tumble.interval_kind p) (time_scale (Tumble.base p))).
Local Abbreviation Wd := (Tumble.window_interval p * U).

Lemma tumble_last_finalized t :
  hop_usable (as_hop p) t -> Hop.getLastFinalizedWindow t (as_hop p) = Some (Tumble.getLastFinalizedWindow t p).
Proof.
  intros Ht. destruct (hop_usable_range _ Hok t Ht) as [Hr H63]. pose proof (hop_pos _ Hok) as (HU & HS & _).
  pose proof (hop_start _ Hok t Hr H63) as Hst. pose proof (floor_to_spec Wd t HS) as [Hf Hf0].
  rewrite hop_last_finalized by done. pose proof (last_start_spec _ Hok t) as [Hl0 Hl].
  assert (Heq : last_start (as_hop p) t = floor_to Wd t - Wd).
  { apply (multiples_apart Wd); [done|done|rewrite Zminus_mod, Hf0, Z.mod_same by lia; done|cbn in *; lia|cbn in *; lia]. }
  unfold Tumble.getLastFinalizedWindow. change (Tumble.start_time p t) with (Hop.start_time (as_hop p) t). rewrite Hst.
  rewrite (proj2 (Z.ltb_ge _ _)) by (cbn in *; lia). unfold hop_usable in Ht. cbn in Ht.
  change (Tumble.add_time p) with (Hop.add_time (as_hop p)). rewrite (hop_add _ Hok) by (cbn; lia). cbn. do 2 f_equal; cbn in *; lia.
Qed.

Lemma tumble_expired is_start t :
  hop_usable (as_hop p) t ->
  Hop.getLastExpiredTimeBucket t (as_hop p) is_start = Some (Tumble.getLastExpiredTimeBucket t p is_start).
Proof.
  intros Ht. pose proof (tumble_last_finalized t Ht) as Hlast. rewrite hop_expired by done.
  unfold Tumble.getLastExpiredTimeBucket. rewrite (hop_last_finalized _ Hok) in Hlast by done. injection Hlast as <-.
  pose proof (hop_pos _ Hok) as (HU & HS & _). unfold isValid. cbn [win_start win_end].
  rewrite (proj2 (Z.ltb_lt _ _)) by (cbn in *; lia). cbn. f_equal. destruct is_start; lia.
Qed.

(** The window of a bucket. *)
Definition tumble_window (is_start : bool) (b : Z) : Window :=
  if is_start then mkWindow b (b + Wd) else mkWindow (b - Wd) b.

Lemma tumble_window_spec is_start b w :
  b mod Wd = 0 -> hop_window (as_hop p) w -> key_in is_start w b <-> w = tumble_window is_start b.
Proof.
  intros Hb [Hw0 Hw]. pose proof (hop_pos _ Hok) as (HU & HS & _). destruct w as [a e]. cbn in *. subst e.
  unfold key_in, tumble_window. cbn.
  pose proof (multiple_lt Wd a b HS Hw0 Hb). pose proof (multiple_lt Wd b (a + Wd) HS Hb ltac:(rewrite Z.add_mod, Hw0, Z.mod_same by lia; done)).
  destruct is_start; split; [intros Hk; f_equal; lia|intros [= -> _]; lia|intros Hk; f_equal; lia|intros [= -> _]; lia].
Qed.

Lemma tumble_window_aligned is_start b : b mod Wd = 0 -> hop_window (as_hop p) (tumble_window is_start b).
Proof.
  intros Hb. pose proof (hop_pos _ Hok) as (_ & HS & _). destruct is_start; split; cbn; try done; [|lia].
  cbn in HS. rewrite Zminus_mod, Hb, Z.mod_same by lia. done.
Qed.

Lemma tumble_windows_eq is_start buckets :
  Forall (fun b => exists t, hop_usable (as_hop p) t /\ b = hop_bucket (as_hop p) is_start t) buckets ->
  Tumble.getWindowsWithBuckets p is_start buckets = map (fun b => mkWindowWithBuckets (tumble_window is_start b) [b]) buckets /\
  Forall (fun b => b mod Wd = 0) buckets.
Proof.
  intros Hall. pose proof (hop_pos _ Hok) as (HU & HS & _). assert (Forall (fun b => 0 <= b - Wd /\ b + Wd < time_top (time_scale (Tumble.base p)) /\ b mod Wd = 0) buckets) as Hb.
  { eapply Forall_impl; [done|]. intros b (t & Ht & ->). destruct (hop_bucket_range _ Hok is_start t Ht) as (Hm & Hr & _).
    unfold hop_usable in Ht. cbn in *. lia. }
  split; [|eapply Forall_impl; [done|]; naive_solver]. unfold Tumble.getWindowsWithBuckets. apply map_ext_Forall.
  eapply Forall_impl; [done|]. intros b (Hb1 & Hb2 & _). f_equal. cbn in HS. change (Tumble.add_time p) with (Hop.add_time (as_hop p)).
  unfold tumble_window. destruct is_start; rewrite (hop_add _ Hok) by (cbn; lia); f_equal; cbn; lia.
Qed.

Lemma tumble_windows is_start buckets :
  StronglySorted Z.lt buckets ->
  Forall (fun b => exists t, hop_usable (as_hop p) t /\ b = hop_bucket (as_hop p) is_start t) buckets ->
  let ws := Tumble.getWindowsWithBuckets p is_start buckets in
  StronglySorted ends_before ws /\
  forall w bs, mkWindowWithBuckets w bs ∈ ws <->
    hop_window (as_hop p) w /\ bs = filter (key_in is_start w) buckets /\ bs <> [].
Proof.
  intros Hs Hall. destruct (tumble_windows_eq is_start buckets Hall) as [-> Hm]. cbn zeta.
  assert (Hone : forall b, b ∈ buckets -> filter (key_in is_start (tumble_window is_start b)) buckets = [b]).
  { intros b Hb. rewrite Forall_forall in Hm. apply filter_one; [by apply sorted_NoDup|done|]. intros x Hx.
    rewrite tumble_window_spec by (try apply tumble_window_aligned; by apply Hm).
    unfold tumble_window. split; [destruct is_start; congruence|by intros ->]. }
  split.
  - clear Hone Hall Hm. induction Hs as [|b l Hs IH Hb]; [constructor|]. cbn. constructor; [done|]. apply Forall_map.
    eapply Forall_impl; [done|]. intros x Hx. unfold ends_before. cbn. destruct is_start; cbn; lia.
  - intros w bs. rewrite list_elem_of_fmap. rewrite Forall_forall in Hm. split.
    + intros (b & [= -> ->] & Hb). rewrite Hone by done. split; [by apply tumble_window_aligned, Hm|done].
    + intros (Hw & -> & Hne). apply filter_nonempty in Hne as (b & Hb & Hin). apply tumble_window_spec in Hin as ->; [|by apply Hm|done].
      exists b. by rewrite Hone.
Qed.

Definition tumble_ops (is_start : bool) : WindowOps :=
  mkWindowOps is_start false
    (fun t => group_key is_start
       (getWindowStartAndEndFor (Tumble.base p) (Tumble.interval_kind p) (Tumble.window_interval p) t))
    (fun buckets => Some (Tumble.getWindowsWithBuckets p is_start buckets))
    (fun watermark => Some (Tumble.getLastExpiredTimeBucket watermark p is_start)).

#[export] Instance tumble_function is_start :
  WindowFunction (tumble_ops is_start) (hop_usable (as_hop p)) (hop_window (as_hop p)).
Proof.
  unshelve refine {| bucket_in := key_in is_start |}; cbn [wf_bucket wf_windows wf_expired tumble_ops].
  - intros w t. apply (hop_bucket_in _ Hok).
  - intros buckets Hs Hall. eexists. split; [done|]. by apply tumble_windows.
  - intros x Hx. eexists. split; [done|]. intros t Ht. pose proof (tumble_expired is_start x Hx) as Hx'.
    rewrite hop_expired in Hx' by done. injection Hx' as <-. by apply (hop_expired_spec _ Hok).
  - apply (hop_function _ Hok is_start).
  - apply (hop_function _ Hok is_start).
  - apply (hop_function _ Hok is_start).
  - intros w t _ Ht Hw Hc. apply (hop_bucket_in _ Hok is_start) in Hc; [|done|done].
    destruct (hop_bucket_range _ Hok is_start t Ht) as (Hm & _). apply tumble_window_spec in Hc as ->; [|done|done].
    unfold tumble_window, group_key. by destruct is_start.
  - apply (hop_bucket_nonzero _ Hok is_start).
  - apply (hop_usable_valid _ Hok).
Defined.
End Tumble.
