(* ===== verification/Watermark.v ===== *)
(** * Watermarks (src/Processors/Transforms/Streaming/WatermarkStamper.cpp, WatermarkTransform.cpp,
      src/Interpreters/Streaming/WindowCommon)

    The stamper drops late rows, keeps the greatest event time and stamps chunks with
    watermarks: when the watermark of the events grows, periodically, on updates, and after
    a time without rows.  Readings of the monotonic clock are arguments. *)

From S2P Require Import Prelude Codec DateLut StreamTime WindowHelpers.

Local Open Scope Z_scope.
Local Open Scope prog_scope.

Definition NOT_IMPLEMENTED : Z := 48.
Definition CANNOT_CONVERT_TYPE : Z := 70.

Record WindowInterval : Type := mkInterval { wi_interval : Z; wi_unit : IntervalKind }.
Definition given (i : WindowInterval) : bool := negb (wi_interval i =? 0).

(** ** Intervals in a common scale *)

Module BaseScaleInterval.

Record t : Type := mk { num_units : Z; scale : IntervalKind; src_kind : IntervalKind }.

Definition ns_per (kind : IntervalKind) : option Z :=
  match kind with
  | Nanosecond => Some 1
  | Microsecond => Some 1000
  | Millisecond => Some 1000000
  | Second => Some 1000000000
  | Minute => Some 60000000000
  | Hour => Some 3600000000000
  | Day => Some 86400000000000
  | Week => Some 604800000000000
  | _ => None
  end.
Definition months_per (kind : IntervalKind) : Z :=
  match kind with Quarter => 3 | Year => 12 | _ => 1 end.

Definition toBaseScale (num_units : Z) (kind : IntervalKind) : t :=
  match ns_per kind with
  | Some n => mk (to_i64 (num_units * n)) Nanosecond kind
  | None => mk (to_i64 (num_units * months_per kind)) Month kind
  end.

Definition toIntervalKind (b : t) (to_kind : IntervalKind) : res Z :=
  if decide (scale b = to_kind) then Ok (num_units b)
  else
    let bs := toBaseScale 1 to_kind in
    if negb (bool_decide (scale b = scale bs)) then Exn CANNOT_CONVERT_TYPE
    else if num_units b <? num_units bs then Ok 1
    else Ok (Z.quot (num_units b) (num_units bs)).

End BaseScaleInterval.

(** [kind > IntervalKind::Kind::Day] *)
Definition above_day (kind : IntervalKind) : bool :=
  match kind with Week | Month | Quarter | Year => true | _ => false end.

(** The window function of a query. *)
Inductive WindowFn : Type :=
  | FnTumble (p : Tumble.Params)
  | FnHop (p : Hop.Params)
  | FnSession (base : WindowParams).
Definition fn_base (f : WindowFn) : WindowParams :=
  match f with FnTumble p => Tumble.base p | FnHop p => Hop.base p | FnSession base => base end.

Record EmitParams : Type := mkEmitParams {
  window_params : option WindowFn;
  emit_mode : EmitMode;
  periodic_emit : WindowInterval;
  timeout_emit : WindowInterval;
  delay_interval : WindowInterval;
}.

Module Stamper.

Record t : Type := mk {
  use_event_time : bool;        (** [time_col_pos >= 0] *)
  next_periodic_emit_ts : Z;
  periodic_interval : Z;
  next_timeout_emit_ts : Z;
  timeout_interval : Z;
  version : option Z;
  max_event_ts : Z;
  watermark_ts : Z;
  late_events : Z;
  last_logged_late_events : Z;
  last_logged_late_events_ts : Z;
}.

Definition create : t := mk false 0 0 0 0 None INVALID_WATERMARK (INVALID_WATERMARK + 1) 0 0 0.

(** The clock, where [process] reads it: in nanoseconds, and in seconds for the log. *)
Record Clock : Type := mkClock { now_update : Z; now_periodic : Z; now_timeout : Z; now_seconds : Z }.

(** ** Construction *)

(** [initPeriodicTimer] and [initTimeoutTimer] *)
Definition timer_interval (i : WindowInterval) : res Z :=
  if above_day (wi_unit i) then Exn NOT_IMPLEMENTED
  else BaseScaleInterval.toIntervalKind (BaseScaleInterval.toBaseScale (wi_interval i) (wi_unit i)) Nanosecond.

Definition initPeriodicTimer (now : Z) (i : WindowInterval) (s : t) : res t :=
  match timer_interval i with
  | Ok n => Ok (mk (use_event_time s) (now + n) n (next_timeout_emit_ts s) (timeout_interval s) (version s) (max_event_ts s)
                  (watermark_ts s) (late_events s) (last_logged_late_events s) (last_logged_late_events_ts s))
  | Err e => Err e | Exn e => Exn e | Undef => Undef
  end.
Definition initTimeoutTimer (now : Z) (i : WindowInterval) (s : t) : res t :=
  match timer_interval i with
  | Ok n => Ok (mk (use_event_time s) (next_periodic_emit_ts s) (periodic_interval s) (now + n) n (version s) (max_event_ts s)
                  (watermark_ts s) (late_events s) (last_logged_late_events s) (last_logged_late_events_ts s))
  | Err e => Err e | Exn e => Exn e | Undef => Undef
  end.
Definition with_event_time (s : t) : t :=
  mk true (next_periodic_emit_ts s) (periodic_interval s) (next_timeout_emit_ts s) (timeout_interval s) (version s) (max_event_ts s)
    (watermark_ts s) (late_events s) (last_logged_late_events s) (last_logged_late_events_ts s).

(** [preProcess], for a header that has the time column. *)
Definition preProcess (now : Z) (params : EmitParams) (s : t) : res t :=
  let timers : res t :=
    match emit_mode params with
    | EmitNone | Tail | AfterSessionClose => Ok s
    | _ =>
        match (if given (periodic_emit params) then initPeriodicTimer now (periodic_emit params) s else Ok s) with
        | Ok s => Ok (match window_params params with Some _ => with_event_time s | None => s end)
        | e => e
        end
    end in
  match timers with
  | Ok s =>
      if negb (bool_decide (emit_mode params = AfterSessionClose)) && given (timeout_emit params)
      then initTimeoutTimer now (timeout_emit params) s
      else Ok s
  | e => e
  end.

(** ** The watermark of an event time *)

Definition delayed (params : EmitParams) (base : WindowParams) (event_ts : Z) : Z :=
  if given (delay_interval params)
  then StreamTime.addTime event_ts (wi_unit (delay_interval params)) (- 1 * wi_interval (delay_interval params)) (time_zone base) (time_scale base)
  else event_ts.

Definition calculateWatermark (params : EmitParams) (f : WindowFn) (event_ts : Z) : option Z :=
  let event_ts := delayed params (fn_base f) event_ts in
  match f with
  | FnTumble p => Some (Tumble.start_time p event_ts)
  | FnHop p =>
      w ← Hop.getLastFinalizedWindow event_ts p;
      Some (if isValid w then win_end w else MIN_WATERMARK)
  | FnSession _ => Some event_ts
  end.

Definition calculateWatermarkPerRow (params : EmitParams) (f : WindowFn) (event_ts : Z) : Z :=
  delayed params (fn_base f) event_ts.

(** ** Chunks *)

Section Rows.
Context {Row : Type} (row_time : Row -> Z).

Record Chunk : Type := mkChunk {
  rows : list Row;
  chunk_watermark : option Z;
  is_historical_start : bool;
  is_historical_end : bool;
  avoid_watermark : bool;
  is_consecutive : bool;
}.

Definition set_rows (rs : list Row) (c : Chunk) : Chunk :=
  mkChunk rs (chunk_watermark c) (is_historical_start c) (is_historical_end c) (avoid_watermark c) (is_consecutive c).
Definition set_watermark (w : option Z) (c : Chunk) : Chunk :=
  mkChunk (rows c) w (is_historical_start c) (is_historical_end c) (avoid_watermark c) (is_consecutive c).
Definition hasRows (c : Chunk) : bool := match rows c with [] => false | _ => true end.
Definition hasWatermark (c : Chunk) : bool := match chunk_watermark c with None => false | _ => true end.

(** ** Late rows *)

(** The loop of [processWatermarkImpl]: the rows kept, the late ones counted, the greatest
    event time and the watermark that the rows are compared with. *)
Fixpoint filter_rows (per_row : option (Z -> Z)) (rs : list Row) (max_ts wm : Z) : list Row * Z * Z * Z :=
  match rs with
  | [] => ([], 0, max_ts, wm)
  | r :: rs =>
      let ts := row_time r in
      let '(max_ts, wm) :=
        if max_ts <? ts then (ts, match per_row with Some f => f ts | None => wm end) else (max_ts, wm) in
      let '(kept, late, max_ts, wm') := filter_rows per_row rs max_ts wm in
      if ts <? wm then (kept, late + 1, max_ts, wm') else (r :: kept, late, max_ts, wm')
  end.

Definition with_times (m w : Z) (s : t) : t :=
  mk (use_event_time s) (next_periodic_emit_ts s) (periodic_interval s) (next_timeout_emit_ts s) (timeout_interval s) (version s) m w
    (late_events s) (last_logged_late_events s) (last_logged_late_events_ts s).
Definition with_late (n : Z) (s : t) : t :=
  mk (use_event_time s) (next_periodic_emit_ts s) (periodic_interval s) (next_timeout_emit_ts s) (timeout_interval s) (version s)
    (max_event_ts s) (watermark_ts s) n (last_logged_late_events s) (last_logged_late_events_ts s).

(** [processWatermarkImpl] *)
Definition processWatermarkImpl (params : EmitParams) (f : WindowFn) (s : t) (c : Chunk) : option (t * Chunk) :=
  let per_row := match f with FnSession _ => Some (calculateWatermarkPerRow params f) | _ => None end in
  let '(kept, late, max_ts, wm) := filter_rows per_row (rows c) (max_event_ts s) (watermark_ts s) in
  wm ← (match per_row with Some _ => Some wm | None => calculateWatermark params f max_ts end);
  let s := with_late (to_u64 (late_events s + late)) s in
  let c := set_rows kept c in
  Some
    (if watermark_ts s <? wm then (with_times max_ts wm s, set_watermark (Some wm) c)
     else (with_times max_ts (watermark_ts s) s, c)).

(** ** Processing *)

Definition stampIfOnUpdate (params : EmitParams) (now : Z) (s : t) (c : Chunk) : Chunk :=
  if bool_decide (emit_mode params = OnUpdate) && negb (hasWatermark c)
  then set_watermark (Some (if use_event_time s then watermark_ts s else now)) c else c.

Definition processWatermark (params : EmitParams) (now : Z) (s : t) (c : Chunk) : option (t * Chunk) :=
  if negb (hasRows c) then Some (s, c)
  else
    x ← (match window_params params with
         | Some f => if use_event_time s then processWatermarkImpl params f s c else Some (s, c)
         | None => Some (s, c)
         end);
    Some (x.1, stampIfOnUpdate params now x.1 x.2).

Definition processPeriodic (now : Z) (s : t) (c : Chunk) : t * Chunk :=
  if next_periodic_emit_ts s =? 0 then (s, c)
  else if now <? next_periodic_emit_ts s then (s, set_watermark None c)
  else
    (mk (use_event_time s) (now + periodic_interval s) (periodic_interval s) (next_timeout_emit_ts s) (timeout_interval s) (version s)
        (max_event_ts s) (watermark_ts s) (late_events s) (last_logged_late_events s) (last_logged_late_events_ts s),
     set_watermark (Some (if use_event_time s then watermark_ts s else now)) c).

Definition processTimeout (now : Z) (s : t) (c : Chunk) : t * Chunk :=
  let rearm w :=
    mk (use_event_time s) (next_periodic_emit_ts s) (periodic_interval s) (now + timeout_interval s) (timeout_interval s) (version s)
       (max_event_ts s) w (late_events s) (last_logged_late_events s) (last_logged_late_events_ts s) in
  if next_timeout_emit_ts s =? 0 then (s, c)
  else if hasRows c then (rearm (watermark_ts s), c)
  else if now <? next_timeout_emit_ts s then (s, c)
  else (rearm (to_i64 (max_event_ts s + 1)), set_watermark (Some TIMEOUT_WATERMARK) c).

Definition LOG_LATE_EVENTS_INTERVAL_SECONDS : Z := 5.
Definition logLateEvents (now_seconds : Z) (s : t) : t :=
  if (last_logged_late_events s <? late_events s) &&
     (LOG_LATE_EVENTS_INTERVAL_SECONDS <=? now_seconds - last_logged_late_events_ts s)
  then mk (use_event_time s) (next_periodic_emit_ts s) (periodic_interval s) (next_timeout_emit_ts s) (timeout_interval s) (version s)
         (max_event_ts s) (watermark_ts s) (late_events s) (late_events s) now_seconds
  else s.

Definition process (params : EmitParams) (k : Clock) (s : t) (c : Chunk) : option (t * Chunk) :=
  x ← processWatermark params (now_update k) s c;
  let x := processPeriodic (now_periodic k) x.1 x.2 in
  let x := processTimeout (now_timeout k) x.1 x.2 in
  Some (logLateEvents (now_seconds k) x.1, x.2).

Definition processWithConsecutiveData (params : EmitParams) (k : Clock) (s : t) (c : Chunk) : option (t * Chunk) :=
  if bool_decide (emit_mode params = OnUpdate) && negb (hasRows c)
  then Some (s, stampIfOnUpdate params (now_update k) s c)
  else process params k s c.

(** The greatest time of rows, at least [m]. *)
Definition max_time (m : Z) (rs : list Row) : Z := foldl (fun m r => Z.max m (row_time r)) m rs.

Definition processWithMutedWatermark (k : Clock) (s : t) (c : Chunk) : t * Chunk :=
  let s := if use_event_time s then with_times (max_time (max_event_ts s) (rows c)) (watermark_ts s) s else s in
  let x := processTimeout (now_timeout k) s c in
  (logLateEvents (now_seconds k) x.1, x.2).

Definition processAfterUnmuted (params : EmitParams) (k : Clock) (s : t) (c : Chunk) : option (t * Chunk) :=
  x ← (match window_params params with
       | Some f =>
           if use_event_time s && negb (max_event_ts s =? INVALID_WATERMARK) then
             wm ← (match f with
                   | FnSession _ => Some (calculateWatermarkPerRow params f (max_event_ts s))
                   | _ => calculateWatermark params f (max_event_ts s)
                   end);
             Some (if wm =? INVALID_WATERMARK then (s, c) else (with_times (max_event_ts s) wm s, set_watermark (Some wm) c))
           else Some (s, c)
       | None => Some (s, c)
       end);
  let c := stampIfOnUpdate params (now_update k) x.1 x.2 in
  Some (processPeriodic (now_periodic k) x.1 c).
End Rows.

(** ** Checkpoints *)

Definition getVersion (revision : Z) (s : t) : Z := default (to_u32 revision) (version s).

Definition serialize (revision : Z) (s : t) : list Z :=
  writeUInt32 (getVersion revision s) ++ writeInt64 (max_event_ts s) ++ writeInt64 (watermark_ts s) ++
  writeUInt64 (late_events s) ++ writeUInt64 (last_logged_late_events s) ++ writeInt64 (last_logged_late_events_ts s).

Definition deserialize (s : t) : reader t :=
  v <- readUInt32;; m <- readInt64;; w <- readInt64;; l <- readUInt64;; ll <- readUInt64;; lt <- readInt64;;
  ret (mk (use_event_time s) (next_periodic_emit_ts s) (periodic_interval s) (next_timeout_emit_ts s) (timeout_interval s)
          (Some v) m w l ll lt).

End Stamper.

(** ** The transform *)

Module WatermarkTransform.
Section Transform.
Context {Row : Type} (row_time : Row -> Z).

Record t : Type := mk {
  stamper : Stamper.t;
  skip_stamping_for_backfill_data : bool;
  mute_watermark : bool;
  prev_consecutive : bool;
}.

Definition create (now : Z) (params : EmitParams) (skip : bool) : res t :=
  match Stamper.preProcess now params Stamper.create with
  | Ok s => Ok (mk s skip false false)
  | Err e => Err e | Exn e => Exn e | Undef => Undef
  end.

Definition transform (params : EmitParams) (k : Stamper.Clock) (w : t) (c : Stamper.Chunk (Row := Row))
  : option (t * Stamper.Chunk (Row := Row)) :=
  let c := Stamper.set_watermark None c in
  let was_consecutive := prev_consecutive w in
  let next mute s := mk s (skip_stamping_for_backfill_data w) mute (Stamper.is_consecutive c) in
  if Stamper.is_historical_start c && skip_stamping_for_backfill_data w then Some (next true (stamper w), c)
  else if Stamper.is_historical_end c && skip_stamping_for_backfill_data w then
    x ← Stamper.processAfterUnmuted params k (stamper w) c; Some (next false x.1, x.2)
  else if Stamper.avoid_watermark c then Some (next (mute_watermark w) (stamper w), c)
  else
    x ← (if mute_watermark w then Some (Stamper.processWithMutedWatermark row_time k (stamper w) c)
         else if was_consecutive then Stamper.processWithConsecutiveData row_time params k (stamper w) c
         else Stamper.process row_time params k (stamper w) c);
    Some (next (mute_watermark w) x.1, x.2).
End Transform.
End WatermarkTransform.
