(* ===== verification/WatermarkSpec.v ===== *)
(** * What watermark transforms promise

    [stamped] is the interface between a watermark transform and the aggregation that
    follows it: no row of a chunk is before the watermarks of the chunks before it, and
    watermarks grow.  The stamper implements it for tumble and hop windows that are emitted
    when they close; what it drops are the rows before its watermark. *)

From S2P Require Import Prelude Codec Rounding DateLut StreamTime WindowHelpers WindowSpec Watermark.

Local Open Scope Z_scope.

Section Stream.
Context {Row : Type} (row_time : Row -> Z) (usable : Z -> Prop).
Local Abbreviation Chunk := (Stamper.Chunk (Row := Row)).

(** A stream of chunks behind the watermark [lo]. *)
Fixpoint stamped (lo : Z) (cs : list Chunk) : Prop :=
  match cs with
  | [] => True
  | c :: cs =>
      Forall (fun r => usable (row_time r) /\ lo <= row_time r) (Stamper.rows c) /\
      match Stamper.chunk_watermark c with
      | Some w => usable w /\ lo < w /\ stamped w cs
      | None => stamped lo cs
      end
  end.

(** A transform on a stream. *)
Fixpoint transform_all (params : EmitParams) (w : WatermarkTransform.t) (cs : list (Stamper.Clock * Chunk)) : option (list Chunk) :=
  match cs with
  | [] => Some []
  | (k, c) :: cs =>
      match WatermarkTransform.transform row_time params k w c with
      | Some (w, c) => match transform_all params w cs with Some out => Some (c :: out) | None => None end
      | None => None
      end
  end.

(** ** Late rows *)

Lemma filter_rows_spec rs m w :
  let '(kept, late, m', w') := Stamper.filter_rows row_time None rs m w in
  kept = filter (fun r => w <= row_time r) rs /\ late = Z.of_nat (length rs - length kept) /\
  m' = Stamper.max_time row_time m rs /\ w' = w.
Proof.
  revert m. induction rs as [|r rs IH]; intros m; [done|]. cbn [Stamper.filter_rows].
  destruct (if m <? row_time r then _ else _) as [m1 w1] eqn:Hm1.
  assert (w1 = w /\ m1 = Z.max m (row_time r)) as [-> ->] by (destruct (Z.ltb_spec m (row_time r)); injection Hm1 as <- <-; lia).
  specialize (IH (Z.max m (row_time r))). destruct (Stamper.filter_rows _ _ _ _ _) as [[[kept late] m'] w'].
  destruct IH as (-> & -> & -> & ->). pose proof (length_filter (fun r => w <= row_time r) rs).
  destruct (Z.ltb_spec (row_time r) w).
  - rewrite filter_cons_False by lia. split; [done|]. split; [cbn [length]; lia|]. done.
  - rewrite filter_cons_True by lia. split; [done|]. split; [cbn [length]; lia|]. done.
Qed.

Lemma max_time_in rs m : Stamper.max_time row_time m rs = m \/ exists r, r ∈ rs /\ Stamper.max_time row_time m rs = row_time r.
Proof.
  revert m. induction rs as [|r rs IH]; intros m; [by left|].
  change (Stamper.max_time row_time m (r :: rs)) with (Stamper.max_time row_time (Z.max m (row_time r)) rs).
  destruct (IH (Z.max m (row_time r))) as [Hm|(r' & Hr & Hm)].
  - rewrite Hm. destruct (Z.max_spec m (row_time r)) as [[_ ->]|[_ ->]]; [right; exists r; split; [by left|done]|by left].
  - right. exists r'. split; [by right|done].
Qed.

Lemma max_time_ge rs m : m <= Stamper.max_time row_time m rs.
Proof.
  revert m. induction rs as [|r rs IH]; intros m; [done|].
  change (Stamper.max_time row_time m (r :: rs)) with (Stamper.max_time row_time (Z.max m (row_time r)) rs).
  specialize (IH (Z.max m (row_time r))). lia.
Qed.

(** ** Windows that are emitted when they close *)

(** Parameters of such a query. *)
Record closing (params : EmitParams) (f : WindowFn) : Prop := {
  cl_window : window_params params = Some f;
  cl_kind : match f with FnSession _ => False | _ => True end;
  cl_mode : emit_mode params = AfterWindowClose;
  cl_periodic : given (periodic_emit params) = false;
  cl_timeout : given (timeout_emit params) = false;
}.

(** A time of an event with its watermark. *)
Definition good_time (params : EmitParams) (f : WindowFn) (t : Z) : Prop :=
  usable t /\ INVALID_WATERMARK < t /\ exists w, Stamper.calculateWatermark params f t = Some w /\ usable w.

Definition ready (s : Stamper.t) : Prop :=
  Stamper.use_event_time s = true /\ Stamper.next_periodic_emit_ts s = 0 /\ Stamper.next_timeout_emit_ts s = 0.

Definition plain (c : Chunk) : Prop :=
  Stamper.is_historical_start c = false /\ Stamper.is_historical_end c = false /\ Stamper.avoid_watermark c = false /\ Stamper.is_consecutive c = false.

Context (params : EmitParams) (f : WindowFn) (Hcl : closing params f).

Lemma create_ready now skip :
  exists s, WatermarkTransform.create now params skip = Ok (WatermarkTransform.mk s skip false false) /\ ready s /\
    Stamper.max_event_ts s = INVALID_WATERMARK /\ Stamper.watermark_ts s = MIN_WATERMARK.
Proof.
  destruct Hcl as [H1 H2 H3 H4 H5]. unfold WatermarkTransform.create, Stamper.preProcess. rewrite H3, H4, H1, H5, andb_false_r. cbn. eexists. done.
Qed.

(** The greatest event time so far. *)
Definition max_ok (m : Z) : Prop := m = INVALID_WATERMARK \/ good_time params f m.

Lemma process_closing k s (c : Chunk) :
  ready s -> max_ok (Stamper.max_event_ts s) -> Stamper.chunk_watermark c = None ->
  Forall (fun r => good_time params f (row_time r)) (Stamper.rows c) ->
  exists s' wm, Stamper.process row_time params k s c =
      Some (s', Stamper.set_watermark wm (Stamper.set_rows (filter (fun r => Stamper.watermark_ts s <= row_time r) (Stamper.rows c)) c)) /\
    ready s' /\ max_ok (Stamper.max_event_ts s') /\
    match wm with
    | Some w => usable w /\ Stamper.watermark_ts s < w /\ Stamper.watermark_ts s' = w
    | None => Stamper.watermark_ts s' = Stamper.watermark_ts s
    end.
Proof.
  intros (R1 & R2 & R3) Hmax Hnone Hgood. destruct Hcl as [H1 H2 H3 H4 H5]. destruct c as [rs wm0 b1 b2 b3 b4]. cbn in *. subst wm0.
  assert (Hlog : forall s now, ready s -> ready (Stamper.logLateEvents now s) /\ Stamper.max_event_ts (Stamper.logLateEvents now s) = Stamper.max_event_ts s /\
    Stamper.watermark_ts (Stamper.logLateEvents now s) = Stamper.watermark_ts s) by (intros ? ? ?; unfold Stamper.logLateEvents; by destruct (_ && _)).
  assert (Hperiodic : forall s c now, ready s -> Stamper.processPeriodic (Row := Row) now s c = (s, c))
    by (intros ? ? ? (_ & HP & _); unfold Stamper.processPeriodic; by rewrite HP).
  assert (Htimeout : forall s c now, ready s -> Stamper.processTimeout (Row := Row) now s c = (s, c))
    by (intros ? ? ? (_ & _ & HT); unfold Stamper.processTimeout; by rewrite HT).
  unfold Stamper.process, Stamper.processWatermark. destruct rs as [|r rs].
  { cbn. rewrite Hperiodic, Htimeout by done. cbn. destruct (Hlog s (Stamper.now_seconds k)) as (L1 & L2 & L3); [done|].
    eexists _, None. split; [done|]. split; [done|]. by rewrite L2, L3. }
  cbn [Stamper.hasRows Stamper.rows negb]. rewrite H1, R1. unfold Stamper.processWatermarkImpl.
  assert (Hpr : match f with FnSession _ => Some (Stamper.calculateWatermarkPerRow params f) | _ => None end = None) by by destruct f.
  rewrite Hpr. cbn [Stamper.rows]. pose proof (filter_rows_spec (r :: rs) (Stamper.max_event_ts s) (Stamper.watermark_ts s)) as Hf.
  destruct (Stamper.filter_rows _ _ _ _ _) as [[[kept late] m'] w']. destruct Hf as (-> & -> & Hm' & ->).
  assert (Hm : good_time params f m').
  { destruct (max_time_in (r :: rs) (Stamper.max_event_ts s)) as [Heq|(r' & Hr' & Heq)].
    - rewrite Hm', Heq. destruct Hmax as [Hinv|Hg]; [|done]. exfalso. apply Forall_cons in Hgood as [(_ & Hlt & _) _].
      pose proof (max_time_ge rs (Z.max (Stamper.max_event_ts s) (row_time r))) as Hge. change (Stamper.max_time row_time (Z.max (Stamper.max_event_ts s) (row_time r)) rs = Stamper.max_event_ts s) in Heq. lia.
    - rewrite Hm', Heq. rewrite Forall_forall in Hgood. by apply Hgood. }
  pose proof Hm as (_ & _ & wm & Hcalc & Huw). rewrite Hcalc. cbn [mbind option_bind].
  set (s1 := Stamper.with_late _ s). assert (Hr1 : forall m w, ready (Stamper.with_times m w s1)) by (intros; done).
  change (Stamper.watermark_ts s1) with (Stamper.watermark_ts s). destruct (Z.ltb_spec (Stamper.watermark_ts s) wm); cbn [fst snd];
    unfold Stamper.stampIfOnUpdate; rewrite H3; cbn [bool_decide andb decide_rel EmitMode_eq_dec];
    rewrite (bool_decide_false (AfterWindowClose = OnUpdate)) by done; cbn [andb]; rewrite Hperiodic, Htimeout by done.
  - destruct (Hlog (Stamper.with_times m' wm s1) (Stamper.now_seconds k)) as (L1 & L2 & L3); [done|].
    exists (Stamper.logLateEvents (Stamper.now_seconds k) (Stamper.with_times m' wm s1)), (Some wm). split; [done|]. split; [done|]. rewrite L2, L3. split; [by right|done].
  - destruct (Hlog (Stamper.with_times m' (Stamper.watermark_ts s) s1) (Stamper.now_seconds k)) as (L1 & L2 & L3); [done|].
    exists (Stamper.logLateEvents (Stamper.now_seconds k) (Stamper.with_times m' (Stamper.watermark_ts s) s1)), None. split; [done|]. split; [done|]. rewrite L2, L3. split; [by right|done].
Qed.

(** The chunks that come in. *)
Definition input_ok (kc : Stamper.Clock * Chunk) : Prop :=
  plain kc.2 /\ Forall (fun r => good_time params f (row_time r)) (Stamper.rows kc.2).

Lemma transform_closing k w (c : Chunk) :
  ready (WatermarkTransform.stamper w) -> max_ok (Stamper.max_event_ts (WatermarkTransform.stamper w)) ->
  WatermarkTransform.mute_watermark w = false -> WatermarkTransform.prev_consecutive w = false -> input_ok (k, c) ->
  exists s' wm, WatermarkTransform.transform row_time params k w c =
      Some (WatermarkTransform.mk s' (WatermarkTransform.skip_stamping_for_backfill_data w) false false,
            Stamper.set_watermark wm (Stamper.set_rows
              (filter (fun r => Stamper.watermark_ts (WatermarkTransform.stamper w) <= row_time r) (Stamper.rows c)) c)) /\
    ready s' /\ max_ok (Stamper.max_event_ts s') /\
    match wm with
    | Some x => usable x /\ Stamper.watermark_ts (WatermarkTransform.stamper w) < x /\ Stamper.watermark_ts s' = x
    | None => Stamper.watermark_ts s' = Stamper.watermark_ts (WatermarkTransform.stamper w)
    end.
Proof.
  destruct c as [rs wm0 b1 b2 b3 b4]. intros Hr Hm Hmute Hprev [(P1 & P2 & P3 & P4) Hgood]. cbn in P1, P2, P3, P4, Hgood. subst b1 b2 b3 b4.
  destruct (process_closing k _ (Stamper.set_watermark None (Stamper.mkChunk rs wm0 false false false false)) Hr Hm eq_refl Hgood) as (s' & wm & Hp & Hr' & Hm' & Hw).
  exists s', wm. split; [|done]. unfold WatermarkTransform.transform. rewrite Hmute, Hprev, Hp. done.
Qed.

(** The stream of a watermark transform is stamped, and it has all rows that are not late. *)
Lemma transform_all_stamped cs : forall w,
  ready (WatermarkTransform.stamper w) -> max_ok (Stamper.max_event_ts (WatermarkTransform.stamper w)) ->
  WatermarkTransform.mute_watermark w = false -> WatermarkTransform.prev_consecutive w = false -> Forall input_ok cs ->
  exists out, transform_all params w cs = Some out /\ stamped (Stamper.watermark_ts (WatermarkTransform.stamper w)) out /\
    Forall2 (fun kc c => exists lo, Stamper.rows c = filter (fun r => lo <= row_time r) (Stamper.rows kc.2)) cs out.
Proof.
  induction cs as [|[k c] cs IH]; intros w Hr Hm Hmute Hprev Hin; [by exists []|]. apply Forall_cons in Hin as [Hc Hin].
  destruct (transform_closing k w c Hr Hm Hmute Hprev Hc) as (s' & wm & Ht & Hr' & Hm' & Hw). cbn [transform_all]. rewrite Ht.
  destruct (IH (WatermarkTransform.mk s' (WatermarkTransform.skip_stamping_for_backfill_data w) false false)) as (out & -> & Hs & Hrows); try done.
  eexists. split; [done|]. split; [|constructor; [by eexists|done]]. cbn [stamped Stamper.rows Stamper.chunk_watermark Stamper.set_watermark Stamper.set_rows]. split.
  - apply Forall_forall. intros r [Hle Hr0]%list_elem_of_filter. split; [|done]. destruct Hc as [_ Hg]. rewrite Forall_forall in Hg. by apply Hg.
  - cbn in Hs. destruct wm as [x|]; [destruct Hw as (? & ? & <-); done|by rewrite <- Hw].
Qed.
End Stream.

(** ** Event times of hop and tumble windows *)

(** Event times a little farther from the ends of the range of times. *)
Definition hop_event (p : Hop.Params) (t : Z) : Prop :=
  hop_usable p t /\ hop_usable p (t - Hop.slide_interval p * unit_ticks (Hop.interval_kind p) (time_scale (Hop.base p))).

Lemma hop_good_time params p t :
  hop_ok p -> given (delay_interval params) = false -> hop_event p t -> good_time (hop_usable p) params (FnHop p) t.
Proof.
  intros Hok Hd [Ht Ht']. split; [done|]. pose proof (hop_usable_valid p Hok t Ht) as Hv. unfold MIN_WATERMARK, INVALID_WATERMARK in *. split; [lia|].
  destruct (last_start_spec p Hok t) as [_ Hl]. pose proof (hop_pos p Hok) as (_ & HS & _ & HSW & _).
  eexists. split.
  - unfold Stamper.calculateWatermark, Stamper.delayed. rewrite Hd. rewrite (hop_last_finalized p Hok t Ht). cbn [mbind option_bind].
    unfold isValid. cbn [win_start win_end]. rewrite (proj2 (Z.ltb_lt _ _)) by lia. done.
  - unfold hop_usable in *. lia.
Qed.

Lemma tumble_good_time params p t :
  hop_ok (as_hop p) -> given (delay_interval params) = false -> hop_event (as_hop p) t ->
  good_time (hop_usable (as_hop p)) params (FnTumble p) t.
Proof.
  intros Hok Hd [Ht Ht']. split; [done|]. pose proof (hop_usable_valid _ Hok t Ht) as Hv. unfold MIN_WATERMARK, INVALID_WATERMARK in *. split; [lia|].
  destruct (hop_usable_range _ Hok t Ht) as [Hr H63]. pose proof (hop_pos _ Hok) as (_ & HS & _).
  pose proof (hop_start _ Hok t Hr H63) as Hst. destruct (floor_to_spec _ t HS) as [Hf _].
  eexists. split.
  - unfold Stamper.calculateWatermark, Stamper.delayed. rewrite Hd. done.
  - change (Tumble.start_time p t) with (Hop.start_time (as_hop p) t). rewrite Hst. unfold hop_usable in *. lia.
Qed.

(** ** Checkpoints *)

(** A checkpoint of a stamper, read by the stamper of the restarted query, gives the same
    watermark state; the timers are those of the new query. *)
Lemma stamper_roundtrip (revision : Z) (s s0 : Stamper.t) :
  (forall v, Stamper.version s = Some v -> u32 v) -> i64 (Stamper.max_event_ts s) -> i64 (Stamper.watermark_ts s) ->
  u64 (Stamper.late_events s) -> u64 (Stamper.last_logged_late_events s) -> i64 (Stamper.last_logged_late_events_ts s) ->
  reads (Stamper.deserialize s0) (Stamper.serialize revision s)
    (Stamper.mk (Stamper.use_event_time s0) (Stamper.next_periodic_emit_ts s0) (Stamper.periodic_interval s0) (Stamper.next_timeout_emit_ts s0)
       (Stamper.timeout_interval s0) (Some (Stamper.getVersion revision s)) (Stamper.max_event_ts s) (Stamper.watermark_ts s)
       (Stamper.late_events s) (Stamper.last_logged_late_events s) (Stamper.last_logged_late_events_ts s)).
Proof.
  intros Hv Hm Hw Hl Hll Ht. unfold Stamper.deserialize, Stamper.serialize.
  assert (Hver : u32 (Stamper.getVersion revision s)).
  { unfold Stamper.getVersion. destruct (Stamper.version s) as [v|]; [by apply Hv|]. cbn. unfold to_u32, u32. pose proof (Z.mod_pos_bound revision (2 ^ 32)). lia. }
  eapply reads_bind; [by apply reads_UInt32|]. eapply reads_bind; [by apply reads_Int64|]. eapply reads_bind; [by apply reads_Int64|].
  eapply reads_bind; [by apply reads_UInt64|]. eapply reads_bind; [by apply reads_UInt64|].
  eapply reads_map; [by apply reads_Int64|]. done.
Qed.
