(* ===== verification/TimeBuckets.v ===== *)
(** * Tables of time buckets (src/Common/HashTable/TimeBucketHashTable.h)

    A two-level table: the first level is the [std::map] from the time bucket of a key,
    its window, to the table of the keys of that bucket.  A table of the second level is
    a value of the type [V], [dflt] the one without keys. *)

From stdpp Require Import gmap.
From S2P Require Import Prelude Ordered.

Local Open Scope Z_scope.

Module TimeBuckets.
Section TimeBuckets.
Context {V : Type} (dflt : V).

Record t : Type := mk { impls : list (Z * V); updated_buckets : gmap Z bool }.

Definition create : t := mk [] ∅.

(** [impls[bucket]], which makes a bucket that is not there. *)
Definition touch (bucket : Z) (h : t) : t := mk (om_emplace bucket dflt (impls h)) (updated_buckets h).
Definition impl (bucket : Z) (h : t) : V := default dflt (om_find bucket (impls h)).

(** A change of [impls[bucket]] in place. *)
Definition update (bucket : Z) (f : V -> V) (h : t) : t :=
  mk (om_insert bucket (f (impl bucket h)) (impls h)) (updated_buckets h).

(** [emplace], with the change [f] of the table of the bucket. *)
Definition emplace (bucket : Z) (f : V -> V) (h : t) : t :=
  mk (impls (update bucket f h)) (<[bucket := true]> (updated_buckets h)).

(** [removeBucketsBefore]: what is left, and the number of buckets removed with the last of them. *)
Fixpoint removeBucketsBefore_loop (max_bucket : Z) (ms : list (Z * V)) (updated : gmap Z bool) (removed last_removed : Z)
  : t * (Z * Z) :=
  match ms with
  | (b, v) :: ms' =>
      if b <=? max_bucket then removeBucketsBefore_loop max_bucket ms' (delete b updated) (removed + 1) b
      else (mk ms updated, (removed, last_removed))
  | [] => (mk [] updated, (removed, last_removed))
  end.
Definition removeBucketsBefore (max_bucket : Z) (h : t) : t * (Z * Z * Z) :=
  let '(h', (removed, last_removed)) := removeBucketsBefore_loop max_bucket (impls h) (updated_buckets h) 0 0 in
  (h', (removed, last_removed, Z.of_nat (length (impls h')))).

Fixpoint bucketsBefore_loop (max_bucket : Z) (ms : list (Z * V)) : list Z :=
  match ms with
  | (b, _) :: ms => if b <=? max_bucket then b :: bucketsBefore_loop max_bucket ms else []
  | [] => []
  end.
Definition bucketsBefore (max_bucket : Z) (h : t) : list Z := bucketsBefore_loop max_bucket (impls h).

Definition buckets (h : t) : list Z := (impls h).*1.

Definition isBucketUpdated (bucket : Z) (h : t) : bool := default false (updated_buckets h !! bucket).
Definition resetUpdatedBucket (bucket : Z) (h : t) : t :=
  mk (impls h)
     (match updated_buckets h !! bucket with Some _ => <[bucket := false]> (updated_buckets h) | None => updated_buckets h end).

(** ** Lemmas *)

Definition wf (h : t) : Prop := om_sorted (impls h).

Lemma wf_create : wf create.
Proof. constructor. Qed.

Lemma buckets_sorted h : wf h -> StronglySorted Z.lt (buckets h).
Proof. apply om_sorted_fst. Qed.

Lemma om_emplace_find k v (m : list (Z * V)) :
  om_sorted m -> om_emplace k v m = match om_find k m with Some _ => m | None => om_insert k v m end.
Proof.
  unfold om_find, om_sorted. induction 1 as [|[k' v'] m Hs IH Hall]; [done|]. cbn.
  destruct (Z.ltb_spec k k') as [Hlt|Hge].
  - rewrite decide_False by lia. replace (list_find (fun e : Z * V => e.1 = k) m) with (@None (nat * (Z * V))); [done|].
    symmetry. apply list_find_None. eapply Forall_impl; [done|]. cbn. intros; lia.
  - destruct (Z.eqb_spec k k') as [->|Hne]; [by rewrite decide_True|]. rewrite decide_False by lia.
    rewrite IH. by destruct (list_find _ m) as [[i e]|].
Qed.

Lemma om_find_elem k v (m : list (Z * V)) : om_sorted m -> om_find k m = Some v <-> (k, v) ∈ m.
Proof.
  intros Hs. split.
  - intros (pre & post & ->)%om_find_Some. set_solver.
  - intros (pre & post & ->)%list_elem_of_split. by apply om_find_middle.
Qed.

Lemma filter_fst (P : Z -> Prop) `{!forall x, Decision (P x)} (m : list (Z * V)) :
  (filter (fun e => P e.1) m).*1 = filter P m.*1.
Proof.
  induction m as [|[k v] m IH]; [done|]. rewrite fmap_cons, !filter_cons. cbn [fst]. case_decide; by rewrite ?fmap_cons, IH.
Qed.

Lemma length_filter_split (x : Z) (l : list Z) :
  (length (filter (fun b => b <= x)%Z l) + length (filter (fun b => x < b)%Z l) = length l)%nat.
Proof.
  induction l as [|b l IH]; [done|]. rewrite !filter_cons. repeat case_decide; cbn; lia.
Qed.

Lemma emplace_find_sorted b v (m : list (Z * V)) :
  om_sorted m -> om_sorted (om_emplace b v m) /\
  (forall k, om_find k (om_emplace b v m) = if decide (k = b) then Some (default v (om_find b m)) else om_find k m).
Proof.
  intros Hs. rewrite om_emplace_find by done. destruct (om_find b m) as [x|] eqn:Hf.
  - split; [done|]. intros k. case_decide; [by subst|done].
  - split; [by apply om_insert_sorted|]. intros k. rewrite om_find_insert by done. by repeat case_decide.
Qed.

Lemma wf_touch b h : wf h -> wf (touch b h).
Proof. intros Hs. apply emplace_find_sorted, Hs. Qed.

Lemma impl_touch b k h : wf h -> impl k (touch b h) = impl k h.
Proof.
  intros Hs. unfold impl, touch. cbn [impls]. destruct (emplace_find_sorted b dflt (impls h) Hs) as [_ ->].
  case_decide; [subst; by destruct (om_find b (impls h))|done].
Qed.

Lemma wf_update b f h : wf h -> wf (update b f h).
Proof. intros Hs. apply om_insert_sorted, Hs. Qed.

Lemma wf_emplace b f h : wf h -> wf (emplace b f h).
Proof. apply wf_update. Qed.

Lemma impl_update b f k h : wf h -> impl k (update b f h) = if decide (k = b) then f (impl b h) else impl k h.
Proof.
  intros Hs. unfold impl, update. cbn [impls]. rewrite om_find_insert by done. by repeat case_decide.
Qed.

Lemma impl_emplace b f k h : wf h -> impl k (emplace b f h) = if decide (k = b) then f (impl b h) else impl k h.
Proof. apply impl_update. Qed.

Lemma elem_of_buckets b h : wf h -> b ∈ buckets h <-> is_Some (om_find b (impls h)).
Proof.
  intros Hs. unfold buckets. rewrite list_elem_of_fmap. split.
  - intros ([k v] & -> & Hin). exists v. by apply om_find_elem.
  - intros [v Hv]. exists (b, v). split; [done|]. by apply om_find_elem.
Qed.

Lemma elem_of_buckets_emplace b f k h : wf h -> k ∈ buckets (emplace b f h) <-> k = b \/ k ∈ buckets h.
Proof.
  intros Hs. rewrite !elem_of_buckets by (try apply wf_emplace; done). unfold emplace, update. cbn [impls].
  rewrite om_find_insert by done. case_decide; naive_solver.
Qed.

Lemma elem_of_buckets_touch b k h : wf h -> k ∈ buckets (touch b h) <-> k = b \/ k ∈ buckets h.
Proof.
  intros Hs. rewrite !elem_of_buckets by (try apply wf_touch; done). unfold touch. cbn [impls].
  destruct (emplace_find_sorted b dflt (impls h) Hs) as [_ ->]. case_decide; naive_solver.
Qed.

Lemma impl_absent b h : wf h -> b ∉ buckets h -> impl b h = dflt.
Proof.
  intros Hs Hb. unfold impl. destruct (om_find b (impls h)) eqn:Hf; [|done]. destruct Hb. by apply elem_of_buckets; [|eexists].
Qed.

(** The loops that stop at the first bucket above the bound take all buckets up to it. *)
Lemma bucketsBefore_filter x h : wf h -> bucketsBefore x h = filter (fun b => b <= x) (buckets h).
Proof.
  unfold wf, om_sorted, bucketsBefore, buckets. destruct h as [m u]. cbn. induction 1 as [|[b v] m Hs IH Hall]; [done|].
  cbn [bucketsBefore_loop fmap list_fmap fst]. destruct (b <=? x) eqn:Hb.
  - apply Z.leb_le in Hb. rewrite filter_cons_True by done. by rewrite IH.
  - apply Z.leb_gt in Hb. rewrite filter_cons_False by (cbn; lia). symmetry. apply filter_none, Forall_fmap.
    eapply Forall_impl; [done|]. intros [k w] Hk. cbn in *. lia.
Qed.

Lemma removeBucketsBefore_loop_spec x m u removed last_removed :
  om_sorted m ->
  let above := filter (fun e => x < e.1) m in
  let h := removeBucketsBefore_loop x m u removed last_removed in
  impls h.1 = above /\ h.2.1 = removed + Z.of_nat (length m - length above) /\
  forall k, updated_buckets h.1 !! k = if decide (k ∈ m.*1 /\ k <= x) then None else u !! k.
Proof.
  intros Hs. revert u removed last_removed. induction Hs as [|[b v] m Hs IH Hall]; intros u removed last_removed; cbn zeta.
  { split; [done|]. split; [cbn; lia|]. intros k. rewrite decide_False; [done|]. by intros [?%not_elem_of_nil _]. }
  cbn [removeBucketsBefore_loop]. destruct (b <=? x) eqn:Hb.
  - apply Z.leb_le in Hb. rewrite filter_cons_False by (cbn; lia). destruct (IH (delete b u) (removed + 1) b) as (H1 & H2 & H3).
    split; [done|]. split.
    + rewrite H2. pose proof (length_filter (fun e : Z * V => x < e.1) m). cbn [length]. lia.
    + intros k. rewrite H3. cbn [fmap list_fmap fst]. destruct (decide (k = b)) as [->|Hne].
      * rewrite lookup_delete_eq. rewrite (decide_True (P := b ∈ b :: m.*1 /\ b <= x)) by (split; [by left|done]). by case_decide.
      * rewrite lookup_delete_ne by done. apply decide_ext. rewrite elem_of_cons. tauto.
  - apply Z.leb_gt in Hb. assert (Hf : filter (fun e : Z * V => x < e.1) ((b, v) :: m) = (b, v) :: m).
    { apply filter_all. constructor; [cbn; lia|]. eapply Forall_impl; [done|]. intros [k w] Hk. cbn in *. lia. }
    rewrite Hf. split; [done|]. split; [cbn; lia|]. intros k. rewrite decide_False; [done|]. intros [Hk Hle].
    apply elem_of_cons in Hk as [->|Hk]; [cbn in *; lia|]. apply list_elem_of_fmap in Hk as ([k' w] & -> & Hin).
    rewrite Forall_forall in Hall. apply Hall in Hin. cbn in *. lia.
Qed.

Lemma removeBucketsBefore_impls x h : wf h -> impls (removeBucketsBefore x h).1 = filter (fun e => x < e.1) (impls h).
Proof.
  intros Hs. unfold removeBucketsBefore. destruct (removeBucketsBefore_loop_spec x (impls h) (updated_buckets h) 0 0 Hs) as [H _].
  destruct (removeBucketsBefore_loop _ _ _ _ _) as [h' [r l]]. done.
Qed.

Lemma wf_removeBucketsBefore x h : wf h -> wf (removeBucketsBefore x h).1.
Proof. intros Hs. unfold wf. rewrite removeBucketsBefore_impls by done. by apply sorted_filter. Qed.

Lemma buckets_removeBucketsBefore x h :
  wf h -> buckets (removeBucketsBefore x h).1 = filter (fun b => x < b) (buckets h).
Proof.
  intros Hs. unfold buckets. rewrite removeBucketsBefore_impls by done. apply filter_fst.
Qed.

Lemma impl_removeBucketsBefore x k h :
  wf h -> impl k (removeBucketsBefore x h).1 = if decide (k <= x) then dflt else impl k h.
Proof.
  intros Hs. pose proof (wf_removeBucketsBefore x h Hs) as Hs'. case_decide as Hk.
  - apply impl_absent; [done|]. rewrite buckets_removeBucketsBefore, list_elem_of_filter by done. lia.
  - unfold impl. f_equal. apply option_eq. intros v. unfold wf in Hs, Hs'. rewrite !om_find_elem by done.
    rewrite removeBucketsBefore_impls by done. rewrite list_elem_of_filter. cbn. naive_solver lia.
Qed.

(** What the caller of [removeBucketsBefore] learns. *)
Lemma removeBucketsBefore_counts x h :
  wf h ->
  let '(h', (removed, _, remaining)) := removeBucketsBefore x h in
  removed = Z.of_nat (length (bucketsBefore x h)) /\ remaining = Z.of_nat (length (buckets h')) /\
  removed + remaining = Z.of_nat (length (buckets h)).
Proof.
  intros Hs. pose proof (removeBucketsBefore_impls x h Hs) as Hi. rewrite bucketsBefore_filter by done. unfold removeBucketsBefore in *.
  destruct (removeBucketsBefore_loop_spec x (impls h) (updated_buckets h) 0 0 Hs) as (_ & Hr & _).
  destruct (removeBucketsBefore_loop _ _ _ _ _) as [h' [r l]]. cbn in *.
  pose proof (length_filter_split x (buckets h)) as Hsum. unfold buckets in *.
  rewrite <- (filter_fst (fun b => x < b)), !length_fmap in *. rewrite Hi. lia.
Qed.
End TimeBuckets.
Arguments t : clear implicits.
End TimeBuckets.
