(* ===== verification/Aggregator.v ===== *)
(** * Aggregating the rows of time buckets
      (src/Interpreters/Streaming/Aggregator/MemoryAggregator,
      src/Processors/Transforms/Streaming/AggregatingHelper.cpp)

    The aggregator that keeps its states in memory, for grouping by a window: the
    execution on a block of rows, the removal of buckets, and the conversion of the
    buckets of a window, of all shards, into one block.  Aggregate functions are values
    of the class [AggregateOps]; what the conversion relies on are the laws of
    [AggregateFunction].  Arenas, the compiled functions and the tracking of updates are
    left out. *)

From stdpp Require Import gmap.
From S2P Require Import Prelude Ordered TimeBuckets.

Local Open Scope Z_scope.
Local Open Scope prog_scope.

Definition UNKNOWN_AGGREGATED_DATA_VARIANT : Z := 93.

(** ** Aggregate functions *)

(** [IAggregateFunction]: the states of all aggregates of a group, taken together. *)
Class AggregateOps (Row St Res : Type) : Type := {
  agg_create : St;
  agg_add : St -> Row -> St;
  agg_merge : St -> St -> St;
  agg_result : St -> Res;
}.

(** What an aggregate function promises: its states stand for rows, in any order, and the
    result of a state is that of its rows. *)
Class AggregateFunction (Row St Res : Type) `{AggregateOps Row St Res} : Type := {
  agg_spec : list Row -> Res;
  agg_state : St -> list Row -> Prop;
  agg_state_create : agg_state agg_create [];
  agg_state_add : forall s l x, agg_state s l -> agg_state (agg_add s x) (l ++ [x]);
  agg_state_merge : forall s l s' l', agg_state s l -> agg_state s' l' -> agg_state (agg_merge s s') (l ++ l');
  agg_state_perm : forall s l l', l ≡ₚ l' -> agg_state s l -> agg_state s l';
  agg_state_result : forall s l, agg_state s l -> agg_result s = agg_spec l;
}.

Section Aggregator.
Context {Row St Res K : Type} `{Countable K} `{!AggregateOps Row St Res}.
(** The columns to group by: the window, which is the time bucket, and the others. *)
Context (window_key : Row -> Z) (other_keys : Row -> K).

Local Abbreviation Key := (Z * K)%type.
Local Abbreviation Table := (gmap (Z * K) St).

(** [MemoryAggregatedDataVariants]; [initialized] is [!empty()]. *)
Record Variants : Type := mkVariants { initialized : bool; data : TimeBuckets.t Table }.
Definition no_variants : Variants := mkVariants false TimeBuckets.create.

Definition row_key (r : Row) : Key := (window_key r, other_keys r).
Definition impl_of (b : Z) (v : Variants) : Table := TimeBuckets.impl ∅ b (data v).

(** ** Execution *)

(** The place of the row's key, made when it is new, and the row added to its state. *)
Definition add_row (tab : Table) (r : Row) : Table :=
  <[row_key r := agg_add (default agg_create (tab !! row_key r)) r]> tab.
Definition executeImplBatch (rows : list Row) (d : TimeBuckets.t Table) : TimeBuckets.t Table :=
  foldl (fun d r => TimeBuckets.emplace ∅ (window_key r) (fun tab => add_row tab r) d) d rows.
Definition executeOnBlock (rows : list Row) (v : Variants) : Variants :=
  mkVariants true (executeImplBatch rows (if initialized v then data v else TimeBuckets.create)).

Definition removeBucketsBefore (max_bucket : Z) (v : Variants) : Variants :=
  if initialized v then mkVariants true (TimeBuckets.removeBucketsBefore max_bucket (data v)).1 else v.
Definition buckets (v : Variants) : list Z := if initialized v then TimeBuckets.buckets (data v) else [].

(** ** Conversion *)

(** [mergeDataImpl] with a key handler. *)
Definition mergeDataImpl (key_handler : Key -> Key) (dst src : Table) : Table :=
  map_fold (fun k s d => <[key_handler k := agg_merge (default agg_create (d !! key_handler k)) s]> d) dst src.

(** [getZeroOutWindowKeysFunc] *)
Definition zeroOutWindowKeys (k : Key) : Key := (0, k.2).

(** A block: its rows by their keys. *)
Definition Block : Type := list (Key * Res).
Definition convertOneBucketToBlockImpl (tab : Table) : Block := map_to_list (agg_result <$> tab).

(** [impls[bucket]] makes the buckets it does not find. *)
Definition touch_buckets (bs : list Z) (v : Variants) : Variants :=
  mkVariants (initialized v) (foldl (fun d b => TimeBuckets.touch ∅ b d) (data v) bs).

(** [spliceAndConvertToBlock], for a list of buckets that is not empty. *)
Definition spliceAndConvertToBlock (v : Variants) (gcd_buckets : list Z) : res (Variants * Block) :=
  if initialized v then
    let spliced :=
      match gcd_buckets with
      | [b] => impl_of b v
      | _ => foldl (fun acc b => mergeDataImpl zeroOutWindowKeys acc (impl_of b v)) ∅ gcd_buckets
      end in
    Ok (touch_buckets gcd_buckets v, convertOneBucketToBlockImpl spliced)
  else Exn UNKNOWN_AGGREGATED_DATA_VARIANT.

(** [mergeBucketImpl]: into the result, the first of the variants. *)
Definition mergeBucketImpl (vs : list Variants) (first : TimeBuckets.t Table) (b : Z) : TimeBuckets.t Table :=
  foldl (fun first v => TimeBuckets.update ∅ b (fun dst => mergeDataImpl id dst (impl_of b v)) first) first vs.

(** What is left of the variants that were merged. *)
Definition merged (gcd_buckets : list Z) (v : Variants) : Variants :=
  if initialized v then
    mkVariants true (foldl (fun d b => TimeBuckets.resetUpdatedBucket b (TimeBuckets.touch ∅ b d)) (data v) gcd_buckets)
  else v.

(** The merged table of a window, from the variants that are not empty. *)
Definition mergeAndSplice (vs : list Variants) (gcd_buckets : list Z) : Table :=
  let first := foldl (mergeBucketImpl vs) TimeBuckets.create gcd_buckets in
  match gcd_buckets with
  | [b] => TimeBuckets.impl ∅ b first
  | _ =>
      TimeBuckets.impl ∅ 0
        (foldl (fun first b =>
                  TimeBuckets.update ∅ 0 (fun dst => mergeDataImpl zeroOutWindowKeys dst (TimeBuckets.impl ∅ b first)) first)
               first gcd_buckets)
  end.

(** [mergeAndSpliceAndConvertToBlock] *)
Definition mergeAndSpliceAndConvertToBlock (many : list Variants) (gcd_buckets : list Z) : res (list Variants * Block) :=
  match filter (fun v => initialized v = true) many, gcd_buckets with
  | [], _ => Ok (many, [])
  | [v], [b] =>
      Ok ((fun v => if initialized v then touch_buckets [b] v else v) <$> many, convertOneBucketToBlockImpl (impl_of b v))
  | vs, _ => Ok (merged gcd_buckets <$> many, convertOneBucketToBlockImpl (mergeAndSplice vs gcd_buckets))
  end.

(** [AggregatingHelper::mergeAndSpliceAndConvertToChunk] *)
Definition mergeAndSpliceAndConvertToChunk (many : list Variants) (gcd_buckets : list Z) : res (list Variants * Block) :=
  match many with
  | [v] => match spliceAndConvertToBlock v gcd_buckets with
           | Ok (v', blk) => Ok ([v'], blk)
           | Err e => Err e
           | Exn e => Exn e
           | Undef => Undef
           end
  | _ => mergeAndSpliceAndConvertToBlock many gcd_buckets
  end.

(** ** Tables and the rows they stand for *)

Section Laws.
Context `{!AggregateFunction Row St Res}.

(** The result of a group, which is there when it has rows. *)
Definition agg_opt (l : list Row) : option Res := match l with [] => None | _ => Some (agg_spec l) end.

(** The state of a group with the rows [l]. *)
Definition group_state (o : option St) (l : list Row) : Prop :=
  match o with Some s => l <> [] /\ agg_state s l | None => l = [] end.

(** [tab] has the groups of [rows] by the keys [kappa]. *)
Definition repr (kappa : Row -> Key) (tab : Table) (rows : list Row) : Prop :=
  forall k, group_state (tab !! k) (filter (fun r => kappa r = k) rows).

(** The variants of a shard whose rows are [rows]. *)
Definition rep (v : Variants) (rows : list Row) : Prop :=
  TimeBuckets.wf (data v) /\ (initialized v = false -> rows = []) /\
  forall b, repr row_key (impl_of b v) (filter (fun r => window_key r = b) rows).

Lemma agg_spec_perm l l' : l ≡ₚ l' -> agg_spec l = agg_spec l'.
Proof.
  intros Hp. assert (Hs : agg_state (foldl agg_add agg_create l) l).
  { clear. induction l as [|x l IH] using rev_ind; [apply agg_state_create|]. rewrite foldl_app. by apply agg_state_add. }
  rewrite <- (agg_state_result _ _ Hs). by apply agg_state_result, (agg_state_perm _ l).
Qed.

Lemma agg_opt_perm l l' : l ≡ₚ l' -> agg_opt l = agg_opt l'.
Proof.
  intros Hp. unfold agg_opt. destruct l as [|x l]; [by apply Permutation_nil in Hp as ->|].
  destruct l' as [|y l']; [by apply Permutation_nil_r in Hp|]. by rewrite (agg_spec_perm _ _ Hp).
Qed.

Lemma group_state_perm o l l' : l ≡ₚ l' -> group_state o l -> group_state o l'.
Proof.
  destruct o as [s|]; cbn; intros Hp; [|by intros ->; apply Permutation_nil in Hp]. intros [Hne Hs].
  split; [intros ->; by apply Permutation_nil_r in Hp|by eapply agg_state_perm].
Qed.

Lemma group_state_result o l : group_state o l -> agg_result <$> o = agg_opt l.
Proof. destruct o as [s|]; cbn; [|by intros ->]. intros [Hne Hs]. rewrite (agg_state_result _ _ Hs). by destruct l. Qed.

(** The state that a group has or gets. *)
Lemma group_state_default o l : group_state o l -> agg_state (default agg_create o) l.
Proof. destruct o as [s|]; cbn; [by intros [_ ?]|]. intros ->. apply agg_state_create. Qed.

Lemma repr_empty kappa : repr kappa ∅ [].
Proof. intros k. by rewrite lookup_empty. Qed.

Lemma repr_perm kappa tab l l' : l ≡ₚ l' -> repr kappa tab l -> repr kappa tab l'.
Proof. intros Hp Hr k. eapply group_state_perm; [|apply Hr]. by rewrite Hp. Qed.

Lemma repr_add tab rows r : repr row_key tab rows -> repr row_key (add_row tab r) (rows ++ [r]).
Proof.
  intros Hr k. unfold add_row. rewrite filter_app, filter_cons, filter_nil, lookup_insert. case_decide as Hk.
  - subst k. cbn. split; [by destruct (filter _ rows)|]. by apply agg_state_add, group_state_default.
  - rewrite app_nil_r. apply Hr.
Qed.

(** The rows with a key, and the others. *)
Lemma filter_partition (P : Row -> Prop) `{!forall x, Decision (P x)} l : filter P l ++ filter (fun x => ~ P x) l ≡ₚ l.
Proof.
  induction l as [|x l IH]; [done|]. rewrite !filter_cons. destruct (decide (P x)).
  - rewrite decide_False by tauto. cbn. by rewrite IH.
  - rewrite decide_True by done. by rewrite <- Permutation_middle, IH.
Qed.

Lemma repr_merge kappa kappa' h dst src rows rows' :
  repr kappa dst rows -> repr kappa' src rows' -> (forall r, kappa r = h (kappa' r)) ->
  repr kappa (mergeDataImpl h dst src) (rows ++ rows').
Proof.
  intros Hd Hs Hk. revert rows' Hs. unfold mergeDataImpl.
  apply (map_fold_weak_ind (fun d src => forall rows', repr kappa' src rows' -> repr kappa d (rows ++ rows'))).
  - intros rows' Hs. destruct rows' as [|r rows']; [by rewrite app_nil_r|]. specialize (Hs (kappa' r)).
    rewrite lookup_empty, filter_cons_True in Hs by done. done.
  - intros i x m d Hi IH rows' Hs. set (mine := filter (fun r => kappa' r = i) rows').
    set (rest := filter (fun r => ~ kappa' r = i) rows').
    assert (Hx : group_state (Some x) mine) by (rewrite <- (lookup_insert_eq m i x); apply Hs).
    assert (Hrest : repr kappa' m rest).
    { intros k. destruct (decide (k = i)) as [->|Hne].
      - rewrite Hi. unfold rest. rewrite list_filter_filter, filter_none; [done|]. apply Forall_forall. tauto.
      - rewrite <- (lookup_insert_ne m i k x) by done. unfold rest. rewrite list_filter_filter. erewrite list_filter_iff; [apply Hs|]. naive_solver. }
    specialize (IH rest Hrest). apply (repr_perm _ _ ((rows ++ rest) ++ mine)).
    { rewrite <- app_assoc. f_equiv. rewrite Permutation_app_comm. apply filter_partition. }
    assert (Hmine : forall r, r ∈ mine -> kappa r = h i) by (intros r [Hr _]%list_elem_of_filter; by rewrite Hk, Hr).
    intros k. rewrite filter_app, lookup_insert. case_decide as Heq.
    + subst k. rewrite (filter_all (fun r => kappa r = h i) mine) by by apply Forall_forall. destruct Hx as [Hne Hx]. cbn.
      split; [by destruct (filter _ (rows ++ rest))|]. apply agg_state_merge; [apply group_state_default, IH|done].
    + rewrite (filter_none _ mine), app_nil_r; [apply IH|]. apply Forall_forall. intros r Hr. by rewrite (Hmine r Hr).
Qed.

(** ** Variants and the rows they stand for *)

Lemma rep_no_variants : rep no_variants [].
Proof. split; [apply TimeBuckets.wf_create|]. split; [done|]. intros b. apply repr_empty. Qed.

Lemma impl_touch_buckets bs b v : TimeBuckets.wf (data v) -> TimeBuckets.wf (data (touch_buckets bs v)) /\ impl_of b (touch_buckets bs v) = impl_of b v.
Proof.
  unfold impl_of, touch_buckets. cbn [data]. generalize (data v). induction bs as [|x bs IH]; intros d Hd; [done|]. cbn.
  destruct (IH (TimeBuckets.touch ∅ x d)) as [H1 H2]; [by apply TimeBuckets.wf_touch|]. split; [done|]. rewrite H2.
  by apply TimeBuckets.impl_touch.
Qed.

Lemma rep_touch_buckets bs v rows : rep v rows -> rep (touch_buckets bs v) rows.
Proof.
  intros (Hw & Hi & Hr). split; [by apply (impl_touch_buckets bs 0)|]. split; [done|]. intros b.
  destruct (impl_touch_buckets bs b v Hw) as [_ ->]. apply Hr.
Qed.

Lemma rep_executeOnBlock rows' v rows : rep v rows -> rep (executeOnBlock rows' v) (rows ++ rows').
Proof.
  intros (Hw & Hi & Hr). unfold executeOnBlock, rep, impl_of. cbn [data initialized].
  assert (Hd : let d := if initialized v then data v else TimeBuckets.create in
    TimeBuckets.wf d /\ forall b, repr row_key (TimeBuckets.impl ∅ b d) (filter (fun r => window_key r = b) rows)).
  { destruct (initialized v); cbn zeta; [done|]. rewrite Hi by done. split; [apply TimeBuckets.wf_create|]. intros b. apply repr_empty. }
  revert Hd. cbn zeta. generalize (if initialized v then data v else TimeBuckets.create). clear Hw Hi Hr.
  induction rows' as [|r rows' IH] in rows |- *; intros d [Hw Hr]; cbn [executeImplBatch foldl].
  - rewrite app_nil_r. done.
  - replace (rows ++ r :: rows') with ((rows ++ [r]) ++ rows') by by rewrite <- app_assoc. apply IH. split; [by apply TimeBuckets.wf_emplace|].
    intros b. rewrite TimeBuckets.impl_emplace by done. rewrite filter_app, filter_cons, filter_nil. case_decide as Hb.
    + subst b. rewrite decide_True by done. by apply repr_add.
    + rewrite decide_False by congruence. rewrite app_nil_r. apply Hr.
Qed.

Lemma rep_removeBucketsBefore x v rows :
  rep v rows -> rep (removeBucketsBefore x v) (filter (fun r => x < window_key r) rows).
Proof.
  intros (Hw & Hi & Hr). unfold removeBucketsBefore. destruct (initialized v) eqn:Hini.
  - split; [by apply TimeBuckets.wf_removeBucketsBefore|]. split; [done|]. intros b. unfold impl_of. cbn [data].
    rewrite TimeBuckets.impl_removeBucketsBefore, list_filter_filter by done. case_decide as Hb.
    + rewrite filter_none; [apply repr_empty|]. apply Forall_forall. intros r _. lia.
    + specialize (Hr b). erewrite list_filter_iff; [apply Hr|]. intros r. split; [by intros [? ?]|intros ?; split; [done|lia]].
  - rewrite Hi by done. split; [done|]. split; [done|]. intros b. specialize (Hr b). by rewrite Hi in Hr.
Qed.

(** ** The table of a window *)

Lemma repr_ext kappa kappa' tab rows :
  (forall r, r ∈ rows -> kappa r = kappa' r) -> repr kappa tab rows -> repr kappa' tab rows.
Proof.
  intros Hk Hr k. erewrite filter_iff_Forall; [apply Hr|]. apply Forall_forall. intros r Hin. by rewrite Hk.
Qed.

Lemma repr_nil kappa tab : repr kappa tab [] -> tab = ∅.
Proof. intros Hr. apply map_eq. intros k. rewrite lookup_empty. specialize (Hr k). by destruct (tab !! k) as [x|]; [destruct Hr|]. Qed.

(** The rows of buckets, bucket by bucket. *)
Definition rows_in (bs : list Z) (rows : list Row) : list Row := concat ((fun b => filter (fun r => window_key r = b) rows) <$> bs).

Lemma rows_in_perm bs rows : NoDup bs -> rows_in bs rows ≡ₚ filter (fun r => window_key r ∈ bs) rows.
Proof.
  unfold rows_in. induction 1 as [|b bs Hb _ IH]; cbn.
  - rewrite filter_none; [done|]. apply Forall_forall. by intros r _ ?%not_elem_of_nil.
  - rewrite IH. rewrite <- (filter_partition (fun r => window_key r = b) (filter (fun r => window_key r ∈ b :: bs) rows)).
    rewrite !list_filter_filter. f_equiv; apply reflexive_eq, list_filter_iff; intros r; rewrite elem_of_cons; naive_solver.
Qed.

(** The key of the groups of a window: its only bucket, or 0. *)
Definition spliced_key (bs : list Z) (r : Row) : Key := (match bs with [b] => b | _ => 0 end, other_keys r).

Lemma splice_repr v rows bs acc rows' :
  rep v rows -> repr (fun r => (0, other_keys r)) acc rows' ->
  repr (fun r => (0, other_keys r)) (foldl (fun acc b => mergeDataImpl zeroOutWindowKeys acc (impl_of b v)) acc bs) (rows' ++ rows_in bs rows).
Proof.
  intros (_ & _ & Hr). revert acc rows'. induction bs as [|b bs IH]; intros acc rows' Hacc; cbn [foldl].
  - unfold rows_in. cbn. by rewrite app_nil_r.
  - unfold rows_in. cbn. rewrite app_assoc. apply IH. by apply (repr_merge _ row_key).
Qed.

Lemma one_bucket_repr b tab rows :
  repr row_key tab (filter (fun r => window_key r = b) rows) ->
  repr (spliced_key [b]) tab (filter (fun r => window_key r ∈ [b]) rows).
Proof.
  intros Hr. erewrite list_filter_iff; [|intros r; apply list_elem_of_singleton]. eapply repr_ext; [|exact Hr].
  intros r [<- _]%list_elem_of_filter. done.
Qed.

Lemma spliceAndConvertToBlock_spec v rows bs :
  rep v rows -> initialized v = true -> NoDup bs ->
  exists tab, spliceAndConvertToBlock v bs = Ok (touch_buckets bs v, convertOneBucketToBlockImpl tab) /\
    repr (spliced_key bs) tab (filter (fun r => window_key r ∈ bs) rows).
Proof.
  intros Hv Hi Hnd. unfold spliceAndConvertToBlock. rewrite Hi. eexists. split; [done|].
  destruct bs as [|b [|b' bs]]; [|by apply one_bucket_repr, Hv|];
    (eapply repr_perm; [by apply rows_in_perm|]; apply (splice_repr v rows _ ∅ []); [done|apply repr_empty]).
Qed.

(** A result table, by the rows of its buckets. *)
Definition result_rep (first : TimeBuckets.t Table) (R : Z -> list Row) : Prop :=
  TimeBuckets.wf first /\ forall b, repr row_key (TimeBuckets.impl ∅ b first) (R b).

Lemma mergeBucketImpl_spec vs rowss first R b :
  Forall2 rep vs rowss -> result_rep first R ->
  result_rep (mergeBucketImpl vs first b)
    (fun k => R k ++ if decide (k = b) then filter (fun r => window_key r = b) (concat rowss) else []).
Proof.
  intros Hvs. revert first R. unfold mergeBucketImpl. induction Hvs as [|v rows vs rowss Hv Hvs IH]; intros first R [Hw HR]; cbn [foldl].
  - split; [done|]. intros k. case_decide; cbn; by rewrite app_nil_r.
  - edestruct (IH (TimeBuckets.update ∅ b (fun dst => mergeDataImpl id dst (impl_of b v)) first)
                 (fun k => R k ++ if decide (k = b) then filter (fun r => window_key r = b) rows else [])) as [H1 H2].
    + split; [by apply TimeBuckets.wf_update|]. intros k. rewrite TimeBuckets.impl_update by done. case_decide as Hk.
      * subst k. apply (repr_merge _ row_key); [done|apply Hv|done].
      * by rewrite app_nil_r.
    + split; [done|]. intros k. specialize (H2 k). cbn [concat]. rewrite filter_app. case_decide; [by rewrite app_assoc|by rewrite !app_nil_r in *].
Qed.

Lemma merge_buckets_spec vs rowss bs first R :
  Forall2 rep vs rowss -> NoDup bs -> result_rep first R ->
  result_rep (foldl (mergeBucketImpl vs) first bs)
    (fun k => R k ++ if decide (k ∈ bs) then filter (fun r => window_key r = k) (concat rowss) else []).
Proof.
  intros Hvs Hnd. revert first R. induction Hnd as [|b bs Hb _ IH]; intros first R Hf; cbn [foldl].
  - destruct Hf as [Hw HR]. split; [done|]. intros k. rewrite decide_False by apply not_elem_of_nil. by rewrite app_nil_r.
  - destruct (IH _ _ (mergeBucketImpl_spec vs rowss first R b Hvs Hf)) as [H1 H2]. split; [done|]. intros k. specialize (H2 k).
    destruct (decide (k = b)) as [->|Hne].
    + rewrite decide_False, app_nil_r in H2 by done. by rewrite decide_True by (by left).
    + rewrite app_nil_r in H2. erewrite decide_ext; [exact H2|]. rewrite elem_of_cons. tauto.
Qed.

Lemma splice_result_spec bs first R acc :
  0 ∉ bs -> TimeBuckets.wf first -> (forall b, b ∈ bs -> repr row_key (TimeBuckets.impl ∅ b first) (R b)) ->
  repr (fun r => (0, other_keys r)) (TimeBuckets.impl ∅ 0 first) acc ->
  repr (fun r => (0, other_keys r))
    (TimeBuckets.impl ∅ 0
      (foldl (fun first b => TimeBuckets.update ∅ 0 (fun dst => mergeDataImpl zeroOutWindowKeys dst (TimeBuckets.impl ∅ b first)) first) first bs))
    (acc ++ concat (R <$> bs)).
Proof.
  revert first acc. induction bs as [|b bs IH]; intros first acc H0 Hw HR Hacc; cbn [foldl].
  - cbn. by rewrite app_nil_r.
  - apply not_elem_of_cons in H0 as [Hb0 H0]. cbn. rewrite app_assoc. apply IH; [done|by apply TimeBuckets.wf_update| |].
    + intros k Hk. rewrite TimeBuckets.impl_update, decide_False by (done || congruence). apply HR. by right.
    + rewrite TimeBuckets.impl_update, decide_True by done. apply (repr_merge _ row_key); [done|apply HR; by left|done].
Qed.

Lemma mergeAndSplice_repr vs rowss bs :
  Forall2 rep vs rowss -> NoDup bs -> 0 ∉ bs ->
  repr (spliced_key bs) (mergeAndSplice vs bs) (filter (fun r => window_key r ∈ bs) (concat rowss)).
Proof.
  intros Hvs Hnd H0. unfold mergeAndSplice.
  assert (Hc : result_rep TimeBuckets.create (fun _ => [])) by (split; [apply TimeBuckets.wf_create|intros b; apply repr_empty]).
  destruct (merge_buckets_spec vs rowss bs _ _ Hvs Hnd Hc) as [Hw Hf]. cbn in Hf.
  assert (Hin : forall b, b ∈ bs -> repr row_key (TimeBuckets.impl ∅ b (foldl (mergeBucketImpl vs) TimeBuckets.create bs))
                 (filter (fun r => window_key r = b) (concat rowss))) by (intros b Hb; specialize (Hf b); by rewrite decide_True in Hf).
  destruct bs as [|b [|b' bs]]; [| |].
  1, 3: eapply repr_perm; [by apply rows_in_perm|]; apply (splice_result_spec _ _ _ []); [done|done|done|];
    specialize (Hf 0); rewrite decide_False in Hf by done; rewrite (repr_nil _ _ Hf); apply repr_empty.
  apply one_bucket_repr, Hin. by left.
Qed.

(** ** The block of a window *)

(** The variants may have got buckets without rows. *)
Definition touched (bs : list Z) (v v' : Variants) : Prop :=
  initialized v' = initialized v /\ forall b, b ∈ buckets v' -> b ∈ buckets v \/ b ∈ bs.

Lemma touched_refl bs v : touched bs v v.
Proof. split; [done|]. auto. Qed.

Lemma elem_of_touched_buckets (f : Z -> TimeBuckets.t Table -> TimeBuckets.t Table) bs d b :
  (forall x d, TimeBuckets.wf d -> TimeBuckets.wf (f x d) /\ forall y, y ∈ TimeBuckets.buckets (f x d) -> y = x \/ y ∈ TimeBuckets.buckets d) ->
  TimeBuckets.wf d -> b ∈ TimeBuckets.buckets (foldl (fun d b => f b d) d bs) -> b ∈ TimeBuckets.buckets d \/ b ∈ bs.
Proof.
  intros Hf. revert d. induction bs as [|x bs IH]; intros d Hd; cbn [foldl]; [auto|]. intros Hb.
  destruct (Hf x d Hd) as [Hd' Hx]. apply IH in Hb as [Hb|Hb]; [|by right; right|done]. apply Hx in Hb as [->|Hb]; [right; by left|by left].
Qed.

Lemma touched_touch_buckets bs v : TimeBuckets.wf (data v) -> touched bs v (touch_buckets bs v).
Proof.
  intros Hw. split; [done|]. intros b. unfold buckets, touch_buckets. cbn [initialized data]. destruct (initialized v); [|auto].
  apply elem_of_touched_buckets; [|done]. intros x d Hd. split; [by apply TimeBuckets.wf_touch|]. intros y. by rewrite TimeBuckets.elem_of_buckets_touch.
Qed.

Lemma merged_spec bs v rows : rep v rows -> rep (merged bs v) rows /\ touched bs v (merged bs v).
Proof.
  intros Hv. pose proof Hv as (Hw & Hi & Hr). unfold merged. destruct (initialized v) eqn:Hini; [|split; [done|apply touched_refl]].
  assert (Hf : forall x d, TimeBuckets.wf d -> TimeBuckets.wf (TimeBuckets.resetUpdatedBucket x (TimeBuckets.touch (∅ : Table) x d)))
    by (intros x d Hd; apply (TimeBuckets.wf_touch (∅ : Table) x d Hd)).
  split.
  - assert (Hd : TimeBuckets.wf (foldl (fun d b => TimeBuckets.resetUpdatedBucket b (TimeBuckets.touch ∅ b d)) (data v) bs) /\
      forall b, TimeBuckets.impl ∅ b (foldl (fun d b => TimeBuckets.resetUpdatedBucket b (TimeBuckets.touch ∅ b d)) (data v) bs) = impl_of b v).
    { unfold impl_of. clear Hr Hi Hini. revert Hw. generalize (data v). induction bs as [|x bs IH]; intros d Hd; cbn [foldl]; [done|].
      destruct (IH _ (Hf x d Hd)) as [H1 H2]. split; [done|]. intros b. rewrite H2. by apply TimeBuckets.impl_touch. }
    split; [apply Hd|]. split; [done|]. intros b. unfold impl_of. cbn [data]. rewrite (proj2 Hd). apply Hr.
  - split; [by rewrite Hini|]. intros b. unfold buckets. cbn [initialized data]. rewrite Hini. apply elem_of_touched_buckets; [|done].
    intros x d Hd. split; [by apply Hf|]. intros y. by apply TimeBuckets.elem_of_buckets_touch.
Qed.

Lemma initialized_rows many rowss :
  Forall2 rep many rowss ->
  exists rowss', Forall2 rep (filter (fun v => initialized v = true) many) rowss' /\ concat rowss' = concat rowss.
Proof.
  induction 1 as [|v rows many rowss Hv _ (rowss' & IH & Hc)]; [by exists []|]. rewrite filter_cons. case_decide as Hi.
  - exists (rows :: rowss'). split; [by constructor|]. cbn. by rewrite Hc.
  - exists rowss'. split; [done|]. destruct Hv as (_ & Hn & _). rewrite Hn by (by destruct (initialized v)). done.
Qed.

(** The block of a window has the groups of the rows of its buckets, of all shards. *)
Lemma mergeAndSpliceAndConvertToChunk_spec many rowss bs :
  Forall2 rep many rowss -> Exists (fun v => initialized v = true) many -> NoDup bs -> 0 ∉ bs ->
  exists many' tab, mergeAndSpliceAndConvertToChunk many bs = Ok (many', convertOneBucketToBlockImpl tab) /\
    Forall2 rep many' rowss /\ Forall2 (touched bs) many many' /\
    repr (spliced_key bs) tab (filter (fun r => window_key r ∈ bs) (concat rowss)).
Proof.
  intros Hvs Hex Hnd H0.
  assert (Hmerge : exists many' tab, mergeAndSpliceAndConvertToBlock many bs = Ok (many', convertOneBucketToBlockImpl tab) /\
    Forall2 rep many' rowss /\ Forall2 (touched bs) many many' /\
    repr (spliced_key bs) tab (filter (fun r => window_key r ∈ bs) (concat rowss))).
  { destruct (initialized_rows many rowss Hvs) as (rowss' & Hvs' & <-). unfold mergeAndSpliceAndConvertToBlock.
    assert (Hm : Forall2 rep (merged bs <$> many) rowss /\ Forall2 (touched bs) many (merged bs <$> many)).
    { clear -Hvs. induction Hvs as [|v rows many rowss Hv _ [IH1 IH2]]; [done|]. destruct (merged_spec bs v rows Hv). split; by constructor. }
    pose proof (mergeAndSplice_repr _ _ bs Hvs' Hnd H0) as Hrep.
    destruct (filter _ many) as [|v vs] eqn:Hf.
    { apply Exists_exists in Hex as (v & Hin & Hi). assert (Hv : v ∈ filter (fun v => initialized v = true) many) by by apply list_elem_of_filter.
      rewrite Hf in Hv. by apply not_elem_of_nil in Hv. }
    assert (Hgen : exists many' tab, Ok (merged bs <$> many, convertOneBucketToBlockImpl (mergeAndSplice (v :: vs) bs)) =
        Ok (many', convertOneBucketToBlockImpl tab) /\ Forall2 rep many' rowss /\ Forall2 (touched bs) many many' /\
        repr (spliced_key bs) tab (filter (fun r => window_key r ∈ bs) (concat rowss'))).
    { eexists _, _. split; [done|]. split; [apply Hm|]. split; [apply Hm|]. exact Hrep. }
    destruct vs as [|v' vs], bs as [|b [|b' bs]]; try exact Hgen. clear Hgen Hm Hrep.
    eexists _, _. split; [done|]. split; [|split].
    - clear -Hvs. induction Hvs as [|v rows many rowss Hv _ IH]; [done|]. constructor; [|done].
      destruct (initialized v); [by apply rep_touch_buckets|done].
    - clear -Hvs. induction Hvs as [|v rows many rowss Hv _ IH]; [done|]. constructor; [|done].
      destruct (initialized v); [apply touched_touch_buckets, Hv|apply touched_refl].
    - inversion Hvs' as [|? rows ? ? Hv Hn]; subst. inversion Hn; subst. cbn. rewrite app_nil_r. apply one_bucket_repr, Hv. }
  unfold mergeAndSpliceAndConvertToChunk. destruct many as [|v [|v' many]]; try exact Hmerge. clear Hmerge.
  inversion Hvs as [|? rows ? ? Hv Hn]; subst. inversion Hn; subst. apply Exists_cons in Hex as [Hi|Hi]; [|by inversion Hi].
  destruct (spliceAndConvertToBlock_spec v rows bs Hv Hi Hnd) as (tab & -> & Htab). eexists _, tab. split; [done|].
  split; [constructor; [by apply rep_touch_buckets|done]|]. split; [constructor; [apply touched_touch_buckets, Hv|done]|].
  cbn. by rewrite app_nil_r.
Qed.
End Laws.
End Aggregator.
