(* ===== verification/WindowAggregating.v ===== *)
(** * Aggregation over windows
      (src/Processors/Transforms/Streaming/WindowAggregatingTransform.cpp, AggregatingTransform.cpp,
      ManyAggregatedData.h)

    Several transforms, one per shard, share a [ManyAggregatedData].  Each consumes the
    chunks of its input: it executes the rows, aligns its watermark with those of the
    others, and one of them at a time finalizes the windows of all shards.  Threads
    interleave at the locks of the code: a transform is a program counter, and an action
    is what it does while it holds a lock.  Modes that emit updates only ([finalize]
    is [Undef] for them), versions and checkpoints are left out. *)

From stdpp Require Import gmap.
From S2P Require Import Prelude WindowHelpers WindowSpec TimeBuckets Aggregator.

Local Open Scope Z_scope.
Local Open Scope prog_scope.

(** [std::ranges::set_union] of sorted ranges *)
Fixpoint set_union (l1 : list Z) : list Z -> list Z :=
  fix go (l2 : list Z) : list Z :=
    match l1, l2 with
    | [], _ => l2
    | _, [] => l1
    | x :: l1', y :: l2' =>
        if x <? y then x :: set_union l1' l2
        else if y <? x then y :: go l2'
        else x :: set_union l1' l2'
    end.

(** A window of one more shard, merged into the prepared ones. *)
Fixpoint merge_window (prepared : list WindowWithBuckets) (x : WindowWithBuckets) : list WindowWithBuckets :=
  match prepared with
  | [] => [x]
  | y :: prepared' =>
      if win_end (window y) =? win_end (window x)
      then mkWindowWithBuckets (window y) (set_union (window_buckets y) (window_buckets x)) :: prepared'
      else if win_end (window x) <? win_end (window y) then x :: prepared
      else y :: merge_window prepared' x
  end.

Section WindowAggregating.
Context {Row St Res K : Type} `{Countable K} `{!AggregateOps Row St Res}.
Context (row_time : Row -> Z) (other_keys : Row -> K) (ops : WindowOps).
Context (mode : EmitMode) (repeat_emit : bool).

Definition window_key (r : Row) : Z := wf_bucket ops (row_time r).

Local Abbreviation Variants := (@Variants St K _ _).
Local Abbreviation Block := (list (Z * K * Res)).

Record Chunk : Type := mkChunk { ck_rows : list Row; ck_watermark : option Z }.
Record OutChunk : Type := mkOutChunk { oc_rows : Block; oc_watermark : option Z }.

(** Where a transform is in [consume]; [again] in its second call of [finalizeAlignment]. *)
Inductive PC : Type :=
  | Idle
  | Align (new_watermark : Z)
  | Check (again : bool)
  | Lock (again : bool)
  | Prepare (again : bool) (i : nat) (prepared_windows_with_buckets : list WindowWithBuckets)
  | Finalize (again : bool) (prepared_windows_with_buckets : list WindowWithBuckets)
  | Return (again : bool)
  | Propagate.

(** [consumed] and [output] are histories that the code does not read: the rows that were
    executed, and the chunks that were pushed to the output port. *)
Record Transform : Type := mkTransform {
  variants : Variants;
  watermark : Z;
  propagated_watermark : Z;
  try_finalizing_watermark : option Z;
  aggregated_chunks : list OutChunk;
  rows_since_last_finalization : Z;
  need_propagate_heartbeat : bool;
  pc : PC;
  consumed : list Row;
  output : list OutChunk;
}.

Record ManyAggregatedData : Type := mkMany {
  transforms : list Transform;
  finalized_watermark : Z;
  finalized_window_end : Z;
  finalizing_mutex : option nat;
}.

Definition new_transform : Transform :=
  mkTransform no_variants INVALID_WATERMARK INVALID_WATERMARK None [] 0 false Idle [] [].
Definition init (n : nat) : ManyAggregatedData :=
  mkMany (replicate n new_transform) INVALID_WATERMARK INVALID_WATERMARK None.

(** ** Updates of one field *)

Definition with_pc (c : PC) (t : Transform) : Transform :=
  mkTransform (variants t) (watermark t) (propagated_watermark t) (try_finalizing_watermark t) (aggregated_chunks t)
    (rows_since_last_finalization t) (need_propagate_heartbeat t) c (consumed t) (output t).
Definition with_try (w : option Z) (t : Transform) : Transform :=
  mkTransform (variants t) (watermark t) (propagated_watermark t) w (aggregated_chunks t)
    (rows_since_last_finalization t) (need_propagate_heartbeat t) (pc t) (consumed t) (output t).
Definition with_watermark (w : Z) (t : Transform) : Transform :=
  mkTransform (variants t) w (propagated_watermark t) (try_finalizing_watermark t) (aggregated_chunks t)
    (rows_since_last_finalization t) (need_propagate_heartbeat t) (pc t) (consumed t) (output t).
Definition with_chunks (cs : list OutChunk) (t : Transform) : Transform :=
  mkTransform (variants t) (watermark t) (propagated_watermark t) (try_finalizing_watermark t) cs
    (rows_since_last_finalization t) (need_propagate_heartbeat t) (pc t) (consumed t) (output t).
Definition with_variants (v : Variants) (t : Transform) : Transform :=
  mkTransform v (watermark t) (propagated_watermark t) (try_finalizing_watermark t) (aggregated_chunks t)
    (rows_since_last_finalization t) (need_propagate_heartbeat t) (pc t) (consumed t) (output t).
Definition with_row_count (n : Z) (t : Transform) : Transform :=
  mkTransform (variants t) (watermark t) (propagated_watermark t) (try_finalizing_watermark t) (aggregated_chunks t)
    n (need_propagate_heartbeat t) (pc t) (consumed t) (output t).
Definition with_propagated (w : Z) (t : Transform) : Transform :=
  mkTransform (variants t) (watermark t) w (try_finalizing_watermark t) (aggregated_chunks t)
    (rows_since_last_finalization t) (need_propagate_heartbeat t) (pc t) (consumed t) (output t).

Definition on (i : nat) (f : Transform -> Transform) (s : ManyAggregatedData) : ManyAggregatedData :=
  mkMany (alter f i (transforms s)) (finalized_watermark s) (finalized_window_end s) (finalizing_mutex s).
Definition with_mutex (m : option nat) (s : ManyAggregatedData) : ManyAggregatedData :=
  mkMany (transforms s) (finalized_watermark s) (finalized_window_end s) m.

Definition hasAggregatedResult (t : Transform) : bool := match aggregated_chunks t with [] => false | _ => true end.

(** [hasNewData] *)
Definition hasNewData (s : ManyAggregatedData) : bool :=
  existsb (fun t => 0 <? rows_since_last_finalization t) (transforms s).

(** ** Consuming a chunk *)

(** [work] and [executeColumns], under the lock of the variants. *)
Definition consume (chunk : Chunk) (t : Transform) : Transform :=
  let rows := ck_rows chunk in
  mkTransform
    (match rows with [] => variants t | _ => executeOnBlock window_key other_keys rows (variants t) end)
    (watermark t) (propagated_watermark t) (try_finalizing_watermark t) (aggregated_chunks t)
    (rows_since_last_finalization t + Z.of_nat (length rows))
    (match rows with [] => true | _ => false end)
    (match ck_watermark chunk with Some w => Align w | None => Return false end)
    (consumed t ++ rows) (output t).

(** The least watermark of all transforms. *)
Definition min_watermark (ts : list Transform) : Z :=
  match ts with [] => INVALID_WATERMARK | t :: ts => foldl (fun m t => Z.min m (watermark t)) (watermark t) ts end.

(** The first part of [finalizeAlignment], under the lock of the watermarks. *)
Definition align (i : nat) (new_watermark : Z) (t : Transform) (s : ManyAggregatedData) : ManyAggregatedData :=
  let old := if watermark t =? TIMEOUT_WATERMARK then finalized_watermark s else watermark t in
  let s := on i (with_watermark old) s in
  if old <? new_watermark then
    let s := on i (with_watermark new_watermark) s in
    on i (with_try (Some (min_watermark (transforms s)))) s
  else if new_watermark <? old then s
  else on i (with_try (Some new_watermark)) s.

(** ** Finalization *)

(** A window that is not to be emitted. *)
Definition is_invalid_window (s : ManyAggregatedData) (min_wm : Z) (x : WindowWithBuckets) : bool :=
  (win_end (window x) <=? finalized_window_end s) ||
  (onlyEmitFinalizedWindows mode && (min_wm <? win_end (window x))).

Definition getLocalWindowsWithBuckets (t : Transform) : option (list WindowWithBuckets) := wf_windows ops (buckets (variants t)).

Definition needFinalization (s : ManyAggregatedData) (t : Transform) (min_wm : Z) : option bool :=
  if onlyEmitFinalizedWindows mode && (min_wm <=? finalized_watermark s) then Some false
  else
    ws ← getLocalWindowsWithBuckets t;
    Some (existsb (fun x => negb (is_invalid_window s min_wm x)) ws).

(** The checks of [prepareFinalization] before it looks at the shards. *)
Definition may_prepare (s : ManyAggregatedData) (min_wm : Z) : bool :=
  negb (onlyEmitFinalizedWindows mode && (min_wm <=? finalized_watermark s)) &&
  negb (bool_decide (mode = Periodic \/ mode = OnUpdateWithBatchInterval) && negb (repeat_emit || hasNewData s)).

(** The windows of one shard, added to the prepared ones; the first are taken as they are. *)
Definition prepare_shard (s : ManyAggregatedData) (min_wm : Z) (j : nat) (t : Transform) (prepared : list WindowWithBuckets)
  : option (list WindowWithBuckets) :=
  ws ← getLocalWindowsWithBuckets t;
  let ws := filter (fun x => is_invalid_window s min_wm x = false) ws in
  Some (match j with O => prepared ++ ws | S _ => foldl merge_window prepared ws end).

(** [reassignWindow] of the column to group by. *)
Definition reassignWindow (w : Window) (blk : Block) : Block :=
  (fun x => ((group_key (wf_is_start ops) w, x.1.2), x.2)) <$> blk.

(** The chunks of the prepared windows. *)
Fixpoint finalize_windows (many : list Variants) (ws : list WindowWithBuckets) : res (list Variants * list OutChunk) :=
  match ws with
  | [] => Ok (many, [])
  | x :: ws =>
      match mergeAndSpliceAndConvertToChunk many (window_buckets x) with
      | Ok (many, blk) =>
          let blk := if wf_reassign ops then reassignWindow (window x) blk else blk in
          match finalize_windows many ws with
          | Ok (many, cs) => Ok (many, match blk with [] => cs | _ => mkOutChunk blk None :: cs end)
          | e => e
          end
      | Err e => Err e
      | Exn e => Exn e
      | Undef => Undef
      end
  end.

(** The end of the last prepared window up to the watermark. *)
Definition last_window_end (finalized_watermark : Z) (ws : list WindowWithBuckets) : option Z :=
  last (filter (fun e => e <= finalized_watermark) ((fun x => win_end (window x)) <$> ws)).

(** The last chunk carries the watermark; there is one even without rows. *)
Definition set_last_watermark (w : Z) (cs : list OutChunk) : list OutChunk :=
  match last cs with
  | None => [mkOutChunk [] (Some w)]
  | Some c => removelast cs ++ [mkOutChunk (oc_rows c) (Some w)]
  end.

Definition zip_variants (vs : list Variants) (ts : list Transform) : list Transform :=
  zip_with (fun v t => with_row_count 0 (with_variants v t)) vs ts.

(** [finalize], under the locks of all variants; the conversion of updates only is left out. *)
Definition finalize (i : nat) (wm : Z) (ws : list WindowWithBuckets) (s : ManyAggregatedData) : res ManyAggregatedData :=
  if onlyEmitUpdates mode then Undef else
  match finalize_windows (variants <$> transforms s) ws with
  | Ok (many, cs) =>
      let window_end := default (finalized_window_end s) (last_window_end wm ws) in
      let wm := if wm =? TIMEOUT_WATERMARK then window_end else wm in
      Ok (on i (with_chunks (set_last_watermark wm cs)) (mkMany (zip_variants many (transforms s)) wm window_end (finalizing_mutex s)))
  | Err e => Err e
  | Exn e => Exn e
  | Undef => Undef
  end.

(** [propagateWatermarkAndClearExpiredStates] and [propagateHeartbeatChunk] *)
Definition propagate (s : ManyAggregatedData) (t : Transform) : option Transform :=
  t ←
    (if propagated_watermark t <? finalized_watermark s then
       expired ← wf_expired ops (finalized_watermark s);
       let t := if hasAggregatedResult t then t else with_chunks [mkOutChunk [] (Some (finalized_watermark s))] t in
       Some (with_propagated (finalized_watermark s) (with_variants (removeBucketsBefore expired (variants t)) t))
     else Some t);
  Some (if need_propagate_heartbeat t && negb (hasAggregatedResult t) then with_chunks [mkOutChunk [] None] t else t).

(** ** Actions *)

Inductive Action : Type :=
  | Consume (chunk : Chunk)    (** [work] on a chunk, up to the lock of the watermarks *)
  | Next                       (** on to the next lock *)
  | Push.                      (** [preparePushToOutput] *)

Definition of_option {A} (x : option A) : res A := match x with Some a => Ok a | None => Undef end.

(** What transform [i] does next, when it is in [finalizeAlignment]. *)
Definition check (i : nat) (again : bool) (t : Transform) (s : ManyAggregatedData) : res ManyAggregatedData :=
  match try_finalizing_watermark t with
  | None => Ok (on i (with_pc (Return again)) s)
  | Some w =>
      if hasAggregatedResult t then
        let cs := aggregated_chunks t in
        let cs := match last cs with
                  | Some (mkOutChunk _ None) => set_last_watermark w cs
                  | _ => cs
                  end in
        Ok (on i (fun t => with_pc (Return again) (with_try None (with_chunks cs t))) s)
      else
        match needFinalization s t w with
        | None => Undef
        | Some false => Ok (on i (fun t => with_pc (Return again) (with_try None t)) s)
        | Some true => Ok (on i (with_pc (Lock again)) s)
        end
  end.

Definition lock (i : nat) (again : bool) (t : Transform) (s : ManyAggregatedData) : res ManyAggregatedData :=
  match finalizing_mutex s, try_finalizing_watermark t with
  | Some _, _ => Ok (on i (with_pc (Return again)) s)
  | None, Some w =>
      if may_prepare s w then Ok (with_mutex (Some i) (on i (with_pc (Prepare again 0 [])) s))
      else Ok (on i (fun t => with_pc (Return again) (with_try None t)) s)
  | None, None => Undef
  end.

Definition prepare (i : nat) (again : bool) (j : nat) (prepared : list WindowWithBuckets) (t : Transform) (s : ManyAggregatedData)
  : res ManyAggregatedData :=
  match try_finalizing_watermark t, transforms s !! j with
  | None, _ => Undef
  | Some w, Some tj =>
      match prepare_shard s w j tj prepared with
      | None => Undef
      | Some prepared => Ok (on i (with_pc (Prepare again (S j) prepared)) s)
      end
  | Some w, None =>
      match prepared with
      | [] => Ok (with_mutex None (on i (fun t => with_pc (Return again) (with_try None t)) s))
      | _ =>
          let w := if w =? INVALID_WATERMARK then MIN_WATERMARK else w in
          Ok (on i (fun t => with_pc (Finalize again prepared) (with_try (Some w) t)) s)
      end
  end.

Definition next (i : nat) (t : Transform) (s : ManyAggregatedData) : res ManyAggregatedData :=
  match pc t with
  | Idle => Undef
  | Align w => Ok (on i (with_pc (Check false)) (align i w t s))
  | Check again => check i again t s
  | Lock again => lock i again t s
  | Prepare again j prepared => prepare i again j prepared t s
  | Finalize again ws =>
      match try_finalizing_watermark t with
      | None => Undef
      | Some w =>
          match finalize i w ws s with
          | Ok s => Ok (with_mutex None (on i (fun t => with_pc (Return again) (with_try None t)) s))
          | e => e
          end
      end
  | Return again =>
      if negb again && bool_decide (is_Some (try_finalizing_watermark t)) && negb (hasAggregatedResult t)
      then Ok (on i (with_pc (Check true)) s)
      else Ok (on i (with_pc Propagate) s)
  | Propagate =>
      match propagate s t with
      | None => Undef
      | Some t' => Ok (on i (fun _ => with_pc Idle t') s)
      end
  end.

(** An action that is not the transform's turn is [Undef]. *)
Definition act (i : nat) (a : Action) (s : ManyAggregatedData) : res ManyAggregatedData :=
  match transforms s !! i with
  | None => Undef
  | Some t =>
      match a, pc t, aggregated_chunks t with
      | Consume chunk, Idle, [] => Ok (on i (consume chunk) s)
      | Push, Idle, c :: cs =>
          Ok (on i (fun t =>
                mkTransform (variants t) (watermark t) (propagated_watermark t) (try_finalizing_watermark t) cs
                  (rows_since_last_finalization t) (need_propagate_heartbeat t) (pc t) (consumed t) (output t ++ [c])) s)
      | Next, _, _ => next i t s
      | _, _, _ => Undef
      end
  end.

(** A schedule of actions. *)
Fixpoint run (sched : list (nat * Action)) (s : ManyAggregatedData) : res ManyAggregatedData :=
  match sched with
  | [] => Ok s
  | (i, a) :: sched => match act i a s with Ok s => run sched s | e => e end
  end.

End WindowAggregating.
