(* ===== verification/WindowAggSpec.v ===== *)
(** * The windows that are prepared and converted

    Lemmas on the pieces of [WindowAggregating]: merging the windows of the shards, and
    converting prepared windows into chunks. *)

From stdpp Require Import gmap.
From S2P Require Import Prelude Ordered WindowHelpers WindowSpec TimeBuckets Aggregator WindowAggregating.

Local Open Scope Z_scope.

(** ** Unions of buckets *)

Lemma set_union_nil_l l : set_union [] l = l.
Proof. by destruct l. Qed.
Lemma set_union_nil_r l : set_union l [] = l.
Proof. by destruct l. Qed.
Lemma set_union_cons x l1 y l2 :
  set_union (x :: l1) (y :: l2) =
  if x <? y then x :: set_union l1 (y :: l2) else if y <? x then y :: set_union (x :: l1) l2 else x :: set_union l1 l2.
Proof. done. Qed.

Lemma elem_of_set_union l1 l2 b : b ∈ set_union l1 l2 <-> b ∈ l1 \/ b ∈ l2.
Proof.
  revert l2. induction l1 as [|x l1 IH1]; intros l2; [rewrite set_union_nil_l; set_solver|].
  induction l2 as [|y l2 IH2]; [rewrite set_union_nil_r; set_solver|]. rewrite set_union_cons.
  destruct (Z.ltb_spec x y); [|destruct (Z.ltb_spec y x)].
  - rewrite elem_of_cons, IH1. set_solver.
  - rewrite elem_of_cons, IH2. set_solver.
  - assert (x = y) as -> by lia. rewrite elem_of_cons, IH1. set_solver.
Qed.

Lemma set_union_sorted l1 l2 : StronglySorted Z.lt l1 -> StronglySorted Z.lt l2 -> StronglySorted Z.lt (set_union l1 l2).
Proof.
  intros H1. revert l2. induction H1 as [|x l1 H1 IH1 Hx]; intros l2 H2; [by rewrite set_union_nil_l|].
  induction H2 as [|y l2 H2 IH2 Hy]; [rewrite set_union_nil_r; by constructor|]. rewrite set_union_cons.
  rewrite Forall_forall in Hx, Hy.
  destruct (Z.ltb_spec x y); [|destruct (Z.ltb_spec y x)]; constructor.
  - apply IH1. constructor; [done|by apply Forall_forall].
  - apply Forall_forall. intros b [Hb|[->|Hb]%elem_of_cons]%elem_of_set_union; [by apply Hx|done|specialize (Hy b Hb); lia].
  - apply IH2.
  - apply Forall_forall. intros b [[->|Hb]%elem_of_cons|Hb]%elem_of_set_union; [done|specialize (Hx b Hb); lia|by apply Hy].
  - by apply IH1.
  - apply Forall_forall. intros b [Hb|Hb]%elem_of_set_union; [by apply Hx|specialize (Hy b Hb); lia].
Qed.

(** ** Merging a window *)

Lemma merge_window_elem ws x y :
  y ∈ merge_window ws x ->
  y ∈ ws \/ y = x \/ exists z, z ∈ ws /\ win_end (window z) = win_end (window x) /\
    y = mkWindowWithBuckets (window z) (set_union (window_buckets z) (window_buckets x)).
Proof.
  induction ws as [|z ws IH]; cbn [merge_window]; [intros ->%list_elem_of_singleton; auto|].
  destruct (Z.eqb_spec (win_end (window z)) (win_end (window x))) as [He|He].
  - intros [->|Hy]%elem_of_cons; [right; right; exists z; split; [by left|done]|left; by right].
  - destruct (Z.ltb_spec (win_end (window x)) (win_end (window z))).
    + intros [->|Hy]%elem_of_cons; auto.
    + intros [->|Hy]%elem_of_cons; [left; by left|]. apply IH in Hy as [Hy|[->|(u & Hu & Hr)]]; [left; by right|auto|].
      right; right. exists u. split; [by right|done].
Qed.

Lemma merge_window_sorted ws x : StronglySorted ends_before ws -> StronglySorted ends_before (merge_window ws x).
Proof.
  induction 1 as [|z ws Hs IH Hz]; cbn [merge_window]; [repeat constructor|].
  destruct (Z.eqb_spec (win_end (window z)) (win_end (window x))) as [He|He]; [by constructor|].
  rewrite Forall_forall in Hz. destruct (Z.ltb_spec (win_end (window x)) (win_end (window z))).
  - constructor; [constructor; [done|by apply Forall_forall]|]. constructor; [done|]. apply Forall_forall. intros y Hy.
    specialize (Hz y Hy). unfold ends_before in *. lia.
  - constructor; [done|]. apply Forall_forall. intros y Hy. unfold ends_before in *.
    apply merge_window_elem in Hy as [Hy|[->|(u & Hu & _ & ->)]]; [exact (Hz y Hy)|lia|exact (Hz u Hu)].
Qed.

(** What was there stays, perhaps with more buckets. *)
Lemma merge_window_keeps ws x y :
  y ∈ ws -> exists bs, mkWindowWithBuckets (window y) bs ∈ merge_window ws x /\ forall b, b ∈ window_buckets y -> b ∈ bs.
Proof.
  induction ws as [|z ws IH]; [by intros ?%not_elem_of_nil|]. cbn [merge_window]. intros Hy.
  assert (Hsame : forall l : list WindowWithBuckets, y ∈ l -> exists bs, mkWindowWithBuckets (window y) bs ∈ l /\ forall b, b ∈ window_buckets y -> b ∈ bs)
    by (intros l Hl; exists (window_buckets y); split; [by destruct y|done]).
  destruct (Z.eqb_spec (win_end (window z)) (win_end (window x))) as [He|He].
  - apply elem_of_cons in Hy as [->|Hy].
    + eexists. split; [by left|]. intros b Hb. apply elem_of_set_union. by left.
    + apply Hsame. by right.
  - destruct (Z.ltb_spec (win_end (window x)) (win_end (window z))); [apply Hsame; by right|].
    apply elem_of_cons in Hy as [->|Hy]; [apply Hsame; by left|]. destruct (IH Hy) as (bs & Hbs & Hsub).
    exists bs. split; [by right|done].
Qed.

Lemma merge_window_adds ws x :
  exists w bs, mkWindowWithBuckets w bs ∈ merge_window ws x /\ win_end w = win_end (window x) /\
    forall b, b ∈ window_buckets x -> b ∈ bs.
Proof.
  induction ws as [|z ws IH]; cbn [merge_window].
  { exists (window x), (window_buckets x). split; [destruct x; by left|done]. }
  destruct (Z.eqb_spec (win_end (window z)) (win_end (window x))) as [He|He].
  - eexists _, _. split; [by left|]. split; [done|]. intros b Hb. apply elem_of_set_union. by right.
  - destruct (Z.ltb_spec (win_end (window x)) (win_end (window z))).
    + exists (window x), (window_buckets x). split; [destruct x; by left|done].
    + destruct IH as (w & bs & Hin & Hr). exists w, bs. split; [by right|done].
Qed.

(** A window is prepared once. *)
Lemma ends_before_inj ws w bs w' bs' :
  StronglySorted ends_before ws -> mkWindowWithBuckets w bs ∈ ws -> mkWindowWithBuckets w' bs' ∈ ws ->
  win_end w = win_end w' -> w = w' /\ bs = bs'.
Proof.
  intros Hs Hi Hj He. apply list_elem_of_lookup in Hi as [i Hi], Hj as [j Hj].
  assert (i = j) as ->.
  { destruct (lt_eq_lt_dec i j) as [[Hlt|?]|Hlt]; [|done|].
    - pose proof (sorted_lookup _ _ _ _ _ _ Hs Hlt Hi Hj) as Hb. unfold ends_before in Hb. cbn in Hb. lia.
    - pose proof (sorted_lookup _ _ _ _ _ _ Hs Hlt Hj Hi) as Hb. unfold ends_before in Hb. cbn in Hb. lia. }
  rewrite Hi in Hj. by injection Hj as <- <-.
Qed.

(** ** The chunks of prepared windows *)

Section Finalize.
Context {Row St Res K : Type} `{Countable K} `{!AggregateOps Row St Res} `{!AggregateFunction Row St Res}.
Context (row_time : Row -> Z) (other_keys : Row -> K) (ops : WindowOps).
Local Abbreviation wkey := (window_key row_time ops).
Local Abbreviation Variants := (@Variants St K _ _).
Local Abbreviation rep := (rep wkey other_keys).

Definition window_column (w : Window) : Z := group_key (wf_is_start ops) w.

(** The key that a block has for a window, before it is reassigned or for good. *)
Definition block_column (x : WindowWithBuckets) : Z :=
  if wf_reassign ops then window_column (window x) else match window_buckets x with [b] => b | _ => 0 end.

(** The result of the rows of some buckets and a key. *)
Definition group_result (bs : list Z) (k : K) (rows : list Row) : option Res :=
  agg_opt (filter (fun r => wkey r ∈ bs /\ other_keys r = k) rows).

Definition block_ok (rows : list Row) (x : WindowWithBuckets) (blk : list (Z * K * Res)) : Prop :=
  NoDup blk.*1 /\
  forall c k y, ((c, k), y) ∈ blk <-> c = block_column x /\ group_result (window_buckets x) k rows = Some y.

Lemma convert_block bs tab rows :
  repr (spliced_key other_keys bs) tab (filter (fun r => wkey r ∈ bs) rows) ->
  let blk := convertOneBucketToBlockImpl tab in
  NoDup blk.*1 /\
  forall c k y, ((c, k), y) ∈ blk <-> c = match bs with [b] => b | _ => 0 end /\ group_result bs k rows = Some y.
Proof.
  intros Hr. cbn zeta. unfold convertOneBucketToBlockImpl. split; [apply NoDup_fst_map_to_list|]. intros c k y.
  rewrite elem_of_map_to_list, lookup_fmap, (group_state_result _ _ (Hr (c, k))), list_filter_filter. unfold spliced_key, group_result.
  destruct (decide (c = match bs with [b] => b | _ => 0 end)) as [->|Hne].
  - erewrite list_filter_iff; [split; [intros Hx; split; [done|exact Hx]|by intros [_ Hx]]|].
    intros r. cbn. split; [intros [[= ->] ?]; done|intros [? ->]; done].
  - rewrite filter_none; [cbn; naive_solver|]. apply Forall_forall. intros r _ [[= <- <-] _]. done.
Qed.

Lemma reassign_block x rows blk :
  (NoDup blk.*1 /\
   forall c k y, ((c, k), y) ∈ blk <->
     c = match window_buckets x with [b] => b | _ => 0 end /\ group_result (window_buckets x) k rows = Some y) ->
  block_ok rows x (if wf_reassign ops then reassignWindow ops (window x) blk else blk).
Proof.
  unfold block_ok, block_column. destruct (wf_reassign ops); [|done]. intros [Hnd Hin]. unfold reassignWindow. split.
  - rewrite <- list_fmap_compose. assert (Hc : Forall (fun e => e.1.1 = match window_buckets x with [b] => b | _ => 0 end) blk)
      by (apply Forall_forall; intros [[c k] y] He; by apply Hin in He as [-> _]).
    clear Hin. induction blk as [|[[c k] y] blk IH]; [constructor|]. apply Forall_cons in Hc as [Hc1 Hc]. cbn in *.
    apply NoDup_cons in Hnd as [Hni Hnd]. constructor; [|by apply IH]. intros ([[c' k'] y'] & [= <-] & He)%list_elem_of_fmap.
    apply Hni. apply list_elem_of_fmap. exists (c', k, y'). split; [|done]. rewrite Forall_forall in Hc. specialize (Hc _ He). cbn in *. congruence.
  - intros c k y. rewrite list_elem_of_fmap. unfold window_column. split.
    + intros ([[c' k'] y'] & [= -> -> ->] & He). apply Hin in He as [_ He]. done.
    + intros [-> Hg]. eexists (_, k, y). split; [done|]. by apply Hin.
Qed.

(** The variants may have got buckets of the prepared windows. *)
Definition touched_by (ws : list WindowWithBuckets) (v v' : Variants) : Prop :=
  initialized v' = initialized v /\
  forall b, b ∈ buckets v' -> b ∈ buckets v \/ exists x, x ∈ ws /\ b ∈ window_buckets x.

Lemma finalize_windows_spec ws many rowss :
  Forall2 rep many rowss -> Exists (fun v => initialized v = true) many ->
  Forall (fun x => NoDup (window_buckets x) /\ 0 ∉ window_buckets x) ws ->
  exists many' cs blks, finalize_windows ops many ws = Ok (many', cs) /\ Forall2 rep many' rowss /\
    Forall2 (touched_by ws) many many' /\ Forall2 (block_ok (concat rowss)) ws blks /\
    concat (oc_rows <$> cs) = concat blks.
Proof.
  intros Hvs Hex Hall. revert many Hvs Hex. induction Hall as [|x ws [Hnd H0] _ IH]; intros many Hvs Hex.
  { exists many, [], []. split; [done|]. split; [done|]. split; [|done]. clear. induction many; constructor; [split; auto|done]. }
  cbn [finalize_windows].
  destruct (mergeAndSpliceAndConvertToChunk_spec wkey other_keys many rowss (window_buckets x) Hvs Hex Hnd H0)
    as (many1 & tab & -> & Hrep1 & Ht1 & Htab). cbn beta iota.
  destruct (IH many1 Hrep1) as (many2 & cs & blks & -> & Hrep2 & Ht2 & Hblks & Hcs).
  { clear -Hex Ht1. induction Ht1 as [|v v' many many' [Hi _] _ IH]; [done|].
    apply Exists_cons in Hex as [Hv|Hex]; [left; congruence|right; auto]. }
  pose proof (reassign_block x (concat rowss) _ (convert_block _ _ _ Htab)) as Hblk.
  set (blk := if wf_reassign ops then _ else _) in *. eexists _, _, (blk :: blks). split; [done|]. split; [done|].
  split; [|split; [by constructor|]].
  - clear -Ht1 Ht2. revert many2 Ht2. induction Ht1 as [|v v' many many' [Hi Hb] _ IH]; intros many2 Ht2; inversion Ht2 as [|? v2 ? ? [Hi2 Hb2] Ht2']; subst; constructor; [|by apply IH].
    split; [congruence|]. intros b Hb'. apply Hb2 in Hb' as [Hb'|(y & Hy & Hb')]; [|right; exists y; split; [by right|done]].
    apply Hb in Hb' as [Hb'|Hb']; [by left|]. right. exists x. split; [by left|done].
  - cbn [concat]. rewrite <- Hcs. by destruct blk.
Qed.
End Finalize.
