(* ===== verification/WindowAggInv.v ===== *)
(** * The invariant of aggregation over windows

    For the mode that emits windows when they close: what holds between any two actions of
    the transforms of [WindowAggregating], when their chunks come from a watermark
    transform.  [Inv] says that the rows in the output are the results of windows, each of
    all rows that were consumed, that no window is emitted twice, and that none is missing
    up to the finalized watermark. *)

From stdpp Require Import gmap.
From S2P Require Import Prelude Ordered WindowHelpers WindowSpec TimeBuckets Aggregator WindowAggregating WindowAggSpec.

Local Open Scope Z_scope.

#[export] Instance covers_dec w t : Decision (covers w t).
Proof. unfold covers. apply _. Defined.

Section Invariant.
Context {Row St Res K : Type} `{Countable K} `{!AggregateOps Row St Res} `{!AggregateFunction Row St Res}.
Context (row_time : Row -> Z) (other_keys : Row -> K) (ops : WindowOps).
Context (usable : Z -> Prop) (is_window : Window -> Prop) `{!WindowFunction ops usable is_window}.
Context (repeat_emit : bool).

Local Abbreviation wkey := (window_key row_time ops).
Local Abbreviation Transform := (@Transform Row St Res K _ _).
Local Abbreviation Many := (@ManyAggregatedData Row St Res K _ _).
Local Abbreviation act := (act (St := St) (Res := Res) row_time other_keys ops AfterWindowClose repeat_emit).
Local Abbreviation Variants := (@Variants St K _ _).
Local Abbreviation rep := (rep wkey other_keys).

(** ** Rows and results *)

(** The bucket up to which everything is removed at a watermark. *)
Definition horizon (p : Z) : option Z := if p =? INVALID_WATERMARK then None else wf_expired ops p.
Definition live (p : Z) (r : Row) : bool := match horizon p with None => true | Some x => x <? wkey r end.
Definition live_rows (p : Z) (rows : list Row) : list Row := filter (fun r => live p r = true) rows.
Local Arguments live_rows : simpl never.

Definition all_rows (s : Many) : list Row := concat (consumed <$> transforms s).
Definition rows_out (t : Transform) : list (Z * K * Res) := concat (oc_rows <$> (output t ++ aggregated_chunks t)).
Definition all_out (s : Many) : list (Z * K * Res) := concat (rows_out <$> transforms s).

(** The result of the rows of a window and a key. *)
Definition window_result (w : Window) (k : K) (rows : list Row) : option Res :=
  agg_opt (filter (fun r => covers w (row_time r) /\ other_keys r = k) rows).

(** ** The invariant *)

Definition valid_or_usable (w : Z) : Prop := w = INVALID_WATERMARK \/ usable w.
Definition real_bucket (b : Z) : Prop := exists t, usable t /\ b = wf_bucket ops t.

(** A prepared window, between the last window end and the watermark. *)
Definition entry_ok (e w : Z) (x : WindowWithBuckets) : Prop :=
  is_window (window x) /\ e < win_end (window x) <= w /\ StronglySorted Z.lt (window_buckets x) /\ window_buckets x <> [] /\
  Forall (fun b => real_bucket b /\ bucket_in (window x) b) (window_buckets x).

(** [ws] has the buckets of the transforms [ts]. *)
Definition has_buckets (e w : Z) (ts : list Transform) (ws : list WindowWithBuckets) : Prop :=
  forall t b x, t ∈ ts -> b ∈ buckets (variants t) -> is_window x -> bucket_in x b -> e < win_end x <= w ->
  exists bs, mkWindowWithBuckets x bs ∈ ws /\ b ∈ bs.

Definition prepared_ok (s : Many) (w : Z) (ts : list Transform) (ws : list WindowWithBuckets) : Prop :=
  StronglySorted ends_before ws /\ Forall (entry_ok (finalized_window_end s) w) ws /\
  has_buckets (finalized_window_end s) w ts ws /\
  (ws <> [] -> exists t, t ∈ transforms s /\ initialized (variants t) = true).

Definition pc_ok (s : Many) (i : nat) (t : Transform) : Prop :=
  match pc t with
  | Align w => usable w /\ watermark t < w
  | Lock _ => aggregated_chunks t = [] /\ is_Some (try_finalizing_watermark t)
  | Prepare _ j ws =>
      finalizing_mutex s = Some i /\ aggregated_chunks t = [] /\ (j = 0%nat -> ws = []) /\
      exists w, try_finalizing_watermark t = Some w /\ finalized_watermark s < w /\ prepared_ok s w (take j (transforms s)) ws
  | Finalize _ ws =>
      finalizing_mutex s = Some i /\ aggregated_chunks t = [] /\ ws <> [] /\
      exists w, try_finalizing_watermark t = Some w /\ finalized_watermark s < w /\ prepared_ok s w (transforms s) ws
  | _ => True
  end.

Definition try_ok (s : Many) (t : Transform) : Prop :=
  forall w, try_finalizing_watermark t = Some w -> valid_or_usable w /\ forall t', t' ∈ transforms s -> w <= watermark t'.

Record tinv (s : Many) (i : nat) (t : Transform) : Prop := {
  t_rows : Forall (fun r => usable (row_time r)) (consumed t);
  t_watermark : valid_or_usable (watermark t) /\ finalized_watermark s <= watermark t;
  t_propagated : valid_or_usable (propagated_watermark t) /\ propagated_watermark t <= finalized_watermark s;
  t_rep : rep (variants t) (live_rows (propagated_watermark t) (consumed t));
  t_buckets : Forall real_bucket (buckets (variants t));
  t_try : try_ok s t;
  t_pc : pc_ok s i t;
}.

Record Inv (s : Many) : Prop := {
  inv_transforms : forall i t, transforms s !! i = Some t -> tinv s i t;
  inv_watermark : valid_or_usable (finalized_watermark s) /\ finalized_window_end s <= finalized_watermark s;
  inv_once : NoDup (all_out s).*1;
  inv_sound : forall c k y, ((c, k), y) ∈ all_out s ->
    exists w, is_window w /\ window_column ops w = c /\ win_end w <= finalized_window_end s /\
      window_result w k (all_rows s) = Some y;
  inv_complete : forall w r, is_window w -> r ∈ all_rows s -> covers w (row_time r) ->
    win_end w <= finalized_watermark s -> (window_column ops w, other_keys r) ∈ (all_out s).*1;
}.

(** ** Live rows *)

Lemma live_INVALID rows : live_rows INVALID_WATERMARK rows = rows.
Proof. apply filter_all, Forall_forall. done. Qed.

Lemma usable_not_INVALID p : usable p -> p <> INVALID_WATERMARK.
Proof. intros Hp. pose proof (usable_valid p Hp). unfold INVALID_WATERMARK, MIN_WATERMARK in *. lia. Qed.

Lemma horizon_usable p : usable p -> exists x, wf_expired ops p = Some x /\ horizon p = Some x.
Proof.
  intros Hp. unfold horizon. rewrite (proj2 (Z.eqb_neq _ _)) by by apply usable_not_INVALID.
  destruct (expired_spec p Hp) as (x & -> & _). eauto.
Qed.

(** The rows that were removed are in windows that are over only. *)
Lemma dead_spec p r :
  usable p -> usable (row_time r) ->
  live p r = false <-> forall w, is_window w -> covers w (row_time r) -> win_end w <= p.
Proof.
  intros Hp Hr. destruct (horizon_usable p Hp) as (x & He & Hh). unfold live. rewrite Hh, Z.ltb_ge.
  destruct (expired_spec p Hp) as (x' & He' & Hx). rewrite He in He'. injection He' as <-. by apply Hx.
Qed.

Lemma live_new p r : valid_or_usable p -> usable (row_time r) -> p <= row_time r -> live p r = true.
Proof.
  intros [->|Hp] Hr Hle; [done|]. destruct (live p r) eqn:Hl; [done|]. rewrite dead_spec in Hl by done.
  destruct (window_exists (row_time r) Hr) as (w & Hw & Hc). specialize (Hl w Hw Hc). unfold covers in Hc. lia.
Qed.

(** Removing at a later watermark removes what was removed before. *)
Lemma live_mono p p' r : valid_or_usable p -> usable p' -> usable (row_time r) -> p <= p' -> live p' r = true -> live p r = true.
Proof.
  intros [->|Hp] Hp' Hr Hle; [done|]. intros Hl'. destruct (live p r) eqn:Hl; [done|]. rewrite dead_spec in Hl by done.
  assert (live p' r = false); [|congruence]. apply dead_spec; [done|done|]. intros w Hw Hc. specialize (Hl w Hw Hc). lia.
Qed.

Lemma live_rows_later p p' rows :
  valid_or_usable p -> usable p' -> p <= p' -> Forall (fun r => usable (row_time r)) rows ->
  filter (fun r => live p' r = true) (live_rows p rows) = live_rows p' rows.
Proof.
  intros Hp Hp' Hle Hu. unfold live_rows. rewrite list_filter_filter. apply filter_iff_Forall. eapply Forall_impl; [exact Hu|].
  intros r Hr. split; [tauto|]. intros Hl. split; [done|]. by apply (live_mono p p').
Qed.

(** ** Steps of one transform *)

Lemma all_rows_insert (ts : list Transform) i t t' new :
  ts !! i = Some t -> consumed t' = consumed t ++ new ->
  concat (consumed <$> <[i := t']> ts) ≡ₚ concat (consumed <$> ts) ++ new.
Proof.
  intros Hi Hc. rewrite list_fmap_insert, Hc. revert i Hi. induction ts as [|a ts IH]; intros [|i] Hi; [done..| |]; cbn in *.
  - injection Hi as ->. rewrite <- !app_assoc. f_equiv. apply Permutation_app_comm.
  - rewrite (IH i) by done. by rewrite app_assoc.
Qed.

Lemma elem_of_insert_inv {A} (l : list A) i x y : y ∈ <[i := x]> l -> y = x \/ y ∈ l.
Proof.
  intros [j Hj]%list_elem_of_lookup. apply list_lookup_insert_Some in Hj as [(_ & <- & _)|[_ Hj]]; [by left|].
  right. apply list_elem_of_lookup. by exists j.
Qed.

Lemma fmap_insert_same {A B} (f : A -> B) (l : list A) i x y : l !! i = Some x -> f y = f x -> f <$> <[i := y]> l = f <$> l.
Proof. intros Hi Hf. rewrite list_fmap_insert, Hf. apply list_insert_id. by rewrite list_lookup_fmap, Hi. Qed.

(** Rows that no window of the output covers do not change the results. *)
Lemma window_result_new w k rows rows' new :
  rows' ≡ₚ rows ++ new -> Forall (fun r => win_end w <= row_time r) new -> window_result w k rows' = window_result w k rows.
Proof.
  intros Hp Hn. unfold window_result. rewrite (agg_opt_perm _ (filter (fun r => covers w (row_time r) /\ other_keys r = k) (rows ++ new)))
    by by rewrite Hp. rewrite filter_app, (filter_none _ new), app_nil_r; [done|].
  eapply Forall_impl; [exact Hn|]. intros r Hr [Hc _]. unfold covers in Hc. cbn in Hr. lia.
Qed.

(** A transform in its critical section is not affected by another one. *)
Lemma has_buckets_insert e w (ts : list Transform) i t t' new ws :
  ts !! i = Some t -> w <= watermark t ->
  Forall (fun r => usable (row_time r) /\ watermark t <= row_time r) new ->
  (forall b, b ∈ buckets (variants t') -> b ∈ buckets (variants t) \/ exists r, r ∈ new /\ b = wkey r) ->
  has_buckets e w ts ws -> has_buckets e w (<[i := t']> ts) ws.
Proof.
  intros Hi Hw Hn Hb Hh u b x Hu Hbu Hx Hin He. apply elem_of_insert_inv in Hu as [->|Hu]; [|by apply (Hh u b x)].
  apply Hb in Hbu as [Hbu|(r & Hr & ->)]; [by apply (Hh t b x); [apply list_elem_of_lookup; exists i|..]|].
  rewrite Forall_forall in Hn. destruct (Hn r Hr) as [Hur Hwr]. apply bucket_in_spec in Hin; [|done|done]. unfold covers in Hin. lia.
Qed.

(** The state after an action of transform [i] that is not a finalization. *)
Definition after (s : Many) (i : nat) (t' : Transform) (m : option nat) : Many :=
  mkMany (<[i := t']> (transforms s)) (finalized_watermark s) (finalized_window_end s) m.

(** What the others rely on. *)
Record local_step (t t' : Transform) (new : list Row) : Prop := {
  ls_consumed : consumed t' = consumed t ++ new;
  ls_new : Forall (fun r => usable (row_time r) /\ watermark t <= row_time r) new;
  ls_watermark : watermark t <= watermark t';
  ls_out : rows_out t' = rows_out t;
  ls_initialized : initialized (variants t) = true -> initialized (variants t') = true;
  ls_buckets : forall b, b ∈ buckets (variants t') -> b ∈ buckets (variants t) \/ exists r, r ∈ new /\ b = wkey r;
}.

Lemma prepared_ok_local s i t t' new m w ts ws n :
  transforms s !! i = Some t -> local_step t t' new -> w <= watermark t -> ts = take n (transforms s) ->
  prepared_ok s w ts ws -> prepared_ok (after s i t' m) w (take n (transforms (after s i t' m))) ws.
Proof.
  intros Hi Hl Hw -> (Hs & He & Hh & Hex). split; [done|]. split; [done|]. split.
  - cbn. destruct (decide (n <= i)%nat) as [Hn|Hn]; [by rewrite take_insert_ge by lia|]. rewrite take_insert_lt by lia. eapply has_buckets_insert; [by rewrite lookup_take_lt by lia|done|apply Hl..|done].
  - intros Hne. destruct (Hex Hne) as (u & Hu & Hui). apply list_elem_of_lookup in Hu as [j Hj]. cbn.
    destruct (decide (i = j)) as [->|Hij].
    + exists t'. split; [|rewrite Hi in Hj; injection Hj as ->; by apply (ls_initialized _ _ _ Hl)].
      apply list_elem_of_lookup. exists j. apply list_lookup_insert_eq. by eapply lookup_lt_Some.
    + exists u. split; [|done]. apply list_elem_of_lookup. exists j. by rewrite list_lookup_insert_ne.
Qed.

Lemma tinv_other s i t t' new m j u :
  transforms s !! i = Some t -> local_step t t' new -> j <> i ->
  (m = finalizing_mutex s \/ finalizing_mutex s = None \/ finalizing_mutex s = Some i) ->
  tinv s j u -> tinv (after s i t' m) j u.
Proof.
  intros Hi Hl Hj Hm [H1 H2 H3 H4 H5 H6 H7]. assert (Ht : t ∈ transforms s) by (apply list_elem_of_lookup; by exists i).
  split; [done..| |].
  - intros w Hw. destruct (H6 w Hw) as [Hv Hle]. split; [done|]. intros v [->|Hv']%elem_of_insert_inv; [|by apply Hle].
    pose proof (ls_watermark _ _ _ Hl). specialize (Hle t Ht). lia.
  - unfold pc_ok in *. destruct (pc u); try done.
    + destruct H7 as (Hmu & Ha & Hz & w & Hw & Hf & Hp). split; [cbn; destruct Hm as [->|[Hm|Hm]]; congruence|]. split; [done|]. split; [done|].
      exists w. split; [done|]. split; [done|]. eapply prepared_ok_local; try done. by apply H6.
    + destruct H7 as (Hmu & Ha & Hz & w & Hw & Hf & Hp). split; [cbn; destruct Hm as [->|[Hm|Hm]]; congruence|]. split; [done|]. split; [done|].
      exists w. split; [done|]. split; [done|]. rewrite <- (firstn_all (transforms s)) in Hp.
      pose proof (prepared_ok_local s i t t' new m w _ _ _ Hi Hl (proj2 (H6 w Hw) t Ht) eq_refl Hp) as Hp'.
      replace (take (length (transforms s)) (transforms (after s i t' m))) with (transforms (after s i t' m)) in Hp'; [done|].
      symmetry. apply take_ge. cbn. by rewrite length_insert.
Qed.

Lemma Inv_local s i t t' new m :
  Inv s -> transforms s !! i = Some t -> local_step t t' new ->
  (m = finalizing_mutex s \/ finalizing_mutex s = None \/ finalizing_mutex s = Some i) ->
  tinv (after s i t' m) i t' -> Inv (after s i t' m).
Proof.
  intros [H1 H2 H3 H4 H5] Hi Hl Hm Ht'. destruct (t_watermark _ _ _ (H1 i t Hi)) as [_ HF].
  assert (Hrows : all_rows (after s i t' m) ≡ₚ all_rows s ++ new) by by apply (all_rows_insert _ _ t), Hl.
  assert (Hout : all_out (after s i t' m) = all_out s) by (unfold all_out; cbn; f_equal; by apply (fmap_insert_same _ _ _ t), Hl).
  pose proof (ls_new _ _ _ Hl) as Hn. split; rewrite ?Hout; [| done | done | |].
  - intros j u Hu. cbn in Hu. apply list_lookup_insert_Some in Hu as [(-> & <- & _)|[Hj Hu]]; [done|].
    apply (tinv_other _ _ t _ new); try done. by apply H1.
  - intros c k y Hy. destruct (H4 c k y Hy) as (w & Hw & Hc & He & Hr). exists w. split; [done|]. split; [done|]. split; [done|].
    rewrite (window_result_new _ _ (all_rows s) _ new); [done|done|]. eapply Forall_impl; [exact Hn|]. cbn. lia.
  - intros w r Hw Hr Hc He. rewrite Hrows, elem_of_app in Hr. destruct Hr as [Hr|Hr]; [by apply H5|].
    rewrite Forall_forall in Hn. destruct (Hn r Hr) as [_ Hwr]. unfold covers in Hc. cbn in He. lia.
Qed.

Lemma list_alter_insert {A} (f : A -> A) (l : list A) i x : l !! i = Some x -> alter f i l = <[i := f x]> l.
Proof. revert i. induction l as [|y l IH]; intros [|i] Hi; try done; cbn in *; [by injection Hi as ->|]. f_equal. by apply IH. Qed.

Lemma on_after s i t f : transforms s !! i = Some t -> on i f s = after s i (f t) (finalizing_mutex s).
Proof. intros Hi. unfold on, after. by rewrite (list_alter_insert f _ _ t). Qed.

Lemma on_on i f g (s : Many) : on i f (on i g s) = on i (fun t => f (g t)) s.
Proof. unfold on. cbn. f_equal. apply (list_alter_alter_eq f g). Qed.

Lemma set_last_rows w (cs : list (OutChunk (K := K) (Res := Res))) : concat (oc_rows <$> set_last_watermark w cs) = concat (oc_rows <$> cs).
Proof.
  unfold set_last_watermark. destruct (last cs) as [c|] eqn:Hl; [|by apply last_None in Hl as ->].
  apply last_Some in Hl as [l ->]. rewrite removelast_last, !fmap_app. done.
Qed.

(** A step that changes neither rows nor watermarks. *)
Record control_step (t t' : Transform) : Prop := {
  cs_consumed : consumed t' = consumed t;
  cs_watermark : watermark t' = watermark t;
  cs_propagated : propagated_watermark t' = propagated_watermark t;
  cs_variants : variants t' = variants t;
  cs_out : rows_out t' = rows_out t;
  cs_try : try_finalizing_watermark t' = try_finalizing_watermark t \/ try_finalizing_watermark t' = None;
}.

Lemma control_local t t' : control_step t t' -> local_step t t' [].
Proof.
  intros [H1 H2 H3 H4 H5 H6]. split; [by rewrite app_nil_r|constructor|by rewrite H2|done|by rewrite H4|rewrite H4; auto].
Qed.

Lemma Inv_control s i t t' m :
  Inv s -> transforms s !! i = Some t -> control_step t t' ->
  (m = finalizing_mutex s \/ finalizing_mutex s = None \/ finalizing_mutex s = Some i) ->
  pc_ok (after s i t' m) i t' -> Inv (after s i t' m).
Proof.
  intros HI Hi Hc Hm Hpc. eapply Inv_local; [done|done|by apply control_local|done|].
  destruct (inv_transforms _ HI i t Hi) as [H1 H2 H3 H4 H5 H6 _]. pose proof Hc as [C1 C2 C3 C4 C5 C6].
  split; rewrite ?C1, ?C2, ?C3, ?C4; try done. intros w Hw. destruct C6 as [C6|C6]; [|congruence].
  rewrite C6 in Hw. destruct (H6 w Hw) as [Hv Hle]. split; [done|]. intros u [->|Hu]%elem_of_insert_inv; [|by apply Hle].
  rewrite C2. apply Hle, list_elem_of_lookup. by exists i.
Qed.

(** ** Consuming *)

Lemma buckets_execute rows (v : Variants) b :
  b ∈ buckets (executeOnBlock wkey other_keys rows v) -> TimeBuckets.wf (data v) -> b ∈ buckets v \/ exists r, r ∈ rows /\ b = wkey r.
Proof.
  unfold buckets, executeOnBlock. cbn [initialized data]. intros Hb Hw.
  assert (Hd : forall d, TimeBuckets.wf d -> b ∈ TimeBuckets.buckets (executeImplBatch wkey other_keys rows d) ->
    b ∈ TimeBuckets.buckets d \/ exists r, r ∈ rows /\ b = wkey r).
  { clear. unfold executeImplBatch. induction rows as [|r rows IH]; intros d Hd Hb; [by left|]. cbn [foldl] in Hb.
    apply IH in Hb as [Hb|(r' & Hr' & ->)]; [|right; exists r'; split; [by right|done]|by apply TimeBuckets.wf_emplace].
    apply TimeBuckets.elem_of_buckets_emplace in Hb as [->|Hb]; [right; exists r; split; [by left|done]|by left|done]. }
  destruct (initialized v); [by apply Hd|]. apply Hd in Hb as [Hb|Hb]; [by apply not_elem_of_nil in Hb|by right|apply TimeBuckets.wf_create].
Qed.

(** What a watermark transform gives to a transform. *)
Definition admissible (t : Transform) (chunk : Chunk (Row := Row)) : Prop :=
  Forall (fun r => usable (row_time r) /\ watermark t <= row_time r) (ck_rows chunk) /\
  forall w, ck_watermark chunk = Some w -> usable w /\ watermark t < w.

Lemma consume_Inv s i t chunk :
  Inv s -> transforms s !! i = Some t -> admissible t chunk -> Inv (on i (consume row_time other_keys ops chunk) s).
Proof.
  intros HI Hi [Hrows Hwm]. rewrite (on_after _ _ t) by done. pose proof (inv_transforms _ HI i t Hi) as [H1 H2 H3 H4 H5 H6 _].
  set (t' := consume row_time other_keys ops chunk t).
  assert (Hl : local_step t t' (ck_rows chunk)).
  { split; [done|done|done|done| |]; unfold t', consume; cbn; destruct (ck_rows chunk) as [|r rows] eqn:Hck; auto.
    intros b Hb. apply buckets_execute in Hb; [done|apply H4]. }
  eapply Inv_local; [done|done|exact Hl|by left|]. split; try done.
  - apply Forall_app. split; [done|]. eapply Forall_impl; [exact Hrows|]. by intros r [? _].
  - assert (Hlive : live_rows (propagated_watermark t) (consumed t ++ ck_rows chunk) = live_rows (propagated_watermark t) (consumed t) ++ ck_rows chunk).
    { unfold live_rows. rewrite filter_app. f_equal. apply filter_all. eapply Forall_impl; [exact Hrows|]. intros r [Hu Hw].
      apply live_new; [apply H3|done|lia]. }
    change (consumed t') with (consumed t ++ ck_rows chunk). change (propagated_watermark t') with (propagated_watermark t).
    rewrite Hlive. unfold t', consume. cbn [variants]. destruct (ck_rows chunk); [by rewrite app_nil_r|by apply rep_executeOnBlock].
  - apply Forall_forall. intros b Hb. rewrite Forall_forall in H5. destruct (ls_buckets _ _ _ Hl b Hb) as [Hb'|(r & Hr & ->)]; [by apply H5|].
    rewrite Forall_forall in Hrows. exists (row_time r). split; [by apply Hrows|done].
  - intros w Hw. destruct (H6 w Hw) as [Hv Hle]. split; [done|]. intros u [->|Hu]%elem_of_insert_inv; [|by apply Hle].
    apply (Hle t), list_elem_of_lookup. by exists i.
  - unfold pc_ok, t', consume. cbn. destruct (ck_watermark chunk) as [w|]; [|done]. by apply Hwm.
Qed.

(** ** Alignment *)

Lemma min_watermark_spec (ts : list Transform) t :
  t ∈ ts -> (exists u, u ∈ ts /\ min_watermark ts = watermark u) /\ forall u, u ∈ ts -> min_watermark ts <= watermark u.
Proof.
  destruct ts as [|a ts]; [by intros ?%not_elem_of_nil|]. intros _. unfold min_watermark.
  assert (Hg : forall m, let r := foldl (fun m t => Z.min m (watermark t)) m ts in
    (r = m \/ exists u, u ∈ ts /\ r = watermark u) /\ r <= m /\ forall u, u ∈ ts -> r <= watermark u).
  { induction ts as [|b ts IH]; intros m; cbn zeta; cbn [foldl].
    - split; [by left|]. split; [done|]. by intros u ?%not_elem_of_nil.
    - destruct (IH (Z.min m (watermark b))) as ([->|(u & Hu & ->)] & Hle & Hall).
      + split; [destruct (Z.min_spec m (watermark b)) as [[_ ->]|[_ ->]]; [by left|right; exists b; split; [by left|done]]|].
        split; [lia|]. intros u [->|Hu]%elem_of_cons; [lia|]. specialize (Hall u Hu). lia.
      + split; [right; exists u; split; [by right|done]|]. split; [lia|]. intros v [->|Hv]%elem_of_cons; [lia|by apply Hall]. }
  destruct (Hg (watermark a)) as (Hr & Hle & Hall). split.
  - destruct Hr as [->|(u & Hu & ->)]; [exists a; split; [by left|done]|exists u; split; [by right|done]].
  - intros u [->|Hu]%elem_of_cons; [done|by apply Hall].
Qed.

Lemma valid_not_TIMEOUT w : valid_or_usable w -> w <> TIMEOUT_WATERMARK.
Proof. intros [->|Hw]; [done|]. pose proof (usable_valid w Hw). lia. Qed.

Lemma align_Inv s i t w :
  Inv s -> transforms s !! i = Some t -> pc t = Align w -> Inv (on i (with_pc (Check false)) (align i w t s)).
Proof.
  intros HI Hi Hpc. pose proof (inv_transforms _ HI i t Hi) as [H1 H2 H3 H4 H5 H6 H7]. unfold pc_ok in H7. rewrite Hpc in H7. destruct H7 as [Hu Hlt].
  unfold align. rewrite (proj2 (Z.eqb_neq _ _)) by (apply valid_not_TIMEOUT, H2). rewrite (proj2 (Z.ltb_lt _ _)) by done.
  assert (Hlen : (i < length (transforms s))%nat) by by eapply lookup_lt_Some.
  rewrite !on_on. rewrite !(on_after _ _ t) by done. cbn [transforms after].
  set (ts1 := <[i := with_watermark w _]> (transforms s)). set (t' := with_pc _ _).
  assert (Hin : with_watermark w (with_watermark (watermark t) t) ∈ ts1) by (apply list_elem_of_lookup; exists i; by apply list_lookup_insert_eq).
  destruct (min_watermark_spec ts1 _ Hin) as ((u & Hu1 & Hmin) & Hall).
  assert (Hl : local_step t t' []) by (split; [by rewrite app_nil_r|constructor|cbn; lia|done|done|auto]).
  change (Inv (after s i t' (finalizing_mutex s))). eapply Inv_local; [done|done|exact Hl|by left|].
  split; try done.
  - cbn. split; [by right|]. lia.
  - intros x [= <-]. split.
    + rewrite Hmin. apply elem_of_insert_inv in Hu1 as [->|Hu1]; [by right|]. apply list_elem_of_lookup in Hu1 as [j Hj].
      apply (t_watermark _ _ _ (inv_transforms _ HI j u Hj)).
    + intros v Hv. apply list_elem_of_lookup in Hv as [j Hv]. cbn in Hv. apply list_lookup_insert_Some in Hv as [(-> & <- & _)|[Hj Hv]].
      * exact (Hall _ Hin).
      * apply Hall. apply list_elem_of_lookup. exists j. unfold ts1. by rewrite list_lookup_insert_ne.
Qed.

(** ** Finding the windows to finalize *)

Lemma local_windows s i t :
  tinv s i t -> exists ws, getLocalWindowsWithBuckets ops t = Some ws /\ StronglySorted ends_before ws /\
    forall w bs, mkWindowWithBuckets w bs ∈ ws <->
      is_window w /\ bs = filter (bucket_in w) (buckets (variants t)) /\ bs <> [].
Proof.
  intros Ht. apply windows_spec.
  - unfold buckets. destruct (initialized (variants t)); [|constructor]. apply TimeBuckets.buckets_sorted, (t_rep _ _ _ Ht).
  - apply (t_buckets _ _ _ Ht).
Qed.

Lemma check_Inv s i t again s' :
  Inv s -> transforms s !! i = Some t -> check ops AfterWindowClose i again t s = Ok s' -> Inv s'.
Proof.
  intros HI Hi. unfold check. destruct (try_finalizing_watermark t) as [w|] eqn:Htry.
  2: { intros [= <-]. rewrite (on_after _ _ t) by done. apply (Inv_control _ _ t); try done; [|by left]. split; try done. by left. }
  destruct (hasAggregatedResult t) eqn:Hres.
  - intros [= <-]. rewrite (on_after _ _ t) by done. apply (Inv_control _ _ t); try done; [|by left]. split; try done; [|by right].
    unfold rows_out. cbn. rewrite !fmap_app, !concat_app. f_equal. destruct (last (aggregated_chunks t)) as [[rs [x|]]|] eqn:Hlast; try done.
    apply set_last_rows.
  - destruct (needFinalization _ _ _ _ _) as [[]|]; [| |done]; intros [= <-]; rewrite (on_after _ _ t) by done.
    + apply (Inv_control _ _ t); try done; [split; try done; by left|by left|].
      unfold pc_ok, hasAggregatedResult in *. cbn. rewrite Htry. by destruct (aggregated_chunks t).
    + apply (Inv_control _ _ t); try done; [split; try done; by right|by left].
Qed.

Lemma lock_Inv s i t again s' :
  Inv s -> transforms s !! i = Some t -> pc t = Lock again -> lock AfterWindowClose repeat_emit i again t s = Ok s' -> Inv s'.
Proof.
  intros HI Hi Hpc. unfold lock. destruct (finalizing_mutex s) eqn:Hm.
  { intros [= <-]. rewrite (on_after _ _ t) by done. pose proof (t_pc _ _ _ (inv_transforms _ HI i t Hi)) as Hp. unfold pc_ok in Hp. rewrite Hpc in Hp. apply (Inv_control _ _ t); try done; [|by left]. split; try done. by left. }
  destruct (try_finalizing_watermark t) as [w|] eqn:Htry; [|done]. destruct (may_prepare _ _ _ _) eqn:Hmay; intros [= <-]; rewrite (on_after _ _ t) by done.
  - change (with_mutex _ _) with (after s i (with_pc (Prepare again 0 []) t) (Some i)).
    pose proof (t_pc _ _ _ (inv_transforms _ HI i t Hi)) as Hp. unfold pc_ok in Hp. rewrite Hpc in Hp.
    apply (Inv_control _ _ t); try done; [split; try done; by left|by right; left|]. cbn. split; [done|]. split; [apply Hp|]. split; [done|].
    exists w. split; [done|]. unfold may_prepare in Hmay. cbn in Hmay. destruct (w <=? finalized_watermark s) eqn:Hle; [done|].
    apply Z.leb_gt in Hle. split; [done|]. split; [constructor|]. split; [constructor|]. split; [|done]. by intros ? ? ? ?%not_elem_of_nil.
  - apply (Inv_control _ _ t); try done; [|by left]. split; try done. by right.
Qed.

Lemma entry_ok_union e w x bs y :
  entry_ok e w x -> entry_ok e w y -> window y = window x -> bs = set_union (window_buckets y) (window_buckets x) ->
  entry_ok e w (mkWindowWithBuckets (window y) bs).
Proof.
  intros (A1 & A2 & A3 & A4 & A5) (B1 & B2 & B3 & B4 & B5) Hxy ->. split; [done|]. split; [done|]. cbn. split; [by apply set_union_sorted|].
  split.
  - destruct (window_buckets y) as [|b l] eqn:Hy; [done|]. intros Hn. assert (Hb : b ∈ set_union (b :: l) (window_buckets x)) by (apply elem_of_set_union; left; by left).
    rewrite Hn in Hb. by apply not_elem_of_nil in Hb.
  - rewrite Forall_forall in *. rewrite Hxy in *. intros b [Hb|Hb]%elem_of_set_union; auto.
Qed.

(** Merging windows keeps the buckets that were prepared and adds those of the windows. *)
Lemma merge_windows_ok e w ts ws new :
  StronglySorted ends_before ws -> Forall (entry_ok e w) ws -> Forall (entry_ok e w) new -> has_buckets e w ts ws ->
  let ws' := foldl merge_window ws new in
  StronglySorted ends_before ws' /\ Forall (entry_ok e w) ws' /\ has_buckets e w ts ws' /\
  forall x b, x ∈ new -> b ∈ window_buckets x -> exists bs, mkWindowWithBuckets (window x) bs ∈ ws' /\ b ∈ bs.
Proof.
  intros Hs He Hn Hh. cbn zeta. revert ws Hs He Hh. induction Hn as [|x new Hx Hn IH]; intros ws Hs He Hh; cbn [foldl].
  { split; [done|]. split; [done|]. split; [done|]. by intros x b ?%not_elem_of_nil. }
  assert (Hkeep : forall y, y ∈ merge_window ws x -> exists bs, mkWindowWithBuckets (window y) bs ∈ foldl merge_window (merge_window ws x) new /\
    forall b, b ∈ window_buckets y -> b ∈ bs).
  { clear. induction new as [|z new IH] using rev_ind; intros y Hy; cbn.
    - exists (window_buckets y). split; [by destruct y|done].
    - destruct (IH y Hy) as (bs & Hbs & Hsub). rewrite foldl_app. cbn. destruct (merge_window_keeps _ z _ Hbs) as (bs' & Hbs' & Hsub').
      exists bs'. split; [done|]. intros b Hb. apply Hsub'. cbn. by apply Hsub. }
  assert (He' : Forall (entry_ok e w) (merge_window ws x)).
  { rewrite Forall_forall in He |- *. intros y [Hy|[->|(z & Hz & Hend & ->)]]%merge_window_elem; [by apply He|done|].
    eapply entry_ok_union; [exact Hx|by apply He| |done]. apply window_end_inj; [apply He, Hz|apply Hx|done]. }
  destruct (IH (merge_window ws x)) as (G1 & G2 & G3 & G4); [by apply merge_window_sorted|done| |].
  - intros t b y Ht Hb Hy Hin Hle. destruct (Hh t b y Ht Hb Hy Hin Hle) as (bs & Hbs & Hbb).
    destruct (merge_window_keeps _ x _ Hbs) as (bs' & Hbs' & Hsub). exists bs'. split; [done|]. by apply Hsub.
  - split; [done|]. split; [done|]. split; [done|]. intros y b [->|Hy]%elem_of_cons Hb; [|by apply G4].
    destruct (merge_window_adds ws x) as (w' & bs & Hin & Hend & Hsub). rewrite Forall_forall in He'.
    assert (w' = window x) as ->. { apply window_end_inj; [apply (He' _ Hin)|apply Hx|done]. }
    destruct (Hkeep _ Hin) as (bs' & Hbs' & Hsub'). exists bs'. split; [done|]. by apply Hsub', Hsub.
Qed.

(** The windows of one more shard. *)
Lemma shard_windows s w j tj :
  transforms s !! j = Some tj -> tinv s j tj ->
  exists new, (ws ← getLocalWindowsWithBuckets ops tj; Some (filter (fun x => is_invalid_window AfterWindowClose s w x = false) ws)) = Some new /\
    StronglySorted ends_before new /\ Forall (entry_ok (finalized_window_end s) w) new /\
    (new <> [] -> initialized (variants tj) = true) /\
    forall b x, b ∈ buckets (variants tj) -> is_window x -> bucket_in x b -> finalized_window_end s < win_end x <= w ->
      exists bs, mkWindowWithBuckets x bs ∈ new /\ b ∈ bs.
Proof.
  intros Hj Ht. destruct (local_windows _ _ _ Ht) as (ws & -> & Hs & Hws). eexists. split; [done|].
  assert (Hvalid : forall x, is_invalid_window AfterWindowClose s w x = false <-> finalized_window_end s < win_end (window x) <= w).
  { intros x. unfold is_invalid_window, onlyEmitFinalizedWindows. rewrite bool_decide_true by done. cbn [andb]. rewrite orb_false_iff, Z.leb_gt, Z.ltb_ge. done. }
  split; [by apply sorted_filter|]. split; [|split].
  - apply Forall_forall. intros [x bs] [Hv Hin]%list_elem_of_filter. apply Hvalid in Hv. apply Hws in Hin as (Hx & -> & Hne).
    split; [done|]. split; [done|]. cbn. split; [|split; [done|]].
    + apply sorted_filter. unfold buckets. destruct (initialized (variants tj)); [|constructor]. apply TimeBuckets.buckets_sorted, (t_rep _ _ _ Ht).
    + apply Forall_forall. intros b [Hb1 Hb2]%list_elem_of_filter. split; [|done]. pose proof (t_buckets _ _ _ Ht) as Hb. rewrite Forall_forall in Hb. by apply Hb.
  - intros Hne. apply filter_nonempty in Hne as ([x bs] & Hin & _). apply Hws in Hin as (_ & -> & Hne).
    unfold buckets in Hne. by destruct (initialized (variants tj)).
  - intros b x Hb Hx Hin Hle. exists (filter (bucket_in x) (buckets (variants tj))). split; [|by apply list_elem_of_filter].
    apply list_elem_of_filter. split; [by apply Hvalid|]. apply Hws. split; [done|]. split; [done|].
    intros Hn. assert (Hb' : b ∈ filter (bucket_in x) (buckets (variants tj))) by by apply list_elem_of_filter. rewrite Hn in Hb'. by apply not_elem_of_nil in Hb'.
Qed.

Lemma prepare_shard_ok s w j tj ws :
  Inv s -> transforms s !! j = Some tj -> (j = 0%nat -> ws = []) -> prepared_ok s w (take j (transforms s)) ws ->
  exists ws', prepare_shard ops AfterWindowClose s w j tj ws = Some ws' /\ prepared_ok s w (take (S j) (transforms s)) ws'.
Proof.
  intros HI Hj Hz (Hs & He & Hh & Hex). destruct (shard_windows s w j tj Hj (inv_transforms _ HI j tj Hj)) as (new & Hnew & Hns & Hne & Hni & Hnb).
  unfold prepare_shard. destruct (getLocalWindowsWithBuckets ops tj) as [l|]; [|done]. cbn [mbind option_bind] in *. injection Hnew as ->.
  assert (Htj : tj ∈ transforms s) by (apply list_elem_of_lookup; by exists j).
  assert (Hgen : let ws' := foldl merge_window ws new in prepared_ok s w (take (S j) (transforms s)) ws').
  { destruct (merge_windows_ok _ _ _ _ _ Hs He Hne Hh) as (G1 & G2 & G3 & G4). split; [done|]. split; [done|]. split.
    - intros t b x Ht Hb Hx Hin Hle. rewrite (take_S_r _ _ tj) in Ht by done. apply elem_of_app in Ht as [Ht| ->%list_elem_of_singleton]; [by apply (G3 t b x)|].
      destruct (Hnb b x Hb Hx Hin Hle) as (bs & Hbs & Hbb). apply (G4 _ b Hbs Hbb).
    - intros Hne'. destruct new as [|x new]; [by apply Hex|]. exists tj. split; [done|]. by apply Hni. }
  eexists. split; [done|]. destruct j as [|j]; [|exact Hgen]. rewrite Hz by done. split; [done|]. split; [done|]. split; [|intros Hne'; exists tj; auto].
  intros t b x Ht Hb Hx Hin Hle. rewrite (take_S_r _ _ tj) in Ht by done. apply list_elem_of_singleton in Ht as ->. by apply (Hnb b x).
Qed.

Lemma prepare_Inv s i t again j ws s' :
  Inv s -> transforms s !! i = Some t -> pc t = Prepare again j ws -> prepare ops AfterWindowClose i again j ws t s = Ok s' -> Inv s'.
Proof.
  intros HI Hi Hpc. pose proof (inv_transforms _ HI i t Hi) as Ht. pose proof (t_pc _ _ _ Ht) as Hp. unfold pc_ok in Hp. rewrite Hpc in Hp.
  destruct Hp as (Hm & Ha & Hz & w & Hw & Hf & Hp). unfold prepare. rewrite Hw.
  assert (Hwt : w <= watermark t) by (apply (t_try _ _ _ Ht w Hw), list_elem_of_lookup; by exists i).
  destruct (transforms s !! j) as [tj|] eqn:Hj.
  - destruct (prepare_shard_ok s w j tj ws HI Hj Hz Hp) as (ws' & -> & Hp'). intros [= <-]. rewrite (on_after _ _ t) by done.
    assert (Hc : control_step t (with_pc (Prepare again (S j) ws') t)) by (split; try done; by left).
    apply (Inv_control _ _ t); try done; [by left|]. split; [done|]. split; [done|]. split; [done|]. exists w. split; [done|]. split; [done|].
    eapply prepared_ok_local; try done. by apply control_local.
  - destruct ws as [|x ws].
    { intros [= <-]. rewrite (on_after _ _ t) by done. change (with_mutex None _) with (after s i (with_pc (Return again) (with_try None t)) None).
      apply (Inv_control _ _ t); try done; [split; try done; by right|by right; right]. }
    intros [= <-]. rewrite (on_after _ _ t) by done. rewrite (proj2 (Z.eqb_neq _ _)).
    2: { destruct (inv_watermark _ HI) as [[HF|HF%usable_valid] _]; unfold MIN_WATERMARK, INVALID_WATERMARK in *; lia. }
    assert (Hc : control_step t (with_pc (Finalize again (x :: ws)) (with_try (Some w) t))) by (split; try done; by left).
    apply (Inv_control _ _ t); try done; [by left|]. split; [done|]. split; [done|]. split; [done|]. exists w. split; [done|]. split; [done|].
    apply lookup_ge_None in Hj. pose proof (prepared_ok_local s i t _ [] (finalizing_mutex s) w _ _ j Hi (control_local _ _ Hc) Hwt eq_refl Hp) as Hp'.
    rewrite take_ge in Hp' by (cbn; by rewrite length_insert). exact Hp'.
Qed.

Lemma return_Inv s i t again s' :
  Inv s -> transforms s !! i = Some t -> pc t = Return again -> next ops AfterWindowClose repeat_emit i t s = Ok s' -> Inv s'.
Proof.
  intros HI Hi Hpc. unfold next. rewrite Hpc. destruct (_ && _); intros [= <-]; rewrite (on_after _ _ t) by done;
    (apply (Inv_control _ _ t); try done; [split; try done; by left|by left]).
Qed.

Lemma propagate_Inv s i t t' :
  Inv s -> transforms s !! i = Some t -> propagate ops s t = Some t' -> Inv (on i (fun _ => with_pc Idle t') s).
Proof.
  intros HI Hi Hp. rewrite (on_after _ _ t) by done. pose proof (inv_transforms _ HI i t Hi) as Ht. pose proof Ht as [H1 H2 H3 H4 H5 H6 _].
  unfold propagate in Hp. destruct (propagated_watermark t <? finalized_watermark s) eqn:Hlt.
  2: { injection Hp as <-. apply (Inv_control _ _ t); try done; [|by left].
       destruct (need_propagate_heartbeat t && negb (hasAggregatedResult t)) eqn:Hh; split; try done; try by left.
       unfold rows_out. cbn. unfold hasAggregatedResult in Hh. destruct (aggregated_chunks t); [by rewrite !fmap_app, !concat_app|]. by rewrite andb_false_r in Hh. }
  apply Z.ltb_lt in Hlt. destruct (wf_expired ops (finalized_watermark s)) as [x|] eqn:Hx; [|done]. cbn [mbind option_bind] in Hp. injection Hp as <-.
  assert (HF : usable (finalized_watermark s)).
  { destruct (inv_watermark _ HI) as [[HF|HF] _]; [|done]. destruct H3 as [[HP|HP%usable_valid] _]; unfold INVALID_WATERMARK, MIN_WATERMARK in *; lia. }
  set (t1 := if hasAggregatedResult t then t else _). set (t2 := with_propagated _ _).
  assert (Hpc : forall (b : bool) (u : Transform), (if b then with_chunks [mkOutChunk [] None] u else u) = with_chunks (if b then [mkOutChunk [] None] else aggregated_chunks u) u)
    by (intros [] []; done). rewrite Hpc. clear Hpc. match goal with |- context [with_chunks ?c t2] => set (cs := c) end.
  assert (Hout : rows_out (with_pc Idle (with_chunks cs t2)) = rows_out t).
  { unfold rows_out, cs, t2, t1, hasAggregatedResult. cbn. destruct (aggregated_chunks t) eqn:Ha; cbn; rewrite ?Ha; cbn; [|by rewrite andb_false_r].
    rewrite andb_false_r. cbn. rewrite !fmap_app, !concat_app. done. }
  assert (Hv : variants t1 = variants t /\ consumed t1 = consumed t /\ watermark t1 = watermark t /\ try_finalizing_watermark t1 = try_finalizing_watermark t)
    by (unfold t1; by destruct (hasAggregatedResult t)). destruct Hv as (Hv1 & Hv2 & Hv3 & Hv4).
  assert (Hsub : forall b, b ∈ buckets (removeBucketsBefore x (variants t)) -> b ∈ buckets (variants t)).
  { intros b. unfold buckets, removeBucketsBefore. destruct (initialized (variants t)) eqn:Hini; cbn; rewrite ?Hini; [|done].
    rewrite TimeBuckets.buckets_removeBucketsBefore by apply H4. by intros [_ ?]%list_elem_of_filter. }
  assert (Hini : initialized (variants t) = true -> initialized (removeBucketsBefore x (variants t)) = true)
    by (intros Hini; unfold removeBucketsBefore; by rewrite Hini).
  eapply Inv_local; [done|done| |by left|].
  - split; cbn; rewrite ?Hv1, ?Hv2, ?Hv3; [by rewrite app_nil_r|constructor|done|exact Hout|exact Hini|auto].
  - split; cbn; rewrite ?Hv1, ?Hv2, ?Hv3; try done.
    + split; [by right|done].
    + rewrite <- (live_rows_later (propagated_watermark t)) by (done || apply H3 || lia).
      pose proof (rep_removeBucketsBefore wkey other_keys x _ _ H4) as Hr. erewrite list_filter_iff; [exact Hr|].
      intros r. unfold live. destruct (horizon_usable _ HF) as (x' & Hx' & ->). rewrite Hx in Hx'. injection Hx' as <-. apply Z.ltb_lt.
    + apply Forall_forall. intros b Hb%Hsub. rewrite Forall_forall in H5. by apply H5.
    + intros w Hw. cbn in Hw. rewrite Hv4 in Hw. destruct (H6 w Hw) as [Hvw Hle]. split; [done|].
      intros u [->|Hu]%elem_of_insert_inv; [|by apply Hle]. cbn. rewrite Hv3. apply (Hle t), list_elem_of_lookup. by exists i.
Qed.

Lemma push_Inv s i t c cs :
  Inv s -> transforms s !! i = Some t -> pc t = Idle -> aggregated_chunks t = c :: cs ->
  Inv (after s i
         (mkTransform (variants t) (watermark t) (propagated_watermark t) (try_finalizing_watermark t) cs
            (rows_since_last_finalization t) (need_propagate_heartbeat t) (pc t) (consumed t) (output t ++ [c])) (finalizing_mutex s)).
Proof.
  intros HI Hi Hpc Ha. apply (Inv_control _ _ t); try done; [|by left|unfold pc_ok; cbn; by rewrite Hpc].
  split; try done; [|by left]. unfold rows_out. cbn. by rewrite Ha, <- app_assoc.
Qed.

(** ** Finalization *)

(** A row of an open window is in its bucket. *)
Lemma live_bucket s i t r :
  tinv s i t -> r ∈ live_rows (propagated_watermark t) (consumed t) -> wkey r ∈ buckets (variants t).
Proof.
  intros Ht Hr. destruct (t_rep _ _ _ Ht) as (Hw & Hi & Hrep). unfold buckets.
  destruct (initialized (variants t)); [|rewrite Hi in Hr by done; by apply not_elem_of_nil in Hr].
  apply dec_stable. intros Hn. pose proof (Hrep (wkey r) (row_key wkey other_keys r)) as Hl.
  unfold impl_of in Hl. rewrite (TimeBuckets.impl_absent ∅ _ _ Hw Hn), lookup_empty in Hl.
  assert (Hin : r ∈ filter (fun r' => row_key wkey other_keys r' = row_key wkey other_keys r) (filter (fun r' => wkey r' = wkey r) (live_rows (propagated_watermark t) (consumed t))))
    by (apply list_elem_of_filter; split; [done|]; by apply list_elem_of_filter).
  destruct (filter _ (filter _ _)); [by apply not_elem_of_nil in Hin|done].
Qed.

(** A row in a window that is not finalized is live. *)
Lemma open_window_live s i t r w :
  Inv s -> transforms s !! i = Some t -> r ∈ consumed t -> is_window w -> covers w (row_time r) ->
  finalized_window_end s < win_end w -> live (propagated_watermark t) r = true.
Proof.
  intros HI Hi Hr Hw Hc He. destruct (live (propagated_watermark t) r) eqn:Hl; [done|]. exfalso.
  pose proof (inv_transforms _ HI i t Hi) as Ht. destruct (t_propagated _ _ _ Ht) as [[Hp|Hp] HpF].
  { rewrite Hp in Hl. done. }
  assert (Hur : usable (row_time r)) by (pose proof (t_rows _ _ _ Ht) as Hu; rewrite Forall_forall in Hu; by apply Hu).
  rewrite dead_spec in Hl by done. specialize (Hl w Hw Hc).
  assert (Hall : r ∈ all_rows s) by (apply elem_of_concat_iff; exists (consumed t); split; [apply list_elem_of_fmap; exists t; split; [done|]; apply list_elem_of_lookup; by exists i|done]).
  pose proof (inv_complete _ HI w r Hw Hall Hc ltac:(lia)) as Hin. apply list_elem_of_fmap in Hin as ([[c k] y] & [= <- <-] & Hin).
  destruct (inv_sound _ HI _ _ _ Hin) as (w' & Hw' & Hcol & He' & _). apply window_column_inj in Hcol as ->; [lia|done|done].
Qed.

Section FinalizeStep.
Context (s : Many) (wm : Z) (ws : list WindowWithBuckets) (HI : Inv s) (Hp : prepared_ok s wm (transforms s) ws).

Local Abbreviation live_of := (fun t : Transform => live_rows (propagated_watermark t) (consumed t)).

Lemma entry w bs : mkWindowWithBuckets w bs ∈ ws -> entry_ok (finalized_window_end s) wm (mkWindowWithBuckets w bs).
Proof. intros Hin. destruct Hp as (_ & He & _). rewrite Forall_forall in He. by apply He. Qed.

(** The rows of the buckets of a prepared window are all rows of the window. *)
Lemma window_rows i t w bs r :
  transforms s !! i = Some t -> mkWindowWithBuckets w bs ∈ ws -> r ∈ consumed t ->
  wkey r ∈ bs /\ live (propagated_watermark t) r = true <-> covers w (row_time r).
Proof.
  intros Hi Hin Hr. destruct (entry w bs Hin) as (Hw & Hle & _ & _ & Hb). cbn in *.
  pose proof (inv_transforms _ HI i t Hi) as Ht. assert (Hur : usable (row_time r)) by (pose proof (t_rows _ _ _ Ht) as Hu; rewrite Forall_forall in Hu; by apply Hu).
  split.
  - intros [Hk _]. rewrite Forall_forall in Hb. destruct (Hb _ Hk) as [_ Hbi]. by apply bucket_in_spec in Hbi.
  - intros Hc. assert (Hl : live (propagated_watermark t) r = true) by (apply (open_window_live s i t r w); try done; lia). split; [|done].
    destruct Hp as (Hs & _ & Hh & _).
    destruct (Hh t (wkey r) w) as (bs' & Hbs' & Hk); [apply list_elem_of_lookup; by exists i| |done|by apply bucket_in_spec|done|].
    + apply (live_bucket s i t r Ht). by apply list_elem_of_filter.
    + by destruct (ends_before_inj ws w bs w bs' Hs Hin Hbs' eq_refl) as [_ ->].
Qed.

Lemma group_window_result w bs k :
  mkWindowWithBuckets w bs ∈ ws ->
  group_result row_time other_keys ops bs k (concat (live_of <$> transforms s)) = window_result w k (all_rows s).
Proof.
  intros Hin. unfold group_result, window_result, all_rows. f_equal.
  assert (Hall : forall ts, (forall t, t ∈ ts -> exists i, transforms s !! i = Some t) ->
    filter (fun r => wkey r ∈ bs /\ other_keys r = k) (concat (live_of <$> ts)) =
    filter (fun r => covers w (row_time r) /\ other_keys r = k) (concat (consumed <$> ts))); [|apply Hall; by intros t ?%list_elem_of_lookup].
  induction ts as [|t ts IH]; intros Hts; [done|]. rewrite !fmap_cons. cbn [concat]. rewrite !filter_app. f_equal; [|apply IH; intros u Hu; apply Hts; by right].
  destruct (Hts t) as [i Hi]; [by left|]. unfold live_rows. rewrite list_filter_filter. apply filter_iff_Forall, Forall_forall. intros r Hr.
  pose proof (window_rows i t w bs r Hi Hin Hr). tauto.
Qed.

(** The column of the block of a prepared window. *)
Lemma entry_column x : x ∈ ws -> block_column ops x = window_column ops (window x).
Proof.
  destruct x as [w bs]. intros Hin. destruct (entry w bs Hin) as (Hw & _ & Hs & Hne & Hb). cbn in *. unfold block_column. cbn.
  destruct (wf_reassign ops) eqn:Hre; [done|].
  assert (Hall : forall b, b ∈ bs -> b = window_column ops w).
  { intros b Hbb. rewrite Forall_forall in Hb. destruct (Hb b Hbb) as [(t & Ht & ->) Hbi]. apply bucket_in_spec in Hbi; [|done|done].
    by apply single_bucket. }
  destruct bs as [|b [|b' bs]]; [done|by apply Hall; left|]. apply StronglySorted_inv in Hs as [_ Hlt]. apply Forall_cons in Hlt as [Hlt _].
  rewrite (Hall b), (Hall b') in Hlt by set_solver. lia.
Qed.

Lemma block_rows x blk c k y :
  x ∈ ws -> block_ok row_time other_keys ops (concat (live_of <$> transforms s)) x blk ->
  ((c, k), y) ∈ blk <-> c = window_column ops (window x) /\ window_result (window x) k (all_rows s) = Some y.
Proof.
  intros Hx [_ Hb]. rewrite Hb, entry_column by done. destruct x as [w bs]. cbn [window window_buckets]. by rewrite (group_window_result w bs).
Qed.

Lemma blocks_rows blks c k y :
  Forall2 (block_ok row_time other_keys ops (concat (live_of <$> transforms s))) ws blks ->
  ((c, k), y) ∈ concat blks <->
  exists x, x ∈ ws /\ c = window_column ops (window x) /\ window_result (window x) k (all_rows s) = Some y.
Proof.
  intros HF. rewrite elem_of_concat_iff. split.
  - intros (blk & Hblk & Hin). apply list_elem_of_lookup in Hblk as [j Hj]. destruct (Forall2_lookup_r _ _ _ _ _ HF Hj) as (x & Hx & Hok).
    exists x. assert (x ∈ ws) by (apply list_elem_of_lookup; by exists j). split; [done|]. by apply (block_rows x blk).
  - intros (x & Hx & Hc). pose proof Hx as Hx'. apply list_elem_of_lookup in Hx' as [j Hj]. destruct (Forall2_lookup_l _ _ _ _ _ HF Hj) as (blk & Hblk & Hok).
    exists blk. split; [apply list_elem_of_lookup; by exists j|]. by apply (block_rows x).
Qed.

Lemma blocks_once l blks :
  Forall2 (block_ok row_time other_keys ops (concat (live_of <$> transforms s))) l blks ->
  (forall x, x ∈ l -> x ∈ ws) -> StronglySorted ends_before l -> NoDup (concat blks).*1.
Proof.
  induction 1 as [|x blk l blks Hb HF IH]; intros Hsub Hs; [constructor|]. apply StronglySorted_inv in Hs as [Hs Hx].
  assert (Hsub' : forall y, y ∈ l -> y ∈ ws) by (intros y Hy; apply Hsub; by right).
  cbn [concat]. rewrite fmap_app. apply NoDup_app. split; [apply Hb|]. split; [|by apply IH].
  intros [c k] ([[c1 k1] y1] & [= <- <-] & H1)%list_elem_of_fmap ([[c2 k2] y2] & [= <- <-] & H2)%list_elem_of_fmap.
  apply (block_rows x blk) in H1 as [Hc1 _]; [|apply Hsub; by left|done]. apply elem_of_concat_iff in H2 as (blk' & Hblk' & H2).
  apply list_elem_of_lookup in Hblk' as [j Hj]. destruct (Forall2_lookup_r _ _ _ _ _ HF Hj) as (x' & Hx' & Hok).
  assert (Hin : x' ∈ l) by (apply list_elem_of_lookup; by exists j). pose proof (proj1 (block_rows x' blk' _ _ _ (Hsub' _ Hin) Hok) H2) as [Hc2 _].
  rewrite Forall_forall in Hx. specialize (Hx x' Hin). unfold ends_before in Hx.
  destruct x as [w bs], x' as [w' bs']. cbn in *. assert (Heq : w = w'); [|rewrite Heq in Hx; lia].
  apply window_column_inj; [|apply (entry w' bs'), Hsub', Hin|unfold window_column in *; congruence].
  apply (entry w bs). apply Hsub. by left.
Qed.
End FinalizeStep.

Lemma concat_insert {A} (l : list (list A)) i a b : l !! i = Some a -> concat (<[i := a ++ b]> l) ≡ₚ concat l ++ b.
Proof.
  revert i. induction l as [|x l IH]; intros [|i] Hi; [done..| |]; cbn in *.
  - injection Hi as ->. rewrite <- !app_assoc. f_equiv. apply Permutation_app_comm.
  - rewrite (IH i) by done. by rewrite app_assoc.
Qed.

Lemma fmap_alter_same {A B} (f : A -> B) (g : A -> A) (i : nat) (l : list A) : (forall x, f (g x) = f x) -> f <$> alter g i l = f <$> l.
Proof. intros Hf. revert i. induction l as [|x l IH]; intros [|i]; try done; rewrite !fmap_cons; cbn; [by rewrite Hf|]. f_equal. apply IH. Qed.

Lemma fmap_zip_with_same {A B C} (f : A -> C) (h : B -> A -> A) (vs : list B) (ts : list A) :
  length vs = length ts -> (forall v t, f (h v t) = f t) -> f <$> zip_with h vs ts = f <$> ts.
Proof. intros Hl Hf. revert ts Hl. induction vs as [|v vs IH]; intros [|t ts] Hl; try done. cbn. rewrite Hf. f_equal. apply IH. by injection Hl. Qed.

(** The end of the last prepared window. *)
Lemma last_window_end_spec s w ts ws :
  prepared_ok s w ts ws -> ws <> [] ->
  exists e, last_window_end w ws = Some e /\ finalized_window_end s < e <= w /\ forall x, x ∈ ws -> win_end (window x) <= e.
Proof.
  intros (Hs & He & _) Hne. destruct ws as [|x ws _] using rev_ind; [done|]. exists (win_end (window x)). unfold last_window_end.
  rewrite Forall_forall in He. assert (Hx : entry_ok (finalized_window_end s) w x) by (apply He, elem_of_app; right; by left).
  split; [|split; [apply Hx|]].
  - rewrite filter_all; [rewrite fmap_app; apply last_snoc|]. apply Forall_fmap, Forall_forall. intros y Hy. apply (He y Hy).
  - intros y [Hy| ->%list_elem_of_singleton]%elem_of_app; [|done]. apply StronglySorted_app in Hs as (Hs & _).
    specialize (Hs y x Hy ltac:(by left)). unfold ends_before in Hs. lia.
Qed.

(** The state after a finalization. *)
Definition finalized_transform (again : bool) (cs : list (OutChunk (K := K) (Res := Res))) (t : Transform) : Transform :=
  with_pc (Return again) (with_try None (with_chunks cs t)).
Definition finalized_state (s : Many) (i : nat) (again : bool) (many : list Variants) (cs : list (OutChunk (K := K) (Res := Res))) (w e : Z) : Many :=
  mkMany (alter (finalized_transform again cs) i (zip_variants many (transforms s))) w e None.

Lemma finalized_lookup s i again many cs w e j u :
  transforms (finalized_state s i again many cs w e) !! j = Some u ->
  exists t v, transforms s !! j = Some t /\ many !! j = Some v /\ consumed u = consumed t /\ watermark u = watermark t /\
    propagated_watermark u = propagated_watermark t /\ variants u = v /\
    (j = i -> try_finalizing_watermark u = None /\ pc u = Return again) /\
    (j <> i -> try_finalizing_watermark u = try_finalizing_watermark t /\ pc u = pc t /\ aggregated_chunks u = aggregated_chunks t).
Proof.
  cbn. unfold zip_variants. destruct (decide (i = j)) as [->|Hne].
  - rewrite list_lookup_alter_eq, fmap_Some. intros (z & (v & t & -> & Hv & Ht)%lookup_zip_with_Some & ->). exists t, v. naive_solver.
  - rewrite list_lookup_alter_ne by done. intros (v & t & -> & Hv & Ht)%lookup_zip_with_Some. exists t, v. naive_solver.
Qed.

Lemma finalized_rows s i again many cs w e :
  length many = length (transforms s) -> all_rows (finalized_state s i again many cs w e) = all_rows s.
Proof.
  intros Hl. unfold all_rows. cbn. rewrite fmap_alter_same by done. unfold zip_variants. by rewrite fmap_zip_with_same.
Qed.

Lemma finalized_out s i t again many cs w e :
  length many = length (transforms s) -> transforms s !! i = Some t -> aggregated_chunks t = [] ->
  all_out (finalized_state s i again many cs w e) ≡ₚ all_out s ++ concat (oc_rows <$> cs).
Proof.
  intros Hl Hi Ha. unfold all_out. cbn. destruct (lookup_lt_is_Some_2 many i) as [v Hv]; [rewrite Hl; by eapply lookup_lt_Some|].
  assert (Hz : zip_variants many (transforms s) !! i = Some (with_row_count 0 (with_variants v t))) by (apply lookup_zip_with_Some; by exists v, t).
  rewrite (list_alter_insert _ _ _ _ Hz), list_fmap_insert.
  assert (Hout : rows_out (finalized_transform again cs (with_row_count 0 (with_variants v t))) = rows_out t ++ concat (oc_rows <$> cs)).
  { unfold rows_out. cbn. rewrite Ha, app_nil_r, fmap_app, concat_app. done. }
  rewrite Hout. unfold zip_variants. rewrite fmap_zip_with_same by done. apply concat_insert. by rewrite list_lookup_fmap, Hi.
Qed.

Lemma many_rep s : Inv s -> Forall2 rep (variants <$> transforms s) ((fun t => live_rows (propagated_watermark t) (consumed t)) <$> transforms s).
Proof.
  intros HI. apply Forall2_fmap_2. apply Forall2_same_length_lookup_2; [done|]. intros i x y Hx Hy. rewrite Hx in Hy. injection Hy as <-.
  apply (t_rep _ _ _ (inv_transforms _ HI i x Hx)).
Qed.

Lemma finalize_tinv s i again w e ws many cs j u :
  Inv s -> finalizing_mutex s = Some i -> usable w -> finalized_watermark s < w -> (forall t, t ∈ transforms s -> w <= watermark t) ->
  prepared_ok s w (transforms s) ws ->
  Forall2 rep many ((fun t => live_rows (propagated_watermark t) (consumed t)) <$> transforms s) ->
  Forall2 (touched_by ws) (variants <$> transforms s) many ->
  transforms (finalized_state s i again many cs w e) !! j = Some u -> tinv (finalized_state s i again many cs w e) j u.
Proof.
  intros HI Hm Hu Hlt Hall Hp Hrep Htch Hj.
  destruct (finalized_lookup _ _ _ _ _ _ _ _ _ Hj) as (t & v & Ht & Hv & C1 & C2 & C3 & C4 & Hi & Hne).
  pose proof (inv_transforms _ HI j t Ht) as [H1 H2 H3 H4 H5 H6 H7].
  split; rewrite ?C1, ?C2, ?C3, ?C4; try done.
  - split; [apply H2|]. apply Hall, list_elem_of_lookup. by exists j.
  - split; [apply H3|]. cbn. lia.
  - destruct (Forall2_lookup_l _ _ _ _ _ Hrep Hv) as (rows & Hr & Hrv). rewrite list_lookup_fmap, Ht in Hr. by injection Hr as <-.
  - destruct (Forall2_lookup_r _ _ _ _ _ Htch Hv) as (v0 & Hv0 & [_ Hb]). rewrite list_lookup_fmap, Ht in Hv0. injection Hv0 as <-.
    apply Forall_forall. intros b Hbb. apply Hb in Hbb as [Hbb|([x bs] & Hx & Hbb)]; [rewrite Forall_forall in H5; by apply H5|].
    destruct Hp as (_ & He & _). rewrite Forall_forall in He. destruct (He _ Hx) as (_ & _ & _ & _ & Hreal). rewrite Forall_forall in Hreal. by apply Hreal.
  - intros x Hx. destruct (decide (j = i)) as [->|Hji]; [destruct (Hi eq_refl); congruence|]. destruct (Hne Hji) as (Htry & _). rewrite Htry in Hx.
    destruct (H6 x Hx) as [Hvx Hle]. split; [done|]. intros u' [k Hk]%list_elem_of_lookup.
    destruct (finalized_lookup _ _ _ _ _ _ _ _ _ Hk) as (t' & _ & Ht' & _ & _ & -> & _). apply Hle, list_elem_of_lookup. by exists k.
  - unfold pc_ok in *. destruct (decide (j = i)) as [->|Hji]; [by destruct (Hi eq_refl) as [_ ->]|]. destruct (Hne Hji) as (-> & -> & ->). rewrite C2.
    destruct (pc t); try done; destruct H7 as (Hm' & _); rewrite Hm in Hm'; congruence.
Qed.

(** Finalizing returns, with the blocks of the prepared windows. *)
Lemma finalize_next s i t again ws :
  Inv s -> transforms s !! i = Some t -> pc t = Finalize again ws ->
  exists w e many cs blks,
    try_finalizing_watermark t = Some w /\ usable w /\ finalized_watermark s < w /\ (forall t', t' ∈ transforms s -> w <= watermark t') /\
    prepared_ok s w (transforms s) ws /\ finalized_window_end s <= e <= w /\ (forall x, x ∈ ws -> win_end (window x) <= e) /\
    Forall2 rep many ((fun t => live_rows (propagated_watermark t) (consumed t)) <$> transforms s) /\
    Forall2 (touched_by ws) (variants <$> transforms s) many /\
    Forall2 (block_ok row_time other_keys ops (concat ((fun t => live_rows (propagated_watermark t) (consumed t)) <$> transforms s))) ws blks /\
    concat (oc_rows <$> cs) = concat blks /\
    next ops AfterWindowClose repeat_emit i t s = Ok (finalized_state s i again many (set_last_watermark w cs) w e).
Proof.
  intros HI Hi Hpc. pose proof (inv_transforms _ HI i t Hi) as Ht. pose proof (t_pc _ _ _ Ht) as Hok. unfold pc_ok in Hok. rewrite Hpc in Hok.
  destruct Hok as (Hm & Ha & Hne & w & Hw & Hlt & Hp). destruct (t_try _ _ _ Ht w Hw) as [Hvw Hall].
  assert (Hu : usable w). { destruct Hvw as [->|?]; [|done]. destruct (inv_watermark _ HI) as [[HF|HF%usable_valid] _]; unfold INVALID_WATERMARK, MIN_WATERMARK in *; lia. }
  assert (Hentries : Forall (fun x => NoDup (window_buckets x) /\ 0 ∉ window_buckets x) ws).
  { destruct Hp as (_ & He & _). eapply Forall_impl; [exact He|]. intros [x bs] (_ & _ & Hs & _ & Hb). split; [by apply sorted_NoDup|]. intros H0.
    rewrite Forall_forall in Hb. destruct (Hb _ H0) as [(t0 & Ht0 & H00) _]. by apply (bucket_nonzero t0). }
  assert (Hex : Exists (fun v => initialized v = true) (variants <$> transforms s)).
  { destruct Hp as (_ & _ & _ & Hex). destruct (Hex Hne) as (u & Hin & Hini). apply Exists_exists. exists (variants u). split; [|done]. apply list_elem_of_fmap. by exists u. }
  destruct (finalize_windows_spec row_time other_keys ops ws _ _ (many_rep s HI) Hex Hentries) as (many & cs & blks & Hfw & Hrep & Htch & Hblk & Hcs).
  destruct (last_window_end_spec _ _ _ _ Hp Hne) as (e & He & Hle & Hlast). exists w, e, many, cs, blks.
  do 11 (split; [done || lia|]). unfold next. rewrite Hpc, Hw. unfold finalize. rewrite Hfw, He, (proj2 (Z.eqb_neq _ _)) by by apply valid_not_TIMEOUT. cbn [default onlyEmitUpdates].
  by rewrite on_on.
Qed.

Lemma finalize_Inv s i t again ws s' :
  Inv s -> transforms s !! i = Some t -> pc t = Finalize again ws -> next ops AfterWindowClose repeat_emit i t s = Ok s' -> Inv s'.
Proof.
  intros HI Hi Hpc. pose proof (inv_transforms _ HI i t Hi) as Ht. pose proof (t_pc _ _ _ Ht) as Hok. unfold pc_ok in Hok. rewrite Hpc in Hok.
  destruct Hok as (Hm & Ha & Hne & _).
  destruct (finalize_next s i t again ws HI Hi Hpc) as (w & e & many & cs & blks & Hw & Hu & Hlt & Hall & Hp & Hle & Hlast & Hrep & Htch & Hblk & Hcs & ->).
  intros [= <-].
  assert (Hlen : length many = length (transforms s)) by (apply Forall2_length in Htch; by rewrite length_fmap in Htch).
  pose proof (finalized_out s i t again many (set_last_watermark w cs) w e Hlen Hi Ha) as Hout. rewrite set_last_rows, Hcs in Hout.
  pose proof (finalized_rows s i again many (set_last_watermark w cs) w e Hlen) as Hrows.
  split.
  - intros j u Hj. by eapply finalize_tinv.
  - split; [by right|]. cbn. lia.
  - rewrite Hout, fmap_app. apply NoDup_app. split; [apply HI|]. split; [|by apply (blocks_once s w ws HI Hp ws); [| |apply Hp]].
    intros [c k] ([[c1 k1] y1] & [= <- <-] & H1)%list_elem_of_fmap ([[c2 k2] y2] & [= <- <-] & H2)%list_elem_of_fmap.
    destruct (inv_sound _ HI _ _ _ H1) as (x & Hx & Hc & Hxe & _). apply (blocks_rows s w ws HI Hp blks) in H2 as ([x' bs] & Hx' & Hc' & _); [|done].
    destruct (entry s w ws Hp _ _ Hx') as (Hxw & Hxe' & _). cbn in *. assert (x = x') as ->; [|lia]. apply window_column_inj; [done|done|unfold window_column in *; congruence].
  - intros c k y. rewrite Hout, Hrows, elem_of_app. intros [Hy|Hy].
    + destruct (inv_sound _ HI _ _ _ Hy) as (x & Hx & Hc & Hxe & Hr). exists x. split; [done|]. split; [done|]. split; [cbn; lia|done].
    + apply (blocks_rows s w ws HI Hp blks) in Hy as ([x bs] & Hx & -> & Hr); [|done]. exists x. split; [apply (entry s w ws Hp _ _ Hx)|]. split; [done|].
      split; [apply (Hlast _ Hx)|done].
  - intros x r Hx Hr Hc Hxe. rewrite Hrows in Hr. rewrite Hout, fmap_app, elem_of_app. cbn in Hxe.
    destruct (decide (win_end x <= finalized_watermark s)) as [HxF|HxF]; [left; by apply HI|right].
    pose proof Hr as Hr'. apply elem_of_concat_iff in Hr' as (rows & (u & -> & Huin)%list_elem_of_fmap & Hru). apply list_elem_of_lookup in Huin as [j Hj].
    pose proof (inv_transforms _ HI j u Hj) as Htu. destruct (inv_watermark _ HI) as [_ HEF].
    assert (Hl : live (propagated_watermark u) r = true) by (apply (open_window_live s j u r x); try done; lia).
    assert (Hur : usable (row_time r)) by (pose proof (t_rows _ _ _ Htu) as Hus; rewrite Forall_forall in Hus; by apply Hus).
    destruct Hp as (Hs & Hent & Hh & Hini).
    destruct (Hh u (wkey r) x) as (bs & Hbs & _); [apply list_elem_of_lookup; by exists j| |done|by apply bucket_in_spec|lia|].
    { apply (live_bucket s j u r Htu). by apply list_elem_of_filter. }
    assert (Hres : exists y, window_result x (other_keys r) (all_rows s) = Some y).
    { unfold window_result. assert (Hf : r ∈ filter (fun r' => covers x (row_time r') /\ other_keys r' = other_keys r) (all_rows s)) by by apply list_elem_of_filter.
      destruct (filter _ _); [by apply not_elem_of_nil in Hf|]. cbn. eauto. }
    destruct Hres as (y & Hy). apply list_elem_of_fmap. exists (window_column ops x, other_keys r, y). split; [done|].
    apply (blocks_rows s w ws HI); [done|done|]. by exists (mkWindowWithBuckets x bs).
Qed.

(** ** Every action *)

Lemma init_Inv n : Inv (init n).
Proof.
  assert (Hnil : forall {A} (f : Transform -> list A), f new_transform = [] -> concat (f <$> replicate n new_transform) = [])
    by (intros A f Hf; induction n as [|m IH]; [done|]; cbn; by rewrite Hf, IH).
  split.
  - intros i t Hi. apply lookup_replicate in Hi as [-> _]. split; cbn; try done.
    + by split; [left|].
    + by split; [left|].
    + apply rep_no_variants.
  - by split; [left|].
  - unfold all_out. cbn. rewrite Hnil by done. constructor.
  - intros c k y. unfold all_out. cbn. rewrite Hnil by done. by intros ?%not_elem_of_nil.
  - intros w r _. unfold all_rows. cbn. rewrite Hnil by done. by intros ?%not_elem_of_nil.
Qed.

Lemma act_Inv s i t a s' :
  Inv s -> transforms s !! i = Some t -> (forall chunk, a = Consume chunk -> admissible t chunk) -> act i a s = Ok s' -> Inv s'.
Proof.
  intros HI Hi Hadm. unfold WindowAggregating.act. rewrite Hi. destruct a as [chunk| |].
  - destruct (pc t), (aggregated_chunks t); try done. intros [= <-]. apply (consume_Inv _ _ t); auto.
  - intros Hn. destruct (pc t) eqn:Hpc.
    + unfold next in Hn. by rewrite Hpc in Hn.
    + unfold next in Hn. rewrite Hpc in Hn. injection Hn as <-. by apply align_Inv.
    + unfold next in Hn. rewrite Hpc in Hn. by apply (check_Inv s i t again).
    + unfold next in Hn. rewrite Hpc in Hn. by apply (lock_Inv s i t again).
    + unfold next in Hn. rewrite Hpc in Hn. by apply (prepare_Inv s i t again i0 prepared_windows_with_buckets).
    + by apply (finalize_Inv s i t again prepared_windows_with_buckets).
    + by apply (return_Inv s i t again).
    + unfold next in Hn. rewrite Hpc in Hn. destruct (propagate ops s t) as [t'|] eqn:Hp; [|done]. injection Hn as <-. by apply (propagate_Inv _ _ t).
  - destruct (pc t) eqn:Hpc, (aggregated_chunks t) eqn:Ha; try done. intros [= <-]. rewrite (on_after _ _ t) by done. by apply push_Inv.
Qed.
End Invariant.
