(* ===== verification/WindowAggProps.v ===== *)
(** * Windows from end to end

    Watermark transforms, one per shard, feed the transforms that aggregate windows.  For
    windows that are emitted when they close, whatever the interleaving of the threads,
    what is in the output is what a single pass over all rows that are not late gives for
    the windows up to the finalized watermark: each window once, with all its rows. *)

From stdpp Require Import gmap.
From S2P Require Import Prelude Ordered DateLut StreamTime WindowHelpers WindowSpec Watermark WatermarkSpec TimeBuckets Aggregator.
From S2P Require Import WindowAggregating WindowAggSpec WindowAggInv.

Local Open Scope Z_scope.

Section Pipeline.
Context {Row St Res K : Type} `{Countable K} `{!AggregateOps Row St Res} `{!AggregateFunction Row St Res}.
Context (row_time : Row -> Z) (other_keys : Row -> K) (ops : WindowOps).
Context (usable : Z -> Prop) (is_window : Window -> Prop) `{!WindowFunction ops usable is_window}.
Context (repeat_emit : bool).

Local Abbreviation Transform := (@Transform Row St Res K _ _).
Local Abbreviation Many := (@ManyAggregatedData Row St Res K _ _).
Local Abbreviation SChunk := (Stamper.Chunk (Row := Row)).
Local Abbreviation act_in := (act (St := St) (Res := Res) row_time other_keys ops).
Local Abbreviation act := (act_in AfterWindowClose repeat_emit).
Local Abbreviation Inv := (Inv row_time other_keys ops usable is_window).
Local Abbreviation stamped := (stamped row_time usable).

(** The aggregation reads the rows and the watermark of a chunk. *)
Definition to_chunk (c : SChunk) : Chunk := mkChunk (Stamper.rows c) (Stamper.chunk_watermark c).

(** The transforms, and the chunks on their way to them. *)
Definition Pipeline : Type := Many * list (list SChunk).

(** What a thread does next. *)
Inductive Event : Type :=
  | EvConsume (i : nat)    (** transform [i] takes the next chunk *)
  | EvWork (i : nat)       (** it works without a chunk *)
  | EvNext (i : nat)
  | EvPush (i : nat).

Definition pipeline_step (mode : EmitMode) (e : Event) (x : Pipeline) : res Pipeline :=
  let with_pending p (r : res Many) := match r with Ok s => Ok (s, p) | Err c => Err c | Exn c => Exn c | Undef => Undef end in
  match e with
  | EvConsume i =>
      match x.2 !! i with
      | Some (c :: cs) => with_pending (<[i := cs]> x.2) (act_in mode repeat_emit i (Consume (to_chunk c)) x.1)
      | _ => Undef
      end
  | EvWork i => with_pending x.2 (act_in mode repeat_emit i (Consume (mkChunk [] None)) x.1)
  | EvNext i => with_pending x.2 (act_in mode repeat_emit i Next x.1)
  | EvPush i => with_pending x.2 (act_in mode repeat_emit i Push x.1)
  end.

Fixpoint pipeline_run (mode : EmitMode) (es : list Event) (x : Pipeline) : res Pipeline :=
  match es with
  | [] => Ok x
  | e :: es => match pipeline_step mode e x with Ok x => pipeline_run mode es x | r => r end
  end.

(** ** Levels: the watermark a transform is about to have *)

Definition level (t : Transform) : Z := match pc t with Align w => w | _ => watermark t end.

Definition same_level (s s' : Many) : Prop :=
  forall j u', transforms s' !! j = Some u' -> exists u, transforms s !! j = Some u /\ level u' = level u /\ consumed u' = consumed u.

Lemma same_level_on s i t f :
  transforms s !! i = Some t -> level (f t) = level t -> consumed (f t) = consumed t -> same_level s (on i f s).
Proof.
  intros Hi Hl Hc j u' Hj. cbn in Hj. destruct (decide (i = j)) as [->|Hne].
  - rewrite list_lookup_alter_eq, Hi in Hj. injection Hj as <-. by exists t.
  - rewrite list_lookup_alter_ne in Hj by done. by exists u'.
Qed.

Lemma check_level s i t again s' :
  transforms s !! i = Some t -> pc t = Check again -> check ops AfterWindowClose i again t s = Ok s' -> same_level s s'.
Proof.
  intros Hi Hpc. unfold check. assert (Hl : level t = watermark t) by (unfold level; by rewrite Hpc).
  destruct (try_finalizing_watermark t); [|intros [= <-]; by apply (same_level_on _ _ t)].
  destruct (hasAggregatedResult t); [intros [= <-]; by apply (same_level_on _ _ t)|].
  destruct (needFinalization _ _ _ _ _) as [[]|]; [| |done]; intros [= <-]; by apply (same_level_on _ _ t).
Qed.

Lemma lock_level s i t again s' :
  transforms s !! i = Some t -> pc t = Lock again -> lock AfterWindowClose repeat_emit i again t s = Ok s' -> same_level s s'.
Proof.
  intros Hi Hpc. unfold lock. assert (Hl : level t = watermark t) by (unfold level; by rewrite Hpc).
  destruct (finalizing_mutex s); [intros [= <-]; by apply (same_level_on _ _ t)|]. destruct (try_finalizing_watermark t); [|done].
  destruct (may_prepare _ _ _ _); intros [= <-]; by apply (same_level_on _ _ t).
Qed.

Lemma prepare_level s i t again j ws s' :
  transforms s !! i = Some t -> pc t = Prepare again j ws -> prepare ops AfterWindowClose i again j ws t s = Ok s' -> same_level s s'.
Proof.
  intros Hi Hpc. unfold prepare. assert (Hl : level t = watermark t) by (unfold level; by rewrite Hpc).
  destruct (try_finalizing_watermark t); [|done]. destruct (transforms s !! j).
  - destruct (prepare_shard _ _ _ _ _ _ _); [|done]. intros [= <-]; by apply (same_level_on _ _ t).
  - destruct ws; intros [= <-]; by apply (same_level_on _ _ t).
Qed.

Lemma finalize_level s i t again ws s' :
  transforms s !! i = Some t -> pc t = Finalize again ws -> next ops AfterWindowClose repeat_emit i t s = Ok s' -> same_level s s'.
Proof.
  intros Hi Hpc Hn j u' Hj. unfold next in Hn. rewrite Hpc in Hn. destruct (try_finalizing_watermark t) as [w|]; [|done]. unfold finalize in Hn.
  destruct (finalize_windows _ _ _) as [[many cs]| | |]; try done. injection Hn as <-. rewrite on_on in Hj.
  destruct (finalized_lookup s i again many (set_last_watermark _ cs) w w j u' Hj) as (u & v & Hu & _ & Hc & Hw & _ & _ & Heq & Hne).
  exists u. split; [done|]. split; [|done]. unfold level. destruct (decide (j = i)) as [->|Hji].
  - destruct (Heq eq_refl) as [_ ->]. rewrite Hi in Hu. injection Hu as <-. by rewrite Hpc.
  - destruct (Hne Hji) as (_ & -> & _). by rewrite Hw.
Qed.

Lemma propagate_level s i t t' :
  transforms s !! i = Some t -> pc t = Propagate -> propagate ops s t = Some t' -> same_level s (on i (fun _ => with_pc Idle t') s).
Proof.
  intros Hi Hpc Hp. assert (Hl : level t = watermark t) by (unfold level; by rewrite Hpc).
  assert (Hw : watermark t' = watermark t /\ consumed t' = consumed t).
  { unfold propagate in Hp. destruct (_ <? _); cbn [mbind option_bind] in Hp.
    - destruct (wf_expired _ _); [|done]. cbn in Hp. injection Hp as <-. by destruct (hasAggregatedResult t), (_ && _).
    - injection Hp as <-. by destruct (_ && _). }
  apply (same_level_on _ _ t); [done|by rewrite Hl; apply Hw|apply Hw].
Qed.

Lemma align_level s i t w :
  Inv s -> transforms s !! i = Some t -> pc t = Align w -> same_level s (on i (with_pc (Check false)) (align i w t s)).
Proof.
  intros HI Hi Hpc. pose proof (inv_transforms _ _ _ _ _ _ HI i t Hi) as Ht. pose proof (t_pc _ _ _ _ _ _ _ _ Ht) as Hok. unfold pc_ok in Hok. rewrite Hpc in Hok.
  unfold align. rewrite (proj2 (Z.eqb_neq _ _)) by (apply (valid_not_TIMEOUT ops usable is_window), (t_watermark _ _ _ _ _ _ _ _ Ht)). rewrite (proj2 (Z.ltb_lt _ _)) by apply Hok.
  rewrite !on_on. apply (same_level_on _ _ t); [done| |done]. unfold level. by rewrite Hpc.
Qed.

Lemma next_level s i t s' :
  Inv s -> transforms s !! i = Some t -> next ops AfterWindowClose repeat_emit i t s = Ok s' -> same_level s s'.
Proof.
  intros HI Hi Hn. pose proof Hn as Hn'. unfold next in Hn. destruct (pc t) eqn:Hpc.
  - done.
  - injection Hn as <-. by apply align_level.
  - by apply (check_level s i t again).
  - by apply (lock_level s i t again).
  - by apply (prepare_level s i t again i0 prepared_windows_with_buckets).
  - by apply (finalize_level s i t again prepared_windows_with_buckets).
  - assert (Hl : level t = watermark t) by (unfold level; by rewrite Hpc).
    destruct (_ && _); injection Hn as <-; by apply (same_level_on _ _ t).
  - destruct (propagate ops s t) as [t'|] eqn:Hp; [|done]. injection Hn as <-. by apply (propagate_level _ _ t).
Qed.

(** ** The invariant of the pipeline *)

(** The rows of the stamped streams. *)
Definition rows_of (outs : list (list SChunk)) : list Row := concat ((fun out => concat (Stamper.rows <$> out)) <$> outs).

Record PInv (outs : list (list SChunk)) (x : Pipeline) : Prop := {
  pi_inv : Inv x.1;
  pi_length : length (transforms x.1) = length outs /\ length x.2 = length outs;
  pi_level : forall i t cs, transforms x.1 !! i = Some t -> x.2 !! i = Some cs -> stamped (level t) cs;
  pi_rows : forall i t cs out, transforms x.1 !! i = Some t -> x.2 !! i = Some cs -> outs !! i = Some out ->
    concat (Stamper.rows <$> out) = consumed t ++ concat (Stamper.rows <$> cs);
}.

Lemma stamped_mono lo lo' cs : lo' <= lo -> stamped lo cs -> stamped lo' cs.
Proof.
  revert lo lo'. induction cs as [|c cs IH]; intros lo lo' Hle; [done|]. cbn. intros [Hrows Hw]. split.
  - eapply Forall_impl; [exact Hrows|]. cbn. intros r [? ?]. split; [done|lia].
  - destruct (Stamper.chunk_watermark c); [destruct Hw as (? & ? & ?); split; [done|]; split; [lia|done]|by apply (IH lo)].
Qed.

Lemma convert_length (many : list (Variants (St := St) (K := K))) bs many' (blk : list (Z * K * Res)) :
  mergeAndSpliceAndConvertToChunk many bs = Ok (many', blk) -> length many' = length many.
Proof.
  assert (Hb : mergeAndSpliceAndConvertToBlock many bs = Ok (many', blk) -> length many' = length many).
  { unfold mergeAndSpliceAndConvertToBlock. destruct (filter _ many) as [|v [|v' vs]], bs as [|b [|b' bs]]; intros [= <- _]; by rewrite ?length_fmap. }
  unfold mergeAndSpliceAndConvertToChunk. destruct many as [|v [|v' many]]; [done| |done]. clear Hb.
  destruct (spliceAndConvertToBlock v bs) as [[v' blk']| | |]; [|done..]. by intros [= <- _].
Qed.

Lemma finalize_windows_length ws many many' (cs : list (OutChunk (K := K) (Res := Res))) :
  finalize_windows ops many ws = Ok (many', cs) -> length many' = length many.
Proof.
  revert many many' cs. induction ws as [|x ws IH]; intros many many' cs; cbn [finalize_windows]; [by intros [= <- _]|].
  destruct (mergeAndSpliceAndConvertToChunk many _) as [[many1 blk]| | |] eqn:Hc; [|done..]. apply convert_length in Hc.
  destruct (finalize_windows ops many1 ws) as [[many2 cs2]| | |] eqn:Hf; [|done..]. apply IH in Hf. intros [= <- _]. congruence.
Qed.

Lemma act_length s i a s' : act i a s = Ok s' -> length (transforms s') = length (transforms s).
Proof.
  unfold WindowAggregating.act. destruct (transforms s !! i) as [t|]; [|done].
  assert (Hon : forall f (s : Many), length (transforms (on i f s)) = length (transforms s)) by (intros; cbn; apply length_alter).
  destruct a as [chunk| |]; [destruct (pc t), (aggregated_chunks t); try done; intros [= <-]; apply Hon| |
    destruct (pc t), (aggregated_chunks t); try done; intros [= <-]; apply Hon].
  unfold next. destruct (pc t).
  - done.
  - intros [= <-]. unfold align. repeat (destruct (_ <? _)); rewrite !Hon; done.
  - unfold check. destruct (try_finalizing_watermark t); [|intros [= <-]; apply Hon]. destruct (hasAggregatedResult t); [intros [= <-]; apply Hon|].
    destruct (needFinalization _ _ _ _ _) as [[]|]; [| |done]; intros [= <-]; apply Hon.
  - unfold lock. destruct (finalizing_mutex s); [intros [= <-]; apply Hon|]. destruct (try_finalizing_watermark t); [|done].
    destruct (may_prepare _ _ _ _); intros [= <-]; apply Hon.
  - unfold prepare. destruct (try_finalizing_watermark t); [|done]. destruct (transforms s !! _).
    + destruct (prepare_shard _ _ _ _ _ _ _); [|done]. intros [= <-]; apply Hon.
    + destruct prepared_windows_with_buckets; intros [= <-]; apply Hon.
  - destruct (try_finalizing_watermark t); [|done]. unfold finalize. destruct (finalize_windows _ _ _) as [[many cs]| | |] eqn:Hf; [|done..].
    intros [= <-]. change (length (transforms (with_mutex None ?x))) with (length (transforms x)). rewrite !Hon. cbn. unfold zip_variants.
    apply finalize_windows_length in Hf. rewrite length_fmap in Hf. rewrite length_zip_with. lia.
  - destruct (_ && _); intros [= <-]; apply Hon.
  - destruct (propagate _ _ _); [|done]. intros [= <-]; apply Hon.
Qed.

(** The actions that take no chunk. *)
Lemma PInv_silent outs s s' p :
  PInv outs (s, p) -> Inv s' -> length (transforms s') = length (transforms s) -> same_level s s' -> PInv outs (s', p).
Proof.
  intros [H1 H2 H3 H4] HI Hlen Hsame. cbn in *. split; cbn; [done|by rewrite Hlen| |].
  - intros i t cs Ht Hcs. destruct (Hsame i t Ht) as (u & Hu & -> & _). by apply (H3 i).
  - intros i t cs out Ht Hcs Hout. destruct (Hsame i t Ht) as (u & Hu & _ & ->). by apply (H4 i).
Qed.

Lemma consume_level s i c s' j u' :
  act i (Consume c) s = Ok s' -> transforms s' !! j = Some u' ->
  exists u, transforms s !! j = Some u /\
    if decide (j = i) then pc u = Idle /\ consumed u' = consumed u ++ ck_rows c /\
      level u' = match ck_watermark c with Some w => w | None => watermark u end
    else u' = u.
Proof.
  unfold WindowAggregating.act. destruct (transforms s !! i) as [t|] eqn:Hi; [|done]. destruct (pc t) eqn:Hpc, (aggregated_chunks t); try done.
  intros [= <-] Hj. cbn in Hj. case_decide as Hji.
  - subst j. rewrite list_lookup_alter_eq, Hi in Hj. injection Hj as <-. exists t. split; [done|]. split; [done|]. split; [done|].
    unfold level. cbn. by destruct (ck_watermark c).
  - rewrite list_lookup_alter_ne in Hj by done. by exists u'.
Qed.

Lemma PInv_step outs e x x' : PInv outs x -> pipeline_step AfterWindowClose e x = Ok x' -> PInv outs x'.
Proof.
  destruct x as [s p]. intros HP Hstep. pose proof HP as [H1 H2 H3 H4]. cbn in *.
  assert (Hlook : forall i a s', act i a s = Ok s' -> exists t, transforms s !! i = Some t)
    by (intros i a s'; unfold WindowAggregating.act; destruct (transforms s !! i); eauto; done).
  destruct e as [i|i|i|i]; cbn in Hstep.
  - destruct (p !! i) as [[|c cs]|] eqn:Hp; [done| |done]. destruct (act i _ s) as [s'| | |] eqn:Hact; [|done..]. injection Hstep as <-.
    destruct (Hlook _ _ _ Hact) as [t Ht]. pose proof (H3 i t _ Ht Hp) as Hst. cbn in Hst. destruct Hst as [Hrows Hwm].
    assert (Hidle : pc t = Idle) by (unfold WindowAggregating.act in Hact; rewrite Ht in Hact; by destruct (pc t)).
    assert (Hlev : level t = watermark t) by (unfold level; by rewrite Hidle). rewrite Hlev in *.
    assert (Hadm : admissible row_time usable t (to_chunk c)).
    { split; [done|]. cbn. intros w Hw. rewrite Hw in Hwm. by destruct Hwm as (? & ? & _). }
    split; cbn.
    + eapply act_Inv; [done|exact Ht| |exact Hact]. intros chunk [= <-]. done.
    + rewrite length_insert, (act_length _ _ _ _ Hact). done.
    + intros j u' ds Hu' Hds. destruct (consume_level _ _ _ _ _ _ Hact Hu') as (u & Hu & Hrel). case_decide as Hji.
      * subst j. rewrite Ht in Hu. injection Hu as <-. destruct Hrel as (_ & _ & ->). cbn. rewrite list_lookup_insert_eq in Hds by by eapply lookup_lt_Some.
        injection Hds as <-. destruct (Stamper.chunk_watermark c); [by apply Hwm|done].
      * subst u'. rewrite list_lookup_insert_ne in Hds by done. by apply (H3 j).
    + intros j u' ds out Hu' Hds Hout. destruct (consume_level _ _ _ _ _ _ Hact Hu') as (u & Hu & Hrel). case_decide as Hji.
      * subst j. rewrite Ht in Hu. injection Hu as <-. destruct Hrel as (_ & -> & _). rewrite list_lookup_insert_eq in Hds by by eapply lookup_lt_Some.
        injection Hds as <-. rewrite (H4 i t _ out Ht Hp Hout). cbn. by rewrite app_assoc.
      * subst u'. rewrite list_lookup_insert_ne in Hds by done. by apply (H4 j).
  - destruct (act i _ s) as [s'| | |] eqn:Hact; [|done..]. injection Hstep as <-. destruct (Hlook _ _ _ Hact) as [t Ht].
    assert (Hs' : Inv s') by (eapply act_Inv; [done|exact Ht| |exact Hact]; intros chunk [= <-]; split; [constructor|done]).
    eapply PInv_silent; [exact HP|done|by eapply act_length|]. intros j u' Hu'. destruct (consume_level _ _ _ _ _ _ Hact Hu') as (u & Hu & Hrel).
    exists u. split; [done|]. case_decide; [|by subst u']. destruct Hrel as (Hidle & -> & ->). cbn. unfold level. by rewrite Hidle, app_nil_r.
  - destruct (act i _ s) as [s'| | |] eqn:Hact; [|done..]. injection Hstep as <-. destruct (Hlook _ _ _ Hact) as [t Ht].
    assert (Hs' : Inv s') by (eapply act_Inv; [done|exact Ht| |exact Hact]; done).
    eapply PInv_silent; [exact HP|done|by eapply act_length|]. unfold WindowAggregating.act in Hact. rewrite Ht in Hact.
    apply (next_level s i t); [done|done|]. by destruct (pc t), (aggregated_chunks t).
  - destruct (act i _ s) as [s'| | |] eqn:Hact; [|done..]. injection Hstep as <-. destruct (Hlook _ _ _ Hact) as [t Ht].
    assert (Hs' : Inv s') by (eapply act_Inv; [done|exact Ht| |exact Hact]; done).
    eapply PInv_silent; [exact HP|done|by eapply act_length|]. unfold WindowAggregating.act in Hact. rewrite Ht in Hact.
    destruct (pc t), (aggregated_chunks t); try done. injection Hact as <-. by apply (same_level_on _ _ t).
Qed.

Lemma PInv_run outs es x x' : PInv outs x -> pipeline_run AfterWindowClose es x = Ok x' -> PInv outs x'.
Proof.
  revert x. induction es as [|e es IH]; intros x HP; cbn [pipeline_run]; [by intros [= <-]|].
  destruct (pipeline_step AfterWindowClose e x) as [x1| | |] eqn:He; [|done..]. apply IH. by apply (PInv_step _ e x).
Qed.

(** ** From the invariant to the output *)

Lemma stamped_rows lo cs r : stamped lo cs -> r ∈ concat (Stamper.rows <$> cs) -> lo <= row_time r.
Proof.
  revert lo. induction cs as [|c cs IH]; intros lo; cbn; [by intros _ ?%not_elem_of_nil|]. intros [Hrows Hw] [Hr|Hr]%elem_of_app.
  - rewrite Forall_forall in Hrows. by apply Hrows.
  - destruct (Stamper.chunk_watermark c) as [w|]; [|by apply IH]. destruct Hw as (_ & Hlt & Hs). specialize (IH _ Hs Hr). lia.
Qed.

Lemma concat_zip {A} (l1 l2 : list (list A)) : length l1 = length l2 -> concat (zip_with app l1 l2) ≡ₚ concat l1 ++ concat l2.
Proof.
  revert l2. induction l1 as [|a l1 IH]; intros [|b l2] Hl; try done. cbn in *. rewrite IH by lia.
  rewrite <- !app_assoc. f_equiv. rewrite !app_assoc. f_equiv. apply Permutation_app_comm.
Qed.

Lemma PInv_rows outs x : PInv outs x -> rows_of outs ≡ₚ all_rows x.1 ++ rows_of x.2.
Proof.
  intros [_ [Hl1 Hl2] _ Hrows]. unfold rows_of, all_rows. rewrite <- concat_zip by (rewrite !length_fmap; congruence).
  apply reflexive_eq. f_equal. apply list_eq. intros i. rewrite list_lookup_fmap, lookup_zip_with, !list_lookup_fmap.
  destruct (outs !! i) as [out|] eqn:Ho.
  - pose proof (lookup_lt_Some _ _ _ Ho). destruct (lookup_lt_is_Some_2 (transforms x.1) i) as [t Ht]; [lia|].
    destruct (lookup_lt_is_Some_2 x.2 i) as [cs Hcs]; [lia|]. rewrite Ht, Hcs. cbn. f_equal. by apply (Hrows i).
  - apply lookup_ge_None in Ho. rewrite (lookup_ge_None_2 (transforms x.1)) by lia. done.
Qed.

(** Rows on their way are in no window that is finalized. *)
Lemma PInv_pending outs x : PInv outs x -> Forall (fun r => finalized_watermark x.1 <= row_time r) (rows_of x.2).
Proof.
  intros HP. pose proof HP as [HI [Hl1 Hl2] Hlev _]. apply Forall_forall. intros r Hr. unfold rows_of in Hr.
  apply elem_of_concat_iff in Hr as (rs & (cs & -> & Hcs)%list_elem_of_fmap & Hr). apply list_elem_of_lookup in Hcs as [i Hi].
  pose proof (lookup_lt_Some _ _ _ Hi). destruct (lookup_lt_is_Some_2 (transforms x.1) i) as [t Ht]; [lia|].
  pose proof (stamped_rows _ _ _ (Hlev i t cs Ht Hi) Hr) as Hle. pose proof (inv_transforms _ _ _ _ _ _ HI i t Ht) as Hti.
  destruct (t_watermark _ _ _ _ _ _ _ _ Hti) as [_ HF]. pose proof (t_pc _ _ _ _ _ _ _ _ Hti) as Hpc. unfold pc_ok in Hpc. unfold level in Hle.
  destruct (pc t); lia.
Qed.

Lemma PInv_output outs x c k y :
  PInv outs x ->
  ((c, k), y) ∈ all_out x.1 <->
  exists w, is_window w /\ window_column ops w = c /\ win_end w <= finalized_watermark x.1 /\
    window_result row_time other_keys w k (rows_of outs) = Some y.
Proof.
  intros HP. pose proof (PInv_rows _ _ HP) as Hperm. pose proof (PInv_pending _ _ HP) as Hpend. pose proof (pi_inv _ _ HP) as HI.
  assert (Hres : forall w k, win_end w <= finalized_watermark x.1 ->
    window_result row_time other_keys w k (rows_of outs) = window_result row_time other_keys w k (all_rows x.1)).
  { intros w k' Hle. eapply window_result_new; [exact Hperm|]. eapply Forall_impl; [exact Hpend|]. cbn. lia. }
  destruct (inv_watermark _ _ _ _ _ _ HI) as [_ HEF].
  assert (Hsound : forall c k y, ((c, k), y) ∈ all_out x.1 -> exists w, is_window w /\ window_column ops w = c /\
    win_end w <= finalized_watermark x.1 /\ window_result row_time other_keys w k (rows_of outs) = Some y).
  { intros c' k' y' Hin. destruct (inv_sound _ _ _ _ _ _ HI _ _ _ Hin) as (w & Hw & Hc & He & Hr). exists w.
    split; [done|]. split; [done|]. split; [lia|]. rewrite Hres by lia. done. }
  split; [apply Hsound|]. intros (w & Hw & <- & Hle & Hy).
  assert (Hr : exists r, r ∈ all_rows x.1 /\ covers w (row_time r) /\ other_keys r = k).
  { rewrite Hres in Hy by done. unfold window_result in Hy. destruct (filter _ (all_rows x.1)) as [|r rs] eqn:Hf; [done|]. exists r.
    assert (Hin : r ∈ filter (fun r => covers w (row_time r) /\ other_keys r = k) (all_rows x.1)) by (rewrite Hf; by left).
    apply list_elem_of_filter in Hin as [[? ?] ?]. done. }
  destruct Hr as (r & Hr & Hc & <-). pose proof (inv_complete _ _ _ _ _ _ HI w r Hw Hr Hc Hle) as Hin.
  apply list_elem_of_fmap in Hin as ([[c' k'] y'] & [= <- <-] & Hin). destruct (Hsound _ _ _ Hin) as (w' & Hw' & Hcol & _ & Hy').
  apply window_column_inj in Hcol as ->; [|done|done]. rewrite Hy in Hy'. by injection Hy' as ->.
Qed.

(** ** The pipeline of a query *)

(** What a watermark transform makes of the chunks of a shard. *)
Definition stream_of (now : Z) (params : EmitParams) (skip : bool) (cs : list (Stamper.Clock * SChunk)) (out : list SChunk) : Prop :=
  exists w, WatermarkTransform.create now params skip = Ok w /\ transform_all row_time params w cs = Some out.

(** The results of the windows up to a watermark. *)
Definition results_up_to (wm : Z) (rows : list Row) (out : list (Z * K * Res)) : Prop :=
  NoDup out.*1 /\
  forall c k y, ((c, k), y) ∈ out <->
    exists w, is_window w /\ window_column ops w = c /\ win_end w <= wm /\ window_result row_time other_keys w k rows = Some y.

(** The watermark transforms succeed, and what they give is fit for the aggregation. *)
Lemma streams_PInv params f now skip inputs :
  closing params f -> Forall (Forall (input_ok row_time usable params f)) inputs ->
  exists outs, Forall2 (stream_of now params skip) inputs outs /\ PInv outs (init (length inputs), outs).
Proof.
  intros Hcl Hin. destruct (create_ready params f Hcl now skip) as (st & Hcreate & Hready & Hmax & Hwm).
  assert (Hstreams : exists outs, Forall2 (stream_of now params skip) inputs outs /\ Forall (stamped MIN_WATERMARK) outs).
  { induction Hin as [|cs inputs Hcs _ (outs & H1 & H2)]; [by exists []|].
    destruct (transform_all_stamped row_time usable params f Hcl cs (WatermarkTransform.mk st skip false false)) as (out & Hout & Hs & _);
      [done|by left|done|done|done|]. exists (out :: outs). cbn in Hs. rewrite Hwm in Hs. split; constructor; try done. by eexists. }
  destruct Hstreams as (outs & Hst & Hstamped). exists outs. split; [done|]. pose proof (Forall2_length _ _ _ Hst) as Hlen. split; cbn.
  - apply init_Inv.
  - by rewrite length_replicate.
  - intros i t cs Ht Hcs. apply lookup_replicate in Ht as [-> _]. rewrite Forall_lookup in Hstamped. eapply stamped_mono; [|by eapply Hstamped].
    unfold level, MIN_WATERMARK, INVALID_WATERMARK. cbn. unfold INVALID_WATERMARK. lia.
  - intros i t cs out Ht Hcs Hout. apply lookup_replicate in Ht as [-> _]. rewrite Hcs in Hout. by injection Hout as ->.
Qed.

Lemma pipeline_correct params f now skip inputs :
  closing params f -> Forall (Forall (input_ok row_time usable params f)) inputs ->
  exists outs, Forall2 (stream_of now params skip) inputs outs /\
    forall es s pending, pipeline_run AfterWindowClose es (init (length inputs), outs) = Ok (s, pending) ->
      results_up_to (finalized_watermark s) (rows_of outs) (all_out s).
Proof.
  intros Hcl Hin. destruct (streams_PInv params f now skip inputs Hcl Hin) as (outs & Hst & H0). exists outs. split; [done|].
  intros es s pending Hrun. pose proof (PInv_run _ _ _ _ H0 Hrun) as HP. split; [apply (pi_inv _ _ HP)|]. intros c k y. by apply (PInv_output outs (s, pending)).
Qed.
End Pipeline.

(** ** Hop and tumble windows *)

Section Windows.
Context {Row St Res K : Type} `{Countable K} `{!AggregateOps Row St Res} `{!AggregateFunction Row St Res}.
Context (row_time : Row -> Z) (other_keys : Row -> K).

(** The chunks of shards, at event times of the windows [p]. *)
Definition hop_inputs (p : Hop.Params) (inputs : list (list (Stamper.Clock * Stamper.Chunk (Row := Row)))) : Prop :=
  Forall (Forall (fun kc => plain kc.2 /\ Forall (fun r => hop_event p (row_time r)) (Stamper.rows kc.2))) inputs.

Lemma hop_input_ok (p : Hop.Params) params inputs :
  hop_ok p -> closing params (FnHop p) -> given (delay_interval params) = false -> hop_inputs p inputs ->
  Forall (Forall (input_ok row_time (hop_usable p) params (FnHop p))) inputs.
Proof.
  intros Hok Hcl Hd Hin. eapply Forall_impl; [exact Hin|]. intros cs Hcs. eapply Forall_impl; [exact Hcs|]. intros [k c] [Hp Hr]. split; [done|].
  eapply Forall_impl; [exact Hr|]. intros r Hr'. by apply hop_good_time.
Qed.

(** C3. Hop windows that are emitted when they close: from the raw chunks of any number of
    shards, through their watermark transforms and for every interleaving of the
    transforms that aggregate, the rows in the output are exactly the results of the
    aligned windows that end by the finalized watermark, one per window and key, each over
    all rows of all shards that were not late. *)
Theorem hop_pipeline_correct (p : Hop.Params) (is_start skip repeat_emit : bool) (params : EmitParams) (now : Z)
  (inputs : list (list (Stamper.Clock * Stamper.Chunk (Row := Row)))) :
  hop_ok p -> closing params (FnHop p) -> given (delay_interval params) = false -> hop_inputs p inputs ->
  exists outs, Forall2 (stream_of row_time now params skip) inputs outs /\
    forall es s pending,
      pipeline_run (St := St) (Res := Res) row_time other_keys (hop_ops p is_start) repeat_emit AfterWindowClose es (init (length inputs), outs) = Ok (s, pending) ->
      results_up_to row_time other_keys (hop_ops p is_start) (hop_window p) (finalized_watermark s) (rows_of outs) (all_out s).
Proof.
  intros Hok Hcl Hd Hin. pose proof (hop_function p Hok is_start) as HW.
  apply (pipeline_correct row_time other_keys (hop_ops p is_start) (hop_usable p) (hop_window p) repeat_emit params (FnHop p)); [done|].
  by apply hop_input_ok.
Qed.

(** C9. Tumble windows that are emitted when they close: as for hop windows, the output of
    the pipeline is exactly the results of the windows that end by the finalized
    watermark. *)
Theorem tumble_pipeline_correct (p : Tumble.Params) (is_start skip repeat_emit : bool) (params : EmitParams) (now : Z)
  (inputs : list (list (Stamper.Clock * Stamper.Chunk (Row := Row)))) :
  hop_ok (as_hop p) -> closing params (FnTumble p) -> given (delay_interval params) = false -> hop_inputs (as_hop p) inputs ->
  exists outs, Forall2 (stream_of row_time now params skip) inputs outs /\
    forall es s pending,
      pipeline_run (St := St) (Res := Res) row_time other_keys (tumble_ops p is_start) repeat_emit AfterWindowClose es (init (length inputs), outs) = Ok (s, pending) ->
      results_up_to row_time other_keys (tumble_ops p is_start) (hop_window (as_hop p)) (finalized_watermark s) (rows_of outs) (all_out s).
Proof.
  intros Hok Hcl Hd Hin. pose proof (tumble_function p Hok is_start) as HW.
  apply (pipeline_correct row_time other_keys (tumble_ops p is_start) (hop_usable (as_hop p)) (hop_window (as_hop p)) repeat_emit params (FnTumble p)); [done|].
  eapply Forall_impl; [exact Hin|]. intros cs Hcs. eapply Forall_impl; [exact Hcs|]. intros [k c] [Hp Hr]. split; [done|].
  eapply Forall_impl; [exact Hr|]. intros r Hr'. by apply tumble_good_time.
Qed.
End Windows.
