(* ===== verification/WindowAggLive.v ===== *)
(** * Progress of the window aggregation

    A transform that has work to do is never stuck, whatever the other threads do, and
    every run ends.  With a single shard, what a run has in its output at the end is all
    that the watermark allows. *)

From stdpp Require Import gmap.
From S2P Require Import Prelude Ordered DateLut StreamTime WindowHelpers WindowSpec Watermark WatermarkSpec TimeBuckets Aggregator.
From S2P Require Import WindowAggregating WindowAggSpec WindowAggInv WindowAggProps.

Local Open Scope Z_scope.

Section Progress.
Context {Row St Res K : Type} `{Countable K} `{!AggregateOps Row St Res} `{!AggregateFunction Row St Res}.
Context (row_time : Row -> Z) (other_keys : Row -> K) (ops : WindowOps).
Context (usable : Z -> Prop) (is_window : Window -> Prop) `{!WindowFunction ops usable is_window}.
Context (repeat_emit : bool).

Local Abbreviation Transform := (@Transform Row St Res K _ _).
Local Abbreviation Many := (@ManyAggregatedData Row St Res K _ _).
Local Abbreviation SChunk := (Stamper.Chunk (Row := Row)).
Local Abbreviation Pipeline := (Pipeline (Row := Row) (St := St) (Res := Res) (K := K)).
Local Abbreviation act := (act (St := St) (Res := Res) row_time other_keys ops AfterWindowClose repeat_emit).
Local Abbreviation next := (next (St := St) (Res := Res) ops AfterWindowClose repeat_emit).
Local Abbreviation pipeline_step := (pipeline_step (St := St) (Res := Res) row_time other_keys ops repeat_emit AfterWindowClose).
Local Abbreviation pipeline_run := (pipeline_run (St := St) (Res := Res) row_time other_keys ops repeat_emit AfterWindowClose).
Local Abbreviation Inv := (Inv (St := St) (Res := Res) row_time other_keys ops usable is_window).
Local Abbreviation PInv := (PInv (St := St) (Res := Res) row_time other_keys ops usable is_window).
Local Arguments TIMEOUT_WATERMARK : simpl never.
Local Arguments INVALID_WATERMARK : simpl never.
Local Arguments rows_of : simpl never.

(** ** No transform is stuck *)

Lemma check_enabled (s : Many) i t again : Inv s -> transforms s !! i = Some t -> exists s', check ops AfterWindowClose i again t s = Ok s'.
Proof.
  intros HI Hi. unfold check. destruct (try_finalizing_watermark t) as [w|]; [|eauto]. destruct (hasAggregatedResult t); [eauto|].
  unfold needFinalization. destruct (local_windows _ _ _ _ _ _ _ _ (inv_transforms _ _ _ _ _ _ HI i t Hi)) as (ws & -> & _).
  destruct (_ && _); [eauto|]. cbn [mbind option_bind]. case_match; eauto.
Qed.

Lemma lock_enabled (s : Many) i t again :
  Inv s -> transforms s !! i = Some t -> pc t = Lock again -> exists s', lock AfterWindowClose repeat_emit i again t s = Ok s'.
Proof.
  intros HI Hi Hpc. pose proof (t_pc _ _ _ _ _ _ _ _ (inv_transforms _ _ _ _ _ _ HI i t Hi)) as Hp. unfold pc_ok in Hp. rewrite Hpc in Hp.
  destruct Hp as [_ [w Hw]]. unfold lock. rewrite Hw. destruct (finalizing_mutex s); [eauto|]. destruct (may_prepare _ _ _ _); eauto.
Qed.

Lemma prepare_enabled (s : Many) i t again j ws :
  Inv s -> transforms s !! i = Some t -> pc t = Prepare again j ws -> exists s', prepare ops AfterWindowClose i again j ws t s = Ok s'.
Proof.
  intros HI Hi Hpc. pose proof (t_pc _ _ _ _ _ _ _ _ (inv_transforms _ _ _ _ _ _ HI i t Hi)) as Hp. unfold pc_ok in Hp. rewrite Hpc in Hp.
  destruct Hp as (_ & _ & Hz & w & Hw & _ & Hp). unfold prepare. rewrite Hw. destruct (transforms s !! j) as [tj|] eqn:Hj.
  - destruct (prepare_shard_ok _ _ _ _ _ s w j tj ws HI Hj Hz Hp) as (ws' & -> & _). eauto.
  - destruct ws; eauto.
Qed.

Lemma propagate_enabled (s : Many) i t : Inv s -> transforms s !! i = Some t -> exists t', propagate ops s t = Some t'.
Proof.
  intros HI Hi. unfold propagate. destruct (propagated_watermark t <? finalized_watermark s) eqn:Hlt; [|cbn; eauto]. apply Z.ltb_lt in Hlt.
  destruct (t_propagated _ _ _ _ _ _ _ _ (inv_transforms _ _ _ _ _ _ HI i t Hi)) as [Hv _]. destruct (inv_watermark _ _ _ _ _ _ HI) as [Hf _].
  assert (Hu : usable (finalized_watermark s)).
  { destruct Hf as [HF|HF]; [|done]. destruct Hv as [HP|HP%usable_valid]; unfold INVALID_WATERMARK, MIN_WATERMARK in *; lia. }
  destruct (expired_spec _ Hu) as (x & -> & _). cbn. eauto.
Qed.

Lemma next_enabled (s : Many) i t : Inv s -> transforms s !! i = Some t -> pc t <> Idle -> exists s', next i t s = Ok s'.
Proof.
  intros HI Hi Hne. unfold WindowAggregating.next. destruct (pc t) eqn:Hpc; [done|eauto|by apply check_enabled|by eapply lock_enabled|by eapply prepare_enabled| | |].
  - destruct (finalize_next row_time other_keys ops usable is_window repeat_emit s i t again prepared_windows_with_buckets HI Hi Hpc)
      as (w & e & many & cs & blks & _ & _ & _ & _ & _ & _ & _ & _ & _ & _ & _ & Hn).
    unfold WindowAggregating.next in Hn. rewrite Hpc in Hn. eauto.
  - destruct (_ && _); eauto.
  - destruct (propagate_enabled s i t HI Hi) as [t' ->]. eauto.
Qed.

(** Nothing is left to do. *)
Definition quiescent (x : Pipeline) : Prop :=
  Forall (fun t => pc t = Idle /\ aggregated_chunks t = []) (transforms x.1) /\ Forall (fun cs => cs = []) x.2.

(** A step that is more than a try without a chunk. *)
Definition later (x' x : Pipeline) : Prop := exists e, (forall i, e <> EvWork i) /\ pipeline_step e x = Ok x'.

Lemma progress outs x : PInv outs x -> quiescent x \/ exists x', later x' x.
Proof.
  intros HP. destruct x as [s p]. pose proof (pi_inv _ _ _ _ _ _ _ HP) as HI. destruct (pi_length _ _ _ _ _ _ _ HP) as [Hl1 Hl2]. cbn in HI, Hl1, Hl2.
  destruct (decide (Forall (fun b => b = true) ((fun t => match pc t with Idle => true | _ => false end) <$> transforms s))) as [Hidle|Hidle].
  2: { right. apply not_Forall_Exists, Exists_exists in Hidle; [|intros; apply _]. destruct Hidle as (b & (t & -> & Hin)%list_elem_of_fmap & Hb).
       apply list_elem_of_lookup in Hin as [i Hi]. destruct (next_enabled s i t HI Hi) as [s' Hs']; [intros Hpc; rewrite Hpc in Hb; by apply Hb|]. exists (s', p), (EvNext i).
       split; [done|]. cbn. unfold WindowAggregating.act. rewrite Hi. cbn beta iota. by destruct (pc t) eqn:Hpc, (aggregated_chunks t); rewrite ?Hs'. }
  assert (Hpc : forall i t, transforms s !! i = Some t -> pc t = Idle).
  { intros i t Hi. rewrite Forall_fmap, Forall_lookup in Hidle. specialize (Hidle i t Hi). cbn in Hidle. by destruct (pc t). }
  destruct (decide (Forall (fun n => n = 0%nat) ((fun t => length (aggregated_chunks t)) <$> transforms s))) as [Hcs|Hcs].
  2: { right. apply not_Forall_Exists, Exists_exists in Hcs; [|intros; apply _]. destruct Hcs as (b & (t & -> & Hin)%list_elem_of_fmap & Hb).
       apply list_elem_of_lookup in Hin as [i Hi]. destruct (aggregated_chunks t) as [|c cs] eqn:Ha; [by destruct Hb|]. eexists (_, p), (EvPush i).
       split; [done|]. cbn. unfold WindowAggregating.act. by rewrite Hi, (Hpc i t Hi), Ha. }
  assert (Hnil : forall i t, transforms s !! i = Some t -> aggregated_chunks t = []).
  { intros i t Hi. rewrite Forall_fmap, Forall_lookup in Hcs. specialize (Hcs i t Hi). cbn in Hcs. by destruct (aggregated_chunks t). }
  destruct (decide (Forall (fun n => n = 0%nat) (length <$> p))) as [Hp|Hp].
  - left. split; [apply Forall_lookup; eauto|]. rewrite Forall_fmap in Hp. eapply Forall_impl; [exact Hp|]. intros cs Hc. by destruct cs.
  - right. apply not_Forall_Exists, Exists_exists in Hp; [|intros; apply _]. destruct Hp as (b & (cs & -> & Hin)%list_elem_of_fmap & Hb).
    apply list_elem_of_lookup in Hin as [i Hi]. destruct cs as [|c cs]; [by destruct Hb|]. destruct (lookup_lt_is_Some_2 (transforms s) i) as [t Ht].
    { apply lookup_lt_Some in Hi. lia. }
    eexists (_, <[i := cs]> p), (EvConsume i). split; [done|]. cbn. rewrite Hi. unfold WindowAggregating.act. by rewrite Ht, (Hpc i t Ht), (Hnil i t Ht).
Qed.

(** ** Every run ends *)

(** How many steps a transform is at most away from [Idle], among [n] transforms. *)
Definition steps_left (n : nat) (c : PC) : nat :=
  match c with
  | Idle => 0
  | Propagate => 1
  | Return true => 2
  | Finalize true _ => 3
  | Prepare true j _ => 4 + (n - j)
  | Lock true => 5 + n
  | Check true => 6 + n
  | Return false => 7 + n
  | Finalize false _ => 8 + n
  | Prepare false j _ => 9 + n + (n - j)
  | Lock false => 10 + n + n
  | Check false => 11 + n + n
  | Align _ => 12 + n + n
  end.

Definition pcs (s : Many) : list PC := pc <$> transforms s.

Lemma pcs_on (s : Many) i t f : transforms s !! i = Some t -> pcs (on i f s) = <[i := pc (f t)]> (pcs s).
Proof. intros Hi. unfold pcs. cbn. by rewrite (list_alter_insert _ _ _ t), list_fmap_insert. Qed.

Lemma pcs_finalized s i t again many cs w e :
  transforms s !! i = Some t -> length many = length (transforms s) -> pcs (finalized_state s i again many cs w e) = <[i := Return again]> (pcs s).
Proof.
  intros Hi Hl. unfold pcs. apply list_eq. intros j. rewrite list_lookup_fmap.
  destruct (transforms (finalized_state _ _ _ _ _ _ _) !! j) as [u|] eqn:Hj.
  - destruct (finalized_lookup s i again many cs w e j u Hj) as (t' & v & Ht & _ & _ & _ & _ & _ & Heq & Hne). cbn. destruct (decide (j = i)) as [->|Hji].
    + rewrite list_lookup_insert_eq by (rewrite length_fmap; by eapply lookup_lt_Some). by destruct (Heq eq_refl) as [_ ->].
    + rewrite list_lookup_insert_ne, list_lookup_fmap, Ht by done. cbn. by destruct (Hne Hji) as (_ & -> & _).
  - cbn. symmetry. apply lookup_ge_None. rewrite length_insert, length_fmap. apply lookup_ge_None in Hj. cbn in Hj. unfold zip_variants in Hj.
    rewrite length_alter, length_zip_with in Hj. lia.
Qed.

Lemma next_pcs (s : Many) i t s' :
  Inv s -> transforms s !! i = Some t -> next i t s = Ok s' ->
  exists c, pcs s' = <[i := c]> (pcs s) /\ (steps_left (length (transforms s)) c < steps_left (length (transforms s)) (pc t))%nat.
Proof.
  intros HI Hi Hn. pose proof Hn as Hn'. unfold WindowAggregating.next in Hn. destruct (pc t) eqn:Hpc.
  - done.
  - injection Hn as <-. exists (Check false). split; [|cbn; lia]. unfold align. repeat (destruct (_ <? _)); rewrite ?on_on; by rewrite (pcs_on _ _ t).
  - unfold check in Hn. destruct (try_finalizing_watermark t); [destruct (hasAggregatedResult t); [|destruct (needFinalization _ _ _ _ _) as [[]|]; [| |done]]|];
      injection Hn as <-; rewrite (pcs_on _ _ t) by done; eexists; (split; [done|]); cbn; destruct again; lia.
  - unfold lock in Hn. destruct (finalizing_mutex s); [|destruct (try_finalizing_watermark t); [destruct (may_prepare _ _ _ _)|done]];
      injection Hn as <-; change (pcs (with_mutex ?m ?x)) with (pcs x); rewrite (pcs_on _ _ t) by done; eexists; (split; [done|]); cbn; destruct again; lia.
  - unfold prepare in Hn. destruct (try_finalizing_watermark t); [|done]. destruct (transforms s !! i0) eqn:Hj.
    + destruct (prepare_shard _ _ _ _ _ _ _); [|done]. apply lookup_lt_Some in Hj.
      injection Hn as <-; rewrite (pcs_on _ _ t) by done; eexists; (split; [done|]); cbn; destruct again; lia.
    + destruct prepared_windows_with_buckets; injection Hn as <-; change (pcs (with_mutex ?m ?x)) with (pcs x);
        rewrite (pcs_on _ _ t) by done; eexists; (split; [done|]); cbn; destruct again; lia.
  - destruct (finalize_next row_time other_keys ops usable is_window repeat_emit s i t again prepared_windows_with_buckets HI Hi Hpc)
      as (w & e & many & cs & blks & _ & _ & _ & _ & _ & _ & _ & _ & Htch & _ & _ & Hn2).
    rewrite Hn2 in Hn'. injection Hn' as <-. exists (Return again). split; [|cbn; destruct again; lia]. apply (pcs_finalized _ _ t); [done|].
    apply Forall2_length in Htch. by rewrite length_fmap in Htch.
  - destruct (_ && _) eqn:Hb; injection Hn as <-; rewrite (pcs_on _ _ t) by done; eexists; (split; [done|]); cbn; destruct again; cbn in Hb; (done || lia).
  - destruct (propagate _ _ _) as [t'|]; [|done]. injection Hn as <-. rewrite (pcs_on _ _ t) by done. exists Idle. split; [done|]. cbn. lia.
Qed.

(** Chunks to come, steps to go and chunks to push. *)
Definition to_come (x : Pipeline) : nat := sum_list (length <$> x.2).
Definition to_go (x : Pipeline) : nat := sum_list (steps_left (length (transforms x.1)) <$> pcs x.1).
Definition to_push (x : Pipeline) : nat := sum_list ((fun t => length (aggregated_chunks t)) <$> transforms x.1).

Lemma sum_insert {A} (f : A -> nat) (l : list A) i x y :
  l !! i = Some x -> (sum_list (f <$> <[i := y]> l) + f x = sum_list (f <$> l) + f y)%nat.
Proof.
  revert i. induction l as [|z l IH]; intros [|i]; try done; [intros [= ->]; cbn; lia|]. intros Hi%IH.
  change (f z + sum_list (f <$> <[i := y]> l) + f x = f z + sum_list (f <$> l) + f y)%nat. lia.
Qed.

Lemma later_measure outs x x' :
  PInv outs x -> later x' x ->
  (to_come x' < to_come x)%nat \/
  to_come x' = to_come x /\ ((to_go x' < to_go x)%nat \/ to_go x' = to_go x /\ (to_push x' < to_push x)%nat).
Proof.
  intros HP (e & He & Hstep). destruct x as [s p]. pose proof (pi_inv _ _ _ _ _ _ _ HP) as HI. cbn in HI.
  destruct e as [i|i|i|i]; [|by destruct (He i)| |]; cbn in Hstep.
  - left. destruct (p !! i) as [[|c cs]|] eqn:Hp; [done| |done]. destruct (act i _ s) as [s'| | |] eqn:Hact; [|done..]. injection Hstep as <-.
    unfold to_come. cbn [snd]. pose proof (sum_insert length p i (c :: cs) cs Hp) as Hs. cbn [length] in Hs. lia.
  - right. destruct (act i _ s) as [s'| | |] eqn:Hact; [|done..]. injection Hstep as <-. split; [done|]. left. unfold to_go. cbn [fst].
    rewrite (act_length _ _ _ _ _ _ _ _ Hact). unfold WindowAggregating.act in Hact. destruct (transforms s !! i) as [t|] eqn:Hi; [|done].
    assert (Hn : next i t s = Ok s') by (by destruct (pc t), (aggregated_chunks t)). destruct (next_pcs s i t s' HI Hi Hn) as (c & -> & Hlt).
    pose proof (sum_insert (steps_left (length (transforms s))) (pcs s) i (pc t) c) as Hs.
    unfold pcs in Hs at 1. rewrite list_lookup_fmap, Hi in Hs. specialize (Hs eq_refl). lia.
  - right. destruct (act i _ s) as [s'| | |] eqn:Hact; [|done..]. injection Hstep as <-. split; [done|]. right. unfold to_go, to_push. cbn [fst].
    rewrite (act_length _ _ _ _ _ _ _ _ Hact). unfold WindowAggregating.act in Hact. destruct (transforms s !! i) as [t|] eqn:Hi; [|done].
    destruct (pc t) eqn:Hpc, (aggregated_chunks t) as [|c cs] eqn:Ha; try done. injection Hact as <-. split.
    + rewrite (pcs_on _ _ t) by done. cbn. rewrite list_insert_id; [done|]. unfold pcs. by rewrite list_lookup_fmap, Hi.
    + cbn [on transforms]. rewrite (list_alter_insert _ _ _ t) by done.
      match goal with |- (sum_list (_ <$> <[_ := ?u]> _) < _)%nat => pose proof (sum_insert (fun t : Transform => length (aggregated_chunks t)) _ i t u Hi) as Hs end.
      cbn [aggregated_chunks] in Hs. rewrite Ha in Hs. cbn [length] in Hs. lia.
Qed.

Lemma later_PInv outs x x' : PInv outs x -> later x' x -> PInv outs x'.
Proof. intros HP (e & _ & Hs). by eapply PInv_step. Qed.

Lemma later_ends outs x : PInv outs x -> Acc later x.
Proof.
  remember (to_come x) as a eqn:Ha. revert x Ha. induction (lt_wf a) as [a _ IHa]. intros x.
  remember (to_go x) as b eqn:Hb. revert x Hb. induction (lt_wf b) as [b _ IHb]. intros x.
  remember (to_push x) as c eqn:Hc. revert x Hc. induction (lt_wf c) as [c _ IHc]. intros x Hc Hb Ha HP.
  constructor. intros y Hy. pose proof (later_PInv _ _ _ HP Hy) as HPy.
  destruct (later_measure _ _ _ HP Hy) as [Hlt|[Heq [Hlt|[Heq2 Hlt]]]].
  - by eapply (IHa (to_come y)); [lia|..].
  - by eapply (IHb (to_go y)); [lia|done|congruence|..].
  - by eapply (IHc (to_push y)); [lia|done|congruence|congruence|].
Qed.

Lemma run_app es es' x x' : pipeline_run es x = Ok x' -> pipeline_run (es ++ es') x = pipeline_run es' x'.
Proof.
  revert x. induction es as [|e es IH]; intros x; cbn [app WindowAggProps.pipeline_run]; [by intros [= ->]|].
  destruct (pipeline_step e x); [apply IH|done..].
Qed.

(** Every run can be continued until nothing is left to do. *)
Lemma drains outs x : PInv outs x -> exists es x', pipeline_run es x = Ok x' /\ quiescent x'.
Proof.
  intros HP. pose proof (later_ends _ _ HP) as Hacc. revert HP. induction Hacc as [x _ IH]. intros HP.
  destruct (progress _ _ HP) as [Hq|[y Hy]]; [by exists [], x|]. destruct (IH y Hy (later_PInv _ _ _ HP Hy)) as (es & x' & Hrun & Hq).
  destruct Hy as (e & _ & He). exists (e :: es), x'. split; [|done]. cbn [WindowAggProps.pipeline_run]. by rewrite He.
Qed.

(** ** One shard: the output is complete *)

(** Every window of the rows of [t] that ends by [wm] is in the output. *)
Definition settled (t : Transform) (wm : Z) : Prop :=
  forall w r, is_window w -> r ∈ consumed t -> covers w (row_time r) -> win_end w <= wm ->
    (window_column ops w, other_keys r) ∈ (rows_out t).*1.

Definition alone_pc (s : Many) (t : Transform) : Prop :=
  match pc t with
  | Idle | Propagate | Return _ => try_finalizing_watermark t = None /\ finalizing_mutex s = None /\ settled t (watermark t)
  | Align _ => try_finalizing_watermark t = None /\ finalizing_mutex s = None /\ aggregated_chunks t = [] /\ settled t (watermark t)
  | Check _ | Lock _ => try_finalizing_watermark t = Some (watermark t) /\ finalizing_mutex s = None /\ aggregated_chunks t = []
  | Prepare _ _ _ | Finalize _ _ => try_finalizing_watermark t = Some (watermark t)
  end.

Definition alone (s : Many) : Prop := exists t, transforms s = [t] /\ alone_pc s t.

Lemma finalized_settled (s : Many) t wm : Inv s -> transforms s = [t] -> wm <= finalized_watermark s -> settled t wm.
Proof.
  intros HI Ht Hle w r Hw Hr Hc He. pose proof (inv_complete _ _ _ _ _ _ HI w r Hw) as Hin. unfold all_rows, all_out in Hin.
  rewrite Ht in Hin. cbn in Hin. rewrite !app_nil_r in Hin. apply Hin; [done|done|lia].
Qed.

(** Nothing is left to finalize when no bucket is in a window that ends by the watermark. *)
Lemma nothing_left (s : Many) t wm :
  Inv s -> transforms s = [t] ->
  (forall b x, b ∈ buckets (variants t) -> is_window x -> bucket_in x b -> finalized_window_end s < win_end x <= wm -> False) ->
  settled t wm.
Proof.
  intros HI Ht Hno w r Hw Hr Hc He. destruct (decide (win_end w <= finalized_watermark s)) as [HF|HF].
  { by apply (finalized_settled s t (finalized_watermark s) HI Ht (Z.le_refl _) w r). }
  assert (H0 : transforms s !! 0%nat = Some t) by by rewrite Ht. pose proof (inv_transforms _ _ _ _ _ _ HI _ _ H0) as Hti.
  destruct (inv_watermark _ _ _ _ _ _ HI) as [_ HEF].
  assert (Hl : live row_time ops (propagated_watermark t) r = true) by (apply (open_window_live row_time other_keys ops usable is_window s 0 t r w); try done; lia).
  assert (Hur : usable (row_time r)) by (pose proof (t_rows _ _ _ _ _ _ _ _ Hti) as Hus; rewrite Forall_forall in Hus; by apply Hus).
  destruct (Hno (wf_bucket ops (row_time r)) w); [|done|by apply bucket_in_spec|lia].
  apply (live_bucket row_time other_keys ops usable is_window s 0 t r Hti). by apply list_elem_of_filter.
Qed.

Lemma check_alone (s s' : Many) t again :
  Inv s -> transforms s = [t] -> pc t = Check again -> alone_pc s t -> check ops AfterWindowClose 0 again t s = Ok s' -> alone s'.
Proof.
  intros HI Ht Hpc Ha. unfold alone_pc in Ha. rewrite Hpc in Ha. destruct Ha as (Htry & Hm & Hcs). unfold check, hasAggregatedResult. rewrite Htry, Hcs.
  destruct (needFinalization _ _ _ _ _) as [[]|] eqn:Hneed; [| |done]; intros [= <-]; unfold alone; cbn [on transforms]; rewrite Ht; cbn.
  - eexists. split; [done|]. done.
  - eexists. split; [done|]. cbn. split; [done|]. split; [done|]. change (settled t (watermark t)). unfold needFinalization in Hneed.
    destruct (watermark t <=? finalized_watermark s) eqn:Hle; [apply Z.leb_le in Hle; by apply (finalized_settled s)|].
    cbn [andb onlyEmitFinalizedWindows] in Hneed. rewrite andb_false_r in Hneed.
    assert (H0 : transforms s !! 0%nat = Some t) by by rewrite Ht.
    destruct (local_windows _ _ _ _ _ _ _ _ (inv_transforms _ _ _ _ _ _ HI _ _ H0)) as (ws & Hws & _ & Hin). rewrite Hws in Hneed. cbn [mbind option_bind] in Hneed.
    apply (nothing_left s); [done|done|]. intros b x Hb Hx Hbx Hend. injection Hneed as Hex. apply not_true_iff_false in Hex. apply Hex, existsb_exists.
    exists (mkWindowWithBuckets x (filter (bucket_in x) (buckets (variants t)))). split.
    + apply list_elem_of_In, Hin. split; [done|]. split; [done|]. assert (Hf : b ∈ filter (bucket_in x) (buckets (variants t))) by by apply list_elem_of_filter.
      intros Hn. rewrite Hn in Hf. by apply not_elem_of_nil in Hf.
    + unfold is_invalid_window. cbn. rewrite (proj2 (Z.leb_gt _ _)), (proj2 (Z.ltb_ge _ _)) by lia. by rewrite andb_false_r.
Qed.

Lemma lock_alone (s s' : Many) t again :
  Inv s -> transforms s = [t] -> pc t = Lock again -> alone_pc s t -> lock AfterWindowClose repeat_emit 0 again t s = Ok s' -> alone s'.
Proof.
  intros HI Ht Hpc Ha. unfold alone_pc in Ha. rewrite Hpc in Ha. destruct Ha as (Htry & Hm & Hcs). unfold lock. rewrite Htry, Hm.
  destruct (may_prepare _ _ _ _) eqn:Hmay; intros [= <-]; unfold alone; cbn [on transforms with_mutex]; rewrite Ht; cbn; eexists; (split; [done|]); [done|].
  cbn. split; [done|]. split; [done|]. change (settled t (watermark t)). apply (finalized_settled s); [done|done|]. unfold may_prepare in Hmay. cbn in Hmay.
  destruct (watermark t <=? finalized_watermark s) eqn:Hle; [by apply Z.leb_le|done].
Qed.

Lemma prepare_alone (s s' : Many) t again j ws :
  Inv s -> transforms s = [t] -> pc t = Prepare again j ws -> alone_pc s t -> prepare ops AfterWindowClose 0 again j ws t s = Ok s' -> alone s'.
Proof.
  intros HI Ht Hpc Ha. unfold alone_pc in Ha. rewrite Hpc in Ha. assert (H0 : transforms s !! 0%nat = Some t) by by rewrite Ht.
  pose proof (t_pc _ _ _ _ _ _ _ _ (inv_transforms _ _ _ _ _ _ HI _ _ H0)) as Hp. unfold pc_ok in Hp. rewrite Hpc in Hp.
  destruct Hp as (_ & Hcs & _ & w & Hw & Hlt & Hp). rewrite Ha in Hw. injection Hw as <-. unfold prepare. rewrite Ha. destruct (transforms s !! j) as [tj|] eqn:Hj.
  { destruct (prepare_shard _ _ _ _ _ _ _); [|done]. intros [= <-]. unfold alone. cbn [on transforms]. rewrite Ht. by eexists. }
  destruct ws as [|x ws]; intros [= <-]; unfold alone; cbn [on transforms with_mutex]; rewrite Ht; cbn; eexists; (split; [done|]).
  - cbn. split; [done|]. split; [done|]. change (settled t (watermark t)). apply (nothing_left s); [done|done|]. intros b x Hb Hx Hbx Hend. destruct Hp as (_ & _ & Hh & _).
    destruct (Hh t b x) as (bs & Hin & _); try done; [|by apply not_elem_of_nil in Hin]. apply lookup_ge_None in Hj. rewrite take_ge, Ht by done. by left.
  - cbn. rewrite (proj2 (Z.eqb_neq _ _)); [done|]. destruct (inv_watermark _ _ _ _ _ _ HI) as [[HF|HF%usable_valid] _]; unfold MIN_WATERMARK, INVALID_WATERMARK in *; lia.
Qed.

Lemma finalize_alone (s s' : Many) t again ws :
  Inv s -> transforms s = [t] -> pc t = Finalize again ws -> alone_pc s t -> next 0 t s = Ok s' -> alone s'.
Proof.
  intros HI Ht Hpc Ha Hn. unfold alone_pc in Ha. rewrite Hpc in Ha. assert (H0 : transforms s !! 0%nat = Some t) by by rewrite Ht.
  pose proof (finalize_Inv _ _ _ _ _ _ _ _ _ _ _ _ HI H0 Hpc Hn) as HI'.
  destruct (finalize_next row_time other_keys ops usable is_window repeat_emit s 0 t again ws HI H0 Hpc)
    as (w & e & many & cs & blks & Hw & _ & _ & _ & _ & _ & _ & _ & Htch & _ & _ & Hn'). rewrite Hn in Hn'. injection Hn' as ->.
  rewrite Ha in Hw. injection Hw as <-. apply Forall2_length in Htch. rewrite Ht in Htch. destruct many as [|v [|v' many]]; try done.
  assert (Hts : exists u, transforms (finalized_state s 0 again [v] (set_last_watermark (watermark t) cs) (watermark t) e) = [u] /\
    pc u = Return again /\ try_finalizing_watermark u = None /\ watermark u = watermark t) by (cbn; rewrite Ht; cbn; eexists; split; [done|]; done).
  destruct Hts as (u & Hu & Hpcu & Htryu & Hwu). exists u. split; [done|]. unfold alone_pc. rewrite Hpcu. split; [done|]. split; [done|].
  eapply finalized_settled; [exact HI'|exact Hu|]. cbn. lia.
Qed.

Lemma next_alone (s s' : Many) t : Inv s -> transforms s = [t] -> alone_pc s t -> next 0 t s = Ok s' -> alone s'.
Proof.
  intros HI Ht Ha Hn. assert (H0 : transforms s !! 0%nat = Some t) by by rewrite Ht. pose proof (inv_transforms _ _ _ _ _ _ HI _ _ H0) as Hti.
  pose proof Hn as Hn'. unfold WindowAggregating.next in Hn. destruct (pc t) eqn:Hpc.
  - done.
  - injection Hn as <-. unfold alone_pc in Ha. rewrite Hpc in Ha. destruct Ha as (Htry & Hm & Hcs & _).
    pose proof (t_pc _ _ _ _ _ _ _ _ Hti) as Hok. unfold pc_ok in Hok. rewrite Hpc in Hok. unfold align.
    rewrite (proj2 (Z.eqb_neq _ _)) by (apply (valid_not_TIMEOUT ops usable is_window), (t_watermark _ _ _ _ _ _ _ _ Hti)). rewrite (proj2 (Z.ltb_lt _ _)) by apply Hok.
    unfold alone. cbn [on transforms]. rewrite Ht. cbn. eexists. split; [done|]. cbn. done.
  - by eapply check_alone.
  - by eapply lock_alone.
  - by eapply prepare_alone.
  - by eapply finalize_alone.
  - unfold alone_pc in Ha. rewrite Hpc in Ha. pose proof Ha as (Htry & _). rewrite Htry, bool_decide_false, andb_false_r in Hn by (intros [? [=]]).
    injection Hn as <-. unfold alone. cbn [on transforms]. rewrite Ht. cbn. by eexists.
  - destruct (propagate ops s t) as [t'|] eqn:Hp; [|done]. injection Hn as <-. unfold alone_pc in Ha. rewrite Hpc in Ha. destruct Ha as (Htry & Hm & Hset).
    unfold alone. cbn [on transforms]. rewrite Ht. cbn. eexists. split; [done|]. cbn.
    assert (Hsame : try_finalizing_watermark t' = try_finalizing_watermark t /\ watermark t' = watermark t /\ consumed t' = consumed t /\ rows_out t' = rows_out t).
    { unfold propagate in Hp. unfold rows_out. destruct (_ <? _); cbn [mbind option_bind] in Hp; [destruct (wf_expired _ _); [|done]; cbn in Hp|];
        injection Hp as <-; unfold hasAggregatedResult; destruct (aggregated_chunks t) eqn:Hcs; cbn; rewrite ?andb_false_r, ?Hcs;
        destruct (need_propagate_heartbeat t); cbn; rewrite ?Hcs; (split; [done|]); (split; [done|]); (split; [done|]); rewrite ?fmap_app, ?concat_app; done. }
    destruct Hsame as (E1 & E2 & E3 & E4). unfold settled, rows_out in *. cbn. rewrite E1, E2, E3, E4. done.
Qed.

(** The last watermark of a stream. *)
Definition last_watermark (lo : Z) (cs : list SChunk) : Z := foldl (fun lo c => default lo (Stamper.chunk_watermark c)) lo cs.

Record alone_inv (out : list SChunk) (x : Pipeline) : Prop := {
  al_pinv : PInv [out] x;
  al_alone : alone x.1;
  al_last : forall t cs, transforms x.1 !! 0%nat = Some t -> x.2 !! 0%nat = Some cs -> last_watermark (level t) cs = last_watermark INVALID_WATERMARK out;
}.

Lemma consume_alone (s s' : Many) t c cs :
  transforms s = [t] -> alone_pc s t -> stamped row_time usable (level t) (c :: cs) -> act 0 (Consume (to_chunk c)) s = Ok s' -> alone s'.
Proof.
  intros Ht Ha [Hrows _] Hact. unfold WindowAggregating.act in Hact. rewrite Ht in Hact. cbn [lookup list_lookup] in Hact.
  destruct (pc t) eqn:Hpc, (aggregated_chunks t) eqn:Hcs; try done. injection Hact as <-. unfold alone_pc in Ha. rewrite Hpc in Ha. destruct Ha as (Htry & Hm & Hset).
  assert (Hset' : settled (consume row_time other_keys ops (to_chunk c) t) (watermark t)).
  { intros w r Hw Hr Hc He. cbn in Hr. apply elem_of_app in Hr as [Hr|Hr]; [by apply (Hset w r)|]. rewrite Forall_forall in Hrows.
    destruct (Hrows r Hr) as [_ Hle]. unfold level in Hle. rewrite Hpc in Hle. unfold covers in Hc. lia. }
  unfold alone. cbn [on transforms]. rewrite Ht. cbn [alter list_alter]. eexists. split; [done|]. unfold alone_pc. cbn [consume pc].
  destruct (ck_watermark (to_chunk c)); cbn; rewrite ?Hcs; done.
Qed.

Lemma alone_step out e x x' : alone_inv out x -> pipeline_step e x = Ok x' -> alone_inv out x'.
Proof.
  intros [HP Hal Hl] Hstep. pose proof (PInv_step _ _ _ _ _ _ _ _ _ _ HP Hstep) as HP'. destruct x as [s p]. cbn in Hal, Hl.
  destruct (pi_length _ _ _ _ _ _ _ HP) as [_ Hlp]. pose proof (pi_inv _ _ _ _ _ _ _ HP) as HI. cbn in Hlp, HI. destruct p as [|cs [|? ?]]; try done.
  destruct Hal as (t & Ht & Ha). assert (H0 : transforms s !! 0%nat = Some t) by by rewrite Ht. specialize (Hl t cs H0 eq_refl).
  assert (Hzero : forall i a s', act i a s = Ok s' -> i = 0%nat).
  { intros i a s' Hact. unfold WindowAggregating.act in Hact. rewrite Ht in Hact. by destruct i. }
  destruct e as [i|i|i|i]; cbn in Hstep.
  - destruct i as [|i]; [|done]. cbn in Hstep. destruct cs as [|c cs]; [done|]. destruct (act 0 _ s) as [s'| | |] eqn:Hact; [|done..]. injection Hstep as <-.
    split; [done| |].
    + eapply consume_alone; [done|done| |exact Hact]. by apply (pi_level _ _ _ _ _ _ _ HP 0%nat t (c :: cs)).
    + intros u ds Hu [= <-]. cbn in Hu. destruct (consume_level _ _ _ _ _ _ _ _ _ _ Hact Hu) as (t' & Ht' & Hrel). rewrite H0 in Ht'. injection Ht' as <-.
      cbn in Hrel. destruct Hrel as (Hidle & _ & Hlev). rewrite <- Hl, Hlev. cbn. unfold level. rewrite Hidle. by destruct (Stamper.chunk_watermark c).
  - destruct (act i _ s) as [s'| | |] eqn:Hact; [|done..]. injection Hstep as <-. pose proof (Hzero _ _ _ Hact) as ->. split; [done| |].
    + apply (consume_alone s s' t (Stamper.mkChunk [] None false false false false) []); done.
    + intros u ds Hu [= <-]. cbn in Hu. destruct (consume_level _ _ _ _ _ _ _ _ _ _ Hact Hu) as (t' & Ht' & Hrel). rewrite H0 in Ht'. injection Ht' as <-.
      cbn in Hrel. destruct Hrel as (Hidle & _ & Hlev). rewrite <- Hl, Hlev. cbn. unfold level. by rewrite Hidle.
  - destruct (act i _ s) as [s'| | |] eqn:Hact; [|done..]. injection Hstep as <-. pose proof (Hzero _ _ _ Hact) as ->.
    assert (Hn : next 0 t s = Ok s') by (unfold WindowAggregating.act in Hact; rewrite H0 in Hact; by destruct (pc t), (aggregated_chunks t)).
    split; [done|by eapply next_alone|]. intros u ds Hu [= <-]. destruct (next_level _ _ _ _ _ _ s 0 t s' HI H0 Hn 0%nat u Hu) as (t' & Ht' & -> & _).
    rewrite H0 in Ht'. by injection Ht' as <-.
  - destruct (act i _ s) as [s'| | |] eqn:Hact; [|done..]. injection Hstep as <-. pose proof (Hzero _ _ _ Hact) as ->.
    unfold WindowAggregating.act in Hact. rewrite H0 in Hact. destruct (pc t) eqn:Hpc, (aggregated_chunks t) as [|c ds] eqn:Hcs; try done. injection Hact as <-.
    unfold alone_pc in Ha. rewrite Hpc in Ha. split; [done| |].
    + unfold alone. cbn [fst on transforms]. rewrite Ht. cbn [alter list_alter]. eexists. split; [done|]. unfold alone_pc. cbn. rewrite Hpc.
      unfold settled, rows_out in *. cbn in *. rewrite Hcs in Ha. by rewrite <- (assoc_L (++)).
    + intros u ds' Hu [= <-]. cbn in Hu. rewrite Ht in Hu. injection Hu as <-. rewrite <- Hl. unfold level. cbn. by rewrite Hpc.
Qed.

Lemma alone_run out es x x' : alone_inv out x -> pipeline_run es x = Ok x' -> alone_inv out x'.
Proof.
  revert x. induction es as [|e es IH]; intros x HP; cbn [WindowAggProps.pipeline_run]; [by intros [= <-]|].
  destruct (pipeline_step e x) as [x1| | |] eqn:He; [|done..]. apply IH. by apply (alone_step _ e x).
Qed.

Lemma alone_init out : PInv [out] (init 1, [out]) -> alone_inv out (init 1, [out]).
Proof.
  intros HP. split; [done| |by intros t cs [= <-] [= <-]]. exists new_transform. split; [done|]. split; [done|]. split; [done|].
  intros w r _ Hr. by apply not_elem_of_nil in Hr.
Qed.

(** At the end of a run, everything up to the last watermark is in the output. *)
Lemma alone_complete out x :
  alone_inv out x -> quiescent x ->
  results_up_to row_time other_keys ops is_window (last_watermark INVALID_WATERMARK out) (rows_of [out]) (all_out x.1).
Proof.
  intros [HP (t & Ht & Ha) Hl] [Hq1 Hq2]. destruct x as [s p]. cbn in *. pose proof (pi_inv _ _ _ _ _ _ _ HP) as HI. cbn in HI.
  destruct (pi_length _ _ _ _ _ _ _ HP) as [_ Hlp]. cbn in Hlp. destruct p as [|cs [|? ?]]; try done. apply Forall_inv in Hq2 as ->.
  assert (H0 : transforms s !! 0%nat = Some t) by by rewrite Ht. specialize (Hl t [] H0 eq_refl). cbn in Hl.
  rewrite Forall_lookup in Hq1. destruct (Hq1 _ _ H0) as [Hpc Hcs]. unfold alone_pc in Ha. rewrite Hpc in Ha. destruct Ha as (_ & _ & Hset).
  unfold level in Hl. rewrite Hpc in Hl. rewrite <- Hl.
  assert (Hperm : rows_of [out] ≡ₚ consumed t) by (rewrite (PInv_rows _ _ _ _ _ _ _ HP); unfold all_rows; cbn [fst]; rewrite Ht; cbn; by rewrite !app_nil_r).
  destruct (t_watermark _ _ _ _ _ _ _ _ (inv_transforms _ _ _ _ _ _ HI _ _ H0)) as [_ HF].
  split; [apply HI|]. intros c k y. pose proof (fun c k y => PInv_output _ _ _ _ _ _ _ c k y HP) as Hout. cbn in Hout. split.
  - intros (w & Hw & Hc & He & Hy)%Hout. exists w. split; [done|]. split; [done|]. split; [lia|done].
  - intros (w & Hw & <- & He & Hy). pose proof Hy as Hy'. unfold window_result in Hy. destruct (filter _ (rows_of [out])) as [|r rs] eqn:Hf; [done|].
    assert (Hin : r ∈ filter (fun r => covers w (row_time r) /\ other_keys r = k) (rows_of [out])) by (rewrite Hf; by left).
    apply list_elem_of_filter in Hin as [[Hc <-] Hr]. rewrite Hperm in Hr. pose proof (Hset w r Hw Hr Hc He) as Hin.
    apply list_elem_of_fmap in Hin as ([[c' k'] y'] & [= <- <-] & Hin).
    assert (Hin' : (window_column ops w, other_keys r, y') ∈ all_out s) by (unfold all_out; rewrite Ht; cbn; by rewrite app_nil_r).
    pose proof Hin' as (w' & Hw' & Hcol & _ & Hy2)%Hout. apply window_column_inj in Hcol as ->; [|done|done]. rewrite Hy' in Hy2. by injection Hy2 as ->.
Qed.

(** ** The pipeline of a query *)

Lemma pipeline_terminates params f now skip inputs :
  closing params f -> Forall (Forall (input_ok row_time usable params f)) inputs ->
  exists outs, Forall2 (stream_of row_time now params skip) inputs outs /\
    forall es x, pipeline_run es (init (length inputs), outs) = Ok x ->
      Acc later x /\ exists es' x', pipeline_run es' x = Ok x' /\ quiescent x'.
Proof.
  intros Hcl Hin. destruct (streams_PInv row_time other_keys ops usable is_window params f now skip inputs Hcl Hin) as (outs & Hst & H0).
  exists outs. split; [done|]. intros es x Hrun. pose proof (PInv_run _ _ _ _ _ _ _ _ _ _ H0 Hrun) as HP. split; [by eapply later_ends|by eapply drains].
Qed.

Lemma shard_complete params f now skip cs :
  closing params f -> Forall (input_ok row_time usable params f) cs ->
  exists out, stream_of row_time now params skip cs out /\
    (exists es x, pipeline_run es (init 1, [out]) = Ok x /\ quiescent x) /\
    forall es x, pipeline_run es (init 1, [out]) = Ok x -> quiescent x ->
      results_up_to row_time other_keys ops is_window (last_watermark INVALID_WATERMARK out) (rows_of [out]) (all_out x.1).
Proof.
  intros Hcl Hin. destruct (streams_PInv row_time other_keys ops usable is_window params f now skip [cs] Hcl (proj2 (Forall_singleton _ _) Hin)) as (outs & Hst & H0).
  apply Forall2_cons_inv_l in Hst as (out & outs' & Hout & ->%Forall2_nil_inv_l & ->). exists out. split; [done|]. split; [by eapply drains|].
  intros es x Hrun Hq. apply alone_complete; [|done]. eapply alone_run; [|exact Hrun]. by apply alone_init.
Qed.
End Progress.

(** ** Hop and tumble windows *)

Section Windows.
Context {Row St Res K : Type} `{Countable K} `{!AggregateOps Row St Res} `{!AggregateFunction Row St Res}.
Context (row_time : Row -> Z) (other_keys : Row -> K).


End Windows.
