(* ===== verification/WindowExamples.v ===== *)
(** * Examples of window aggregation

    Sums by key over hop windows of two shards: runs of the pipeline on concrete readings,
    which the theorems of [WindowAggProps] and [WindowAggLive] are applied to, and three
    runs in which the code does less than it promises. *)

From stdpp Require Import gmap.
From S2P Require Import Prelude Ordered DateLut StreamTime WindowHelpers WindowSpec Watermark WatermarkSpec TimeBuckets Aggregator.
From S2P Require Import WindowAggregating WindowAggSpec WindowAggInv WindowAggProps WindowAggLive.

Local Open Scope Z_scope.

Record Reading : Type := mkReading { at_time : Z; sensor : Z; value : Z }.

#[export] Instance sum_ops : AggregateOps Reading Z Z :=
  {| agg_create := 0; agg_add s r := s + value r; agg_merge := Z.add; agg_result s := s |}.
Definition sum_of (l : list Reading) : Z := foldr (fun r n => value r + n) 0 l.

Lemma sum_of_app l l' : sum_of (l ++ l') = sum_of l + sum_of l'.
Proof. unfold sum_of. induction l as [|r l IH]; cbn in *; lia. Qed.

Lemma sum_of_perm l l' : l ≡ₚ l' -> sum_of l = sum_of l'.
Proof. unfold sum_of. induction 1; cbn in *; lia. Qed.

#[export] Instance sum_function : AggregateFunction Reading Z Z.
Proof.
  refine {| agg_spec := sum_of; agg_state s l := s = sum_of l |}; cbn.
  - done.
  - intros s l x ->. rewrite sum_of_app. cbn. lia.
  - intros s l s' l' -> ->. by rewrite sum_of_app.
  - intros s l l' Hp ->. by apply sum_of_perm.
  - done.
Defined.

Definition utc : DateLUTImpl :=
  mkDateLUTImpl (fun _ => mkValues 0 0 0 0 0 0 0 0) (fun _ => mkValues 0 0 0 0 0 0 0 0) (fun _ => 0) (fun _ => 0) true true.

(** [hop(stream, 2s, 4s)] on a [DateTime] column *)
Definition hop2_4 : Hop.Params := Hop.mkParams (mkWindowParams false 0 utc) 4 2 2 Second.
Definition no_interval : WindowInterval := mkInterval 0 Second.
Definition emit (mode : EmitMode) : EmitParams := mkEmitParams (Some (FnHop hop2_4)) mode no_interval no_interval no_interval.

Definition clock : Stamper.Clock := Stamper.mkClock 0 0 0 0.
Definition chunk (rs : list Reading) : Stamper.Clock * Stamper.Chunk (Row := Reading) :=
  (clock, Stamper.mkChunk rs None false false false false).

(** The reading at 97 is late. *)
Definition readings : list (list (Stamper.Clock * Stamper.Chunk (Row := Reading))) :=
  [[chunk [mkReading 100 1 10; mkReading 101 2 5]; chunk [mkReading 107 1 1]];
   [chunk [mkReading 101 1 7]; chunk [mkReading 97 1 100; mkReading 108 2 2]]].

Definition stamped_readings : list (list (Stamper.Chunk (Row := Reading))) :=
  [[Stamper.mkChunk [mkReading 100 1 10; mkReading 101 2 5] (Some 100) false false false false;
    Stamper.mkChunk [mkReading 107 1 1] (Some 106) false false false false];
   [Stamper.mkChunk [mkReading 101 1 7] (Some 100) false false false false;
    Stamper.mkChunk [mkReading 108 2 2] (Some 108) false false false false]].

(** A transform takes a chunk, goes [n] steps and pushes [m] chunks. *)
Definition turn (i n m : nat) : list Event := EvConsume i :: replicate n (EvNext i) ++ replicate m (EvPush i).

Local Abbreviation run_hop mode := (pipeline_run (St := Z) (Res := Z) at_time sensor (hop_ops hop2_4 true) false mode).
Local Abbreviation stream_hop params := (stream_of at_time 0 params false).

Lemma stream_of_det params cs out :
  stream_hop params cs out ->
  match WatermarkTransform.create 0 params false with Ok w => transform_all at_time params w cs | _ => None end = Some out.
Proof. by intros (w & -> & Hout). Qed.

Lemma hop2_4_ok : hop_ok hop2_4.
Proof. split; [done|by repeat split; try lia|cbn; lia|done]. Qed.

Lemma emit_closing : closing (emit AfterWindowClose) (FnHop hop2_4).
Proof. by split. Qed.

Lemma readings_inputs : hop_inputs at_time hop2_4 readings.
Proof. repeat constructor; vm_compute; congruence. Qed.

Lemma readings_streams outs : Forall2 (stream_hop (emit AfterWindowClose)) readings outs -> outs = stamped_readings.
Proof.
  intros (o1 & os1 & H1%stream_of_det & Hs & ->)%Forall2_cons_inv_l. apply Forall2_cons_inv_l in Hs as (o2 & os2 & H2%stream_of_det & ->%Forall2_nil_inv_l & ->).
  vm_compute in H1, H2. by injection H1 as <-; injection H2 as <-.
Qed.

Definition readings_schedule : list Event := turn 0 4 0 ++ turn 1 4 0 ++ turn 0 4 0 ++ turn 1 9 2.

Lemma hop_pipeline_correct_witness :
  exists s, run_hop AfterWindowClose readings_schedule (init 2, stamped_readings) = Ok (s, [[]; []]) /\
    results_up_to at_time sensor (hop_ops hop2_4 true) (hop_window hop2_4) 106 (rows_of stamped_readings)
      [((98, 1), 17); ((98, 2), 5); ((100, 1), 17); ((100, 2), 5)].
Proof.
  destruct (hop_pipeline_correct (St := Z) (Res := Z) at_time sensor hop2_4 true false false (emit AfterWindowClose) 0 readings
    hop2_4_ok emit_closing eq_refl readings_inputs) as (outs & ->%readings_streams & Hres).
  assert (Hrun : exists s, run_hop AfterWindowClose readings_schedule (init 2, stamped_readings) = Ok (s, [[]; []]) /\
    finalized_watermark s = 106 /\ all_out s = [((98, 1), 17); ((98, 2), 5); ((100, 1), 17); ((100, 2), 5)])
    by (eexists; split; [vm_compute; reflexivity|done]).
  destruct Hrun as (s & Hrun & HF & Hout). exists s. split; [done|]. rewrite <- HF, <- Hout. by apply (Hres readings_schedule s [[]; []]).
Defined.


(** One shard *)
Definition shard : list (Stamper.Clock * Stamper.Chunk (Row := Reading)) :=
  [chunk [mkReading 100 1 10; mkReading 101 2 5]; chunk [mkReading 107 1 1; mkReading 103 2 3]].


(** [tumble(stream, 5s)] *)
Definition tumble5 : Tumble.Params := Tumble.mkParams (mkWindowParams false 0 utc) 5 Second.
Definition tumble_emit : EmitParams := mkEmitParams (Some (FnTumble tumble5)) AfterWindowClose no_interval no_interval no_interval.

Lemma tumble5_ok : hop_ok (as_hop tumble5).
Proof. split; [done|by repeat split; try lia|cbn; lia|done]. Qed.

Lemma tumble_pipeline_correct_witness :
  exists out s, stream_of at_time 0 tumble_emit false shard out /\
    pipeline_run (St := Z) (Res := Z) at_time sensor (tumble_ops tumble5 true) false AfterWindowClose (turn 0 4 0 ++ turn 0 8 1) (init 1, [out]) = Ok (s, [[]]) /\
    results_up_to at_time sensor (tumble_ops tumble5 true) (hop_window (as_hop tumble5)) 105 (rows_of [out]) [((100, 1), 10); ((100, 2), 8)].
Proof.
  destruct (tumble_pipeline_correct (St := Z) (Res := Z) at_time sensor tumble5 true false false tumble_emit 0 [shard] tumble5_ok) as (outs & Hst & Hres);
    [by split|done|repeat constructor; vm_compute; congruence|].
  apply Forall2_cons_inv_l in Hst as (out & os & Hst & ->%Forall2_nil_inv_l & ->).
  pose proof (stream_of_det _ _ _ Hst) as Hout. vm_compute in Hout. injection Hout as <-.
  match type of Hst with stream_of _ _ _ _ _ ?out =>
    assert (Hrun : exists s, pipeline_run (St := Z) (Res := Z) at_time sensor (tumble_ops tumble5 true) false AfterWindowClose
        (turn 0 4 0 ++ turn 0 8 1) (init 1, [out]) = Ok (s, [[]]) /\
      finalized_watermark s = 105 /\ all_out s = [((100, 1), 10); ((100, 2), 8)]) by (eexists; split; [vm_compute; reflexivity|done])
  end.
  destruct Hrun as (s & Hrun & HF & Hout). eexists _, s. split; [exact Hst|]. split; [done|]. rewrite <- HF, <- Hout. by apply (Hres (turn 0 4 0 ++ turn 0 8 1) s [[]]).
Defined.

(** ** Runs in which the code does less than it promises *)

(** The streams of the watermark transforms. *)
Definition streams (params : EmitParams) (inputs : list (list (Stamper.Clock * Stamper.Chunk (Row := Reading)))) :=
  match WatermarkTransform.create 0 params false with
  | Ok w => mapM (transform_all at_time params w) inputs
  | _ => None
  end.

(** What is seen of a run at its end. *)
Definition after_run {A} (mode : EmitMode) params inputs (es : list Event)
  (see : list (list (Stamper.Chunk (Row := Reading))) -> ManyAggregatedData (Row := Reading) (St := Z) (Res := Z) (K := Z) -> A) : option A :=
  match streams params inputs with
  | Some outs =>
      match run_hop mode es (init (length inputs), outs) with
      | Ok (s, pending) => if forallb (fun cs => bool_decide (length cs = 0%nat)) pending then Some (see outs s) else None
      | _ => None
      end
  | None => None
  end.

Definition rows_of_key (c k : Z) (s : ManyAggregatedData (Row := Reading) (St := Z) (Res := Z) (K := Z)) : list Z :=
  snd <$> filter (fun x => x.1 = (c, k)) (all_out s).

Definition periodic : EmitParams := mkEmitParams (Some (FnHop hop2_4)) Periodic (mkInterval 1 Second) no_interval no_interval.

(** A chunk at second [n]. *)
Definition chunk_at (n : Z) (rs : list Reading) : Stamper.Clock * Stamper.Chunk (Row := Reading) :=
  (Stamper.mkClock (n * 10 ^ 9) (n * 10 ^ 9) (n * 10 ^ 9) n, Stamper.mkChunk rs None false false false false).

Definition periodic_readings : list (list (Stamper.Clock * Stamper.Chunk (Row := Reading))) :=
  [[chunk_at 1 [mkReading 100 1 10]; chunk_at 2 [mkReading 105 1 1]; chunk_at 3 []; chunk_at 4 [mkReading 120 1 1]];
   [chunk_at 1 [mkReading 101 1 7]; chunk_at 1 [mkReading 101 1 3]; chunk_at 3 [mkReading 102 1 50]; chunk_at 4 [mkReading 120 2 1]]].

Definition periodic_schedule : list Event :=
  turn 0 9 2 ++ turn 1 9 2 ++ turn 0 9 4 ++ turn 1 2 0 ++ turn 0 9 4 ++ turn 1 9 2 ++ turn 0 9 4 ++ turn 1 9 4.


Definition race_readings : list (list (Stamper.Clock * Stamper.Chunk (Row := Reading))) :=
  [[chunk [mkReading 100 1 10]; chunk [mkReading 108 1 1]]; [chunk [mkReading 100 1 1; mkReading 106 1 1]; chunk [mkReading 108 1 1]]].

Definition race_schedule : list Event :=
  turn 0 4 0 ++ turn 1 4 0 ++ (EvConsume 0 :: replicate 7 (EvNext 0)) ++ turn 1 9 1 ++ replicate 2 (EvNext 0) ++ replicate 2 (EvPush 0).

(** Between the end of its finalization and its [propagateWatermarkAndClearExpiredStates]
    the first shard is overtaken by the second: it records that it propagated the watermark
    108, while the last watermark that it sent is 106. *)
Example watermark_not_propagated :
  after_run AfterWindowClose (emit AfterWindowClose) race_readings race_schedule
    (fun _ s => ((fun t => (pc t, aggregated_chunks t)) <$> transforms s, propagated_watermark <$> transforms s, (fun t => omap oc_watermark (output t)) <$> transforms s))
  = Some ([(Idle, []); (Idle, [])], [108; 108], [[106]; [108]]).
Proof. vm_compute. reflexivity. Qed.

Definition gap_readings : list (list (Stamper.Clock * Stamper.Chunk (Row := Reading))) :=
  [[chunk [mkReading 100 1 10]; chunk [mkReading 106 1 1]]; [chunk [mkReading 106 1 1]]].

(** [needFinalization] looks at the buckets of the shard that aligns the watermark only:
    both shards are at 106, and the windows up to there, which hold a reading of the first
    shard, are not emitted. *)
Example closed_window_not_emitted :
  after_run AfterWindowClose (emit AfterWindowClose) gap_readings (turn 0 4 0 ++ turn 0 4 0 ++ turn 1 4 0)
    (fun outs s => (watermark <$> transforms s, all_out s, window_result at_time sensor (mkWindow 100 104) 1 (rows_of outs)))
  = Some ([106; 106], [], Some 10).
Proof. vm_compute. reflexivity. Qed.
