(* ===== verification/CountedValueMap.v ===== *)
(** * Values with counts
      (src/AggregateFunctions/Streaming/CountedValueMap.h and the states of min and max in
      AggregateFunctionMinMax.h)

    The state of [min] and [max] over a changelog: the values seen, each with its count,
    in the order of the aggregate, of which at most a given number is kept.  Retracting a
    value lowers its count.  Keys are numbers; the arena that holds strings is left out. *)

From stdpp Require Import sorting.
From S2P Require Import Prelude Codec.

Local Open Scope Z_scope.
Local Open Scope prog_scope.

Module CountedValueMap.
Section Map.
Context (maximum : bool).

(** [Compare]: less for [min], greater for [max]. *)
Definition less (l r : Z) : bool := if maximum then r <? l else l <? r.
Definition greater (l r : Z) : bool := less r l.

(** The ordered map [m], its entries in the order of iteration. *)
Record t : Type := mk { max_size : Z; m : list (Z * Z) }.

(** ** The ordered map *)

Fixpoint find (v : Z) (l : list (Z * Z)) : option Z :=
  match l with [] => None | (k, c) :: l => if k =? v then Some c else find v l end.

(** [m.emplace]: nothing happens when the key is there. *)
Fixpoint map_emplace (v count : Z) (l : list (Z * Z)) : list (Z * Z) :=
  match l with
  | [] => [(v, count)]
  | (k, c) :: l' => if less v k then (v, count) :: l else if less k v then (k, c) :: map_emplace v count l' else l
  end.
Fixpoint map_update (v : Z) (f : Z -> Z) (l : list (Z * Z)) : list (Z * Z) :=
  match l with [] => [] | (k, c) :: l => if k =? v then (k, f c) :: l else (k, c) :: map_update v f l end.
Fixpoint map_erase (v : Z) (l : list (Z * Z)) : list (Z * Z) :=
  match l with [] => [] | (k, c) :: l => if k =? v then l else (k, c) :: map_erase v l end.

Definition size (s : t) : Z := Z.of_nat (length (m s)).
Definition with_map (l : list (Z * Z)) (s : t) : t := mk (max_size s) l.

(** ** Operations *)

Definition create (max_size : Z) : t := mk max_size [].
Definition atCapacity (s : t) : bool := size s =? max_size s.
Definition empty (s : t) : bool := match m s with [] => true | _ => false end.
Definition firstValue (s : t) : option Z := fst <$> head (m s).
Definition lastValue (s : t) : option Z := fst <$> last (m s).
Definition contains (v : Z) (s : t) : bool := match find v (m s) with Some _ => true | None => false end.
Definition clear (s : t) : t := with_map [] s.

(** [less(lastValue(), v)] of a map that is not empty. *)
Definition last_less (s : t) (v : Z) : bool := match lastValue s with Some k => less k v | None => false end.

(** [eraseExtraElements]; one turn per entry is enough. *)
Fixpoint erase_loop (fuel : nat) (s : t) : t :=
  match fuel with
  | O => s
  | S fuel => if max_size s <? size s then erase_loop fuel (with_map (removelast (m s)) s) else s
  end.
Definition eraseExtraElements (s : t) : t := erase_loop (length (m s)) s.

(** [emplace] and [insert]: whether the value is in the map. *)
Definition insert (v : Z) (s : t) : t * bool :=
  if atCapacity s && last_less s v then (s, false)
  else
    match find v (m s) with
    | Some _ => (with_map (map_update v (fun c => to_u32 (c + 1)) (m s)) s, true)
    | None => let s := eraseExtraElements (with_map (map_emplace v 1 (m s)) s) in (s, contains v s)
    end.

Definition erase (v : Z) (s : t) : t * bool :=
  match find v (m s) with
  | Some c => (with_map (if to_u32 (c - 1) =? 0 then map_erase v (m s) else map_update v (fun c => to_u32 (c - 1)) (m s)) s, true)
  | None => (s, false)
  end.

(** [insert] with a count, for reading a state. *)
Definition insert_count (v count : Z) (s : t) : t := with_map (map_emplace v count (m s)) s.
Definition setCapacity (n : Z) (s : t) : t := mk n (m s).

(** [clearAndClone] *)
Definition clearAndClone (rhs s : t) : t :=
  with_map (foldl (fun l x => map_emplace x.1 x.2 l) [] (m rhs)) s.

Definition doMerge (copy : bool) (x : Z * Z) (s : t) : t :=
  with_map
    (match find x.1 (m s) with
     | Some _ => map_update x.1 (fun c => to_u32 (c + x.2)) (m s)
     | None => map_emplace x.1 (if copy then 1 else x.2) (m s)
     end) s.

Fixpoint merge_loop (copy : bool) (l : list (Z * Z)) (s : t) : t :=
  match l with
  | [] => s
  | x :: l => if atCapacity s && last_less s x.1 then s else merge_loop copy l (doMerge copy x s)
  end.

(** [first_greater]: [greater(firstValue(), rhs.lastValue())] of maps that are not empty. *)
Definition first_greater (s rhs : t) : bool :=
  match firstValue s, lastValue rhs with Some f, Some l => greater f l | _, _ => false end.

(** [merge<copy>]; a swap gives [s] what [rhs] was. *)
Definition merge (copy : bool) (s rhs : t) : t :=
  let take_over := if copy then clearAndClone rhs s else rhs in
  if empty rhs then s
  else if empty s then take_over
  else if atCapacity s && match firstValue rhs with Some v => last_less s v | None => false end then s
  else if atCapacity rhs && (max_size rhs =? max_size s) && first_greater s rhs then take_over
  else eraseExtraElements (merge_loop copy (m rhs) s).

(** ** The states of [min] and [max] *)

Definition add (v : Z) (s : t) : t := (insert v s).1.
Definition negate (v : Z) (s : t) : t := (erase v s).1.
Definition has (s : t) : bool := negb (empty s).

Definition write (s : t) : list Z :=
  writeVarInt (size s) ++ concat ((fun x => writeInt64 x.1 ++ writeVarUInt x.2) <$> m s).

Fixpoint read_entries (n : nat) (s : t) : reader t :=
  match n with
  | O => ret s
  | S n => v <- readInt64;; c <- readVarUInt32;; read_entries n (insert_count v c s)
  end.
Definition read (s : t) : reader t :=
  n <- readVarInt;; read_entries (Z.to_nat n) (setCapacity (Z.max n (max_size s)) s).

End Map.
End CountedValueMap.
