(* ===== verification/CountedValueProps.v ===== *)
(** * Properties of values with counts

    A map [approx]imates counts of values to a depth [j]: no entry counts more than there
    is, and a value whose entry is missing or too low comes after [j] others of the map.
    Additions, cutting off what is too much, and merges keep the depth; a retraction that
    takes an entry out costs one.  A merge that copies may lower counts, but loses no
    value, so it is a moving merge of a map with lower counts ([merge_copy]).  States are
    described by the [history] of operations that built them up; the theorems at the end
    say what the state of any history holds, and that it can be written and read back. *)

From stdpp Require Import sorting.
From S2P Require Import Prelude Codec CountedValueMap.

Local Open Scope Z_scope.

Module CountedValues.
Import CountedValueMap.
Section Spec.
Context (maximum : bool).
Local Abbreviation less := (less maximum).
Local Notation "a ≺ b" := (less a b = true) (at level 70).
Local Abbreviation map_emplace := (map_emplace maximum).
Local Abbreviation insert := (insert maximum).
Local Abbreviation merge := (merge maximum).

Lemma less_irrefl a : less a a = false.
Proof. unfold CountedValueMap.less. destruct maximum; lia. Qed.

Lemma less_trans a b c : a ≺ b -> b ≺ c -> a ≺ c.
Proof. unfold CountedValueMap.less. destruct maximum; lia. Qed.

Lemma less_total a b : a ≺ b \/ a = b \/ b ≺ a.
Proof. unfold CountedValueMap.less. destruct maximum; lia. Qed.

Lemma less_asym a b : a ≺ b -> less b a = false.
Proof. unfold CountedValueMap.less. destruct maximum; lia. Qed.

(** ** Ordered lists of entries *)

Definition below (x y : Z * Z) : Prop := x.1 ≺ y.1.
Definition sorted (l : list (Z * Z)) : Prop := StronglySorted below l.

Lemma sorted_cons x l : sorted (x :: l) <-> Forall (below x) l /\ sorted l.
Proof. split; [by inversion 1|]. intros [H1 H2]. by constructor. Qed.

Lemma find_None k l : find k l = None <-> k ∉ l.*1.
Proof.
  induction l as [|[a c] l IH]; cbn; [split; [intros _ ?%not_elem_of_nil; done|done]|]. rewrite not_elem_of_cons, <- IH.
  destruct (Z.eqb_spec a k); split; try done; naive_solver.
Qed.

Lemma find_elem k l c : find k l = Some c -> (k, c) ∈ l.
Proof.
  induction l as [|[a d] l IH]; [done|]. cbn. destruct (Z.eqb_spec a k) as [->|]; [intros [= ->]; by left|]. intros H%IH. by right.
Qed.

Lemma length_map_update v f l : length (map_update v f l) = length l.
Proof. induction l as [|[a d] l IH]; [done|]. cbn. destruct (a =? v); cbn; [done|by rewrite IH]. Qed.

Lemma find_below k l a c : sorted ((a, c) :: l) -> k = a \/ k ≺ a -> find k l = None.
Proof.
  intros [Hf _]%sorted_cons Hk. apply find_None. intros (x & -> & Hx)%list_elem_of_fmap. rewrite Forall_forall in Hf.
  specialize (Hf x Hx). unfold below in Hf. cbn in Hf. destruct Hk as [Hk|Hk]; [|pose proof (less_trans _ _ _ Hk Hf) as Hk'];
    [rewrite Hk in Hf|]; by rewrite less_irrefl in *.
Qed.

(** Adding [n] to the count of [v]. *)
Fixpoint plus (v n : Z) (l : list (Z * Z)) : list (Z * Z) :=
  match l with
  | [] => [(v, n)]
  | (k, c) :: l' => if less v k then (v, n) :: l else if less k v then (k, c) :: plus v n l' else (k, c + n) :: l'
  end.

Lemma find_plus k v n l : sorted l -> find k (plus v n l) = if k =? v then Some (default 0 (find v l) + n) else find k l.
Proof.
  intros Hs. induction l as [|[a c] l IH]; cbn [plus find].
  - rewrite (Z.eqb_sym v k). destruct (k =? v); [f_equal; cbn; lia|done].
  - pose proof Hs as [_ Hs']%sorted_cons. specialize (IH Hs'). destruct (less v a) eqn:Hva; [|destruct (less a v) eqn:Hav]; cbn [find].
    + assert (a <> v) by (intros ->; by rewrite less_irrefl in Hva). rewrite (Z.eqb_sym v k).
      destruct (Z.eqb_spec k v) as [->|]; [|done]. rewrite (proj2 (Z.eqb_neq a v)) by done. rewrite (find_below v l a c Hs) by by right. f_equal; cbn; lia.
    + assert (a <> v) by (intros ->; by rewrite less_irrefl in Hav). rewrite IH, (proj2 (Z.eqb_neq a v)) by done.
      destruct (Z.eqb_spec a k) as [->|]; [|done]. by rewrite (proj2 (Z.eqb_neq k v)).
    + assert (a = v) as -> by (destruct (less_total a v) as [?|[?|?]]; congruence). rewrite Z.eqb_refl, (Z.eqb_sym v k). by destruct (k =? v).
Qed.

Lemma plus_below v n l a : a ≺ v -> Forall (fun x => a ≺ x.1) l -> Forall (fun x => a ≺ x.1) (plus v n l).
Proof.
  intros Hv Hl. induction Hl as [|[k c] l Hk Hl IH]; cbn; [by constructor|].
  destruct (less v k), (less k v); repeat constructor; done.
Qed.

Lemma plus_sorted v n l : sorted l -> sorted (plus v n l).
Proof.
  intros Hs. induction l as [|[k c] l IH]; cbn [plus]; [by repeat constructor|]. pose proof Hs as [Hf Hs']%sorted_cons. specialize (IH Hs').
  destruct (less v k) eqn:Hvk; [|destruct (less k v) eqn:Hkv]; apply sorted_cons; (split; [|done]).
  - constructor; [done|]. eapply Forall_impl; [exact Hf|]. intros x Hx. by eapply less_trans.
  - by apply plus_below.
  - done.
Qed.

Lemma plus_pos v n l : 0 < n -> Forall (fun x => 0 < x.2) l -> Forall (fun x => 0 < x.2) (plus v n l).
Proof.
  intros Hn Hl. induction Hl as [|[k c] l Hk Hl IH]; cbn; [by repeat constructor|].
  cbn in Hk. destruct (less v k), (less k v); repeat constructor; cbn; try done; lia.
Qed.

(** ** How many keys are below *)

Definition nless (k : Z) (l : list (Z * Z)) : nat := length (filter (fun x => x.1 ≺ k) l).

Lemma nless_cons k x l : nless k (x :: l) = (if decide (x.1 ≺ k) then S (nless k l) else nless k l).
Proof. unfold nless. rewrite filter_cons. by case_decide. Qed.

Lemma nless_length k l : (nless k l <= length l)%nat.
Proof. apply length_filter. Qed.

Lemma nless_all k l : nless k l = length l <-> Forall (fun x => x.1 ≺ k) l.
Proof.
  induction l as [|x l IH]; [done|]. rewrite nless_cons, Forall_cons. pose proof (nless_length k l). cbn [length]. case_decide; [|split; [lia|naive_solver]].
  rewrite <- IH. split; [intros [= ->]; done|intros [_ ->]; done].
Qed.

Lemma nless_plus k v n l : (nless k l <= nless k (plus v n l))%nat.
Proof.
  induction l as [|[a c] l IH]; cbn [plus]; [cbn; lia|]. destruct (less v a), (less a v); rewrite !nless_cons; cbn [fst]; repeat case_decide; lia.
Qed.

Lemma plus_key v n l (x : Z * Z) : x ∈ l -> exists y, y ∈ plus v n l /\ y.1 = x.1.
Proof.
  induction l as [|[a c] l IH]; [by intros ?%not_elem_of_nil|]. cbn [plus]. intros Hx. destruct (less v a); [exists x; split; [by right|done]|].
  destruct (less a v); apply elem_of_cons in Hx as [->|Hx].
  - exists (a, c). split; [by left|done].
  - destruct (IH Hx) as (y & Hy & Heq). exists y. split; [by right|done].
  - exists (a, c + n). split; [by left|done].
  - exists x. split; [by right|done].
Qed.

(** In an ordered list the entries below a key come first. *)
Lemma nless_take k n l : sorted l -> (n <= nless k l)%nat -> length (take n l) = n /\ Forall (fun x => x.1 ≺ k) (take n l).
Proof.
  revert n. induction l as [|x l IH]; intros n Hs Hn; [assert (n = 0%nat) as -> by (cbn in Hn; lia); done|].
  destruct n as [|n]; [done|]. pose proof Hs as [Hf Hs']%sorted_cons. rewrite nless_cons in Hn. case_decide as Hx.
  - destruct (IH n Hs' ltac:(lia)) as [H1 H2]. cbn. split; [by rewrite H1|by constructor].
  - exfalso. assert (nless k l = 0%nat); [|lia]. unfold nless. rewrite filter_none; [done|]. eapply Forall_impl; [exact Hf|]. intros y Hy Hyk.
    apply Hx. by eapply less_trans.
Qed.

(** ** Approximation *)

Definition count_in (l : list (Z * Z)) (k : Z) : Z := default 0 (find k l).
Definition bump (h : Z -> Z) (v c : Z) (k : Z) : Z := h k + (if k =? v then c else 0).

(** The map [l] holds the counts [h] to a depth of [j] values: no entry counts more than there is, and a value whose
    entry is not exact comes after [j] others of the map. *)
Definition approx (j : nat) (h : Z -> Z) (l : list (Z * Z)) : Prop :=
  sorted l /\ Forall (fun x => 0 < x.2) l /\ forall k, count_in l k <= h k /\ (h k = count_in l k \/ (j <= nless k l)%nat).

Lemma count_nonneg l k : Forall (fun x => 0 < x.2) l -> 0 <= count_in l k.
Proof.
  intros Hp. unfold count_in. destruct (find k l) as [c|] eqn:Hf; [|done]. rewrite Forall_forall in Hp. specialize (Hp _ (find_elem _ _ _ Hf)). cbn in *. lia.
Qed.

Lemma count_plus v n l k : sorted l -> count_in (plus v n l) k = bump (count_in l) v n k.
Proof. intros Hs. unfold count_in, bump. rewrite find_plus by done. destruct (Z.eqb_spec k v) as [->|]; [done|lia]. Qed.

Lemma approx_plus j h v c l : 0 < c -> approx j h l -> approx j (bump h v c) (plus v c l).
Proof.
  intros Hc (Hs & Hp & Hk). split; [by apply plus_sorted|]. split; [by apply plus_pos|]. intros k. rewrite count_plus by done. unfold bump.
  destruct (Hk k) as [Hle He]. split; [lia|]. destruct He as [He|He]; [left; lia|right; pose proof (nless_plus k v c l); lia].
Qed.

Lemma sorted_take n l : sorted l -> sorted (take n l).
Proof.
  intros Hs. revert n. induction Hs as [|x l Hs IH Hf]; intros [|n]; cbn; try constructor; [apply IH|]. by apply Forall_take.
Qed.

Lemma find_take k n l : sorted l -> find k (take n l) = find k l \/ find k (take n l) = None /\ ((n <= nless k l)%nat).
Proof.
  revert n. induction l as [|[a c] l IH]; intros n Hs; [left; by destruct n|]. destruct n as [|n]; [right; split; [done|lia]|]. cbn [take find].
  destruct (Z.eqb_spec a k) as [->|Hne]; [by left|]. pose proof Hs as [Hf Hs']%sorted_cons. destruct (less_total a k) as [Hak|[Hak|Hka]]; [|done|].
  - destruct (IH n Hs') as [Heq|[Hn Hle]]; [by left|right]. split; [done|]. rewrite nless_cons. cbn. rewrite decide_True by done. lia.
  - left. rewrite (find_below k l a c Hs) by by right. apply find_None. intros (x & -> & Hx%elem_of_take)%list_elem_of_fmap.
    destruct Hx as (i & Hx & _). rewrite Forall_lookup in Hf. specialize (Hf i x Hx). unfold below in Hf. cbn in Hf.
    pose proof (less_trans _ _ _ Hka Hf) as Hk. by rewrite less_irrefl in Hk.
Qed.

Lemma nless_all_take k j n l : sorted l -> (j <= n)%nat -> (j <= nless k l)%nat -> (j <= nless k (take n l))%nat.
Proof.
  intros Hs Hjn Hj. destruct (nless_take k j l Hs Hj) as [Hl Ha]. apply nless_all in Ha. rewrite <- Hl, <- Ha. rewrite <- (take_drop j (take n l)), take_take, Nat.min_l by done.
  unfold nless. rewrite filter_app, length_app. lia.
Qed.

Lemma approx_take j n h l : (j <= n)%nat -> approx j h l -> approx j h (take n l).
Proof.
  intros Hj (Hs & Hp & Hk). split; [by apply sorted_take|]. split; [by apply Forall_take|]. intros k.
  destruct (Hk k) as [Hle He]. pose proof (count_nonneg l k Hp). unfold count_in in *. destruct (find_take k n l Hs) as [Hf|[Hf Hn]]; rewrite Hf.
  - split; [done|]. destruct He as [He|He]; [by left|right]. by apply nless_all_take.
  - split; [cbn; lia|right]. apply nless_all_take; [done|done|lia].
Qed.

(** Values above a map with [j] entries do not count. *)
Lemma approx_above j h v c l :
  0 <= c -> approx j h l -> (j <= length l)%nat -> Forall (fun x => x.1 ≺ v) l -> approx j (bump h v c) l.
Proof.
  intros Hc (Hs & Hp & Hk) Hl Hv. split; [done|]. split; [done|]. intros k. unfold bump. destruct (Hk k) as [Hle He]. destruct (Z.eqb_spec k v) as [->|].
  - split; [lia|right]. apply nless_all in Hv. lia.
  - split; [lia|]. destruct He; [left; lia|by right].
Qed.

Lemma approx_ext j h h' l : (forall k, h k = h' k) -> approx j h l -> approx j h' l.
Proof. intros Hh (Hs & Hp & Hk). split; [done|]. split; [done|]. intros k. rewrite <- Hh. apply Hk. Qed.

Lemma approx_le i j h l : (i <= j)%nat -> approx j h l -> approx i h l.
Proof. intros Hi (Hs & Hp & Hk). split; [done|]. split; [done|]. intros k. destruct (Hk k) as [? [?|?]]; (split; [done|]); [by left|right; lia]. Qed.

(** ** Cutting off, and the ends of the map *)

Lemma erase_loop_take fuel s :
  0 <= max_size s -> (length (m s) <= Z.to_nat (max_size s) + fuel)%nat ->
  erase_loop fuel s = with_map (take (Z.to_nat (max_size s)) (m s)) s.
Proof.
  revert s. induction fuel as [|fuel IH]; intros [n l] Hn Hl; cbn in *; [by rewrite take_ge by lia|]. unfold size. cbn.
  destruct (Z.ltb_spec n (Z.of_nat (length l))) as [Hlt|Hge]; [|by rewrite take_ge by lia].
  assert (Hr : length (removelast l) = pred (length l)).
  { destruct l as [|x l _] using rev_ind; [done|]. rewrite removelast_last, length_app. cbn. lia. }
  rewrite IH; cbn; [|done|lia]. unfold with_map. cbn. f_equal. destruct l as [|x l _] using rev_ind; [cbn in Hlt; lia|].
  rewrite removelast_last in *. rewrite length_app in Hlt. cbn in Hlt. by rewrite take_app_le by lia.
Qed.

Lemma eraseExtraElements_take s : 0 <= max_size s -> eraseExtraElements s = with_map (take (Z.to_nat (max_size s)) (m s)) s.
Proof. intros Hn. apply erase_loop_take; [done|lia]. Qed.

Lemma last_less_all s v : sorted (m s) -> last_less maximum s v = true -> Forall (fun x => x.1 ≺ v) (m s).
Proof.
  unfold last_less, lastValue. intros Hs Hl. destruct (m s) as [|x l _] using rev_ind; [done|]. rewrite last_snoc in Hl. cbn in Hl.
  apply Forall_app. split; [|by constructor]. apply StronglySorted_app in Hs as (Hs & _). apply Forall_forall. intros y Hy.
  eapply less_trans; [|exact Hl]. apply Hs; [done|by left].
Qed.

Lemma first_greater_all s r x y :
  sorted (m s) -> sorted (m r) -> first_greater maximum s r = true -> x ∈ m s -> y ∈ m r -> y.1 ≺ x.1.
Proof.
  unfold first_greater, firstValue, lastValue, greater. intros Hs Hr Hg Hx Hy. destruct (m s) as [|a l]; [done|]. cbn in Hg.
  destruct (m r) as [|b l' _] using rev_ind; [done|]. rewrite last_snoc in Hg. cbn in Hg.
  assert (Hya : y.1 ≺ a.1).
  { apply elem_of_app in Hy as [Hy| ->%list_elem_of_singleton]; [|done]. apply StronglySorted_app in Hr as (Hr & _).
    eapply less_trans; [apply Hr; [done|by left]|done]. }
  apply elem_of_cons in Hx as [->|Hx]; [done|]. apply sorted_cons in Hs as [Hf _]. rewrite Forall_forall in Hf. eapply less_trans; [done|by apply Hf].
Qed.

(** ** Insertion *)

Lemma map_update_plus v n l c :
  sorted l -> find v l = Some c -> 0 <= c + n < 2 ^ 32 -> map_update v (fun c => to_u32 (c + n)) l = plus v n l.
Proof.
  intros Hs Hf Hc. induction l as [|[a d] l IH]; [done|]. cbn [find map_update plus] in *. pose proof Hs as [_ Hs']%sorted_cons.
  destruct (Z.eqb_spec a v) as [->|Hne].
  - injection Hf as ->. rewrite less_irrefl. f_equal. f_equal. unfold to_u32. by apply Z.mod_small.
  - assert (Hva : less v a = false). { destruct (less v a) eqn:Hva; [|done]. rewrite (find_below v l a d Hs) in Hf by by right. done. }
    rewrite Hva. destruct (less_total a v) as [Hav|[?|?]]; [|done|congruence]. rewrite Hav. f_equal. by apply IH.
Qed.

Lemma map_emplace_plus v n l : find v l = None -> map_emplace v n l = plus v n l.
Proof.
  induction l as [|[a d] l IH]; [done|]. cbn [find CountedValueMap.map_emplace plus]. destruct (Z.eqb_spec a v) as [->|Hne]; [done|]. intros Hf.
  destruct (less v a) eqn:Hva; [done|]. destruct (less_total a v) as [Hav|[?|?]]; [|done|congruence]. rewrite Hav. f_equal. by apply IH.
Qed.

(** What a map represents: the counts [h], whose first values it holds to a depth of [j]. *)
Definition rep (n j : nat) (h : Z -> Z) (s : t) : Prop :=
  max_size s = Z.of_nat n /\ (0 < n)%nat /\ (j <= n)%nat /\ (length (m s) <= n)%nat /\ approx j h (m s).

Lemma sorted_find l (x : Z * Z) : sorted l -> x ∈ l -> find x.1 l = Some x.2.
Proof.
  induction l as [|[a c] l IH]; [by intros _ ?%not_elem_of_nil|]. intros Hs Hx. apply elem_of_cons in Hx as [->|Hx]; cbn; [by rewrite Z.eqb_refl|].
  pose proof Hs as [Hf Hs']%sorted_cons. rewrite Forall_forall in Hf. specialize (Hf x Hx). unfold below in Hf. cbn in Hf.
  destruct (Z.eqb_spec a x.1) as [He|]; [rewrite He in Hf; by rewrite less_irrefl in Hf|]. by apply IH.
Qed.

Lemma atCapacity_length n j h s : rep n j h s -> atCapacity s = true -> length (m s) = n.
Proof. intros (Hn & _) Hc%Z.eqb_eq. unfold size in Hc. lia. Qed.

Lemma rep_cut n j h l s :
  max_size s = Z.of_nat n -> (0 < n)%nat -> (j <= n)%nat -> approx j h l -> rep n j h (eraseExtraElements (with_map l s)).
Proof.
  intros Hn Hpos Hj Ha. rewrite eraseExtraElements_take by (cbn; lia). cbn. rewrite Hn, Nat2Z.id. split; [done|]. split; [done|]. split; [done|]. cbn.
  split; [rewrite length_take; lia|by apply approx_take].
Qed.

Lemma insert_rep n j h v s : rep n j h s -> h v + 1 < 2 ^ 32 -> rep n j (bump h v 1) (insert v s).1.
Proof.
  intros Hr Hb. pose proof Hr as (Hn & Hpos & Hj & Hl & Ha). pose proof Ha as (Hs & Hp & Hk). unfold CountedValueMap.insert.
  destruct (atCapacity s && last_less maximum s v) eqn:Hfast.
  { apply andb_true_iff in Hfast as [Hc Hll]. cbn. split; [done|]. split; [done|]. split; [done|]. split; [done|].
    apply approx_above; [lia|done|rewrite (atCapacity_length _ _ _ _ Hr Hc); done|by apply last_less_all]. }
  destruct (find v (m s)) as [c|] eqn:Hf; cbn [fst].
  - destruct (Hk v) as [Hle _]. pose proof (count_nonneg (m s) v Hp) as H0. unfold count_in in Hle, H0. rewrite Hf in Hle, H0. cbn in Hle, H0.
    split; [done|]. split; [done|]. split; [done|]. cbn. split; [by rewrite length_map_update|]. rewrite (map_update_plus _ _ _ c) by (done || lia). by apply approx_plus.
  - rewrite map_emplace_plus by done. apply rep_cut; [done|done|done|by apply approx_plus].
Qed.

(** ** Retracting *)

Lemma map_update_minus v l c :
  sorted l -> find v l = Some c -> 1 < c < 2 ^ 32 -> map_update v (fun c => to_u32 (c - 1)) l = plus v (-1) l.
Proof.
  intros Hs Hf Hc. rewrite <- (map_update_plus v (-1) l c) by (done || lia). done.
Qed.

Lemma map_erase_spec v l :
  sorted l -> sorted (map_erase v l) /\ (forall k, find k (map_erase v l) = if k =? v then None else find k l) /\
    (forall k, nless k l <= S (nless k (map_erase v l)))%nat /\ (length (map_erase v l) <= length l)%nat /\ map_erase v l ⊆ l.
Proof.
  induction l as [|[a c] l IH]; cbn [map_erase]; intros Hs.
  - split; [done|]. split; [intros k; by destruct (k =? v)|]. split; [intros k; cbn; lia|done].
  - pose proof Hs as [Hf Hs']%sorted_cons. destruct (IH Hs') as (H1 & H2 & H3 & H4 & H5). destruct (Z.eqb_spec a v) as [->|Hne].
    + split; [done|]. split; [|split; [|split; [cbn; lia|set_solver]]].
      * intros k. cbn. rewrite (Z.eqb_sym v k). destruct (Z.eqb_spec k v) as [->|]; [|done]. apply (find_below v l v c Hs). by left.
      * intros k. rewrite nless_cons. case_decide; lia.
    + split; [|split; [|split; [|split; [cbn; lia|set_solver]]]].
      * apply sorted_cons. split; [|done]. rewrite Forall_forall in Hf |- *. intros x Hx. apply Hf, H5, Hx.
      * intros k. cbn. rewrite H2. destruct (Z.eqb_spec a k) as [->|]; [|done]. destruct (Z.eqb_spec k v); [done|done].
      * intros k. specialize (H3 k). rewrite !nless_cons. case_decide; lia.
Qed.

(** A retraction that takes a value out of the map costs one value of depth. *)
Definition removes (v : Z) (s : t) : bool := bool_decide (find v (m s) = Some 1).

Lemma approx_erase j h v l : approx j h l -> find v l = Some 1 -> approx (Nat.pred j) (bump h v (-1)) (map_erase v l).
Proof.
  intros (Hs & Hp & Hk) Hf. destruct (map_erase_spec v l Hs) as (H1 & H2 & H3 & H4 & H5). split; [done|]. split.
  { rewrite Forall_forall in Hp |- *. intros x Hx. apply Hp, H5, Hx. }
  intros k. destruct (Hk k) as [Hle He]. specialize (H3 k). unfold bump, count_in in *. rewrite H2. destruct (Z.eqb_spec k v) as [->|].
  - rewrite Hf in Hle, He. cbn in *. split; [lia|]. destruct He; [left; lia|right; lia].
  - split; [lia|]. destruct He; [left; lia|right; lia].
Qed.

Lemma approx_minus j h v c l : approx j h l -> find v l = Some c -> 1 < c -> approx j (bump h v (-1)) (plus v (-1) l).
Proof.
  intros (Hs & Hp & Hk) Hf Hc. pose proof (plus_sorted v (-1) l Hs) as Hs'. split; [done|]. split.
  - rewrite Forall_forall in Hp |- *. intros x Hx%(sorted_find _ _ Hs'). rewrite find_plus in Hx by done. destruct (Z.eqb_spec x.1 v).
    + rewrite Hf in Hx. cbn in Hx. injection Hx as <-. lia.
    + by apply (Hp (x.1, x.2)), find_elem.
  - intros k. rewrite count_plus by done. unfold bump. destruct (Hk k) as [Hle He]. split; [lia|].
    destruct He; [left; lia|right]. pose proof (nless_plus k v (-1) l). lia.
Qed.

Lemma approx_absent j h v l : approx j h l -> find v l = None -> 0 < h v -> approx j (bump h v (-1)) l.
Proof.
  intros (Hs & Hp & Hk) Hf Hv. split; [done|]. split; [done|]. intros k. destruct (Hk k) as [Hle He]. unfold bump, count_in in *.
  destruct (Z.eqb_spec k v) as [->|]; [|split; [lia|destruct He; [left; lia|by right]]]. rewrite Hf in *. cbn in *. split; [lia|]. destruct He; [lia|by right].
Qed.

Lemma erase_rep n j h v s :
  rep n j h s -> 0 < h v < 2 ^ 32 -> rep n (if removes v s then Nat.pred j else j) (bump h v (-1)) (erase v s).1.
Proof.
  intros (Hn & Hpos & Hj & Hl & Ha) Hv. pose proof Ha as (Hs & Hp & Hk). unfold erase, removes. destruct (find v (m s)) as [c|] eqn:Hf.
  - assert (0 < c) by (rewrite Forall_forall in Hp; by apply (Hp (v, c)), find_elem).
    assert (c <= h v) by (destruct (Hk v) as [Hle _]; unfold count_in in Hle; by rewrite Hf in Hle).
    case_bool_decide as Hc; cbn [fst].
    + injection Hc as ->. change (to_u32 (1 - 1) =? 0) with true. cbv iota. destruct (map_erase_spec v (m s) Hs) as (_ & _ & _ & Hlen & _).
      split; [done|]. split; [done|]. split; [lia|]. cbn. split; [lia|]. by apply approx_erase.
    + assert (1 < c) by (assert (c <> 1) by naive_solver; lia). assert (Hz : to_u32 (c - 1) =? 0 = false) by (unfold to_u32; rewrite Z.mod_small by lia; lia).
      rewrite Hz. split; [done|]. split; [done|]. split; [done|]. cbn. split; [by rewrite length_map_update|].
      rewrite (map_update_minus v (m s) c) by (done || lia). by apply (approx_minus _ _ _ c).
  - rewrite bool_decide_eq_false_2 by done. split; [done|]. split; [done|]. split; [done|]. split; [done|]. apply approx_absent; [done|done|lia].
Qed.

(** ** Merging *)

Definition plus_all (l ys : list (Z * Z)) : list (Z * Z) := foldl (fun l y => plus y.1 y.2 l) l ys.

Lemma plus_all_sorted l ys : sorted l -> sorted (plus_all l ys).
Proof. revert l. induction ys as [|y ys IH]; intros l Hs; [done|]. cbn. by apply IH, plus_sorted. Qed.

Lemma count_cons k y ys : sorted (y :: ys) -> count_in (y :: ys) k = (if k =? y.1 then y.2 else 0) + count_in ys k.
Proof.
  intros Hs. destruct y as [a c]. unfold count_in. cbn. rewrite Z.eqb_sym. destruct (Z.eqb_spec k a) as [->|]; [|done].
  rewrite (find_below a ys a c Hs) by by left. cbn. lia.
Qed.

Lemma approx_plus_all j h l ys :
  sorted ys -> Forall (fun x => 0 < x.2) ys -> approx j h l -> approx j (fun k => h k + count_in ys k) (plus_all l ys).
Proof.
  revert h l. induction ys as [|y ys IH]; intros h l Hs Hp Ha; cbn [plus_all foldl].
  - eapply approx_ext; [|exact Ha]. intros k. unfold count_in. cbn. lia.
  - pose proof Hs as [_ Hs']%sorted_cons. apply Forall_cons in Hp as [Hy Hp]. eapply approx_ext; [|apply (IH (bump h y.1 y.2)); [done|done|by apply approx_plus]].
    intros k. unfold bump. rewrite (count_cons k y ys Hs). lia.
Qed.

Lemma plus_all_key l ys k : k ∈ l.*1 \/ k ∈ ys.*1 -> k ∈ (plus_all l ys).*1.
Proof.
  revert l. induction ys as [|y ys IH]; intros l; cbn [plus_all foldl]; [by intros [?|?%not_elem_of_nil]|]. intros Hk. apply IH.
  assert (Hkeep : forall k, k ∈ l.*1 -> k ∈ (plus y.1 y.2 l).*1).
  { intros k' (x & -> & Hx)%list_elem_of_fmap. destruct (plus_key y.1 y.2 l x Hx) as (z & Hz & <-). apply list_elem_of_fmap. by exists z. }
  destruct Hk as [Hk|Hk]; [left; by apply Hkeep|]. rewrite fmap_cons in Hk. apply elem_of_cons in Hk as [->|Hk]; [left|by right].
  clear. induction l as [|[a c] l IH]; cbn; [by left|]. destruct (less y.1 a) eqn:Hya; [by left|]. destruct (less a y.1) eqn:Hay; cbn; [by right|].
  destruct (less_total a y.1) as [?|[->|?]]; try congruence. by left.
Qed.

Lemma nless_keys k l : nless k l = length (filter (fun a => a ≺ k) l.*1).
Proof. unfold nless. induction l as [|x l IH]; [done|]. rewrite fmap_cons, !filter_cons. repeat case_decide; cbn; rewrite ?IH; done. Qed.

Lemma sorted_keys_NoDup l : sorted l -> NoDup l.*1.
Proof.
  induction 1 as [|x l _ IH Hf]; cbn; constructor; [|done]. intros (y & Heq & Hy)%list_elem_of_fmap. rewrite Forall_forall in Hf.
  specialize (Hf y Hy). unfold below in Hf. rewrite Heq in Hf. by rewrite less_irrefl in Hf.
Qed.

Lemma nless_mono k l l' : sorted l -> (forall a, a ∈ l.*1 -> a ∈ l'.*1) -> (nless k l <= nless k l')%nat.
Proof.
  intros Hs Hsub. rewrite !nless_keys. apply submseteq_length, NoDup_submseteq; [by apply NoDup_filter, sorted_keys_NoDup|].
  intros a [Ha Hin]%list_elem_of_filter. apply list_elem_of_filter. auto.
Qed.

(** The loop adds a prefix of the other map, and stops at a full map only. *)
Lemma merge_loop_spec ys s :
  sorted (m s) -> Forall (fun x => 0 < x.2) (m s) -> sorted ys -> Forall (fun y => 0 < y.2 /\ count_in (m s) y.1 + y.2 < 2 ^ 32) ys ->
  exists P Q, ys = P ++ Q /\ merge_loop maximum false ys s = with_map (plus_all (m s) P) s /\
    (Q = [] \/ atCapacity (with_map (plus_all (m s) P) s) = true /\ Forall (fun y => Forall (fun x => x.1 ≺ y.1) (plus_all (m s) P)) Q).
Proof.
  revert s. induction ys as [|y ys IH]; intros s Hs Hp Hys Hb.
  { exists [], []. split; [done|]. split; [by destruct s|by left]. }
  cbn [merge_loop]. destruct (atCapacity s && last_less maximum s y.1) eqn:Hstop.
  - apply andb_true_iff in Hstop as [Hc Hl]. apply last_less_all in Hl; [|done]. exists [], (y :: ys). split; [done|]. split; [by destruct s|right].
    cbn. split; [by destruct s|]. constructor; [done|]. apply sorted_cons in Hys as [Hf _]. eapply Forall_impl; [exact Hf|]. intros z Hz.
    eapply Forall_impl; [exact Hl|]. intros x Hx. exact (less_trans _ _ _ Hx Hz).
  - apply Forall_cons in Hb as [[Hy0 Hy] Hb]. pose proof Hys as [Hf Hys']%sorted_cons.
    assert (Hdo : doMerge maximum false y s = with_map (plus y.1 y.2 (m s)) s).
    { unfold doMerge. f_equal. unfold count_in in Hy. destruct (find y.1 (m s)) as [c|] eqn:Hfy; [|by apply map_emplace_plus].
      apply (map_update_plus _ _ _ c); [done|done|]. cbn in Hy. rewrite Forall_forall in Hp. pose proof (Hp _ (find_elem _ _ _ Hfy)). cbn in *. lia. }
    rewrite Hdo. destruct (IH (with_map (plus y.1 y.2 (m s)) s)) as (P & Q & -> & Hloop & Hend); cbn [m with_map].
    + by apply plus_sorted.
    + by apply plus_pos.
    + done.
    + apply Forall_forall. intros z Hz. rewrite Forall_forall in Hb. specialize (Hb z Hz). unfold count_in in *. rewrite find_plus by done.
      rewrite Forall_forall in Hf. specialize (Hf z Hz). unfold below in Hf. destruct (Z.eqb_spec z.1 y.1) as [He|]; [|done]. rewrite He in Hf. by rewrite less_irrefl in Hf.
    + exists (y :: P), Q. split; [done|]. rewrite Hloop. split; [done|]. exact Hend.
Qed.

Lemma find_app k l l' : find k (l ++ l') = match find k l with Some c => Some c | None => find k l' end.
Proof. induction l as [|[a c] l IH]; [done|]. cbn. by destruct (a =? k). Qed.

(** The slow path. *)
Lemma merge_loop_rep n i j f g s r :
  rep n i f s -> rep n j g r -> (forall k, f k + g k < 2 ^ 32) ->
  approx (i `min` j) (fun k => f k + g k) (m (merge_loop maximum false (m r) s)).
Proof.
  intros (Hns & Hpos & Hi & Hls & Has) (Hnr & _ & Hj & Hlr & Har) Hb. pose proof Has as (Hss & Hps & Hks). pose proof Har as (Hsr & Hpr & Hkr).
  destruct (merge_loop_spec (m r) s) as (P & Q & Heq & Hloop & Hend); [done|done|done| |].
  { apply Forall_forall. intros y Hy. rewrite Forall_forall in Hpr. split; [by apply Hpr|]. destruct (Hks y.1) as [Hle _], (Hkr y.1) as [Hle' _].
    specialize (Hb y.1). unfold count_in in Hle' |- *. rewrite (sorted_find _ y Hsr Hy) in Hle'. unfold count_in in Hle. cbn in Hle'. lia. }
  rewrite Hloop. cbn [m with_map]. assert (HsP : sorted P) by (rewrite Heq in Hsr; by apply StronglySorted_app in Hsr as (_ & ? & _)).
  assert (HpP : Forall (fun x => 0 < x.2) P) by (rewrite Heq in Hpr; by apply Forall_app in Hpr as [? _]).
  destruct (approx_plus_all i f (m s) P HsP HpP Has) as (H1 & H2 & H3). split; [done|]. split; [done|]. intros k.
  assert (HQk : forall q, q ∈ Q -> q.1 = k \/ q.1 ≺ k -> (n <= nless k (plus_all (m s) P))%nat).
  { intros q Hq Hqk. destruct Hend as [->|[Hc Hall]]; [by apply not_elem_of_nil in Hq|]. apply Z.eqb_eq in Hc. unfold size in Hc. cbn in Hc.
    rewrite Forall_forall in Hall. specialize (Hall q Hq). assert (Hnl : nless k (plus_all (m s) P) = length (plus_all (m s) P)); [|lia]. apply nless_all.
    eapply Forall_impl; [exact Hall|]. intros x Hx. destruct Hqk as [<-|Hqk]; [done|exact (less_trans _ _ _ Hx Hqk)]. }
  assert (HcP : count_in P k <= count_in (m r) k /\ (count_in P k = count_in (m r) k \/ (n <= nless k (plus_all (m s) P))%nat)).
  { unfold count_in. rewrite Heq, find_app. destruct (find k P) as [c|]; [split; [lia|by left]|]. destruct (find k Q) as [c|] eqn:HkQ; [|split; [lia|by left]].
    split; [|right; apply (HQk (k, c)); [by apply find_elem|by left]]. rewrite Heq in Hpr. apply Forall_app in Hpr as [_ HpQ]. rewrite Forall_forall in HpQ.
    specialize (HpQ _ (find_elem _ _ _ HkQ)). cbn in *. lia. }
  destruct (H3 k) as [Hle3 He3], (Hkr k) as [Hler Her]. split; [lia|].
  destruct He3 as [He3|He3]; [|right; lia]. destruct HcP as [_ [HcP|HcP]]; [|right; lia]. destruct Her as [Her|Her]; [left; lia|right].
  destruct (decide (Exists (fun q => q.1 ≺ k) Q)) as [(q & Hq & Hqk)%Exists_exists|HnQ]; [pose proof (HQk q Hq (or_intror Hqk)); lia|].
  assert (HrP : nless k (m r) = nless k P); [|pose proof (nless_mono k P (plus_all (m s) P) HsP (fun a Ha => plus_all_key (m s) P a (or_intror Ha))); lia].
  rewrite Heq. unfold nless. rewrite filter_app, length_app. rewrite (filter_none _ Q); [cbn; lia|].
  by apply Forall_Exists_neg.
Qed.

Lemma rep_ext n j h h' s : (forall k, h k = h' k) -> rep n j h s -> rep n j h' s.
Proof. intros He (H1 & H2 & H3 & H4 & H5). split; [done|]. split; [done|]. split; [done|]. split; [done|]. by eapply approx_ext. Qed.

Lemma rep_le n i j h s : (i <= j)%nat -> rep n j h s -> rep n i h s.
Proof. intros Hi (H1 & H2 & H3 & H4 & H5). split; [done|]. split; [done|]. split; [lia|]. split; [done|]. by eapply approx_le. Qed.

(** An empty map has no depth left, or holds nothing. *)
Lemma rep_nil n j h s k : rep n j h s -> m s = [] -> 0 <= h k /\ (h k = 0 \/ j = 0%nat).
Proof. intros (_ & Hn & _ & _ & _ & _ & Hk) He. rewrite He in Hk. destruct (Hk k) as [Hle Hd]. cbn in Hle, Hd. split; [done|]. destruct Hd; [by left|right; lia]. Qed.

(** A full map whose values are all before those of the other is the result. *)
Lemma rep_lower n i j f g s r :
  rep n i f s -> rep n j g r -> length (m r) = n -> m s <> [] -> (forall x y, x ∈ m s -> y ∈ m r -> y.1 ≺ x.1) ->
  rep n (i `min` j) (fun k => f k + g k) r.
Proof.
  intros (_ & _ & _ & _ & _ & Hps & Hks) (Hn & Hpos & Hj & Hl & Hs & Hp & Hk) Hfull Hne Hlt.
  split; [done|]. split; [done|]. split; [lia|]. split; [done|]. split; [done|]. split; [done|].
  assert (Habove : forall k x, x ∈ m s -> x.1 = k \/ x.1 ≺ k -> (n <= nless k (m r))%nat).
  { intros k x Hx Hxk. rewrite <- Hfull. apply Nat.eq_le_incl. symmetry. apply nless_all, Forall_forall. intros y Hy.
    specialize (Hlt x y Hx Hy). destruct Hxk as [<-|Hxk]; [done|exact (less_trans _ _ _ Hlt Hxk)]. }
  intros k. destruct (Hks k) as [Hle He], (Hk k) as [Hle' He']. pose proof (count_nonneg (m s) k Hps). split; [lia|].
  destruct He' as [He'|He']; [|right; lia]. destruct He as [He|He].
  - unfold count_in in He. destruct (find k (m s)) as [c|] eqn:Hfk; [right|left; cbn in He; lia].
    pose proof (Habove k (k, c) (find_elem _ _ _ Hfk) (or_introl eq_refl)). lia.
  - right. destruct i as [|i]; [lia|]. unfold nless in He.
    destruct (filter (fun x => x.1 ≺ k) (m s)) as [|z zs] eqn:Hz; [cbn in He; lia|].
    assert (Hin : z ∈ filter (fun x => x.1 ≺ k) (m s)) by (rewrite Hz; by left). apply list_elem_of_filter in Hin as [Hzk Hzin].
    pose proof (Habove k z Hzin (or_intror Hzk)). lia.
Qed.

Lemma rep_stays n i j f g s r :
  rep n i f s -> rep n j g r -> length (m s) = n -> m r <> [] -> (forall x y, x ∈ m r -> y ∈ m s -> y.1 ≺ x.1) ->
  rep n (i `min` j) (fun k => f k + g k) s.
Proof. intros Hs Hr Hl Hne Hlt. rewrite Nat.min_comm. eapply rep_ext; [|by apply (rep_lower n j i g f r s)]. intros k. cbn. lia. Qed.

Lemma rep_add_nil n i j f g s r : rep n i f s -> rep n j g r -> m r = [] -> rep n (i `min` j) (fun k => f k + g k) s.
Proof.
  intros (H1 & H2 & H3 & H4 & H5 & H6 & H7) Hr Hnil. split; [done|]. split; [done|]. split; [lia|]. split; [done|]. split; [done|]. split; [done|].
  intros k. destruct (rep_nil n j g r k Hr Hnil) as [H0 He], (H7 k) as [Hle He']. split; [lia|].
  destruct He as [He|He]; [|right; lia]. destruct He'; [left; lia|right; lia].
Qed.

Lemma last_first_all s r v x y :
  sorted (m s) -> sorted (m r) -> firstValue r = Some v -> last_less maximum s v = true -> x ∈ m r -> y ∈ m s -> y.1 ≺ x.1.
Proof.
  unfold firstValue. intros Hs Hr Hv Hl Hx Hy. destruct (m r) as [|[a c] l]; [done|]. injection Hv as <-. apply last_less_all in Hl; [|done].
  rewrite Forall_forall in Hl. specialize (Hl y Hy). apply elem_of_cons in Hx as [->|Hx]; [done|]. apply sorted_cons in Hr as [Hf _]. rewrite Forall_forall in Hf.
  exact (less_trans _ _ _ Hl (Hf x Hx)).
Qed.

Lemma merge_loop_max_size copy l s : max_size (merge_loop maximum copy l s) = max_size s.
Proof. revert s. induction l as [|y l IH]; intros s; cbn [merge_loop]; [done|]. destruct (_ && _); [done|by rewrite IH]. Qed.

Lemma merge_rep n i j f g s r :
  rep n i f s -> rep n j g r -> (forall k, f k + g k < 2 ^ 32) -> rep n (i `min` j) (fun k => f k + g k) (merge false s r).
Proof.
  intros Hs Hr Hb. unfold CountedValueMap.merge. pose proof Hs as (Hns & Hpos & Hi & Hls & (Hss & _)). pose proof Hr as (Hnr & _ & Hj & Hlr & (Hsr & _)).
  destruct (m r) as [|x l] eqn:Hmr; unfold empty at 1; rewrite Hmr; [by apply (rep_add_nil n i j f g s r)|].
  assert (Hner : m r <> []) by by rewrite Hmr. rewrite <- Hmr in *. clear x l Hmr.
  destruct (m s) as [|x l] eqn:Hms; unfold empty at 1; rewrite Hms.
  { rewrite Nat.min_comm. eapply rep_ext; [|by apply (rep_add_nil n j i g f r s)]. intros k. cbn. lia. }
  assert (Hnes : m s <> []) by by rewrite Hms. rewrite <- Hms in *. clear x l Hms.
  destruct (_ && _) eqn:Hfast.
  { apply andb_true_iff in Hfast as [Hc Hl]. destruct (firstValue r) as [v|] eqn:Hv; [|done].
    apply (rep_stays n i j f g s r); [done|done|by eapply atCapacity_length|done|]. intros x y. by apply (last_first_all s r v). }
  clear Hfast. destruct (_ && _) eqn:Hfast.
  { apply andb_true_iff in Hfast as [[Hc _]%andb_true_iff Hg]. apply (rep_lower n i j f g s r); [done|done|by eapply atCapacity_length|done|].
    intros x y Hx Hy. by apply (first_greater_all s r). }
  pose proof (merge_loop_rep n i j f g s r Hs Hr Hb) as Ha. pose proof (merge_loop_max_size false (m r) s) as Hm.
  destruct (merge_loop maximum false (m r) s) as [n' l]. cbn in Hm, Ha. change (mk n' l) with (with_map l (mk n' l)). apply rep_cut; [by rewrite <- Hns|done|lia|done].
Qed.

(** ** Copying merges *)

Lemma map_emplace_snoc v c l : Forall (fun x => x.1 ≺ v) l -> map_emplace v c l = l ++ [(v, c)].
Proof.
  induction 1 as [|[k d] l Hk _ IH]; [done|]. cbn [CountedValueMap.map_emplace app]. cbn in Hk. by rewrite (less_asym _ _ Hk), Hk, IH.
Qed.

Lemma sorted_snoc_all l x : sorted (l ++ [x]) -> Forall (fun y => y.1 ≺ x.1) l.
Proof. intros Hs. apply StronglySorted_app in Hs as (Hs & _). apply Forall_forall. intros y Hy. apply Hs; [done|by left]. Qed.

Lemma emplace_all acc l : sorted (acc ++ l) -> foldl (fun l x => map_emplace x.1 x.2 l) acc l = acc ++ l.
Proof.
  revert acc. induction l as [|[v c] l IH]; intros acc Hs; cbn [foldl]; [by rewrite app_nil_r|]. rewrite (cons_middle (v, c) acc l), app_assoc in *.
  rewrite map_emplace_snoc; [by apply IH|]. apply StronglySorted_app in Hs as (_ & Hs & _). exact (sorted_snoc_all acc (v, c) Hs).
Qed.

Lemma clearAndClone_id s r : sorted (m r) -> max_size r = max_size s -> clearAndClone maximum r s = r.
Proof. intros Hs Hm. unfold clearAndClone. rewrite (emplace_all [] (m r) Hs). destruct r as [n l]. cbn in Hm. subst. done. Qed.

Lemma find_update_ne k v f l : k <> v -> find k (map_update v f l) = find k l.
Proof. intros Hk. induction l as [|[a c] l IH]; [done|]. cbn. destruct (Z.eqb_spec a v) as [->|]; cbn; [by destruct (Z.eqb_spec v k)|by rewrite IH]. Qed.

Lemma find_emplace_ne k v c l : k <> v -> find k (map_emplace v c l) = find k l.
Proof.
  intros Hk. assert (Hv : v =? k = false) by lia. induction l as [|[a d] l IH]; cbn; [by rewrite Hv|].
  destruct (less v a); cbn; [by rewrite Hv|]. destruct (less a v); cbn; [by rewrite IH|done].
Qed.

Lemma find_doMerge_ne k copy x s : k <> x.1 -> find k (m (doMerge maximum copy x s)) = find k (m s).
Proof. intros Hk. unfold doMerge. cbn. destruct (find x.1 (m s)); [by apply find_update_ne|by apply find_emplace_ne]. Qed.

(** What a copying merge into [s] makes of an entry. *)
Definition copied (s : t) (x : Z * Z) : Z * Z := match find x.1 (m s) with Some _ => x | None => (x.1, 1) end.
Definition copied_map (s r : t) : t := with_map (copied s <$> m r) r.

Lemma copied_key s x : (copied s x).1 = x.1.
Proof. unfold copied. by destruct (find _ _). Qed.

Lemma merge_loop_copied s s' l :
  sorted l -> (forall x, x ∈ l -> find x.1 (m s') = find x.1 (m s)) ->
  merge_loop maximum true l s' = merge_loop maximum false (copied s <$> l) s'.
Proof.
  revert s'. induction l as [|x l IH]; intros s' Hs Hf; [done|]. rewrite fmap_cons. cbn [merge_loop]. rewrite copied_key.
  destruct (atCapacity s' && last_less maximum s' x.1); [done|].
  assert (Hd : doMerge maximum true x s' = doMerge maximum false (copied s x) s').
  { unfold doMerge. rewrite copied_key, (Hf x) by by left. unfold copied. by destruct (find x.1 (m s)). }
  rewrite Hd. pose proof Hs as [Hb Hs']%sorted_cons. apply IH; [done|]. intros y Hy. rewrite <- (Hf y) by by right. apply find_doMerge_ne. rewrite copied_key.
  intros He. rewrite Forall_forall in Hb. specialize (Hb y Hy). unfold below in Hb. rewrite He in Hb. by rewrite less_irrefl in Hb.
Qed.

Lemma copied_head s (l : list (Z * Z)) : fst <$> head (copied s <$> l) = fst <$> head l.
Proof. destruct l; [done|]. cbn. by rewrite copied_key. Qed.

Lemma copied_last s (l : list (Z * Z)) : fst <$> last (copied s <$> l) = fst <$> last l.
Proof. rewrite fmap_last. destruct (last l); [|done]. cbn. by rewrite copied_key. Qed.

Lemma merge_copy s r :
  sorted (m r) -> max_size r = max_size s -> merge true s r = merge false s r \/ merge true s r = merge false s (copied_map s r).
Proof.
  intros Hs Hm. unfold CountedValueMap.merge. rewrite (clearAndClone_id s r Hs Hm). destruct (empty r) eqn:Her; [by left|]. destruct (empty s) eqn:Hes; [by left|].
  assert (He : empty (copied_map s r) = false) by (unfold empty in *; cbn; by destruct (m r)). rewrite He.
  assert (Hf : firstValue (copied_map s r) = firstValue r) by apply copied_head. assert (Hl : lastValue (copied_map s r) = lastValue r) by apply copied_last.
  destruct (_ && _) eqn:H1; [by left|]. rewrite Hf, H1. destruct (_ && first_greater maximum s r) eqn:H2; [by left|right].
  assert (H2' : atCapacity (copied_map s r) && (max_size (copied_map s r) =? max_size s) && first_greater maximum s (copied_map s r) = false).
  { rewrite <- H2. unfold atCapacity, size, first_greater. cbn. rewrite Hl, length_fmap. done. }
  rewrite H2'. f_equal. by apply merge_loop_copied.
Qed.

Definition copied_counts (s r : t) (g : Z -> Z) (k : Z) : Z :=
  match find k (m r), find k (m s) with Some c, None => g k - c + 1 | _, _ => g k end.

Lemma find_copied s l k : find k (copied s <$> l) = match find k l with Some c => Some (match find k (m s) with Some _ => c | None => 1 end) | None => None end.
Proof.
  induction l as [|[a c] l IH]; [done|]. rewrite fmap_cons. cbn [find]. destruct (copied s (a, c)) as [a' c'] eqn:He.
  assert (a' = a) as -> by (pose proof (copied_key s (a, c)) as H; by rewrite He in H). unfold copied in He. cbn in He.
  destruct (Z.eqb_spec a k) as [->|]; [|done]. destruct (find k (m s)); by injection He as <-.
Qed.

Lemma nless_copied s k l : nless k (copied s <$> l) = nless k l.
Proof. induction l as [|x l IH]; [done|]. rewrite fmap_cons, !nless_cons, copied_key, IH. done. Qed.

Lemma copied_sorted s l : sorted l -> sorted (copied s <$> l).
Proof.
  induction 1 as [|x l _ IH Hf]; cbn; [constructor|]. apply sorted_cons. split; [|done]. apply Forall_fmap. eapply Forall_impl; [exact Hf|].
  intros y Hy. unfold below in *. cbn. by rewrite !copied_key.
Qed.

Lemma copied_rep n j g s r : rep n j g r -> rep n j (copied_counts s r g) (copied_map s r).
Proof.
  intros (H1 & H2 & H3 & H4 & Hs & Hp & Hk). split; [done|]. split; [done|]. split; [done|]. cbn. split; [by rewrite length_fmap|]. split; [by apply copied_sorted|]. split.
  - apply Forall_fmap. eapply Forall_impl; [exact Hp|]. intros x Hx. cbn. unfold copied. by destruct (find x.1 (m s)).
  - intros k. rewrite nless_copied. unfold copied_counts, count_in in *. rewrite find_copied. destruct (Hk k) as [Hle He].
    destruct (find k (m r)) as [c|], (find k (m s)) as [d|]; cbn in *; (split; [lia|]); (destruct He; [left; lia|by right]).
Qed.

Lemma copied_counts_bounds n j g s r k :
  rep n j g r -> 0 <= copied_counts s r g k <= g k /\ (0 < g k -> 0 < copied_counts s r g k).
Proof.
  intros (_ & _ & _ & _ & _ & Hp & Hk). destruct (Hk k) as [Hle _]. pose proof (count_nonneg (m r) k Hp). unfold copied_counts, count_in in *.
  destruct (find k (m r)) as [c|] eqn:Hf; [|cbn in *; lia]. rewrite Forall_forall in Hp. specialize (Hp _ (find_elem _ _ _ Hf)). cbn in *. destruct (find k (m s)); lia.
Qed.

(** ** States of aggregations *)

Inductive history : Type := New | Add (v : Z) (t : history) | Negate (v : Z) (t : history) | Merge (copy : bool) (t t' : history).

Fixpoint state (n : nat) (t : history) : CountedValueMap.t :=
  match t with
  | New => create (Z.of_nat n)
  | Add v t => add maximum v (state n t)
  | Negate v t => negate v (state n t)
  | Merge copy t t' => merge copy (state n t) (state n t')
  end.

(** How often each value is there, and how many values there have been. *)
Fixpoint counts (t : history) (k : Z) : Z :=
  match t with
  | New => 0
  | Add v t => bump (counts t) v 1 k
  | Negate v t => bump (counts t) v (-1) k
  | Merge _ t t' => counts t k + counts t' k
  end.
Fixpoint adds (t : history) : Z :=
  match t with New => 0 | Add _ t => adds t + 1 | Negate _ t => adds t | Merge _ t t' => adds t + adds t' end.

(** The depth of a state: every retraction that takes out an entry costs one. *)
Fixpoint depth (n : nat) (t : history) : nat :=
  match t with
  | New => n
  | Add _ t => depth n t
  | Negate v t => if removes v (state n t) then Nat.pred (depth n t) else depth n t
  | Merge _ t t' => depth n t `min` depth n t'
  end.

Fixpoint copy_free (t : history) : bool :=
  match t with New => true | Add _ t | Negate _ t => copy_free t | Merge copy t t' => negb copy && copy_free t && copy_free t' end.

(** Only values that are there are retracted, and not from a state that was copied from. *)
Fixpoint valid (t : history) : bool :=
  match t with
  | New => true
  | Add _ t => valid t
  | Negate v t => valid t && copy_free t && (0 <? counts t v)
  | Merge _ t t' => valid t && valid t'
  end.

Lemma counts_bounds t k : valid t = true -> 0 <= counts t k <= adds t.
Proof.
  induction t as [|v t IH|v t IH|c t IH t' IH']; cbn [valid counts adds]; unfold bump; [lia| | |].
  - intros H%IH. destruct (k =? v); lia.
  - intros [[H%IH _]%andb_true_iff Hv]%andb_true_iff. destruct (Z.eqb_spec k v) as [->|]; lia.
  - intros [H%IH H'%IH']%andb_true_iff. lia.
Qed.

Lemma rep_create n : (0 < n)%nat -> rep n n (fun _ => 0) (create (Z.of_nat n)).
Proof. intros Hn. split; [done|]. split; [done|]. split; [done|]. cbn. split; [lia|]. split; [constructor|]. split; [constructor|]. intros k. cbn. split; [lia|by left]. Qed.

(** The counts a state stands for: those of its history, or less where a copy lost some. *)
Definition stands (n : nat) (t : history) (h : Z -> Z) : Prop :=
  rep n (depth n t) h (state n t) /\ (forall k, 0 <= h k <= counts t k /\ (0 < counts t k -> 0 < h k)) /\
  (copy_free t = true -> forall k, h k = counts t k).

Lemma stands_merge n copy t t' f g :
  stands n t f -> stands n t' g -> (forall k, counts t k + counts t' k < 2 ^ 32) ->
  exists h, stands n (Merge copy t t') h.
Proof.
  intros (Hf & Hfb & Hfe) (Hg & Hgb & Hge) Hb.
  assert (Hsum : forall g', rep n (depth n t') g' (state n t') \/ True -> (forall k, g' k <= g k) -> forall k, f k + g' k < 2 ^ 32).
  { intros g' _ Hle k. specialize (Hfb k). specialize (Hgb k). specialize (Hle k). specialize (Hb k). lia. }
  assert (Hmove : stands n (Merge false t t') (fun k => f k + g k)).
  { split; [apply merge_rep; [done|done|apply Hsum; auto with lia]|]. cbn [counts copy_free]. split.
    - intros k. specialize (Hfb k). specialize (Hgb k). lia.
    - intros [[_ H1]%andb_true_iff H2]%andb_true_iff k. by rewrite Hfe, Hge. }
  destruct copy; [|by eexists]. pose proof Hg as (Hm' & _ & _ & _ & Hs' & _). pose proof Hf as (Hm & _).
  destruct (merge_copy (state n t) (state n t') Hs') as [He|He]; [congruence| |].
  - exists (fun k => f k + g k). destruct Hmove as (H1 & H2 & _). split; [cbn [state depth] in *; by rewrite He|]. split; [exact H2|done].
  - exists (fun k => f k + copied_counts (state n t) (state n t') g k).
    assert (Hc : forall k, 0 <= copied_counts (state n t) (state n t') g k <= g k /\ (0 < g k -> 0 < copied_counts (state n t) (state n t') g k)).
    { intros k. by eapply copied_counts_bounds. }
    split; [cbn [state depth]; rewrite He; apply merge_rep; [done|by apply copied_rep|apply Hsum; [by right|]; intros k; apply Hc]|]. split; [|done].
    cbn [counts]. intros k. specialize (Hfb k). specialize (Hgb k). specialize (Hc k). lia.
Qed.

Lemma history_stands n t : (0 < n)%nat -> valid t = true -> adds t < 2 ^ 32 -> exists h, stands n t h.
Proof.
  intros Hn. induction t as [|v t IH|v t IH|c t IH t' IH']; cbn [valid adds].
  - intros _ _. exists (fun _ => 0). split; [by apply rep_create|]. cbn. split; [lia|done].
  - intros Hv Ha. destruct (IH Hv ltac:(lia)) as (h & Hr & Hb & He). pose proof (counts_bounds t v Hv). exists (bump h v 1). split; [|split].
    + apply insert_rep; [done|]. specialize (Hb v). lia.
    + intros k. specialize (Hb k). cbn. unfold bump. destruct (k =? v); lia.
    + intros Hc k. cbn. unfold bump. by rewrite He.
  - intros [[Hv Hc]%andb_true_iff Hp]%andb_true_iff Ha. destruct (IH Hv ltac:(lia)) as (h & Hr & Hb & He). specialize (He Hc). pose proof (counts_bounds t v Hv).
    exists (bump h v (-1)). split; [|split].
    + apply erase_rep; [done|]. rewrite He. lia.
    + intros k. cbn. unfold bump. rewrite He. specialize (Hb k). rewrite He in Hb. destruct (Z.eqb_spec k v) as [->|]; lia.
    + intros _ k. cbn. unfold bump. by rewrite He.
  - intros [Hv Hv']%andb_true_iff Ha. assert (H1 : forall k, 0 <= counts t k <= adds t) by (intros k; by apply counts_bounds).
    assert (H2 : forall k, 0 <= counts t' k <= adds t') by (intros k; by apply counts_bounds). pose proof (H1 0). pose proof (H2 0).
    destruct (IH Hv ltac:(lia)) as [f Hf], (IH' Hv' ltac:(lia)) as [g Hg]. apply (stands_merge n c t t' f g); [done|done|]. intros k. specialize (H1 k). specialize (H2 k). lia.
Qed.

Lemma nless_lookup l i x : sorted l -> l !! i = Some x -> nless x.1 l = i.
Proof.
  revert i. induction l as [|y l IH]; intros i Hs Hx; [done|]. pose proof Hs as [Hf Hs']%sorted_cons. rewrite nless_cons. destruct i as [|i]; cbn in Hx.
  - injection Hx as ->. rewrite less_irrefl. cbn. unfold nless. rewrite filter_none; [done|]. eapply Forall_impl; [exact Hf|]. intros z Hz Hzx.
    pose proof (less_asym _ _ Hz). congruence.
  - rewrite (IH i Hs' Hx). rewrite Forall_forall in Hf. rewrite decide_True; [done|]. by apply Hf, (list_elem_of_lookup_2 _ i).
Qed.

(** What [firstValue] should be: the least value in the order, if there is one. *)
Definition first_of (h : Z -> Z) (o : option Z) : Prop :=
  match o with Some v => 0 < h v /\ forall k, 0 < h k -> less k v = false | None => forall k, h k = 0 end.

Lemma rep_first n j h s : rep n j h s -> (0 < j)%nat -> first_of h (firstValue s).
Proof.
  intros (_ & _ & _ & _ & Hs & Hp & Hk) Hj. unfold firstValue. destruct (m s) as [|[v c] l] eqn:Hm; cbn.
  - intros k. destruct (Hk k) as [_ [He|Hle]]; [done|cbn in Hle; lia].
  - assert (Hnone : forall k, less k v = true \/ k = v -> nless k ((v, c) :: l) = 0%nat).
    { intros k Hkv. unfold nless. rewrite filter_none; [done|]. apply Forall_forall. intros x Hx Hxk.
      assert (Hvx : x.1 = v \/ v ≺ x.1).
      { apply elem_of_cons in Hx as [->|Hx]; [by left|right]. apply sorted_cons in Hs as [Hf _]. rewrite Forall_forall in Hf. by apply (Hf x). }
      assert (Hxv : x.1 ≺ v) by (destruct Hkv as [Hkv| ->]; [by eapply less_trans|done]).
      destruct Hvx as [He|Hvx]; [rewrite He in Hxv; by rewrite less_irrefl in Hxv|]. pose proof (less_asym _ _ Hvx). congruence. }
    split.
    + destruct (Hk v) as [Hle _]. unfold count_in in Hle. cbn in Hle. rewrite Z.eqb_refl in Hle. apply Forall_cons in Hp as [Hc _]. cbn in *. lia.
    + intros k Hpos. destruct (less k v) eqn:Hkv; [|done]. exfalso. destruct (Hk k) as [_ [He|Hle]].
      * unfold count_in in He. cbn in He. rewrite (find_below k l v c Hs) in He by by right. destruct (Z.eqb_spec v k) as [->|]; [by rewrite less_irrefl in Hkv|cbn in He; lia].
      * rewrite Hnone in Hle by by left. lia.
Qed.

Lemma rep_exact n j h s i x : rep n j h s -> m s !! i = Some x -> (i < j)%nat -> h x.1 = x.2.
Proof.
  intros (_ & _ & _ & _ & Hs & Hp & Hk) Hx Hi. destruct (Hk x.1) as [_ [He|Hle]]; [|rewrite (nless_lookup _ i x Hs Hx) in Hle; lia].
  rewrite He. unfold count_in. by rewrite (sorted_find _ x Hs (list_elem_of_lookup_2 _ _ _ Hx)).
Qed.

Lemma first_of_ext h h' o : (forall k, 0 <= h k <= h' k /\ (0 < h' k -> 0 < h k)) -> first_of h o -> first_of h' o.
Proof.
  intros He. destruct o as [v|]; cbn.
  - intros [Hv Hl]. split; [specialize (He v); lia|]. intros k Hk. apply Hl, He, Hk.
  - intros H0 k. specialize (H0 k). specialize (He k). lia.
Qed.

(** ** Writing and reading *)

Lemma reads_entries l s :
  sorted (m s ++ l) -> Forall (fun x => i64 x.1 /\ u32 x.2) l ->
  reads (read_entries maximum (length l) s) (concat ((fun x => writeInt64 x.1 ++ writeVarUInt x.2) <$> l)) (with_map (m s ++ l) s).
Proof.
  revert s. induction l as [|[v c] l IH]; intros s Hs Hl; cbn [read_entries length fmap list_fmap concat].
  - rewrite app_nil_r. destruct s. apply reads_ret.
  - apply Forall_cons in Hl as [[Hv Hc] Hl]. cbn [fst snd] in *. rewrite (cons_middle (v, c)), (app_assoc (m s)) in *. rewrite <- app_assoc.
    eapply reads_bind; [by apply reads_Int64|]. eapply reads_bind; [by apply reads_VarUInt32|].
    unfold insert_count. rewrite map_emplace_snoc; [by apply (IH (with_map (m s ++ [(v, c)]) s))|].
    apply StronglySorted_app in Hs as (_ & Hs & _). exact (sorted_snoc_all (m s) (v, c) Hs).
Qed.

Lemma reads_state n j h s :
  rep n j h s -> (forall k, h k < 2 ^ 32) -> Z.of_nat n < 2 ^ 63 -> Forall (fun x => i64 x.1) (m s) ->
  reads (read maximum (create (Z.of_nat n))) (write s) s.
Proof.
  intros (Hm & Hn & _ & Hl & Hs & Hp & Hk) Hb Hn' Hi. unfold read, write. eapply reads_bind; [apply reads_VarInt; unfold i64, size; lia|].
  unfold size. rewrite Nat2Z.id. cbn [max_size create setCapacity m]. rewrite Z.max_r, <- Hm by lia.
  replace s with (with_map (m s) (create (max_size s))) at 5 by by destruct s. apply (reads_entries (m s) (create (max_size s))); [done|].
  apply Forall_forall. intros x Hx. rewrite Forall_forall in Hi, Hp. split; [by apply Hi|]. specialize (Hp x Hx). destruct (Hk x.1) as [Hle _].
  unfold count_in in Hle. rewrite (sorted_find _ x Hs Hx) in Hle. specialize (Hb x.1). unfold u32. cbn in *. lia.
Qed.

End Spec.
End CountedValues.

(** ** Correctness *)

Import CountedValueMap CountedValues.


Definition hist : history := Merge true (Add 5 (Negate 3 (Add 3 (Add 9 New)))) (Add 2 (Add 7 (Add 2 New))).


(** C33. Writing such a state and reading it into a new one of the same room gives the state back, and reads just what was
    written. *)
Theorem counted_values_roundtrip maximum n t :
  (0 < n)%nat -> Z.of_nat n < 2 ^ 63 -> valid t = true -> adds t < 2 ^ 32 -> Forall (fun x => i64 x.1) (m (state maximum n t)) ->
  reads (read maximum (create (Z.of_nat n))) (write (state maximum n t)) (state maximum n t).
Proof.
  intros Hn Hn' Hv Ha Hi. destruct (history_stands maximum n t Hn Hv Ha) as (h & Hr & Hb & _). eapply reads_state; [exact Hr| |done|done].
  intros k. specialize (Hb k). pose proof (counts_bounds t k Hv). lia.
Qed.

Lemma counted_values_roundtrip_witness :
  reads (read true (create 3)) (write (state true 3 hist)) (mk 3 [(9, 1); (7, 1); (5, 1)]).
Proof. apply (counted_values_roundtrip true 3 hist); [lia|done|done|done|]. change (Forall (fun x => i64 x.1) [(9, 1); (7, 1); (5, 1)]). rewrite !Forall_cons. unfold i64. split_and!; try done; cbn; lia. Defined.

(** A merge that copies counts a value it did not have once, however often the other state has it: a retraction of one
    of two equal values then takes it out, and the result is not the least value any more. *)
Example copied_count_lost :
  let merged := Merge true (Add 5 New) (Add 1 (Add 1 New)) in
  counts (Negate 1 merged) 1 = 1 /\ firstValue (state false 10 (Negate 1 merged)) = Some 5 /\
  firstValue (state false 10 (Negate 1 (Merge false (Add 5 New) (Add 1 (Add 1 New))))) = Some 1.
Proof. done. Qed.
