(* ===== verification/CountedValueAgg.v ===== *)
(** * Streaming min and max as aggregate functions

    The states of min and max with counts ([CountedValueMap]) meet the interface that the
    aggregation of windows relies on ([AggregateFunction]), for rows that are only added.
    Which values a state holds does not depend on the counts, so neither copying merges nor
    counts that wrap matter here: operations on states with the same values ([similar])
    give states with the same values.  With the theorem on the pipeline this gives the
    output of windows of min and max in terms of the rows of the shards. *)

From stdpp Require Import gmap sorting.
From S2P Require Import Prelude Codec CountedValueMap CountedValueProps.
From S2P Require Import DateLut StreamTime WindowHelpers WindowSpec Watermark WatermarkSpec TimeBuckets Aggregator.
From S2P Require Import WindowAggregating WindowAggSpec WindowAggInv WindowAggProps WindowExamples.

Local Open Scope Z_scope.

Module CountedValueAgg.
Import CountedValueMap CountedValues.
Section Values.
Context (maximum : bool).

(** ** States with the same values *)

Definition similar (s s' : t) : Prop := max_size s = max_size s' /\ (m s).*1 = (m s').*1.

Lemma find_similar k (l l' : list (Z * Z)) : l.*1 = l'.*1 -> (find k l = None <-> find k l' = None).
Proof. intros He. by rewrite !find_None, He. Qed.

Lemma keys_update v f l : (map_update v f l).*1 = l.*1.
Proof. induction l as [|[a c] l IH]; [done|]. cbn. destruct (a =? v); cbn; [done|by rewrite IH]. Qed.

Lemma keys_emplace v c c' l l' : l.*1 = l'.*1 -> (map_emplace maximum v c l).*1 = (map_emplace maximum v c' l').*1.
Proof.
  revert l'. induction l as [|[a d] l IH]; intros [|[a' d'] l']; [done..|]. cbn. intros [= -> Hl].
  destruct (less maximum v a'); cbn; [by rewrite Hl|]. destruct (less maximum a' v); cbn; [by rewrite (IH l')|by rewrite Hl].
Qed.

Lemma size_similar s s' : similar s s' -> size s = size s'.
Proof. intros [_ Hk]. unfold size. rewrite <- (length_fmap fst (m s)), Hk. by rewrite length_fmap. Qed.

Lemma atCapacity_similar s s' : similar s s' -> atCapacity s = atCapacity s'.
Proof. intros Hs. unfold atCapacity. by rewrite (size_similar _ _ Hs), (proj1 Hs). Qed.

Lemma firstValue_similar s s' : similar s s' -> firstValue s = firstValue s'.
Proof. intros [_ Hk]. unfold firstValue. destruct (m s) as [|[]], (m s') as [|[]]; try done. cbn in *. congruence. Qed.

Lemma lastValue_similar s s' : similar s s' -> lastValue s = lastValue s'.
Proof. intros [_ Hk]. unfold lastValue. rewrite <- !fmap_last. by rewrite Hk. Qed.

Lemma empty_similar s s' : similar s s' -> empty s = empty s'.
Proof. intros [_ Hk]. unfold empty. by destruct (m s), (m s'). Qed.

Lemma last_less_similar s s' v : similar s s' -> last_less maximum s v = last_less maximum s' v.
Proof. intros Hs. unfold last_less. by rewrite (lastValue_similar _ _ Hs). Qed.

Lemma erase_similar s s' : 0 <= max_size s -> similar s s' -> similar (eraseExtraElements s) (eraseExtraElements s').
Proof.
  intros Hn [Hm Hk]. rewrite !eraseExtraElements_take by congruence. split; [done|]. cbn. by rewrite !fmap_take, Hk, Hm.
Qed.

Lemma insert_similar v s s' : 0 <= max_size s -> similar s s' -> similar (insert maximum v s).1 (insert maximum v s').1.
Proof.
  intros Hn Hs. unfold insert. rewrite (atCapacity_similar _ _ Hs), (last_less_similar _ _ v Hs). destruct (_ && _); [done|].
  pose proof (find_similar v _ _ (proj2 Hs)) as Hf. destruct (find v (m s)), (find v (m s')); try (exfalso; naive_solver).
  - split; [apply Hs|]. cbn. rewrite !keys_update. apply Hs.
  - apply erase_similar; [done|]. split; [apply Hs|]. cbn. by apply keys_emplace, Hs.
Qed.

Lemma doMerge_similar copy copy' x x' s s' :
  x.1 = x'.1 -> similar s s' -> similar (doMerge maximum copy x s) (doMerge maximum copy' x' s').
Proof.
  intros Hx Hs. unfold doMerge. rewrite Hx. pose proof (find_similar x'.1 _ _ (proj2 Hs)) as Hf. split; [apply Hs|]. cbn.
  destruct (find x'.1 (m s)), (find x'.1 (m s')); try (exfalso; naive_solver).
  - rewrite !keys_update. apply Hs.
  - apply keys_emplace, Hs.
Qed.

Lemma merge_loop_similar copy copy' l l' s s' :
  l.*1 = l'.*1 -> similar s s' -> similar (merge_loop maximum copy l s) (merge_loop maximum copy' l' s').
Proof.
  revert l' s s'. induction l as [|x l IH]; intros [|x' l'] s s'; [done..|]. cbn [merge_loop fmap list_fmap]. intros [= Hx Hl] Hs.
  rewrite (atCapacity_similar _ _ Hs), (last_less_similar _ _ x.1 Hs), Hx. destruct (_ && _); [done|]. apply IH; [done|]. by apply doMerge_similar.
Qed.

Lemma clone_keys acc acc' (l l' : list (Z * Z)) : acc.*1 = acc'.*1 -> l.*1 = l'.*1 ->
  (foldl (fun l x => map_emplace maximum x.1 x.2 l) acc l).*1 = (foldl (fun l x => map_emplace maximum x.1 x.2 l) acc' l').*1.
Proof.
  revert acc acc' l'. induction l as [|x l IH]; intros acc acc' [|x' l']; [done..|]. cbn. intros Ha [= Hx Hl]. apply IH; [|done]. rewrite Hx. by apply keys_emplace.
Qed.

(** Copying or not, a merge gives the same values. *)
Lemma merge_similar copy copy' s s' r r' :
  sorted maximum (m r') -> 0 <= max_size s -> max_size r' = max_size s -> similar s s' -> similar r r' ->
  similar (merge maximum copy s r) (merge maximum copy' s' r').
Proof.
  intros Hsr Hn Hm Hs Hr. unfold merge.
  assert (Htake : similar (if copy then clearAndClone maximum r s else r) (if copy' then clearAndClone maximum r' s' else r')).
  { assert (Hc : similar (clearAndClone maximum r s) r').
    { rewrite <- (clearAndClone_id maximum s r' Hsr) by done. split; [done|]. cbn. by apply clone_keys, Hr. }
    assert (Hc' : clearAndClone maximum r' s' = r') by (apply clearAndClone_id; [done|destruct Hs; congruence]).
    destruct copy, copy'; rewrite ?Hc'; done. }
  rewrite (empty_similar _ _ Hr), (empty_similar _ _ Hs). destruct (empty r'); [done|]. destruct (empty s'); [done|].
  unfold first_greater. rewrite (atCapacity_similar _ _ Hs), (atCapacity_similar _ _ Hr), (firstValue_similar _ _ Hs), (firstValue_similar _ _ Hr),
    (lastValue_similar _ _ Hr), (proj1 Hs), (proj1 Hr).
  assert (Hl : match firstValue r' with Some v => last_less maximum s v | None => false end = match firstValue r' with Some v => last_less maximum s' v | None => false end).
  { destruct (firstValue r'); [|done]. by apply last_less_similar. }
  rewrite Hl. destruct (_ && _); [done|]. destruct (_ && _); [done|]. apply erase_similar; [by rewrite merge_loop_max_size|]. by apply merge_loop_similar; [apply Hr|].
Qed.

(** ** Values without their counts *)

Definition ones (s : t) : t := with_map ((fun x => (x.1, 1)) <$> m s) s.
Definition occurs (vs : list Z) (k : Z) : Z := if decide (k ∈ vs) then 1 else 0.
(** [s] holds the first of the values [vs]. *)
Definition holds (n : nat) (vs : list Z) (s : t) : Prop := rep maximum n n (occurs vs) (ones s).

Lemma similar_ones s : similar s (ones s).
Proof. split; [done|]. cbn. rewrite <- list_fmap_compose. by apply list_fmap_ext. Qed.

Lemma ones_similar s s' : similar s s' -> ones s = ones s'.
Proof.
  intros [Hm Hk]. unfold ones, with_map. rewrite Hm. f_equal. revert Hk. generalize (m s), (m s').
  intros l. induction l as [|x l IH]; intros [|x' l']; [done..|]. cbn. intros [= -> Hl]. by rewrite (IH l').
Qed.

Lemma find_ones k l : find k ((fun x : Z * Z => (x.1, 1)) <$> l) = match find k l with Some _ => Some 1 | None => None end.
Proof. induction l as [|[a c] l IH]; [done|]. cbn. by destruct (a =? k). Qed.

Lemma nless_ones k l : nless maximum k ((fun x : Z * Z => (x.1, 1)) <$> l) = nless maximum k l.
Proof. rewrite !nless_keys, <- list_fmap_compose. done. Qed.

Lemma rep_ones n j h vs s :
  rep maximum n j h s -> (forall k, 0 < h k <-> k ∈ vs) -> rep maximum n j (occurs vs) (ones s).
Proof.
  intros (H1 & H2 & H3 & H4 & Hs & Hp & Hk) Hv. split; [done|]. split; [done|]. split; [done|]. cbn. split; [by rewrite length_fmap|]. split; [|split].
  - clear -Hs. induction Hs as [|x l _ IH Hf]; cbn; [constructor|]. apply sorted_cons. split; [|done]. apply Forall_fmap. by eapply Forall_impl.
  - apply Forall_fmap, Forall_forall. by intros x _.
  - intros k. destruct (Hk k) as [Hle He]. rewrite nless_ones. pose proof (count_nonneg (m s) k Hp). unfold count_in, occurs in *. rewrite find_ones. specialize (Hv k).
    destruct (find k (m s)) as [c|] eqn:Hf; cbn in *.
    + rewrite Forall_forall in Hp. specialize (Hp _ (find_elem _ _ _ Hf)). cbn in Hp. rewrite decide_True by (apply Hv; lia). split; [lia|by left].
    + case_decide; (split; [lia|]); [|by left]. destruct He; [apply Hv in H0; lia|by right].
Qed.

Lemma holds_create n : (0 < n)%nat -> holds n [] (create (Z.of_nat n)).
Proof. intros Hn. apply (rep_ones n n (fun _ => 0) [] (create (Z.of_nat n))); [by apply rep_create|]. intros k. split; [lia|by intros ?%not_elem_of_nil]. Qed.

Lemma holds_insert n vs s v : holds n vs s -> holds n (vs ++ [v]) (insert maximum v s).1.
Proof.
  intros Hh. assert (H0 : 0 <= max_size s) by (pose proof Hh as (Hm & _); cbn in Hm; lia). unfold holds.
  rewrite (ones_similar _ _ (insert_similar v s (ones s) H0 (similar_ones s))). eapply rep_ones.
  - apply insert_rep; [exact Hh|]. unfold occurs. case_decide; lia.
  - intros k. unfold bump, occurs. rewrite elem_of_app, list_elem_of_singleton. case_decide; destruct (Z.eqb_spec k v); naive_solver lia.
Qed.

Lemma holds_merge n vs vs' s r copy : holds n vs s -> holds n vs' r -> holds n (vs ++ vs') (merge maximum copy s r).
Proof.
  intros Hs Hr. pose proof Hs as (Hm & _). pose proof Hr as (Hm' & _ & _ & _ & Hsr & _). cbn in Hm, Hm'. unfold holds.
  rewrite (ones_similar _ _ (merge_similar copy false s (ones s) r (ones r) Hsr ltac:(lia) ltac:(cbn; lia) (similar_ones s) (similar_ones r))).
  replace n with (n `min` n)%nat at 2 by lia. eapply rep_ones.
  - apply merge_rep; [exact Hs|exact Hr|]. intros k. unfold occurs. repeat case_decide; lia.
  - intros k. cbn. unfold occurs. rewrite elem_of_app. repeat case_decide; naive_solver lia.
Qed.

Lemma holds_perm n vs vs' s : vs ≡ₚ vs' -> holds n vs s -> holds n vs' s.
Proof. intros Hp. apply rep_ext. intros k. unfold occurs. by erewrite decide_ext; [|rewrite Hp]. Qed.

(** ** The result *)

Definition better (a b : Z) : Z := if maximum then Z.max a b else Z.min a b.
(** The least or greatest of the values, 0 when there are none. *)
Definition extreme (vs : list Z) : Z := match vs with [] => 0 | v :: vs => foldl better v vs end.
(** [insertResultInto] *)
Definition result (s : t) : Z := default 0 (firstValue s).

Lemma better_spec a b : (better a b = a \/ better a b = b) /\ less maximum a (better a b) = false /\ less maximum b (better a b) = false.
Proof. unfold better, less. destruct maximum; lia. Qed.

Lemma extreme_spec v vs : extreme (v :: vs) ∈ v :: vs /\ forall k, k ∈ v :: vs -> less maximum k (extreme (v :: vs)) = false.
Proof.
  cbn. revert v. induction vs as [|a vs IH]; intros v; cbn [foldl].
  - split; [by left|]. intros k ->%list_elem_of_singleton. apply less_irrefl.
  - destruct (IH (better v a)) as [Hin Hle], (better_spec v a) as (Hb & Hv & Ha). split.
    + apply elem_of_cons in Hin as [->|Hin]; [|by right; right]. destruct Hb as [-> | ->]; [by left|by right; left].
    + pose proof (Hle _ (list_elem_of_here _ _)) as Hbe. set (e := foldl better (better v a) vs) in *.
      assert (Hge : forall k, less maximum k (better v a) = false -> less maximum k e = false).
      { intros k Hk. unfold less in *. destruct maximum; lia. }
      intros k [->|[->|Hk]%elem_of_cons]%elem_of_cons; [by apply Hge|by apply Hge|]. apply Hle. by right.
Qed.

Lemma holds_result n vs s : holds n vs s -> result s = extreme vs.
Proof.
  intros Hh. pose proof Hh as (_ & Hn & _). pose proof (rep_first maximum _ _ _ _ Hh Hn) as Hf. unfold result.
  rewrite (firstValue_similar _ _ (similar_ones s)). assert (Ho : forall k, 0 < occurs vs k <-> k ∈ vs) by (intros k; unfold occurs; case_decide; naive_solver lia).
  destruct (firstValue (ones s)) as [f|]; cbn in Hf |- *.
  - destruct Hf as [Hin%Ho Hle]. destruct vs as [|v vs]; [by apply not_elem_of_nil in Hin|]. destruct (extreme_spec v vs) as [He Hall].
    pose proof (Hall f Hin) as H1. pose proof (Hle _ (proj2 (Ho _) He)) as H2. destruct (less_total maximum f (extreme (v :: vs))) as [?|[?|?]]; congruence.
  - destruct vs as [|v vs]; [done|]. specialize (Hf v). assert (0 < occurs (v :: vs) v) by (apply Ho; by left). lia.
Qed.
End Values.

(** ** The aggregate function *)

Section Function.
Context {Row : Type} (maximum : bool) (n : nat) (column : Row -> Z).

Definition ops : AggregateOps Row t Z :=
  {| agg_create := create (Z.of_nat n); agg_add s r := add maximum (column r) s; agg_merge := merge maximum true; agg_result := result |}.

Definition function (Hn : (0 < n)%nat) : @AggregateFunction Row t Z ops.
Proof.
  refine (@Build_AggregateFunction Row t Z ops (fun l => extreme maximum (column <$> l)) (fun s l => holds maximum n (column <$> l) s) _ _ _ _ _); cbn.
  - by apply holds_create.
  - intros s l x Hs. rewrite fmap_app. by apply holds_insert.
  - intros s l s' l' Hs Hs'. rewrite fmap_app. by apply holds_merge.
  - intros s l l' Hp. apply holds_perm. by rewrite Hp.
  - intros s l. apply holds_result.
Defined.
End Function.
End CountedValueAgg.

(** ** Windows of min and max *)

Section Windows.
Context {Row K : Type} `{Countable K} (maximum : bool) (n : nat) (column : Row -> Z).
Context (row_time : Row -> Z) (other_keys : Row -> K).
Local Instance minmax_ops : AggregateOps Row CountedValueMap.t Z := CountedValueAgg.ops maximum n column.

(** The values of the rows of a window and a key. *)
Definition window_values (w : Window) (k : K) (rows : list Row) : list Z :=
  column <$> filter (fun r => covers w (row_time r) /\ other_keys r = k) rows.

(** C11. Streaming min and max over hop windows that are emitted when they close, whatever the capacity of their states: the
    output has, once for each key and aligned window that ends by the finalized watermark, the least or the greatest of
    the values of all rows of all shards in that window that were not late, and no other rows. *)
Theorem hop_extremes_correct (p : Hop.Params) (is_start skip repeat_emit : bool) (params : EmitParams) (now : Z)
  (inputs : list (list (Stamper.Clock * Stamper.Chunk (Row := Row)))) :
  (0 < n)%nat -> hop_ok p -> closing params (FnHop p) -> given (delay_interval params) = false -> hop_inputs row_time p inputs ->
  exists outs, Forall2 (stream_of row_time now params skip) inputs outs /\
    forall es s pending,
      pipeline_run (St := CountedValueMap.t) (Res := Z) row_time other_keys (hop_ops p is_start) repeat_emit AfterWindowClose es
        (init (length inputs), outs) = Ok (s, pending) ->
      NoDup (all_out s).*1 /\
      forall c k y, ((c, k), y) ∈ all_out s <->
        exists w, hop_window p w /\ window_column (hop_ops p is_start) w = c /\ win_end w <= finalized_watermark s /\
          window_values w k (rows_of outs) <> [] /\ y = CountedValueAgg.extreme maximum (window_values w k (rows_of outs)).
Proof.
  intros Hn Hok Hcl Hd Hin. pose proof (hop_function p Hok is_start) as HW. pose (F := CountedValueAgg.function maximum n column Hn).
  destruct (pipeline_correct (St := CountedValueMap.t) (Res := Z) row_time other_keys (hop_ops p is_start) (hop_usable p) (hop_window p) repeat_emit params (FnHop p)
    now skip inputs Hcl (hop_input_ok row_time p params inputs Hok Hcl Hd Hin)) as (outs & Hst & Hres).
  exists outs. split; [done|]. intros es s pending Hrun. destruct (Hres es s pending Hrun) as [Hnd Hout]. split; [done|]. intros c k y. rewrite Hout.
  assert (Hw : forall w, window_result row_time other_keys w k (rows_of outs) = Some y <->
    window_values w k (rows_of outs) <> [] /\ y = CountedValueAgg.extreme maximum (window_values w k (rows_of outs))).
  { intros w. unfold window_result, agg_opt, window_values. destruct (filter _ (rows_of outs)) as [|r rs]; cbn; naive_solver. }
  split; intros (w & H1 & H2 & H3 & H4); exists w; (split; [done|]; split; [done|]; split; [done|]; by apply Hw).
Qed.
End Windows.

Lemma hop_extremes_correct_witness :
  exists s,
    pipeline_run (Row := Reading) (St := CountedValueMap.t) (Res := Z) (AggregateOps0 := CountedValueAgg.ops true 1 value) at_time sensor
      (hop_ops hop2_4 true) false AfterWindowClose readings_schedule (init 2, stamped_readings) = Ok (s, [[]; []]) /\
    all_out s = [((98, 1), 10); ((98, 2), 5); ((100, 1), 10); ((100, 2), 5)] /\
    forall k y, ((98, k), y) ∈ all_out s <->
      exists w, hop_window hop2_4 w /\ win_start w = 98 /\ win_end w <= 106 /\
        window_values value at_time sensor w k (rows_of stamped_readings) <> [] /\
        y = CountedValueAgg.extreme true (window_values value at_time sensor w k (rows_of stamped_readings)).
Proof.
  destruct (hop_extremes_correct true 1 value at_time sensor hop2_4 true false false (emit AfterWindowClose) 0 readings
    ltac:(lia) hop2_4_ok emit_closing eq_refl readings_inputs) as (outs & ->%readings_streams & Hres).
  assert (Hrun : exists s, pipeline_run (Row := Reading) (St := CountedValueMap.t) (Res := Z) (AggregateOps0 := CountedValueAgg.ops true 1 value) at_time sensor
      (hop_ops hop2_4 true) false AfterWindowClose readings_schedule (init 2, stamped_readings) = Ok (s, [[]; []]) /\
    finalized_watermark s = 106 /\ all_out s = [((98, 1), 10); ((98, 2), 5); ((100, 1), 10); ((100, 2), 5)])
    by (eexists; split; [vm_compute; reflexivity|done]).
  destruct Hrun as (s & Hrun & HF & Hout). exists s. split; [done|]. split; [done|]. intros k y. rewrite <- HF. by apply (Hres readings_schedule s [[]; []]).
Defined.
