(* ===== verification/AggregateBatch.v ===== *)
(** * Aggregate functions on batches of rows
      (src/AggregateFunctions/IAggregateFunction.h and, under Streaming, AggregateFunctionCount.h,
      AggregateFunctionSum.h and AggregateFunctionAvg.h)

    An aggregate function adds a row to its state or retracts it; a batch adds the rows of
    a range, retracting those whose delta is negative, and skips those that a condition or
    a null map leaves out.  The helper class has loops for this; count, sum and average
    override them.  Columns are lists, which are not read out of range when they have
    [row_end] rows.  Sums of integers are 64 bits wide and wrap around, which the code
    relies on (NO_SANITIZE_UNDEFINED). *)

From stdpp Require Import list_numbers.
From S2P Require Import Prelude Codec.

Local Open Scope Z_scope.
Local Open Scope prog_scope.

Definition Column : Type := list Z.
Definition rows_between (row_begin row_end : nat) : list nat := seq row_begin (row_end - row_begin).
Definition set_at (c : Column) (i : nat) : bool := negb (c !!! i =? 0).

(** ** The loops of [IAggregateFunctionHelper] *)

Module Helper.
Section Helper.
Context {St : Type} (add negate : nat -> St -> St).

Definition by_delta (delta_flags : Column) (i : nat) (place : St) : St :=
  if 0 <=? delta_flags !!! i then add i place else negate i place.

(** [if_argument] is the column at [if_argument_pos], if that is not negative. *)
Definition addBatchSinglePlace (row_begin row_end : nat) (if_argument delta_col : option Column) (place : St) : St :=
  match delta_col, if_argument with
  | None, None => foldl (fun place i => add i place) place (rows_between row_begin row_end)
  | Some delta_flags, None => foldl (fun place i => by_delta delta_flags i place) place (rows_between row_begin row_end)
  | None, Some flags => foldl (fun place i => if set_at flags i then add i place else place) place (rows_between row_begin row_end)
  | Some delta_flags, Some flags =>
      foldl (fun place i => if set_at flags i then by_delta delta_flags i place else place) place (rows_between row_begin row_end)
  end.

Definition addBatchSinglePlaceNotNull (row_begin row_end : nat) (null_map : Column) (if_argument delta_col : option Column) (place : St) : St :=
  match delta_col, if_argument with
  | None, None => foldl (fun place i => if set_at null_map i then place else add i place) place (rows_between row_begin row_end)
  | Some delta_flags, None =>
      foldl (fun place i => if set_at null_map i then place else by_delta delta_flags i place) place (rows_between row_begin row_end)
  | None, Some flags =>
      foldl (fun place i => if negb (set_at null_map i) && set_at flags i then add i place else place) place (rows_between row_begin row_end)
  | Some delta_flags, Some flags =>
      foldl (fun place i => if negb (set_at null_map i) && set_at flags i then by_delta delta_flags i place else place) place
        (rows_between row_begin row_end)
  end.

(** [addBatch]: a place for each row, some of them null; the states are in [store]. *)
Definition at_place (places : list (option nat)) (f : nat -> St -> St) (store : list St) (i : nat) : list St :=
  match places !! i with Some (Some p) => alter (f i) p store | _ => store end.
Definition addBatch (row_begin row_end : nat) (places : list (option nat)) (if_argument delta_col : option Column) (store : list St) : list St :=
  match delta_col, if_argument with
  | None, None => foldl (at_place places add) store (rows_between row_begin row_end)
  | Some delta_flags, None => foldl (at_place places (by_delta delta_flags)) store (rows_between row_begin row_end)
  | None, Some flags =>
      foldl (fun store i => if set_at flags i then at_place places add store i else store) store (rows_between row_begin row_end)
  | Some delta_flags, Some flags =>
      foldl (fun store i => if set_at flags i then at_place places (by_delta delta_flags) store i else store) store
        (rows_between row_begin row_end)
  end.
End Helper.
End Helper.

(** ** Count *)

Module Count.
Definition t : Type := Z.
Definition create : t := 0.
Definition add (row_num : nat) (count : t) : t := to_u64 (count + 1).
Definition negate (row_num : nat) (count : t) : t := to_u64 (count - 1).

(** With a condition, the loop goes over all of its rows. *)
Definition addBatchSinglePlace (row_begin row_end : nat) (if_argument : option Column) (delta_flags : Column) (count : t) : t :=
  match if_argument with
  | Some flags =>
      foldl (fun count idx => if set_at flags idx then to_u64 (count + delta_flags !!! idx) else count) count (seq 0 (length flags))
  | None => foldl (fun count idx => to_u64 (count + delta_flags !!! idx)) count (rows_between row_begin row_end)
  end.

Definition addBatchSinglePlaceNotNull (row_begin row_end : nat) (null_map : Column) (if_argument : option Column) (delta_flags : Column) (count : t) : t :=
  match if_argument with
  | Some flags =>
      foldl (fun count idx => if set_at flags idx && negb (set_at null_map idx) then to_u64 (count + delta_flags !!! idx) else count) count
        (rows_between row_begin row_end)
  | None =>
      foldl (fun count idx => if set_at null_map idx then count else to_u64 (count + delta_flags !!! idx)) count (rows_between row_begin row_end)
  end.

Definition merge (place rhs : t) : t := to_u64 (place + rhs).
Definition serialize (place : t) : list Z := writeVarUInt place.
Definition deserialize : reader t := readVarUInt.
End Count.

(** [AggregateFunctionCountNotNullUnary]: [null_map] is that of its only column. *)
Module CountNotNull.
Definition not_null (null_map : Column) (i : nat) : Z := if set_at null_map i then 0 else 1.
Definition add (null_map : Column) (row_num : nat) (count : Z) : Z := to_u64 (count + not_null null_map row_num).
Definition negate (null_map : Column) (row_num : nat) (count : Z) : Z := to_u64 (count - not_null null_map row_num).

Definition addBatchSinglePlace (null_map : Column) (row_begin row_end : nat) (if_argument : option Column) (delta_flags : Column) (count : Z) : Z :=
  match if_argument with
  | Some flags =>
      foldl (fun count i => if set_at flags i && negb (set_at null_map i) then to_u64 (count + delta_flags !!! i) else count) count
        (rows_between row_begin row_end)
  | None =>
      foldl (fun count i => if set_at null_map i then count else to_u64 (count + delta_flags !!! i)) count (rows_between row_begin row_end)
  end.
End CountNotNull.

(** ** Sum *)

(** The types of the columns of integers. *)
Inductive NumType : Type := UInt8 | UInt16 | UInt32 | UInt64 | Int8 | Int16 | Int32 | Int64.
Definition is_signed (ty : NumType) : bool := match ty with Int8 | Int16 | Int32 | Int64 => true | _ => false end.
Definition bits (ty : NumType) : Z :=
  match ty with UInt8 | Int8 => 8 | UInt16 | Int16 => 16 | UInt32 | Int32 => 32 | UInt64 | Int64 => 64 end.
Definition in_type (ty : NumType) (v : Z) : Prop :=
  if is_signed ty then - 2 ^ (bits ty - 1) <= v < 2 ^ (bits ty - 1) else 0 <= v < 2 ^ bits ty.

(** [T] of the sum: [Int64] for signed and [UInt64] for unsigned columns. *)
Definition wrap (ty : NumType) (x : Z) : Z := if is_signed ty then to_i64 x else to_u64 x.

(** The product of a value and an [Int8], after the promotions of the language. *)
Definition times_delta (ty : NumType) (v d : Z) : Z :=
  match ty with
  | UInt8 | UInt16 | Int8 | Int16 | Int32 => to_i32 (v * d)
  | UInt32 => to_u32 (v * d)
  | UInt64 => to_u64 (v * d)
  | Int64 => to_i64 (v * d)
  end.

Module Sum.
Section Sum.
Context (ty : NumType).
Definition t : Type := Z.
Definition create : t := 0.
Definition data_add (lhs rhs : Z) : Z := wrap ty (lhs + rhs).
Definition data_negate (lhs rhs : Z) : Z := wrap ty (lhs - rhs).

(** [128 / sizeof(T)] *)
Definition unroll_count : nat := 16.

(** One turn of the unrolled loop, from the row [k] of the range. *)
Definition unrolled_turn (ptr delta_flags : Column) (start k : nat) (partial_sums : list Z) : list Z :=
  imap (fun i p => data_add p (times_delta ty (ptr !!! (start + k + i)%nat) (delta_flags !!! (k + i)%nat))) partial_sums.

Definition addMany (ptr : Column) (start end_ : nat) (delta_flags : Column) (sum : t) : t :=
  let count := (end_ - start)%nat in
  let turns := (count / unroll_count)%nat in
  let partial_sums :=
    foldl (fun ps b => unrolled_turn ptr delta_flags start (b * unroll_count) ps) (replicate unroll_count 0) (seq 0 turns) in
  let sum := foldl data_add sum partial_sums in
  let local_sum :=
    foldl (fun local_sum k =>
             if delta_flags !!! k =? 1 then data_add local_sum (ptr !!! (start + k)%nat) else data_negate local_sum (ptr !!! (start + k)%nat))
      0 (seq (turns * unroll_count) (count - turns * unroll_count)) in
  data_add sum local_sum.

Definition addManyConditionalInternal (add_if_zero : bool) (ptr condition_map : Column) (start end_ : nat) (delta_flags : Column) (sum : t) : t :=
  let local_sum :=
    foldl (fun local_sum k =>
             let multiplier := if Bool.eqb (negb (set_at condition_map k)) add_if_zero then 1 else 0 in
             data_add local_sum (wrap ty (wrap ty (ptr !!! (start + k)%nat * multiplier) * delta_flags !!! k)))
      0 (seq 0 (end_ - start)) in
  data_add sum local_sum.
Definition addManyNotNull := addManyConditionalInternal true.
Definition addManyConditional := addManyConditionalInternal false.

Context (column : Column).
Definition add (row_num : nat) (sum : t) : t := data_add sum (column !!! row_num).
Definition negate (row_num : nat) (sum : t) : t := data_negate sum (column !!! row_num).

Definition addBatchSinglePlace (row_begin row_end : nat) (if_argument : option Column) (delta_col : Column) (sum : t) : t :=
  match if_argument with
  | Some flags => addManyConditional column flags row_begin row_end delta_col sum
  | None => addMany column row_begin row_end delta_col sum
  end.

(** The flags for nulls and the condition in one; the rows before [row_begin] stay zero. *)
Definition final_flags (row_begin row_end : nat) (null_map if_flags : Column) : Column :=
  (fun i => if decide (row_begin <= i)%nat then Z.land (if set_at null_map i then 0 else 1) (if_flags !!! i) else 0) <$> seq 0 row_end.

Definition addBatchSinglePlaceNotNull (row_begin row_end : nat) (null_map : Column) (if_argument : option Column) (delta_col : Column) (sum : t) : t :=
  match if_argument with
  | Some if_flags => addManyConditional column (final_flags row_begin row_end null_map if_flags) row_begin row_end delta_col sum
  | None => addManyNotNull column null_map row_begin row_end delta_col sum
  end.

Definition merge (place rhs : t) : t := data_add place rhs.
Definition write (sum : t) : list Z := if is_signed ty then writeInt64 sum else writeUInt64 sum.
Definition read : reader t := if is_signed ty then readInt64 else readUInt64.
End Sum.
End Sum.

(** ** Average *)

Module Avg.
Section Avg.
Context (ty : NumType) (column : Column).
(** [AvgFraction] *)
Record t : Type := mk { numerator : Z; denominator : Z }.
Definition create : t := mk 0 0.
Definition increment (inc : Z) (s : t) : t := mk (wrap ty (numerator s + inc)) (denominator s).
Definition decrement (inc : Z) (s : t) : t := mk (wrap ty (numerator s - inc)) (denominator s).
Definition count_more (d : Z) (s : t) : t := mk (numerator s) (to_u64 (denominator s + d)).

Definition add (row_num : nat) (s : t) : t := count_more 1 (increment (column !!! row_num) s).
Definition negate (row_num : nat) (s : t) : t := count_more (-1) (decrement (column !!! row_num) s).

Definition addBatchSinglePlace (row_begin row_end : nat) (if_argument : option Column) (delta_col : Column) (s : t) : t :=
  match if_argument with
  | Some flags =>
      let sum_data := Sum.addManyConditional ty column flags row_begin row_end delta_col Sum.create in
      let s := foldl (fun s i => if set_at flags i then count_more (delta_col !!! i) s else s) s (rows_between row_begin row_end) in
      increment sum_data s
  | None =>
      let sum_data := Sum.addMany ty column row_begin row_end delta_col Sum.create in
      increment sum_data (count_more (foldl (fun n i => n + delta_col !!! i) 0 (rows_between row_begin row_end)) s)
  end.

Definition final_flags (row_begin row_end : nat) (null_map if_flags : Column) : Column :=
  (fun i => if decide (row_begin <= i)%nat then Z.land (if set_at null_map i then 0 else 1) (if set_at if_flags i then 1 else 0) else 0) <$> seq 0 row_end.

Definition addBatchSinglePlaceNotNull (row_begin row_end : nat) (null_map : Column) (if_argument : option Column) (delta_col : Column) (s : t) : t :=
  match if_argument with
  | Some if_flags =>
      let kept := final_flags row_begin row_end null_map if_flags in
      let used_value := foldl (fun n i => to_u64 (n + kept !!! i * delta_col !!! i)) 0 (rows_between row_begin row_end) in
      let sum_data := Sum.addManyConditional ty column kept row_begin row_end delta_col Sum.create in
      increment sum_data (count_more used_value s)
  | None =>
      let sum_data := Sum.addManyNotNull ty column null_map row_begin row_end delta_col Sum.create in
      let s := foldl (fun s i => if set_at null_map i then s else count_more (delta_col !!! i) s) s (rows_between row_begin row_end) in
      increment sum_data s
  end.

Definition merge (place rhs : t) : t := count_more (denominator rhs) (increment (numerator rhs) place).
Definition serialize (s : t) : list Z := Sum.write ty (numerator s) ++ writeVarUInt (denominator s).
Definition deserialize : reader t := n <- Sum.read ty;; d <- readVarUInt;; ret (mk n d).
End Avg.
End Avg.
