(* ===== verification/AggregateBatchProps.v ===== *)
(** * Batches are their rows one by one

    The overrides of count, sum and average give what the loops of the helper class give,
    for a batch from the first row on with deltas of 1 and -1.  Sums are compared modulo
    [2 ^ 64] ([eqm], with setoid rewriting); the unrolled loop of [Sum.addMany] keeps
    [unroll_count] partial sums whose total is the sum of the rows so far.  The examples at
    the end are batches on which the overrides differ from the loops. *)

From Stdlib Require Import Setoid Morphisms.
From stdpp Require Import list_numbers.
From S2P Require Import Prelude Codec Aggregator AggregateBatch.

Local Open Scope Z_scope.

(** ** Integers modulo [2 ^ 64] *)

Definition eqm (x y : Z) : Prop := x mod 2 ^ 64 = y mod 2 ^ 64.
Local Infix "≅" := eqm (at level 70).

#[export] Instance eqm_equiv : Equivalence eqm.
Proof. split; unfold eqm; [done|by intros x y ->|by intros x y z -> ->]. Qed.

#[export] Instance eqm_add : Proper (eqm ==> eqm ==> eqm) Z.add.
Proof. intros a b Hab c d Hcd. unfold eqm in *. by rewrite Z.add_mod, Hab, Hcd, <- Z.add_mod by lia. Qed.


Lemma eqm_iff x y : x ≅ y <-> exists q, x = y + q * 2 ^ 64.
Proof.
  unfold eqm. split.
  - intros H. exists (x / 2 ^ 64 - y / 2 ^ 64). pose proof (Z.div_mod x (2 ^ 64)). pose proof (Z.div_mod y (2 ^ 64)). lia.
  - intros [q ->]. by rewrite Z.mod_add by lia.
Qed.

#[export] Instance eqm_mul : Proper (eqm ==> eqm ==> eqm) Z.mul.
Proof. intros a b Hab c d Hcd. unfold eqm in *. by rewrite Z.mul_mod, Hab, Hcd, <- Z.mul_mod by lia. Qed.

#[export] Instance eqm_sub : Proper (eqm ==> eqm ==> eqm) Z.sub.
Proof. intros a b [p ->]%eqm_iff c d [q ->]%eqm_iff. apply eqm_iff. exists (p - q). lia. Qed.

Lemma to_u64_eqm x : to_u64 x ≅ x.
Proof. unfold eqm, to_u64. by rewrite Z.mod_mod by lia. Qed.

Lemma to_i64_eqm x : to_i64 x ≅ x.
Proof. unfold to_i64. setoid_rewrite (to_u64_eqm (x + 2 ^ 63)). apply eqm_iff. exists 0. lia. Qed.

Lemma wrap_eqm ty x : wrap ty x ≅ x.
Proof. unfold wrap. destruct (is_signed ty); [apply to_i64_eqm|apply to_u64_eqm]. Qed.

Lemma to_u64_ext x y : x ≅ y -> to_u64 x = to_u64 y.
Proof. done. Qed.

Lemma wrap_ext ty x y : x ≅ y -> wrap ty x = wrap ty y.
Proof.
  intros Hxy. unfold wrap. destruct (is_signed ty); [|done]. unfold to_i64. f_equal. by apply eqm_add.
Qed.

(** A state that is in the range of its type. *)
Definition wrapped (ty : NumType) (x : Z) : Prop := wrap ty x = x.

Lemma wrap_wrapped ty x : wrapped ty (wrap ty x).
Proof. apply wrap_ext, wrap_eqm. Qed.

Lemma wrapped_eq ty x y : wrapped ty x -> wrapped ty y -> x ≅ y -> x = y.
Proof. intros <- <- H. by apply wrap_ext; rewrite !wrap_eqm in H. Qed.

(** ** Sums over rows *)

Definition total {A} (f : A -> Z) (l : list A) : Z := foldr (fun i n => f i + n) 0 l.

Lemma total_rows_app {A} (f : A -> Z) l l' : total f (l ++ l') = total f l + total f l'.
Proof. unfold total. induction l as [|x l IH]; cbn in *; lia. Qed.

Lemma total_eqm {A} (f g : A -> Z) l : (forall x, x ∈ l -> f x ≅ g x) -> total f l ≅ total g l.
Proof.
  unfold total. induction l as [|x l IH]; cbn; intros Hfg; [done|]. rewrite (Hfg x) by by left. by rewrite IH by (intros y Hy; apply Hfg; by right).
Qed.

Lemma total_perm {A} (f : A -> Z) l l' : l ≡ₚ l' -> total f l = total f l'.
Proof. unfold total. induction 1; cbn in *; lia. Qed.

Lemma total_seq (f : nat -> Z) k n : total f (seq k n) = total (fun i => f (k + i)%nat) (seq 0 n).
Proof. induction n as [|n IH]; [done|]. by rewrite !seq_S, !total_rows_app, IH. Qed.

(** A loop that adds to an accumulator. *)
Lemma foldl_total {A} (step : Z -> A -> Z) (f : A -> Z) s l :
  (forall s x, x ∈ l -> step s x ≅ s + f x) -> foldl step s l ≅ s + total f l.
Proof.
  unfold total. revert s. induction l as [|x l IH]; intros s Hs; cbn; [by rewrite Z.add_0_r|].
  rewrite IH by (intros; apply Hs; by right). rewrite Hs by by left. by rewrite Z.add_assoc.
Qed.

Lemma foldl_wrapped {A} ty (step : Z -> A -> Z) s l :
  wrapped ty s -> (forall s x, wrapped ty s -> wrapped ty (step s x)) -> wrapped ty (foldl step s l).
Proof. intros Hs Hw. revert s Hs. induction l as [|x l IH]; intros s Hs; cbn; [done|]. by apply IH, Hw. Qed.

(** ** The rows of a batch *)

Section Rows.
Context (column delta : Column).

(** What a row adds: its value or, retracted, the opposite. *)
Definition signed (i : nat) : Z := if 0 <=? delta !!! i then column !!! i else - (column !!! i).
Definition deltas_ok (n : nat) : Prop := forall i, (i < n)%nat -> delta !!! i = 1 \/ delta !!! i = -1.

Lemma signed_delta n i : deltas_ok n -> (i < n)%nat -> signed i = column !!! i * delta !!! i.
Proof. intros Hd Hi. unfold signed. destruct (Hd i Hi) as [-> | ->]; cbn; lia. Qed.

(** Values whose product with -1 fits in the type the language gives it. *)
Definition retractable (ty : NumType) (v : Z) : Prop :=
  match ty with UInt32 => v = 0 | Int32 => v <> - 2 ^ 31 | _ => True end.
Definition values_ok (ty : NumType) (n : nat) : Prop :=
  forall i, (i < n)%nat -> in_type ty (column !!! i) /\ (delta !!! i = -1 -> retractable ty (column !!! i)).
End Rows.

Lemma to_i32_small x : - 2 ^ 31 <= x < 2 ^ 31 -> to_i32 x = x.
Proof. intros H. unfold to_i32. rewrite Z.mod_small by lia. lia. Qed.

Lemma times_delta_exact ty v d :
  in_type ty v -> d = 1 \/ d = -1 -> (d = -1 -> retractable ty v) -> times_delta ty v d ≅ v * d.
Proof.
  intros Hv Hd Hr. destruct ty; cbn in *; unfold in_type in Hv; cbn in Hv; try (apply to_u64_eqm || apply to_i64_eqm).
  1, 2, 4, 5: rewrite to_i32_small by (destruct Hd; subst; lia); done.
  - destruct Hd as [-> | ->]; [|rewrite Hr by done; done]. unfold to_u32. by rewrite Z.mod_small by lia.
  - rewrite to_i32_small; [done|]. destruct Hd as [-> | ->]; [lia|]. specialize (Hr eq_refl). lia.
Qed.

(** ** Sum *)

Section Sum.
Context (ty : NumType) (column delta : Column).

Lemma data_add_eqm a b : Sum.data_add ty a b ≅ a + b.
Proof. apply wrap_eqm. Qed.

Lemma total_imap (g : nat -> Z) ps :
  total id (imap (fun i p => Sum.data_add ty p (g i)) ps) ≅ total id ps + total g (seq 0 (length ps)).
Proof.
  revert g. induction ps as [|p ps IH]; intros g; [done|]. rewrite imap_cons. cbn [total foldr length seq]. fold (total (A := Z)). fold (total (A := nat)).
  unfold total in *. cbn. rewrite data_add_eqm. pose proof (IH (fun i => g (S i))) as IH'. cbn in IH'. unfold compose. rewrite IH'.
  rewrite <- seq_shift, foldr_fmap. apply reflexive_eq. cbn. lia.
Qed.

(** After [turns] turns the partial sums add up to the rows so far. *)
Lemma unrolled_total start turns (f : nat -> Z) :
  (forall k, (k < turns * Sum.unroll_count)%nat -> times_delta ty (column !!! (start + k)%nat) (delta !!! k) ≅ f k) ->
  let ps := foldl (fun ps b => Sum.unrolled_turn ty column delta start (b * Sum.unroll_count) ps) (replicate Sum.unroll_count 0) (seq 0 turns) in
  length ps = Sum.unroll_count /\ total id ps ≅ total f (seq 0 (turns * Sum.unroll_count)).
Proof.
  induction turns as [|turns IH]; intros Hf; [done|]. cbn zeta in *. rewrite seq_S, foldl_app. cbn [foldl Nat.add].
  destruct IH as [Hl Ht]; [intros k Hk; apply Hf; lia|]. set (ps := foldl _ _ _) in *. unfold Sum.unrolled_turn at 1 2. split; [by rewrite length_imap|].
  rewrite (total_imap (fun i => times_delta ty (column !!! (start + turns * Sum.unroll_count + i)%nat) (delta !!! (turns * Sum.unroll_count + i)%nat))), Ht, Hl.
  rewrite Nat.mul_succ_l, seq_app, total_rows_app. f_equiv. cbn [Nat.add].
  rewrite (total_seq f).
  apply total_eqm. intros i Hi%elem_of_seq. rewrite <- Nat.add_assoc. rewrite Hf by lia. done.
Qed.

Lemma addMany_total n s :
  deltas_ok delta n -> values_ok column delta ty n -> Sum.addMany ty column 0 n delta s ≅ s + total (signed column delta) (seq 0 n).
Proof.
  intros Hd Hv. unfold Sum.addMany. rewrite Nat.sub_0_r. set (turns := (n / Sum.unroll_count)%nat).
  assert (Hn : (turns * Sum.unroll_count <= n)%nat) by (unfold turns, Sum.unroll_count; pose proof (Nat.div_mod_eq n 16); lia).
  destruct (unrolled_total 0 turns (signed column delta)) as [_ Ht].
  { intros k Hk. destruct (Hv k ltac:(lia)) as [Hin Hr]. rewrite (signed_delta column delta n) by (done || lia). apply times_delta_exact; [done|apply Hd; lia|done]. }
  rewrite data_add_eqm, (foldl_total _ id _ _ (fun s x _ => data_add_eqm s x)), Ht.
  rewrite (foldl_total _ (signed column delta)).
  2: { intros a k Hk%elem_of_seq. unfold signed. cbn [Nat.add]. destruct (Hd k ltac:(lia)) as [-> | ->]; cbn; apply wrap_eqm. }
  rewrite <- Z.add_assoc, Z.add_0_l, <- total_rows_app, <- seq_app. by replace (turns * Sum.unroll_count + (n - turns * Sum.unroll_count))%nat with n by lia.
Qed.

Lemma addManyConditional_total add_if_zero cond n s :
  deltas_ok delta n ->
  Sum.addManyConditionalInternal ty add_if_zero column cond 0 n delta s ≅
  s + total (fun i => if Bool.eqb (negb (set_at cond i)) add_if_zero then signed column delta i else 0) (seq 0 n).
Proof.
  intros Hd. unfold Sum.addManyConditionalInternal. rewrite Nat.sub_0_r, data_add_eqm. f_equiv.
  rewrite (foldl_total _ (fun i => if Bool.eqb (negb (set_at cond i)) add_if_zero then signed column delta i else 0)); [done|].
  intros a k Hk%elem_of_seq. rewrite data_add_eqm, !wrap_eqm. cbn [Nat.add]. rewrite (signed_delta column delta n) by (done || lia).
  destruct (Bool.eqb _ _); apply reflexive_eq; lia.
Qed.

(** The loops of the helper class, over the rows that are kept. *)
Lemma sum_rows_total kept s l :
  foldl (fun s i => if kept i : bool then Helper.by_delta (Sum.add ty column) (Sum.negate ty column) delta i s else s) s l ≅
  s + total (fun i => if kept i then signed column delta i else 0) l.
Proof.
  apply foldl_total. intros a i _. unfold Helper.by_delta, signed. destruct (kept i); [|by rewrite Z.add_0_r]. destruct (0 <=? _); apply wrap_eqm.
Qed.

Lemma sum_rows_wrapped kept s l :
  wrapped ty s -> wrapped ty (foldl (fun s i => if kept i : bool then Helper.by_delta (Sum.add ty column) (Sum.negate ty column) delta i s else s) s l).
Proof.
  intros Hs. apply foldl_wrapped; [done|]. intros a i Ha. unfold Helper.by_delta. destruct (kept i); [|done]. destruct (0 <=? _); apply wrap_wrapped.
Qed.

Lemma sum_override kept s n x :
  wrapped ty s -> wrapped ty x -> x ≅ s + total (fun i => if kept i : bool then signed column delta i else 0) (seq 0 n) ->
  x = foldl (fun s i => if kept i then Helper.by_delta (Sum.add ty column) (Sum.negate ty column) delta i s else s) s (seq 0 n).
Proof. intros Hs Hx He. apply (wrapped_eq ty); [done|by apply sum_rows_wrapped|]. by rewrite sum_rows_total. Qed.

Lemma sum_batch n if_argument s :
  deltas_ok delta n -> values_ok column delta ty n -> wrapped ty s ->
  Sum.addBatchSinglePlace ty column 0 n if_argument delta s =
  Helper.addBatchSinglePlace (Sum.add ty column) (Sum.negate ty column) 0 n if_argument (Some delta) s.
Proof.
  intros Hd Hv Hs. unfold Sum.addBatchSinglePlace, Helper.addBatchSinglePlace, rows_between. rewrite Nat.sub_0_r. destruct if_argument as [flags|].
  - apply (sum_override (set_at flags)); [done|apply wrap_wrapped|]. etrans; [by apply addManyConditional_total|]. f_equiv. apply total_eqm.
    intros i _. by destruct (set_at flags i).
  - apply (sum_override (fun _ => true)); [done|apply wrap_wrapped|]. by apply addMany_total.
Qed.

Definition flags_ok (flags : Column) (n : nat) : Prop := forall i, (i < n)%nat -> flags !!! i = 0 \/ flags !!! i = 1.

Lemma foldl_rows_ext {A B} (f g : A -> B -> A) a l : (forall a x, x ∈ l -> f a x = g a x) -> foldl f a l = foldl g a l.
Proof. revert a. induction l as [|x l IH]; intros a Hfg; [done|]. cbn. rewrite Hfg by by left. apply IH. intros; apply Hfg; by right. Qed.

Lemma set_at_fmap (f : nat -> Z) n i : (i < n)%nat -> set_at (f <$> seq 0 n) i = negb (f i =? 0).
Proof. intros Hi. unfold set_at. rewrite (list_lookup_total_correct _ i (f i)); [done|]. by rewrite list_lookup_fmap, lookup_seq_lt. Qed.

Lemma sum_batch_not_null n null_map if_argument s :
  deltas_ok delta n -> (forall flags, if_argument = Some flags -> flags_ok flags n) -> wrapped ty s ->
  Sum.addBatchSinglePlaceNotNull ty column 0 n null_map if_argument delta s =
  Helper.addBatchSinglePlaceNotNull (Sum.add ty column) (Sum.negate ty column) 0 n null_map if_argument (Some delta) s.
Proof.
  intros Hd Hf Hs. unfold Sum.addBatchSinglePlaceNotNull, Helper.addBatchSinglePlaceNotNull, rows_between. rewrite Nat.sub_0_r. destruct if_argument as [flags|].
  - apply (sum_override (fun i => negb (set_at null_map i) && set_at flags i)); [done|apply wrap_wrapped|]. etrans; [by apply addManyConditional_total|]. f_equiv. apply total_eqm.
    intros i Hi%elem_of_seq. unfold Sum.final_flags. rewrite set_at_fmap by lia. rewrite decide_True by lia. unfold set_at.
    destruct (Hf flags eq_refl i ltac:(lia)) as [-> | ->]; by destruct (null_map !!! i =? 0).
  - rewrite (foldl_rows_ext _ (fun s i => if negb (set_at null_map i) then Helper.by_delta (Sum.add ty column) (Sum.negate ty column) delta i s else s))
      by (intros a i _; by destruct (set_at null_map i)).
    apply (sum_override (fun i => negb (set_at null_map i))); [done|apply wrap_wrapped|]. etrans; [by apply addManyConditional_total|]. f_equiv. apply total_eqm.
    intros i _. by destruct (set_at null_map i).
Qed.
End Sum.

(** ** The loops of the helper class, over the rows that are kept *)

Section Kept.
Context {St : Type} (add negate : nat -> St -> St).

Definition kept_by (null_map if_argument : option Column) (i : nat) : bool :=
  match null_map with Some c => negb (set_at c i) | None => true end && match if_argument with Some c => set_at c i | None => true end.
Definition kept_rows (kept : nat -> bool) (delta : Column) (l : list nat) (s : St) : St :=
  foldl (fun s i => if kept i then Helper.by_delta add negate delta i s else s) s l.

Lemma helper_kept n if_argument delta s :
  Helper.addBatchSinglePlace add negate 0 n if_argument (Some delta) s = kept_rows (kept_by None if_argument) delta (seq 0 n) s.
Proof. unfold Helper.addBatchSinglePlace, rows_between. rewrite Nat.sub_0_r. by destruct if_argument. Qed.

Lemma helper_kept_not_null n null_map if_argument delta s :
  Helper.addBatchSinglePlaceNotNull add negate 0 n null_map if_argument (Some delta) s = kept_rows (kept_by (Some null_map) if_argument) delta (seq 0 n) s.
Proof.
  unfold Helper.addBatchSinglePlaceNotNull, rows_between. rewrite Nat.sub_0_r. destruct if_argument; [done|]. apply foldl_rows_ext. intros a i _.
  unfold kept_by. by destruct (set_at null_map i).
Qed.
End Kept.

(** ** Count *)

Section Count.
Context (delta : Column).

Lemma count_rows_total kept n l s :
  deltas_ok delta n -> Forall (fun i => (i < n)%nat) l ->
  kept_rows Count.add Count.negate kept delta l s ≅ s + total (fun i => if kept i then delta !!! i else 0) l.
Proof.
  intros Hd Hl. apply foldl_total. intros a i Hi. rewrite Forall_forall in Hl. destruct (kept i); [|by rewrite Z.add_0_r]. unfold Helper.by_delta.
  destruct (Hd i (Hl i Hi)) as [-> | ->]; cbn; apply to_u64_eqm.
Qed.

Lemma u64_wrapped x : u64 x -> wrapped UInt64 x.
Proof. apply to_u64_small. Qed.

Lemma count_rows_wrapped kept l s : u64 s -> wrapped UInt64 (kept_rows Count.add Count.negate kept delta l s).
Proof.
  intros Hs. apply foldl_wrapped; [by apply u64_wrapped|]. intros a i Ha. unfold Helper.by_delta. destruct (kept i); [|done]. destruct (0 <=? _); apply (wrap_wrapped UInt64).
Qed.

(** A loop that adds the deltas of the rows that are kept. *)
Lemma count_loop kept n s (step : Z -> nat -> Z) :
  deltas_ok delta n -> u64 s -> (forall a i, (i < n)%nat -> step a i = if kept i : bool then to_u64 (a + delta !!! i) else a) ->
  foldl step s (seq 0 n) = kept_rows Count.add Count.negate kept delta (seq 0 n) s.
Proof.
  intros Hd Hs Hstep. rewrite (foldl_rows_ext step (fun a i => if kept i then to_u64 (a + delta !!! i) else a)) by (intros a i Hi%elem_of_seq; apply Hstep; lia).
  apply (wrapped_eq UInt64).
  - apply foldl_wrapped; [by apply u64_wrapped|]. intros a i Ha. destruct (kept i); [apply (wrap_wrapped UInt64)|done].
  - by apply count_rows_wrapped.
  - rewrite (count_rows_total kept n) by (done || (apply Forall_forall; intros i Hi%elem_of_seq; lia)).
    apply foldl_total. intros a i _. destruct (kept i); [apply to_u64_eqm|by rewrite Z.add_0_r].
Qed.

Lemma count_batch n if_argument s :
  deltas_ok delta n -> (forall flags, if_argument = Some flags -> length flags = n) -> u64 s ->
  Count.addBatchSinglePlace 0 n if_argument delta s = Helper.addBatchSinglePlace Count.add Count.negate 0 n if_argument (Some delta) s.
Proof.
  intros Hd Hf Hs. rewrite helper_kept. unfold Count.addBatchSinglePlace, rows_between. rewrite Nat.sub_0_r.
  destruct if_argument as [flags|]; [rewrite (Hf flags) by done|]; by apply count_loop.
Qed.

Lemma count_batch_not_null n null_map if_argument s :
  deltas_ok delta n -> u64 s ->
  Count.addBatchSinglePlaceNotNull 0 n null_map if_argument delta s =
  Helper.addBatchSinglePlaceNotNull Count.add Count.negate 0 n null_map if_argument (Some delta) s.
Proof.
  intros Hd Hs. rewrite helper_kept_not_null. unfold Count.addBatchSinglePlaceNotNull, rows_between. rewrite Nat.sub_0_r.
  destruct if_argument as [flags|]; (apply count_loop; [done|done|]); intros a i _; unfold kept_by; by destruct (set_at null_map i); try destruct (set_at flags i).
Qed.
End Count.

(** ** Average *)

Section Avg.
Context (ty : NumType) (column delta : Column).
Local Abbreviation rows := (kept_rows (Avg.add ty column) (Avg.negate ty column)).

(** The average keeps a sum and a count. *)
Lemma avg_rows kept l s :
  rows kept delta l s =
  Avg.mk (kept_rows (Sum.add ty column) (Sum.negate ty column) kept delta l (Avg.numerator s)) (kept_rows Count.add Count.negate kept delta l (Avg.denominator s)).
Proof.
  unfold kept_rows. revert s. induction l as [|i l IH]; intros s; cbn [foldl]; [by destruct s|]. rewrite IH. unfold Helper.by_delta.
  destruct (kept i); [|done]. by destruct (0 <=? _).
Qed.

Lemma avg_override kept n s x den :
  deltas_ok delta n -> wrapped ty (Avg.numerator s) ->
  x ≅ total (fun i => if kept i : bool then signed column delta i else 0) (seq 0 n) ->
  Avg.denominator den = kept_rows Count.add Count.negate kept delta (seq 0 n) (Avg.denominator s) -> Avg.numerator den = Avg.numerator s ->
  Avg.increment ty x den = rows kept delta (seq 0 n) s.
Proof.
  intros Hd Hs Hx Hden Hnum. rewrite avg_rows. unfold Avg.increment. rewrite Hden, Hnum. f_equal.
  apply (sum_override ty column delta); [done|apply wrap_wrapped|]. by rewrite wrap_eqm, Hx.
Qed.

Lemma count_more_foldl (f : Avg.t -> nat -> Avg.t) (g : Z -> nat -> Z) l s :
  (forall s i, Avg.numerator (f s i) = Avg.numerator s) -> (forall s i, Avg.denominator (f s i) = g (Avg.denominator s) i) ->
  Avg.numerator (foldl f s l) = Avg.numerator s /\ Avg.denominator (foldl f s l) = foldl g (Avg.denominator s) l.
Proof.
  intros Hn Hd. revert s. induction l as [|i l IH]; intros s; [done|]. cbn. destruct (IH (f s i)) as [-> ->]. by rewrite Hn, Hd.
Qed.

(** The denominator, counted row by row or in one. *)
Lemma denominator_rows kept n s (f : Avg.t -> nat -> Avg.t) :
  deltas_ok delta n -> u64 (Avg.denominator s) -> (forall s i, f s i = if kept i : bool then Avg.count_more (delta !!! i) s else s) ->
  Avg.numerator (foldl f s (seq 0 n)) = Avg.numerator s /\
  Avg.denominator (foldl f s (seq 0 n)) = kept_rows Count.add Count.negate kept delta (seq 0 n) (Avg.denominator s).
Proof.
  intros Hd Hs Hf. destruct (count_more_foldl f (fun a i => if kept i then to_u64 (a + delta !!! i) else a) (seq 0 n) s) as [H1 H2];
    [intros a i; rewrite Hf; by destruct (kept i)..|]. split; [done|]. rewrite H2. by apply count_loop.
Qed.

Lemma denominator_at_once kept n s x :
  deltas_ok delta n -> u64 s -> x ≅ total (fun i => if kept i : bool then delta !!! i else 0) (seq 0 n) ->
  to_u64 (s + x) = kept_rows Count.add Count.negate kept delta (seq 0 n) s.
Proof.
  intros Hd Hs Hx. apply (wrapped_eq UInt64); [apply (wrap_wrapped UInt64)|by apply count_rows_wrapped|]. rewrite to_u64_eqm, Hx. symmetry.
  apply (count_rows_total delta kept n); [done|]. apply Forall_forall. intros i Hi%elem_of_seq. lia.
Qed.

Definition fraction_ok (s : Avg.t) : Prop := wrapped ty (Avg.numerator s) /\ u64 (Avg.denominator s).

Lemma avg_batch n if_argument s :
  deltas_ok delta n -> values_ok column delta ty n -> fraction_ok s ->
  Avg.addBatchSinglePlace ty column 0 n if_argument delta s =
  Helper.addBatchSinglePlace (Avg.add ty column) (Avg.negate ty column) 0 n if_argument (Some delta) s.
Proof.
  intros Hd Hv [Hs Hu]. rewrite helper_kept. unfold Avg.addBatchSinglePlace, rows_between. rewrite Nat.sub_0_r. destruct if_argument as [flags|].
  - destruct (denominator_rows (set_at flags) n s (fun s i => if set_at flags i then Avg.count_more (delta !!! i) s else s)) as [H1 H2]; [done|done|done|].
    apply avg_override; [done|done| |done|done]. etrans; [by apply addManyConditional_total|]. apply total_eqm. intros i _. unfold kept_by. by destruct (set_at flags i).
  - apply avg_override; [done|done| | |done]; [etrans; [by apply addMany_total|done]|]. apply denominator_at_once; [done|done|].
    apply (foldl_total (fun n i => n + delta !!! i) (fun i => delta !!! i) 0). done.
Qed.

Lemma avg_batch_not_null n null_map if_argument s :
  deltas_ok delta n -> fraction_ok s ->
  Avg.addBatchSinglePlaceNotNull ty column 0 n null_map if_argument delta s =
  Helper.addBatchSinglePlaceNotNull (Avg.add ty column) (Avg.negate ty column) 0 n null_map if_argument (Some delta) s.
Proof.
  intros Hd [Hs Hu]. rewrite helper_kept_not_null. unfold Avg.addBatchSinglePlaceNotNull, rows_between. rewrite Nat.sub_0_r. destruct if_argument as [flags|].
  - set (kept := Avg.final_flags 0 n null_map flags).
    assert (Hkept : forall i, (i < n)%nat -> kept !!! i = if kept_by (Some null_map) (Some flags) i then 1 else 0).
    { intros i Hi. unfold kept, Avg.final_flags. rewrite (list_lookup_total_correct _ i (Z.land (if set_at null_map i then 0 else 1) (if set_at flags i then 1 else 0))).
      - unfold kept_by. by destruct (set_at null_map i), (set_at flags i).
      - rewrite list_lookup_fmap, lookup_seq_lt by done. cbn. by rewrite decide_True by lia. }
    apply avg_override; [done|done| | |done].
    + etrans; [by apply addManyConditional_total|]. apply total_eqm. intros i Hi%elem_of_seq. unfold set_at. rewrite Hkept by lia. by destruct (kept_by _ _ i).
    + apply denominator_at_once; [done|done|]. apply (foldl_total _ (fun i => if kept_by (Some null_map) (Some flags) i then delta !!! i else 0) 0).
      intros a i Hi%elem_of_seq. rewrite to_u64_eqm, Hkept by lia. apply reflexive_eq. destruct (kept_by _ _ i); lia.
  - destruct (denominator_rows (kept_by (Some null_map) None) n s (fun s i => if set_at null_map i then s else Avg.count_more (delta !!! i) s)) as [H1 H2];
      [done|done|intros a i; unfold kept_by; by destruct (set_at null_map i)|].
    apply avg_override; [done|done| |done|done]. etrans; [by apply addManyConditional_total|]. apply total_eqm. intros i _. unfold kept_by. by destruct (set_at null_map i).
Qed.
End Avg.

Lemma count_not_null_batch delta n null_map if_argument s :
  deltas_ok delta n -> u64 s ->
  CountNotNull.addBatchSinglePlace null_map 0 n if_argument delta s =
  Helper.addBatchSinglePlace (CountNotNull.add null_map) (CountNotNull.negate null_map) 0 n if_argument (Some delta) s.
Proof.
  intros Hd Hs. rewrite helper_kept. unfold CountNotNull.addBatchSinglePlace, rows_between. rewrite Nat.sub_0_r.
  assert (Hrows : kept_rows (CountNotNull.add null_map) (CountNotNull.negate null_map) (kept_by None if_argument) delta (seq 0 n) s =
    kept_rows Count.add Count.negate (kept_by (Some null_map) if_argument) delta (seq 0 n) s).
  { unfold kept_rows. revert Hs. generalize (seq 0 n). intros l. revert s. induction l as [|i l IH]; intros s Hs; [done|]. cbn [foldl].
    assert (Hstep : (if kept_by None if_argument i then Helper.by_delta (CountNotNull.add null_map) (CountNotNull.negate null_map) delta i s else s) =
      (if kept_by (Some null_map) if_argument i then Helper.by_delta Count.add Count.negate delta i s else s)).
    { unfold kept_by, Helper.by_delta, CountNotNull.add, CountNotNull.negate, CountNotNull.not_null. cbn [andb].
      destruct (match if_argument with Some c => set_at c i | None => true end); [|by rewrite andb_false_r]. rewrite andb_true_r.
      destruct (set_at null_map i), (0 <=? _); cbn; rewrite ?Z.add_0_r, ?Z.sub_0_r; try done; by apply to_u64_small. }
    rewrite Hstep. apply IH. destruct (kept_by (Some null_map) if_argument i); [|done]. unfold Helper.by_delta, Count.add, Count.negate, to_u64, u64. destruct (0 <=? _); apply Z.mod_pos_bound; lia. }
  rewrite Hrows. destruct if_argument as [flags|]; (apply count_loop; [done|done|]); intros a i _; unfold kept_by; by destruct (set_at null_map i); try destruct (set_at flags i).
Qed.


(** Twenty rows, so that the unrolled loop runs, every third of them a retraction. *)
Definition batch_values : Column := (fun i => Z.of_nat (i * 7 - 40)) <$> seq 0 20.
Definition batch_deltas : Column := (fun i => if Nat.eqb (i mod 3) 0 then -1 else 1) <$> seq 0 20.


(** ** Writing and reading *)

Lemma wrapped_u64 x : wrapped UInt64 x -> u64 x.
Proof. intros <-. unfold wrap, u64. cbn. apply Z.mod_pos_bound. lia. Qed.

Lemma reads_sum ty s : wrapped ty s -> reads (Sum.read ty) (Sum.write ty s) s.
Proof.
  unfold wrapped, wrap, Sum.read, Sum.write. intros Hs. destruct (is_signed ty).
  - apply reads_Int64. rewrite <- Hs. unfold i64, to_i64. pose proof (Z.mod_pos_bound (s + 2 ^ 63) (2 ^ 64)). lia.
  - by apply reads_UInt64, wrapped_u64.
Qed.

Lemma reads_avg ty s : fraction_ok ty s -> reads (Avg.deserialize ty) (Avg.serialize ty s) s.
Proof.
  intros [Hn Hd]. unfold Avg.deserialize, Avg.serialize. eapply reads_bind; [by apply reads_sum|].
  eapply reads_map; [by apply reads_VarUInt|by destruct s].
Qed.

(** ** Retracting sums and averages as aggregate functions *)

Section Functions.
Context {Row : Type} (ty : NumType) (column delta : Row -> Z).

(** A row is a batch of one. *)
Definition add_row_avg (s : Avg.t) (r : Row) : Avg.t :=
  Helper.by_delta (Avg.add ty [column r]) (Avg.negate ty [column r]) [delta r] 0 s.
Definition sign (r : Row) : Z := if 0 <=? delta r then 1 else -1.

Definition avg_ops : AggregateOps Row Avg.t (Z * Z) :=
  {| agg_create := Avg.create; agg_add := add_row_avg; agg_merge := Avg.merge ty; agg_result s := (Avg.numerator s, Avg.denominator s) |}.

(** Sum and count of the rows, those retracted taken off. *)
Definition avg_of (l : list Row) : Avg.t :=
  Avg.mk (wrap ty (total (fun r => sign r * column r) l)) (to_u64 (total sign l)).

Lemma avg_of_app s s' l l' :
  s = avg_of l -> Avg.numerator s' ≅ total (fun r => sign r * column r) l' -> Avg.denominator s' ≅ total sign l' -> Avg.merge ty s s' = avg_of (l ++ l').
Proof.
  intros -> Hn Hd. unfold Avg.merge, Avg.count_more, Avg.increment, avg_of. cbn. rewrite !total_rows_app. f_equal.
  - apply wrap_ext. by rewrite wrap_eqm, Hn.
  - apply to_u64_ext. by rewrite to_u64_eqm, Hd.
Qed.

Definition avg_function : @AggregateFunction Row Avg.t (Z * Z) avg_ops.
Proof.
  refine (@Build_AggregateFunction Row Avg.t (Z * Z) avg_ops (fun l => (Avg.numerator (avg_of l), Avg.denominator (avg_of l))) (fun s l => s = avg_of l) _ _ _ _ _); cbn.
  - unfold avg_of. cbn. unfold wrap. by destruct (is_signed ty).
  - intros s l r Hs. rewrite <- (avg_of_app s (Avg.mk (sign r * column r) (sign r)) l [r] Hs) by (cbn; apply reflexive_eq; lia).
    unfold add_row_avg, Helper.by_delta, sign, Avg.merge, Avg.add, Avg.negate, Avg.count_more, Avg.increment, Avg.decrement. cbn.
    destruct (0 <=? delta r); cbn; f_equal; f_equal; lia.
  - intros s l s' l' Hs ->. apply avg_of_app; [done|apply wrap_eqm|apply to_u64_eqm].
  - intros s l l' Hp ->. unfold avg_of. by rewrite !(total_perm _ _ _ Hp).
  - by intros s l ->.
Defined.
End Functions.

(** ** Batches on which the overrides differ *)

(** A batch that does not start at the first row reads the deltas from the first row on: the value 3 is added although it
    is retracted. *)
Example sum_range_misaligned :
  Sum.addBatchSinglePlace Int64 [1; 2; 3] 2 3 None [1; 1; -1] 0 = 3 /\
  Helper.addBatchSinglePlace (Sum.add Int64 [1; 2; 3]) (Sum.negate Int64 [1; 2; 3]) 2 3 None (Some [1; 1; -1]) 0 = -3.
Proof. done. Qed.

(** Retractions of a [UInt32] in the unrolled loop are products of 32 bits: sixteen of 1 add [2 ^ 36 - 16] instead of -16. *)
Example sum_uint32_wraps :
  Sum.addBatchSinglePlace UInt32 (replicate 16 1) 0 16 None (replicate 16 (-1)) 16 = 2 ^ 36 /\
  Helper.addBatchSinglePlace (Sum.add UInt32 (replicate 16 1)) (Sum.negate UInt32 (replicate 16 1)) 0 16 None (Some (replicate 16 (-1))) 16 = 0.
Proof. done. Qed.

(** A condition that is true but even is dropped together with nulls. *)
Example sum_even_condition :
  Sum.addBatchSinglePlaceNotNull Int64 [7] 0 1 [0] (Some [2]) [1] 0 = 0 /\
  Helper.addBatchSinglePlaceNotNull (Sum.add Int64 [7]) (Sum.negate Int64 [7]) 0 1 [0] (Some [2]) (Some [1]) 0 = 7.
Proof. done. Qed.

(** The count with a condition takes all rows of the column, not those of the range. *)
Example count_range_ignored :
  Count.addBatchSinglePlace 0 1 (Some [1; 1; 1]) [1; 1; 1] 0 = 3 /\
  Helper.addBatchSinglePlace Count.add Count.negate 0 1 (Some [1; 1; 1]) (Some [1; 1; 1]) 0 = 1.
Proof. done. Qed.
