(* ===== verification/SessionWindow.v ===== *)
(** * Session windows
      (src/Processors/Transforms/Streaming/SessionWindowHelper.cpp, SessionAggregatingTransform.cpp,
      src/Interpreters/Streaming/SessionInfo.cpp and the parameters of WindowCommon.cpp)

    A session begins with a row that meets the start condition and takes up rows until one
    meets the end condition, comes too long after the last one, or too long after the
    first.  Sessions are assigned where rows are aggregated: the queue of sessions is part
    of the state of the only transform, and the id of a session is its time bucket.  The
    code keeps a pointer to the last session of the queue; the queue here is a list whose
    last element is updated in place. *)

From stdpp Require Import gmap.
From S2P Require Import Prelude Codec DateLut StreamTime WindowHelpers WindowSpec TimeBuckets Aggregator WindowAggregating.

Local Open Scope Z_scope.
Local Open Scope prog_scope.

Module Session.

(** ** Parameters *)

Record Params : Type := mkParams {
  base : WindowParams;
  session_timeout : Z;
  max_session_size : Z;
  interval_kind : IntervalKind;
  start_with_inclusion : bool;
  end_with_inclusion : bool;
}.

(** [SessionWindowParams] *)
Definition create (base : WindowParams) (timeout : Z) (timeout_kind : IntervalKind) (size : Z) (size_kind : IntervalKind)
  (start_inclusion end_inclusion : bool) : res Params :=
  if negb (bool_decide (timeout_kind = size_kind)) then Exn BAD_ARGUMENTS
  else if size <? timeout then Exn BAD_ARGUMENTS
  else Ok (mkParams base timeout size timeout_kind start_inclusion end_inclusion).

(** [AddTime<unit>::execute] for the type of the column. *)
Definition add_time (p : Params) (t n : Z) : Z :=
  if time_col_is_datetime64 (base p) then StreamTime.addTicks (interval_kind p) (time_zone (base p)) t n (time_scale (base p))
  else StreamTime.addSeconds (interval_kind p) (time_zone (base p)) t n.
(** [event_ts + 1] and the cast of an id, in the type of the column. *)
Definition next_tick (p : Params) (t : Z) : Z := if time_col_is_datetime64 (base p) then to_i64 (t + 1) else to_u32 (t + 1).
Definition as_column (p : Params) (id : Z) : Z := if time_col_is_datetime64 (base p) then id else to_u32 id.

(** ** Sessions *)

Record Info : Type := mkInfo {
  id : Z;
  win_start : Z;
  win_end : Z;
  timeout_ts : Z;
  max_session_ts : Z;
  active : bool;
}.
Local Abbreviation Queue := (list Info).

(** The columns that a row is assigned by. *)
Record Event : Type := mkEvent { event_ts : Z; session_start : bool; session_end : bool }.

Fixpoint on_last (f : Info -> Info) (q : Queue) : Queue :=
  match q with [] => [] | [x] => [f x] | x :: q => x :: on_last f q end.

(** [keep_row], on the last session; the id that the row gets is [kept_id]. *)
Definition keep_row (p : Params) (t : Z) (x : Info) : Info :=
  let x := if win_start x =? 0 then mkInfo (id x) t (win_end x) (timeout_ts x) (max_session_ts x) (active x) else x in
  if win_end x <=? t
  then mkInfo (id x) (win_start x) (next_tick p t) (add_time p t (session_timeout p)) (max_session_ts x) (active x)
  else x.
Definition kept_id (p : Params) (q : Queue) : list Z := match last q with Some x => [as_column p (id x)] | None => [] end.

Definition new_info (i : Z) : Info := mkInfo i 0 0 0 0 false.

(** The session to open: the last one when it is empty, or a new one. *)
Definition to_open (q : Queue) : Queue :=
  match last q with
  | Some x => if win_start x =? 0 then q else q ++ [new_info (id x + 1)]
  | None => [new_info 1]
  end.

Definition open_session (p : Params) (t : Z) (q : Queue) : Queue * list Z :=
  let q :=
    on_last (fun x => mkInfo (id x) (win_start x) (win_end x) (add_time p t (session_timeout p)) (add_time p t (max_session_size p)) true)
      (to_open q) in
  if start_with_inclusion p then let q := on_last (keep_row p t) q in (q, kept_id p q) else (q, []).

(** [try_close_session_for_oversize] and [try_close_session_for_timeout] set the end and deactivate. *)
Definition close_at (e : Z) (x : Info) : Info := mkInfo (id x) (win_start x) e (timeout_ts x) (max_session_ts x) false.

(** [try_close_session_for_predication], when the end condition holds. *)
Definition close_for_predication (p : Params) (t : Z) (x : Info) : Info :=
  let x :=
    if end_with_inclusion p then keep_row p t x
    else if win_end x <? t then mkInfo (id x) (win_start x) t (timeout_ts x) (max_session_ts x) (active x) else x in
  mkInfo (id x) (win_start x) (win_end x) (timeout_ts x) (max_session_ts x) false.

(** A row: the sessions after it, and the ids it gets. *)
Definition reopen (p : Params) (ev : Event) (q : Queue) (ids : list Z) : Queue * list Z :=
  if session_start ev then let '(q, ids') := open_session p (event_ts ev) q in (q, ids ++ ids') else (q, ids).

Definition assign_row (p : Params) (ev : Event) (q : Queue) : Queue * list Z :=
  let t := event_ts ev in
  match last q with
  | Some x =>
      if active x then
        if max_session_ts x <=? t then reopen p ev (on_last (close_at (max_session_ts x)) q) []
        else if timeout_ts x <=? t then reopen p ev (on_last (close_at (timeout_ts x)) q) []
        else if session_end ev then
          reopen p ev (on_last (close_for_predication p t) q) (if end_with_inclusion p then kept_id p q else [])
        else let q := on_last (keep_row p t) q in (q, kept_id p q)
      else reopen p ev q []
  | None => reopen p ev q []
  end.

(** [calculateSessionIdColumnImpl]: for each row its session ids. *)
Fixpoint calculateSessionIdColumn (p : Params) (evs : list Event) (q : Queue) : Queue * list (list Z) :=
  match evs with
  | [] => (q, [])
  | ev :: evs =>
      let '(q, ids) := assign_row p ev q in
      let '(q, idss) := calculateSessionIdColumn p evs q in
      (q, ids :: idss)
  end.

(** ** Finished sessions *)

Definition getLastFinalizedSession (q : Queue) : option Info := last (filter (fun x => active x = false) q).

Definition getWatermarkForPeriodicEmit (q : Queue) (current_watermark : Z) : Z :=
  match q with [] => current_watermark | x :: _ => Z.max current_watermark (win_start x) end.

(** The id of the last session that is removed, or -1, and the queue. *)
Fixpoint remove_expired (q : Queue) (finalized_watermark last_expired : Z) : Z * Queue :=
  match q with
  | [] => (last_expired, [])
  | x :: q' => if active x && (finalized_watermark <? win_end x) then (last_expired, q) else remove_expired q' finalized_watermark (id x)
  end.
Definition removeExpiredSessions (q : Queue) (finalized_watermark : Z) : Z * Queue := remove_expired q finalized_watermark (-1).

Definition getWindowsWithBuckets (q : Queue) : list WindowWithBuckets :=
  (fun x => mkWindowWithBuckets (mkWindow (win_start x) (win_end x)) [id x]) <$> q.

(** ** Checkpoints of the queue *)

(** [writeBoolText] and [readBoolText]: the characters 0 and 1. *)
Definition writeBoolText (b : bool) : list Z := [if b then 49 else 48].
Definition readBoolText : reader bool := c <- readUInt8;; ret (negb (c =? 48)).

Definition serialize_info (x : Info) : list Z :=
  writeInt64 (id x) ++ writeInt64 (win_start x) ++ writeInt64 (win_end x) ++ writeInt64 (timeout_ts x) ++ writeInt64 (max_session_ts x) ++
  writeBoolText (active x).
Definition deserialize_info : reader Info :=
  i <- readInt64;; s <- readInt64;; e <- readInt64;; t <- readInt64;; m <- readInt64;; a <- readBoolText;; ret (mkInfo i s e t m a).

Definition serialize (q : Queue) : list Z := writeUInt64 (Z.of_nat (length q)) ++ concat (serialize_info <$> q).
Fixpoint deserialize_loop (n : nat) (q : Queue) : reader Queue :=
  match n with O => ret q | S n => x <- deserialize_info;; deserialize_loop n (q ++ [x]) end.
Definition deserialize (q : Queue) : reader Queue := n <- readUInt64;; deserialize_loop (Z.to_nat n) q.

(** ** The transform *)

Section Transform.
Context {Row St Res K : Type} `{Countable K} `{!AggregateOps Row St Res}.
Context (row_event : Row -> Event) (other_keys : Row -> K) (p : Params) (is_start : bool) (mode : EmitMode) (repeat_emit : bool).

(** A row with the id of its session, which is its bucket. *)
Local Abbreviation Assigned := (Z * Row)%type.
Definition assigned_key (r : Assigned) : K := other_keys r.2.
#[local] Instance assigned_ops : AggregateOps Assigned St Res :=
  {| agg_create := agg_create; agg_add s r := agg_add s r.2; agg_merge := agg_merge; agg_result := agg_result |}.

(** [assignWindow]: a row is replicated for each of its sessions. *)
Definition assign_rows (rows : list Row) (idss : list (list Z)) : list Assigned :=
  concat (zip_with (fun r ids => (fun i => (i, r)) <$> ids) rows idss).
Definition assignWindow (rows : list Row) (q : Queue) : Queue * list Assigned :=
  let '(q, idss) := calculateSessionIdColumn p (row_event <$> rows) q in (q, assign_rows rows idss).

Local Abbreviation Many := (@ManyAggregatedData Assigned St Res K _ _).
Local Abbreviation Transform := (@Transform Assigned St Res K _ _).

(** The session queue is a field of the shared data, which has one transform. *)
Record State : Type := mkState { many : Many; sessions : Queue }.
Definition init_state : State := mkState (init 1) [].

(** What the aggregation asks of the windows, from the sessions. *)
Definition ops (q : Queue) : WindowOps :=
  mkWindowOps is_start true (fun i => i) (fun _ => Some (getWindowsWithBuckets q)) (fun w => Some (removeExpiredSessions q w).1).

(** [executeColumns]: the watermark of the chunk, by the sessions after its rows. *)
Definition chunk_watermark (q : Queue) (w : option Z) : option Z :=
  match getLastFinalizedSession q with
  | Some x => Some (win_end x)
  | None =>
      if onlyEmitFinalizedWindows mode then None
      else match w with Some w => Some (match q with [] => w | _ => getWatermarkForPeriodicEmit q w end) | None => None end
  end.

Definition executeColumns (rows : list Row) (w : option Z) (q : Queue) : Queue * list Assigned * option Z :=
  let '(q, assigned) := assignWindow rows q in
  match assigned with
  | [] => (q, [], w)
  | _ =>
      let q := if bool_decide (w = Some TIMEOUT_WATERMARK) then on_last (fun x => mkInfo (id x) (win_start x) (win_end x) (timeout_ts x) (max_session_ts x) false) q else q in
      (q, assigned, chunk_watermark q w)
  end.

(** [work] and [consume] up to the alignment of watermarks. *)
Definition consume (rows : list Row) (w : option Z) (s : State) : State :=
  let '(q, assigned, w) := match rows with [] => (sessions s, [], w) | _ => executeColumns rows w (sessions s) end in
  mkState
    (on 0 (fun t =>
       mkTransform
         (match assigned with [] => variants t | _ => executeOnBlock fst assigned_key assigned (variants t) end)
         (watermark t) (propagated_watermark t) (try_finalizing_watermark t) (aggregated_chunks t)
         (rows_since_last_finalization t + Z.of_nat (length rows))
         (match rows with [] => true | _ => false end)
         (match w with Some w => Align w | None => Return false end)
         (consumed t ++ assigned) (output t)) (many s))
    q.

(** On to the next lock; the sessions that have expired go with their buckets. *)
Definition next_step (s : State) : res State :=
  match transforms (many s) !! 0%nat with
  | None => Undef
  | Some t =>
      match next (ops (sessions s)) mode repeat_emit 0 t (many s) with
      | Ok many' =>
          Ok (mkState many'
                (match pc t with
                 | Propagate =>
                     if propagated_watermark t <? finalized_watermark (many s)
                     then (removeExpiredSessions (sessions s) (finalized_watermark (many s))).2 else sessions s
                 | _ => sessions s
                 end))
      | Err e => Err e
      | Exn e => Exn e
      | Undef => Undef
      end
  end.

(** Until the transform is done with a chunk. *)
Fixpoint finish (fuel : nat) (s : State) : res State :=
  match transforms (many s) !! 0%nat with
  | Some t =>
      match pc t with
      | Idle => Ok s
      | _ => match fuel with O => Undef | S fuel => match next_step s with Ok s => finish fuel s | e => e end end
      end
  | None => Undef
  end.

(** The chunks of the result go to the output. *)
Definition push (s : State) : State :=
  mkState
    (on 0 (fun t => mkTransform (variants t) (watermark t) (propagated_watermark t) (try_finalizing_watermark t) []
       (rows_since_last_finalization t) (need_propagate_heartbeat t) (pc t) (consumed t) (output t ++ aggregated_chunks t)) (many s))
    (sessions s).

(** A chunk takes at most this many steps: twice through the finalization, with one shard to prepare. *)
Definition steps : nat := 16.
Definition process (rows : list Row) (w : option Z) (s : State) : res State :=
  match finish steps (consume rows w s) with Ok s => Ok (push s) | e => e end.

Fixpoint run (chunks : list (list Row * option Z)) (s : State) : res State :=
  match chunks with
  | [] => Ok s
  | (rows, w) :: chunks => match process rows w s with Ok s => run chunks s | e => e end
  end.
End Transform.
End Session.
