(* ===== verification/SessionProps.v ===== *)
(** * Sessions and their results

    For sessions by gaps (every row may start one, none ends one) [split] says directly
    which rows make up a session: a row continues the session when it comes before the
    timeout of its latest row and before the greatest size from its first row.  The queue
    of the code holds exactly these sessions, the ids of rows are those of their sessions,
    and the transform emits each session once, when it is closed, with all its rows.
    Where sessions have start and end conditions, the code can lose sessions that are
    open; the examples at the end show how. *)

From stdpp Require Import gmap.
From S2P Require Import Prelude Codec DateLut StreamTime WindowHelpers WindowSpec TimeBuckets Aggregator.
From S2P Require Import WindowAggregating WindowAggSpec WindowAggInv WindowExamples SessionWindow.

Local Open Scope Z_scope.

Module SessionProps.
Import Session.

(** ** The queue *)

Lemma on_last_snoc f q x : on_last f (q ++ [x]) = q ++ [f x].
Proof. induction q as [|y q IH]; [done|]. cbn. rewrite IH. by destruct q. Qed.

Lemma kept_id_snoc p q x : kept_id p (q ++ [x]) = [as_column p (id x)].
Proof. unfold kept_id. by rewrite last_snoc. Qed.

(** Rows in several chunks are assigned as in one. *)
Lemma calculate_app p evs evs' q :
  calculateSessionIdColumn p (evs ++ evs') q =
  let '(q, ids) := calculateSessionIdColumn p evs q in let '(q, ids') := calculateSessionIdColumn p evs' q in (q, ids ++ ids').
Proof.
  revert q. induction evs as [|ev evs IH]; intros q; cbn; [by destruct (calculateSessionIdColumn p evs' q)|].
  destruct (assign_row p ev q) as [q1 ids]. rewrite IH. destruct (calculateSessionIdColumn p evs q1) as [q2 idss].
  by destruct (calculateSessionIdColumn p evs' q2).
Qed.

(** ** Sessions by gaps *)

Section Gaps.
Context {Row : Type} (row_event : Row -> Event) (p : Params).
Local Abbreviation ts r := (event_ts (row_event r)).

Definition timeout_of (t : Z) : Z := add_time p t (session_timeout p).
Definition max_of (t : Z) : Z := add_time p t (max_session_size p).

(** Times at which the code does not wrap around. *)
Definition time_ok (t : Z) : Prop := 0 < t /\ next_tick p t = t + 1 /\ t < timeout_of t /\ t < max_of t.
(** A row that may start a session and does not end one. *)
Definition row_ok (r : Row) : Prop := session_start (row_event r) = true /\ session_end (row_event r) = false /\ time_ok (ts r).

(** The latest time of a session that begins with [r]. *)
Definition latest (r : Row) (rs : list Row) : Z := foldl (fun m r => Z.max m (ts r)) (ts r) rs.

(** A session is its first row and the others. *)
Definition Group : Type := Row * list Row.
Definition group_rows (g : Group) : list Row := g.1 :: g.2.
Definition continues (g : Group) (t : Z) : bool := (t <? max_of (ts g.1)) && (t <? timeout_of (latest g.1 g.2)).

(** The sessions that are closed, each with the time of the row that closed it, and the one that is open. *)
Fixpoint split (g : Group) (rows : list Row) : list (Group * Z) * Group :=
  match rows with
  | [] => ([], g)
  | r :: rows =>
      if continues g (ts r) then split (g.1, g.2 ++ [r]) rows
      else let '(closed, open) := split (r, []) rows in ((g, ts r) :: closed, open)
  end.

(** The end of a session that a row at [t] closes. *)
Definition closed_end (g : Group) (t : Z) : Z := if max_of (ts g.1) <=? t then max_of (ts g.1) else timeout_of (latest g.1 g.2).

Definition open_info (i : Z) (g : Group) : Info :=
  mkInfo i (ts g.1) (latest g.1 g.2 + 1) (timeout_of (latest g.1 g.2)) (max_of (ts g.1)) true.
Definition closed_info (i : Z) (x : Group * Z) : Info :=
  mkInfo i (ts x.1.1) (closed_end x.1 x.2) (timeout_of (latest x.1.1 x.1.2)) (max_of (ts x.1.1)) false.

(** Sessions with ids from [i] on. *)
Definition closed_infos (i : Z) (xs : list (Group * Z)) : list Info := imap (fun j x => closed_info (i + Z.of_nat j) x) xs.

(** The rows of the chunk with the ids of their sessions. *)
Fixpoint tags (i : Z) (g : Group) (rows : list Row) : list (Z * Row) :=
  match rows with
  | [] => []
  | r :: rows => if continues g (ts r) then (i, r) :: tags i (g.1, g.2 ++ [r]) rows else (i + 1, r) :: tags (i + 1) (r, []) rows
  end.

Lemma split_app g rows rows' :
  split g (rows ++ rows') = let '(c, g) := split g rows in let '(c', g) := split g rows' in (c ++ c', g).
Proof.
  revert g. induction rows as [|r rows IH]; intros g; cbn; [by destruct (split g rows')|]. destruct (continues g (ts r)); [apply IH|].
  rewrite IH. destruct (split (r, []) rows) as [c g1]. by destruct (split g1 rows').
Qed.

Lemma latest_ge r rs : ts r <= latest r rs.
Proof. unfold latest. induction rs as [|x rs IH] using rev_ind; [done|]. rewrite foldl_app. cbn. lia. Qed.

Lemma latest_snoc r rs x : latest r (rs ++ [x]) = Z.max (latest r rs) (ts x).
Proof. unfold latest. by rewrite foldl_app. Qed.

(** The latest time is that of a row. *)
Lemma latest_elem r rs : exists x, x ∈ r :: rs /\ latest r rs = ts x.
Proof.
  induction rs as [|y rs (x & Hx & IH)] using rev_ind; [exists r; split; [by left|done]|]. rewrite latest_snoc.
  destruct (Z.max_spec (latest r rs) (ts y)) as [[_ ->]|[_ ->]]; [exists y; split; [right; apply elem_of_app; right; by left|done]|].
  exists x. split; [|done]. apply elem_of_cons in Hx as [->|Hx]; [by left|right; apply elem_of_app; by left].
Qed.

Lemma latest_ok g : Forall row_ok (group_rows g) -> time_ok (latest g.1 g.2).
Proof. intros Hg. destruct (latest_elem g.1 g.2) as (x & Hx & ->). rewrite Forall_forall in Hg. by apply (Hg x). Qed.

Hypothesis start_inclusive : start_with_inclusion p = true.

(** A row at the session with id [i]. *)
Lemma assign_open q i g r :
  Forall row_ok (group_rows g) -> row_ok r ->
  assign_row p (row_event r) (q ++ [open_info i g]) =
  if continues g (ts r) then (q ++ [open_info i (g.1, g.2 ++ [r])], [as_column p i])
  else (q ++ [closed_info i (g, ts r); open_info (i + 1) (r, [])], [as_column p (i + 1)]).
Proof.
  intros Hg (Hstart & Hend & Ht0 & Htick & Htime & Hmax). unfold assign_row. rewrite last_snoc. cbn [active open_info max_session_ts timeout_ts]. unfold continues.
  pose proof (proj1 (Forall_cons _ _ _) Hg) as [(_ & _ & Hf0 & _) _].
  assert (Hreopen : forall e, reopen p (row_event r) (on_last (close_at e) (q ++ [open_info i g])) [] =
    (q ++ [mkInfo i (ts g.1) e (timeout_of (latest g.1 g.2)) (max_of (ts g.1)) false; open_info (i + 1) (r, [])], [as_column p (i + 1)])).
  { intros e. unfold reopen, open_session, to_open. rewrite Hstart, on_last_snoc, last_snoc. cbn [close_at open_info win_start id timeout_ts max_session_ts].
    rewrite (proj2 (Z.eqb_neq (ts g.1) 0)) by lia. rewrite start_inclusive, !on_last_snoc, kept_id_snoc. unfold keep_row. cbn.
    rewrite (proj2 (Z.leb_le 0 (ts r))) by lia. cbn. rewrite Htick, <- app_assoc. done. }
  destruct (Z.ltb_spec (ts r) (max_of (ts g.1))) as [Hm|Hm]; cbn [andb].
  - rewrite (proj2 (Z.leb_gt _ _)) by lia. destruct (Z.ltb_spec (ts r) (timeout_of (latest g.1 g.2))) as [Hto|Hto].
    + rewrite (proj2 (Z.leb_gt _ _)) by lia. rewrite Hend, on_last_snoc, kept_id_snoc. unfold keep_row. cbn [open_info win_start win_end id timeout_ts max_session_ts active].
      rewrite (proj2 (Z.eqb_neq (ts g.1) 0)) by lia. unfold open_info. cbn [fst snd win_end]. rewrite latest_snoc.
      destruct (Z.leb_spec (latest g.1 g.2 + 1) (ts r)) as [Hl|Hl].
      * rewrite Z.max_r by lia. cbn. by rewrite Htick.
      * rewrite Z.max_l by lia. done.
    + rewrite (proj2 (Z.leb_le _ _)) by lia. rewrite Hreopen. unfold closed_info, closed_end. cbn [fst snd]. by rewrite (proj2 (Z.leb_gt _ _)) by lia.
  - rewrite (proj2 (Z.leb_le _ _)) by lia. rewrite Hreopen. unfold closed_info, closed_end. cbn [fst snd]. by rewrite (proj2 (Z.leb_le _ _)) by lia.
Qed.

Lemma assign_first r : row_ok r -> assign_row p (row_event r) [] = ([open_info 1 (r, [])], [as_column p 1]).
Proof.
  intros (Hstart & _ & Ht0 & Htick & _). unfold assign_row, reopen, open_session. cbn. rewrite Hstart, start_inclusive. unfold keep_row. cbn.
  rewrite (proj2 (Z.leb_le 0 (ts r))) by lia. cbn. by rewrite Htick.
Qed.

(** ** The rows of a chunk *)

Definition ids_ok (i n : Z) : Prop := forall j, i <= j <= i + n -> as_column p j = j.

Lemma calculate_open q i g rows :
  Forall row_ok (group_rows g) -> Forall row_ok rows -> ids_ok i (Z.of_nat (length rows)) ->
  calculateSessionIdColumn p (row_event <$> rows) (q ++ [open_info i g]) =
  (q ++ closed_infos i (split g rows).1 ++ [open_info (i + Z.of_nat (length (split g rows).1)) (split g rows).2],
   (fun a => [a.1]) <$> tags i g rows).
Proof.
  revert q i g. induction rows as [|r rows IH]; intros q i g Hg Hrows Hids.
  { cbn. by rewrite Z.add_0_r. }
  apply Forall_cons in Hrows as [Hr Hrows]. cbn [fmap list_fmap calculateSessionIdColumn split tags length]. rewrite (assign_open q i g r Hg Hr).
  destruct (continues g (ts r)) eqn:Hc.
  - rewrite IH; [by rewrite (Hids i) by lia| |done|intros j Hj; apply Hids; cbn; lia]. unfold group_rows in *. cbn. rewrite app_comm_cons. apply Forall_app. split; [done|by constructor].
  - rewrite (cons_middle _ q), app_assoc, IH; [|by constructor|done|intros j Hj; apply Hids; cbn; lia]. rewrite (Hids (i + 1)) by (cbn; lia).
    destruct (split (r, []) rows) as [closed open]. cbn [fst snd length]. unfold closed_infos. rewrite imap_cons. cbn [Z.of_nat]. rewrite Z.add_0_r, <- !app_assoc. cbn [app].
    do 3 f_equal. f_equal.
    + apply imap_ext. intros j x _. cbn. f_equal. lia.
    + do 2 f_equal. lia.
Qed.

Lemma tags_rows i g rows : (tags i g rows).*2 = rows.
Proof. revert i g. induction rows as [|r rows IH]; intros i g; [done|]. cbn. destruct (continues g (ts r)); cbn; by rewrite IH. Qed.

Lemma assign_tags (l : list (Z * Row)) : assign_rows l.*2 ((fun a => [a.1]) <$> l) = l.
Proof. unfold assign_rows. induction l as [|[i r] l IH]; [done|]. cbn. by rewrite IH. Qed.

Lemma split_ok g rows :
  Forall row_ok (group_rows g) -> Forall row_ok rows ->
  Forall (fun x => Forall row_ok (group_rows x.1)) (split g rows).1 /\ Forall row_ok (group_rows (split g rows).2).
Proof.
  revert g. induction rows as [|r rows IH]; intros g Hg Hrows; [by split|]. apply Forall_cons in Hrows as [Hr Hrows]. cbn [split].
  destruct (continues g (ts r)).
  - apply IH; [|done]. unfold group_rows in *. cbn. rewrite app_comm_cons. apply Forall_app. split; [done|by constructor].
  - destruct (IH (r, [])) as [H1 H2]; [by constructor|done|]. destruct (split (r, []) rows). cbn in *. split; [by constructor|done].
Qed.

(** ** Ends of sessions *)

(** Sessions that follow each other end one after the other, the open one last. *)
Fixpoint ends_after (w : Z) (xs : list (Group * Z)) (open : Group) : Prop :=
  match xs with
  | [] => w < latest open.1 open.2 + 1
  | x :: xs => w < closed_end x.1 x.2 /\ ends_after (closed_end x.1 x.2) xs open
  end.

(** A row that does not continue a session comes after its end, which is after its rows. *)
Lemma closed_end_bounds g t :
  Forall row_ok (group_rows g) -> continues g t = false -> ts g.1 < closed_end g t <= t.
Proof.
  intros Hg Hc. pose proof (latest_ok g Hg) as (_ & _ & Hto & _). pose proof (proj1 (Forall_cons _ _ _) Hg) as [(_ & _ & _ & _ & _ & Hm) _].
  pose proof (latest_ge g.1 g.2). unfold continues in Hc. apply andb_false_iff in Hc. unfold closed_end.
  destruct (Z.leb_spec (max_of (ts g.1)) t); [lia|]. destruct Hc as [Hc|Hc]; apply Z.ltb_ge in Hc; lia.
Qed.

Lemma closed_end_latest g t :
  Forall row_ok (group_rows g) -> Forall (fun r => ts r < max_of (ts g.1)) g.2 -> latest g.1 g.2 < closed_end g t.
Proof.
  intros Hg Hm. pose proof (latest_ok g Hg) as (_ & _ & Hto & _). unfold closed_end. destruct (_ <=? t); [|done].
  pose proof (proj1 (Forall_cons _ _ _) Hg) as [(_ & _ & _ & _ & _ & Hmax) _]. destruct (latest_elem g.1 g.2) as (x & [->|Hx]%elem_of_cons & ->); [done|].
  rewrite Forall_forall in Hm. by apply Hm.
Qed.

(** The rows of a session come before its greatest size. *)
Definition in_size (g : Group) : Prop := Forall (fun r => ts r < max_of (ts g.1)) g.2.

Lemma split_ends w g rows :
  Forall row_ok (group_rows g) -> in_size g -> Forall row_ok rows -> w <= latest g.1 g.2 ->
  ends_after w (split g rows).1 (split g rows).2 /\ in_size (split g rows).2.
Proof.
  revert w g. induction rows as [|r rows IH]; intros w g Hg Hs Hrows Hw; [cbn; split; [lia|done]|]. apply Forall_cons in Hrows as [Hr Hrows]. cbn [split].
  destruct (continues g (ts r)) eqn:Hc.
  - apply IH; [| |done|cbn [fst snd]; rewrite latest_snoc; lia].
    + unfold group_rows in *. cbn. rewrite app_comm_cons. apply Forall_app. split; [done|by constructor].
    + apply andb_true_iff in Hc as [Hc _]. apply Z.ltb_lt in Hc. unfold in_size. cbn. apply Forall_app. split; [done|by constructor].
  - pose proof (closed_end_bounds g (ts r) Hg Hc) as [_ Hle]. pose proof (closed_end_latest g (ts r) Hg Hs) as Hlt.
    destruct (IH (closed_end g (ts r)) (r, [])) as [H1 H2]; [by constructor|constructor|done|done|]. destruct (split (r, []) rows). cbn in *. split; [|done]. split; [lia|done].
Qed.

(** ** The rows of each session *)

(** Rows with their ids, session by session. *)
Definition tagged (i : Z) (rs : list Row) : list (Z * Row) := (fun r => (i, r)) <$> rs.
Definition all_tagged (i : Z) (xs : list (Group * Z)) (open : Group) : list (Z * Row) :=
  concat (imap (fun j x => tagged (i + Z.of_nat j) (group_rows x.1)) xs) ++ tagged (i + Z.of_nat (length xs)) (group_rows open).

Lemma split_tagged i g rows :
  tagged i (group_rows g) ++ tags i g rows = all_tagged i (split g rows).1 (split g rows).2.
Proof.
  revert i g. induction rows as [|r rows IH]; intros i g; cbn [tags split].
  { unfold all_tagged. cbn. by rewrite Z.add_0_r, app_nil_r. }
  destruct (continues g (ts r)).
  - rewrite <- IH. unfold tagged, group_rows. cbn. rewrite fmap_app, <- app_assoc. done.
  - pose proof (IH (i + 1) (r, [])) as IH'. destruct (split (r, []) rows) as [closed open]. cbn [fst snd] in *. unfold all_tagged in *. rewrite imap_cons. cbn [concat length].
    rewrite Z.add_0_r, <- app_assoc. f_equal. change ((i + 1, r) :: tags (i + 1) (r, []) rows) with (tagged (i + 1) (group_rows (r, [])) ++ tags (i + 1) (r, []) rows).
    rewrite IH'. f_equal; [|f_equal; lia]. f_equal. apply imap_ext. intros j x _. unfold compose. by replace (i + Z.of_nat (S j)) with (i + 1 + Z.of_nat j) by lia.
Qed.
End Gaps.

(** ** The transform *)

Section Transform.
Context {Row St Res K : Type} `{Countable K} `{!AggregateOps Row St Res} `{!AggregateFunction Row St Res}.
Context (row_event : Row -> Event) (other_keys : Row -> K) (p : Params) (is_start repeat_emit : bool).
Local Existing Instance assigned_ops.
Local Abbreviation ts r := (event_ts (row_event r)).
Local Abbreviation Group := (@Group Row).
Local Abbreviation Assigned := (Z * Row)%type.
Local Abbreviation Variants := (@Variants St K _ _).
Local Abbreviation Many := (@ManyAggregatedData Assigned St Res K _ _).
Local Abbreviation State := (@State Row St Res K _ _).
Local Abbreviation key := (assigned_key other_keys).
Local Abbreviation wops q := (ops is_start q).
Local Abbreviation step := (next_step is_start AfterWindowClose repeat_emit).

(** The function on rows that have their ids. *)
Local Instance assigned_function : AggregateFunction Assigned St Res.
Proof.
  refine {| agg_spec l := agg_spec (l.*2); agg_state s l := agg_state s (l.*2) |}; cbn.
  - apply agg_state_create.
  - intros s l x Hs. rewrite fmap_app. by apply agg_state_add.
  - intros s l s' l' Hs Hs'. rewrite fmap_app. by apply agg_state_merge.
  - intros s l l' Hp. apply agg_state_perm. by rewrite Hp.
  - intros s l. apply agg_state_result.
Defined.

(** The result of a closed session: one row for each key, with the rows of the session. *)
Definition session_column (x : Group * Z) : Z := group_key is_start (mkWindow (ts x.1.1) (closed_end row_event p x.1 x.2)).
Definition session_block (x : Group * Z) (blk : list (Z * K * Res)) : Prop :=
  NoDup blk.*1 /\
  forall c k y, ((c, k), y) ∈ blk <-> c = session_column x /\ agg_opt (filter (fun r => other_keys r = k) (group_rows x.1)) = Some y.

(** The windows of closed sessions. *)
Definition closed_windows (i : Z) (xs : list (Group * Z)) : list WindowWithBuckets := getWindowsWithBuckets (closed_infos row_event p i xs).

Lemma closed_windows_cons i x xs :
  closed_windows i (x :: xs) = mkWindowWithBuckets (mkWindow (ts x.1.1) (closed_end row_event p x.1 x.2)) [i] :: closed_windows (i + 1) xs.
Proof.
  unfold closed_windows, closed_infos. rewrite imap_cons. cbn. rewrite Z.add_0_r. do 2 f_equal. apply imap_ext. intros j y _. cbn. f_equal. lia.
Qed.

Lemma all_tagged_cons i (x : Group * Z) xs open : all_tagged i (x :: xs) open = tagged i (group_rows x.1) ++ all_tagged (i + 1) xs open.
Proof.
  unfold all_tagged. rewrite imap_cons. cbn [concat length]. rewrite Z.add_0_r, <- app_assoc. f_equal. f_equal; [|f_equal; lia].
  f_equal. apply imap_ext. intros j y _. unfold compose. f_equal. lia.
Qed.

Lemma all_tagged_above i xs open : Forall (fun a => i <= a.1) (all_tagged (Row := Row) i xs open).
Proof.
  revert i. induction xs as [|x xs IH]; intros i.
  - unfold all_tagged. cbn. rewrite Z.add_0_r. constructor; [done|]. apply Forall_fmap, Forall_forall. intros r _; cbn; lia.
  - rewrite all_tagged_cons. apply Forall_app. split; [apply Forall_fmap, Forall_forall; intros r _; cbn; lia|]. eapply Forall_impl; [apply IH|]. cbn. lia.
Qed.

(** The rows of a session, found by its id. *)
Lemma group_result_tagged i xs open rest j x k :
  Forall (fun a => a.1 < i) rest -> xs !! j = Some x ->
  agg_opt (filter (fun r : Assigned => r.1 ∈ [i + Z.of_nat j] /\ key r = k) (rest ++ all_tagged i xs open)) =
  agg_opt (filter (fun r => other_keys r = k) (group_rows x.1)).
Proof.
  revert i rest j. induction xs as [|y xs IH]; intros i rest j Hrest Hj; [done|]. rewrite all_tagged_cons. destruct j as [|j].
  - injection Hj as ->. cbn [Z.of_nat]. rewrite Z.add_0_r, !filter_app. rewrite (filter_none _ rest), (filter_none _ (all_tagged _ _ _)), app_nil_r.
    2: { eapply Forall_impl; [apply all_tagged_above|]. intros a Ha [Hin%list_elem_of_singleton _]. cbn in *. lia. }
    2: { eapply Forall_impl; [exact Hrest|]. intros a Ha [Hin%list_elem_of_singleton _]. cbn in *. lia. }
    cbn [app]. generalize (group_rows x.1). intros l. assert (Hf : filter (fun r : Assigned => r.1 ∈ [i] /\ key r = k) (tagged i l) = tagged i (filter (fun r => other_keys r = k) l)).
    { induction l as [|r l IHl]; [done|]. unfold tagged in *. rewrite fmap_cons, !filter_cons, IHl. unfold assigned_key. cbn [fst snd].
      destruct (decide (other_keys r = k)); [rewrite decide_True by (split; [by left|done])|rewrite decide_False by naive_solver]; done. }
    rewrite Hf. generalize (filter (fun r => other_keys r = k) l). intros l'. unfold agg_opt. destruct l' as [|r l']; [done|]. cbn. do 3 f_equal.
    unfold tagged. rewrite <- list_fmap_compose. by rewrite list_fmap_id.
  - rewrite app_assoc. replace (i + Z.of_nat (S j)) with (i + 1 + Z.of_nat j) by lia. apply IH; [|done]. apply Forall_app. split; [eapply Forall_impl; [exact Hrest|]; cbn; lia|].
    apply Forall_fmap, Forall_forall. cbn. lia.
Qed.

Lemma session_blocks q i xs open rows blks :
  rows = all_tagged i xs open -> Forall2 (block_ok fst key (wops q) rows) (closed_windows i xs) blks -> Forall2 session_block xs blks.
Proof.
  intros -> Hb. apply Forall2_same_length_lookup. pose proof (Forall2_length _ _ _ Hb) as Hl.
  assert (Hcw : forall j, closed_windows i xs !! j = (fun x : Group * Z => mkWindowWithBuckets (mkWindow (ts x.1.1) (closed_end row_event p x.1 x.2)) [i + Z.of_nat j]) <$> xs !! j).
  { intros j. unfold closed_windows, getWindowsWithBuckets, closed_infos. rewrite list_lookup_fmap, list_lookup_imap. by destruct (xs !! j). }
  split; [rewrite <- Hl; unfold closed_windows, getWindowsWithBuckets, closed_infos; by rewrite length_fmap, length_imap|]. intros j x blk Hx Hblk.
  assert (Hw : closed_windows i xs !! j = Some (mkWindowWithBuckets (mkWindow (ts x.1.1) (closed_end row_event p x.1 x.2)) [i + Z.of_nat j])) by (rewrite Hcw; by rewrite Hx). destruct (Forall2_lookup_l _ _ _ _ _ Hb Hw) as (blk' & Hblk' & Hnd & Hin). rewrite Hblk in Hblk'. injection Hblk' as <-.
  split; [done|]. intros c k y. rewrite Hin. unfold block_column, window_column, group_result. cbn [wf_reassign ops window window_buckets wf_is_start].
  unfold session_column. change (window_key fst (wops q)) with (fun r : Assigned => r.1). cbv beta.
  pose proof (group_result_tagged i xs open [] j x k ltac:(constructor) Hx) as Hg. cbn [app] in Hg. rewrite <- Hg. done.
Qed.

(** ** Valid and expired sessions *)

Local Abbreviation closed_end := (closed_end row_event p).
Local Abbreviation ends_after := (ends_after row_event p).
Local Abbreviation open_info := (open_info row_event p).
Local Abbreviation closed_infos := (closed_infos row_event p).
Local Arguments TIMEOUT_WATERMARK : simpl never.
Local Arguments INVALID_WATERMARK : simpl never.
Local Arguments removeExpiredSessions : simpl never.

(** The end of the last of some sessions. *)
Definition last_end (w : Z) (xs : list (Group * Z)) : Z := match last xs with Some x => closed_end x.1 x.2 | None => w end.

Lemma last_end_cons w x xs : last_end w (x :: xs) = last_end (closed_end x.1 x.2) xs.
Proof. unfold last_end. rewrite last_cons. by destruct (last xs). Qed.

(** Ends grow, up to the open session. *)
Lemma ends_after_le w xs open :
  ends_after w xs open -> w <= last_end w xs /\ last_end w xs < latest row_event open.1 open.2 + 1 /\
  Forall (fun x => w < closed_end x.1 x.2 <= last_end w xs) xs.
Proof.
  revert w. induction xs as [|x xs IH]; intros w; cbn [SessionProps.ends_after]; [unfold last_end; cbn; intros Hw; split; [lia|split; [done|constructor]]|]. intros [Hx Hxs].
  destruct (IH _ Hxs) as (H1 & H2 & H3). rewrite last_end_cons. split; [lia|]. split; [done|]. constructor; [lia|].
  eapply Forall_impl; [exact H3|]. cbn. lia.
Qed.

Lemma closed_infos_cons i x xs : closed_infos i (x :: xs) = closed_info row_event p i x :: closed_infos (i + 1) xs.
Proof.
  unfold SessionProps.closed_infos. rewrite imap_cons. cbn. rewrite Z.add_0_r. f_equal. apply imap_ext. intros j y _. cbn. f_equal. lia.
Qed.

Lemma windows_snoc i xs j open :
  getWindowsWithBuckets (closed_infos i xs ++ [open_info j open]) =
  closed_windows i xs ++ [mkWindowWithBuckets (mkWindow (ts open.1) (latest row_event open.1 open.2 + 1)) [j]].
Proof. unfold getWindowsWithBuckets, closed_windows. by rewrite fmap_app. Qed.

Lemma closed_windows_ends i xs : (fun x => WindowHelpers.win_end (window x)) <$> closed_windows i xs = (fun x => closed_end x.1 x.2) <$> xs.
Proof. revert i. induction xs as [|x xs IH]; intros i; [done|]. rewrite closed_windows_cons. cbn. by rewrite IH. Qed.

(** The windows that are finalized are those of the closed sessions. *)
Lemma valid_windows (s : Many) w i xs j open :
  finalized_window_end s = w -> ends_after w xs open ->
  filter (fun x => is_invalid_window AfterWindowClose s (last_end w xs) x = false) (getWindowsWithBuckets (closed_infos i xs ++ [open_info j open])) =
  closed_windows i xs.
Proof.
  intros Hs He. destruct (ends_after_le w xs open He) as (_ & Ho & Hx). rewrite windows_snoc, filter_app. rewrite filter_all.
  - rewrite filter_cons_False, filter_nil, app_nil_r; [done|]. unfold is_invalid_window. cbn. rewrite (proj2 (Z.ltb_lt _ _) Ho). by rewrite orb_true_r.
  - assert (He' : Forall (fun e => w < e <= last_end w xs) ((fun x => WindowHelpers.win_end (window x)) <$> closed_windows i xs)).
    { rewrite closed_windows_ends. by apply Forall_fmap. }
    apply Forall_fmap in He'. eapply Forall_impl; [exact He'|]. cbn. intros x [H1 H2]. unfold is_invalid_window. rewrite Hs. cbn. apply orb_false_iff. lia.
Qed.

Lemma last_closed_end w i xs : xs <> [] -> Forall (fun x => closed_end x.1 x.2 <= last_end w xs) xs ->
  last_window_end (last_end w xs) (closed_windows i xs) = Some (last_end w xs).
Proof.
  intros Hne Hx. unfold last_window_end. rewrite closed_windows_ends, filter_all by by apply Forall_fmap. rewrite fmap_last.
  unfold last_end. destruct (last xs) eqn:Hl; [done|]. by apply last_None in Hl.
Qed.

(** Closed sessions expire, the open one does not. *)
Lemma remove_closed w i xs j open e0 :
  w < latest row_event open.1 open.2 + 1 ->
  remove_expired (closed_infos i xs ++ [open_info j open]) w e0 =
  (match xs with [] => e0 | _ => i + Z.of_nat (length xs) - 1 end, [open_info j open]).
Proof.
  intros Hw. revert i e0. induction xs as [|x xs IH]; intros i e0.
  - cbn. by rewrite (proj2 (Z.ltb_lt _ _) Hw).
  - rewrite closed_infos_cons. cbn [app remove_expired closed_info active andb id]. rewrite IH. destruct xs; cbn [length]; f_equal; lia.
Qed.

Lemma last_finalized i xs j open :
  getLastFinalizedSession (closed_infos i xs ++ [open_info j open]) = last (closed_infos i xs).
Proof.
  unfold getLastFinalizedSession. rewrite filter_app, filter_cons_False, filter_nil, app_nil_r by done. rewrite filter_all; [done|].
  revert i. induction xs as [|x xs IH]; intros i; [constructor|]. rewrite closed_infos_cons. by constructor.
Qed.

Lemma last_finalized_end w i xs : xs <> [] -> Session.win_end <$> last (closed_infos i xs) = Some (last_end w xs).
Proof.
  intros Hne. unfold last_end. destruct xs as [|x xs _] using rev_ind; [done|]. unfold SessionProps.closed_infos. rewrite imap_app. cbn. by rewrite !last_snoc.
Qed.

(** ** The steps of a chunk *)

Definition one (t : Transform (Row := Assigned)) (w : Z) (m : option nat) (q : list Info) : State := mkState (mkMany [t] w w m) q.
Local Abbreviation tf v wm pw tr cs n c cons out := (mkTransform v wm pw tr cs n false c cons out).

(** A chunk that closes no session. *)
Lemma finish_quiet v w n cons out q fuel :
  (2 <= fuel)%nat ->
  finish is_start AfterWindowClose repeat_emit fuel (one (tf v w w None [] n (Return false) cons out) w None q) =
  Ok (one (tf v w w None [] n Idle cons out) w None q).
Proof.
  intros Hf. destruct fuel as [|[|fuel]]; [lia..|]. cbn. unfold propagate. cbn. rewrite Z.ltb_irrefl. cbn. by destruct fuel.
Qed.

Lemma finish_next fuel t w m q s' :
  pc t <> Idle -> step (one t w m q) = Ok s' ->
  finish is_start AfterWindowClose repeat_emit (S fuel) (one t w m q) = finish is_start AfterWindowClose repeat_emit fuel s'.
Proof. intros Hpc Hs. cbn [finish one many transforms lookup list_lookup]. rewrite Hs. by destruct (pc t). Qed.

Lemma step_align v w n cons out q W :
  w < W -> w <> TIMEOUT_WATERMARK ->
  step (one (tf v w w None [] n (Align W) cons out) w None q) = Ok (one (tf v W w (Some W) [] n (Check false) cons out) w None q).
Proof.
  intros Hw Ht. cbn. unfold align. cbn. rewrite (proj2 (Z.eqb_neq _ _) Ht). cbn. by rewrite (proj2 (Z.ltb_lt _ _) Hw).
Qed.

Section Closing.
Context (w : Z) (i : Z) (xs : list (Group * Z)) (open : Group).
Hypothesis some_closed : xs <> [].
Hypothesis ends : ends_after w xs open.
Local Abbreviation W := (last_end w xs).
Local Abbreviation j := (i + Z.of_nat (length xs)).
Local Abbreviation q := (closed_infos i xs ++ [open_info j open]).

Lemma closing_later : w < W.
Proof.
  destruct (ends_after_le w xs open ends) as (_ & _ & Hf). destruct xs as [|x xs']; [done|]. apply Forall_cons in Hf as [Hx _]. lia.
Qed.

Lemma step_check v n cons out :
  step (one (tf v W w (Some W) [] n (Check false) cons out) w None q) = Ok (one (tf v W w (Some W) [] n (Lock false) cons out) w None q).
Proof.
  pose proof closing_later as Hw. cbn. unfold check. cbn. unfold needFinalization. cbn [finalized_watermark]. cbn.
  rewrite (proj2 (Z.leb_gt _ _) Hw). cbn. set (s := mkMany _ _ _ _).
  assert (He : existsb (fun x => negb (is_invalid_window AfterWindowClose s W x)) (getWindowsWithBuckets q) = true); [|by rewrite He].
  pose proof (valid_windows s w i xs j open eq_refl ends) as Hv. destruct xs as [|x xs'] eqn:Hxs; [done|]. rewrite <- Hxs in *.
  assert (Hin : exists y, y ∈ closed_windows i xs) by (rewrite Hxs, closed_windows_cons; eexists; by left). destruct Hin as (y & Hy).
  rewrite <- Hv in Hy. apply list_elem_of_filter in Hy as [Hy1 Hy2]. apply existsb_exists. exists y. split; [by apply list_elem_of_In|by rewrite Hy1].
Qed.

Lemma step_lock v n cons out :
  step (one (tf v W w (Some W) [] n (Lock false) cons out) w None q) = Ok (one (tf v W w (Some W) [] n (Prepare false 0 []) cons out) w (Some 0%nat) q).
Proof. pose proof closing_later as Hw. cbn. unfold may_prepare. cbn. by rewrite (proj2 (Z.leb_gt _ _) Hw). Qed.

Lemma step_prepare v n cons out :
  step (one (tf v W w (Some W) [] n (Prepare false 0 []) cons out) w (Some 0%nat) q) =
  Ok (one (tf v W w (Some W) [] n (Prepare false 1 (closed_windows i xs)) cons out) w (Some 0%nat) q).
Proof. cbn. unfold prepare_shard. cbn. by rewrite (valid_windows _ w i xs j open) by done. Qed.

Lemma step_prepared v n cons out :
  W <> INVALID_WATERMARK ->
  step (one (tf v W w (Some W) [] n (Prepare false 1 (closed_windows i xs)) cons out) w (Some 0%nat) q) =
  Ok (one (tf v W w (Some W) [] n (Finalize false (closed_windows i xs)) cons out) w (Some 0%nat) q).
Proof.
  intros Hi. cbn. destruct (closed_windows i xs) eqn:Hc; [by destruct xs; [|rewrite closed_windows_cons in Hc]|].
  by rewrite (proj2 (Z.eqb_neq _ _) Hi).
Qed.

Lemma step_finalize v n cons out v' cs :
  W <> TIMEOUT_WATERMARK -> finalize_windows (Row := Assigned) (wops q) [v] (closed_windows i xs) = Ok ([v'], cs) ->
  step (one (tf v W w (Some W) [] n (Finalize false (closed_windows i xs)) cons out) w (Some 0%nat) q) =
  Ok (one (tf v' W w None (set_last_watermark W cs) 0 (Return false) cons out) W None q).
Proof.
  intros Ht Hf. destruct (ends_after_le w xs open ends) as (_ & _ & Hx). unfold one, next_step. cbn [many transforms lookup list_lookup next pc try_finalizing_watermark sessions].
  unfold finalize. cbn [onlyEmitUpdates transforms many fmap list_fmap variants sessions]. rewrite Hf. cbn [default finalized_window_end].
  rewrite last_closed_end; [|done|eapply Forall_impl; [exact Hx|]; cbn; lia]. cbn. by rewrite (proj2 (Z.eqb_neq _ _) Ht).
Qed.

Lemma step_return v n cs cons out :
  step (one (tf v W w None cs n (Return false) cons out) W None q) = Ok (one (tf v W w None cs n Propagate cons out) W None q).
Proof. done. Qed.

Lemma step_propagate v n cs cons out :
  cs <> [] ->
  step (one (tf v W w None cs n Propagate cons out) W None q) =
  Ok (one (tf (removeBucketsBefore (j - 1) v) W W None cs n Idle cons out) W None [open_info j open]).
Proof.
  intros Hcs. pose proof closing_later as Hw. destruct (ends_after_le w xs open ends) as (_ & Ho & _).
  assert (Hr : removeExpiredSessions q W = (j - 1, [open_info j open])).
  { unfold removeExpiredSessions. rewrite remove_closed by done. by destruct xs. }
  cbn. unfold propagate. cbn. rewrite (proj2 (Z.ltb_lt _ _) Hw). cbn. rewrite Hr. by destruct cs.
Qed.
End Closing.

Local Abbreviation finish := (finish is_start AfterWindowClose repeat_emit).
Local Abbreviation process := (process row_event other_keys p is_start AfterWindowClose repeat_emit).
Local Abbreviation rep := (rep fst key).
Local Abbreviation row_ok := (row_ok row_event p).
Local Abbreviation split := (split row_event p).

Lemma buckets_of_windows i xs : 0 < i -> Forall (fun x => NoDup (window_buckets x) /\ 0 ∉ window_buckets x) (closed_windows i xs).
Proof.
  revert i. induction xs as [|x xs IH]; intros i Hi; [constructor|]. rewrite closed_windows_cons. constructor; [|apply IH; lia]. cbn.
  split; [apply NoDup_singleton|]. intros ?%list_elem_of_singleton. lia.
Qed.

(** Every session has rows, so its block has. *)
Lemma session_blocks_nonempty xs blks : xs <> [] -> Forall2 session_block xs blks -> concat blks <> [].
Proof.
  intros Hne Hb. destruct Hb as [|x blk xs' blks' [_ Hx] _]; [done|]. destruct x as [[r g] n]. cbn. intros [-> _]%app_nil.
  assert (Hr : r ∈ filter (fun y => other_keys y = other_keys r) (group_rows (r, g))) by (apply list_elem_of_filter; split; [done|by left]).
  destruct (agg_opt (filter (fun y => other_keys y = other_keys r) (group_rows (r, g)))) as [y|] eqn:Ha.
  - apply (not_elem_of_nil (session_column (r, g, n), other_keys r, y)), Hx. done.
  - unfold agg_opt in Ha. by destruct (filter _ _); [apply not_elem_of_nil in Hr|].
Qed.

(** The rows of the open session are left. *)
Lemma remove_closed_rows i xs open :
  filter (fun a : Assigned => i + Z.of_nat (length xs) - 1 < a.1) (all_tagged i xs open) = tagged (i + Z.of_nat (length xs)) (group_rows open).
Proof.
  revert i. induction xs as [|x xs IH]; intros i.
  - unfold all_tagged. cbn [imap concat app length]. rewrite filter_all; [done|]. apply Forall_fmap, Forall_forall. intros r _. cbn. lia.
  - rewrite all_tagged_cons, filter_app, filter_none.
    + cbn [app length]. replace (i + Z.of_nat (S (length xs))) with (i + 1 + Z.of_nat (length xs)) by lia. apply IH.
    + apply Forall_fmap, Forall_forall. intros r _. cbn [length compose fst]. lia.
Qed.

(** A chunk that closes sessions: they are emitted and removed. *)
Lemma finish_closing v w n cons out i xs open fuel :
  (9 <= fuel)%nat -> xs <> [] -> ends_after w xs open -> 0 < i -> INVALID_WATERMARK <= w -> last_end w xs < TIMEOUT_WATERMARK ->
  rep v (all_tagged i xs open) -> initialized v = true ->
  let j := i + Z.of_nat (length xs) in
  exists v' cs blks,
    finish fuel (one (tf v w w None [] n (Align (last_end w xs)) cons out) w None (closed_infos i xs ++ [open_info j open])) =
      Ok (one (tf v' (last_end w xs) (last_end w xs) None cs 0 Idle cons out) (last_end w xs) None [open_info j open]) /\
    rep v' (tagged j (group_rows open)) /\ Forall2 session_block xs blks /\ concat (oc_rows <$> cs) = concat blks.
Proof.
  intros Hf Hne He Hi Hw Ht Hrep Hini j. pose proof (closing_later w xs open Hne He) as Hlt.
  set (q := closed_infos i xs ++ [open_info j open]).
  destruct (finalize_windows_spec fst key (wops q) (closed_windows i xs) [v] [all_tagged i xs open]) as (many' & cs & blks & Hfin & Hrep' & _ & Hblks & Hcs).
  { by constructor. } { by constructor. } { by apply buckets_of_windows. }
  apply Forall2_cons_inv_r in Hrep' as (v' & vs & Hv' & ->%Forall2_nil_inv_r & ->). cbn [concat] in Hblks. rewrite app_nil_r in Hblks.
  assert (Hsb : Forall2 session_block xs blks) by by eapply session_blocks.
  pose proof (set_last_rows (last_end w xs) cs) as Hset. rewrite Hcs in Hset.
  do 9 (destruct fuel as [|fuel]; [lia|]). exists (removeBucketsBefore (j - 1) v'), (set_last_watermark (last_end w xs) cs), blks. split; [|split; [|split]].
  - erewrite finish_next; [|done|apply step_align; lia]. erewrite finish_next; [|done|by apply step_check]. erewrite finish_next; [|done|by apply step_lock].
    erewrite finish_next; [|done|by apply step_prepare]. erewrite finish_next; [|done|apply step_prepared; [done..|lia]].
    erewrite finish_next; [|done|apply step_finalize; [done..|lia|exact Hfin]]. erewrite finish_next; [|done|apply step_return].
    erewrite finish_next; [|done|apply step_propagate; [done..|]]; [by destruct fuel|]. intros Hnil. rewrite Hnil in Hset. by destruct (session_blocks_nonempty xs blks).
  - pose proof (rep_removeBucketsBefore fst key (j - 1) v' _ Hv') as Hr. unfold j in *. by rewrite remove_closed_rows in Hr.
  - done.
  - done.
Qed.

(** ** A chunk *)

Local Abbreviation consume := (consume row_event other_keys p AfterWindowClose).
Local Abbreviation assignWindow := (assignWindow row_event p).

Lemma consume_rows rows wm v w n cons out q i xs open assigned :
  rows <> [] -> assigned <> [] -> wm <> Some TIMEOUT_WATERMARK ->
  assignWindow rows q = (closed_infos i xs ++ [open_info (i + Z.of_nat (length xs)) open], assigned) ->
  consume rows wm (one (tf v w w None [] n Idle cons out) w None q) =
  one (tf (executeOnBlock fst key assigned v) w w None [] (n + Z.of_nat (length rows))
         (match xs with [] => Return false | _ => Align (last_end w xs) end) (cons ++ assigned) out) w None
    (closed_infos i xs ++ [open_info (i + Z.of_nat (length xs)) open]).
Proof.
  intros Hr Ha Hwm Has. unfold consume, executeColumns. destruct rows as [|r rows]; [done|]. cbn [sessions one]. rewrite Has. destruct assigned as [|a assigned]; [done|].
  rewrite bool_decide_eq_false_2 by done. unfold chunk_watermark. rewrite last_finalized. cbn [onlyEmitFinalizedWindows].
  destruct xs as [|x xs]; [done|]. pose proof (last_finalized_end w i (x :: xs)) as Hl. destruct (last (closed_infos i (x :: xs))) as [y|]; [|by specialize (Hl ltac:(done))].
  specialize (Hl ltac:(done)). cbn in Hl. injection Hl as Hl. rewrite Hl. done.
Qed.

(** Between chunks: one open session, whose rows the tables hold; the closed ones are in the output. *)
Definition at_rest (w i : Z) (g : Group) (rows : list (Z * K * Res)) (s : State) : Prop :=
  exists v n cons out, s = one (tf v w w None [] n Idle cons out) w None [open_info i g] /\
    rep v (tagged i (group_rows g)) /\ concat (oc_rows <$> out) = rows.

Lemma process_assigned rows wm v w n cons out q i xs open assigned before :
  rows <> [] -> assigned <> [] -> wm <> Some TIMEOUT_WATERMARK ->
  assignWindow rows q = (closed_infos i xs ++ [open_info (i + Z.of_nat (length xs)) open], assigned) ->
  rep v before -> before ++ assigned = all_tagged i xs open ->
  ends_after w xs open -> 0 < i -> INVALID_WATERMARK <= w -> last_end w xs < TIMEOUT_WATERMARK ->
  exists s blks, process rows wm (one (tf v w w None [] n Idle cons out) w None q) = Ok s /\
    at_rest (last_end w xs) (i + Z.of_nat (length xs)) open (concat (oc_rows <$> out) ++ concat blks) s /\ Forall2 session_block xs blks.
Proof.
  intros Hr Ha Hwm Has Hrep Htag He Hi Hw Ht. unfold process. erewrite consume_rows by done.
  pose proof (rep_executeOnBlock fst key assigned v _ Hrep) as Hrep'. rewrite Htag in Hrep'. destruct xs as [|x xs].
  - rewrite finish_quiet by (unfold steps; lia). eexists _, []. split; [done|]. split; [|constructor]. cbn [concat length Z.of_nat] in *. rewrite Z.add_0_r, app_nil_r.
    eexists _, _, _, _. split; [reflexivity|]. split; [|by rewrite app_nil_r]. unfold all_tagged in Hrep'. cbn [imap concat app length Z.of_nat] in Hrep'. by rewrite Z.add_0_r in Hrep'.
  - destruct (finish_closing (executeOnBlock fst key assigned v) w (n + Z.of_nat (length rows)) (cons ++ assigned) out i (x :: xs) open steps) as (v' & cs & blks & -> & Hv & Hb & Hcs); try done.
    { unfold steps. lia. }
    eexists _, blks. split; [done|]. split; [|done]. eexists _, _, _, _. split; [done|]. split; [done|]. cbn [output aggregated_chunks]. by rewrite fmap_app, concat_app, Hcs.
Qed.

Hypothesis start_inclusive : start_with_inclusion p = true.

Lemma time_small t : time_ok p t -> t < TIMEOUT_WATERMARK.
Proof.
  intros (_ & Ht & _). unfold next_tick, to_i64, to_u32 in Ht. unfold TIMEOUT_WATERMARK. destruct (time_col_is_datetime64 _); [|pose proof (Z.mod_pos_bound (t + 1) (2 ^ 32) eq_refl); lia].
  pose proof (Z.mod_pos_bound (t + 1 + 2 ^ 63) (2 ^ 64) eq_refl). lia.
Qed.

(** What is known of the open session. *)
Definition open_ok (w i : Z) (g : Group) : Prop :=
  Forall row_ok (group_rows g) /\ in_size row_event p g /\ INVALID_WATERMARK <= w <= latest row_event g.1 g.2 /\ 0 < i.

Lemma open_first r : row_ok r -> open_ok INVALID_WATERMARK 1 (r, []).
Proof.
  intros Hr. split; [by constructor|]. split; [constructor|]. split; [|done]. destruct Hr as (_ & _ & Ht & _). cbn [fst snd]. pose proof (latest_ge row_event r []). unfold INVALID_WATERMARK. lia.
Qed.

Lemma open_split w i g rows :
  open_ok w i g -> Forall row_ok rows ->
  let x := split g rows in
  ends_after w x.1 x.2 /\ last_end w x.1 < TIMEOUT_WATERMARK /\ open_ok (last_end w x.1) (i + Z.of_nat (length x.1)) x.2.
Proof.
  intros (Hg & Hs & Hw & Hi) Hrows x. destruct (split_ends row_event p w g rows) as [He Hs']; [done..|lia|].
  destruct (split_ok row_event p g rows Hg Hrows) as [_ Hg']. destruct (ends_after_le _ _ _ He) as (H1 & H2 & _).
  pose proof (time_small _ (latest_ok row_event p _ Hg')) as Hl. split; [done|]. split; [unfold x; lia|]. split; [done|]. split; [done|]. unfold x. lia.
Qed.

Lemma process_rest rows wm w i g done_rows s :
  rows <> [] -> wm <> Some TIMEOUT_WATERMARK -> Forall row_ok rows -> ids_ok p i (Z.of_nat (length rows)) ->
  open_ok w i g -> at_rest w i g done_rows s ->
  let x := split g rows in
  exists s' blks, process rows wm s = Ok s' /\ Forall2 session_block x.1 blks /\
    at_rest (last_end w x.1) (i + Z.of_nat (length x.1)) x.2 (done_rows ++ concat blks) s'.
Proof.
  intros Hne Hwm Hrows Hids Hok (v & n & cons & out & -> & Hrep & <-) x. destruct (open_split w i g rows Hok Hrows) as (He & Ht & _). destruct Hok as (Hg & Hs & Hw & Hi).
  destruct (process_assigned rows wm v w n cons out [open_info i g] i x.1 x.2 (tags row_event p i g rows) (tagged i (group_rows g))) as (s' & blks & Hp & Hrest & Hb); try done; [| | |lia|by eauto].
  - intros Hnil. pose proof (tags_rows row_event p i g rows) as Htr. rewrite Hnil in Htr. done.
  - unfold assignWindow. pose proof (calculate_open row_event p start_inclusive [] i g rows) as Hc. cbn [app] in Hc. rewrite Hc by done. f_equal.
    pose proof (assign_tags (tags row_event p i g rows)) as Ha. by rewrite tags_rows in Ha.
  - apply split_tagged.
Qed.

Lemma process_first r rows wm :
  wm <> Some TIMEOUT_WATERMARK -> Forall row_ok (r :: rows) -> ids_ok p 1 (Z.of_nat (length rows)) ->
  let x := split (r, []) rows in
  exists s blks, process (r :: rows) wm init_state = Ok s /\ Forall2 session_block x.1 blks /\
    at_rest (last_end INVALID_WATERMARK x.1) (1 + Z.of_nat (length x.1)) x.2 (concat blks) s.
Proof.
  intros Hwm [Hr Hrows]%Forall_cons Hids x. destruct (open_split INVALID_WATERMARK 1 (r, []) rows) as (He & Ht & _); [by apply open_first|done|].
  destruct (process_assigned (r :: rows) wm no_variants INVALID_WATERMARK 0 [] [] [] 1 x.1 x.2 ((1, r) :: tags row_event p 1 (r, []) rows) [])
    as (s' & blks & Hp & Hrest & Hb); try done; [| |apply (split_tagged row_event p 1 (r, []) rows)|by eauto].
  - unfold assignWindow. cbn [fmap list_fmap calculateSessionIdColumn]. rewrite assign_first by done. rewrite (Hids 1) by lia.
    pose proof (calculate_open row_event p start_inclusive [] 1 (r, []) rows) as Hc. cbn [app] in Hc. rewrite Hc; [|by constructor|done|done].
    f_equal. pose proof (assign_tags ((1, r) :: tags row_event p 1 (r, []) rows)) as Ha. cbn [fmap list_fmap fst snd] in Ha. by rewrite tags_rows in Ha.
  - apply rep_no_variants.
Qed.

Local Abbreviation run := (run row_event other_keys p is_start AfterWindowClose repeat_emit).
Definition chunk_ok (c : list Row * option Z) : Prop := c.1 <> [] /\ c.2 <> Some TIMEOUT_WATERMARK /\ Forall row_ok c.1.

Lemma ids_ok_mono i n j m : i <= j -> j + m <= i + n -> ids_ok p i n -> ids_ok p j m.
Proof. intros H1 H2 Hids k Hk. apply Hids. lia. Qed.

Lemma split_length g rows : (length (split g rows).1 <= length rows)%nat.
Proof.
  revert g. induction rows as [|r rows IH]; intros g; cbn; [done|]. destruct (continues _ _ _ _); [by etrans; [apply IH|lia]|].
  specialize (IH (r, [])). destruct (SessionProps.split _ _ (r, []) rows). cbn in *. lia.
Qed.

Lemma run_rest chunks w i g done_rows s :
  Forall chunk_ok chunks -> ids_ok p i (Z.of_nat (length (concat chunks.*1))) -> open_ok w i g -> at_rest w i g done_rows s ->
  let x := split g (concat chunks.*1) in
  exists s' blks w', run chunks s = Ok s' /\ Forall2 session_block x.1 blks /\
    at_rest w' (i + Z.of_nat (length x.1)) x.2 (done_rows ++ concat blks) s'.
Proof.
  revert w i g done_rows s. induction chunks as [|[rows wm] chunks IH]; intros w i g rs s Hc Hids Hok Hs.
  { exists s, [], w. cbn. rewrite app_nil_r, Z.add_0_r. by repeat split; [constructor|]. }
  apply Forall_cons in Hc as [(Hne & Hwm & Hrows) Hc]. cbn [fmap list_fmap concat fst snd] in *. rewrite length_app in Hids.
  pose proof (split_length g rows). destruct (process_rest rows wm w i g rs s) as (s1 & blks1 & Hp & Hb1 & Hs1); try done; [by eapply ids_ok_mono, Hids; lia|].
  destruct (open_split w i g rows Hok Hrows) as (_ & _ & Hok1).
  edestruct IH as (s2 & blks2 & w2 & Hr & Hb2 & Hs2); [done| |exact Hok1|exact Hs1|]; [by eapply ids_ok_mono, Hids; lia|].
  exists s2, (blks1 ++ blks2), w2. cbn [Session.run]. rewrite Hp. split; [done|]. rewrite split_app.
  destruct (split g rows) as [c1 g1]. cbn [fst snd] in *. destruct (split g1 (concat chunks.*1)) as [c2 g2]. cbn [fst snd] in *.
  split; [by apply Forall2_app|]. rewrite concat_app, app_assoc, length_app. by replace (i + Z.of_nat (length c1 + length c2)) with (i + Z.of_nat (length c1) + Z.of_nat (length c2)) by lia.
Qed.

Lemma run_first r rows wm chunks :
  Forall chunk_ok ((r :: rows, wm) :: chunks) -> ids_ok p 1 (Z.of_nat (length (r :: rows ++ concat chunks.*1))) ->
  let x := split (r, []) (rows ++ concat chunks.*1) in
  exists s blks w, run ((r :: rows, wm) :: chunks) init_state = Ok s /\ Forall2 session_block x.1 blks /\
    at_rest w (1 + Z.of_nat (length x.1)) x.2 (concat blks) s.
Proof.
  intros [(_ & Hwm & Hrows) Hc]%Forall_cons Hids. cbn [length] in Hids. rewrite length_app in Hids. pose proof (split_length (r, []) rows) as Hl.
  destruct (process_first r rows wm) as (s1 & blks1 & Hp & Hb1 & Hs1); [done|done|by eapply ids_ok_mono, Hids; lia|].
  apply Forall_cons in Hrows as [Hr Hrows]. destruct (open_split INVALID_WATERMARK 1 (r, []) rows) as (_ & _ & Hok1); [by apply open_first|done|].
  edestruct run_rest as (s2 & blks2 & w2 & Hr2 & Hb2 & Hs2); [exact Hc| |exact Hok1|exact Hs1|]; [by eapply ids_ok_mono, Hids; lia|].
  exists s2, (blks1 ++ blks2), w2. cbn [Session.run]. rewrite Hp. split; [done|]. rewrite split_app.
  destruct (split (r, []) rows) as [c1 g1]. cbn [fst snd] in *. destruct (split g1 (concat chunks.*1)) as [c2 g2]. cbn [fst snd] in *.
  split; [by apply Forall2_app|]. rewrite concat_app, length_app. by replace (1 + Z.of_nat (length c1 + length c2)) with (1 + Z.of_nat (length c1) + Z.of_nat (length c2)) by lia.
Qed.
End Transform.

(** ** Checkpoints of the queue *)

Definition info_ok (x : Info) : Prop :=
  i64 (id x) /\ i64 (win_start x) /\ i64 (win_end x) /\ i64 (timeout_ts x) /\ i64 (max_session_ts x).

Lemma reads_bool b : reads readBoolText (writeBoolText b) b.
Proof. eapply reads_map; [apply reads_UInt8; destruct b; lia|]. by destruct b. Qed.

Lemma reads_info x : info_ok x -> reads deserialize_info (serialize_info x) x.
Proof.
  intros (H1 & H2 & H3 & H4 & H5). unfold deserialize_info, serialize_info. do 5 (eapply reads_bind; [by apply reads_Int64|]).
  eapply reads_map; [apply reads_bool|]. by destruct x.
Qed.

Lemma reads_loop q q0 : Forall info_ok q -> reads (deserialize_loop (length q) q0) (concat (serialize_info <$> q)) (q0 ++ q).
Proof.
  revert q0. induction q as [|x q IH]; intros q0 Hq; cbn [length deserialize_loop fmap list_fmap concat].
  - rewrite app_nil_r. apply reads_ret.
  - apply Forall_cons in Hq as [Hx Hq]. eapply reads_bind; [by apply reads_info|]. rewrite (cons_middle x q0 q), app_assoc. by apply IH.
Qed.

(** A queue that is read back into an empty one. *)
Lemma reads_sessions q : Forall info_ok q -> Z.of_nat (length q) < 2 ^ 64 -> reads (deserialize []) (serialize q) q.
Proof.
  intros Hq Hl. eapply reads_bind; [apply reads_UInt64; split; [lia|done]|]. rewrite Nat2Z.id. by apply (reads_loop q []).
Qed.
End SessionProps.

(** ** The pipeline *)

Import SessionProps.


(** ** Examples *)

(** [session(stream, 5s, 20s)], with the conditions of each row. *)
Record Visit : Type := mkVisit { visit_event : Session.Event; visit_reading : Reading }.
Definition visit (start stop : bool) (t k n : Z) : Visit := mkVisit (Session.mkEvent t start stop) (mkReading t k n).
Definition session5_20 (start_inclusion end_inclusion : bool) : Session.Params :=
  Session.mkParams (mkWindowParams false 0 utc) 5 20 Second start_inclusion end_inclusion.

#[export] Instance visit_ops : AggregateOps Visit Z Z :=
  {| agg_create := 0; agg_add s r := s + value (visit_reading r); agg_merge := Z.add; agg_result s := s |}.
#[export] Instance visit_function : AggregateFunction Visit Z Z.
Proof.
  refine {| agg_spec l := sum_of (visit_reading <$> l); agg_state s l := s = sum_of (visit_reading <$> l) |}; cbn.
  - done.
  - intros s l x ->. rewrite fmap_app, sum_of_app. cbn. lia.
  - intros s l s' l' -> ->. by rewrite fmap_app, sum_of_app.
  - intros s l l' Hp ->. apply sum_of_perm. by rewrite Hp.
  - done.
Defined.

Definition visitor (r : Visit) : Z := sensor (visit_reading r).
Definition run_visits (p : Session.Params) (chunks : list (list Visit * option Z)) :=
  Session.run visit_event visitor p true AfterWindowClose false chunks Session.init_state.
(** The output and the queue at the end. *)
Definition seen (p : Session.Params) (chunks : list (list Visit * option Z)) : option (list (Z * Z * Z) * list Session.Info) :=
  match run_visits p chunks with Ok s => Some (all_out (Session.many s), Session.sessions s) | _ => None end.

(** Two visitors in one session, a gap of more than five seconds, and a session that is open. *)
Definition visits : list (list Visit * option Z) :=
  [([visit true false 100 1 10; visit true false 103 2 5], None); ([visit true false 106 1 1], Some 106);
   ([visit true false 112 1 3; visit true false 113 1 4], None)].

Example visits_seen : seen (session5_20 true false) visits =
  Some ([((100, 2), 5); ((100, 1), 11)], [Session.mkInfo 2 112 114 118 132 true]).
Proof. vm_compute. reflexivity. Qed.


(** A row that ends a session and starts the next one: the end of the new session is that of
    the closed one, so the session is emitted and removed while it is open.  The row at 104,
    well before its timeout, belongs to no session. *)
Example reopened_session_lost :
  seen (session5_20 true true)
    [([visit true false 100 1 10; visit true true 103 1 1], None); ([visit false false 104 1 7], None)] =
  Some ([((100, 1), 11); ((103, 1), 1)], []).
Proof. vm_compute. reflexivity. Qed.

(** A session that starts after its first row has no end yet when the one before it closes in
    the same chunk, and is removed with it.  The row at 112 belongs to no session; in a chunk
    with the row at 111 it would. *)
Example empty_session_lost :
  seen (session5_20 false false)
    [([visit true false 100 1 10; visit false false 101 1 1; visit true false 111 1 2], None); ([visit false false 112 1 7], None)] =
    Some ([((101, 1), 1)], []) /\
  seen (session5_20 false false)
    [([visit true false 100 1 10; visit false false 101 1 1; visit true false 111 1 2; visit false false 112 1 7], None)] =
    Some ([((101, 1), 1)], [Session.mkInfo 2 112 113 117 131 true]).
Proof. split; vm_compute; reflexivity. Qed.
