(* ===== verification/Changelog.v ===== *)
(** * Changelogs of keyed streams
      (src/Processors/Transforms/Streaming/ChangelogConvertTransform.cpp and ChangelogTransform.cpp, and the blocks with
      reference counts of src/Interpreters/Streaming/HashJoin/MemoryHashJoin)

    A keyed stream has a current row for each key.  [Convert] turns its rows into changes: a
    row that overrides the current one of its key is emitted with delta 1, after the old row
    was emitted with delta -1.  The transform keeps the chunks it has read and, for each key,
    a reference to a row of one of them; a chunk is freed when its count of references drops
    to zero.  Chunks in the list are found by their iterators, which stay valid when others
    are erased: here a number for each chunk.  [Split] cuts a changelog into chunks of one
    delta.

    A row is of any type, with its key, its version (an integer column) and the columns that
    go to the output as functions.  Metrics and logging are left out. *)

From stdpp Require Import gmap.
From S2P Require Import Prelude Codec.

Local Open Scope Z_scope.

(** ** Chunks in and out *)

(** What of the context of a chunk is used here. *)
Record Context : Type := mkContext { historical_start : bool; historical_end : bool; checkpoint : bool; consecutive : bool }.
Definition no_context : Context := mkContext false false false false.
Definition setConsecutiveDataFlag (c : Context) : Context := mkContext (historical_start c) (historical_end c) (checkpoint c) true.

Record Chunk (Row : Type) : Type := mkChunk { chunk_rows : list Row; context : Context }.
Arguments mkChunk {Row}.
Arguments chunk_rows {Row}.
Arguments context {Row}.

(** ** Blocks with reference counts *)

Module BlockList.
Section BlockList.
Context {Row : Type}.

Record Block : Type := mkBlock { iterator : nat; block_rows : list Row; refcnt : Z }.
Record t : Type := mk { blocks : list Block; next_iterator : nat }.
Definition create : t := mk [] 0.

(** [pushBack]: the count starts with the rows of the block. *)
Definition pushBack (rows : list Row) (s : t) : t :=
  mk (blocks s ++ [mkBlock (next_iterator s) rows (to_u32 (Z.of_nat (length rows)))]) (S (next_iterator s)).
Definition lastDataBlockIter (s : t) : option nat := iterator <$> last (blocks s).

Definition find (i : nat) (s : t) : option Block := snd <$> list_find (fun b => iterator b = i) (blocks s).
Definition erase (i : nat) (s : t) : t := mk (filter (fun b => iterator b <> i) (blocks s)) (next_iterator s).
Definition set_refcnt (i : nat) (n : Z) (s : t) : t :=
  mk ((fun b => if decide (iterator b = i) then mkBlock i (block_rows b) n else b) <$> blocks s) (next_iterator s).

(** [RowRefWithRefCount]; without a block the iterator dangles. *)
Record Ref : Type := mkRef { block_iter : nat; row_num : Z }.
Definition row_at (r : Ref) (s : t) : option Row := b ← find (block_iter r) s; block_rows b !! Z.to_nat (row_num r).
Definition deref (r : Ref) (s : t) : option t :=
  b ← find (block_iter r) s;
  let n := to_u32 (refcnt b - 1) in
  let s := set_refcnt (block_iter r) n s in
  Some (if n =? 0 then erase (block_iter r) s else s).
(** A reference to a row of the last block. *)
Definition new_ref (row : nat) (s : t) : option Ref := i ← lastDataBlockIter s; Some (mkRef i (to_u32 (Z.of_nat row))).
End BlockList.
End BlockList.

(** ** From rows to changes *)

Module Convert.
Import BlockList.
Section Convert.
Context {Row Out K : Type} `{Countable K}.
Context (row_key : Row -> K) (version : option (Row -> Z)) (output : Row -> Out) (late_insert_overrides backfill_key_unique : bool).

Local Abbreviation Blocks := (BlockList.t (Row := Row)).
Local Abbreviation Ref := BlockList.Ref.

Record t : Type := mk {
  backfill_started : bool;
  backfill_done : bool;
  late_rows : Z;
  source_chunks : Blocks;
  index : gmap K Ref;
  output_chunks : list (Chunk (Out * Z));
}.
Definition create : t := mk false false 0 BlockList.create ∅ [].
Definition backfillingNewKeys (s : t) : bool := backfill_key_unique && backfill_started s && negb (backfill_done s).

(** [transformEmptyChunk]: the marks of historical data come in empty chunks. *)
Definition marks (c : Context) (started done : bool) : bool * bool :=
  if done then (started, done)
  else if started then (started, done || historical_end c)
  else (started || historical_start c, done).
Definition transformEmptyChunk (c : Context) (s : t) : t :=
  let '(started, done) := marks c (backfill_started s) (backfill_done s) in
  mk started done (late_rows s) (source_chunks s) (index s) (output_chunks s ++ [mkChunk [] c]).

(** What the loop of [retractAndIndex] changes. *)
Record Loop : Type := mkLoop {
  l_blocks : Blocks;
  l_index : gmap K Ref;
  retracted : gmap K nat;
  row_filter : list bool;
  retract_chunk : list Out;
  l_late : Z;
}.

(** Whether a row overrides the one before it, by its version. *)
Definition newer (v : Row -> Z) (r prev : Row) : bool := (v prev <? v r) || (late_insert_overrides && (v prev =? v r)).
Definition overrides (r : Row) (mapped : Ref) (bs : Blocks) : option bool :=
  match version with
  | Some v => prev ← row_at mapped bs; Some (newer v r prev)
  | None => Some true
  end.

(** [retract_and_update], for the key whose current row is [mapped]. *)
Definition retract_and_update (k : K) (row : nat) (mapped : Ref) (l : Loop) : option Loop :=
  l ← match retracted l !! k with
      | None =>
          prev ← row_at mapped (l_blocks l);
          Some (mkLoop (l_blocks l) (l_index l) (<[k := row]> (retracted l)) (row_filter l) (retract_chunk l ++ [output prev]) (l_late l))
      | Some before =>
          Some (mkLoop (l_blocks l) (l_index l) (<[k := row]> (retracted l)) (<[before := false]> (row_filter l)) (retract_chunk l) (l_late l))
      end;
  bs ← deref mapped (l_blocks l);
  ref ← new_ref row bs;
  Some (mkLoop bs (<[k := ref]> (l_index l)) (retracted l) (row_filter l) (retract_chunk l) (l_late l)).

Definition index_row (row : nat) (r : Row) (l : Loop) : option Loop :=
  let k := row_key r in
  match l_index l !! k with
  | Some mapped =>
      o ← overrides r mapped (l_blocks l);
      if o : bool then retract_and_update k row mapped l
      else Some (mkLoop (l_blocks l) (l_index l) (retracted l) (<[row := false]> (row_filter l)) (retract_chunk l) (l_late l + 1))
  | None =>
      ref ← new_ref row (l_blocks l);
      Some (mkLoop (l_blocks l) (<[k := ref]> (l_index l))
              (match retracted l !! k with Some _ => retracted l | None => <[k := row]> (retracted l) end)
              (row_filter l) (retract_chunk l) (l_late l))
  end.

Fixpoint index_rows (row : nat) (rs : list Row) (l : Loop) : option Loop :=
  match rs with [] => Some l | r :: rs => l ← index_row row r l; index_rows (S row) rs l end.

(** The rows that a filter keeps. *)
Definition filtered {A} (f : list bool) (l : list A) : list A := snd <$> filter (fun x => x.1 = true) (zip f l).
Definition with_delta (d : Z) (l : list Out) : list (Out * Z) := (fun o => (o, d)) <$> l.

Definition result_chunk (f : list bool) (rows : list Row) : Chunk (Out * Z) :=
  let resulting_rows := length (filter (fun b : bool => b = true) f) in
  if decide (resulting_rows = length rows) then mkChunk (with_delta 1 (output <$> rows)) no_context
  else if decide (resulting_rows <> 0%nat) then mkChunk (with_delta 1 (output <$> filtered f rows)) no_context
  else mkChunk [] no_context.

(** While the history is read, every key is new. *)
Fixpoint index_new_rows (row : nat) (rs : list Row) (bs : Blocks) (ix : gmap K Ref) : option (gmap K Ref) :=
  match rs with
  | [] => Some ix
  | r :: rs => ref ← new_ref row bs; index_new_rows (S row) rs bs (<[row_key r := ref]> ix)
  end.

Definition retractAndIndex (rows : list Row) (s : t) : option t :=
  let bs := pushBack rows (source_chunks s) in
  if backfillingNewKeys s then
    ix ← index_new_rows 0 rows bs (index s);
    Some (mk (backfill_started s) (backfill_done s) (late_rows s) bs ix
            (output_chunks s ++ [mkChunk (with_delta 1 (output <$> rows)) no_context]))
  else
    l ← index_rows 0 rows (mkLoop bs (index s) ∅ (replicate (length rows) true) [] (late_rows s));
    let retractions :=
      match retract_chunk l with
      | [] => []
      | os => [mkChunk (with_delta (-1) os) (setConsecutiveDataFlag no_context)]
      end in
    Some (mk (backfill_started s) (backfill_done s) (l_late l) (l_blocks l) (l_index l)
            (output_chunks s ++ retractions ++ [result_chunk (row_filter l) rows])).

(** [work]; a checkpoint leaves the state as it is. *)
Definition work (c : Chunk Row) (s : t) : option t :=
  if checkpoint (context c) then Some (transformEmptyChunk (context c) s)
  else match chunk_rows c with
       | [] => Some (transformEmptyChunk (context c) s)
       | rows => retractAndIndex rows s
       end.

Fixpoint work_all (cs : list (Chunk Row)) (s : t) : option t :=
  match cs with [] => Some s | c :: cs => s ← work c s; work_all cs s end.
End Convert.
End Convert.

(** ** Chunks of one delta *)

Module Split.
Section Split.
Context {Row : Type} (delta : Row -> Z).

(** The loop over [end_pos]: the chunks that are cut off, and where the last one starts. *)
Fixpoint cut (rows : list Row) (start_pos end_pos todo : nat) : list (list Row) * nat :=
  match todo with
  | O => ([], start_pos)
  | S todo =>
      if bool_decide (delta <$> rows !! end_pos = delta <$> rows !! start_pos) then cut rows start_pos (S end_pos) todo
      else let '(l, s) := cut rows end_pos (S end_pos) todo in (take (end_pos - start_pos) (drop start_pos rows) :: l, s)
  end.

Definition same_delta (rows : list Row) : bool :=
  match rows with [] => true | r :: rows => forallb (fun x => delta x =? delta r) rows end.

(** [work]: the chunks that it adds to the output. *)
Definition work (c : Chunk Row) : list (Chunk Row) :=
  if checkpoint (context c) then [c]
  else match chunk_rows c with
       | [] => [c]
       | rows =>
           if same_delta rows then [c]
           else
             let '(l, start_pos) := cut rows 0 1 (length rows - 1) in
             ((fun rs => mkChunk rs (setConsecutiveDataFlag no_context)) <$> l) ++ [mkChunk (drop start_pos rows) (context c)]
       end.
End Split.
End Split.

(** ** Ports *)

(** [prepare] of both transforms: what is queued goes to the output one by one, and a chunk is
    pulled when the queue is empty. *)
Module Ports.
Section Ports.
Context {In Out : Type}.

Inductive Status : Type := Finished | PortFull | NeedData | Ready (c : In).
Record Port : Type := mkPort { output_finished : bool; can_push : bool; input_finished : bool; available : option In }.

(** The status, the chunk that is pushed and the queue. *)
Definition prepare (p : Port) (output_chunks : list Out) : Status * option Out * list Out :=
  if output_finished p then (Finished, None, output_chunks)
  else if negb (can_push p) then (PortFull, None, output_chunks)
  else
    let pushed := head output_chunks in
    let rest := tail output_chunks in
    let status :=
      match rest with
      | _ :: _ => PortFull
      | [] => if input_finished p then Finished else match available p with Some c => Ready c | None => NeedData end
      end in
    (status, pushed, rest).
End Ports.
End Ports.
