(* ===== verification/ChangelogProps.v ===== *)
(** * Changelogs are correct

    [latest] says what the current row of each key is.  Under the invariant [Inv] the
    references of the transform lead to these rows, and the count of a block is the number of
    keys that refer to it and of the rows that were never referred to (late ones), so a block
    that is needed is not freed and no iterator dangles.  What is emitted with delta 1 is what
    is emitted with delta -1 and the current rows. *)

From stdpp Require Import gmap.
From S2P Require Import Prelude Codec Changelog.

Local Open Scope Z_scope.

Module ChangelogProps.
Import BlockList.
#[local] Arguments find : simpl never.
#[local] Arguments take : simpl never.

(** ** The list of blocks *)

Section Blocks.
Context {Row : Type}.
Implicit Types (s : BlockList.t (Row := Row)) (b : Block (Row := Row)).

Lemma find_list i (l : list (Block (Row := Row))) n :
  find i (mk l n) = match l with [] => None | b :: l => if decide (iterator b = i) then Some b else find i (mk l n) end.
Proof.
  destruct l as [|b l]; [done|]. unfold find. cbn. destruct (decide (iterator b = i)); [done|]. by destruct (list_find _ l) as [[]|].
Qed.

Lemma find_erase i j s : find j (erase i s) = if decide (j = i) then None else find j s.
Proof.
  destruct s as [l n]. unfold erase. cbn. induction l as [|b l IH]; [by destruct (decide (j = i))|]. rewrite filter_cons.
  rewrite (find_list _ (b :: l)). destruct (decide (iterator b <> i)); [rewrite (find_list _ (b :: _))|]; rewrite IH; repeat case_decide; try congruence. lia.
Qed.

Lemma find_set_refcnt i j c s :
  find j (set_refcnt i c s) = if decide (j = i) then (fun b => mkBlock i (block_rows b) c) <$> find j s else find j s.
Proof.
  destruct s as [l n]. unfold set_refcnt. cbn. induction l as [|b l IH]; [by destruct (decide (j = i))|]. cbn. rewrite (find_list _ (b :: l)), (find_list _ (_ :: _)), IH.
  repeat (case_decide; cbn in *); congruence.
Qed.

Lemma find_pushBack rows j s :
  find (next_iterator s) s = None ->
  find j (pushBack rows s) = if decide (j = next_iterator s) then Some (mkBlock j rows (to_u32 (Z.of_nat (length rows)))) else find j s.
Proof.
  destruct s as [l n]. unfold pushBack. cbn. intros Hn. induction l as [|b l IH]; cbn.
  - rewrite find_list. cbn. repeat case_decide; subst; done.
  - rewrite find_list in Hn. destruct (decide (iterator b = n)); [done|]. rewrite (find_list _ (b :: l)), (find_list _ (b :: _)), IH by done. repeat case_decide; congruence.
Qed.

Lemma last_set_refcnt i c s : lastDataBlockIter (set_refcnt i c s) = lastDataBlockIter s.
Proof. unfold lastDataBlockIter, set_refcnt. cbn. rewrite fmap_last. destruct (last (blocks s)); [|done]. cbn. case_decide; by subst. Qed.

Lemma last_erase i c s : lastDataBlockIter s = Some c -> c <> i -> lastDataBlockIter (erase i s) = Some c.
Proof.
  unfold lastDataBlockIter, erase. cbn. destruct (last (blocks s)) as [b|] eqn:Hl; [|done]. cbn. intros [= <-] Hi. apply last_Some in Hl as [l ->].
  rewrite filter_app, filter_cons_True by done. by rewrite filter_nil, last_snoc.
Qed.
End Blocks.

(** ** References *)

Section References.
Context {Row K : Type} `{Countable K}.
Implicit Types (s : BlockList.t (Row := Row)) (ix : gmap K Ref) (m : gmap K Row).

Definition refs (i : nat) ix : Z := Z.of_nat (size (filter (fun x => block_iter x.2 = i) ix)).
Definition one_if (P : Prop) `{Decision P} : Z := if decide P then 1 else 0.

Lemma refs_insert_new i k r ix : ix !! k = None -> refs i (<[k := r]> ix) = refs i ix + one_if (block_iter r = i).
Proof.
  intros Hk. unfold refs, one_if. case_decide.
  - rewrite map_filter_insert_True by done. rewrite map_size_insert_None; [lia|]. by apply map_lookup_filter_None_2; left.
  - rewrite map_filter_insert_not' by (done || naive_solver). lia.
Qed.

Lemma refs_delete i k r ix : ix !! k = Some r -> refs i ix = refs i (delete k ix) + one_if (block_iter r = i).
Proof. intros Hk. rewrite <- (insert_delete_id ix k r Hk) at 1. apply refs_insert_new, lookup_delete_eq. Qed.

Lemma refs_insert i k r ix : refs i (<[k := r]> ix) = refs i (delete k ix) + one_if (block_iter r = i).
Proof. rewrite <- insert_delete_eq. apply refs_insert_new, lookup_delete_eq. Qed.

Lemma refs_nonneg i ix : 0 <= refs i ix.
Proof. unfold refs. lia. Qed.

Lemma refs_pos i k r ix : ix !! k = Some r -> block_iter r = i -> 0 < refs i ix.
Proof. intros Hk Hr. rewrite (refs_delete i k r) by done. unfold one_if. rewrite decide_True by done. pose proof (refs_nonneg i (delete k ix)). lia. Qed.

Lemma refs_zero i ix : refs i ix <> 0 -> exists k r, ix !! k = Some r /\ block_iter r = i.
Proof.
  intros Hr. unfold refs in Hr. destruct (map_choose (filter (fun x => block_iter x.2 = i) ix)) as (k & r & Hk).
  { intros He. rewrite He, map_size_empty in Hr. done. }
  apply map_lookup_filter_Some in Hk as [Hk Hi]. by exists k, r.
Qed.

(** The references of [ix] lead to the rows of [m]; [lost] are the counts that nothing will give back. *)
Record Inv s ix m (lost : nat -> Z) : Prop := {
  inv_fresh : forall i b, find i s = Some b -> (i < next_iterator s)%nat;
  inv_count : forall i b, find i s = Some b -> refcnt b = refs i ix + lost i /\ 0 < refcnt b < 2 ^ 32;
  inv_lost : forall i, 0 <= lost i;
  inv_some : forall k r, ix !! k = Some r -> exists row, row_at r s = Some row /\ m !! k = Some row;
  inv_none : forall k, ix !! k = None -> m !! k = None;
}.

Lemma row_at_find r s row : row_at r s = Some row -> exists b, find (block_iter r) s = Some b /\ block_rows b !! Z.to_nat (row_num r) = Some row.
Proof. unfold row_at. destruct (find _ s) as [b|]; [|done]. intros Hr. by exists b. Qed.

Lemma inv_create : Inv BlockList.create ∅ ∅ (fun _ => 0).
Proof. by split. Qed.

Lemma inv_pushBack rows s ix m lost :
  Inv s ix m lost -> 0 < Z.of_nat (length rows) < 2 ^ 32 ->
  Inv (pushBack rows s) ix m (fun i => if decide (i = next_iterator s) then Z.of_nat (length rows) else lost i) /\
  lastDataBlockIter (pushBack rows s) = Some (next_iterator s) /\
  exists b, find (next_iterator s) (pushBack rows s) = Some b /\ block_rows b = rows.
Proof.
  intros [Hf Hc Hl Hs Hn] Hlen. assert (Hnone : find (next_iterator s) s = None).
  { destruct (find _ s) as [b|] eqn:Hb; [|done]. specialize (Hf _ _ Hb). lia. }
  assert (Hfind := fun j => find_pushBack rows j s Hnone). split; [split|split].
  - intros i b. rewrite Hfind. case_decide as Hi; [intros _; cbn; lia|]. intros Hb%Hf. cbn. lia.
  - intros i b. rewrite Hfind. case_decide as Hi; [|by apply Hc]. intros [= <-]. cbn. unfold to_u32. rewrite Z.mod_small by lia. split; [|lia]. subst i.
    destruct (decide (refs (next_iterator s) ix = 0)) as [->|Hr]; [lia|]. destruct (refs_zero _ _ Hr) as (k & r & Hk & Hr').
    destruct (Hs k r Hk) as (row & Hrow & _). apply row_at_find in Hrow as (b & Hb & _). rewrite Hr', Hnone in Hb. done.
  - intros i. case_decide; [lia|apply Hl].
  - intros k r Hk. destruct (Hs k r Hk) as (row & Hrow & Hm). exists row. split; [|done]. apply row_at_find in Hrow as (b & Hb & Hrow).
    unfold row_at. rewrite Hfind, decide_False by (intros Heq; rewrite Heq, Hnone in Hb; done). by rewrite Hb.
  - done.
  - unfold lastDataBlockIter, pushBack. cbn. by rewrite last_snoc.
  - rewrite Hfind, decide_True by done. by eexists.
Qed.

(** A reference to a row of the block [c] takes one of its lost counts. *)
Definition take_one (c : nat) (lost : nat -> Z) (i : nat) : Z := if decide (i = c) then lost i - 1 else lost i.

Lemma inv_insert s ix m lost c b row r k :
  Inv s ix m lost -> ix !! k = None -> find c s = Some b -> block_rows b !! Z.to_nat row = Some r -> 0 < lost c ->
  Inv s (<[k := mkRef c row]> ix) (<[k := r]> m) (take_one c lost).
Proof.
  intros [Hf Hc Hl Hs Hn] Hk Hb Hr Hpos. split; [done| | | |].
  - intros i b' Hb'. destruct (Hc i b' Hb') as [Hcnt Hbnd]. split; [|done]. rewrite refs_insert_new by done. unfold one_if, take_one. cbn. repeat case_decide; subst; try done; lia.
  - intros i. unfold take_one. pose proof (Hl i). case_decide; subst; lia.
  - intros k' r'. destruct (decide (k' = k)) as [->|Hne].
    + rewrite lookup_insert_eq. intros [= <-]. exists r. rewrite lookup_insert_eq. split; [|done]. unfold row_at. cbn. by rewrite Hb.
    + rewrite !lookup_insert_ne by done. apply Hs.
  - intros k'. destruct (decide (k' = k)) as [->|Hne]; [by rewrite lookup_insert_eq|]. rewrite !lookup_insert_ne by done. apply Hn.
Qed.

(** A block that is referred to is found, and loses one count; the last reference frees it. *)
Lemma deref_find r s b :
  find (block_iter r) s = Some b ->
  exists s', deref r s = Some s' /\ next_iterator s' = next_iterator s /\
    forall j, find j s' =
      if decide (j = block_iter r) then if to_u32 (refcnt b - 1) =? 0 then None else Some (mkBlock j (block_rows b) (to_u32 (refcnt b - 1))) else find j s.
Proof.
  intros Hb. unfold deref. rewrite Hb. cbn [mbind option_bind]. eexists. split; [done|]. split; [by destruct (_ =? 0)|]. intros j.
  destruct (_ =? 0); rewrite ?find_erase, find_set_refcnt; case_decide; [done|done| |done]. subst j. by rewrite Hb.
Qed.

Lemma deref_last r s c s' : deref r s = Some s' -> lastDataBlockIter s = Some c -> is_Some (find c s') -> lastDataBlockIter s' = Some c.
Proof.
  unfold deref. destruct (find (block_iter r) s) as [b|]; [|done]. cbn. intros [= <-] Hc Hsome. destruct (_ =? 0); [|by rewrite last_set_refcnt].
  apply last_erase; [by rewrite last_set_refcnt|]. intros ->. rewrite find_erase, decide_True in Hsome by done. by destruct Hsome.
Qed.

Lemma inv_override s ix m lost c b row r k old :
  Inv s ix m lost -> ix !! k = Some old -> lastDataBlockIter s = Some c -> find c s = Some b -> block_rows b !! Z.to_nat row = Some r -> 0 < lost c ->
  exists s', deref old s = Some s' /\ lastDataBlockIter s' = Some c /\ (exists b', find c s' = Some b' /\ block_rows b' = block_rows b) /\
    Inv s' (<[k := mkRef c row]> ix) (<[k := r]> m) (take_one c lost).
Proof.
  intros HI Hk Hlast Hb Hr Hpos. pose proof HI as [Hf Hc Hl Hs Hn]. destruct (Hs k old Hk) as (prev & Hprev & Hm).
  apply row_at_find in Hprev as (bo & Hbo & Hprev). destruct (deref_find old s bo Hbo) as (s' & Hd & Hnext & Hfind).
  destruct (Hc _ _ Hbo) as [Hcnt Hbnd]. assert (Hu : to_u32 (refcnt bo - 1) = refcnt bo - 1) by (unfold to_u32; rewrite Z.mod_small; lia). rewrite Hu in Hfind.
  pose proof (refs_delete (block_iter old) k old ix Hk) as Hro. unfold one_if in Hro. rewrite decide_True in Hro by done.
  assert (Hc' : exists b', find c s' = Some b' /\ block_rows b' = block_rows b).
  { rewrite Hfind. case_decide as Hcd; [|by exists b]. subst c. rewrite Hbo in Hb. injection Hb as <-. rewrite (proj2 (Z.eqb_neq _ _)); [by eexists|].
    pose proof (refs_nonneg (block_iter old) (delete k ix)). lia. }
  exists s'. split; [done|]. split; [apply (deref_last old s); [done..|]; destruct Hc' as (b' & -> & _); by eexists|]. split; [done|]. split.
  - intros i b'. rewrite Hfind, Hnext. case_decide; [|apply Hf]. subst i. destruct (_ =? 0); [done|]. intros _. by apply (Hf _ bo).
  - intros i b'. rewrite Hfind, refs_insert. unfold one_if, take_one. cbn [block_iter]. case_decide as Hi.
    + subst i. destruct (Z.eqb_spec (refcnt bo - 1) 0); [done|]. intros [= <-]. cbn. repeat case_decide; subst; try done; lia.
    + intros Hb'. destruct (Hc i b' Hb') as [Hcnt' Hbnd']. split; [|done]. rewrite Hcnt', (refs_delete i k old) by done. unfold one_if. repeat case_decide; subst; try done; lia.
  - intros i. unfold take_one. pose proof (Hl i). case_decide; subst; lia.
  - intros k' r'. destruct (decide (k' = k)) as [->|Hne].
    + rewrite lookup_insert_eq. intros [= <-]. exists r. rewrite lookup_insert_eq. split; [|done]. destruct Hc' as (b' & Hb' & Hrows). unfold row_at. cbn. rewrite Hb'. cbn. by rewrite Hrows.
    + rewrite !lookup_insert_ne by done. intros Hk'. destruct (Hs k' r' Hk') as (row' & Hrow' & Hm'). exists row'. split; [|done]. apply row_at_find in Hrow' as (b' & Hb' & Hrow').
      unfold row_at. rewrite Hfind. case_decide as Hi; [|by rewrite Hb']. rewrite Hi, Hbo in Hb'. injection Hb' as <-. rewrite (proj2 (Z.eqb_neq _ _)); [done|].
      pose proof (refs_pos (block_iter old) k' r' (delete k ix) ltac:(by rewrite lookup_delete_ne) Hi). specialize (Hl (block_iter old)). lia.
  - intros k'. destruct (decide (k' = k)) as [->|Hne]; [by rewrite lookup_insert_eq|]. rewrite !lookup_insert_ne by done. apply Hn.
Qed.
End References.

(** ** Filters *)

Section Filters.
Context {A : Type}.
Implicit Types (f : list bool) (l : list A).

Lemma filtered_cons b f x l : Convert.filtered (b :: f) (x :: l) = if b : bool then x :: Convert.filtered f l else Convert.filtered f l.
Proof. unfold Convert.filtered. cbn [zip zip_with]. rewrite filter_cons. by destruct b. Qed.

Lemma filtered_snoc f l i b x :
  f !! i = Some b -> l !! i = Some x ->
  Convert.filtered (take (S i) f) (take (S i) l) = Convert.filtered (take i f) (take i l) ++ (if b : bool then [x] else []).
Proof.
  revert f l. induction i as [|i IH]; intros [|b' f] [|x' l] Hf Hl; try done; cbn in Hf, Hl.
  - injection Hf as ->. injection Hl as ->. by destruct b.
  - rewrite !firstn_cons, (filtered_cons b' (take (S i) f)), filtered_cons, (IH f l) by done. by destruct b'.
Qed.

(** Dropping a row that was kept. *)
Lemma filtered_drop f l j x :
  f !! j = Some true -> l !! j = Some x -> Convert.filtered f l ≡ₚ x :: Convert.filtered (<[j := false]> f) l.
Proof.
  revert f l. induction j as [|j IH]; intros [|b f] [|y l] Hf Hl; try done; cbn in Hf, Hl.
  - injection Hf as ->. injection Hl as ->. cbn [insert list_insert]. by rewrite !filtered_cons.
  - cbn [insert list_insert]. rewrite !filtered_cons. destruct b; [|by apply IH]. rewrite (IH f l) by done. apply perm_swap.
Qed.

Lemma filtered_all f l : length f = length l -> Forall (fun b => b = true) f -> Convert.filtered f l = l.
Proof.
  revert l. induction f as [|b f IH]; intros [|x l] Hlen Hf; try done. apply Forall_cons in Hf as [-> Hf]. rewrite filtered_cons, IH; [done|by injection Hlen|done].
Qed.

Lemma filtered_length f l : length f = length l -> length (Convert.filtered f l) = length (filter (fun b : bool => b = true) f).
Proof.
  revert l. induction f as [|b f IH]; intros [|x l] Hlen; try done. rewrite filtered_cons. injection Hlen as Hlen.
  destruct b; [rewrite filter_cons_True by done; cbn; f_equal|rewrite filter_cons_False by done]; by apply IH.
Qed.
End Filters.

(** ** The rows of a chunk *)

Section Convert.
Context {Row Out K : Type} `{Countable K}.
Context (row_key : Row -> K) (version : option (Row -> Z)) (output : Row -> Out) (late_insert_overrides : bool).
Implicit Types (m : gmap K Row) (l : Convert.Loop (Row := Row) (Out := Out) (K := K)).
Local Abbreviation index_row := (Convert.index_row row_key version output late_insert_overrides).
Local Abbreviation index_rows := (Convert.index_rows row_key version output late_insert_overrides).

(** The current rows: a row takes the place of the one before it, unless its version is older. *)
Definition newer_row (r prev : Row) : bool := match version with Some v => Convert.newer late_insert_overrides v r prev | None => true end.
Definition upsert m (r : Row) : gmap K Row :=
  match m !! row_key r with Some prev => if newer_row r prev then <[row_key r := r]> m else m | None => <[row_key r := r]> m end.
Definition latest (rows : list Row) : gmap K Row := foldl upsert ∅ rows.
Definition values m : list Out := output <$> (map_to_list m).*2.

Definition keyed m : Prop := forall k r, m !! k = Some r -> row_key r = k.

Lemma keyed_insert m r : keyed m -> keyed (<[row_key r := r]> m).
Proof. intros Hm k r'. destruct (decide (k = row_key r)) as [->|Hne]; [rewrite lookup_insert_eq; by intros [= ->]|]. rewrite lookup_insert_ne by done. apply Hm. Qed.

Lemma keyed_upsert m r : keyed m -> keyed (upsert m r).
Proof. intros Hm. unfold upsert. destruct (m !! row_key r) as [prev|]; [destruct (newer_row r prev)|]; [by apply keyed_insert|done|by apply keyed_insert]. Qed.

Lemma latest_none rows k : latest rows !! k = None -> forall r, r ∈ rows -> row_key r <> k.
Proof.
  unfold latest. induction rows as [|x rows IH] using rev_ind; [intros _ r ?%not_elem_of_nil; done|]. rewrite foldl_app. cbn. set (m := foldl _ _ _) in *. intros Hn.
  assert (Hm : m !! k = None /\ row_key x <> k).
  { unfold upsert in Hn. destruct (decide (row_key x = k)) as [<-|Hne].
    - destruct (m !! row_key x) as [prev|] eqn:Hp; [destruct (newer_row x prev)|]; rewrite ?lookup_insert_eq in Hn; congruence.
    - split; [|done]. destruct (m !! row_key x) as [prev|]; [destruct (newer_row x prev)|]; rewrite ?lookup_insert_ne in Hn by done; done. }
  intros r [Hr|Hr%list_elem_of_singleton]%elem_of_app; [apply IH; [apply Hm|done]|subst r; by apply Hm].
Qed.

Lemma values_insert_new m k r : m !! k = None -> values (<[k := r]> m) ≡ₚ output r :: values m.
Proof. intros Hk. unfold values. by rewrite map_to_list_insert. Qed.

Lemma values_insert m k r prev : m !! k = Some prev -> output prev :: values (<[k := r]> m) ≡ₚ output r :: values m.
Proof.
  intros Hk. rewrite <- insert_delete_eq. rewrite (values_insert_new _ k r) by apply lookup_delete_eq.
  rewrite <- (insert_delete_id m k prev Hk) at 2. rewrite (values_insert_new _ k prev) by apply lookup_delete_eq. apply perm_swap.
Qed.

Lemma inv_ext (s : BlockList.t (Row := Row)) (ix : gmap K Ref) m lost lost' : (forall i, lost i = lost' i) -> Inv s ix m lost -> Inv s ix m lost'.
Proof. intros He [Hf Hc Hl Hs Hn]. split; [done| | |done|done]; intros i; rewrite <- He; [apply Hc|apply Hl]. Qed.

(** In the middle of a chunk, whose block is [c]; [m0] is what was current before it. *)
Record LoopInv (m0 m : gmap K Row) (rows : list Row) (c : nat) (late0 : Z) (lost0 : nat -> Z) (i : nat) l : Prop := {
  li_inv : Inv (Convert.l_blocks l) (Convert.l_index l) m
    (fun j => if decide (j = c) then Z.of_nat (length rows) - Z.of_nat i + (Convert.l_late l - late0) else lost0 j);
  li_late : late0 <= Convert.l_late l;
  li_last : lastDataBlockIter (Convert.l_blocks l) = Some c;
  li_block : exists b, find c (Convert.l_blocks l) = Some b /\ block_rows b = rows;
  li_keyed : keyed m;
  li_length : length (Convert.row_filter l) = length rows;
  li_rest : forall j, (i <= j < length rows)%nat -> Convert.row_filter l !! j = Some true;
  li_retracted : forall k j, Convert.retracted l !! k = Some j -> (j < i)%nat /\ Convert.row_filter l !! j = Some true /\ rows !! j = m !! k;
  li_same : forall k, Convert.retracted l !! k = None -> m !! k = m0 !! k;
  li_removed : Convert.retract_chunk l ≡ₚ values (filter (fun x => is_Some (Convert.retracted l !! x.1)) m0);
  li_changes : values m0 ++ (output <$> Convert.filtered (take i (Convert.row_filter l)) (take i rows)) ≡ₚ Convert.retract_chunk l ++ values m;
}.

Lemma row_number i n : (i < n)%nat -> Z.of_nat n < 2 ^ 32 -> Z.to_nat (to_u32 (Z.of_nat i)) = i.
Proof. intros Hi Hn. unfold to_u32. rewrite Z.mod_small by lia. lia. Qed.

(** One row, by cases: late, new, or overriding. *)
Lemma loop_late m0 m rows c late0 lost0 i l :
  (i < length rows)%nat -> LoopInv m0 m rows c late0 lost0 i l ->
  LoopInv m0 m rows c late0 lost0 (S i)
    (Convert.mkLoop (Convert.l_blocks l) (Convert.l_index l) (Convert.retracted l) (<[i := false]> (Convert.row_filter l)) (Convert.retract_chunk l)
       (Convert.l_late l + 1)).
Proof.
  intros Hi [HI Hlate Hlast Hb Hk Hlen Hrest Hret Hsame Hrem Hch]. split; cbn; try done.
  - eapply inv_ext; [|exact HI]. intros j. cbn. case_decide; lia.
  - lia.
  - by rewrite length_insert.
  - intros j Hj. rewrite list_lookup_insert_ne by lia. apply Hrest. lia.
  - intros k j Hkj. destruct (Hret k j Hkj) as (H1 & H2 & H3). split; [lia|]. split; [|done]. by rewrite list_lookup_insert_ne by lia.
  - destruct (lookup_lt_is_Some_2 rows i Hi) as [r Hr]. rewrite (filtered_snoc _ _ i false r), app_nil_r; [|by apply list_lookup_insert_eq; lia|done].
    by rewrite take_insert_ge by lia.
Qed.

(** The rows of [m0] whose keys were seen. *)
Lemma removed_new m0 (seen : gmap K nat) k i : m0 !! k = None ->
  filter (fun x : K * Row => is_Some (<[k := i]> seen !! x.1)) m0 = filter (fun x => is_Some (seen !! x.1)) m0.
Proof.
  intros Hk. apply map_filter_ext. intros k' r Hr. cbn. rewrite lookup_insert_ne; [done|]. congruence.
Qed.

Lemma removed_none m0 : values (filter (fun x : K * Row => is_Some ((∅ : gmap K nat) !! x.1)) m0) = [].
Proof.
  assert (He : filter (fun x : K * Row => is_Some ((∅ : gmap K nat) !! x.1)) m0 = ∅); [|by rewrite He].
  apply map_empty. intros k. apply map_lookup_filter_None_2. right. intros r _ [? Hj]. cbn in Hj. by rewrite lookup_empty in Hj.
Qed.

Lemma removed_again m0 (seen : gmap K nat) k i : is_Some (seen !! k) ->
  filter (fun x : K * Row => is_Some (<[k := i]> seen !! x.1)) m0 = filter (fun x => is_Some (seen !! x.1)) m0.
Proof.
  intros Hk. apply map_filter_ext. intros k' r Hr. cbn. destruct (decide (k' = k)) as [->|]; [by rewrite lookup_insert_eq|by rewrite lookup_insert_ne].
Qed.

Lemma removed_first m0 (seen : gmap K nat) k i prev : seen !! k = None -> m0 !! k = Some prev ->
  values (filter (fun x : K * Row => is_Some (<[k := i]> seen !! x.1)) m0) ≡ₚ output prev :: values (filter (fun x => is_Some (seen !! x.1)) m0).
Proof.
  intros Hk Hm. rewrite <- (values_insert_new _ k).
  - f_equiv. apply map_eq. intros k'. destruct (decide (k' = k)) as [->|Hne].
    + rewrite lookup_insert_eq. apply map_lookup_filter_Some_2; [done|]. cbn. by rewrite lookup_insert_eq.
    + rewrite lookup_insert_ne, !map_lookup_filter by done. destruct (m0 !! k'); [|done]. cbn. rewrite lookup_insert_ne by done. done.
  - apply map_lookup_filter_None_2. right. intros r Hr [j Hj]. cbn in Hj. congruence.
Qed.

Lemma loop_new m0 m rows c late0 lost0 i l r :
  rows !! i = Some r -> Z.of_nat (length rows) < 2 ^ 32 -> Convert.l_index l !! row_key r = None -> Convert.retracted l !! row_key r = None -> LoopInv m0 m rows c late0 lost0 i l ->
  LoopInv m0 (<[row_key r := r]> m) rows c late0 lost0 (S i)
    (Convert.mkLoop (Convert.l_blocks l) (<[row_key r := mkRef c (to_u32 (Z.of_nat i))]> (Convert.l_index l)) (<[row_key r := i]> (Convert.retracted l))
       (Convert.row_filter l) (Convert.retract_chunk l) (Convert.l_late l)).
Proof.
  intros Hr H32 Hnone Hseen [HI Hlate Hlast (b & Hb & Hrows) Hk Hlen Hrest Hret Hsame Hrem Hch]. pose proof (lookup_lt_Some _ _ _ Hr) as Hi. pose proof (inv_none _ _ _ _ HI _ Hnone) as Hm.
  split; cbn; try done.
  - eapply inv_ext; [|eapply inv_insert; [exact HI|done|exact Hb|rewrite Hrows, (row_number _ (length rows)) by done; exact Hr|]].
    + intros j. unfold take_one. case_decide; lia.
    + cbn beta. rewrite decide_True by done. lia.
  - by exists b.
  - by apply keyed_insert.
  - intros j Hj. apply Hrest. lia.
  - intros k j. destruct (decide (k = row_key r)) as [->|Hne].
    + rewrite !lookup_insert_eq. intros [= <-]. split; [lia|]. split; [apply Hrest; lia|done].
    + rewrite !lookup_insert_ne by done. intros Hkj. destruct (Hret k j Hkj) as (H1 & H2 & H3). split; [lia|done].
  - intros k. destruct (decide (k = row_key r)) as [->|Hne]; [by rewrite lookup_insert_eq|]. rewrite !lookup_insert_ne by done. apply Hsame.
  - rewrite removed_new; [done|]. by rewrite <- Hsame.
  - rewrite (filtered_snoc _ _ i true r); [|apply Hrest; lia|done]. rewrite fmap_app, app_assoc, Hch, values_insert_new by done.
    rewrite <- app_assoc. f_equiv. by rewrite Permutation_app_comm.
Qed.

(** The changes when a row takes the place of [prev]: it is retracted, or the row of the chunk that was to be emitted is dropped. *)
Lemma changes_retract m0 m rows i f ret k r prev :
  rows !! i = Some r -> f !! i = Some true -> m !! k = Some prev ->
  values m0 ++ (output <$> Convert.filtered (take i f) (take i rows)) ≡ₚ ret ++ values m ->
  values m0 ++ (output <$> Convert.filtered (take (S i) f) (take (S i) rows)) ≡ₚ (ret ++ [output prev]) ++ values (<[k := r]> m).
Proof.
  intros Hr Hf Hk Hch. rewrite (filtered_snoc _ _ i true r), fmap_app, app_assoc, Hch by done. rewrite <- !app_assoc. f_equiv. cbn.
  rewrite (values_insert m k r prev Hk). by rewrite Permutation_app_comm.
Qed.

Lemma changes_drop m0 m rows i j f ret k r prev :
  rows !! i = Some r -> f !! i = Some true -> m !! k = Some prev -> (j < i)%nat -> f !! j = Some true -> rows !! j = Some prev ->
  values m0 ++ (output <$> Convert.filtered (take i f) (take i rows)) ≡ₚ ret ++ values m ->
  values m0 ++ (output <$> Convert.filtered (take (S i) (<[j := false]> f)) (take (S i) rows)) ≡ₚ ret ++ values (<[k := r]> m).
Proof.
  intros Hr Hf Hk Hj Hfj Hrj Hch. apply (Permutation_cons_inv (a := output prev)).
  rewrite (filtered_snoc _ _ i true r), fmap_app, app_assoc by (done || by rewrite list_lookup_insert_ne by lia). rewrite take_insert_lt by done.
  rewrite (filtered_drop (take i f) (take i rows) j prev) in Hch by (by rewrite lookup_take_lt). cbn in Hch.
  rewrite (Permutation_middle ret), (values_insert m k r prev Hk). rewrite app_comm_cons, (Permutation_middle (values m0)), Hch, <- app_assoc.
  f_equiv. by rewrite Permutation_app_comm.
Qed.

Lemma loop_override m0 m rows c late0 lost0 i l r mapped :
  rows !! i = Some r -> Z.of_nat (length rows) < 2 ^ 32 -> Convert.l_index l !! row_key r = Some mapped -> LoopInv m0 m rows c late0 lost0 i l ->
  exists l', Convert.retract_and_update output (row_key r) i mapped l = Some l' /\ LoopInv m0 (<[row_key r := r]> m) rows c late0 lost0 (S i) l'.
Proof.
  intros Hr H32 Hsome [HI Hlate Hlast (b & Hb & Hrows) Hk Hlen Hrest Hret Hsame Hrem Hch]. pose proof (lookup_lt_Some _ _ _ Hr) as Hi.
  destruct (inv_some _ _ _ _ HI _ _ Hsome) as (prev & Hprev & Hm).
  destruct (inv_override _ _ _ _ c b (to_u32 (Z.of_nat i)) r (row_key r) mapped HI Hsome Hlast Hb) as (bs & Hd & Hlast' & (b' & Hb' & Hrows') & HI').
  { by rewrite Hrows, (row_number _ (length rows)). } { cbn beta. rewrite decide_True by done. lia. }
  assert (HI2 : Inv bs (<[row_key r := mkRef c (to_u32 (Z.of_nat i))]> (Convert.l_index l)) (<[row_key r := r]> m)
    (fun j => if decide (j = c) then Z.of_nat (length rows) - Z.of_nat (S i) + (Convert.l_late l - late0) else lost0 j)).
  { eapply inv_ext; [|exact HI']. intros j. unfold take_one. case_decide; lia. }
  assert (Hother : forall k j, k <> row_key r -> Convert.retracted l !! k = Some j -> rows !! j <> Some prev).
  { intros k j Hne Hkj Hj. destruct (Hret k j Hkj) as (_ & _ & H3). rewrite Hj in H3. symmetry in H3. apply Hk in H3. apply Hk in Hm. congruence. }
  unfold Convert.retract_and_update. destruct (Convert.retracted l !! row_key r) as [before|] eqn:Hbefore.
  - destruct (Hret _ _ Hbefore) as (Hj1 & Hj2 & Hj3). rewrite Hm in Hj3. cbn. rewrite Hd. cbn. unfold new_ref. rewrite Hlast'. cbn. eexists. split; [done|].
    split; cbn; try done; [exists b'; split; [done|congruence]|by apply keyed_insert|by rewrite length_insert| | | | |].
    + intros j Hj. rewrite list_lookup_insert_ne by lia. apply Hrest. lia.
    + intros k j. destruct (decide (k = row_key r)) as [->|Hne].
      * rewrite !lookup_insert_eq. intros [= <-]. split; [lia|]. split; [rewrite list_lookup_insert_ne by lia; apply Hrest; lia|done].
      * rewrite !lookup_insert_ne by done. intros Hkj. pose proof (Hother k j Hne Hkj). destruct (Hret k j Hkj) as (H1 & H2 & H3). split; [lia|]. split; [|done].
        rewrite list_lookup_insert_ne; [done|]. congruence.
    + intros k. destruct (decide (k = row_key r)) as [->|Hne]; [by rewrite lookup_insert_eq|]. rewrite !lookup_insert_ne by done. apply Hsame.
    + by rewrite removed_again by by eexists.
    + apply (changes_drop m0 m rows i before _ _ (row_key r) r prev); try done. apply Hrest. lia.
  - rewrite Hprev. cbn. rewrite Hd. cbn. unfold new_ref. rewrite Hlast'. cbn. eexists. split; [done|].
    split; cbn; try done; [exists b'; split; [done|congruence]|by apply keyed_insert| | | | |].
    + intros j Hj. apply Hrest. lia.
    + intros k j. destruct (decide (k = row_key r)) as [->|Hne].
      * rewrite !lookup_insert_eq. intros [= <-]. split; [lia|]. split; [apply Hrest; lia|done].
      * rewrite !lookup_insert_ne by done. intros Hkj. destruct (Hret k j Hkj) as (H1 & H2 & H3). split; [lia|done].
    + intros k. destruct (decide (k = row_key r)) as [->|Hne]; [by rewrite lookup_insert_eq|]. rewrite !lookup_insert_ne by done. apply Hsame.
    + rewrite (removed_first m0 _ _ i prev), Hrem; [by rewrite Permutation_app_comm|done|]. by rewrite <- Hsame.
    + apply (changes_retract m0 m rows i _ _ (row_key r) r prev); try done. apply Hrest. lia.
Qed.

Lemma loop_row m0 m rows c late0 lost0 i l r :
  rows !! i = Some r -> Z.of_nat (length rows) < 2 ^ 32 -> LoopInv m0 m rows c late0 lost0 i l ->
  exists l', index_row i r l = Some l' /\ LoopInv m0 (upsert m r) rows c late0 lost0 (S i) l'.
Proof.
  intros Hr H32 HL. unfold Convert.index_row, upsert. destruct (Convert.l_index l !! row_key r) as [mapped|] eqn:Hix.
  - destruct (inv_some _ _ _ _ (li_inv _ _ _ _ _ _ _ _ HL) _ _ Hix) as (prev & Hprev & Hm). rewrite Hm.
    assert (Ho : Convert.overrides version late_insert_overrides r mapped (Convert.l_blocks l) = Some (newer_row r prev)).
    { unfold Convert.overrides, newer_row. destruct version; [|done]. by rewrite Hprev. }
    rewrite Ho. cbn. destruct (newer_row r prev); [by apply (loop_override _ _ _ _ _ _ i l r mapped)|]. eexists. split; [done|].
    apply loop_late; [by eapply lookup_lt_Some|done].
  - rewrite (inv_none _ _ _ _ (li_inv _ _ _ _ _ _ _ _ HL) _ Hix). unfold new_ref. rewrite (li_last _ _ _ _ _ _ _ _ HL). cbn. eexists. split; [done|].
    assert (Hnone : Convert.retracted l !! row_key r = None).
    { destruct (Convert.retracted l !! row_key r) as [j|] eqn:Hj; [|done]. destruct (li_retracted _ _ _ _ _ _ _ _ HL _ _ Hj) as (Hj1 & _ & Hj3).
      rewrite (inv_none _ _ _ _ (li_inv _ _ _ _ _ _ _ _ HL) _ Hix) in Hj3. apply lookup_ge_None in Hj3. apply lookup_lt_Some in Hr. lia. }
    rewrite Hnone. by apply loop_new.
Qed.

Lemma loop_rows m0 m rows c late0 lost0 i rs l :
  Z.of_nat (length rows) < 2 ^ 32 -> drop i rows = rs -> (i <= length rows)%nat -> LoopInv m0 m rows c late0 lost0 i l ->
  exists l', index_rows i rs l = Some l' /\ LoopInv m0 (foldl upsert m rs) rows c late0 lost0 (length rows) l'.
Proof.
  intros H32. revert i m l. induction rs as [|r rs IH]; intros i m l Hd Hi HL.
  - exists l. split; [done|]. assert (i = length rows) as ->; [|done]. apply (f_equal length) in Hd. rewrite length_drop in Hd. cbn in Hd. lia.
  - assert (Hr : rows !! i = Some r) by (rewrite <- (Nat.add_0_r i), <- lookup_drop, Hd; done). pose proof (lookup_lt_Some _ _ _ Hr).
    destruct (loop_row _ _ _ _ _ _ _ _ _ Hr H32 HL) as (l1 & Hl1 & HL1). cbn [Convert.index_rows foldl]. rewrite Hl1. cbn.
    apply (IH (S i)); [|lia|done]. rewrite <- Nat.add_1_r, <- drop_drop, Hd. done.
Qed.

(** ** A chunk *)

Local Abbreviation State := (Convert.t (Row := Row) (Out := Out) (K := K)).
Local Abbreviation OutChunk := (Chunk (Out * Z)).

(** What is known between chunks.  Without late rows nothing is lost. *)
Definition state_inv (s : State) m : Prop :=
  keyed m /\ 0 <= Convert.late_rows s /\
  exists lost, Inv (Convert.source_chunks s) (Convert.index s) m lost /\ (Convert.late_rows s = 0 -> forall i, lost i = 0).

(** The chunks for retractions and for rows. *)
Definition retractions (os : list Out) : list OutChunk :=
  match os with [] => [] | os => [mkChunk (Convert.with_delta (-1) os) (setConsecutiveDataFlag no_context)] end.
Definition additions (os : list Out) : OutChunk := mkChunk (Convert.with_delta 1 os) no_context.

Lemma result_additions f rows : length f = length rows -> Convert.result_chunk output f rows = additions (output <$> Convert.filtered f rows).
Proof.
  intros Hlen. unfold Convert.result_chunk, additions. pose proof (filtered_length f rows Hlen) as Hn. case_decide as Hall.
  - rewrite filtered_all; [done|done|]. rewrite <- Hlen in Hall. apply Forall_forall. intros [] Hb; [done|]. exfalso. apply list_elem_of_split in Hb as (f1 & f2 & ->).
    rewrite filter_app, filter_cons_False, !length_app in Hall by done. cbn in Hall.
    pose proof (length_filter (fun b : bool => b = true) f1). pose proof (length_filter (fun b : bool => b = true) f2). lia.
  - case_decide as Hz; [done|]. rewrite Hz in Hn. by apply nil_length_inv in Hn as ->.
Qed.

(** What a chunk with rows adds to the output, when the current rows go from [m] to [m']. *)
Definition chunk_changes m m' (cs : list OutChunk) : Prop :=
  exists ret ins rest, cs = retractions ret ++ [additions ins] /\ values m ≡ₚ ret ++ rest /\ values m' ≡ₚ rest ++ ins.

Context (backfill_key_unique : bool).
Local Abbreviation retractAndIndex := (Convert.retractAndIndex row_key version output late_insert_overrides backfill_key_unique).
Local Abbreviation work := (Convert.work row_key version output late_insert_overrides backfill_key_unique).

Lemma values_filter m (P : K * Row -> Prop) `{!forall x, Decision (P x)} : values m ≡ₚ values (filter P m) ++ values (filter (fun x => ~ P x) m).
Proof.
  induction m as [|k r m Hk IH] using map_ind; [by rewrite !map_filter_empty|]. rewrite values_insert_new, IH by done.
  assert (Hn : forall Q : K * Row -> Prop, forall `{!forall x, Decision (Q x)}, filter Q m !! k = None) by (intros; by apply map_lookup_filter_None_2; left).
  destruct (decide (P (k, r))) as [HP|HP].
  - rewrite map_filter_insert_True, (values_insert_new _ k r), (map_filter_insert_not' (fun x => ~ P x)) by (done || naive_solver). done.
  - rewrite (map_filter_insert_not' P), (map_filter_insert_True (fun x => ~ P x)), (values_insert_new _ k r) by (done || naive_solver). apply Permutation_middle.
Qed.

Lemma split_changes m m' (P : K * Row -> Prop) `{!forall x, Decision (P x)} ret ins :
  ret ≡ₚ values (filter P m) -> values m ++ ins ≡ₚ ret ++ values m' ->
  values m ≡ₚ ret ++ values (filter (fun x => ~ P x) m) /\ values m' ≡ₚ values (filter (fun x => ~ P x) m) ++ ins.
Proof.
  intros Hret Hch. assert (Hm : values m ≡ₚ ret ++ values (filter (fun x => ~ P x) m)).
  { rewrite Hret. apply values_filter. }
  split; [done|]. apply (Permutation_app_inv_l ret). by rewrite app_assoc, <- Hm.
Qed.

Lemma chunk_rows_indexed s m rows :
  state_inv s m -> 0 < Z.of_nat (length rows) < 2 ^ 32 -> Convert.backfillingNewKeys backfill_key_unique s = false ->
  exists s' cs, retractAndIndex rows s = Some s' /\ state_inv s' (foldl upsert m rows) /\
    Convert.output_chunks s' = Convert.output_chunks s ++ cs /\ chunk_changes m (foldl upsert m rows) cs /\
    Convert.backfill_started s' = Convert.backfill_started s /\ Convert.backfill_done s' = Convert.backfill_done s.
Proof.
  intros (Hk & Hlate & lost & HI & Hlost) Hlen Hback. unfold Convert.retractAndIndex. rewrite Hback.
  destruct (inv_pushBack rows _ _ _ _ HI Hlen) as (HI1 & Hlast & Hb).
  destruct (loop_rows m m rows (next_iterator (Convert.source_chunks s)) (Convert.late_rows s) lost 0 rows
    (Convert.mkLoop (pushBack rows (Convert.source_chunks s)) (Convert.index s) ∅ (replicate (length rows) true) [] (Convert.late_rows s)))
    as (l & Hl & [HI2 Hlate2 _ _ Hk2 Hlen2 _ _ _ Hrem2 Hch2]); [lia|done|lia| |].
  { split; cbn; try done.
    - eapply inv_ext; [|exact HI1]. intros i. cbn beta. case_decide; [|done]. cbn. lia.
    - by rewrite length_replicate.
    - intros j Hj. apply lookup_replicate_2; lia.
    - by rewrite removed_none.
    - unfold values. by rewrite app_nil_r. }
  rewrite Hl. cbn. eexists _, _. split; [done|]. cbn. split; [|split; [done|split; [|done]]].
  - split; [done|]. split; [cbn; lia|]. eexists. split; [exact HI2|]. cbn. intros Hz i. case_decide; [lia|]. apply Hlost. lia.
  - rewrite take_ge, take_ge in Hch2 by lia. rewrite (result_additions _ _ Hlen2).
    destruct (split_changes _ _ _ _ _ Hrem2 Hch2) as [H1 H2]. eexists _, _, _. split; [|by split; [exact H1|]].
    f_equal. by destruct (Convert.retract_chunk l).
Qed.

(** While history is read: every key is new. *)
Lemma new_rows_indexed bs (ix : gmap K Ref) m lost c b rows i rs :
  Inv bs ix m lost -> lastDataBlockIter bs = Some c -> find c bs = Some b -> block_rows b = rows -> Z.of_nat (length rows) < 2 ^ 32 ->
  drop i rows = rs -> lost c = Z.of_nat (length rs) -> keyed m -> NoDup (row_key <$> rs) -> (forall r, r ∈ rs -> m !! row_key r = None) ->
  (forall k, m !! k = None -> ix !! k = None) ->
  exists ix', Convert.index_new_rows row_key i rs bs ix = Some ix' /\ keyed (foldl upsert m rs) /\
    Inv bs ix' (foldl upsert m rs) (fun j => if decide (j = c) then 0 else lost j) /\ values (foldl upsert m rs) ≡ₚ (output <$> rs) ++ values m.
Proof.
  intros HI Hlast Hb Hrows H32. revert ix m lost i HI. induction rs as [|r rs IH]; intros ix m lost i HI Hd Hl Hk Hnd Hnew Hix.
  - exists ix. split; [done|]. split; [done|]. split; [|done]. eapply inv_ext; [|exact HI]. intros j. cbn. case_decide; [|done]. subst. by rewrite Hl.
  - cbn [fmap list_fmap] in Hnd. apply NoDup_cons in Hnd as [Hr Hnd].
    assert (Hri : rows !! i = Some r) by (rewrite <- (Nat.add_0_r i), <- lookup_drop, Hd; done). pose proof (lookup_lt_Some _ _ _ Hri).
    pose proof (Hnew r ltac:(by left)) as Hm. cbn [Convert.index_new_rows foldl]. unfold new_ref. rewrite Hlast. cbn. unfold upsert at 2 4 6. rewrite Hm.
    assert (HI2 : Inv bs (<[row_key r := mkRef c (to_u32 (Z.of_nat i))]> ix) (<[row_key r := r]> m) (take_one c lost)).
    { eapply inv_insert; [exact HI|by apply Hix|exact Hb|by rewrite Hrows, (row_number _ (length rows))|]. rewrite Hl. cbn. lia. }
    destruct (IH _ _ _ (S i) HI2) as (ix' & Hix' & Hk' & HI' & Hv).
    + rewrite <- Nat.add_1_r, <- drop_drop, Hd. done.
    + unfold take_one. rewrite decide_True by done. rewrite Hl. cbn. lia.
    + by apply keyed_insert.
    + done.
    + intros r' Hr'. rewrite lookup_insert_ne; [by apply Hnew; right|]. intros He. apply Hr. rewrite He. by apply list_elem_of_fmap_2.
    + intros k. destruct (decide (k = row_key r)) as [->|Hne]; [by rewrite lookup_insert_eq|]. rewrite !lookup_insert_ne by done. apply Hix.
    + exists ix'. split; [done|]. split; [done|]. split; [eapply inv_ext; [|exact HI']; intros j; unfold take_one; by case_decide|].
      rewrite Hv, values_insert_new by done. cbn. by rewrite Permutation_middle.
Qed.

Lemma chunk_rows_new s m rows :
  state_inv s m -> 0 < Z.of_nat (length rows) < 2 ^ 32 -> Convert.backfillingNewKeys backfill_key_unique s = true ->
  NoDup (row_key <$> rows) -> (forall r, r ∈ rows -> m !! row_key r = None) ->
  exists s' cs, retractAndIndex rows s = Some s' /\ state_inv s' (foldl upsert m rows) /\
    Convert.output_chunks s' = Convert.output_chunks s ++ cs /\ chunk_changes m (foldl upsert m rows) cs /\
    Convert.backfill_started s' = Convert.backfill_started s /\ Convert.backfill_done s' = Convert.backfill_done s.
Proof.
  intros (Hk & Hlate & lost & HI & Hlost) Hlen Hback Hnd Hnew. unfold Convert.retractAndIndex. rewrite Hback.
  destruct (inv_pushBack rows _ _ _ _ HI Hlen) as (HI1 & Hlast & b & Hb & Hrows).
  destruct (new_rows_indexed _ _ _ _ _ b rows 0 rows HI1 Hlast Hb Hrows) as (ix & -> & Hk' & HI' & Hv); try done; [lia|by rewrite decide_True| |].
  { intros k Hm. destruct (Convert.index s !! k) as [r|] eqn:Hr; [|done]. destruct (inv_some _ _ _ _ HI _ _ Hr) as (row & _ & Hrow). congruence. }
  cbn. eexists _, _. split; [done|]. cbn. split; [|split; [done|split; [|done]]].
  - split; [done|]. split; [done|]. eexists. split; [exact HI'|]. cbn. intros Hz i. case_decide; [done|]. by apply Hlost.
  - exists [], (output <$> rows), (values m). split; [done|]. split; [done|]. rewrite Hv. apply Permutation_app_comm.
Qed.

(** ** A stream *)

Definition input_rows (c : Chunk Row) : list Row := if checkpoint (context c) then [] else chunk_rows c.

(** While the history is read with unique keys, every row has a new key. *)
Fixpoint history_ok (started finished : bool) m (cs : list (Chunk Row)) : Prop :=
  match cs with
  | [] => True
  | c :: cs =>
      match input_rows c with
      | [] => let '(started, finished) := Convert.marks (context c) started finished in history_ok started finished m cs
      | rows =>
          (backfill_key_unique && started && negb finished = true -> NoDup (row_key <$> rows) /\ forall r, r ∈ rows -> m !! row_key r = None) /\
          history_ok started finished (foldl upsert m rows) cs
      end
  end.

(** What chunks of one delta make of a collection: what is retracted has to be there. *)
Definition changes (c : OutChunk) (before after : list Out) : Prop :=
  (exists os, chunk_rows c = Convert.with_delta 1 os /\ after ≡ₚ before ++ os) \/
  (exists os, chunk_rows c = Convert.with_delta (-1) os /\ before ≡ₚ os ++ after).
Fixpoint applies (before : list Out) (cs : list OutChunk) (after : list Out) : Prop :=
  match cs with [] => before ≡ₚ after | c :: cs => exists mid, changes c before mid /\ applies mid cs after end.

Lemma applies_app before cs mid cs' after : applies before cs mid -> applies mid cs' after -> applies before (cs ++ cs') after.
Proof.
  revert before. induction cs as [|c cs IH]; intros before; cbn.
  - intros Hp Ha. destruct cs' as [|c cs']; cbn in *; [by rewrite Hp|]. destruct Ha as (x & Hc & Ha). exists x. split; [|done].
    destruct Hc as [(os & H1 & H2)|(os & H1 & H2)]; [left|right]; exists os; (split; [done|]); by rewrite Hp.
  - intros (x & Hc & Ha) Ha'. exists x. split; [done|]. by apply IH.
Qed.

Lemma applies_changes m m' cs : chunk_changes m m' cs -> applies (values m) cs (values m').
Proof.
  intros (ret & ins & rest & -> & Hm & Hm'). apply (applies_app _ _ rest).
  - destruct ret as [|o ret]; [done|]. exists rest. split; [|by cbn]. right. by exists (o :: ret).
  - exists (values m'). split; [|by cbn]. left. by exists ins.
Qed.

Lemma work_chunk s m c started finished cs :
  Convert.backfill_started s = started -> Convert.backfill_done s = finished -> state_inv s m -> Z.of_nat (length (chunk_rows c)) < 2 ^ 32 ->
  history_ok started finished m (c :: cs) ->
  exists s' out, work c s = Some s' /\ Convert.output_chunks s' = Convert.output_chunks s ++ out /\
    let m' := foldl upsert m (input_rows c) in
    state_inv s' m' /\ applies (values m) out (values m') /\ history_ok (Convert.backfill_started s') (Convert.backfill_done s') m' cs.
Proof.
  intros <- <- Hs Hlen Hh. cbn in Hh. unfold Convert.work.
  assert (Hempty : input_rows c = [] -> exists s' out, Some (Convert.transformEmptyChunk (context c) s) = Some s' /\ Convert.output_chunks s' = Convert.output_chunks s ++ out /\
    state_inv s' m /\ applies (values m) out (values m) /\ history_ok (Convert.backfill_started s') (Convert.backfill_done s') m cs).
  { intros He. rewrite He in Hh. unfold Convert.transformEmptyChunk. destruct (Convert.marks _ _ _) as [started finished]. eexists _, _. split; [done|]. split; [done|].
    split; [done|]. split; [|done]. exists (values m). split; [|by cbn]. left. exists []. split; [done|]. by rewrite app_nil_r. }
  unfold input_rows in *. destruct (checkpoint (context c)); [by apply Hempty|]. destruct (chunk_rows c) as [|r rows]; [by apply Hempty|].
  destruct Hh as [Hnew Hh]. cbn [length] in Hlen. assert (Hpos : 0 < Z.of_nat (length (r :: rows)) < 2 ^ 32) by (cbn; lia).
  destruct (Convert.backfillingNewKeys backfill_key_unique s) eqn:Hback.
  - destruct (Hnew Hback) as [Hnd Hn]. destruct (chunk_rows_new s m (r :: rows) Hs Hpos Hback Hnd Hn) as (s' & out & Hw & Hs' & Ho & Hc & H1 & H2).
    exists s', out. rewrite H1, H2. split; [done|]. split; [done|]. split; [done|]. split; [by apply applies_changes|done].
  - destruct (chunk_rows_indexed s m (r :: rows) Hs Hpos Hback) as (s' & out & Hw & Hs' & Ho & Hc & H1 & H2).
    exists s', out. rewrite H1, H2. split; [done|]. split; [done|]. split; [done|]. split; [by apply applies_changes|done].
Qed.

Local Abbreviation work_all := (Convert.work_all row_key version output late_insert_overrides backfill_key_unique).

Lemma work_all_chunks s m cs :
  state_inv s m -> Forall (fun c => Z.of_nat (length (chunk_rows c)) < 2 ^ 32) cs -> history_ok (Convert.backfill_started s) (Convert.backfill_done s) m cs ->
  exists s' out, work_all cs s = Some s' /\ Convert.output_chunks s' = Convert.output_chunks s ++ out /\
    let m' := foldl upsert m (concat (input_rows <$> cs)) in state_inv s' m' /\ applies (values m) out (values m').
Proof.
  revert s m. induction cs as [|c cs IH]; intros s m Hs Hlen Hh.
  - exists s, []. split; [done|]. split; [by rewrite app_nil_r|]. by split; [|cbn].
  - apply Forall_cons in Hlen as [Hc Hlen]. destruct (work_chunk s m c _ _ cs eq_refl eq_refl Hs Hc Hh) as (s1 & out1 & Hw & Ho & Hs1 & Ha & Hh1).
    destruct (IH s1 _ Hs1 Hlen Hh1) as (s2 & out2 & Hw2 & Ho2 & Hs2 & Ha2). exists s2, (out1 ++ out2). cbn [Convert.work_all]. rewrite Hw. cbn.
    split; [done|]. rewrite Ho2, Ho, app_assoc. split; [done|]. rewrite foldl_app. split; [done|]. by eapply applies_app.
Qed.

(** What the invariant says of the state. *)
Lemma state_index s m k : state_inv s m -> (Convert.index s !! k ≫= fun r => row_at r (Convert.source_chunks s)) = m !! k.
Proof.
  intros (_ & _ & lost & HI & _). destruct (Convert.index s !! k) as [r|] eqn:Hr; cbn.
  - by destruct (inv_some _ _ _ _ HI _ _ Hr) as (row & -> & ->).
  - by rewrite (inv_none _ _ _ _ HI _ Hr).
Qed.

Lemma state_blocks s m i b :
  state_inv s m -> Convert.late_rows s = 0 -> find i (Convert.source_chunks s) = Some b -> exists k r, Convert.index s !! k = Some r /\ block_iter r = i.
Proof.
  intros (_ & _ & lost & HI & Hlost) Hl Hb. apply refs_zero. destruct (inv_count _ _ _ _ HI _ _ Hb) as [Hc Hp]. rewrite (Hlost Hl i) in Hc. lia.
Qed.

Lemma state_create : state_inv Convert.create ∅.
Proof. split; [by intros k r|]. split; [done|]. exists (fun _ => 0). split; [apply inv_create|done]. Qed.
End Convert.
End ChangelogProps.

Import ChangelogProps.

(** Without the promise of unique keys any history will do. *)
Lemma any_history_ok {Row K : Type} `{Countable K} (row_key : Row -> K) version late_insert_overrides started finished m (cs : list (Chunk Row)) :
  history_ok row_key version late_insert_overrides false started finished m cs.
Proof.
  revert started finished m. induction cs as [|c cs IH]; intros started finished m; [done|]. cbn. destruct (input_rows c).
  - destruct (Convert.marks _ _ _). apply IH.
  - split; [done|apply IH].
Qed.

(** ** The newest row *)

(** With versions, the current row of a key is one of its rows, and none of them has a greater version. *)
Lemma latest_newest {Row K : Type} `{Countable K} (row_key : Row -> K) (v : Row -> Z) (late_insert_overrides : bool) (rows : list Row) (k : K) (r : Row) :
  latest row_key (Some v) late_insert_overrides rows !! k = Some r ->
  r ∈ rows /\ row_key r = k /\ forall r', r' ∈ rows -> row_key r' = k -> v r' <= v r.
Proof.
  unfold latest. revert r. induction rows as [|x rows IH] using rev_ind; intros r; [done|]. rewrite foldl_app. cbn. set (m := foldl _ _ _) in *.
  assert (Hold : forall r', m !! k = Some r' -> row_key x = k -> v x <= v r' -> r' ∈ rows ++ [x] /\ row_key r' = k /\ forall y, y ∈ rows ++ [x] -> row_key y = k -> v y <= v r').
  { intros r' Hr' Hx Hle. destruct (IH r' Hr') as (H1 & H2 & H3). split; [apply elem_of_app; by left|]. split; [done|].
    intros y [Hy|Hy%list_elem_of_singleton]%elem_of_app Hk; [by apply H3|by subst y]. }
  assert (Hnew : row_key x = k -> (forall r', m !! k = Some r' -> v r' <= v x) -> x ∈ rows ++ [x] /\ row_key x = k /\ forall y, y ∈ rows ++ [x] -> row_key y = k -> v y <= v x).
  { intros Hx Hm. split; [apply elem_of_app; right; by left|]. split; [done|]. intros y [Hy|Hy%list_elem_of_singleton]%elem_of_app Hk; [|by subst y].
    destruct (m !! k) as [r'|] eqn:Hr'; [destruct (IH r' eq_refl) as (_ & _ & H3); etrans; [by apply H3|by apply Hm]|]. exfalso. by apply (latest_none row_key (Some v) late_insert_overrides rows k Hr' y). }
  unfold upsert, newer_row, Convert.newer. destruct (decide (row_key x = k)) as [<-|Hne].
  - destruct (m !! row_key x) as [prev|] eqn:Hp.
    + destruct (Z.ltb_spec (v prev) (v x)); cbn [orb].
      * rewrite lookup_insert_eq. intros [= <-]. apply Hnew; [done|]. intros r' [= <-]. lia.
      * destruct late_insert_overrides; cbn [andb]; [destruct (Z.eqb_spec (v prev) (v x))|].
        -- rewrite lookup_insert_eq. intros [= <-]. apply Hnew; [done|]. intros r' [= <-]. lia.
        -- rewrite Hp. intros [= <-]. by apply Hold.
        -- rewrite Hp. intros [= <-]. by apply Hold.
    + rewrite lookup_insert_eq. intros [= <-]. by apply Hnew.
  - intros Hr. assert (Hm : m !! k = Some r).
    { revert Hr. destruct (m !! row_key x); [destruct (_ || _)|]; rewrite ?lookup_insert_ne by done; done. }
    destruct (IH r Hm) as (H1 & H2 & H3). split; [apply elem_of_app; by left|]. split; [done|]. intros y [Hy|Hy%list_elem_of_singleton]%elem_of_app Hk; [by apply H3|by subst y].
Qed.

(** C12. A keyed stream is converted into a correct changelog.  Whatever chunks its rows come in, the transform never uses a
    reference to a chunk that it has freed and always ends.  The references lead to the current row of each key, which is the
    last one, or by versions the newest one.  The chunks of the output have one delta each, and applied one after the other
    to an empty collection they retract only what is there and leave exactly the current rows.  A chunk of the input is kept,
    if no row was late, only while some key has its current row in it.  While history is read as having unique keys, it has
    to have them. *)
Theorem changelog_correct {Row Out K : Type} `{Countable K} (row_key : Row -> K) (version : option (Row -> Z)) (output : Row -> Out)
  (late_insert_overrides backfill_key_unique : bool) (cs : list (Chunk Row)) :
  Forall (fun c => Z.of_nat (length (chunk_rows c)) < 2 ^ 32) cs ->
  history_ok row_key version late_insert_overrides backfill_key_unique false false ∅ cs ->
  exists s, Convert.work_all row_key version output late_insert_overrides backfill_key_unique cs Convert.create = Some s /\
    let current := latest row_key version late_insert_overrides (concat (input_rows <$> cs)) in
    (forall k, (Convert.index s !! k ≫= fun r => BlockList.row_at r (Convert.source_chunks s)) = current !! k) /\
    applies [] (Convert.output_chunks s) (values output current) /\
    (Convert.late_rows s = 0 -> forall i b, BlockList.find i (Convert.source_chunks s) = Some b ->
       exists k r, Convert.index s !! k = Some r /\ BlockList.block_iter r = i).
Proof.
  intros Hlen Hh. destruct (work_all_chunks row_key version output late_insert_overrides backfill_key_unique Convert.create ∅ cs) as (s & out & Hw & Ho & Hs & Ha);
    [apply state_create|done|done|].
  exists s. split; [done|]. cbn. split; [|split].
  - intros k. by eapply state_index.
  - by rewrite Ho.
  - intros Hl i b Hb. by eapply state_blocks.
Qed.


(** ** Examples *)

(** Rows of a keyed stream: a key, a version and a value. *)
Record Update : Type := mkUpdate { update_key : Z; update_version : Z; update_value : Z }.
Definition updates (rows : list (Z * Z * Z)) : Chunk Update := mkChunk ((fun '(k, v, x) => mkUpdate k v x) <$> rows) no_context.
Definition convert_updates (cs : list (Chunk Update)) : option (Convert.t (Row := Update) (Out := Z) (K := Z)) :=
  Convert.work_all update_key (Some update_version) update_value true false cs Convert.create.

Definition some_updates : list (Chunk Update) :=
  [updates [(1, 1, 7); (2, 1, 9)]; updates [(1, 2, 11); (1, 3, 12); (2, 0, 5)]; updates [(2, 2, 8); (3, 1, 4)]].

Lemma changelog_correct_witness :
  exists s, convert_updates some_updates = Some s /\
    forall k, (Convert.index s !! k ≫= fun r => BlockList.row_at r (Convert.source_chunks s)) =
              latest update_key (Some update_version) true (concat (input_rows <$> some_updates)) !! k.
Proof.
  destruct (changelog_correct update_key (Some update_version) update_value true false some_updates) as (s & Hs & Hk & _); [| |exists s; split; [exact Hs|exact Hk]].
  - repeat (constructor; [reflexivity|]). constructor.
  - apply any_history_ok.
Defined.

(** The old row goes out with delta -1 before the new one; of two rows of a key in a chunk only the last is emitted; a late row is dropped. *)
Example updates_converted :
  (fun s => (fun c => (chunk_rows c, consecutive (context c))) <$> Convert.output_chunks s) <$> convert_updates some_updates =
  Some [([(7, 1); (9, 1)], false); ([(7, -1)], true); ([(12, 1)], false); ([(9, -1)], true); ([(8, 1); (4, 1)], false)].
Proof. vm_compute. reflexivity. Qed.

(** The count of a block starts with the number of its rows, but a late row is never referred to, so nothing gives its count
    back: the second chunk stays in memory for good, although no key has a row in it. *)
Example late_block_kept :
  (fun s => ((fun b => (BlockList.iterator b, BlockList.refcnt b)) <$> BlockList.blocks (Convert.source_chunks s),
             BlockList.block_iter <$> (map_to_list (Convert.index s)).*2)) <$>
    convert_updates [updates [(1, 5, 7)]; updates [(1, 4, 8)]; updates [(1, 6, 9)]] =
  Some ([(1%nat, 1); (2%nat, 1)], [2%nat]).
Proof. vm_compute. reflexivity. Qed.
