(* ===== verification/ChangelogAgg.v ===== *)
(** * Aggregates of a changelog

    The retracting count and sum of [AggregateBatch] take in the chunks that the changelog of
    a keyed stream consists of.  Since a changelog leaves exactly the current rows
    ([changelog_correct]), the count is the number of keys and the sum that of the current
    rows, whatever was overridden on the way.  A changelog that is cut into chunks of one
    delta again ([Split]) has the same rows in the same order. *)

From stdpp Require Import gmap list_numbers.
From S2P Require Import Prelude Codec AggregateBatch AggregateBatchProps Changelog ChangelogProps.

Local Open Scope Z_scope.

Local Infix "≅" := eqm (at level 70).

Import ChangelogProps.

(** ** Batches of one delta *)

Section Totals.
Context {Out : Type} (ty : NumType) (value : Out -> Z).
Local Abbreviation OutChunk := (Chunk (Out * Z)).

(** A chunk is one batch: a column of values and the deltas. *)
Definition sum_chunk (s : Z) (c : OutChunk) : Z :=
  Sum.addBatchSinglePlace ty ((fun x => value x.1) <$> chunk_rows c) 0 (length (chunk_rows c)) None (chunk_rows c).*2 s.
Definition count_chunk (s : Z) (c : OutChunk) : Z := Count.addBatchSinglePlace 0 (length (chunk_rows c)) None (chunk_rows c).*2 s.

Lemma total_lookup (l : list Z) : total (fun i => l !!! i) (seq 0 (length l)) = total id l.
Proof.
  induction l as [|x l IH] using rev_ind; [done|]. rewrite length_app, seq_app, !total_rows_app. cbn [length seq Nat.add]. rewrite <- IH.
  assert (Hl : total (fun i => (l ++ [x]) !!! i) (seq 0 (length l)) = total (fun i => l !!! i) (seq 0 (length l))).
  { generalize (fun i => proj1 (elem_of_seq 0 (length l) i)). generalize (seq 0 (length l)). intros js Hin. unfold total. induction js as [|i js IHi]; [done|]. cbn in *.
    rewrite IHi by (intros j Hj; apply Hin; by right). f_equal. apply lookup_total_app_l. specialize (Hin i ltac:(by left)). lia. }
  rewrite Hl. unfold total. cbn. f_equal. f_equal. by apply list_lookup_total_middle.
Qed.

Lemma total_fmap {A B} (f : A -> B) (g : B -> Z) (l : list A) : total g (f <$> l) = total (fun x => g (f x)) l.
Proof. unfold total. induction l as [|x l IH]; [done|]. cbn in *. by rewrite IH. Qed.

Lemma total_scale {A} (f : A -> Z) d (l : list A) : total (fun x => d * f x) l = d * total f l.
Proof. unfold total. induction l as [|x l IH]; cbn in *; lia. Qed.

Lemma deltas_of d (os : list Out) i : (i < length os)%nat -> ((Convert.with_delta d os).*2 : Column) !!! i = d.
Proof.
  intros Hi. unfold Convert.with_delta. rewrite <- list_fmap_compose. destruct (lookup_lt_is_Some_2 os i Hi) as [o Ho].
  apply list_lookup_total_correct. by rewrite list_lookup_fmap, Ho.
Qed.

Lemma column_of d (os : list Out) : (fun x : Out * Z => value x.1) <$> Convert.with_delta d os = value <$> os.
Proof. unfold Convert.with_delta. by rewrite <- list_fmap_compose. Qed.

Lemma with_delta_length d (os : list Out) : length (Convert.with_delta d os) = length os.
Proof. unfold Convert.with_delta. apply length_fmap. Qed.

(** Values that the type of the column has and that can be retracted. *)
Definition summable : Prop := forall o, in_type ty (value o) /\ retractable ty (value o).

Lemma sum_chunk_total d os c s :
  summable -> d = 1 \/ d = -1 -> chunk_rows c = Convert.with_delta d os -> sum_chunk s c ≅ s + d * total value os.
Proof.
  intros Hv Hd Hc. unfold sum_chunk. rewrite Hc, column_of, with_delta_length. unfold Sum.addBatchSinglePlace.
  assert (Hcol : forall i, (i < length os)%nat -> exists o, (value <$> os : Column) !!! i = value o).
  { intros i Hi. destruct (lookup_lt_is_Some_2 os i Hi) as [o Ho]. exists o. apply list_lookup_total_correct. by rewrite list_lookup_fmap, Ho. }
  etrans; [apply addMany_total|].
  - intros i Hi. by rewrite deltas_of.
  - intros i Hi. destruct (Hcol i Hi) as [o ->]. split; [apply Hv|]. intros _. apply Hv.
  - f_equiv. etrans; [apply (total_eqm _ (fun i => d * (value <$> os : Column) !!! i))|].
    + intros i Hi%elem_of_seq. unfold signed. rewrite deltas_of by lia. apply reflexive_eq. destruct Hd as [-> | ->]; cbn; lia.
    + rewrite total_scale. pose proof (total_lookup (value <$> os)) as Ht. rewrite length_fmap, total_fmap in Ht. apply reflexive_eq. f_equal. exact Ht.
Qed.

Lemma count_chunk_total d os c s : chunk_rows c = Convert.with_delta d os -> count_chunk s c ≅ s + d * Z.of_nat (length os).
Proof.
  intros Hc. unfold count_chunk. rewrite Hc, with_delta_length. unfold Count.addBatchSinglePlace, rows_between. rewrite Nat.sub_0_r.
  rewrite (foldl_total _ (fun _ => d)).
  - apply reflexive_eq. f_equal. unfold total. rewrite <- (length_seq (length os) 0) at 2. generalize (seq 0 (length os)). intros l. induction l as [|i l IH]; cbn in *; lia.
  - intros n i Hi%elem_of_seq. rewrite deltas_of by lia. apply to_u64_eqm.
Qed.

Lemma totals_applies before cs after s n :
  summable -> applies before cs after -> s ≅ total value before -> n ≅ Z.of_nat (length before) ->
  foldl sum_chunk s cs ≅ total value after /\ foldl count_chunk n cs ≅ Z.of_nat (length after).
Proof.
  intros Hv. revert before s n. induction cs as [|c cs IH]; intros before s n Ha Hs Hn; cbn in *.
  - by rewrite <- (total_perm value before after), <- (Permutation_length Ha).
  - destruct Ha as (mid & Hc & Ha). apply (IH mid); [done| |]; destruct Hc as [(os & Hc & Hp)|(os & Hc & Hp)].
    + etrans; [by apply (sum_chunk_total 1 os); [|left|]|]. rewrite (total_perm value _ _ Hp), total_rows_app, Hs. apply reflexive_eq. lia.
    + etrans; [by apply (sum_chunk_total (-1) os); [|right|]|]. rewrite Hs, (total_perm value _ _ Hp), total_rows_app. apply reflexive_eq. lia.
    + etrans; [by apply (count_chunk_total 1 os)|]. rewrite (Permutation_length Hp), length_app, Hn. apply reflexive_eq. lia.
    + etrans; [by apply (count_chunk_total (-1) os)|]. rewrite Hn, (Permutation_length Hp), length_app. apply reflexive_eq. lia.
Qed.

Lemma sum_wrapped cs : wrapped ty (foldl sum_chunk Sum.create cs).
Proof. apply (foldl_wrapped ty); [by destruct ty|]. intros. apply wrap_wrapped. Qed.

Lemma count_wrapped cs : wrapped UInt64 (foldl count_chunk Count.create cs).
Proof.
  apply (foldl_wrapped UInt64); [done|]. intros s c Hs. unfold count_chunk, Count.addBatchSinglePlace. apply (foldl_wrapped UInt64); [done|].
  intros. apply (wrap_wrapped UInt64).
Qed.
End Totals.


Lemma i64_summable : summable Int64 to_i64.
Proof. intros x. split; [|done]. unfold in_type, to_i64. cbn. pose proof (Z.mod_pos_bound (x + 2 ^ 63) (2 ^ 64) eq_refl). lia. Qed.


(** ** Chunks of one delta *)

Section Split.
Context {Row : Type} (delta : Row -> Z).
Implicit Types (rows : list Row).

(** The rows from [i] up to [j]. *)
Local Abbreviation part rows i j := (take (j - i) (drop i rows)).

Lemma cut_parts rows d i j todo :
  (i < j)%nat -> (j + todo = length rows)%nat -> delta <$> rows !! i = Some d -> Forall (fun r => delta r = d) (part rows i j) ->
  let '(l, start) := Split.cut delta rows i j todo in
  concat l ++ drop start rows = drop i rows /\ Forall (fun rs => rs <> []) (l ++ [drop start rows]) /\
  Forall (fun rs => exists d, Forall (fun r => delta r = d) rs) (l ++ [drop start rows]).
Proof.
  revert i j d. induction todo as [|todo IH]; intros i j d Hij Hlen Hd Hall; cbn.
  - split; [done|]. assert (Hj : part rows i j = drop i rows) by (apply take_ge; rewrite length_drop; lia). rewrite Hj in Hall.
    split; (constructor; [|done]); [|by exists d]. intros Hn. apply (f_equal length) in Hn. rewrite length_drop in Hn. cbn in Hn. lia.
  - destruct (lookup_lt_is_Some_2 rows j ltac:(lia)) as [r Hr]. case_bool_decide as He.
    + apply (IH i (S j) d); [lia|lia|done|]. replace (S j - i)%nat with (S (j - i)) by lia. rewrite (take_S_r _ _ r).
      * apply Forall_app. split; [done|]. constructor; [|done]. rewrite Hr, Hd in He. by injection He.
      * rewrite lookup_drop. by replace (i + (j - i))%nat with j by lia.
    + pose proof (IH j (S j) (delta r) ltac:(lia) ltac:(lia) ltac:(by rewrite Hr)) as IH'. destruct (Split.cut delta rows j (S j) todo) as [l start].
      destruct IH' as (H1 & H2 & H3).
      { replace (S j - j)%nat with 1%nat by lia. rewrite (drop_S _ r) by done. by repeat constructor. }
      cbn [concat app]. rewrite <- app_assoc, H1. split; [|split].
      * rewrite <- (take_drop (j - i) (drop i rows)) at 2. rewrite drop_drop. by replace (i + (j - i))%nat with j by lia.
      * constructor; [|done]. intros Hn. apply (f_equal length) in Hn. rewrite length_take, length_drop in Hn. cbn in Hn. lia.
      * constructor; [by exists d|done].
Qed.

(** A chunk is cut into chunks of one delta with its rows in their order; the context goes with the last of them. *)
Lemma split_correct (c : Chunk Row) :
  let cs := Split.work delta c in
  concat (chunk_rows <$> cs) = chunk_rows c /\ context <$> last cs = Some (context c) /\
  (checkpoint (context c) = false -> Forall (fun c => exists d, Forall (fun r => delta r = d) (chunk_rows c)) cs).
Proof.
  destruct c as [rows ctx]. unfold Split.work. cbn [chunk_rows context]. destruct (checkpoint ctx) eqn:Hck; [cbn; by rewrite app_nil_r|].
  destruct rows as [|r rows]; [split; [done|]; split; [done|]; intros _; constructor; [by exists 0|done]|].
  assert (Hsame : Split.same_delta delta (r :: rows) = true -> Forall (fun x => delta x = delta r) (r :: rows)).
  { cbn. intros Hf. constructor; [done|]. apply Forall_forall. intros x Hx. apply forallb_forall with (x := x) in Hf; [by apply Z.eqb_eq|by apply list_elem_of_In]. }
  destruct (Split.same_delta delta (r :: rows)).
  { split; [apply app_nil_r|]. split; [done|]. intros _. constructor; [|done]. exists (delta r). by apply Hsame. }
  pose proof (cut_parts (r :: rows) (delta r) 0 1 (length (r :: rows) - 1) ltac:(lia) ltac:(cbn; lia) eq_refl) as Hcut.
  destruct (Split.cut delta (r :: rows) 0 1 (length (r :: rows) - 1)) as [l start]. destruct Hcut as (H1 & _ & H3); [by repeat constructor|].
  split; [|split].
  - rewrite fmap_app, concat_app, <- list_fmap_compose. cbn [fmap list_fmap concat chunk_rows]. rewrite app_nil_r.
    rewrite <- (drop_0 (r :: rows)) at 2. rewrite <- H1. f_equal. f_equal. apply list_fmap_id.
  - by rewrite last_snoc.
  - intros _. apply Forall_app in H3 as [H3 H4]. apply Forall_app. split; [by apply Forall_fmap|]. constructor; [|done]. by apply Forall_cons in H4 as [H4 _].
Qed.
End Split.

(** ** Ports *)

Section Ports.
Context {In Out St : Type} (work : In -> St -> option (St * list Out)).

(** Calls of [prepare], and of [work] when a chunk was pulled: the state, what was pushed, the queue, and the chunks that
    were taken. *)
Fixpoint serve (ps : list (Ports.Port (In := In))) (s : St) (queue : list Out) : option (St * list Out * list Out * list In) :=
  match ps with
  | [] => Some (s, [], queue, [])
  | p :: ps =>
      let '(status, pushed, queue) := Ports.prepare p queue in
      x ← match status with Ports.Ready c => y ← work c s; Some (y.1, queue ++ y.2, [c]) | _ => Some (s, queue, []) end;
      let '(s, queue, taken) := x in
      y ← serve ps s queue;
      let '(s, pushed', queue, taken') := y in
      Some (s, option_list pushed ++ pushed', queue, taken ++ taken')
  end.

Fixpoint work_each (cs : list In) (s : St) : option (St * list Out) :=
  match cs with
  | [] => Some (s, [])
  | c :: cs => x ← work c s; y ← work_each cs x.1; Some (y.1, x.2 ++ y.2)
  end.

Lemma work_each_app cs cs' s s1 out1 s2 out2 :
  work_each cs s = Some (s1, out1) -> work_each cs' s1 = Some (s2, out2) -> work_each (cs ++ cs') s = Some (s2, out1 ++ out2).
Proof.
  revert s out1. induction cs as [|c cs IH]; intros s out1; cbn; [by intros [= <- <-] ->|]. destruct (work c s) as [[s' o]|]; [|done]. cbn.
  destruct (work_each cs s') as [[s'' o']|] eqn:Hw; [|done]. cbn. intros [= <- <-] Hw2. rewrite (IH _ _ Hw Hw2). cbn. by rewrite app_assoc.
Qed.

Lemma prepare_queue p (queue : list Out) status pushed rest :
  Ports.prepare p queue = (status, pushed, rest) -> queue = option_list pushed ++ rest /\ (forall c : In, status = Ports.Ready c -> rest = []).
Proof.
  unfold Ports.prepare. destruct (Ports.output_finished p); [by intros [= <- <- <-]|]. destruct (Ports.can_push p); [|by intros [= <- <- <-]]. cbn.
  intros [= <- <- <-]. split; [by destruct queue|]. by destruct (tail queue).
Qed.

(** Nothing is lost or reordered between [work] and the output, whenever the ports let the transform run. *)
Lemma serve_correct ps s queue s' pushed queue' taken :
  serve ps s queue = Some (s', pushed, queue', taken) -> exists out, work_each taken s = Some (s', out) /\ pushed ++ queue' = queue ++ out.
Proof.
  revert s queue pushed taken. induction ps as [|p ps IH]; intros s queue pushed taken; cbn [serve].
  { intros [= <- <- <- <-]. exists []. by rewrite app_nil_r. }
  destruct (Ports.prepare p queue) as [[status pushed1] rest] eqn:Hp. destruct (prepare_queue _ _ _ _ _ Hp) as [-> Hready].
  assert (Hstep : forall s1 q1 t1 o1, work_each t1 s = Some (s1, o1) -> q1 = rest ++ o1 ->
    (y ← serve ps s1 q1; let '(s, pushed', queue, taken') := y in Some (s, option_list pushed1 ++ pushed', queue, t1 ++ taken')) = Some (s', pushed, queue', taken) ->
    exists out, work_each taken s = Some (s', out) /\ pushed ++ queue' = (option_list pushed1 ++ rest) ++ out).
  { intros s1 q1 t1 o1 Hw -> Hs. destruct (serve ps s1 (rest ++ o1)) as [[[[s2 pushed2] q2] t2]|] eqn:Hs2; [|done]. cbn in Hs. injection Hs as <- <- <- <-.
    destruct (IH _ _ _ _ Hs2) as (out & Hw2 & He). exists (o1 ++ out). split; [by eapply work_each_app|]. by rewrite <- !app_assoc, He, <- !app_assoc. }
  destruct status; cbn; try (apply (Hstep s rest [] []); [done|by rewrite app_nil_r]). destruct (work c s) as [[s1 o1]|] eqn:Hw; [|done]. cbn.
  apply (Hstep s1 (rest ++ o1) [c] o1); [|done]. cbn. rewrite Hw. cbn. by rewrite app_nil_r.
Qed.
End Ports.
