(* ===== verification/Dedup.v ===== *)
(** * Deduplication of streams (src/Processors/Transforms/Streaming/DedupTransform.cpp and DedupTransform.h)

    [dedup(stream, columns, timeout, limit)] lets a row pass when the hash of its columns is
    not among the keys it remembers.  Keys are remembered in the order in which they came,
    with the time; the oldest are forgotten when there are more than the limit and when they
    time out.  The hash of a row is any function; every look at the monotonic clock takes the
    next of its readings.

    In [DedupProps] a log remembers which keys were let pass and when.  The keys that the code
    still knows are the end of the log ([Inv]); those before it were too far back or too old.
    So a key passes again only after its time, and a row is dropped only when a row with its
    key has passed. *)

From stdpp Require Import gmap.
From S2P Require Import Prelude Codec.

Local Open Scope Z_scope.

Module Dedup.

Record KeyTime : Type := mkKeyTime { key : Z; time : Z }.
Record Limits : Type := mkLimits { max_entries : Z; timeout_interval_ms : Z }.
Record KeySet : Type := mkKeySet { key_set : gset Z; keys : list KeyTime }.
Definition empty_keys : KeySet := mkKeySet ∅ [].

(** [KeySet(limit, limit_sec)]: the arguments are cut to 32 bits, and the product must not overflow. *)
Definition create (limit limit_sec : Z) : res Limits :=
  let timeout := to_i32 limit_sec * 1000 in
  if bool_decide (- 2 ^ 31 <= timeout < 2 ^ 31) then Ok (mkLimits (to_u32 limit) timeout) else Undef.

Section KeySet.
Context {Row : Type} (hash : Row -> Z) (p : Limits) (clock : nat -> Z).

Fixpoint remove_over (ks : list KeyTime) (set : gset Z) : gset Z * list KeyTime :=
  match ks with
  | [] => (set, [])
  | x :: ks' => if max_entries p <? Z.of_nat (length ks) then remove_over ks' (set ∖ {[key x]}) else (set, ks)
  end.

(** [timedOut] of the first key reads the clock each time. *)
Fixpoint remove_timed_out (ks : list KeyTime) (set : gset Z) (n : nat) : gset Z * list KeyTime * nat :=
  match ks with
  | [] => (set, [], n)
  | x :: ks' =>
      if timeout_interval_ms p <? clock n - time x then remove_timed_out ks' (set ∖ {[key x]}) (S n) else (set, ks, S n)
  end.

(** The loop over the keys of the rows; a new key reads the clock. *)
Fixpoint insert_all (hs : list Z) (s : KeySet) (n : nat) : list bool * KeySet * nat :=
  match hs with
  | [] => ([], s, n)
  | h :: hs =>
      if bool_decide (h ∈ key_set s) then let '(f, s, n) := insert_all hs s n in (false :: f, s, n)
      else
        let '(f, s, n) := insert_all hs (mkKeySet ({[h]} ∪ key_set s) (keys s ++ [mkKeyTime h (clock n)])) (S n) in
        (true :: f, s, n)
  end.

Definition prune (s : KeySet) (n : nat) : KeySet * nat :=
  let '(set, ks) := if 0 <? max_entries p then remove_over (keys s) (key_set s) else (key_set s, keys s) in
  let '(set, ks, n) := if 0 <? timeout_interval_ms p then remove_timed_out ks set n else (set, ks, n) in
  (mkKeySet set ks, n).

Definition populateKeySetsAndCalculateResults (rows : list Row) (s : KeySet) (n : nat) : list bool * KeySet * nat :=
  let '(s, n) := prune s n in insert_all (hash <$> rows) s n.

(** [transform] *)
Definition transform (rows : list Row) (s : KeySet) (n : nat) : list Row * KeySet * nat :=
  match rows with
  | [] => ([], s, n)
  | _ =>
      let '(f, s, n) := populateKeySetsAndCalculateResults rows s n in
      (snd <$> filter (fun x => x.1 = true) (zip f rows), s, n)
  end.

Fixpoint transform_all (chunks : list (list Row)) (s : KeySet) (n : nat) : list Row * KeySet * nat :=
  match chunks with
  | [] => ([], s, n)
  | rows :: chunks =>
      let '(out, s, n) := transform rows s n in
      let '(outs, s, n) := transform_all chunks s n in
      (out ++ outs, s, n)
  end.
End KeySet.
End Dedup.

Module DedupProps.
Import Dedup.

Section Props.
Context {Row : Type} (hash : Row -> Z) (p : Limits) (clock : nat -> Z).
Hypothesis monotonic : forall i j, (i <= j)%nat -> clock i <= clock j.

(** The set holds the keys of the queue, each once. *)
Definition wf (set : gset Z) (ks : list KeyTime) : Prop := set = list_to_set (key <$> ks) /\ NoDup (key <$> ks).

Lemma wf_tail set x ks : wf set (x :: ks) -> wf (set ∖ {[key x]}) ks.
Proof.
  intros [-> Hnd]. apply NoDup_cons in Hnd as [Hx Hnd]. split; [|done]. cbn. apply leibniz_equiv.
  assert (key x ∉ (list_to_set (key <$> ks) : gset Z)) by by rewrite elem_of_list_to_set. set_solver.
Qed.

Lemma remove_over_spec set ks set' ks' :
  wf set ks -> remove_over p ks set = (set', ks') ->
  wf set' ks' /\ exists d, ks' = drop d ks /\ (d <= length ks)%nat /\ forall i, (i < d)%nat -> max_entries p < Z.of_nat (length ks) - Z.of_nat i.
Proof.
  revert set. induction ks as [|x ks IH]; intros set Hwf; cbn [remove_over].
  - intros [= <- <-]. split; [done|]. exists 0%nat. split; [done|]. split; [done|]. lia.
  - destruct (Z.ltb_spec (max_entries p) (Z.of_nat (length (x :: ks)))) as [Hlt|Hle].
    + intros Hr. destruct (IH _ (wf_tail _ _ _ Hwf) Hr) as (Hwf' & d & -> & Hd & Hold). split; [done|]. exists (S d). split; [done|]. cbn in *. split; [lia|].
      intros [|i] Hi; [lia|]. specialize (Hold i ltac:(lia)). lia.
    + intros [= <- <-]. split; [done|]. exists 0%nat. split; [done|]. split; [lia|]. lia.
Qed.

Lemma remove_timed_out_spec set ks n set' ks' n' :
  wf set ks -> remove_timed_out p clock ks set n = (set', ks', n') ->
  wf set' ks' /\ (n <= n')%nat /\ exists d, ks' = drop d ks /\ (d <= length ks)%nat /\
    forall i x, (i < d)%nat -> ks !! i = Some x -> exists j, (j < n')%nat /\ timeout_interval_ms p < clock j - time x.
Proof.
  revert set n. induction ks as [|x ks IH]; intros set n Hwf; cbn [remove_timed_out].
  - intros [= <- <- <-]. split; [done|]. split; [done|]. exists 0%nat. split; [done|]. split; [done|]. lia.
  - destruct (Z.ltb_spec (timeout_interval_ms p) (clock n - time x)) as [Hlt|Hle].
    + intros Hr. destruct (IH _ _ (wf_tail _ _ _ Hwf) Hr) as (Hwf' & Hn & d & -> & Hd & Hold). split; [done|]. split; [lia|]. exists (S d). split; [done|].
      cbn. split; [lia|]. intros [|i] y Hi Hy; [injection Hy as <-; exists n; split; [lia|done]|]. by apply (Hold i); [lia|].
    + intros [= <- <- <-]. split; [done|]. split; [lia|]. exists 0%nat. split; [done|]. split; [cbn; lia|]. lia.
Qed.

(** [log] is all keys that were let pass, with their times, and the queue is its end.  What was forgotten was too far back
    or too old when the clock was read. *)
Definition forgotten (log : list KeyTime) (n i : nat) : Prop :=
  exists x, log !! i = Some x /\
    ((0 < max_entries p /\ max_entries p < Z.of_nat (length log) - Z.of_nat i) \/
     (0 < timeout_interval_ms p /\ exists j, (j < n)%nat /\ timeout_interval_ms p < clock j - time x)).

(** A key passes again only when it was forgotten. *)
Definition spaced (log : list KeyTime) : Prop :=
  forall i j x y, (i < j)%nat -> log !! i = Some x -> log !! j = Some y -> key x = key y ->
    (0 < max_entries p /\ max_entries p < Z.of_nat j - Z.of_nat i) \/ (0 < timeout_interval_ms p /\ timeout_interval_ms p < time y - time x).

Record Inv (log : list KeyTime) (s : KeySet) (n : nat) : Prop := {
  inv_wf : wf (key_set s) (keys s);
  inv_suffix : exists d, keys s = drop d log /\ (d <= length log)%nat /\ forall i, (i < d)%nat -> forgotten log n i;
  inv_spaced : spaced log;
}.

Lemma forgotten_later log n n' i : (n <= n')%nat -> forgotten log n i -> forgotten log n' i.
Proof. intros Hn (x & Hx & [H|(Ht & j & Hj & Hc)]); exists x; (split; [done|]); [by left|]. right. split; [done|]. exists j. split; [lia|done]. Qed.

Lemma inv_empty_keys : Inv [] empty_keys 0.
Proof. split; [by split; [|constructor]| |by intros i j x y]. exists 0%nat. split; [done|]. split; [done|]. lia. Qed.

(** Dropping more of the queue. *)
Lemma inv_drop log s n d set' n' :
  Inv log s n -> (n <= n')%nat -> (d <= length (keys s))%nat -> wf set' (drop d (keys s)) ->
  (forall i x, (i < d)%nat -> keys s !! i = Some x ->
     (0 < max_entries p /\ max_entries p < Z.of_nat (length (keys s)) - Z.of_nat i) \/
     (0 < timeout_interval_ms p /\ exists j, (j < n')%nat /\ timeout_interval_ms p < clock j - time x)) ->
  Inv log (mkKeySet set' (drop d (keys s))) n'.
Proof.
  intros [Hwf (d0 & Hk & Hd0 & Hold) Hsp] Hn Hd Hwf' Hnew. split; [done| |done]. cbn. rewrite Hk in *. rewrite length_drop in Hd.
  exists (d0 + d)%nat. split; [apply drop_drop|]. split; [lia|]. intros i Hi. destruct (decide (i < d0)%nat); [by eapply forgotten_later, Hold|].
  destruct (lookup_lt_is_Some_2 log i ltac:(lia)) as [x Hx]. exists x. split; [done|].
  destruct (Hnew (i - d0)%nat x) as [[H1 H2]|H2]; [lia|rewrite lookup_drop; by replace (d0 + (i - d0))%nat with i by lia|left|by right].
  rewrite length_drop in H2. split; [done|lia].
Qed.

Lemma inv_prune log s n s' n' : Inv log s n -> prune p clock s n = (s', n') -> Inv log s' n'.
Proof.
  intros HI. unfold prune. destruct (if 0 <? max_entries p then _ else _) as [set1 ks1] eqn:H1.
  assert (HI1 : Inv log (mkKeySet set1 ks1) n).
  { destruct (Z.ltb_spec 0 (max_entries p)) as [Hm|Hm]; [|injection H1 as <- <-; by destruct s].
    destruct (remove_over_spec _ _ _ _ (inv_wf _ _ _ HI) H1) as (Hwf & d & -> & Hd & Hold). apply (inv_drop log s n d); [done..|]. intros i x Hi _. left. split; [done|by apply Hold]. }
  destruct (if 0 <? timeout_interval_ms p then _ else _) as [[set2 ks2] n2] eqn:H2. intros [= <- <-].
  destruct (Z.ltb_spec 0 (timeout_interval_ms p)) as [Ht|Ht]; [|by injection H2 as <- <- <-].
  destruct (remove_timed_out_spec _ _ _ _ _ _ (inv_wf _ _ _ HI1) H2) as (Hwf & Hn & d & -> & Hd & Hold).
  apply (inv_drop log (mkKeySet set1 ks1) n d); [done..|]. intros i x Hi Hx. right. split; [done|]. by apply (Hold i).
Qed.

(** A new key. *)
Lemma inv_pass log s n h :
  Inv log s n -> h ∉ key_set s ->
  Inv (log ++ [mkKeyTime h (clock n)]) (mkKeySet ({[h]} ∪ key_set s) (keys s ++ [mkKeyTime h (clock n)])) (S n).
Proof.
  intros [[Hset Hnd] (d & Hk & Hd & Hold) Hsp] Hh. assert (Hnew : h ∉ key <$> keys s) by (rewrite Hset in Hh; by rewrite elem_of_list_to_set in Hh). split; cbn.
  - split; [rewrite Hset, fmap_app; apply leibniz_equiv; set_solver|]. rewrite fmap_app. apply NoDup_app. split; [done|]. split; [|apply NoDup_singleton].
    intros x Hx Hx'%list_elem_of_singleton. by subst.
  - exists d. rewrite Hk, drop_app_le by done. split; [done|]. rewrite length_app. split; [lia|]. intros i Hi. destruct (Hold i Hi) as (x & Hx & Hf).
    exists x. split; [by apply lookup_app_l_Some|]. rewrite length_app. destruct Hf as [Hf|(Ht & j & Hj & Hc)]; [left; cbn; lia|]. right. split; [done|]. exists j. split; [lia|done].
  - intros i j x y Hij Hx Hy Hxy. assert (Hlen : (j < length (log ++ [mkKeyTime h (clock n)]))%nat) by by eapply lookup_lt_Some. rewrite length_app in Hlen. cbn in Hlen.
    destruct (decide (j < length log)%nat) as [Hj|Hj].
    { rewrite lookup_app_l in Hx, Hy by lia. by apply (Hsp i j x y). }
    assert (j = length log) as -> by lia. rewrite lookup_app_l in Hx by lia. rewrite lookup_app_r, Nat.sub_diag in Hy by lia. injection Hy as <-. cbn in Hxy.
    destruct (decide (i < d)%nat) as [Hi|Hi].
    + destruct (Hold i Hi) as (x' & Hx' & Hf). rewrite Hx in Hx'. injection Hx' as <-. destruct Hf as [Hf|(Ht & k & Hkn & Hc)]; [left; lia|]. right. split; [done|]. cbn.
      pose proof (monotonic k n ltac:(lia)). lia.
    + exfalso. apply Hnew. rewrite Hk, <- Hxy. apply list_elem_of_fmap_2, list_elem_of_lookup. exists (i - d)%nat. rewrite lookup_drop. by replace (d + (i - d))%nat with i by lia.
Qed.

(** What passes of rows, by the filter. *)
Definition passed {A} (f : list bool) (l : list A) : list A := snd <$> filter (fun x => x.1 = true) (zip f l).

Lemma passed_cons {A} b f (x : A) l : passed (b :: f) (x :: l) = if b : bool then x :: passed f l else passed f l.
Proof. unfold passed. cbn [zip zip_with]. rewrite filter_cons. by destruct b. Qed.

Lemma passed_fmap {A B} (g : A -> B) f (l : list A) : passed f (g <$> l) = g <$> passed f l.
Proof. revert l. induction f as [|b f IH]; intros [|x l]; [done..|]. rewrite fmap_cons, !passed_cons, IH. by destruct b. Qed.

Lemma insert_all_spec log s n hs f s' n' :
  Inv log s n -> insert_all clock hs s n = (f, s', n') ->
  exists new, Inv (log ++ new) s' n' /\ key <$> new = passed f hs /\ forall h, h ∈ hs -> h ∈ key <$> log ++ new.
Proof.
  revert log s n f s' n'. induction hs as [|h hs IH]; intros log s n f s' n' HI; cbn [insert_all].
  - intros [= <- <- <-]. exists []. rewrite app_nil_r. split; [done|]. split; [done|]. by intros h ?%not_elem_of_nil.
  - case_bool_decide as Hh.
    + destruct (insert_all clock hs s n) as [[f1 s1] n1] eqn:Hr. intros [= <- <- <-]. destruct (IH _ _ _ _ _ _ HI Hr) as (new & HI' & Hnew & Hall).
      exists new. split; [done|]. rewrite passed_cons. split; [done|]. intros h' [->|Hh']%elem_of_cons; [|by apply Hall].
      destruct HI as [[Hset _] (d & Hk & _) _]. rewrite Hset, elem_of_list_to_set, Hk in Hh. rewrite fmap_app. apply elem_of_app. left.
      apply list_elem_of_fmap in Hh as (x & -> & Hx). apply list_elem_of_fmap_2. rewrite <- (take_drop d log). apply elem_of_app. by right.
    + destruct (insert_all clock hs _ (S n)) as [[f1 s1] n1] eqn:Hr. intros [= <- <- <-]. destruct (IH _ _ _ _ _ _ (inv_pass _ _ _ _ HI Hh) Hr) as (new & HI' & Hnew & Hall).
      exists (mkKeyTime h (clock n) :: new). rewrite (cons_middle _ log new), app_assoc. split; [done|]. rewrite passed_cons, fmap_cons, Hnew. split; [done|].
      intros h' [->|Hh']%elem_of_cons; [|by apply Hall]. rewrite !fmap_app. apply elem_of_app. left. apply elem_of_app. right. by left.
Qed.

Lemma passed_sublist {A} f (l : list A) : passed f l `sublist_of` l.
Proof.
  revert l. induction f as [|b f IH]; intros [|x l]; try apply sublist_nil_l. rewrite passed_cons. destruct b; [by apply sublist_skip|by apply sublist_cons].
Qed.

Lemma transform_spec log s n rows out s' n' :
  Inv log s n -> transform hash p clock rows s n = (out, s', n') ->
  exists new, Inv (log ++ new) s' n' /\ key <$> new = hash <$> out /\ out `sublist_of` rows /\ forall r, r ∈ rows -> hash r ∈ key <$> log ++ new.
Proof.
  intros HI. destruct rows as [|r rows]; cbn [transform].
  { intros [= <- <- <-]. exists []. rewrite app_nil_r. split; [done|]. split; [done|]. split; [done|]. by intros r ?%not_elem_of_nil. }
  unfold populateKeySetsAndCalculateResults. destruct (prune p clock s n) as [s1 n1] eqn:Hp. destruct (insert_all clock _ s1 n1) as [[f s2] n2] eqn:Hi. intros [= <- <- <-].
  destruct (insert_all_spec _ _ _ _ _ _ _ (inv_prune _ _ _ _ _ HI Hp) Hi) as (new & HI' & Hnew & Hall). exists new. split; [done|]. split; [by rewrite Hnew, passed_fmap|].
  split; [apply passed_sublist|]. intros x Hx. by apply Hall, list_elem_of_fmap_2.
Qed.

Lemma transform_all_spec chunks log s n out s' n' :
  Inv log s n -> transform_all hash p clock chunks s n = (out, s', n') ->
  exists new, Inv (log ++ new) s' n' /\ key <$> new = hash <$> out /\ out `sublist_of` concat chunks /\ forall r, r ∈ concat chunks -> hash r ∈ key <$> log ++ new.
Proof.
  revert log s n out. induction chunks as [|rows chunks IH]; intros log s n out HI; cbn [transform_all].
  - intros [= <- <- <-]. exists []. rewrite app_nil_r. split; [done|]. split; [done|]. split; [done|]. by intros r ?%not_elem_of_nil.
  - destruct (transform hash p clock rows s n) as [[out1 s1] n1] eqn:H1. destruct (transform_all hash p clock chunks s1 n1) as [[out2 s2] n2] eqn:H2. intros [= <- <- <-].
    destruct (transform_spec _ _ _ _ _ _ _ HI H1) as (new1 & HI1 & Hk1 & Hs1 & Ha1). destruct (IH _ _ _ _ HI1 H2) as (new2 & HI2 & Hk2 & Hs2 & Ha2).
    exists (new1 ++ new2). rewrite app_assoc. split; [done|]. rewrite !fmap_app, Hk1, Hk2. split; [done|]. split; [by apply sublist_app|]. cbn [concat].
    intros r [Hr|Hr]%elem_of_app; [apply Ha1 in Hr|apply Ha2 in Hr]; rewrite !fmap_app, ?Hk1, ?Hk2 in *; [apply elem_of_app; by left|done].
Qed.

(** ** Without limits *)

(** The first row of each key. *)
Fixpoint firsts (seen : gset Z) (rows : list Row) : list Row :=
  match rows with
  | [] => []
  | r :: rows => if bool_decide (hash r ∈ seen) then firsts seen rows else r :: firsts ({[hash r]} ∪ seen) rows
  end.
Definition seen_after (seen : gset Z) (rows : list Row) : gset Z := foldl (fun seen r => {[hash r]} ∪ seen) seen rows.

Lemma firsts_app seen rows rows' : firsts seen (rows ++ rows') = firsts seen rows ++ firsts (seen_after seen rows) rows'.
Proof.
  revert seen. induction rows as [|r rows IH]; intros seen; [done|]. cbn [app firsts seen_after foldl]. case_bool_decide as Hr; rewrite IH; [|done].
  by rewrite (subseteq_union_1_L {[hash r]} seen) by set_solver.
Qed.

Lemma insert_all_firsts rows s n f s' n' :
  insert_all clock (hash <$> rows) s n = (f, s', n') -> passed f rows = firsts (key_set s) rows /\ key_set s' = seen_after (key_set s) rows.
Proof.
  revert s n f. induction rows as [|r rows IH]; intros s n f; cbn [fmap list_fmap insert_all]; [by intros [= <- <- <-]|]. cbn [firsts seen_after foldl]. case_bool_decide as Hr.
  - destruct (insert_all clock _ s n) as [[f1 s1] n1] eqn:Hi. intros [= <- <- <-]. destruct (IH _ _ _ Hi) as [H1 H2]. rewrite passed_cons. split; [done|].
    rewrite H2. by rewrite (subseteq_union_1_L {[hash r]} (key_set s)) by set_solver.
  - destruct (insert_all clock _ _ (S n)) as [[f1 s1] n1] eqn:Hi. intros [= <- <- <-]. destruct (IH _ _ _ Hi) as [H1 H2]. rewrite passed_cons, H1. done.
Qed.

Lemma transform_all_firsts chunks s n out s' n' :
  max_entries p = 0 -> timeout_interval_ms p <= 0 -> transform_all hash p clock chunks s n = (out, s', n') -> out = firsts (key_set s) (concat chunks).
Proof.
  intros Hm Ht. revert s n out. induction chunks as [|rows chunks IH]; intros s n out; cbn [transform_all concat]; [by intros [= <- <- <-]|].
  destruct (transform hash p clock rows s n) as [[out1 s1] n1] eqn:H1. destruct (transform_all hash p clock chunks s1 n1) as [[out2 s2] n2] eqn:H2. intros [= <- <- <-].
  assert (Hone : out1 = firsts (key_set s) rows /\ key_set s1 = seen_after (key_set s) rows).
  { destruct rows as [|r rows]; cbn [transform] in H1; [by injection H1 as <- <- <-|]. unfold populateKeySetsAndCalculateResults, prune in H1. rewrite Hm, (proj2 (Z.ltb_ge 0 _) Ht) in H1.
    cbn [Z.ltb Z.compare] in H1. destruct (insert_all clock _ _ n) as [[f s2'] n2'] eqn:Hi. injection H1 as <- <- <-. by apply (insert_all_firsts _ (mkKeySet (key_set s) (keys s)) n f s2' n2'). }
  destruct Hone as [-> Hset]. rewrite firsts_app, <- Hset. f_equal. by eapply IH.
Qed.
End Props.
End DedupProps.

Import DedupProps.


(** Rows are their own keys; a limit of two keys and a timeout of a second. *)
Definition two_keys : Dedup.Limits := Dedup.mkLimits 2 1000.


(** The limit is checked before a chunk only: a chunk of many keys is remembered whole. *)
Example limit_per_chunk : length (Dedup.keys (Dedup.transform_all (fun r : Z => r) two_keys (fun i => Z.of_nat i) [[1; 2; 3; 4; 5]] Dedup.empty_keys 0).1.2) = 5%nat.
Proof. vm_compute. reflexivity. Qed.

(** A timeout of more than 24 days overflows 32 bits of milliseconds. *)
Example timeout_overflow : Dedup.create 10000 2147484 = Undef.
Proof. vm_compute. reflexivity. Qed.
